(* ===== verification/_CoqProject ===== *)
-Q . S2P
Prelude.v
GoStrconv.v
GoStrings.v
GoJson.v
SequencePosition.v
Tags.v
EventStore.v
Iterator.v
Matching.v
StoreSpec.v
MemoryStore.v
MemorySubscribe.v
LockKeys.v
Serialize.v
PgServer.v
SqlText.v
ReadSQL.v
PgProcedures.v
PgStore.v
PgInstall.v
PgConditions.v
Cursor.v
PgLogic.v
PgTyping.v
PgRules.v
PgBarrier.v
PgRead.v
PgSubscribe.v
PgAppend.v
PgConcurrency.v
PgDelivery.v
PgSequential.v
PgSequentialRead.v
PgDeadlock.v
PgTermination.v
PgFaultless.v
ConformanceData.v
Conformance.v
ConformanceLaws.v
ConformanceRaces.v
ConformanceProofs.v
MemoryConformance.v
PgRaces.v
PgConformance.v
