(* ===== verification/Prelude.v ===== *)
(** * A verification of dcb-event-store-pg-go

    The repository is an event store with two implementations of one interface:
    events carry a type, tags and JSON payloads; an append can be made
    conditional on no event matching a query having appeared after a position;
    reads and subscriptions filter by queries.

    ** The program and its model

    - [src/eventstore] holds the data and the pure operations on them:
      [SequencePosition.v] (sequence_position.go), [Tags.v] (tags.go),
      [EventStore.v] (event.go, query.go, append_condition.go,
      append_condition_error.go, append_command.go, the options of store.go) and
      [Iterator.v] (event_iterator.go).
    - [src/memory] is the in-memory store: [Matching.v] (matching.go, with the
      specification of queries), [MemoryStore.v] (store.go, position.go and the
      slice iterator of iterator.go) and [MemorySubscribe.v] (Subscribe and the
      subscribing iterator of iterator.go, as a transition system with any
      number of appenders and subscribers).
    - [src/postgres] is the Postgres store.  [LockKeys.v] has the advisory lock
      keys (lockkeys.go), [Serialize.v] what crosses to the database
      (serialize.go, position.go, the error message of append.go),
      [PgServer.v] the server that the package relies on, [SqlText.v] the SQL
      of reads on its side, [ReadSQL.v] the builder of that SQL (readsql.go), [PgProcedures.v] the stored procedures
      (the SQL and PL/pgSQL texts of store.go), [PgStore.v] the Go code around
      them (New, Append with its two paths, the read barrier), [Cursor.v] the
      iterator of a read (cursor.go), [PgRead.v] [Read] itself (read.go),
      [PgSubscribe.v] subscriptions (subscribe.go) and [PgInstall.v] the
      installation of the schema (EnsureInstalled in store.go).
    - [src/eventstore/eventstoretest] is the conformance suite.
      [Conformance.v] has its tests as programs over any store under test (all
      files of the directory), [ConformanceLaws.v] what a store promises to it
      and the rules to verify a test by, [ConformanceProofs.v] that every test
      passes under these promises, with [ConformanceData.v] and
      [ConformanceRaces.v] for the strings and the races of the tests.
    - [GoStrconv.v], [GoStrings.v] and [GoJson.v] hold what the code uses of
      Go's strconv, strings, unicode and encoding/json.
    - [StoreSpec.v] is the abstract specification: a store is a log,
      [append_contract] relates the log before and after an append to its
      result, and the classes [Appendable] and [AppendLaws] are the interface
      through which clients reason about a store.

    ** How the components interact

    The memory store serialises its calls with a mutex, so [MemoryStore.Append]
    is a function on states; subscriptions interleave with appends through the
    broadcast channel, which [MemorySubscribe.v] models with its identities.

    The Postgres store is a set of sessions that share a server.  A Go call is
    a [prog], a tree of database commands; [run] executes one alone, and
    [PgLogic.step] interleaves any number of them, one command at a time.
    Stored procedures are programs too, called through [statement], which gives
    them a transaction of their own.  Every command can fail; a failure of
    [CReply] is a commit whose confirmation got lost.  [PgLogic.v] is a
    rely-guarantee logic for these programs (its invariant [Inv] carries the
    protocol of the advisory locks), [PgRules.v] has its derived rules,
    [PgConditions.v] the meaning of the SQL condition check, [PgBarrier.v],
    [PgRead.v] and [PgAppend.v] the proofs of the calls, and
    [PgConcurrency.v], [PgSequential.v], [PgSequentialRead.v] and
    [PgDeadlock.v] what follows for systems of calls and for a call alone.
    [PgTyping.v] types the server's positions, [PgDelivery.v] is about
    subscribers among appends, [PgTermination.v] about the length of executions,
    [PgFaultless.v] about systems in which no command fails, and [PgRaces.v]
    about races on an empty store.

    The class [TestStore] is the interface between the suite and the stores, and
    [TestStoreLaws] its contract: [ConformanceProofs.v] is proved against it,
    [MemoryConformance.v] and [PgConformance.v] are its instances for the two
    stores, put together from the theorems about their operations.

    The iterators of both stores' reads are instances of one interface,
    [IteratorLaws]; [Collect] and [All] are verified against it.

    ** What the theorems show

    - Positions, tags, queries, conditions: parsing and printing, token rules,
      canonical order, constructors and validators, with every error.
    - Iteration: [Collect] and [All] against any iterator that obeys the
      interface, with termination.
    - The memory store: [Append] on every branch; refinement of the contract;
      reads against the specification of queries; the bound of positions;
      subscriptions deliver exactly once, lose no wake-up, make progress.
    - Any store that meets the contract: optimistic concurrency has exactly one
      winner, unconditional appends all land.
    - Lock keys: writers and barriers that matter to each other conflict,
      whatever the hash does, and no others do unless keys collide.
    - Serialization: positions, tags and conditions survive the way to the
      database and back, with the exact exceptions.
    - The SQL of reads: text and arguments denote what the read asks for, also
      to a server that parses the text; no value of a caller reaches the text;
      how what the clause of the criteria selects relates to the meaning of
      queries.
    - The cursor: batches leave no trace, a part is never passed off as the
      whole; events survive the way into a row and back.
    - The Postgres store under concurrency and failures: commits are
      serializable, calls report truthfully, the read barrier and finished
      reads are complete, calls do not deadlock, executions end, and under a
      fair schedule all calls return.  Alone: [Append] implements
      the contract, returns, and its two paths are interchangeable; [Read]
      returns what the in-memory store returns.
      They are about representable commands ([representable]: no tag with the
      delimiter of packed tags, no bound beyond [bigint]), queries of the
      constructors ([query_wf]: not the zero query) and, for progress, calls
      whose lock keys do not collide among themselves ([lockable]); what
      happens without these premises is stated by [packed_tags_roundtrip],
      [serializeConditions_spec] and [criteria_vs_query].
    - Subscriptions of the Postgres store deliver exactly once and in order among
      any appends and failures, catch up, and give their connection back.
    - Without failures appends never report a database error and positions have
      no gaps; positions stay within bigint in any case.
    - Installation: what a successful call leaves, what an interrupted one does
      (also when only a reply is lost), and the discipline of the migration lock, with its leak.
    - The conformance suite: any store that keeps the promises passes it, and
      both stores do, the Postgres one on either append path.

    ** Conventions

    A Go function with an error result is a function into [outcome]: [Ok],
    [Err] or [Panic].  Machine integers are [Z] with explicit wrap-around;
    strings are byte strings; a Go map used as a set is a [gset], its iteration
    order that of [elements], on which no result depends.  Slices are passed by
    value: the code does not mutate a slice that it shares.

    ** Bounds and fuel

    [FormatUint] writes at most 20 digits, which is enough for 64 bits
    ([FormatUint_numeral]).  The parser of SQL lists gets one more than the
    characters of its text ([separated_Join]).  The JSON scanner gets twice the length of its text,
    with which it never runs out ([scan_enough]).  [Collect] and [All] take the
    number of [Next] calls as fuel: one more than there are events left is
    enough ([Collect_total], [All_spec], [cursor_Collect]).  The batches of a
    cursor get one more than its rows ([batches_enough]).  Other loops are
    structural, and the waiting loops of subscriptions and lock acquisition are
    steps of transition systems.  [command_bound] is the number of commands that a
    call may take, and of turns after which a fair schedule has finished it
    ([executions_end]); the racers of the suite get [enough_rounds] of them.  A subscriber of the Postgres store gets a list
    of turns from the environment, one for each round of its loop: how the fetches
    go, whether the context has ended, how the wait ends; it is still waiting when
    they run out.  In the suite [paces] says how many rounds the draining
    goroutines get between two operations of a test; a wait for an event includes
    one more round, a wait for the end of a channel [patience] of them, which is
    enough for the events of the tests ([wpt_drain_patience]).

    ** What the database and the driver are taken to do

    [PgServer.v] fixes the behaviour of SQL that the package uses: statements
    see the committed rows and their own transaction's; [nextval] never gives a
    value twice, is not undone by a rollback and fails beyond [2^63 - 1];
    transaction-level advisory locks are held to the end of the transaction and
    exclude each other unless both are shared; a commit publishes all rows and
    then releases the locks; a cursor delivers the rows of the snapshot of its
    declaration.  [SqlText.v] is a parser for the [SELECT] statements of the
    form that the reads declare, with their meaning ([declare]); a text of
    another form is a syntax error, and more than 65535 arguments are refused
    by the protocol.  A lock is granted as soon as no other transaction holds
    one that excludes it; the order in which the server queues the requests is
    not fixed: every order of grants that a queue allows is an interleaving of
    the model, and [deadlock_freedom] and [executions_end] say that progress
    does not depend on it.  The driver sends nil slices as NULL.  The
    environment may fail any command, but does not forge the error message
    [APPEND_CONDITION_VIOLATED], which only the procedure raises ([fault_ok]).

    ** What is not modelled

    The connection pool beyond taking, using and returning the connection of a
    call; storage parameters, collations and planner settings of the schema,
    which do not affect results; transports and wire formats.  The goroutines
    of the suite's concurrency tests are an operation of the store under test,
    so that their interleaving is the store's: an order in which they get the
    mutex of the memory store, a schedule of the database commands of the
    Postgres store.  Of a read iterator and appends at the same time only what
    the suite does is composed ([read_snapshot]).  Tests and benchmarks of the
    packages are left out. *)

From Stdlib Require Export Ascii Lia ZArith.
From stdpp Require Export prelude strings gmap sorting.

(** ** Go results

    A Go function with results [(T, error)] either returns a value, returns a
    non-nil error, or panics.  [outcome E A] has one constructor for each. *)

Inductive outcome (E A : Type) : Type :=
  | Ok (a : A)
  | Err (e : E)
  | Panic (msg : string).
Arguments Ok {E A} a.
Arguments Err {E A} e.
Arguments Panic {E A} msg.

#[export] Instance outcome_ret E : MRet (outcome E) := λ A a, Ok a.

#[export] Instance outcome_bind E : MBind (outcome E) := λ A B k m,
  match m with
  | Ok a => k a
  | Err e => Err e
  | Panic msg => Panic msg
  end.

#[export] Instance outcome_fmap E : FMap (outcome E) := λ A B f m,
  match m with
  | Ok a => Ok (f a)
  | Err e => Err e
  | Panic msg => Panic msg
  end.

(** [if err != nil { return ..., wrap(err) }]: the error is replaced. *)
Definition map_err {E F A} (f : E → F) (m : outcome E A) : outcome F A :=
  match m with
  | Ok a => Ok a
  | Err e => Err (f e)
  | Panic msg => Panic msg
  end.

Definition is_Ok {E A} (m : outcome E A) : Prop := ∃ a, m = Ok a.
Definition is_Err {E A} (m : outcome E A) : Prop := ∃ e, m = Err e.

#[export] Instance Ok_inj E A : Inj (=) (=) (@Ok E A).
Proof. by intros ?? [=]. Qed.
#[export] Instance Err_inj E A : Inj (=) (=) (@Err E A).
Proof. by intros ?? [=]. Qed.

Lemma outcome_bind_Ok {E A B} (m : outcome E A) (k : A → outcome E B) b :
  m ≫= k = Ok b ↔ ∃ a, m = Ok a ∧ k a = Ok b.
Proof.
  destruct m; simpl; (split; [intros ?|intros (?&?&?)]); simplify_eq/=; eauto.
Qed.

(** ** Machine integers

    A Go [uint64] is the [Z] of its value, kept in range by [u64]; an [int64]
    likewise with [i64]. *)

Definition two63 : Z := 9223372036854775808%Z.
Definition two64 : Z := 18446744073709551616%Z.

Definition u64 (z : Z) : Z := (z `mod` two64)%Z.

(** Conversion [int64(x)] of a [uint64]: reinterpretation in two's complement. *)
Definition i64 (z : Z) : Z :=
  let u := (z `mod` two64)%Z in
  if decide (u < two63)%Z then u else (u - two64)%Z.

Definition in_u64 (z : Z) : Prop := (0 ≤ z < two64)%Z.
Definition in_i64 (z : Z) : Prop := (- two63 ≤ z < two63)%Z.

#[export] Instance in_u64_dec z : Decision (in_u64 z).
Proof. unfold in_u64. apply _. Defined.
#[export] Instance in_i64_dec z : Decision (in_i64 z).
Proof. unfold in_i64. apply _. Defined.

Lemma u64_range z : in_u64 (u64 z).
Proof. apply Z.mod_pos_bound. done. Qed.

Lemma u64_small z : in_u64 z → u64 z = z.
Proof. intros []. by apply Z.mod_small. Qed.

Lemma i64_range z : in_i64 (i64 z).
Proof.
  unfold in_i64, i64. pose proof (Z.mod_pos_bound z two64 eq_refl) as ?.
  unfold two63, two64 in *. case_decide; lia.
Qed.

(** ** Automation

    [crush] closes the goals that are left once the components' lemmas have
    been applied: case analysis on options, outcomes and decisions. *)

Create HintDb dcb discriminated.
Create Rewrite HintDb dcb.

Ltac case_matches :=
  repeat match goal with
  | |- context [match ?x with _ => _ end] => destruct x eqn:?; simplify_eq/=
  end.

Ltac case_matches_in H :=
  repeat match type of H with
  | context [match ?x with _ => _ end] => destruct x eqn:?; simplify_eq/=
  end.

Ltac crush := repeat (case_match || case_decide || case_bool_decide); simplify_eq/=;
  eauto with dcb; try lia; try done.

(** ** The first element that fails a test *)

Section first_failure.
Context {A : Type} (f : A → bool).

Lemma split_first l :
  Forall (λ x, f x = true) l ∨
  ∃ pre x post, l = pre ++ x :: post ∧ Forall (λ x, f x = true) pre ∧ f x = false.
Proof.
  induction l as [|x l IH]; [by left|].
  destruct (f x) eqn:Hx; [|by right; exists [], x, l].
  destruct IH as [?|(pre&y&post&->&?&?)]; [left; by constructor|].
  right. exists (x :: pre), y, post. split_and!; [done|by constructor|done].
Qed.

Lemma split_first_unique pre x post pre' x' post' :
  pre ++ x :: post = pre' ++ x' :: post' →
  Forall (λ x, f x = true) pre → f x = false →
  Forall (λ x, f x = true) pre' → f x' = false →
  pre = pre' ∧ x = x' ∧ post = post'.
Proof.
  intros Heq Hpre Hx. revert pre' Heq.
  induction Hpre as [|y pre Hy Hpre IH]; intros [|y' pre'] [=] Hpre' Hx'; subst.
  - done.
  - apply Forall_cons in Hpre' as [? _]. congruence.
  - congruence.
  - apply Forall_cons in Hpre' as [_ Hpre'].
    destruct (IH pre') as (->&->&->); done.
Qed.
End first_failure.

(** ** Sorted lists *)

Section sorted.
Context {A : Type} (R : relation A).

Lemma StronglySorted_filter (P : A → Prop) `{!∀ x, Decision (P x)} l :
  StronglySorted R l → StronglySorted R (filter P l).
Proof.
  induction 1 as [|x l Hl IH Hx]; [constructor|]. rewrite filter_cons. case_decide; [|done].
  apply StronglySorted_cons. split; [|done]. rewrite Forall_forall in *.
  intros y [_ Hy]%list_elem_of_filter. auto.
Qed.

Lemma StronglySorted_reverse l :
  StronglySorted R l → StronglySorted (flip R) (reverse l).
Proof.
  induction 1 as [|x l Hl IH Hx]; [constructor|]. rewrite reverse_cons.
  apply StronglySorted_app. split_and!; [|done|repeat constructor].
  intros y z Hy Hz%list_elem_of_singleton. subst. rewrite elem_of_reverse in Hy.
  rewrite Forall_forall in Hx. by apply Hx.
Qed.

Lemma StronglySorted_prefix l k : l `prefix_of` k → StronglySorted R k → StronglySorted R l.
Proof. intros [t ->] H. by apply StronglySorted_app in H as (_&?&_). Qed.

(** What a prefix leaves out comes after what it keeps. *)
Lemma StronglySorted_prefix_rest l k x y :
  l `prefix_of` k → StronglySorted R k → x ∈ l → y ∈ k → y ∉ l → R x y.
Proof.
  intros [t ->] [Hlt _]%StronglySorted_app Hx [Hy|Hy]%elem_of_app Hn; [done|].
  by apply Hlt.
Qed.
End sorted.

(** ** Filters *)

Lemma filter_all {A} (P : A → Prop) `{!∀ x, Decision (P x)} (l : list A) :
  (∀ x, x ∈ l → P x) → filter P l = l.
Proof.
  induction l as [|x l IH]; intros Hl; [done|].
  rewrite filter_cons_True by (apply Hl; by left). f_equal. apply IH. intros y ?.
  apply Hl. by right.
Qed.

Lemma filter_none {A} (P : A → Prop) `{!∀ x, Decision (P x)} (l : list A) :
  (∀ x, x ∈ l → ¬ P x) → filter P l = [].
Proof.
  induction l as [|x l IH]; intros Hl; [done|].
  rewrite filter_cons_False by (apply Hl; by left). apply IH. intros y ?.
  apply Hl. by right.
Qed.

(** ** Sums over maps *)

Definition map_sum {A} (f : A → nat) (m : gmap nat A) : nat :=
  map_fold (λ _ x n, (f x + n)%nat) 0%nat m.

Section map_sum.
Context {A : Type} (f : A → nat).
Implicit Types m : gmap nat A.

Lemma map_sum_fresh m i x : m !! i = None → map_sum f (<[i:=x]> m) = (f x + map_sum f m)%nat.
Proof.
  intros Hi. unfold map_sum.
  apply (map_fold_insert_L (λ _ x n, (f x + n)%nat) 0%nat i x); [intros; lia|done].
Qed.

Lemma map_sum_delete m i x : m !! i = Some x → map_sum f m = (f x + map_sum f (delete i m))%nat.
Proof.
  intros Hi. unfold map_sum.
  apply (map_fold_delete_L (λ _ x n, (f x + n)%nat) 0%nat i x); [intros; lia|done].
Qed.

Lemma map_sum_insert m i x y : m !! i = Some x →
  (map_sum f (<[i:=y]> m) + f x = map_sum f m + f y)%nat.
Proof.
  intros Hi. rewrite (map_sum_delete m i x) by done.
  rewrite (map_sum_delete (<[i:=y]> m) i y) by apply lookup_insert_eq.
  rewrite delete_insert_eq. lia.
Qed.

Lemma map_sum_lookup m i x : m !! i = Some x → (f x ≤ map_sum f m)%nat.
Proof. intros Hi. rewrite (map_sum_delete m i x) by done. lia. Qed.

(** Over the elements of a list, by their indices. *)
Lemma map_sum_seq start l :
  map_sum f (map_seq start l) = sum_list (f <$> l).
Proof.
  revert start. induction l as [|x l IH]; intros start; [done|].
  rewrite map_seq_cons, map_sum_fresh by apply map_seq_cons_disjoint. cbn. by rewrite IH.
Qed.
End map_sum.

Lemma map_sum_fmap {A B} (f : B → nat) (g : A → B) (m : gmap nat A) :
  map_sum f (g <$> m) = map_sum (f ∘ g) m.
Proof.
  unfold map_sum. rewrite map_fold_fmap. done.
Qed.
