(* ===== verification/GoStrconv.v ===== *)
(** * GoStrconv

    The decimal conversions of Go's [strconv] package, as far as the program
    uses them: [FormatUint], [FormatInt], [ParseUint], [ParseInt] and [Atoi],
    always in base 10 and for 64 bits.  The overflow tests are the ones
    [strconv] makes.  The lemmas at the end are the round trips on which the
    position types of the stores rely. *)

From S2P Require Import Prelude.

Local Open Scope Z_scope.

(** ** Digits *)

Definition digit_char (d : Z) : ascii := ascii_of_N (Z.to_N (48 + d)).

(** The value of a decimal digit, [None] for any other byte. *)
Definition char_digit (c : ascii) : option Z :=
  let n := Z.of_N (N_of_ascii c) in
  if decide (48 ≤ n ≤ 57) then Some (n - 48) else None.

(** ** Formatting *)

(** [fuel] is the number of digits that may still be written. *)
Fixpoint format_digits (fuel : nat) (n : Z) (acc : string) : string :=
  match fuel with
  | O => acc
  | S fuel =>
      let acc := String (digit_char (n `mod` 10)) acc in
      if decide (n < 10) then acc else format_digits fuel (n / 10) acc
  end.

(** 20 digits are enough for every uint64. *)
Definition FormatUint (n : Z) : string := format_digits 20 n EmptyString.

Definition FormatInt (n : Z) : string :=
  if decide (n < 0) then String "-" (FormatUint (- n)) else FormatUint n.

(** ** Parsing *)

Inductive num_error := ErrSyntax | ErrRange.

Definition cutoff10 : Z := (two64 - 1) / 10 + 1.

(** The digit loop of [strconv.ParseUint(s, 10, 64)]. *)
Fixpoint parse_digits (s : string) (n : Z) : outcome num_error Z :=
  match s with
  | EmptyString => Ok n
  | String c s =>
      match char_digit c with
      | None => Err ErrSyntax
      | Some d =>
          if decide (cutoff10 ≤ n) then Err ErrRange
          else if decide (two64 - 1 < n * 10 + d) then Err ErrRange
          else parse_digits s (n * 10 + d)
      end
  end.

Definition ParseUint (s : string) : outcome num_error Z :=
  match s with
  | EmptyString => Err ErrSyntax
  | _ => parse_digits s 0
  end.

(** [strconv.ParseInt(s, 10, 64)]: an optional sign, then [ParseUint]. *)
Definition ParseInt (s : string) : outcome num_error Z :=
  match s with
  | EmptyString => Err ErrSyntax
  | String c s' =>
      let neg := bool_decide (c = "-"%char) in
      let body := if decide (c = "+"%char ∨ c = "-"%char) then s' else s in
      match ParseUint body with
      | Ok un =>
          if negb neg && bool_decide (two63 ≤ un) then Err ErrRange
          else if neg && bool_decide (two63 < un) then Err ErrRange
          else Ok (if neg then - un else un)
      | Err e => Err e
      | Panic msg => Panic msg
      end
  end.

(** [strconv.Atoi] on a 64-bit platform agrees with [ParseInt(s, 10, 0)]. *)
Definition Atoi (s : string) : outcome num_error Z := ParseInt s.

(** ** Properties *)

Lemma char_digit_char d : 0 ≤ d < 10 → char_digit (digit_char d) = Some d.
Proof.
  intros Hd. unfold char_digit, digit_char.
  rewrite N_ascii_embedding by lia. rewrite Z2N.id by lia.
  rewrite decide_True by lia. f_equal. lia.
Qed.

Lemma char_digit_Some c d : char_digit c = Some d → 0 ≤ d < 10 ∧ c = digit_char d.
Proof.
  unfold char_digit. case_decide; intros [= <-]. split; [lia|].
  unfold digit_char. replace (48 + _) with (Z.of_N (N_of_ascii c)) by lia.
  by rewrite N2Z.id, ascii_N_embedding.
Qed.

(** A decimal numeral as a number: the specification the loops are checked
    against. *)
Fixpoint numeral (s : string) (n : Z) : option Z :=
  match s with
  | EmptyString => Some n
  | String c s => d ← char_digit c; numeral s (n * 10 + d)
  end.

Lemma numeral_le s n m : 0 ≤ n → numeral s n = Some m → n ≤ m.
Proof.
  revert n. induction s as [|c s IH]; intros n Hn; simpl; [by intros [= ->]|].
  destruct (char_digit c) as [d|] eqn:Hd; simpl; [|done].
  apply char_digit_Some in Hd as [? _]. intros ?%IH; lia.
Qed.

Lemma parse_digits_Ok s n m :
  0 ≤ n < two64 → parse_digits s n = Ok m ↔ numeral s n = Some m ∧ m < two64.
Proof.
  revert n. induction s as [|c s IH]; intros n Hn; simpl.
  { split; [intros [= <-]; split; [done|lia]|by intros [[= <-] _]]. }
  destruct (char_digit c) as [d|] eqn:Hd; simpl; [|by split; [|intros [? _]]].
  apply char_digit_Some in Hd as [Hd _].
  assert (cutoff10 = 1844674407370955162) by reflexivity.
  case_decide; [|case_decide]; [| |apply IH; unfold two64 in *; lia].
  all: split; [done|intros [?%numeral_le ?]]; unfold two64 in *; lia.
Qed.

Lemma numeral_digit d s a : 0 ≤ d < 10 →
  numeral (String (digit_char d) s) a = numeral s (a * 10 + d).
Proof. intros. cbn [numeral]. by rewrite char_digit_char. Qed.

Lemma format_digits_S fuel n acc :
  format_digits (S fuel) n acc =
    if decide (n < 10) then String (digit_char (n `mod` 10)) acc
    else format_digits fuel (n / 10) (String (digit_char (n `mod` 10)) acc).
Proof. done. Qed.

Lemma format_digits_numeral fuel n acc a :
  0 ≤ n < 10 ^ Z.of_nat (S fuel) → 0 ≤ a →
  ∃ k, 0 ≤ k ∧ numeral (format_digits (S fuel) n acc) a = numeral acc (a * 10 ^ k + n).
Proof.
  revert n acc a. induction fuel as [|fuel IH]; intros n acc a Hn Ha;
    rewrite format_digits_S; pose proof (Z.mod_pos_bound n 10 eq_refl) as Hmod.
  - change (10 ^ Z.of_nat 1) with 10 in Hn. exists 1.
    rewrite decide_True by lia. rewrite numeral_digit by lia.
    split; [lia|]. f_equal. rewrite Z.mod_small by lia. lia.
  - case_decide.
    + exists 1. rewrite numeral_digit by lia. split; [lia|].
      f_equal. rewrite Z.mod_small by lia. lia.
    + destruct (IH (n / 10) (String (digit_char (n `mod` 10)) acc) a) as (k&Hk&->).
      { rewrite Nat2Z.inj_succ, Z.pow_succ_r in Hn by lia.
        split; [apply Z.div_pos; lia|]. apply Z.div_lt_upper_bound; lia. }
      { done. }
      exists (Z.succ k). split; [lia|]. rewrite numeral_digit by lia. f_equal.
      rewrite Z.pow_succ_r by lia. pose proof (Z.div_mod n 10). lia.
Qed.

Lemma format_digits_cons fuel n acc :
  ∃ c s, format_digits (S fuel) n acc = String c s.
Proof.
  revert n acc. induction fuel as [|fuel IH]; intros n acc;
    rewrite format_digits_S; case_decide; eauto.
Qed.

Lemma FormatUint_numeral n : in_u64 n → numeral (FormatUint n) 0 = Some n.
Proof.
  intros [??]. unfold FormatUint.
  destruct (format_digits_numeral 19 n EmptyString 0) as (k&?&->); [|done|done].
  split; [done|]. change (10 ^ Z.of_nat 20) with 100000000000000000000.
  unfold two64 in *. lia.
Qed.

Lemma FormatUint_cons n : ∃ c s, FormatUint n = String c s.
Proof. apply format_digits_cons. Qed.

Lemma ParseUint_FormatUint n : in_u64 n → ParseUint (FormatUint n) = Ok n.
Proof.
  intros Hn. pose proof (FormatUint_numeral n Hn) as Hnum.
  unfold ParseUint. destruct (FormatUint_cons n) as (c&s&E). rewrite E in *.
  apply parse_digits_Ok; [done|]. split; [done|apply Hn].
Qed.

Lemma ParseUint_range s n : ParseUint s = Ok n → in_u64 n.
Proof.
  destruct s as [|c s]; [done|]. unfold ParseUint.
  intros [Hn ?]%parse_digits_Ok; [|done]. apply numeral_le in Hn; [|lia].
  by split.
Qed.

Lemma FormatUint_inj n m : in_u64 n → in_u64 m → FormatUint n = FormatUint m → n = m.
Proof.
  intros Hn%ParseUint_FormatUint Hm%ParseUint_FormatUint E. congruence.
Qed.

(** Every byte that [FormatUint] writes is a digit, so the sign handling of
    [ParseInt] never applies to it. *)
Lemma FormatUint_head n c s :
  in_u64 n → FormatUint n = String c s → c ≠ "+"%char ∧ c ≠ "-"%char.
Proof.
  intros Hn E. pose proof (FormatUint_numeral n Hn) as Hnum. rewrite E in Hnum.
  cbn [numeral] in Hnum. by split; intros ->.
Qed.

Lemma ParseInt_FormatUint n : in_u64 n →
  ParseInt (FormatUint n) = if decide (n < two63) then Ok n else Err ErrRange.
Proof.
  intros Hn. pose proof (ParseUint_FormatUint n Hn) as HP.
  destruct (FormatUint_cons n) as (c&s&E). rewrite E in *.
  destruct (FormatUint_head n c s Hn E) as [? Hc].
  unfold ParseInt. rewrite decide_False by tauto. rewrite HP.
  rewrite (bool_decide_eq_false_2 (c = _)) by done. simpl.
  case_bool_decide; case_decide; done || lia.
Qed.

Lemma ParseInt_FormatInt n : in_i64 n → ParseInt (FormatInt n) = Ok n.
Proof.
  intros [Hl Hu]. unfold FormatInt. case_decide.
  - unfold ParseInt. rewrite decide_True by naive_solver.
    rewrite ParseUint_FormatUint by (unfold in_u64, two63, two64 in *; lia). simpl.
    rewrite bool_decide_eq_false_2 by lia. f_equal. lia.
  - rewrite ParseInt_FormatUint by (unfold in_u64, two63, two64 in *; lia).
    by rewrite decide_True.
Qed.

Lemma ParseInt_range s n : ParseInt s = Ok n → in_i64 n.
Proof.
  destruct s as [|c s]; [done|]. unfold ParseInt.
  destruct (ParseUint _) as [un| |] eqn:HP; [|done|done].
  apply ParseUint_range in HP as [??].
  destruct (bool_decide (c = _)); simpl; case_bool_decide; intros [= <-];
    unfold in_i64, two63, two64 in *; lia.
Qed.

(** A negative number is never accepted by [ParseUint]. *)
Lemma ParseUint_FormatInt_neg n : n < 0 → is_Err (ParseUint (FormatInt n)).
Proof. intros Hn. unfold FormatInt. rewrite decide_True by done. by eexists. Qed.
