(* ===== verification/GoStrings.v ===== *)
(** * GoStrings

    Go strings are byte sequences; here they are Rocq's [string]s, whose
    characters are bytes.  This file models the parts of Go's [strings],
    [unicode/utf8] and [unicode] packages that the program uses: iterating over
    the runes of a string (with Go's treatment of invalid UTF-8), [IsSpace],
    [ContainsFunc], [Join], [HasPrefix] and [TrimPrefix]. *)

From S2P Require Import Prelude.

Local Open Scope Z_scope.

(** ** UTF-8 *)

Definition byte_val (c : ascii) : Z := Z.of_N (N_of_ascii c).
Definition byte_of (z : Z) : ascii := ascii_of_N (Z.to_N z).

Definition RuneError : Z := 65533.

(** The continuation byte at offset [i], when its value is within [lo, hi]. *)
Definition cont_byte (lo hi : Z) (s : string) (i : nat) : option Z :=
  c ← String.get i s;
  let v := byte_val c in
  if decide (lo ≤ v ≤ hi) then Some (v `mod` 64) else None.
Arguments cont_byte : simpl never.

(** Lower and upper bound of the second byte, and the length, for each lead
    byte; [None] for a byte that starts no sequence. *)
Definition lead_byte (b : Z) : option (Z * Z * nat) :=
  if decide (194 ≤ b ≤ 223) then Some (128, 191, 2%nat)
  else if decide (b = 224) then Some (160, 191, 3%nat)
  else if decide (b = 237) then Some (128, 159, 3%nat)
  else if decide (225 ≤ b ≤ 239) then Some (128, 191, 3%nat)
  else if decide (b = 240) then Some (144, 191, 4%nat)
  else if decide (241 ≤ b ≤ 243) then Some (128, 191, 4%nat)
  else if decide (b = 244) then Some (128, 143, 4%nat)
  else None.

Definition decode_multi (b : Z) (s : string) : option (Z * nat) :=
  '(lo, hi, n) ← lead_byte b;
  b1 ← cont_byte lo hi s 1;
  match n with
  | 2%nat => Some (b `mod` 32 * 64 + b1, n)
  | 3%nat =>
      b2 ← cont_byte 128 191 s 2;
      Some ((b `mod` 16 * 64 + b1) * 64 + b2, n)
  | _ =>
      b2 ← cont_byte 128 191 s 2;
      b3 ← cont_byte 128 191 s 3;
      Some (((b `mod` 8 * 64 + b1) * 64 + b2) * 64 + b3, n)
  end.

(** [utf8.DecodeRuneInString]: the first rune of a non-empty string and its
    width; an invalid sequence is [RuneError] of width 1. *)
Definition decode_rune (s : string) : Z * nat :=
  match s with
  | EmptyString => (RuneError, 0%nat)
  | String c _ =>
      let b := byte_val c in
      if decide (b < 128) then (b, 1%nat)
      else default (RuneError, 1%nat) (decode_multi b s)
  end.

(** The runes that [for _, r := range s] visits; [skip] bytes of [s] belong to
    the rune emitted last. *)
Fixpoint runes_from (s : string) (skip : nat) : list Z :=
  match s with
  | EmptyString => []
  | String _ s' =>
      match skip with
      | S skip => runes_from s' skip
      | O => let '(r, width) := decode_rune s in r :: runes_from s' (pred width)
      end
  end.

Definition runes (s : string) : list Z := runes_from s 0.

(** [unicode.IsSpace]: Latin-1 by cases, then the White_Space ranges. *)
Definition IsSpace (r : Z) : bool :=
  if decide (r ≤ 255) then
    bool_decide (r ∈ [9; 10; 11; 12; 13; 32; 133; 160])
  else
    bool_decide (r ∈ [5760; 8232; 8233; 8239; 8287; 12288] ∨ 8192 ≤ r ≤ 8202).

Definition ContainsFunc (s : string) (f : Z → bool) : bool := existsb f (runes s).

(** ** Prefixes and joins *)

Fixpoint HasPrefix (s p : string) : bool :=
  match p, s with
  | EmptyString, _ => true
  | String b p, String a s => bool_decide (a = b) && HasPrefix s p
  | String _ _, EmptyString => false
  end.

Fixpoint drop_bytes (n : nat) (s : string) : string :=
  match n, s with
  | O, _ => s
  | S n, String _ s => drop_bytes n s
  | S _, EmptyString => EmptyString
  end.

Definition TrimPrefix (s p : string) : string :=
  if HasPrefix s p then drop_bytes (String.length p) s else s.

(** [strings.Join] *)
Fixpoint Join (elems : list string) (sep : string) : string :=
  match elems with
  | [] => EmptyString
  | [e] => e
  | e :: elems => e +:+ sep +:+ Join elems sep
  end.

(** The bytes of a string, as a set-like predicate. *)
Fixpoint has_byte (c : ascii) (s : string) : bool :=
  match s with
  | EmptyString => false
  | String a s => bool_decide (a = c) || has_byte c s
  end.

(** ** Properties *)

Lemma HasPrefix_app p s : HasPrefix (p +:+ s) p = true.
Proof.
  induction p as [|c p IH]; [by destruct s|]. simpl.
  by rewrite bool_decide_eq_true_2.
Qed.

Lemma drop_bytes_app p s : drop_bytes (String.length p) (p +:+ s) = s.
Proof. induction p as [|c p IH]; [by destruct s|apply IH]. Qed.

Lemma TrimPrefix_app p s : TrimPrefix (p +:+ s) p = s.
Proof. unfold TrimPrefix. by rewrite HasPrefix_app, drop_bytes_app. Qed.

Lemma string_app_cons c (s t : string) : String c s +:+ t = String c (s +:+ t).
Proof. reflexivity. Qed.

Lemma string_app_assoc (s1 s2 s3 : string) : s1 +:+ (s2 +:+ s3) = (s1 +:+ s2) +:+ s3.
Proof. induction s1 as [|c s1 IH]; [done|]. by rewrite !string_app_cons, IH. Qed.

Lemma string_app_nil_r (s : string) : s +:+ EmptyString = s.
Proof. induction s as [|c s IH]; [done|]. by rewrite string_app_cons, IH. Qed.

Lemma has_byte_app c s1 s2 : has_byte c (s1 +:+ s2) = has_byte c s1 || has_byte c s2.
Proof.
  induction s1 as [|a s1 IH]; [done|]. rewrite string_app_cons. simpl.
  by rewrite <-orb_assoc, <-IH.
Qed.

(** An ASCII string is its own rune sequence. *)
Fixpoint is_ascii (s : string) : bool :=
  match s with
  | EmptyString => true
  | String c s => bool_decide (byte_val c < 128) && is_ascii s
  end.

Fixpoint bytes (s : string) : list Z :=
  match s with
  | EmptyString => []
  | String c s => byte_val c :: bytes s
  end.

Lemma runes_ascii s : is_ascii s = true → runes s = bytes s.
Proof.
  unfold runes. induction s as [|c s IH]; [done|]. cbn [is_ascii runes_from bytes].
  rewrite andb_true_iff, bool_decide_eq_true. intros [Hc Hs].
  unfold decode_rune. rewrite decide_True by done. simpl. by rewrite IH.
Qed.

(** *** UTF-8 round trip

    [encode_rune] is the encoder ([utf8.AppendRune]) for Unicode scalar values;
    decoding its output gives the rune back, so the decoder above reads every
    valid UTF-8 string as the text it encodes. *)

Definition scalar_value (r : Z) : Prop := 0 ≤ r < 55296 ∨ 57344 ≤ r < 1114112.

Definition encode_rune (r : Z) : string :=
  let cont x := byte_of (128 + x `mod` 64) in
  if decide (r < 128) then String (byte_of r) EmptyString
  else if decide (r < 2048) then
    String (byte_of (192 + r / 64)) (String (cont r) EmptyString)
  else if decide (r < 65536) then
    String (byte_of (224 + r / 4096))
      (String (cont (r / 64)) (String (cont r) EmptyString))
  else
    String (byte_of (240 + r / 262144))
      (String (cont (r / 4096)) (String (cont (r / 64)) (String (cont r) EmptyString))).

Fixpoint encode_runes (rs : list Z) : string :=
  match rs with
  | [] => EmptyString
  | r :: rs => encode_rune r +:+ encode_runes rs
  end.

Lemma byte_val_of z : 0 ≤ z < 256 → byte_val (byte_of z) = z.
Proof.
  intros. unfold byte_val, byte_of. rewrite N_ascii_embedding by lia. lia.
Qed.

Lemma cont_byte_of lo hi s i v :
  String.get i s = Some (byte_of v) → 0 ≤ v < 256 → lo ≤ v ≤ hi →
  cont_byte lo hi s i = Some (v `mod` 64).
Proof.
  intros Hi Hv Hb. unfold cont_byte. rewrite Hi. simpl. rewrite byte_val_of by done.
  by rewrite decide_True.
Qed.

Lemma cont_byte_cont x s i :
  String.get i s = Some (byte_of (128 + x)) → 0 ≤ x < 64 →
  cont_byte 128 191 s i = Some x.
Proof.
  intros Hi Hx. erewrite cont_byte_of; [|done|lia..]. f_equal.
  by rewrite Z.add_mod, Z.add_0_l, Z.mod_mod, Z.mod_small by lia.
Qed.

Lemma decode_rune_lead b s :
  128 ≤ b < 256 →
  decode_rune (String (byte_of b) s) =
    default (RuneError, 1%nat) (decode_multi b (String (byte_of b) s)).
Proof.
  intros. unfold decode_rune. rewrite byte_val_of by lia. by rewrite decide_False by lia.
Qed.

(** The base-64 digits of a rune. *)
Lemma rune_digits r : 0 ≤ r →
  0 ≤ r `mod` 64 < 64 ∧ 0 ≤ (r / 64) `mod` 64 < 64 ∧ 0 ≤ (r / 4096) `mod` 64 < 64 ∧
  r = (r / 64) * 64 + r `mod` 64 ∧ r / 64 = (r / 4096) * 64 + (r / 64) `mod` 64 ∧
  r / 4096 = (r / 262144) * 64 + (r / 4096) `mod` 64.
Proof.
  intros Hr.
  replace (r / 4096) with (r / 64 / 64) by (rewrite Z.div_div by lia; f_equal; lia).
  replace (r / 262144) with (r / 64 / 64 / 64) by (rewrite !Z.div_div by lia; f_equal; lia).
  pose proof (Z.div_mod r 64). pose proof (Z.div_mod (r / 64) 64).
  pose proof (Z.div_mod (r / 64 / 64) 64).
  pose proof (Z.mod_pos_bound r 64). pose proof (Z.mod_pos_bound (r / 64) 64).
  pose proof (Z.mod_pos_bound (r / 64 / 64) 64). lia.
Qed.

Ltac lead_cases := unfold lead_byte; repeat (first [rewrite decide_True by lia | rewrite decide_False by lia]).

Lemma mod_base k m x : 0 ≤ x < m → (k * m + x) `mod` m = x.
Proof. intros. by rewrite Z.add_comm, Z_mod_plus_full, Z.mod_small. Qed.

Lemma decode_encode_rune r t :
  scalar_value r →
  decode_rune (encode_rune r +:+ t) = (r, String.length (encode_rune r)).
Proof.
  intros Hr. assert (0 ≤ r < 1114112) as Hr0 by (destruct Hr; lia).
  destruct (rune_digits r) as (?&?&?&Hd1&Hd2&Hd3); [lia|].
  unfold encode_rune. repeat case_decide; rewrite !string_app_cons.
  - unfold decode_rune. rewrite byte_val_of by lia. by rewrite decide_True.
  - rewrite decode_rune_lead by lia. unfold decode_multi.
    lead_cases. simpl.
    erewrite cont_byte_cont; [|done|lia]. simpl. f_equal.
    rewrite (mod_base 6 32) by lia. lia.
  - rewrite decode_rune_lead by lia. unfold decode_multi.
    assert (∃ lo hi, lead_byte (224 + r / 4096) = Some (lo, hi, 3%nat) ∧
      lo ≤ 128 + (r / 64) `mod` 64 ≤ hi) as (lo&hi&->&Hb).
    { destruct (decide (r / 4096 = 0)); [|destruct (decide (r / 4096 = 13))];
        eexists _, _; (split; [lead_cases; done|]); destruct Hr; lia. }
    simpl. erewrite (cont_byte_of lo hi); [|done|lia|lia]. simpl.
    erewrite cont_byte_cont; [|done|lia]. simpl. f_equal.
    rewrite (mod_base 14 16), (mod_base 2 64) by lia. lia.
  - rewrite decode_rune_lead by lia. unfold decode_multi.
    assert (∃ lo hi, lead_byte (240 + r / 262144) = Some (lo, hi, 4%nat) ∧
      lo ≤ 128 + (r / 4096) `mod` 64 ≤ hi) as (lo&hi&->&Hb).
    { destruct (decide (r / 262144 = 0)); [|destruct (decide (r / 262144 = 4))];
        eexists _, _; (split; [lead_cases; done|]); lia. }
    simpl. erewrite (cont_byte_of lo hi); [|done|lia|lia]. simpl.
    erewrite cont_byte_cont; [|done|lia]. simpl.
    erewrite cont_byte_cont; [|done|lia]. simpl. f_equal.
    rewrite (mod_base 30 8), (mod_base 2 64) by lia. lia.
Qed.

Lemma runes_from_skip p t : runes_from (p +:+ t) (String.length p) = runes_from t 0.
Proof.
  induction p as [|c p IH]; [by destruct t|]. by rewrite string_app_cons.
Qed.

Lemma runes_encode_runes rs :
  Forall scalar_value rs → runes (encode_runes rs) = rs.
Proof.
  unfold runes. induction 1 as [|r rs Hr _ IH]; [done|]. cbn [encode_runes].
  pose proof (decode_encode_rune r (encode_runes rs) Hr) as Hd.
  assert (∃ c p, encode_rune r = String c p) as (c&p&E).
  { unfold encode_rune. repeat case_decide; eauto. }
  rewrite E in *. rewrite string_app_cons in *. cbn [runes_from]. rewrite Hd. simpl.
  by rewrite runes_from_skip, IH.
Qed.
