(* ===== verification/GoJson.v ===== *)
(** * GoJson

    The part of Go's [encoding/json] that the program uses: [json.Unmarshal]
    into a struct whose two fields [data] and [metadata] are
    [json.RawMessage]s.  Unmarshal first checks the whole text; the fields
    then get the bytes of their values as they stand in the text. *)

From S2P Require Import Prelude.
From S2P Require Import GoStrings.

Local Open Scope Z_scope.

(** ** Scanning *)

Definition is_ws (c : ascii) : bool := bool_decide (byte_val c = 32 ∨ 9 ≤ byte_val c ≤ 10 ∨ byte_val c = 13).

Fixpoint skip_ws (s : string) : string :=
  match s with
  | String c s' => if is_ws c then skip_ws s' else s
  | EmptyString => EmptyString
  end.

Definition is_digit (c : ascii) : bool := bool_decide (48 ≤ byte_val c ≤ 57).

Definition hex_digit (c : ascii) : option Z :=
  let b := byte_val c in
  if decide (48 ≤ b ≤ 57) then Some (b - 48)
  else if decide (97 ≤ b ≤ 102) then Some (b - 87)
  else if decide (65 ≤ b ≤ 70) then Some (b - 55)
  else None.

Definition is_hex (c : ascii) : bool := bool_decide (is_Some (hex_digit c)).

Definition quote_char : ascii := "034".

(** The characters that may follow a backslash, apart from [u]. *)
Definition simple_escape (c : ascii) : option Z :=
  if decide (c = quote_char) then Some 34
  else if decide (c = "\"%char) then Some 92
  else if decide (c = "/"%char) then Some 47
  else if decide (c = "b"%char) then Some 8
  else if decide (c = "f"%char) then Some 12
  else if decide (c = "n"%char) then Some 10
  else if decide (c = "r"%char) then Some 13
  else if decide (c = "t"%char) then Some 9
  else None.

(** What follows a string literal whose opening quote has been read. *)
Fixpoint scan_string (s : string) : option string :=
  match s with
  | EmptyString => None
  | String c s =>
      if decide (c = quote_char) then Some s
      else if decide (c = "\"%char) then
        match s with
        | String e s =>
            if decide (e = "u"%char) then
              match s with
              | String h1 (String h2 (String h3 (String h4 s))) =>
                  if is_hex h1 && is_hex h2 && is_hex h3 && is_hex h4 then scan_string s else None
              | _ => None
              end
            else match simple_escape e with Some _ => scan_string s | None => None end
        | EmptyString => None
        end
      else if decide (byte_val c < 32) then None
      else scan_string s
  end.

Fixpoint skip_digits (s : string) : string :=
  match s with
  | String c s' => if is_digit c then skip_digits s' else s
  | EmptyString => EmptyString
  end.

(** At least one digit. *)
Definition scan_digits (s : string) : option string :=
  match s with
  | String c s => if is_digit c then Some (skip_digits s) else None
  | EmptyString => None
  end.

Definition scan_integer (s : string) : option string :=
  match s with
  | String c s' => if decide (c = "0"%char) then Some s' else scan_digits s
  | EmptyString => None
  end.

Definition scan_fraction (s : string) : option string :=
  match s with
  | String c s' => if decide (c = "."%char) then scan_digits s' else Some s
  | EmptyString => Some s
  end.

Definition scan_exponent (s : string) : option string :=
  match s with
  | String c s' =>
      if decide (c = "e"%char ∨ c = "E"%char) then
        match s' with
        | String d s'' => scan_digits (if decide (d = "+"%char ∨ d = "-"%char) then s'' else s')
        | EmptyString => None
        end
      else Some s
  | EmptyString => Some s
  end.

Definition scan_number (s : string) : option string :=
  s ← scan_integer (match s with
        | String c s' => if decide (c = "-"%char) then s' else s
        | EmptyString => s
        end);
  s ← scan_fraction s;
  scan_exponent s.

(** What follows the literal [p]. *)
Fixpoint scan_literal (p s : string) : option string :=
  match p, s with
  | EmptyString, _ => Some s
  | String c p, String d s => if decide (c = d) then scan_literal p s else None
  | _, _ => None
  end.

Definition maxNestingDepth : Z := 10000.

(** A key with its colon, up to the value. *)
Definition scan_key (s : string) : option string :=
  match s with
  | String c s =>
      if decide (c = quote_char) then
        s ← scan_string s;
        match skip_ws s with
        | String c s => if decide (c = ":"%char) then Some (skip_ws s) else None
        | EmptyString => None
        end
      else None
  | EmptyString => None
  end.

(** What is being scanned: a value, the elements of an array from a value on,
    or the members of an object from a key on. *)
Inductive goal := GValue | GElements | GMembers.

(** What follows the value, or the closing bracket.  [depth] counts the
    enclosing arrays and objects. *)
Fixpoint scan (fuel : nat) (depth : Z) (g : goal) (s : string) : option string :=
  match fuel with
  | O => None
  | S fuel =>
      match g with
      | GValue =>
          match s with
          | EmptyString => None
          | String c s' =>
              if decide (c = "{"%char) then
                if decide (depth < maxNestingDepth) then
                  match skip_ws s' with
                  | String c s'' =>
                      if decide (c = "}"%char) then Some s''
                      else scan fuel (depth + 1) GMembers (String c s'')
                  | EmptyString => None
                  end
                else None
              else if decide (c = "["%char) then
                if decide (depth < maxNestingDepth) then
                  match skip_ws s' with
                  | String c s'' =>
                      if decide (c = "]"%char) then Some s''
                      else scan fuel (depth + 1) GElements (String c s'')
                  | EmptyString => None
                  end
                else None
              else if decide (c = quote_char) then scan_string s'
              else if decide (c = "t"%char) then scan_literal "true" s
              else if decide (c = "f"%char) then scan_literal "false" s
              else if decide (c = "n"%char) then scan_literal "null" s
              else scan_number s
          end
      | GElements =>
          s ← scan fuel depth GValue s;
          match skip_ws s with
          | String c s =>
              if decide (c = ","%char) then scan fuel depth GElements (skip_ws s)
              else if decide (c = "]"%char) then Some s
              else None
          | EmptyString => None
          end
      | GMembers =>
          s ← scan_key s;
          s ← scan fuel depth GValue s;
          match skip_ws s with
          | String c s =>
              if decide (c = ","%char) then scan fuel depth GMembers (skip_ws s)
              else if decide (c = "}"%char) then Some s
              else None
          | EmptyString => None
          end
      end
  end.

(** Enough for every text: a call of [scan] reads a byte or goes from a list to
    a value. *)
Definition scan_fuel (s : string) : nat := S (S (2 * String.length s)).

(** ** Decoding *)

(** The bytes of [s] before its suffix [rest]. *)
Definition before (s rest : string) : string :=
  String.substring 0 (String.length s - String.length rest) s.

(** The members of an object, from a key on: the text between the quotes of
    each key, and its value. *)
Fixpoint members (fuel : nat) (s : string) : list (string * string) :=
  match fuel, s with
  | S fuel, String c s1 =>
      match scan_string s1, scan_key s with
      | Some s2, Some s3 =>
          match scan (scan_fuel s3) 1 GValue s3 with
          | Some s4 =>
              let key := before s1 (String quote_char s2) in
              (key, before s3 s4) ::
              match skip_ws s4 with
              | String c s5 => if decide (c = ","%char) then members fuel (skip_ws s5) else []
              | EmptyString => []
              end
          | None => []
          end
      | _, _ => []
      end
  | _, _ => []
  end.

Definition surrogate_high (r : Z) : bool := bool_decide (55296 ≤ r < 56320).
Definition surrogate_low (r : Z) : bool := bool_decide (56320 ≤ r < 57344).

(** The four hexadecimal digits of an escape, from index [i] on. *)
Definition hex4 (s : string) (i : nat) : option Z :=
  a ← String.get i s ≫= hex_digit;
  b ← String.get (i + 1) s ≫= hex_digit;
  c ← String.get (i + 2) s ≫= hex_digit;
  d ← String.get (i + 3) s ≫= hex_digit;
  Some (((a * 16 + b) * 16 + c) * 16 + d).

(** The rune of the escape at the head of [s], a backslash, and its length. *)
Definition unescape (s : string) : Z * nat :=
  match String.get 1 s with
  | Some e =>
      match simple_escape e, hex4 s 2 with
      | Some r, _ => (r, 2%nat)
      | None, Some r =>
          if surrogate_high r || surrogate_low r then
            match String.get 6 s, String.get 7 s, hex4 s 8 with
            | Some b, Some u, Some r2 =>
                if bool_decide (b = "\"%char ∧ u = "u"%char) && surrogate_high r && surrogate_low r2
                then ((r - 55296) * 1024 + (r2 - 56320) + 65536, 12%nat)
                else (RuneError, 6%nat)
            | _, _, _ => (RuneError, 6%nat)
            end
          else (r, 6%nat)
      | None, None => (RuneError, 1%nat)
      end
  | None => (RuneError, 1%nat)
  end.

(** The runes of the text of a key; [skip] bytes belong to the rune before. *)
Fixpoint unquote_from (s : string) (skip : nat) : list Z :=
  match s with
  | EmptyString => []
  | String c s' =>
      match skip with
      | S skip => unquote_from s' skip
      | O =>
          let '(r, n) := if decide (c = "\"%char) then unescape s else decode_rune s in
          r :: unquote_from s' (pred n)
      end
  end.

Definition lower (r : Z) : Z := if decide (65 ≤ r ≤ 90) then r + 32 else r.

(** A key selects a field of the same name up to case.  The letters of [data]
    and [metadata] have no further case variants in Unicode. *)
Definition selects_field (key name : string) : bool :=
  bool_decide (lower <$> unquote_from key 0 = bytes name).

(** Later members override earlier ones. *)
Definition store_member (fields : option string * option string) (m : string * string) :
    option string * option string :=
  if selects_field m.1 "data" then (Some m.2, fields.2)
  else if selects_field m.1 "metadata" then (fields.1, Some m.2)
  else fields.

Inductive json_error := ErrSyntax | ErrUnmarshalType.

#[export] Instance json_error_eq_dec : EqDecision json_error.
Proof. solve_decision. Defined.

(** [json.Unmarshal(s, &decoded)]: the fields [Data] and [Metadata] of
    [decoded], nil unless set.  A [null] leaves the struct as it is. *)
Definition Unmarshal (s : string) : outcome json_error (option string * option string) :=
  let s := skip_ws s in
  match scan (scan_fuel s) 0 GValue s with
  | Some rest =>
      if decide (skip_ws rest = EmptyString) then
        match s with
        | String c s' =>
            if decide (c = "{"%char) then
              Ok (foldl store_member (None, None) (members (String.length s) (skip_ws s')))
            else if decide (c = "n"%char) then Ok (None, None)
            else Err ErrUnmarshalType
        | EmptyString => Err ErrSyntax
        end
      else Err ErrSyntax
  | None => Err ErrSyntax
  end.

(** A JSON text without white space around it, as a member of an object. *)
Definition json_value (s : string) : Prop :=
  scan (scan_fuel s) 1 GValue s = Some EmptyString.

#[export] Instance json_value_dec s : Decision (json_value s).
Proof. unfold json_value. apply _. Defined.

(** ** Scanning is independent of what follows

    A scanner that stopped before the end of a text stops at the same place
    when the text goes on; at the very end this needs that what follows does
    not continue a number. *)

Definition stops (t : string) : Prop :=
  match t with
  | EmptyString => True
  | String c _ => is_digit c = false ∧ c ≠ "."%char ∧ c ≠ "e"%char ∧ c ≠ "E"%char
  end.

(** [t] may follow when [r] is left. *)
Definition may_follow (r t : string) : Prop := r ≠ EmptyString ∨ stops t.

Lemma may_follow_cons c r t : may_follow (String c r) t.
Proof. by left. Qed.

Lemma skip_ws_app s t c r : skip_ws s = String c r → skip_ws (s +:+ t) = String c r +:+ t.
Proof.
  induction s as [|d s IH]; [done|]. rewrite string_app_cons. cbn.
  destruct (is_ws d); [done|]. by intros [= -> ->].
Qed.

Lemma scan_string_app s t r : scan_string s = Some r → scan_string (s +:+ t) = Some (r +:+ t).
Proof.
  enough (∀ n s, (String.length s ≤ n)%nat → scan_string s = Some r →
    scan_string (s +:+ t) = Some (r +:+ t)) as H by (by apply (H (String.length s))).
  clear s. intros n. induction n as [|n IH]; intros [|c s] Hn; cbn in Hn; try done; [lia|].
  rewrite string_app_cons. cbn [scan_string]. case_decide; [by intros [= ->]|].
  case_decide; [|case_decide; [done|apply IH; lia]].
  destruct s as [|e s]; [done|]. rewrite string_app_cons. cbn in Hn. case_decide.
  - destruct s as [|h1 [|h2 [|h3 [|h4 s]]]]; try done. rewrite !string_app_cons. cbn in Hn.
    case_match; [|done]. apply IH. lia.
  - case_match; [|done]. apply IH. lia.
Qed.

Lemma skip_digits_app s t : may_follow (skip_digits s) t →
  skip_digits (s +:+ t) = skip_digits s +:+ t.
Proof.
  induction s as [|c s IH]; cbn [skip_digits].
  - intros [?|H]; [done|]. change (EmptyString +:+ t) with t.
    destruct t as [|c t]; [done|]. destruct H as [H _]. cbn. by rewrite H.
  - rewrite string_app_cons. cbn [skip_digits]. by destruct (is_digit c).
Qed.

Lemma scan_digits_app s t r : may_follow r t →
  scan_digits s = Some r → scan_digits (s +:+ t) = Some (r +:+ t).
Proof.
  intros Ht. destruct s as [|c s]; [done|]. rewrite string_app_cons. cbn.
  destruct (is_digit c); [|done]. intros [= <-]. by rewrite skip_digits_app.
Qed.

Lemma scan_integer_app s t r : may_follow r t →
  scan_integer s = Some r → scan_integer (s +:+ t) = Some (r +:+ t).
Proof.
  intros Ht. destruct s as [|c s]; [done|]. rewrite string_app_cons. cbn [scan_integer].
  case_decide; [by intros [= ->]|]. rewrite <-string_app_cons. by apply scan_digits_app.
Qed.

Lemma scan_fraction_app s t r : may_follow r t →
  scan_fraction s = Some r → scan_fraction (s +:+ t) = Some (r +:+ t).
Proof.
  intros Ht. destruct s as [|c s].
  - intros [= <-]. destruct Ht as [?|Ht]; [done|].
    change (EmptyString +:+ t) with t. destruct t as [|c t]; [done|]. cbn.
    rewrite decide_False; [done|]. apply Ht.
  - rewrite string_app_cons. cbn. case_decide; [by apply scan_digits_app|]. by intros [= <-].
Qed.

Lemma scan_exponent_app s t r : may_follow r t →
  scan_exponent s = Some r → scan_exponent (s +:+ t) = Some (r +:+ t).
Proof.
  intros Ht. destruct s as [|c s].
  - intros [= <-]. destruct Ht as [?|Ht]; [done|].
    change (EmptyString +:+ t) with t. destruct t as [|c t]; [done|]. cbn.
    rewrite decide_False; [done|]. destruct Ht as (_&_&?&?). tauto.
  - rewrite string_app_cons. cbn. case_decide; [|by intros [= <-]].
    destruct s as [|d s]; [done|]. rewrite string_app_cons. case_decide.
    + by apply scan_digits_app.
    + rewrite <-string_app_cons. by apply scan_digits_app.
Qed.

(** What a stage of the number leaves, if the next one succeeds. *)
Lemma scan_fraction_end r t : may_follow r t → ∀ s, scan_fraction s = Some r → may_follow s t.
Proof.
  intros Ht [|c s]; [|by left]. by intros [= <-].
Qed.

Lemma scan_exponent_end r t : may_follow r t → ∀ s, scan_exponent s = Some r → may_follow s t.
Proof. intros Ht [|c s]; [|by left]. by intros [= <-]. Qed.

Lemma scan_number_app s t r : may_follow r t →
  scan_number s = Some r → scan_number (s +:+ t) = Some (r +:+ t).
Proof.
  intros Ht. unfold scan_number.
  intros (s1&H1&(s2&H2&H3)%bind_Some)%bind_Some.
  pose proof (scan_exponent_end r t Ht s2 H3) as Ht2.
  pose proof (scan_fraction_end s2 t Ht2 s1 H2) as Ht1.
  assert (scan_integer (match s +:+ t with
      | String c s' => if decide (c = "-"%char) then s' else s +:+ t
      | EmptyString => s +:+ t
      end) = Some (s1 +:+ t)) as ->.
  { destruct s as [|c s]; [done|]. rewrite string_app_cons. case_decide.
    - by apply scan_integer_app.
    - rewrite <-string_app_cons. by apply scan_integer_app. }
  cbn. rewrite (scan_fraction_app _ _ _ Ht2 H2). cbn. by apply scan_exponent_app.
Qed.

Lemma scan_literal_app p s t r : scan_literal p s = Some r →
  scan_literal p (s +:+ t) = Some (r +:+ t).
Proof.
  revert s. induction p as [|c p IH]; intros s; [by intros [= ->]|].
  destruct s as [|d s]; [done|]. rewrite string_app_cons. cbn. case_decide; [apply IH|done].
Qed.

(** No value starts with white space. *)
Lemma skip_ws_idem s : match skip_ws s with
  | String c _ => is_ws c = false | EmptyString => True end.
Proof. induction s as [|c s IH]; [done|]. cbn. destruct (is_ws c) eqn:E; [done|by rewrite E]. Qed.

Lemma scan_key_app s t r : r ≠ EmptyString →
  scan_key s = Some r → scan_key (s +:+ t) = Some (r +:+ t).
Proof.
  intros Hr. destruct s as [|c s]; [done|]. rewrite string_app_cons. cbn. case_decide; [|done].
  intros (s1&H1&H2)%bind_Some. rewrite (scan_string_app _ t _ H1). cbn.
  destruct (skip_ws s1) as [|c1 s2] eqn:E; [done|]. rewrite (skip_ws_app _ t _ _ E), string_app_cons.
  case_decide; [|done]. injection H2 as <-. destruct (skip_ws s2) as [|c2 s3] eqn:E2; [done|].
  by rewrite (skip_ws_app _ t _ _ E2).
Qed.

Lemma scan_nonempty f d g s r : scan f d g s = Some r → s ≠ EmptyString.
Proof.
  destruct f as [|f]; [done|]. intros H ->. destruct g; cbn in H; [done| |done].
  destruct f; cbn in H; done.
Qed.

Lemma scan_skip_app f d g s t r :
  scan f d g (skip_ws s) = Some r →
  (∀ s', scan f d g s' = Some r → scan f d g (s' +:+ t) = Some (r +:+ t)) →
  scan f d g (skip_ws (s +:+ t)) = Some (r +:+ t).
Proof.
  intros H IH. pose proof (scan_nonempty _ _ _ _ _ H) as Hne.
  destruct (skip_ws s) as [|c s'] eqn:E; [done|]. rewrite (skip_ws_app _ t _ _ E). by apply IH.
Qed.

Lemma scan_app f d g s t r : may_follow r t →
  scan f d g s = Some r → scan f d g (s +:+ t) = Some (r +:+ t).
Proof.
  revert d g s r. induction f as [|f IH]; intros d g s r Ht; [done|].
  (* what follows an element or a member *)
  assert (∀ close g' s, match skip_ws s with
      | String c s => if decide (c = ","%char) then scan f d g' (skip_ws s)
                      else if decide (c = close) then Some s else None
      | EmptyString => None
      end = Some r →
    match skip_ws (s +:+ t) with
      | String c s => if decide (c = ","%char) then scan f d g' (skip_ws s)
                      else if decide (c = close) then Some s else None
      | EmptyString => None
      end = Some (r +:+ t) ∧ s ≠ EmptyString) as Hnext.
  { intros close g' s1. destruct (skip_ws s1) as [|c s2] eqn:E; [done|].
    rewrite (skip_ws_app _ t _ _ E), string_app_cons. intros H.
    split; [|by intros ->]. case_decide.
    - eapply scan_skip_app; eauto.
    - case_decide; [by injection H as ->|done]. }
  (* what follows an opening bracket *)
  assert (∀ close g' s, match skip_ws s with
      | String c s => if decide (c = close) then Some s else scan f (d + 1) g' (String c s)
      | EmptyString => None
      end = Some r →
    match skip_ws (s +:+ t) with
      | String c s => if decide (c = close) then Some s else scan f (d + 1) g' (String c s)
      | EmptyString => None
      end = Some (r +:+ t)) as Hopen.
  { intros close g' s1. destruct (skip_ws s1) as [|c s2] eqn:E; [done|].
    rewrite (skip_ws_app _ t _ _ E), string_app_cons. case_decide; [by intros [= ->]|].
    rewrite <-string_app_cons. by apply IH. }
  destruct g; cbn [scan].
  - destruct s as [|c s]; [done|]. rewrite string_app_cons.
    repeat case_decide; try done; rewrite <-?string_app_cons; intros Hs;
      first [by apply Hopen|by apply scan_string_app|by apply scan_literal_app
            |by apply scan_number_app].
  - intros (s1&H1&H2)%bind_Some. destruct (Hnext _ _ _ H2) as [H3 Hne].
    rewrite (IH _ _ _ s1); [done|by left|done].
  - intros (s1&H1&(s2&H2&H3)%bind_Some)%bind_Some. destruct (Hnext _ _ _ H3) as [H4 Hne].
    rewrite (scan_key_app _ t s1); [|by eapply scan_nonempty|done]. cbn.
    rewrite (IH _ _ _ s2); [done|by left|done].
Qed.

(** ** Scanning reads, so the fuel suffices *)

Lemma skip_ws_length s : (String.length (skip_ws s) ≤ String.length s)%nat.
Proof. induction s as [|c s IH]; [done|]. cbn. destruct (is_ws c); cbn; lia. Qed.

Lemma skip_digits_length s : (String.length (skip_digits s) ≤ String.length s)%nat.
Proof. induction s as [|c s IH]; [done|]. cbn. destruct (is_digit c); cbn; lia. Qed.

Lemma scan_string_length s r : scan_string s = Some r → (String.length r < String.length s)%nat.
Proof.
  enough (∀ n s, (String.length s ≤ n)%nat → scan_string s = Some r →
    (String.length r < String.length s)%nat) as H by (by apply (H (String.length s))).
  clear s. intros n. induction n as [|n IH]; intros [|c s] Hn; cbn in Hn; try done; [lia|].
  cbn [scan_string String.length]. case_decide; [intros [= ->]; lia|].
  case_decide; [|case_decide; [done|intros Hs%IH; lia]].
  destruct s as [|e s]; [done|]. cbn in Hn |- *. case_decide.
  - destruct s as [|h1 [|h2 [|h3 [|h4 s]]]]; try done. cbn in Hn |- *.
    case_match; [|done]. intros Hs%IH; lia.
  - case_match; [|done]. intros Hs%IH; lia.
Qed.

Lemma scan_digits_length s r : scan_digits s = Some r → (String.length r < String.length s)%nat.
Proof.
  destruct s as [|c s]; [done|]. cbn. destruct (is_digit c); [|done]. intros [= <-].
  pose proof (skip_digits_length s). lia.
Qed.

Lemma scan_number_length s r : scan_number s = Some r → (String.length r < String.length s)%nat.
Proof.
  unfold scan_number. intros (s1&H1&(s2&H2&H3)%bind_Some)%bind_Some.
  assert (String.length s1 < String.length s)%nat as L1.
  { assert (∀ s, scan_integer s = Some s1 → (String.length s1 < String.length s)%nat) as H.
    { intros [|c s']; [done|]. cbn [scan_integer]. case_decide; [intros [= ->]; cbn; lia|].
      apply scan_digits_length. }
    destruct s as [|c s]; [by apply H|]. case_decide; apply H in H1; cbn in *; lia. }
  assert (String.length s2 ≤ String.length s1)%nat as L2.
  { destruct s1 as [|c s1]; [by injection H2 as <-|]. cbn in H2. case_decide.
    - apply scan_digits_length in H2. cbn. lia.
    - by injection H2 as <-. }
  assert (String.length r ≤ String.length s2)%nat; [|lia].
  destruct s2 as [|c s2]; [by injection H3 as <-|]. cbn in H3. case_decide; [|by injection H3 as <-].
  destruct s2 as [|e s2]; [done|]. case_decide; apply scan_digits_length in H3; cbn in *; lia.
Qed.

Lemma scan_literal_length p s r : scan_literal p s = Some r →
  (String.length r + String.length p = String.length s)%nat.
Proof.
  revert s. induction p as [|c p IH]; intros s; [intros [= ->]; cbn; lia|].
  destruct s as [|d s]; [done|]. cbn. case_decide; [|done]. intros Hs%IH. lia.
Qed.

Lemma scan_key_length s r : scan_key s = Some r → (String.length r < String.length s)%nat.
Proof.
  destruct s as [|c s]; [done|]. cbn [scan_key]. case_decide; [|done].
  intros (s1&H1&H2)%bind_Some. apply scan_string_length in H1.
  pose proof (skip_ws_length s1). destruct (skip_ws s1) as [|c1 s2]; [done|].
  case_decide; [|done]. injection H2 as <-. pose proof (skip_ws_length s2). cbn in *. lia.
Qed.

Lemma scan_length f d g s r : scan f d g s = Some r → (String.length r < String.length s)%nat.
Proof.
  revert d g s r. induction f as [|f IH]; intros d g s r; [done|].
  assert (∀ close g' s, match skip_ws s with
      | String c s => if decide (c = ","%char) then scan f d g' (skip_ws s)
                      else if decide (c = close) then Some s else None
      | EmptyString => None
      end = Some r → (String.length r < String.length s)%nat) as Hnext.
  { intros close g' s1. pose proof (skip_ws_length s1). destruct (skip_ws s1) as [|c s2]; [done|].
    pose proof (skip_ws_length s2). case_decide; [intros H'%IH|case_decide; [intros [= ->]|done]];
      cbn in *; lia. }
  assert (∀ close g' s, match skip_ws s with
      | String c s => if decide (c = close) then Some s else scan f (d + 1) g' (String c s)
      | EmptyString => None
      end = Some r → (String.length r < String.length s)%nat) as Hopen.
  { intros close g' s1. pose proof (skip_ws_length s1). destruct (skip_ws s1) as [|c s2]; [done|].
    case_decide; [intros [= ->]|intros H'%IH]; cbn in *; lia. }
  destruct g; cbn [scan].
  - destruct s as [|c s]; [done|]. cbn [String.length].
    repeat case_decide; try done; intros Hs;
      first [apply Hopen in Hs|apply scan_string_length in Hs|apply scan_literal_length in Hs
            |apply scan_number_length in Hs]; cbn in *; lia.
  - intros (s1&H1%IH&H2%Hnext)%bind_Some. lia.
  - intros (s1&H1%scan_key_length&(s2&H2%IH&H3%Hnext)%bind_Some)%bind_Some. lia.
Qed.

Definition measure (g : goal) (s : string) : nat :=
  (2 * String.length s + match g with GValue => 0 | _ => 1 end)%nat.

Lemma scan_enough f f' d g s : (measure g s < f)%nat → (measure g s < f')%nat →
  scan f d g s = scan f' d g s.
Proof.
  revert f' d g s. induction f as [|f IH]; intros f' d g s; unfold measure; [lia|].
  destruct f' as [|f']; [lia|]. intros Hf Hf'.
  assert (∀ d g' s', (2 * String.length s' + 2 ≤ measure g s)%nat →
    scan f d g' s' = scan f' d g' s') as Hrec.
  { intros d' g' s' Hs. unfold measure in Hs. apply IH; unfold measure; destruct g'; lia. }
  assert (∀ close g' s1, (String.length s1 < String.length s)%nat →
    match skip_ws s1 with
      | String c s2 => if decide (c = ","%char) then scan f d g' (skip_ws s2)
                      else if decide (c = close) then Some s2 else None
      | EmptyString => None
      end =
    match skip_ws s1 with
      | String c s2 => if decide (c = ","%char) then scan f' d g' (skip_ws s2)
                      else if decide (c = close) then Some s2 else None
      | EmptyString => None
      end) as Hnext.
  { intros close g' s1 Hs1. pose proof (skip_ws_length s1). destruct (skip_ws s1) as [|c s2]; [done|].
    pose proof (skip_ws_length s2). case_decide; [|done]. apply Hrec.
    unfold measure. cbn in *. lia. }
  assert (∀ close g' s1, (String.length s1 < String.length s)%nat →
    match skip_ws s1 with
      | String c s2 => if decide (c = close) then Some s2 else scan f (d + 1) g' (String c s2)
      | EmptyString => None
      end =
    match skip_ws s1 with
      | String c s2 => if decide (c = close) then Some s2 else scan f' (d + 1) g' (String c s2)
      | EmptyString => None
      end) as Hopen.
  { intros close g' s1 Hs1. pose proof (skip_ws_length s1). destruct (skip_ws s1) as [|c s2]; [done|].
    case_decide; [done|]. apply Hrec. unfold measure. cbn in *. lia. }
  destruct g; cbn [scan].
  - destruct s as [|c s]; [done|]. repeat case_decide; try done; apply Hopen; cbn; lia.
  - rewrite (IH f') by (unfold measure; lia). destruct (scan f' d GValue s) as [s1|] eqn:E; [|done].
    apply Hnext. by eapply scan_length.
  - destruct (scan_key s) as [s1|] eqn:E; [|done]. apply scan_key_length in E. cbn.
    rewrite (Hrec d GValue s1) by (unfold measure; lia).
    destruct (scan f' d GValue s1) as [s2|] eqn:E2; [|done]. apply scan_length in E2.
    apply Hnext. lia.
Qed.

(** ** Values inside a text *)

Lemma length_app_string (s t : string) :
  String.length (s +:+ t) = (String.length s + String.length t)%nat.
Proof. induction s as [|c s IH]; [done|]. rewrite string_app_cons. cbn. by rewrite IH. Qed.

Lemma before_app v t : before (v +:+ t) t = v.
Proof.
  unfold before. rewrite length_app_string.
  replace (String.length v + String.length t - String.length t)%nat with (String.length v) by lia.
  induction v as [|c v IH]; [by destruct t|]. rewrite string_app_cons. cbn. by rewrite IH.
Qed.

Lemma scan_no_ws f d c s r : scan f d GValue (String c s) = Some r → is_ws c = false.
Proof.
  intros H. destruct (is_ws c) eqn:E; [|done]. destruct f as [|f]; [done|].
  by destruct c as [[] [] [] [] [] [] [] []].
Qed.

Lemma json_value_cons v : json_value v → ∃ c s, v = String c s ∧ is_ws c = false.
Proof.
  unfold json_value. intros H. destruct v as [|c s]; [done|].
  exists c, s. split; [done|]. by eapply scan_no_ws.
Qed.

Lemma skip_ws_value v t : json_value v → skip_ws (v +:+ t) = v +:+ t.
Proof.
  intros (c&s&->&Hc)%json_value_cons. rewrite string_app_cons. cbn. by rewrite Hc.
Qed.

Lemma scan_value v t f : json_value v → stops t → (2 * String.length (v +:+ t) < f)%nat →
  scan f 1 GValue (v +:+ t) = Some t.
Proof.
  intros Hv Ht Hf.
  assert (scan f 1 GValue v = Some EmptyString) as Hv'.
  { rewrite <-Hv. rewrite length_app_string in Hf.
    apply scan_enough; unfold measure, scan_fuel; lia. }
  by apply (scan_app _ _ _ _ t _ (or_intror Ht)) in Hv'.
Qed.

(** ** The text of an object with the two members *)

Definition quoted (s : string) : string :=
  String quote_char s +:+ String quote_char EmptyString.

Definition object_text (data metadata : string) : string :=
  "{" +:+ quoted "data" +:+ ":" +:+ data +:+ "," +:+ quoted "metadata" +:+ ":" +:+ metadata +:+ "}".

Section object.
Context (data metadata : string) (Hd : json_value data) (Hm : json_value metadata).

Definition tail2 : string := metadata +:+ "}".
Definition tail1 : string := data +:+ "," +:+ quoted "metadata" +:+ ":" +:+ tail2.

Lemma tail1_stops x : stops ("," +:+ x).
Proof. by split_and!. Qed.

Lemma scan_key_data x : scan_key (quoted "data" +:+ ":" +:+ x) = Some (skip_ws x).
Proof. done. Qed.

Lemma scan_key_metadata x : scan_key (quoted "metadata" +:+ ":" +:+ x) = Some (skip_ws x).
Proof. done. Qed.

Lemma scan_members_S f d s :
  scan (S f) d GMembers s =
    (s ← scan_key s;
     s ← scan f d GValue s;
     match skip_ws s with
     | String c s =>
         if decide (c = ","%char) then scan f d GMembers (skip_ws s)
         else if decide (c = "}"%char) then Some s
         else None
     | EmptyString => None
     end).
Proof. done. Qed.

Lemma scan_tail2 f : (2 * String.length tail2 < f)%nat →
  scan (S f) 1 GMembers (quoted "metadata" +:+ ":" +:+ tail2) = Some EmptyString.
Proof.
  intros Hf. rewrite scan_members_S, scan_key_metadata. unfold tail2 in *.
  rewrite skip_ws_value by done. cbn [mbind option_bind].
  by rewrite scan_value by (done || by split_and!).
Qed.

Lemma scan_tail1 f : (2 * String.length tail1 < f)%nat →
  scan (S f) 1 GMembers (quoted "data" +:+ ":" +:+ tail1) = Some EmptyString.
Proof.
  intros Hf. rewrite scan_members_S, scan_key_data. unfold tail1 in *.
  rewrite skip_ws_value by done. cbn [mbind option_bind].
  rewrite scan_value by (done || apply tail1_stops). cbn [skip_ws].
  destruct f as [|f]; [lia|]. rewrite !length_app_string in Hf.
  apply scan_tail2. unfold tail2 in *. rewrite !length_app_string in *. cbn in *. lia.
Qed.

Lemma members_step f c s1 s2 s3 s4 :
  scan_string s1 = Some s2 → scan_key (String c s1) = Some s3 →
  scan (scan_fuel s3) 1 GValue s3 = Some s4 →
  members (S f) (String c s1) =
    (before s1 (String quote_char s2), before s3 s4) ::
    match skip_ws s4 with
    | String c s5 => if decide (c = ","%char) then members f (skip_ws s5) else []
    | EmptyString => []
    end.
Proof. intros H1 H2 H3. cbn [members]. by rewrite H1, H2, H3. Qed.

Lemma members_object f :
  members (S (S f)) (quoted "data" +:+ ":" +:+ tail1) = [("data", data); ("metadata", metadata)].
Proof.
  assert (∀ x, quoted "data" +:+ x = String quote_char ("data" +:+ String quote_char x)) as E1 by done.
  assert (∀ x, quoted "metadata" +:+ x = String quote_char ("metadata" +:+ String quote_char x)) as E2
    by done.
  rewrite E1. erewrite members_step; [|done| |].
  2: { rewrite <-E1, scan_key_data. unfold tail1. by rewrite skip_ws_value. }
  2: { apply scan_value; [done|apply tail1_stops|unfold scan_fuel; lia]. }
  rewrite !before_app. f_equal.
  change (skip_ws ("," +:+ ?x)) with ("," +:+ x).
  change (members (S f) (skip_ws (quoted "metadata" +:+ ":" +:+ tail2)) = [("metadata", metadata)]).
  change (skip_ws (quoted "metadata" +:+ ?x)) with (quoted "metadata" +:+ x).
  rewrite E2. erewrite members_step; [|done| |].
  2: { rewrite <-E2, scan_key_metadata. unfold tail2. by rewrite skip_ws_value. }
  2: { apply scan_value; [done|by split_and!|unfold scan_fuel; lia]. }
  by rewrite !before_app.
Qed.

(** Both fields get the bytes of the members. *)
Lemma Unmarshal_object : Unmarshal (object_text data metadata) = Ok (Some data, Some metadata).
Proof.
  unfold Unmarshal.
  change (object_text data metadata) with (String "{" (quoted "data" +:+ ":" +:+ tail1)).
  set (s := String "{" _). change (skip_ws s) with s. unfold s.
  assert (scan (scan_fuel s) 0 GValue s = Some EmptyString) as Hscan.
  { unfold s, scan_fuel. cbn [String.length].
    assert (2 * String.length tail1 < 2 * String.length (quoted "data" +:+ ":" +:+ tail1))%nat.
    { rewrite !length_app_string. cbn. lia. }
    destruct (2 * S (String.length (quoted "data" +:+ ":" +:+ tail1)))%nat as [|n] eqn:E; [lia|].
    change (scan (S (S (S n))) 0 GValue (String "{" (quoted "data" +:+ ":" +:+ tail1)))
      with (scan (S (S n)) 1 GMembers (quoted "data" +:+ ":" +:+ tail1)).
    apply scan_tail1. lia. }
  fold s. rewrite Hscan. cbn [skip_ws]. rewrite decide_True by done. unfold s.
  rewrite decide_True by done.
  change (skip_ws (quoted "data" +:+ ?x)) with (quoted "data" +:+ x).
  pose proof (length_app_string (quoted "data") (":" +:+ tail1)) as Hlen.
  change (String.length (quoted "data")) with 6%nat in Hlen. cbn [String.length].
  destruct (String.length (quoted "data" +:+ ":" +:+ tail1)) as [|n]; [lia|].
  rewrite members_object. reflexivity.
Qed.
End object.
