(* ===== verification/SequencePosition.v ===== *)
(** * SequencePosition

    Models [src/eventstore/sequence_position.go]: positions in the global event
    stream.  The struct has one unexported [uint64] field, so a [Z] here, with
    [pos_wf] the invariant that it is a uint64. *)

From S2P Require Import Prelude.
From S2P Require Import GoStrconv.

Local Open Scope Z_scope.

Record SequencePosition := mkPosition { value : Z }.

#[export] Instance SequencePosition_eq_dec : EqDecision SequencePosition.
Proof. solve_decision. Defined.

Definition pos_wf (p : SequencePosition) : Prop := in_u64 (value p).

#[export] Instance pos_wf_dec p : Decision (pos_wf p).
Proof. unfold pos_wf. apply _. Defined.

(** ** Operations *)

Definition IsAfter (p other : SequencePosition) : bool :=
  bool_decide (value p > value other).

Definition IsBefore (p other : SequencePosition) : bool :=
  bool_decide (value p < value other).

Definition Position_Equal (p other : SequencePosition) : bool :=
  bool_decide (value p = value other).

(** The method [String]. *)
Definition Position_String (p : SequencePosition) : string := FormatUint (value p).

Definition SequencePositionInitial : SequencePosition := mkPosition 0.

(** [fmt.Errorf("invalid position string: %q", s)] *)
Inductive position_error := ErrInvalidPosition (s : string).

Definition ParseSequencePosition (s : string) : outcome position_error SequencePosition :=
  match ParseUint s with
  | Ok v =>
      if decide (FormatUint v = s) then Ok (mkPosition v)
      else Err (ErrInvalidPosition s)
  | _ => Err (ErrInvalidPosition s)
  end.

Definition CompareSequencePosition (a b : SequencePosition) : Z :=
  if decide (value a < value b) then -1
  else if decide (value a > value b) then 1
  else 0.

(** ** Lemmas used by the stores *)

Lemma IsAfter_true p q : IsAfter p q = true ↔ value q < value p.
Proof. unfold IsAfter. rewrite bool_decide_eq_true. lia. Qed.

Lemma IsBefore_true p q : IsBefore p q = true ↔ value p < value q.
Proof. unfold IsBefore. by rewrite bool_decide_eq_true. Qed.

Lemma Initial_wf : pos_wf SequencePositionInitial.
Proof. done. Qed.

Lemma Parse_FormatUint n :
  in_u64 n → ParseSequencePosition (FormatUint n) = Ok (mkPosition n).
Proof.
  intros Hn. unfold ParseSequencePosition. rewrite ParseUint_FormatUint by done.
  by rewrite decide_True.
Qed.

#[export] Hint Resolve Initial_wf : dcb.
#[export] Hint Rewrite IsAfter_true IsBefore_true : dcb.

(** ** Properties *)

(** C40: [ParseSequencePosition] accepts exactly the canonical decimal numerals
    of the uint64 values, and returns the position that [String] prints that
    way: the two round-trip, and non-canonical strings are refused. *)
Theorem ParseSequencePosition_canonical s p :
  ParseSequencePosition s = Ok p ↔ pos_wf p ∧ s = Position_String p.
Proof.
  split.
  - unfold ParseSequencePosition.
    destruct (ParseUint s) as [v| |] eqn:HP; [|done|done].
    case_decide as Hs; intros [= <-]. by apply ParseUint_range in HP.
  - intros [Hp ->]. destruct p. by apply Parse_FormatUint.
Qed.

(** [CompareSequencePosition] is the total order of positions: its sign
    agrees with [IsBefore], [IsAfter] and [Equal], it is antisymmetric, and
    comparing below is transitive, as a sort comparator needs. *)
Theorem CompareSequencePosition_order a b c :
  (CompareSequencePosition a b = -1 ↔ IsBefore a b = true) ∧
  (CompareSequencePosition a b = 1 ↔ IsAfter a b = true) ∧
  (CompareSequencePosition a b = 0 ↔ Position_Equal a b = true) ∧
  (Position_Equal a b = true ↔ a = b) ∧
  CompareSequencePosition b a = - CompareSequencePosition a b ∧
  (IsBefore a b = true → IsBefore b c = true → CompareSequencePosition a c = -1).
Proof.
  rewrite !IsBefore_true, IsAfter_true. unfold Position_Equal.
  rewrite bool_decide_eq_true. unfold CompareSequencePosition.
  destruct a as [x], b as [y], c as [z]. simpl.
  repeat case_decide; repeat split; try lia; naive_solver lia.
Qed.
