(* ===== verification/Tags.v ===== *)
(** * Tags

    Models [src/eventstore/tags.go].  The unexported field of [Tags] is a Go
    [map[string]struct{}], that is a finite set of strings; a nil map and an
    empty one behave alike in every operation here, and are both [∅]. *)

From S2P Require Import Prelude.
From S2P Require Import GoStrings.

Record Tags := mkTags { tag_values : gset string }.

#[export] Instance Tags_eq_dec : EqDecision Tags.
Proof. solve_decision. Defined.

(** ** Operations *)

(** [Values] ranges over the map in an unspecified order and then sorts, so the
    order of the range loop does not matter ([Values_any_order] below). *)
Definition Values (t : Tags) : list string :=
  merge_sort String.le (elements (tag_values t)).

Definition Len (t : Tags) : nat := size (tag_values t).

Definition Tags_Equal (t other : Tags) : bool :=
  if decide (Len t ≠ Len other) then false
  else forallb (λ v, bool_decide (v ∈ tag_values other)) (elements (tag_values t)).

Definition isValidTagToken (s : string) : bool :=
  if decide (s = EmptyString) then false else negb (ContainsFunc s IsSpace).

(** One constructor per [fmt.Errorf] of the file, with its arguments. *)
Inductive tags_error :=
  | ErrTagValue (v : string)
  | ErrEmptyObject
  | ErrTagKey (k : string)
  | ErrTagValueForKey (v k : string).

#[export] Instance tags_error_eq_dec : EqDecision tags_error.
Proof. solve_decision. Defined.

(** The first loop of [TagsFrom]: stop at the first invalid value. *)
Fixpoint check_values (values : list string) : outcome tags_error unit :=
  match values with
  | [] => Ok ()
  | v :: values => if isValidTagToken v then check_values values else Err (ErrTagValue v)
  end.

Definition TagsFrom (values : list string) : outcome tags_error Tags :=
  check_values values ≫= λ _, Ok (mkTags (foldl (λ set v, {[v]} ∪ set) ∅ values)).

(** The loop of [TagsFromMap].  [entries] is the sequence of key-value pairs in
    the order in which the range loop visits the map. *)
Fixpoint add_entries (entries : list (string * string)) (set : gset string) :
    outcome tags_error (gset string) :=
  match entries with
  | [] => Ok set
  | (k, v) :: entries =>
      if negb (isValidTagToken k) then Err (ErrTagKey k)
      else if negb (isValidTagToken v) then Err (ErrTagValueForKey v k)
      else add_entries entries ({[k +:+ "=" +:+ v]} ∪ set)
  end.

Definition TagsFromMap (entries : list (string * string)) : outcome tags_error Tags :=
  if decide (length entries = 0) then Err ErrEmptyObject
  else mkTags <$> add_entries entries ∅.

Definition EmptyTags : Tags := mkTags ∅.

(** The invariant that the constructors establish: every tag is a token. *)
Definition tags_wf (t : Tags) : Prop :=
  ∀ v, v ∈ tag_values t → isValidTagToken v = true.

(** ** Lemmas *)

Lemma elem_of_Values t v : v ∈ Values t ↔ v ∈ tag_values t.
Proof. unfold Values. by rewrite merge_sort_Permutation, elem_of_elements. Qed.

Lemma Values_NoDup t : NoDup (Values t).
Proof. unfold Values. rewrite merge_sort_Permutation. apply NoDup_elements. Qed.

Lemma Values_length t : length (Values t) = Len t.
Proof. unfold Values. by rewrite merge_sort_Permutation. Qed.

Lemma Values_nil t : Values t = [] ↔ Len t = 0.
Proof. rewrite <-Values_length. by rewrite length_zero_iff_nil. Qed.

Lemma Values_sorted t : Sorted String.le (Values t).
Proof. apply Sorted_merge_sort. apply _. Qed.

Lemma Tags_ext t1 t2 : (∀ v, v ∈ tag_values t1 ↔ v ∈ tag_values t2) → t1 = t2.
Proof. destruct t1, t2. intros H. f_equal. by apply set_eq. Qed.

Lemma Values_inj t1 t2 : t1 = t2 ↔ Values t1 = Values t2.
Proof.
  split; [by intros ->|]. intros E. apply Tags_ext. intros v.
  by rewrite <-!elem_of_Values, E.
Qed.

Lemma Tags_Equal_true t1 t2 : Tags_Equal t1 t2 = true ↔ t1 = t2.
Proof.
  destruct t1 as [s1], t2 as [s2]. unfold Tags_Equal, Len. cbn [tag_values].
  assert (forallb (λ v, bool_decide (v ∈ s2)) (elements s1) = true ↔ s1 ⊆ s2) as Hsub.
  { rewrite List.forallb_forall. setoid_rewrite <-list_elem_of_In.
    setoid_rewrite elem_of_elements. setoid_rewrite bool_decide_eq_true. done. }
  case_decide as Hsz; [by split; [|intros [= ->]]|]. rewrite Hsub. split.
  - intros ?. f_equal. apply set_subseteq_size_eq; [done|lia].
  - by intros [= ->].
Qed.

Lemma foldl_insert_elem (l : list string) (s : gset string) v :
  v ∈ foldl (λ set v, {[v]} ∪ set) s l ↔ v ∈ s ∨ v ∈ l.
Proof.
  revert s. induction l as [|x l IH]; intros s; cbn.
  - rewrite elem_of_nil. tauto.
  - rewrite IH, elem_of_union, elem_of_singleton, elem_of_cons. tauto.
Qed.

Lemma check_values_Ok values :
  check_values values = Ok () ↔ Forall (λ v, isValidTagToken v = true) values.
Proof.
  induction values as [|v values IH]; [done|]. rewrite Forall_cons, <-IH. cbn.
  destruct (isValidTagToken v); [by split; [|intros [_ ?]]|by split; [|intros [? _]]].
Qed.

Lemma TagsFrom_Ok values :
  Forall (λ v, isValidTagToken v = true) values →
  TagsFrom values = Ok (mkTags (list_to_set values)).
Proof.
  intros Hv%check_values_Ok. unfold TagsFrom. rewrite Hv. simpl. do 2 f_equal.
  apply set_eq. intros v. rewrite foldl_insert_elem, elem_of_list_to_set. set_solver.
Qed.

#[export] Hint Rewrite elem_of_Values : dcb.

(** *** Concatenation of tokens

    An ASCII byte never occurs inside a UTF-8 sequence, so the runes of
    [k ++ "=" ++ v] are those of [k], then ['='], then those of [v], even when
    [k] is not valid UTF-8. *)

Lemma get_app_l (s t : string) i : i < String.length s →
  String.get i (s +:+ t) = String.get i s.
Proof.
  revert i. induction s as [|c s IH]; intros i Hi; [cbn in Hi; lia|].
  rewrite string_app_cons. destruct i as [|i]; [done|]. apply IH. cbn in Hi. lia.
Qed.

Lemma get_app_r (s t : string) : String.get (String.length s) (s +:+ t) = String.get 0 t.
Proof. induction s as [|c s IH]; [done|]. by rewrite string_app_cons. Qed.

Lemma get_ge (s : string) i : String.length s ≤ i → String.get i s = None.
Proof.
  revert i. induction s as [|c s IH]; intros [|i]; simpl; try done; [lia|].
  intros. apply IH. lia.
Qed.

Section ascii_boundary.
Context (c : ascii) (Hc : (byte_val c < 128)%Z).

Lemma cont_byte_app lo hi s t i : (128 ≤ lo)%Z → i ≤ String.length s →
  cont_byte lo hi (s +:+ String c t) i = cont_byte lo hi s i.
Proof.
  intros Hlo Hi. unfold cont_byte. destruct (decide (i = String.length s)) as [->|].
  - rewrite get_app_r, (get_ge s) by lia. simpl. by rewrite decide_False by lia.
  - rewrite get_app_l by lia. done.
Qed.

Lemma cont_byte_length lo hi s i x :
  cont_byte lo hi s i = Some x → S i ≤ String.length s.
Proof.
  unfold cont_byte. intros Hi. destruct (decide (S i ≤ String.length s)); [done|].
  rewrite get_ge in Hi by lia. done.
Qed.

Lemma lead_byte_lo b lo hi n : lead_byte b = Some (lo, hi, n) → (128 ≤ lo)%Z.
Proof. unfold lead_byte. repeat case_decide; naive_solver lia. Qed.

Lemma decode_multi_app b s t : 1 ≤ String.length s →
  decode_multi b (s +:+ String c t) = decode_multi b s.
Proof.
  intros Hs. unfold decode_multi.
  destruct (lead_byte b) as [[[lo hi] n]|] eqn:Hb; [|done]. cbn.
  pose proof (lead_byte_lo _ _ _ _ Hb). rewrite (cont_byte_app lo hi s t 1) by done.
  destruct (cont_byte lo hi s 1) as [b1|] eqn:H1; [|done]. cbn.
  apply cont_byte_length in H1. destruct n as [|[|[|[|n]]]]; try done.
  all: rewrite (cont_byte_app 128 191 s t 2) by (done || lia).
  all: destruct (cont_byte 128 191 s 2) as [b2|] eqn:H2; [|done]; cbn.
  all: apply cont_byte_length in H2; try done; by rewrite (cont_byte_app 128 191 s t 3) by (done || lia).
Qed.

Lemma decode_multi_width b s r n : decode_multi b s = Some (r, n) → n ≤ String.length s.
Proof.
  unfold decode_multi.
  destruct (lead_byte b) as [[[lo hi] m]|] eqn:Hb; [|done]. cbn.
  assert (m = 2 ∨ m = 3 ∨ m = 4) as Hm
    by (revert Hb; unfold lead_byte; repeat case_decide; naive_solver).
  destruct (cont_byte lo hi s 1) as [b1|] eqn:H1; [|done]. cbn.
  apply cont_byte_length in H1.
  destruct Hm as [->|[->| ->]]; [by intros [= _ <-]|..].
  all: destruct (cont_byte 128 191 s 2) as [b2|] eqn:H2; [|done]; cbn.
  all: apply cont_byte_length in H2.
  { by intros [= _ <-]. }
  destruct (cont_byte 128 191 s 3) as [b3|] eqn:H3; [|done]. cbn.
  apply cont_byte_length in H3. by intros [= _ <-].
Qed.

Lemma decode_rune_app a s t :
  decode_rune (String a s +:+ String c t) = decode_rune (String a s).
Proof.
  rewrite string_app_cons. unfold decode_rune. case_decide; [done|].
  by rewrite <-string_app_cons, decode_multi_app by (simpl; lia).
Qed.

Lemma decode_rune_width s : (decode_rune s).2 ≤ String.length s.
Proof.
  destruct s as [|a s]; [done|]. unfold decode_rune. case_decide; [simpl; lia|].
  destruct (decode_multi _ _) as [[r n]|] eqn:Hm; simpl; [|lia].
  by apply decode_multi_width in Hm.
Qed.

Lemma runes_from_app s t k : k ≤ String.length s →
  runes_from (s +:+ String c t) k = runes_from s k ++ byte_val c :: runes_from t 0.
Proof.
  revert k. induction s as [|a s IH]; intros k Hk.
  - destruct k; [|simpl in Hk; lia]. change (EmptyString +:+ String c t) with (String c t).
    cbn [runes_from]. unfold decode_rune. by rewrite decide_True.
  - destruct k as [|k].
    + pose proof (decode_rune_width (String a s)) as Hw.
      rewrite string_app_cons. cbn [runes_from]. rewrite <-string_app_cons, decode_rune_app.
      destruct (decode_rune (String a s)) as [r n]. simpl in *.
      rewrite IH by lia. done.
    + rewrite string_app_cons. cbn [runes_from]. apply IH. simpl in Hk. lia.
Qed.
End ascii_boundary.

Lemma isValidTagToken_true s :
  isValidTagToken s = true ↔ s ≠ EmptyString ∧ Forall (λ r, IsSpace r = false) (runes s).
Proof.
  unfold isValidTagToken, ContainsFunc. case_decide; [naive_solver|].
  rewrite negb_true_iff. trans (Forall (λ r, IsSpace r = false) (runes s)); [|naive_solver].
  induction (runes s) as [|r l IH]; simpl; [done|].
  rewrite orb_false_iff, Forall_cons. naive_solver.
Qed.

Lemma isValidTagToken_pair k v :
  isValidTagToken k = true → isValidTagToken v = true →
  isValidTagToken (k +:+ "=" +:+ v) = true.
Proof.
  rewrite !isValidTagToken_true. intros [? Hk] [? Hv]. split; [by destruct k|].
  unfold runes. change ("=" +:+ v) with (String "=" v).
  rewrite runes_from_app by (done || lia). rewrite Forall_app, Forall_cons. done.
Qed.

Lemma add_entries_Ok entries set set' :
  add_entries entries set = Ok set' ↔
    Forall (λ kv, isValidTagToken kv.1 = true ∧ isValidTagToken kv.2 = true) entries ∧
    set' = set ∪ list_to_set ((λ kv, kv.1 +:+ "=" +:+ kv.2) <$> entries).
Proof.
  revert set. induction entries as [|[k v] entries IH]; intros set; cbn.
  - rewrite (right_id_L ∅ (∪)). naive_solver.
  - rewrite Forall_cons. cbn.
    destruct (isValidTagToken k); cbn; [|naive_solver].
    destruct (isValidTagToken v); cbn; [|naive_solver].
    rewrite IH. rewrite (assoc_L (∪) set), (comm_L (∪) set). naive_solver.
Qed.

Lemma add_entries_no_panic entries set msg : add_entries entries set ≠ Panic msg.
Proof.
  revert set. induction entries as [|[k v] entries IH]; intros set; cbn; [done|].
  by repeat case_match.
Qed.

(** ** Properties *)

(** [TagsFrom] returns the set of exactly the given values when all of them
    are tokens, and otherwise the error that names the first value that is not
    one; it never panics. *)
Theorem TagsFrom_spec values :
  (∀ t, TagsFrom values = Ok t ↔
     Forall (λ v, isValidTagToken v = true) values ∧
     (∀ v, v ∈ tag_values t ↔ v ∈ values)) ∧
  (∀ e, TagsFrom values = Err e ↔
     ∃ pre v post, values = pre ++ v :: post ∧ e = ErrTagValue v ∧
       Forall (λ v, isValidTagToken v = true) pre ∧ isValidTagToken v = false) ∧
  (∀ msg, TagsFrom values ≠ Panic msg).
Proof.
  destruct (split_first isValidTagToken values) as [Hok|(pre&v&post&->&Hpre&Hv)].
  - rewrite TagsFrom_Ok by done. split_and!; [|split; [done|]|done].
    + intros t. split; [intros [= <-]|intros [_ Ht]].
      * split; [done|]. intros v. simpl. apply elem_of_list_to_set.
      * destruct t as [ts]. do 2 f_equal. apply set_eq. intros v.
        by rewrite elem_of_list_to_set, <-Ht.
    + intros (pre&v&post&->&_&_&Hv). apply Forall_app in Hok as [_ Hok].
      apply Forall_cons in Hok as [? _]. congruence.
  - assert (TagsFrom (pre ++ v :: post) = Err (ErrTagValue v)) as E.
    { unfold TagsFrom. enough (check_values (pre ++ v :: post) = Err (ErrTagValue v)) as -> by done.
      induction Hpre as [|x pre Hx Hpre IH]; cbn; [by rewrite Hv|by rewrite Hx]. }
    rewrite E. split_and!; [|split|done].
    + intros t. split; [done|intros [Hall _]]. apply Forall_app in Hall as [_ Hall].
      apply Forall_cons in Hall as [? _]. congruence.
    + intros [= <-]. eauto 10.
    + intros (pre'&v'&post'&Heq&->&Hpre'&Hv').
      by destruct (split_first_unique _ _ _ _ _ _ _ Heq Hpre Hv Hpre' Hv') as (_&->&_).
Qed.

(** On text in valid UTF-8, [isValidTagToken] accepts exactly the non-empty
    texts without a White_Space character (tabs, newlines, the no-break space,
    the ideographic space, ...). *)
Theorem isValidTagToken_utf8 rs :
  Forall scalar_value rs →
  isValidTagToken (encode_runes rs) = true ↔ rs ≠ [] ∧ ∀ r, r ∈ rs → IsSpace r = false.
Proof.
  intros Hrs. rewrite isValidTagToken_true, runes_encode_runes, Forall_forall by done.
  assert (encode_runes rs = EmptyString ↔ rs = []) as Hnil; [|naive_solver].
  split; [|by intros ->]. destruct rs as [|r rs]; [done|]. cbn [encode_runes].
  unfold encode_rune. repeat case_decide; by rewrite string_app_cons.
Qed.

Lemma isValidTagToken_utf8_witness :
  Forall scalar_value [97; 160]%Z ∧ isValidTagToken (encode_runes [97; 160]%Z) = false ∧
  isValidTagToken (encode_runes [97; 233; 12354]%Z) = true.
Proof.
  assert (Forall scalar_value [97; 160]%Z) as H1
    by (repeat constructor; unfold scalar_value; lia).
  assert (Forall scalar_value [97; 233; 12354]%Z) as H2
    by (repeat constructor; unfold scalar_value; lia).
  split; [done|]. split.
  - apply not_true_iff_false. rewrite isValidTagToken_utf8 by done. intros [_ Hs].
    specialize (Hs 160%Z ltac:(set_solver)). vm_compute in Hs. done.
  - apply isValidTagToken_utf8; [done|]. split; [done|].
    intros r Hr. repeat (apply elem_of_cons in Hr as [->|Hr]; [done|]).
    by apply elem_of_nil in Hr.
Defined.

(** C39: [TagsFromMap] accepts a non-empty map whose keys and values are all
    tokens, and only such maps; the result is the set of the ["key=value"]
    strings, each a valid tag itself.  Neither the success nor the resulting
    set depends on the order in which the range loop visits the map. *)
Theorem TagsFromMap_spec (obj : gmap string string) entries :
  entries ≡ₚ map_to_list obj →
  (is_Ok (TagsFromMap entries) ↔ obj ≠ ∅ ∧
     ∀ k v, obj !! k = Some v → isValidTagToken k = true ∧ isValidTagToken v = true) ∧
  (∀ t, TagsFromMap entries = Ok t → tags_wf t ∧
     ∀ x, x ∈ tag_values t ↔ ∃ k v, obj !! k = Some v ∧ x = k +:+ "=" +:+ v) ∧
  (∀ msg, TagsFromMap entries ≠ Panic msg).
Proof.
  intros Hperm. unfold TagsFromMap.
  assert (∀ k v, (k, v) ∈ entries ↔ obj !! k = Some v) as Hin.
  { intros k v. by rewrite Hperm, elem_of_map_to_list. }
  assert (length entries = 0 ↔ obj = ∅) as Hlen.
  { rewrite Hperm, length_zero_iff_nil. apply map_to_list_empty_iff. }
  assert (Forall (λ kv, isValidTagToken kv.1 = true ∧ isValidTagToken kv.2 = true) entries ↔
    ∀ k v, obj !! k = Some v → isValidTagToken k = true ∧ isValidTagToken v = true) as Hall.
  { rewrite Forall_forall. setoid_rewrite <-Hin. split; [intros H k v; apply H|].
    intros H [k v]. apply H. }
  case_decide as Hl.
  { split_and!; [|done|done]. split; [by intros [??]|intros [? _]; tauto]. }
  split_and!.
  - rewrite <-Hall. unfold is_Ok. split.
    + destruct (add_entries entries ∅) as [s| |] eqn:E; [|by intros [??]..].
      intros _. apply add_entries_Ok in E as [? _]. tauto.
    + intros [_ H]. eexists (mkTags _).
      by rewrite (proj2 (add_entries_Ok entries ∅ _) (conj H eq_refl)).
  - intros t. destruct (add_entries entries ∅) as [s| |] eqn:E; [|done..].
    apply add_entries_Ok in E as [HF ->]. intros [= <-]. unfold tags_wf. cbn.
    assert (∀ x, x ∈ (∅ : gset string) ∪ list_to_set ((λ kv, kv.1 +:+ "=" +:+ kv.2) <$> entries)
      ↔ ∃ k v, obj !! k = Some v ∧ x = k +:+ "=" +:+ v) as Hx.
    { intros x. rewrite (left_id_L ∅ (∪)), elem_of_list_to_set, list_elem_of_fmap.
      setoid_rewrite <-Hin. split; [intros ([k v]&->&?); by exists k, v|].
      intros (k&v&?&->). by exists (k, v). }
    split; [|done]. intros v (k&w&[??]%(proj1 Hall HF)&->)%Hx. by apply isValidTagToken_pair.
  - intros msg. destruct (add_entries entries ∅) eqn:E; try done.
    by apply add_entries_no_panic in E.
Qed.

Lemma TagsFromMap_spec_witness :
  [("course", "c1"); ("student", "s1")] ≡ₚ
    map_to_list (<["course":="c1"]> {["student":="s1"]} : gmap string string) ∧
  is_Ok (TagsFromMap [("course", "c1"); ("student", "s1")]).
Proof.
  assert ([("course", "c1"); ("student", "s1")] ≡ₚ
    map_to_list (<["course":="c1"]> {["student":="s1"]} : gmap string string)) as Hp.
  { rewrite map_to_list_insert by done. by rewrite map_to_list_singleton. }
  split; [done|]. apply (TagsFromMap_spec _ _ Hp). split; [done|].
  intros k v. rewrite lookup_insert, lookup_singleton.
  repeat case_decide; intros [= <-]; subst; done.
Defined.

(** [Values] lists each tag once, sorted in byte order, so that it is a
    function of the set: two [Tags] are [Equal] exactly when their [Values] are
    the same slice, exactly when they are the same set. *)
Theorem Values_canonical t1 t2 :
  Sorted String.le (Values t1) ∧ NoDup (Values t1) ∧
  (∀ v, v ∈ Values t1 ↔ v ∈ tag_values t1) ∧ length (Values t1) = Len t1 ∧
  (Tags_Equal t1 t2 = true ↔ Values t1 = Values t2) ∧
  (Tags_Equal t1 t2 = true ↔ ∀ v, v ∈ tag_values t1 ↔ v ∈ tag_values t2).
Proof.
  rewrite Tags_Equal_true. split_and!; auto using Values_sorted, Values_NoDup,
    elem_of_Values, Values_length, Values_inj.
  split; [by intros ->|apply Tags_ext].
Qed.
