(* ===== verification/EventStore.v ===== *)
(** * EventStore

    The data of package [src/eventstore]: events, queries, append conditions
    and commands, options and errors, with the operations on them
    ([query.go], [append_condition.go], [append_condition_error.go], [event.go],
    [append_command.go], [store.go]).

    Values are modelled without the sharing of Go slices: a [QueryItem] holds
    its [Types] by value. *)

From S2P Require Import Prelude.
From S2P Require Import GoStrconv.
From S2P Require Import GoJson.
From S2P Require Import SequencePosition.
From S2P Require Import Tags.

(** ** Data *)

(** [json.RawMessage] is a byte slice; [None] is the nil slice, which the code
    distinguishes from an empty one. *)
Definition RawMessage := option string.

Record Event := mkEvent {
  Type_ : string;
  Event_Tags : Tags;
  Data : RawMessage;
  Metadata : RawMessage;
}.

Record SequencedEvent := mkSequenced {
  se_Event : Event;
  Position : SequencePosition;
}.

Record QueryItem := mkItem {
  Types : list string;
  Item_Tags : Tags;
}.

Record Query := mkQuery {
  items : list QueryItem;
  all : bool;
}.

Record AppendCondition := mkCondition {
  FailIfEventsMatch : Query;
  After : option SequencePosition;
}.

Record AppendCommand := mkCommand {
  Events : list Event;
  Condition : option AppendCondition;
}.

Record AppendConditionError := mkConditionError {
  ace_Condition : AppendCondition;
  CommandIndex : option Z;
}.

(** [Limit] is an [int]; zero or negative means no limit. *)
Record ReadOptions := mkReadOptions {
  Backwards : bool;
  Read_After : option SequencePosition;
  Limit : Z;
}.

(** [PollInterval] is a [time.Duration], in nanoseconds. *)
Record SubscribeOptions := mkSubscribeOptions {
  Subscribe_After : option SequencePosition;
  PollInterval : Z;
}.

#[export] Instance Event_eq_dec : EqDecision Event.
Proof. solve_decision. Defined.
#[export] Instance SequencedEvent_eq_dec : EqDecision SequencedEvent.
Proof. solve_decision. Defined.
#[export] Instance QueryItem_eq_dec : EqDecision QueryItem.
Proof. solve_decision. Defined.
#[export] Instance Query_eq_dec : EqDecision Query.
Proof. solve_decision. Defined.
#[export] Instance AppendCondition_eq_dec : EqDecision AppendCondition.
Proof. solve_decision. Defined.
#[export] Instance AppendCommand_eq_dec : EqDecision AppendCommand.
Proof. solve_decision. Defined.
#[export] Instance AppendConditionError_eq_dec : EqDecision AppendConditionError.
Proof. solve_decision. Defined.

(** ** Errors *)

(** The [fmt.Errorf] calls of [query.go] and [append_condition.go]. *)
Inductive query_error :=
  | ErrNoItems
  | ErrItemWithoutTypes (i : nat).

Inductive condition_error :=
  | ErrConditionQueryAll
  | ErrConditionUnscoped.

(** What [ctx.Err()] returns once the context is done. *)
Inductive context_error := Canceled | DeadlineExceeded.

(** A [context.Context], as far as it is consulted: [None] while it is live. *)
Definition context := option context_error.

(** The errors that the stores return. *)
Inductive store_error :=
  | EContext (e : context_error)
  | ECondition (e : condition_error)
  | EZeroEvents
  | EAppendCondition (e : AppendConditionError)
  | EDatabase (msg : string)
  | EJson (e : json_error)
  | ETags (e : tags_error).

#[export] Instance query_error_eq_dec : EqDecision query_error.
Proof. solve_decision. Defined.
#[export] Instance condition_error_eq_dec : EqDecision condition_error.
Proof. solve_decision. Defined.
#[export] Instance context_error_eq_dec : EqDecision context_error.
Proof. solve_decision. Defined.
#[export] Instance store_error_eq_dec : EqDecision store_error.
Proof. solve_decision. Defined.

(** The method [Error] of [AppendConditionError]. *)
Definition AppendConditionError_Error (e : AppendConditionError) : string :=
  match CommandIndex e with
  | None => "expected version fail: new events matching appendCondition found"
  | Some i =>
      "expected version fail: new events matching appendCondition found (command " +:+
        FormatInt i +:+ ")"
  end.

(** ** Queries *)

Definition QueryAll : Query := mkQuery [] true.

(** The validation loop of [QueryFromItems], from index [i] on. *)
Fixpoint check_items (i : nat) (its : list QueryItem) : outcome query_error unit :=
  match its with
  | [] => Ok ()
  | item :: its =>
      if decide (length (Types item) = 0) then Err (ErrItemWithoutTypes i)
      else check_items (S i) its
  end.

Definition QueryFromItems (its : list QueryItem) : outcome query_error Query :=
  if decide (length its = 0) then Err ErrNoItems
  else check_items 0 its ≫= λ _, Ok (mkQuery its false).

Definition IsAll (q : Query) : bool := all q.

Definition Items (q : Query) : list QueryItem := items q.

(** The zero value [Query{}], which any package can write. *)
Definition zeroQuery : Query := mkQuery [] false.

(** ** Append conditions *)

Fixpoint check_scoped (its : list QueryItem) : outcome condition_error unit :=
  match its with
  | [] => Ok ()
  | item :: its =>
      if decide (length (Types item) = 0 ∨ Len (Item_Tags item) = 0)
      then Err ErrConditionUnscoped
      else check_scoped its
  end.

Definition ValidateAppendCondition (condition : AppendCondition) :
    outcome condition_error unit :=
  if IsAll (FailIfEventsMatch condition) then Err ErrConditionQueryAll
  else check_scoped (Items (FailIfEventsMatch condition)).

(** A query item that names at least one type and one tag. *)
Definition item_scoped (item : QueryItem) : Prop :=
  Types item ≠ [] ∧ Len (Item_Tags item) ≠ 0.

Definition query_scoped (q : Query) : Prop :=
  IsAll q = false ∧ Forall item_scoped (Items q).

(** The queries that the constructors build. *)
Definition query_wf (q : Query) : Prop :=
  q = QueryAll ∨
  (IsAll q = false ∧ Items q ≠ [] ∧ Forall (λ item, Types item ≠ []) (Items q)).

#[export] Instance item_scoped_dec item : Decision (item_scoped item).
Proof. unfold item_scoped. apply _. Defined.
#[export] Instance query_scoped_dec q : Decision (query_scoped q).
Proof. unfold query_scoped. apply _. Defined.

(** ** Lemmas *)

Lemma check_scoped_Ok its : check_scoped its = Ok () ↔ Forall item_scoped its.
Proof.
  induction its as [|item its IH]; cbn; [done|]. rewrite Forall_cons, <-IH.
  unfold item_scoped. case_decide as H; rewrite length_zero_iff_nil in H.
  - split; [done|]. intros [[??] _]. tauto.
  - split; [|tauto]. intros ?. tauto.
Qed.

Lemma ValidateAppendCondition_Ok c :
  ValidateAppendCondition c = Ok () ↔ query_scoped (FailIfEventsMatch c).
Proof.
  unfold ValidateAppendCondition, query_scoped. destruct (IsAll _); [naive_solver|].
  rewrite check_scoped_Ok. naive_solver.
Qed.

Lemma item_scoped_alt item :
  item_scoped item ↔
    (∃ t, t ∈ Types item) ∧ (∃ tag, tag ∈ tag_values (Item_Tags item)).
Proof.
  unfold item_scoped, Len. rewrite size_non_empty_iff. f_equiv.
  - destruct (Types item) as [|t l]; [|split; [intros _; exists t; by left|done]].
    split; [done|]. by intros [? ?%elem_of_nil].
  - split; [apply set_choose|]. intros [x Hx] He. by rewrite He in Hx; apply elem_of_empty in Hx.
Qed.

(** The two outcomes of the scoping loop. *)
Lemma check_scoped_cases its :
  (check_scoped its = Ok () ∧ Forall item_scoped its) ∨
  (check_scoped its = Err ErrConditionUnscoped ∧
   ∃ item, item ∈ its ∧ (Types item = [] ∨ tag_values (Item_Tags item) = ∅)).
Proof.
  induction its as [|item its IH]; cbn; [by left|].
  case_decide as H; rewrite length_zero_iff_nil in H.
  - right. split; [done|]. exists item. split; [apply elem_of_cons; by left|].
    unfold Len in H. by rewrite size_empty_iff in H; unfold_leibniz.
  - destruct IH as [[? ?]|(?&item'&?&?)]; [left|right]; (split; [done|]).
    + constructor; [|done]. unfold item_scoped. tauto.
    + exists item'. split; [apply elem_of_cons; by right|done].
Qed.

Lemma ValidateAppendCondition_no_panic c msg : ValidateAppendCondition c ≠ Panic msg.
Proof.
  unfold ValidateAppendCondition. destruct (IsAll _); [done|].
  by destruct (check_scoped_cases (Items (FailIfEventsMatch c))) as [[-> _]|[-> _]].
Qed.

Lemma check_items_Ok i its :
  check_items i its = Ok () ↔ Forall (λ item, Types item ≠ []) its.
Proof.
  revert i. induction its as [|item its IH]; intros i; cbn; [done|].
  rewrite Forall_cons, <-(IH (S i)).
  case_decide as H; rewrite length_zero_iff_nil in H; naive_solver.
Qed.

Lemma check_items_Err i its e :
  check_items i its = Err e ↔
    ∃ pre item post, its = pre ++ item :: post ∧ e = ErrItemWithoutTypes (i + length pre) ∧
      Forall (λ item, Types item ≠ []) pre ∧ Types item = [].
Proof.
  revert i. induction its as [|item its IH]; intros i; cbn.
  { split; [done|]. by intros ([|??]&?&?&?&_). }
  case_decide as Hi; rewrite length_zero_iff_nil in Hi.
  - split.
    + intros [= <-]. exists [], item, its. split_and!; [done| |done|done]. f_equal. cbn. lia.
    + intros ([|p pre]&item'&post&[= <- ->]&->&HF&?); [by rewrite Nat.add_0_r|].
      apply Forall_cons in HF as [? _]. done.
  - rewrite IH. split.
    + intros (pre&item'&post&->&->&?&?). exists (item :: pre), item', post.
      split_and!; [done| |by constructor|done]. f_equal. cbn. lia.
    + intros ([|p pre]&item'&post&[= <- ->]&->&HF&?); [done|].
      apply Forall_cons in HF as [_ ?]. exists pre, item', post.
      split_and!; [done| |done|done]. f_equal. cbn. lia.
Qed.

(** ** Properties *)

(** [QueryFromItems] accepts exactly the non-empty slices whose items all
    name a type, keeps the items as given, and otherwise reports the index of
    the first item without types; every query it or [QueryAll] builds is
    well-formed, and the zero value [Query{}] is not. *)
Theorem QueryFromItems_spec its :
  (∀ q, QueryFromItems its = Ok q ↔
     its ≠ [] ∧ Forall (λ item, Types item ≠ []) its ∧
     IsAll q = false ∧ Items q = its) ∧
  (∀ i, QueryFromItems its = Err (ErrItemWithoutTypes i) ↔
     ∃ pre item post, its = pre ++ item :: post ∧ i = length pre ∧
       Forall (λ item, Types item ≠ []) pre ∧ Types item = []) ∧
  (QueryFromItems its = Err ErrNoItems ↔ its = []) ∧
  (∀ q, QueryFromItems its = Ok q → query_wf q) ∧
  query_wf QueryAll ∧ ¬ query_wf zeroQuery.
Proof.
  unfold QueryFromItems. pose proof (check_items_Ok 0 its) as HOk.
  pose proof (check_items_Err 0 its) as HErr.
  case_decide as Hn; rewrite length_zero_iff_nil in Hn.
  { subst its. split_and!; try done; [naive_solver| | |].
    - intros i. split; [done|]. by intros ([|]&?&?&?&_).
    - by left.
    - intros [[=]|(_&?&_)]. done. }
  split_and!.
  - intros [its' al]. destruct (check_items 0 its) as [[]| |]; cbn; naive_solver.
  - intros i. trans (check_items 0 its = Err (ErrItemWithoutTypes i)).
    { destruct (check_items 0 its) as [[]| |]; cbn; naive_solver. }
    rewrite HErr. cbn. naive_solver.
  - split; [|done]. destruct (check_items 0 its) as [[]|e|] eqn:E; [done| |done].
    intros [= ->]. destruct (proj1 (HErr _) eq_refl) as (?&?&?&?&?&?). done.
  - intros q. destruct (check_items 0 its) as [[]|e|]; cbn; try done. intros [= <-].
    right. naive_solver.
  - by left.
  - intros [[=]|(_&?&_)]. done.
Qed.

(** [ValidateAppendCondition] refuses [QueryAll()], refuses any item that
    lacks a type or lacks a tag, and accepts every other condition; it never
    panics. *)
Theorem ValidateAppendCondition_spec c :
  (ValidateAppendCondition c = Ok () ↔
     IsAll (FailIfEventsMatch c) = false ∧
     ∀ item, item ∈ Items (FailIfEventsMatch c) →
       (∃ t, t ∈ Types item) ∧ (∃ tag, tag ∈ tag_values (Item_Tags item))) ∧
  (ValidateAppendCondition c = Err ErrConditionQueryAll ↔
     IsAll (FailIfEventsMatch c) = true) ∧
  (ValidateAppendCondition c = Err ErrConditionUnscoped ↔
     IsAll (FailIfEventsMatch c) = false ∧
     ∃ item, item ∈ Items (FailIfEventsMatch c) ∧
       (Types item = [] ∨ tag_values (Item_Tags item) = ∅)).
Proof.
  unfold ValidateAppendCondition. destruct (IsAll (FailIfEventsMatch c)).
  { split_and!; [by split; [|intros [? _]]|done|by split; [|intros [? _]]]. }
  split_and!.
  - rewrite check_scoped_Ok, Forall_forall. setoid_rewrite item_scoped_alt. naive_solver.
  - split; [|done]. intros H. by destruct (check_scoped_cases (Items (FailIfEventsMatch c)))
      as [(?&_)|(E&_)]; congruence.
  - split.
    + intros H. split; [done|]. destruct (check_scoped_cases (Items (FailIfEventsMatch c)))
        as [(?&_)|(_&?)]; [congruence|done].
    + intros (_&item&Hin&Hbad). destruct (check_scoped_cases (Items (FailIfEventsMatch c)))
        as [(E&Hall)|(E&_)]; [|done].
      rewrite Forall_forall in Hall. apply Hall, item_scoped_alt in Hin as [[t Ht] [x Hx]].
      destruct Hbad as [Hb|Hb]; rewrite Hb in *; [by apply elem_of_nil in Ht|].
      by apply elem_of_empty in Hx.
Qed.
