(* ===== verification/Iterator.v ===== *)
(** * Iterator

    The interface [EventIterator] and its two consumers, [Collect] and [All]
    ([src/eventstore/event_iterator.go]).

    [EventIterator] is a type class over the iterator's state; [IteratorLaws]
    states what a bounded ([Read]) iterator promises: which events are still to
    come, and which error, if any, ends it.  The consumers are verified against
    the laws only; the memory store's iterator and the Postgres cursor are
    instances. *)

From S2P Require Import Prelude.
From S2P Require Import SequencePosition.
From S2P Require Import Tags.
From S2P Require Import EventStore.

Class EventIterator (I : Type) := {
  (** The methods can panic: [Next] when it decodes rows, [Event] when it
      indexes a slice. *)
  Next : I → outcome store_error (bool * I);
  Current : I → outcome store_error SequencedEvent;
  Err_ : I → option store_error;
  Close : I → I;
}.

Class IteratorLaws (I : Type) `{EventIterator I} := {
  (** The states in which the caller may still use the iterator. *)
  iter_inv : I → Prop;
  remaining : I → list SequencedEvent;
  final_error : I → option store_error;
  is_closed : I → bool;
  next_some it ev evs :
    iter_inv it → remaining it = ev :: evs →
    ∃ it', Next it = Ok (true, it') ∧ Current it' = Ok ev ∧ iter_inv it' ∧
      remaining it' = evs ∧ final_error it' = final_error it;
  next_none it :
    iter_inv it → remaining it = [] →
    ∃ it', Next it = Ok (false, it') ∧ Err_ it' = final_error it;
  close_closed it : is_closed (Close it) = true;
}.

(** ** Collect *)

Section Collect.
Context {I : Type} `{EventIterator I}.

(** [for it.Next() { events = append(events, it.Event()) }]; [None] when the
    fuel runs out. *)
Fixpoint collect_loop (fuel : nat) (it : I) (events : list SequencedEvent) :
    option (outcome store_error (list SequencedEvent) * I) :=
  match fuel with
  | O => None
  | S fuel =>
      match Next it with
      | Ok (false, it) => Some (Ok events, it)
      | Ok (true, it) =>
          match Current it with
          | Ok ev => collect_loop fuel it (events ++ [ev])
          | Err e => Some (Err e, it)
          | Panic msg => Some (Panic msg, it)
          end
      | Err e => Some (Err e, it)
      | Panic msg => Some (Panic msg, it)
      end
  end.

(** The results [(events, err)] and the iterator after the deferred [Close]. *)
Definition Collect (fuel : nat) (it : I) :
    option (outcome store_error (list SequencedEvent * option store_error) * I) :=
  match collect_loop fuel it [] with
  | Some (r, it) => Some ((λ events, (events, Err_ it)) <$> r, Close it)
  | None => None
  end.
End Collect.

(** ** All *)

(** The zero value [SequencedEvent{}]. *)
Definition zeroSequenced : SequencedEvent :=
  mkSequenced (mkEvent EmptyString EmptyTags None None) SequencePositionInitial.

Section All.
Context {I : Type} `{EventIterator I}.
(** The loop body of [for ev, err := range All(it)]: a state [C] threaded
    through the iterations; the boolean is [yield]'s result, false when the
    body breaks out of the loop. *)
Context {C : Type} (yield : C → SequencedEvent → option store_error → bool * C).

(** The loop [for it.Next()]: the boolean is false on an early return. *)
Fixpoint all_loop (fuel : nat) (it : I) (c : C) :
    option (outcome store_error (bool * C) * I) :=
  match fuel with
  | O => None
  | S fuel =>
      match Next it with
      | Ok (false, it) => Some (Ok (true, c), it)
      | Ok (true, it) =>
          match Current it with
          | Ok ev =>
              match yield c ev None with
              | (false, c) => Some (Ok (false, c), it)
              | (true, c) => all_loop fuel it c
              end
          | Err e => Some (Err e, it)
          | Panic msg => Some (Panic msg, it)
          end
      | Err e => Some (Err e, it)
      | Panic msg => Some (Panic msg, it)
      end
  end.

Definition All_ (fuel : nat) (it : I) (c : C) : option (outcome store_error C * I) :=
  match all_loop fuel it c with
  | None => None
  | Some (Ok (false, c), it) => Some (Ok c, Close it)
  | Some (Ok (true, c), it) =>
      let c := match Err_ it with
               | Some err => (yield c zeroSequenced (Some err)).2
               | None => c
               end in
      Some (Ok c, Close it)
  | Some (Err e, it) => Some (Err e, Close it)
  | Some (Panic msg, it) => Some (Panic msg, Close it)
  end.

(** Specification: feed the events to the loop body until it breaks. *)
Fixpoint feed (evs : list SequencedEvent) (c : C) : bool * C :=
  match evs with
  | [] => (true, c)
  | ev :: evs =>
      match yield c ev None with
      | (false, c) => (false, c)
      | (true, c) => feed evs c
      end
  end.

Definition feed_all (evs : list SequencedEvent) (err : option store_error) (c : C) : C :=
  match feed evs c, err with
  | (true, c), Some e => (yield c zeroSequenced (Some e)).2
  | (_, c), _ => c
  end.
End All.

(** ** Properties *)

Section consumers.
Context {I : Type} `{IteratorLaws I}.

Lemma collect_loop_spec fuel it events :
  iter_inv it → length (remaining it) < fuel →
  ∃ it', collect_loop fuel it events = Some (Ok (events ++ remaining it), it') ∧
    Err_ it' = final_error it.
Proof.
  revert it events. induction fuel as [|fuel IH]; intros it events Hinv Hf; [lia|].
  destruct (remaining it) as [|ev evs] eqn:Hrem; cbn.
  - destruct (next_none it) as (it'&->&?); [done..|].
    exists it'. by rewrite app_nil_r.
  - destruct (next_some it ev evs) as (it'&->&->&?&Hr&<-); [done..|].
    destruct (IH it' (events ++ [ev])) as (it''&->&?); [done|rewrite Hr; cbn in Hf; lia|].
    exists it''. by rewrite Hr, <-(assoc_L (++)).
Qed.

(** C37: on a bounded iterator [Collect] terminates without panicking: with
    one more step of fuel than there are events left it returns exactly the
    remaining events, in order, together with the iterator's final error,
    and leaves the iterator closed. *)
Theorem Collect_total fuel (it : I) :
  iter_inv it → length (remaining it) < fuel →
  ∃ it', Collect fuel it = Some (Ok (remaining it, final_error it), it') ∧
    is_closed it' = true.
Proof.
  intros Hinv Hf. destruct (collect_loop_spec fuel it [] Hinv Hf) as (it'&E&Herr).
  exists (Close it'). unfold Collect. rewrite E. cbn. rewrite Herr.
  split; [done|apply close_closed].
Qed.

Context {C : Type} (yield : C → SequencedEvent → option store_error → bool * C).

Lemma all_loop_spec fuel it c :
  iter_inv it → length (remaining it) < fuel →
  ∃ it', all_loop yield fuel it c = Some (Ok (feed yield (remaining it) c), it') ∧
    ((feed yield (remaining it) c).1 = true → Err_ it' = final_error it).
Proof.
  revert it c. induction fuel as [|fuel IH]; intros it c Hinv Hf; [lia|].
  destruct (remaining it) as [|ev evs] eqn:Hrem; cbn.
  - destruct (next_none it) as (it'&->&?); [done..|]. by exists it'.
  - destruct (next_some it ev evs) as (it'&->&->&?&Hr&<-); [done..|].
    destruct (yield c ev None) as [[] c']; [|by exists it'].
    destruct (IH it' c') as (it''&->&?); [done|rewrite Hr; cbn in Hf; lia|].
    exists it''. by rewrite <-Hr.
Qed.

(** C38: ranging over [All] hands the loop body the remaining events in order
    until it breaks; after exhaustion, and only then, an iterator error is
    handed over as a last element; the iterator is closed on every path,
    early exit included. *)
Theorem All_spec fuel (it : I) (c : C) :
  iter_inv it → length (remaining it) < fuel →
  ∃ it', All_ yield fuel it c =
      Some (Ok (feed_all yield (remaining it) (final_error it) c), it') ∧
    is_closed it' = true.
Proof.
  intros Hinv Hf. destruct (all_loop_spec fuel it c Hinv Hf) as (it'&E&Herr).
  exists (Close it'). split; [|apply close_closed].
  unfold All_, feed_all. rewrite E. cbn.
  destruct (feed yield (remaining it) c) as [[] c']; cbn in *; [|done].
  rewrite Herr by done. by destruct (final_error it).
Qed.
End consumers.
