(* ===== verification/Matching.v ===== *)
(** * Matching

    The query semantics of [src/memory/matching.go], and its specification: the
    predicate [event_matches] that the comments of [src/eventstore/query.go]
    give in words. *)

From S2P Require Import Prelude.
From S2P Require Import SequencePosition.
From S2P Require Import Tags.
From S2P Require Import EventStore.

(** ** The code *)

(** The loop [for _, v := range filter.Values()]. *)
Definition isTagSubset (filter tags : Tags) : bool :=
  forallb (λ v, bool_decide (v ∈ Values tags)) (Values filter).

Definition matchesQueryItem (item : QueryItem) (ev : Event) : bool :=
  bool_decide (Type_ ev ∈ Types item) && isTagSubset (Item_Tags item) (Event_Tags ev).

Definition matchesQuery (query : Query) (ev : Event) : bool :=
  if IsAll query then true
  else existsb (λ item, matchesQueryItem item ev) (Items query).

Fixpoint anyMatchAfter (events : list SequencedEvent) (query : Query)
    (after : option SequencePosition) : bool :=
  match events with
  | [] => false
  | se :: events =>
      let skip := match after with Some p => negb (IsAfter (Position se) p) | None => false end in
      if skip then anyMatchAfter events query after
      else if matchesQuery query (se_Event se) then true
      else anyMatchAfter events query after
  end.

(** The filtering loop of [matchingEvents], accumulating [result]. *)
Fixpoint matching_loop (events : list SequencedEvent) (query : Query) (opts : ReadOptions)
    (result : list SequencedEvent) : list SequencedEvent :=
  match events with
  | [] => result
  | se :: events =>
      let skip :=
        match Read_After opts with
        | Some p =>
            if Backwards opts then negb (IsBefore (Position se) p)
            else negb (IsAfter (Position se) p)
        | None => false
        end in
      if skip then matching_loop events query opts result
      else if negb (matchesQuery query (se_Event se)) then
        matching_loop events query opts result
      else matching_loop events query opts (result ++ [se])
  end.

Definition matchingEvents (events : list SequencedEvent) (query : Query)
    (opts : ReadOptions) : list SequencedEvent :=
  let result := matching_loop events query opts [] in
  let result := if Backwards opts then reverse result else result in
  if decide (0 < Limit opts ∧ Limit opts < Z.of_nat (length result))%Z
  then take (Z.to_nat (Limit opts)) result
  else result.

(** ** The specification *)

Definition item_matches (item : QueryItem) (ev : Event) : Prop :=
  Type_ ev ∈ Types item ∧ tag_values (Item_Tags item) ⊆ tag_values (Event_Tags ev).

Definition event_matches (q : Query) (ev : Event) : Prop :=
  IsAll q = true ∨ ∃ item, item ∈ Items q ∧ item_matches item ev.

(** Positions strictly after (forwards) or before (backwards) the bound. *)
Definition in_range (backwards : bool) (bound : option SequencePosition)
    (p : SequencePosition) : Prop :=
  match bound with
  | None => True
  | Some b => if backwards then (value p < value b)%Z else (value b < value p)%Z
  end.

Definition selected (q : Query) (opts : ReadOptions) (se : SequencedEvent) : Prop :=
  in_range (Backwards opts) (Read_After opts) (Position se) ∧ event_matches q (se_Event se).

(** [Limit] elements at most, all of them when [Limit] is not positive. *)
Definition limit_to {A} (n : Z) (l : list A) : list A :=
  if decide (0 < n)%Z then take (Z.to_nat n) l else l.

(** Some event of the log matches the condition's query after its bound. *)
Definition violated (log : list SequencedEvent) (c : AppendCondition) : Prop :=
  ∃ se, se ∈ log ∧ in_range false (After c) (Position se) ∧
    event_matches (FailIfEventsMatch c) (se_Event se).

(** Strictly ascending positions: the order in which the stores keep events. *)
Definition pos_lt (a b : SequencedEvent) : Prop :=
  (value (Position a) < value (Position b))%Z.

Definition ascending (events : list SequencedEvent) : Prop := StronglySorted pos_lt events.

(** The order in which a read yields events. *)
Definition read_order (backwards : bool) : relation SequencedEvent :=
  if backwards then flip pos_lt else pos_lt.

(** ** The code meets the specification *)

Lemma isTagSubset_true f t : isTagSubset f t = true ↔ tag_values f ⊆ tag_values t.
Proof.
  unfold isTagSubset. rewrite List.forallb_forall.
  setoid_rewrite <-list_elem_of_In. setoid_rewrite bool_decide_eq_true.
  setoid_rewrite elem_of_Values. done.
Qed.

Lemma matchesQueryItem_true item ev : matchesQueryItem item ev = true ↔ item_matches item ev.
Proof.
  unfold matchesQueryItem, item_matches.
  by rewrite andb_true_iff, bool_decide_eq_true, isTagSubset_true.
Qed.

Lemma matchesQuery_true q ev : matchesQuery q ev = true ↔ event_matches q ev.
Proof.
  unfold matchesQuery, event_matches. destruct (IsAll q); [naive_solver|].
  rewrite List.existsb_exists. setoid_rewrite <-list_elem_of_In.
  setoid_rewrite matchesQueryItem_true. naive_solver.
Qed.

#[export] Instance event_matches_dec q ev : Decision (event_matches q ev).
Proof.
  refine (cast_if (decide (matchesQuery q ev = true))); by rewrite <-matchesQuery_true.
Defined.
#[export] Instance in_range_dec b bound p : Decision (in_range b bound p).
Proof. unfold in_range. destruct bound, b; apply _. Defined.
#[export] Instance selected_dec q opts se : Decision (selected q opts se).
Proof. unfold selected. apply _. Defined.

Lemma matchesQuery_decide q ev : matchesQuery q ev = bool_decide (event_matches q ev).
Proof.
  pose proof (matchesQuery_true q ev) as H. case_bool_decide; [tauto|].
  apply not_true_iff_false. tauto.
Qed.

(** The two [continue] guards on positions, as one test. *)
Lemma after_guard (after : option SequencePosition) p :
  match after with Some b => negb (IsAfter p b) | None => false end =
    negb (bool_decide (in_range false after p)).
Proof.
  destruct after as [b|]; [|done]. f_equal. unfold IsAfter. apply bool_decide_ext. cbn. lia.
Qed.

Lemma range_guard (backwards : bool) (after : option SequencePosition) p :
  match after with
  | Some b => if backwards then negb (IsBefore p b) else negb (IsAfter p b)
  | None => false
  end = negb (bool_decide (in_range backwards after p)).
Proof.
  destruct backwards; [|rewrite <-after_guard; by destruct after].
  by destruct after.
Qed.

Lemma anyMatchAfter_existsb events q after :
  anyMatchAfter events q after =
    existsb (λ se, bool_decide (in_range false after (Position se)) &&
                   matchesQuery q (se_Event se)) events.
Proof.
  induction events as [|se events IH]; [done|]. cbn [anyMatchAfter existsb].
  rewrite after_guard, IH. case_bool_decide; cbn; [|done].
  by destruct (matchesQuery q (se_Event se)).
Qed.

Lemma anyMatchAfter_true events c :
  anyMatchAfter events (FailIfEventsMatch c) (After c) = true ↔ violated events c.
Proof.
  rewrite anyMatchAfter_existsb, List.existsb_exists. unfold violated.
  setoid_rewrite <-list_elem_of_In. setoid_rewrite andb_true_iff.
  setoid_rewrite bool_decide_eq_true. by setoid_rewrite matchesQuery_true.
Qed.

#[export] Instance violated_dec log c : Decision (violated log c).
Proof.
  refine (cast_if (decide (anyMatchAfter log (FailIfEventsMatch c) (After c) = true)));
    by rewrite <-anyMatchAfter_true.
Defined.

Lemma matching_loop_filter events q opts result :
  matching_loop events q opts result = result ++ filter (selected q opts) events.
Proof.
  revert result. induction events as [|se events IH]; intros result;
    [by rewrite filter_nil, app_nil_r|].
  cbn [matching_loop]. rewrite range_guard, matchesQuery_decide, filter_cons.
  unfold selected at 1. rewrite !IH.
  repeat case_bool_decide; case_decide; cbn; try tauto.
  by rewrite <-(assoc_L (++)).
Qed.

(** The selected events, in the order of the read. *)
Definition selection (events : list SequencedEvent) (q : Query) (opts : ReadOptions) :
    list SequencedEvent :=
  let sel := filter (selected q opts) events in
  if Backwards opts then reverse sel else sel.

Lemma matchingEvents_selection events q opts :
  matchingEvents events q opts = limit_to (Limit opts) (selection events q opts).
Proof.
  unfold matchingEvents. rewrite matching_loop_filter. cbn [app]. fold (selection events q opts).
  unfold limit_to. repeat case_decide; [done|lia| |done].
  rewrite take_ge; [done|lia].
Qed.

Lemma matchingEvents_nolimit events q opts : (Limit opts ≤ 0)%Z →
  matchingEvents events q opts = selection events q opts.
Proof.
  intros. rewrite matchingEvents_selection. unfold limit_to. by rewrite decide_False by lia.
Qed.

Lemma limit_to_prefix {A} n (l : list A) : limit_to n l `prefix_of` l.
Proof. unfold limit_to. case_decide; [apply prefix_take|done]. Qed.

Lemma limit_to_length {A} n (l : list A) : (0 < n)%Z →
  length (limit_to n l) = Nat.min (Z.to_nat n) (length l).
Proof. intros. unfold limit_to. rewrite decide_True by done. apply length_take. Qed.

Lemma elem_of_selection events q opts se :
  se ∈ selection events q opts ↔ se ∈ events ∧ selected q opts se.
Proof.
  unfold selection. destruct (Backwards opts); rewrite ?elem_of_reverse;
    rewrite list_elem_of_filter; tauto.
Qed.

Lemma selection_sorted events q opts :
  ascending events → StronglySorted (read_order (Backwards opts)) (selection events q opts).
Proof.
  intros Hs. unfold selection, read_order. destruct (Backwards opts);
    [apply StronglySorted_reverse|]; by apply StronglySorted_filter.
Qed.

(** ** Properties *)

(** C27: the query test of the store is the documented one: [QueryAll] matches
    every event; any other query matches an event whose type is one of an
    item's types and whose tags are a superset of that item's tags.  In
    particular the zero query matches nothing, and adding items or removing
    tags from an item only ever widens the query. *)
Theorem matchesQuery_spec q ev :
  (matchesQuery q ev = true ↔ event_matches q ev) ∧
  matchesQuery QueryAll ev = true ∧ matchesQuery zeroQuery ev = false ∧
  (∀ its its', matchesQuery (mkQuery its false) ev = true →
     (∀ item, item ∈ its → ∃ item', item' ∈ its' ∧
        (∀ t, t ∈ Types item → t ∈ Types item') ∧
        tag_values (Item_Tags item') ⊆ tag_values (Item_Tags item)) →
     matchesQuery (mkQuery its' false) ev = true).
Proof.
  split_and!; [apply matchesQuery_true|done|done|]. intros its its'.
  rewrite !matchesQuery_true. intros [[=]|(item&Hitem&Ht&Hs)] Hsub. right.
  destruct (Hsub item Hitem) as (item'&Hin'&Ht'&Hs').
  exists item'. split; [done|]. split; [by apply Ht'|by trans (tag_values (Item_Tags item))].
Qed.

(** C26: on a log in ascending position order [matchingEvents] returns, in the
    read's order (descending for [Backwards]), only events of the log that
    match the query within the bound; without a limit it returns all of them,
    and with a limit it returns as many as there are up to the limit, namely
    the ones that come first in that order. *)
Theorem matchingEvents_correct events q opts :
  ascending events →
  let r := matchingEvents events q opts in
  StronglySorted (read_order (Backwards opts)) r ∧
  (∀ se, se ∈ r → se ∈ events ∧ selected q opts se) ∧
  ((Limit opts ≤ 0)%Z → ∀ se, se ∈ events → selected q opts se → se ∈ r) ∧
  ((0 < Limit opts)%Z →
     length r = Nat.min (Z.to_nat (Limit opts)) (length (filter (selected q opts) events)) ∧
     ∀ se se', se ∈ r → se' ∈ events → selected q opts se' → se' ∉ r →
       read_order (Backwards opts) se se').
Proof.
  intros Hasc r. pose proof (selection_sorted events q opts Hasc) as Hsel.
  assert (r `prefix_of` selection events q opts) as Hpre.
  { unfold r. rewrite matchingEvents_selection. apply limit_to_prefix. }
  split_and!.
  - by eapply StronglySorted_prefix.
  - intros se Hse. apply elem_of_selection. by eapply elem_of_prefix.
  - intros Hl se ??. unfold r. rewrite matchingEvents_nolimit by done.
    by apply elem_of_selection.
  - intros Hl. split.
    + unfold r. rewrite matchingEvents_selection, limit_to_length by done. f_equal.
      unfold selection. destruct (Backwards opts); [apply length_reverse|done].
    + intros se se' Hse ?? Hn. eapply StronglySorted_prefix_rest; [done..| |done].
      by apply elem_of_selection.
Qed.
