(* ===== verification/StoreSpec.v ===== *)
(** * StoreSpec

    The contract of [eventstore.Store] ([src/eventstore/store.go]) as an
    abstract specification, the interface through which clients use a store,
    and the guarantees that follow from the contract alone.

    The abstract state of a store is its log: the list of sequenced events in
    ascending position order.  [append_contract] relates the log before and
    after an append to its result.  It leaves the positions of the new events
    open, up to their order, because a Postgres sequence may skip values. *)

From S2P Require Import Prelude.
From S2P Require Import SequencePosition.
From S2P Require Import Tags.
From S2P Require Import EventStore.
From S2P Require Import Matching.

(** ** The contract of Append *)

(** The events of all commands, in order. *)
Definition all_events (commands : list AppendCommand) : list Event :=
  mjoin (Events <$> commands).

Definition condition_valid (c : AppendCondition) : Prop :=
  query_scoped (FailIfEventsMatch c).

(** No command's condition is violated by the log. *)
Definition command_holds (log : list SequencedEvent) (cmd : AppendCommand) : Prop :=
  ∀ c, Condition cmd = Some c → ¬ violated log c.

Definition conditions_hold (log : list SequencedEvent) (commands : list AppendCommand) : Prop :=
  Forall (command_holds log) commands.

Definition command_valid (cmd : AppendCommand) : Prop :=
  ∀ c, Condition cmd = Some c → condition_valid c.

Definition conditions_valid (commands : list AppendCommand) : Prop :=
  Forall command_valid commands.

(** The order of the log does not matter to conditions. *)
#[export] Instance violated_perm : Proper ((≡ₚ) ==> (=) ==> iff) violated.
Proof. intros log log' Hp c ? <-. unfold violated. by setoid_rewrite Hp. Qed.
#[export] Instance conditions_hold_perm : Proper ((≡ₚ) ==> (=) ==> iff) conditions_hold.
Proof.
  intros log log' Hp commands ? <-. unfold conditions_hold, command_holds.
  by setoid_rewrite Hp.
Qed.

#[export] Instance command_holds_dec log cmd : Decision (command_holds log cmd).
Proof.
  unfold command_holds. destruct (Condition cmd) as [c|]; [|by left].
  destruct (decide (violated log c)); [right|left]; naive_solver.
Defined.
#[export] Instance command_valid_dec cmd : Decision (command_valid cmd).
Proof.
  unfold command_valid, condition_valid. destruct (Condition cmd) as [c|]; [|by left].
  destruct (decide (query_scoped (FailIfEventsMatch c))); [left|right]; naive_solver.
Defined.
#[export] Instance conditions_hold_dec log commands : Decision (conditions_hold log commands).
Proof. unfold conditions_hold. apply _. Defined.
#[export] Instance conditions_valid_dec commands : Decision (conditions_valid commands).
Proof. unfold conditions_valid. apply _. Defined.

(** [CommandIndex] is set only when there are several commands. *)
Definition command_index (commands : list AppendCommand) (i : nat) : option Z :=
  if decide (1 < length commands) then Some (Z.of_nat i) else None.

Definition violation_error (commands : list AppendCommand) (i : nat) (c : AppendCondition) :
    store_error :=
  EAppendCondition (mkConditionError c (command_index commands i)).

Inductive append_contract (log : list SequencedEvent) (commands : list AppendCommand) :
    outcome store_error SequencePosition → list SequencedEvent → Prop :=
  | contract_context e :
      append_contract log commands (Err (EContext e)) log
  | contract_database msg :
      append_contract log commands (Err (EDatabase msg)) log
  | contract_invalid e cmd c :
      cmd ∈ commands → Condition cmd = Some c → ValidateAppendCondition c = Err e →
      append_contract log commands (Err (ECondition e)) log
  | contract_violated i cmd c :
      conditions_valid commands →
      commands !! i = Some cmd → Condition cmd = Some c → violated log c →
      conditions_hold log (take i commands) →
      append_contract log commands (Err (violation_error commands i c)) log
  | contract_empty :
      conditions_valid commands → all_events commands = [] →
      append_contract log commands (Err EZeroEvents) log
  | contract_ok new se :
      conditions_valid commands → conditions_hold log commands →
      se_Event <$> new = all_events commands →
      ascending (log ++ new) → last new = Some se →
      append_contract log commands (Ok (Position se)) (log ++ new).

(** ** The interface *)

Class Appendable (S : Type) := {
  view : S → list SequencedEvent;
  do_append : context → list AppendCommand → S → outcome store_error SequencePosition * S;
}.

Class AppendLaws (S : Type) `{Appendable S} := {
  store_inv : S → Prop;
  (** Room for [n] more events before the positions run out. *)
  room : S → nat → Prop;
  store_inv_ascending s : store_inv s → ascending (view s);
  do_append_contract ctx commands s r s' :
    store_inv s → room s (length (all_events commands)) →
    do_append ctx commands s = (r, s') →
    store_inv s' ∧ append_contract (view s) commands r (view s');
  room_append ctx commands s r s' n :
    store_inv s → room s (length (all_events commands) + n) →
    do_append ctx commands s = (r, s') → room s' n;
  room_le s n m : room s n → m ≤ n → room s m;
  (** With a live context an admissible append succeeds, and one whose
      condition is violated reports that. *)
  do_append_succeeds commands s r s' :
    store_inv s → room s (length (all_events commands)) →
    conditions_valid commands → conditions_hold (view s) commands →
    all_events commands ≠ [] →
    do_append None commands s = (r, s') → is_Ok r;
  do_append_violated commands s r s' :
    store_inv s → room s (length (all_events commands)) →
    conditions_valid commands → ¬ conditions_hold (view s) commands →
    all_events commands ≠ [] →
    do_append None commands s = (r, s') →
    ∃ e, r = Err (EAppendCondition e);
}.

(** ** Lemmas about logs *)

Lemma elem_of_all_events ev commands :
  ev ∈ all_events commands ↔ ∃ cmd, cmd ∈ commands ∧ ev ∈ Events cmd.
Proof.
  unfold all_events. rewrite list_elem_of_join. setoid_rewrite list_elem_of_fmap.
  naive_solver.
Qed.

Lemma violated_app log new c : violated (log ++ new) c ↔ violated log c ∨ violated new c.
Proof. unfold violated. setoid_rewrite elem_of_app. naive_solver. Qed.

Lemma ascending_app log new :
  ascending (log ++ new) ↔
    (∀ a b, a ∈ log → b ∈ new → pos_lt a b) ∧ ascending log ∧ ascending new.
Proof. apply StronglySorted_app. Qed.

(** The condition checked on behalf of one command, alone. *)
Lemma conditions_hold_singleton log events c :
  conditions_hold log [mkCommand events (Some c)] ↔ ¬ violated log c.
Proof.
  unfold conditions_hold, command_holds. rewrite Forall_singleton. cbn. naive_solver.
Qed.

Lemma conditions_valid_singleton events c :
  conditions_valid [mkCommand events (Some c)] ↔ condition_valid c.
Proof.
  unfold conditions_valid, command_valid. rewrite Forall_singleton. cbn. naive_solver.
Qed.

Lemma append_contract_err log commands e log' :
  append_contract log commands (Err e) log' → log' = log.
Proof. by inversion 1. Qed.

Lemma append_contract_Ok log commands pos log' :
  append_contract log commands (Ok pos) log' →
  ∃ new se, log' = log ++ new ∧ se_Event <$> new = all_events commands ∧
    conditions_hold log commands ∧ ascending (log ++ new) ∧
    last new = Some se ∧ pos = Position se.
Proof. inversion 1; subst. eauto 10. Qed.

(** An appended event violates a condition that it matches, if the condition's
    bound is not in the future. *)
Lemma appended_violates log new se c :
  ascending (log ++ new) → se ∈ new → event_matches (FailIfEventsMatch c) (se_Event se) →
  (∀ p, After c = Some p → ∃ se', se' ∈ log ∧ (value p ≤ value (Position se'))%Z) →
  violated (log ++ new) c.
Proof.
  intros [Hlt _]%ascending_app Hse Hm Hafter. exists se. split_and!; [set_solver| |done].
  unfold in_range. destruct (After c) as [p|]; [|done].
  destruct (Hafter p eq_refl) as (se'&Hin&?). specialize (Hlt se' se Hin Hse).
  unfold pos_lt in Hlt. lia.
Qed.

(** ** What clients get from the contract *)

Section clients.
Context {St : Type} `{AppendLaws St}.

(** A sequence of appends: what concurrent callers of a store whose appends
    are serialised observe. *)
Fixpoint run_appends (calls : list (list AppendCommand)) (s : St) :
    list (outcome store_error SequencePosition) * St :=
  match calls with
  | [] => ([], s)
  | commands :: calls =>
      let '(r, s) := do_append None commands s in
      let '(rs, s) := run_appends calls s in
      (r :: rs, s)
  end.

Lemma run_appends_violated n ev c s rs s' :
  store_inv s → room s n → condition_valid c → violated (view s) c →
  run_appends (replicate n [mkCommand [ev] (Some c)]) s = (rs, s') →
  length rs = n ∧ view s' = view s ∧ Forall (λ r, ∃ e, r = Err (EAppendCondition e)) rs.
Proof.
  revert s rs s'. induction n as [|n IH]; intros s rs s' Hinv Hroom Hc Hv; cbn.
  { by intros [= <- <-]. }
  destruct (do_append None _ s) as [r s1] eqn:E.
  destruct (run_appends _ s1) as [rs1 s2] eqn:E1. intros [= <- <-].
  assert (room s (length (all_events [mkCommand [ev] (Some c)]) + n)) as Hr by done.
  assert (room s (length (all_events [mkCommand [ev] (Some c)]))) as Hroom1
    by (eapply room_le; [done|cbn; lia]).
  destruct (do_append_violated _ s r s1 Hinv Hroom1
    (proj2 (conditions_valid_singleton _ _) Hc)) as [e ->]; [|done..|].
  { rewrite conditions_hold_singleton. tauto. }
  destruct (do_append_contract _ _ s _ s1 Hinv Hroom1 E)
    as [Hinv1 Hview%append_contract_err].
  destruct (IH s1 rs1 s2) as (?&?&?); [done|exact (room_append _ _ _ _ _ n Hinv Hr E)|done|by rewrite Hview|done|].
  split_and!; [by f_equal/=|congruence|constructor; eauto].
Qed.

(** Optimistic concurrency.  If [n + 1] callers race to append an event
    under the same condition, which the event itself matches and which holds
    initially, then exactly the first append the store serialises succeeds,
    all [n] others fail with an [AppendConditionError], and exactly one event
    is added to the log. *)
Theorem racing_appends_one_wins n ev c s rs s' :
  store_inv s → room s (S n) → condition_valid c →
  ¬ violated (view s) c → event_matches (FailIfEventsMatch c) ev →
  (∀ p, After c = Some p →
     ∃ se, se ∈ view s ∧ (value p ≤ value (Position se))%Z) →
  run_appends (replicate (S n) [mkCommand [ev] (Some c)]) s = (rs, s') →
  ∃ r0 rs', rs = r0 :: rs' ∧ is_Ok r0 ∧ length rs' = n ∧
    Forall (λ r, ∃ e, r = Err (EAppendCondition e)) rs' ∧
    ∃ se, view s' = view s ++ [se] ∧ se_Event se = ev.
Proof.
  intros Hinv Hroom Hc Hv Hm Hafter. cbn.
  destruct (do_append None _ s) as [r s1] eqn:E.
  destruct (run_appends _ s1) as [rs1 s2] eqn:E1. intros [= <- <-].
  assert (room s (length (all_events [mkCommand [ev] (Some c)]))) as Hroom1
    by (eapply room_le; [done|cbn; lia]).
  destruct (do_append_succeeds _ s r s1 Hinv Hroom1
    (proj2 (conditions_valid_singleton _ _) Hc)) as [pos ->]; [|done..|].
  { by rewrite conditions_hold_singleton. }
  destruct (do_append_contract _ _ s _ s1 Hinv Hroom1 E) as [Hinv1 Hcon].
  apply append_contract_Ok in Hcon as (new&se&Hview&Hnew&_&Hasc&_&_).
  destruct new as [|se' [|??]]; [done| |done]. injection Hnew as Hev.
  assert (violated (view s1) c) as Hv1.
  { rewrite Hview. eapply (appended_violates _ _ se'); [done|set_solver|by rewrite Hev|done]. }
  destruct (run_appends_violated n ev c s1 rs1 s2) as (?&Hs2&?);
    [done|exact (room_append None [mkCommand [ev] (Some c)] s _ s1 n Hinv Hroom E)|done..|].
  exists (Ok pos), rs1. split_and!; [done|by eexists|done|done|].
  exists se'. by rewrite Hs2.
Qed.

(** No lost writes.  Appends without conditions, each of at least one
    event, all succeed; the log grows by exactly their events in the order in
    which the store serialised the calls, at ascending positions, so the
    returned positions strictly increase. *)
Theorem unconditional_appends_all_land calls s rs s' :
  store_inv s → room s (length (mjoin (all_events <$> calls))) →
  Forall (λ commands, all_events commands ≠ [] ∧
    Forall (λ cmd, Condition cmd = None) commands) calls →
  run_appends calls s = (rs, s') →
  ∃ new positions, rs = Ok <$> positions ∧ length positions = length calls ∧
    view s' = view s ++ new ∧ se_Event <$> new = mjoin (all_events <$> calls) ∧
    ascending (view s') ∧
    (∀ p, p ∈ positions → ∃ se, se ∈ new ∧ Position se = p) ∧
    StronglySorted (λ p q, value p < value q)%Z positions.
Proof.
  intros Hinv Hroom Hcalls. revert s rs s' Hinv Hroom.
  induction Hcalls as [|commands calls [Hne Hnone] _ IH]; intros s rs s' Hinv Hroom; cbn.
  { intros [= <- <-]. exists [], []. rewrite app_nil_r.
    split_and!; try done; [by apply store_inv_ascending| |constructor].
    by intros p ?%elem_of_nil. }
  destruct (do_append None _ s) as [r s1] eqn:E.
  destruct (run_appends _ s1) as [rs1 s2] eqn:E1. intros [= <- <-].
  cbn in Hroom. rewrite length_app in Hroom.
  assert (room s (length (all_events commands))) as Hroom1 by (eapply room_le; [done|lia]).
  destruct (do_append_succeeds _ s r s1 Hinv Hroom1) as [pos ->]; [| |done..|].
  { eapply Forall_impl; [done|]. intros cmd Hcmd c. by rewrite Hcmd. }
  { eapply Forall_impl; [done|]. intros cmd Hcmd c. by rewrite Hcmd. }
  destruct (do_append_contract _ _ s _ s1 Hinv Hroom1 E) as [Hinv1 Hcon].
  apply append_contract_Ok in Hcon as (new&se&Hview&Hnew&_&Hasc&Hlast&->).
  destruct (IH s1 rs1 s2) as (new'&ps&->&?&Hs2&Hnew'&Hasc'&Hps&Hsorted);
    [done|exact (room_append None commands s _ s1 _ Hinv Hroom E)|done|].
  exists (new ++ new'), (Position se :: ps).
  assert (se ∈ new) as Hse by by eapply last_Some_elem_of in Hlast.
  rewrite Hs2, Hview in *. split_and!; try done.
  - by f_equal/=.
  - by rewrite (assoc_L (++)).
  - by rewrite fmap_app, Hnew, Hnew'.
  - intros p [->|Hp]%elem_of_cons; [set_solver|].
    destruct (Hps p Hp) as (se'&?&?). exists se'. set_solver.
  - constructor; [done|]. apply Forall_forall. intros p Hp.
    destruct (Hps p Hp) as (se'&?&<-). apply ascending_app in Hasc' as [Hlt _].
    apply Hlt; set_solver.
Qed.
End clients.
