(* ===== verification/MemoryStore.v ===== *)
(** * MemoryStore

    The in-memory store: [src/memory/position.go], the store of
    [src/memory/store.go] and the read iterator of [src/memory/iterator.go].

    Every method that touches the state holds the mutex from its first access
    to its last, so a method call is one atomic transition here.  The broadcast
    channel is a reference into the set of channels that exist: channels are
    numbered, [closed] holds those that have been closed, and closing one twice
    panics, as in Go. *)

From S2P Require Import Prelude.
From S2P Require Import GoStrconv.
From S2P Require Import SequencePosition.
From S2P Require Import Tags.
From S2P Require Import EventStore.
From S2P Require Import Iterator.
From S2P Require Import Matching.
From S2P Require Import StoreSpec.

Local Open Scope Z_scope.

(** ** Positions *)

Definition lastPosition (events : list SequencedEvent) : SequencePosition :=
  match last events with
  | None => SequencePositionInitial
  | Some se => Position se
  end.

Definition counterFrom (pos : SequencePosition) : outcome store_error Z :=
  match ParseUint (Position_String pos) with
  | Ok n => Ok n
  | _ => Panic ("memory: impossible non-numeric position " +:+ Position_String pos)
  end.

Definition positionFromCounter (n : Z) : outcome store_error SequencePosition :=
  match ParseSequencePosition (FormatUint n) with
  | Ok pos => Ok pos
  | _ => Panic ("memory: impossible invalid counter " +:+ FormatUint n)
  end.

(** ** The store *)

Definition chan := nat.

Record Store := mkStore {
  events : list SequencedEvent;
  broadcast : chan;
  (** The channels created so far are those below [next_chan]. *)
  closed : gset chan;
  next_chan : chan;
}.

Definition New (initialEvents : list SequencedEvent) : Store :=
  mkStore initialEvents 0%nat ∅ 1%nat.

(** [close(ch)] *)
Definition close_chan (ch : chan) (s : Store) : outcome store_error Store :=
  if decide (ch ∈ closed s) then Panic "close of closed channel"
  else Ok (mkStore (events s) (broadcast s) ({[ch]} ∪ closed s) (next_chan s)).

(** [s.broadcast = make(chan struct{})] *)
Definition renew_broadcast (s : Store) : Store :=
  mkStore (events s) (next_chan s) (closed s) (S (next_chan s)).

(** The validation loop at the head of [Append]. *)
Fixpoint validate_commands (commands : list AppendCommand) : outcome store_error unit :=
  match commands with
  | [] => Ok ()
  | cmd :: commands =>
      match Condition cmd with
      | Some c => map_err ECondition (ValidateAppendCondition c)
      | None => Ok ()
      end ≫= λ _, validate_commands commands
  end.

(** The inner loop of [Append]: number the events of one command.  [counter] is
    a uint64, so [counter++] wraps around. *)
Fixpoint number_events (evs : list Event) (counter : Z) (newEvents : list SequencedEvent) :
    outcome store_error (Z * list SequencedEvent) :=
  match evs with
  | [] => Ok (counter, newEvents)
  | ev :: evs =>
      let counter := u64 (counter + 1) in
      pos ← positionFromCounter counter;
      number_events evs counter (newEvents ++ [mkSequenced ev pos])
  end.

(** The main loop of [Append], from command [i] on. *)
Fixpoint append_loop (existing : list SequencedEvent) (multiCommand : bool) (i : Z)
    (commands : list AppendCommand) (counter : Z) (newEvents : list SequencedEvent) :
    outcome store_error (list SequencedEvent) :=
  match commands with
  | [] => Ok newEvents
  | cmd :: commands =>
      let go :=
        '(counter, newEvents) ← number_events (Events cmd) counter newEvents;
        append_loop existing multiCommand (i + 1) commands counter newEvents in
      match Condition cmd with
      | Some c =>
          if anyMatchAfter existing (FailIfEventsMatch c) (After c)
          then Err (EAppendCondition
                 (mkConditionError c (if multiCommand then Some i else None)))
          else go
      | None => go
      end
  end.

(** The part of [Append] between [Lock] and [Unlock]. *)
Definition append_locked (commands : list AppendCommand) (s : Store) :
    outcome store_error SequencePosition * Store :=
  let existing := events s in
  let multiCommand := bool_decide (1 < Z.of_nat (length commands)) in
  let loop :=
    counter ← counterFrom (lastPosition existing);
    append_loop existing multiCommand 0 commands counter [] in
  match loop with
  | Err e => (Err e, s)
  | Panic msg => (Panic msg, s)
  | Ok newEvents =>
      match last newEvents with
      | None => (Err EZeroEvents, s)
      | Some se =>
          let s := mkStore (existing ++ newEvents) (broadcast s) (closed s) (next_chan s) in
          match close_chan (broadcast s) s with
          | Ok s => (Ok (Position se), renew_broadcast s)
          | Err e => (Err e, s)
          | Panic msg => (Panic msg, s)
          end
      end
  end.

Definition Append (ctx : context) (commands : list AppendCommand) (s : Store) :
    outcome store_error SequencePosition * Store :=
  match ctx with
  | Some e => (Err (EContext e), s)
  | None =>
      match validate_commands commands with
      | Err e => (Err e, s)
      | Panic msg => (Panic msg, s)
      | Ok _ => append_locked commands s
      end
  end.

(** ** The read iterator *)

Record sliceIterator := mkSlice {
  slice_events : list SequencedEvent;
  slice_idx : nat;
}.

Definition slice_Next (it : sliceIterator) : outcome store_error (bool * sliceIterator) :=
  if decide (length (slice_events it) ≤ slice_idx it)%nat then Ok (false, it)
  else Ok (true, mkSlice (slice_events it) (S (slice_idx it))).

(** [it.events[it.idx-1]], which panics before the first [Next]. *)
Definition slice_Event (it : sliceIterator) : outcome store_error SequencedEvent :=
  match slice_idx it with
  | O => Panic "index out of range [-1]"
  | S i =>
      match slice_events it !! i with
      | Some se => Ok se
      | None => Panic "index out of range"
      end
  end.

Definition slice_Err (it : sliceIterator) : option store_error := None.

(** [Close] does nothing. *)
Definition slice_Close (it : sliceIterator) : sliceIterator := it.

#[export] Instance sliceIterator_iterator : EventIterator sliceIterator := {
  Next := slice_Next;
  Current := slice_Event;
  Err_ := slice_Err;
  Close := slice_Close;
}.

Definition Read (ctx : context) (query : Query) (opts : ReadOptions) (s : Store) :
    outcome store_error sliceIterator :=
  match ctx with
  | Some e => Err (EContext e)
  | None => Ok (mkSlice (matchingEvents (events s) query opts) 0)
  end.

(** ** Lemmas on positions *)

Lemma counterFrom_Ok p : pos_wf p → counterFrom p = Ok (value p).
Proof. intros Hp. unfold counterFrom, Position_String. by rewrite ParseUint_FormatUint. Qed.

Lemma positionFromCounter_Ok n : in_u64 n → positionFromCounter n = Ok (mkPosition n).
Proof. intros Hn. unfold positionFromCounter. by rewrite Parse_FormatUint. Qed.

(** [n] events numbered from [counter + 1] on, with the uint64 wrap-around. *)
Fixpoint numbered (evs : list Event) (counter : Z) : list SequencedEvent :=
  match evs with
  | [] => []
  | ev :: evs =>
      let counter := u64 (counter + 1) in
      mkSequenced ev (mkPosition counter) :: numbered evs counter
  end.

Definition advance (counter : Z) (n : nat) : Z := u64 (counter + Z.of_nat n).

Lemma advance_step counter n : advance (u64 (counter + 1)) n = advance counter (S n).
Proof.
  unfold advance, u64. rewrite Z.add_mod_idemp_l by done. f_equal. lia.
Qed.

Lemma number_events_Ok evs counter acc : in_u64 counter →
  number_events evs counter acc =
    Ok (advance counter (length evs), acc ++ numbered evs counter).
Proof.
  revert counter acc. induction evs as [|ev evs IH]; intros counter acc Hc; cbn.
  - unfold advance. by rewrite Z.add_0_r, u64_small, app_nil_r.
  - rewrite positionFromCounter_Ok by apply u64_range. cbn.
    rewrite IH by apply u64_range. by rewrite advance_step, <-(assoc_L (++)).
Qed.

Lemma advance_range counter n : in_u64 (advance counter n).
Proof. apply u64_range. Qed.

Lemma numbered_app evs evs' counter : in_u64 counter →
  numbered (evs ++ evs') counter =
    numbered evs counter ++ numbered evs' (advance counter (length evs)).
Proof.
  revert counter. induction evs as [|ev evs IH]; intros counter Hc; cbn.
  - unfold advance. by rewrite Z.add_0_r, u64_small.
  - by rewrite IH, advance_step by apply u64_range.
Qed.

Lemma numbered_events evs counter : se_Event <$> numbered evs counter = evs.
Proof. revert counter. induction evs as [|ev evs IH]; intros; cbn; [done|]. by rewrite IH. Qed.

(** Without overflow the positions are the next consecutive integers. *)
Lemma numbered_lookup evs counter i ev :
  0 ≤ counter → counter + Z.of_nat (length evs) < two64 → evs !! i = Some ev →
  numbered evs counter !! i = Some (mkSequenced ev (mkPosition (counter + 1 + Z.of_nat i))).
Proof.
  revert counter i. induction evs as [|ev' evs IH]; intros counter i Hc Hl Hi; [done|].
  cbn in Hl |- *. rewrite u64_small by (split; lia).
  destruct i as [|i]; cbn in *; [naive_solver (do 3 f_equal; lia)|].
  rewrite IH by (done || lia). do 3 f_equal. lia.
Qed.

Lemma numbered_bounds evs counter se :
  0 ≤ counter → counter + Z.of_nat (length evs) < two64 → se ∈ numbered evs counter →
  counter < value (Position se) ≤ counter + Z.of_nat (length evs).
Proof.
  revert counter. induction evs as [|ev evs IH]; intros counter Hc Hl; cbn in *.
  { by intros ?%elem_of_nil. }
  rewrite u64_small by (split; lia). intros [->|Hse]%elem_of_cons; cbn; [lia|].
  apply IH in Hse; lia.
Qed.

Lemma numbered_ascending evs counter :
  0 ≤ counter → counter + Z.of_nat (length evs) < two64 → ascending (numbered evs counter).
Proof.
  revert counter. induction evs as [|ev evs IH]; intros counter Hc Hl; cbn in *; [constructor|].
  rewrite u64_small by (split; lia). constructor; [apply IH; lia|].
  apply Forall_forall. intros se Hse%numbered_bounds; [|lia..]. unfold pos_lt. cbn. lia.
Qed.

Lemma ascending_last events se :
  ascending events → se ∈ events → value (Position se) ≤ value (lastPosition events).
Proof.
  intros Hasc Hse. unfold lastPosition. destruct (last events) as [l|] eqn:Hl.
  - apply last_Some in Hl as [pre ->]. apply elem_of_app in Hse as [Hse|Hse%list_elem_of_singleton].
    + apply ascending_app in Hasc as [Hlt _].
      specialize (Hlt se l Hse ltac:(set_solver)). unfold pos_lt in Hlt. lia.
    + by subst.
  - apply last_None in Hl as ->. by apply elem_of_nil in Hse.
Qed.

Lemma lastPosition_wf events :
  (∀ se, se ∈ events → pos_wf (Position se)) → pos_wf (lastPosition events).
Proof.
  intros Hwf. unfold lastPosition. destruct (last events) as [l|] eqn:Hl; [|apply Initial_wf].
  apply Hwf. by eapply last_Some_elem_of.
Qed.

(** ** The cases of Append *)

Lemma validate_commands_cases commands :
  (conditions_valid commands ∧ validate_commands commands = Ok ()) ∨
  (∃ cmd c e, cmd ∈ commands ∧ Condition cmd = Some c ∧
     ValidateAppendCondition c = Err e ∧ validate_commands commands = Err (ECondition e)).
Proof.
  induction commands as [|cmd commands IH]; cbn; [left; by split; [constructor|]|].
  destruct (Condition cmd) as [c|] eqn:Hc; cbn.
  - pose proof (ValidateAppendCondition_Ok c) as HV.
    destruct (ValidateAppendCondition c) as [[]|e|msg] eqn:E; cbn.
    + destruct IH as [[? ->]|(cmd'&c'&e&?&?&?&->)]; [left|right].
      * split; [|done]. constructor; [|done]. intros c' Hc'. simplify_eq. by apply HV.
      * exists cmd', c', e. split_and!; try done. apply elem_of_cons; by right.
    + right. exists cmd, c, e. split_and!; try done. apply elem_of_cons; by left.
    + exfalso. revert E. unfold ValidateAppendCondition. case_match; [done|].
      destruct (check_scoped_cases (Items (FailIfEventsMatch c))) as [[-> _]|[-> _]]; done.
  - destruct IH as [[? ->]|(cmd'&c'&e&?&?&?&->)]; [left|right].
    + split; [|done]. constructor; [|done]. intros c' Hc'. congruence.
    + exists cmd', c', e. split_and!; try done. apply elem_of_cons; by right.
Qed.

Lemma append_loop_cases existing multi i commands counter acc : in_u64 counter →
  (conditions_hold existing commands ∧
   append_loop existing multi i commands counter acc =
     Ok (acc ++ numbered (all_events commands) counter)) ∨
  (∃ j cmd c, commands !! j = Some cmd ∧ Condition cmd = Some c ∧ violated existing c ∧
     conditions_hold existing (take j commands) ∧
     append_loop existing multi i commands counter acc =
       Err (EAppendCondition (mkConditionError c
         (if multi then Some (i + Z.of_nat j) else None)))).
Proof.
  revert i counter acc. induction commands as [|cmd commands IH]; intros i counter acc Hcnt.
  { left. split; [constructor|]. cbn. by rewrite app_nil_r. }
  cbn [append_loop]. rewrite number_events_Ok by done. cbn [mbind outcome_bind].
  set (counter' := advance counter (length (Events cmd))).
  assert (command_holds existing cmd →
    (match Condition cmd with
     | Some c => anyMatchAfter existing (FailIfEventsMatch c) (After c)
     | None => false end) = false) as Hno.
  { intros Hh. destruct (Condition cmd) as [c|] eqn:Hc; [|done].
    apply not_true_iff_false. rewrite anyMatchAfter_true. by apply Hh. }
  destruct (decide (command_holds existing cmd)) as [Hh|Hv].
  - specialize (Hno Hh).
    destruct (IH (i + 1) counter' (acc ++ numbered (Events cmd) counter))
      as [[Hhold Heq]|(j&cmd'&c&Hj&Hc&Hv&Hhold&Heq)]; [apply advance_range|left|right].
    + split; [by constructor|].
      transitivity (append_loop existing multi (i + 1) commands counter'
        (acc ++ numbered (Events cmd) counter)).
      { destruct (Condition cmd); [by rewrite Hno|done]. }
      rewrite Heq. unfold all_events. cbn. by rewrite numbered_app, (assoc_L (++)).
    + exists (S j), cmd', c. split_and!; [done|done|done|by constructor|].
      transitivity (append_loop existing multi (i + 1) commands counter'
        (acc ++ numbered (Events cmd) counter)).
      { destruct (Condition cmd); [by rewrite Hno|done]. }
      rewrite Heq. destruct multi; [|done]. do 4 f_equal. lia.
  - right. destruct (Condition cmd) as [c|] eqn:Hc; [|exfalso; apply Hv; intros c'; congruence].
    assert (violated existing c) as Hvc.
    { apply dec_stable. intros Hn. apply Hv. intros c' Hc'. congruence. }
    exists 0%nat, cmd, c. split_and!; [done|done|done|constructor|].
    rewrite (proj2 (anyMatchAfter_true existing c)) by done.
    destruct multi; [|done]. do 4 f_equal. lia.
Qed.

(** ** The store invariant *)

Record mem_inv (s : Store) : Prop := {
  inv_ascending : ascending (events s);
  inv_positions : ∀ se, se ∈ events s → pos_wf (Position se);
  (** The current broadcast channel is open, and channel numbers are fresh. *)
  inv_open : broadcast s ∉ closed s;
  inv_fresh : ∀ ch, ch ∈ closed s ∨ ch = broadcast s → (ch < next_chan s)%nat;
}.

(** Positions left before the counter wraps around. *)
Definition mem_room (s : Store) (n : nat) : Prop :=
  value (lastPosition (events s)) + Z.of_nat n < two64.

Definition appended (s : Store) (commands : list AppendCommand) : list SequencedEvent :=
  numbered (all_events commands) (value (lastPosition (events s))).

(** The state after a successful append: the old broadcast channel is closed
    and a fresh one takes its place. *)
Definition after_append (s : Store) (commands : list AppendCommand) : Store :=
  mkStore (events s ++ appended s commands) (next_chan s)
    ({[broadcast s]} ∪ closed s) (S (next_chan s)).

Lemma mem_last_wf s : mem_inv s → pos_wf (lastPosition (events s)).
Proof. intros Hs. apply lastPosition_wf, Hs. Qed.

Lemma appended_events s commands : se_Event <$> appended s commands = all_events commands.
Proof. apply numbered_events. Qed.

Lemma multi_command_index commands j c :
  EAppendCondition (mkConditionError c
    (if bool_decide (1 < Z.of_nat (length commands)) then Some (0 + Z.of_nat j) else None)) =
  violation_error commands j c.
Proof.
  unfold violation_error, command_index. case_bool_decide; case_decide; done || lia.
Qed.

Lemma append_locked_cases s commands : mem_inv s →
  (∃ j cmd c, commands !! j = Some cmd ∧ Condition cmd = Some c ∧ violated (events s) c ∧
     conditions_hold (events s) (take j commands) ∧
     append_locked commands s = (Err (violation_error commands j c), s)) ∨
  (conditions_hold (events s) commands ∧ all_events commands = [] ∧
     append_locked commands s = (Err EZeroEvents, s)) ∨
  (conditions_hold (events s) commands ∧ ∃ se, last (appended s commands) = Some se ∧
     append_locked commands s = (Ok (Position se), after_append s commands)).
Proof.
  intros Hs. pose proof (mem_last_wf s Hs) as Hlast. unfold append_locked.
  rewrite counterFrom_Ok by done. cbn [mbind outcome_bind].
  destruct (append_loop_cases (events s) (bool_decide (1 < Z.of_nat (length commands))) 0
    commands (value (lastPosition (events s))) [] Hlast)
    as [[Hhold ->]|(j&cmd&c&?&?&?&?&->)].
  - rewrite app_nil_l. change (numbered _ _) with (appended s commands).
    destruct (last (appended s commands)) as [se|] eqn:Hse; right; [right|left].
    + split; [done|]. exists se. split; [done|]. unfold close_chan. cbn.
      by rewrite decide_False by apply Hs.
    + split_and!; [done| |done]. apply last_None in Hse.
      by rewrite <-(appended_events s), Hse.
  - left. exists j, cmd, c. by rewrite multi_command_index.
Qed.

Lemma after_append_inv s commands :
  mem_inv s → mem_room s (length (all_events commands)) → mem_inv (after_append s commands).
Proof.
  intros Hs Hroom. pose proof (mem_last_wf s Hs) as [Hlast _].
  assert (∀ se, se ∈ appended s commands →
    value (lastPosition (events s)) < value (Position se) < two64) as Hnew.
  { intros se Hse%numbered_bounds; unfold mem_room in *; lia. }
  split; cbn.
  - apply ascending_app. split_and!; [|apply Hs|by apply numbered_ascending].
    intros a b Ha Hb%Hnew. pose proof (ascending_last _ _ (inv_ascending _ Hs) Ha).
    unfold pos_lt. lia.
  - intros se [Hse|Hse%Hnew]%elem_of_app; [by apply Hs|]. unfold pos_wf, in_u64. lia.
  - intros [E%elem_of_singleton|Hc]%elem_of_union.
    + pose proof (inv_fresh _ Hs (broadcast s) ltac:(by right)). lia.
    + pose proof (inv_fresh _ Hs (next_chan s) ltac:(by left)). lia.
  - intros ch [[->%elem_of_singleton|Hc]%elem_of_union| ->].
    + pose proof (inv_fresh _ Hs (broadcast s) ltac:(by right)). lia.
    + pose proof (inv_fresh _ Hs ch ltac:(by left)). lia.
    + lia.
Qed.

Lemma New_inv initialEvents :
  ascending initialEvents → (∀ se, se ∈ initialEvents → pos_wf (Position se)) →
  mem_inv (New initialEvents).
Proof. intros ??. split; cbn; try done; set_solver by lia. Qed.

Lemma Append_inv_contract ctx commands s r s' :
  mem_inv s → mem_room s (length (all_events commands)) →
  Append ctx commands s = (r, s') →
  mem_inv s' ∧ append_contract (events s) commands r (events s').
Proof.
  intros Hs Hroom. unfold Append. destruct ctx as [e|].
  { intros [= <- <-]. split; [done|constructor]. }
  destruct (validate_commands_cases commands) as [[Hval ->]|(cmd&c&e&?&?&?&->)].
  2: { intros [= <- <-]. split; [done|]. by eapply contract_invalid. }
  destruct (append_locked_cases s commands Hs)
    as [(j&cmd&c&?&?&?&?&->)|[(?&?&->)|(?&se&?&->)]]; intros [= <- <-].
  - split; [done|]. by eapply contract_violated.
  - split; [done|]. by apply contract_empty.
  - pose proof (after_append_inv s commands Hs Hroom) as Hinv'. split; [done|].
    apply contract_ok; [done|done|apply appended_events|apply Hinv'|done].
Qed.

(** ** The store as an instance of the interface *)

#[export] Instance Store_appendable : Appendable Store := {
  view := events;
  do_append := Append;
}.

Lemma Append_cases commands s : mem_inv s →
  (¬ conditions_valid commands ∧ ∃ e, Append None commands s = (Err (ECondition e), s)) ∨
  (conditions_valid commands ∧ Append None commands s = append_locked commands s).
Proof.
  intros Hs. unfold Append.
  destruct (validate_commands_cases commands) as [[Hval ->]|(cmd&c&e&Hcmd&Hc&HV&->)]; [by right|].
  left. split; [|by eexists]. intros Hall. unfold conditions_valid in Hall.
  rewrite Forall_forall in Hall. specialize (Hall cmd Hcmd c Hc).
  apply ValidateAppendCondition_Ok in Hall. congruence.
Qed.

(** An append either leaves the store alone or appends everything. *)
Lemma Append_result ctx commands s r s' : mem_inv s → Append ctx commands s = (r, s') →
  (s' = s ∧ ¬ is_Ok r) ∨
  (∃ se, last (appended s commands) = Some se ∧ r = Ok (Position se) ∧
     s' = after_append s commands).
Proof.
  intros Hs HA. assert (∀ e : store_error, ¬ is_Ok (Err e : outcome _ SequencePosition)) as Hno
    by by intros e [??].
  destruct ctx as [e|]; [injection HA as <- <-; left; by split|].
  destruct (Append_cases commands s Hs) as [(_&e&E)|(_&E)]; rewrite E in HA.
  { injection HA as <- <-. left. by split. }
  destruct (append_locked_cases s commands Hs)
    as [(?&?&?&?&?&?&?&E')|[(?&?&E')|(?&se&?&E')]]; rewrite E' in HA; injection HA as <- <-;
    [left; by split..|right; by exists se].
Qed.

Lemma lastPosition_app log new se : last new = Some se → lastPosition (log ++ new) = Position se.
Proof. intros H. unfold lastPosition. by rewrite last_app, H. Qed.

Lemma numbered_last evs counter se :
  0 ≤ counter → counter + Z.of_nat (length evs) < two64 → last (numbered evs counter) = Some se →
  value (Position se) = counter + Z.of_nat (length evs).
Proof.
  revert counter. induction evs as [|ev evs IH]; intros counter Hc Hl Hlast; [done|].
  cbn [numbered length] in *. rewrite u64_small in Hlast by (split; lia).
  destruct evs as [|ev' evs]; [naive_solver lia|].
  cbn [numbered] in *. rewrite IH with (counter := counter + 1); [lia|lia|lia|done].
Qed.

#[export] Instance Store_laws : AppendLaws Store.
Proof.
  refine {| store_inv := mem_inv; room := mem_room |}.
  - intros s Hs. apply Hs.
  - intros ctx commands s r s' Hs Hroom HA. by eapply Append_inv_contract.
  - intros ctx commands s r s' n Hs Hroom HA. change (Append ctx commands s = (r, s')) in HA.
    destruct (Append_result ctx commands s r s' Hs HA) as [[-> _]|(se&Hse&_&->)].
    + unfold mem_room in *. lia.
    + unfold mem_room in *. cbn. erewrite lastPosition_app by done.
      pose proof (mem_last_wf s Hs) as [? _].
      rewrite (numbered_last (all_events commands) (value (lastPosition (events s))) se);
        [lia|done|lia|done].
  - unfold mem_room. intros. lia.
  - intros commands s r s' Hs _ Hval Hhold Hne HA.
    change (Append None commands s = (r, s')) in HA.
    destruct (Append_cases commands s Hs) as [(?&_)|(_&E)]; [done|]. rewrite E in HA.
    destruct (append_locked_cases s commands Hs)
      as [(j&cmd&c&Hj&Hc&Hv&_)|[(_&?&_)|(_&se&_&E')]]; [|done|].
    + exfalso. unfold conditions_hold in Hhold. rewrite Forall_lookup in Hhold. by eapply Hhold.
    + rewrite E' in HA. injection HA as <- <-. by eexists.
  - intros commands s r s' Hs _ Hval Hhold _ HA.
    change (Append None commands s = (r, s')) in HA.
    destruct (Append_cases commands s Hs) as [(?&_)|(_&E)]; [done|]. rewrite E in HA.
    destruct (append_locked_cases s commands Hs)
      as [(j&cmd&c&_&_&_&_&E')|[(?&_)|(?&_)]]; [|done..].
    rewrite E' in HA. injection HA as <- <-. by eexists.
Defined.

#[export] Instance sliceIterator_laws : IteratorLaws sliceIterator.
Proof.
  refine {| iter_inv := λ it, (slice_idx it ≤ length (slice_events it))%nat;
            remaining := λ it, drop (slice_idx it) (slice_events it);
            final_error := λ _, None;
            is_closed := λ _, true |}.
  - intros [evs i] ev rest Hinv Hrem. cbn in *.
    assert (evs !! i = Some ev) as Hi.
    { rewrite <-(Nat.add_0_r i), <-lookup_drop, Hrem. done. }
    exists (mkSlice evs (S i)). unfold slice_Next, slice_Event. cbn.
    pose proof (lookup_lt_Some _ _ _ Hi). rewrite decide_False by lia. rewrite Hi.
    split_and!; [done|done|done| |done].
    erewrite drop_S in Hrem by done. congruence.
  - intros [evs i] Hinv Hrem. cbn in *. unfold slice_Next. cbn.
    apply (f_equal length) in Hrem. rewrite length_drop in Hrem. cbn in Hrem.
    rewrite decide_True by lia. by eexists.
  - done.
Defined.

Lemma numbered_length evs counter : length (numbered evs counter) = length evs.
Proof. revert counter. induction evs as [|ev evs IH]; intros; cbn; [done|]. by rewrite IH. Qed.

Lemma numbered_lookup_wrap evs counter i : in_u64 counter → (i < length evs)%nat →
  ∃ ev, numbered evs counter !! i =
    Some (mkSequenced ev (mkPosition (u64 (counter + 1 + Z.of_nat i)))).
Proof.
  revert counter i. induction evs as [|ev evs IH]; intros counter i Hc Hi;
    cbn [length] in Hi; [lia|].
  destruct i as [|i].
  { exists ev. cbn. by rewrite Z.add_0_r. }
  destruct (IH (u64 (counter + 1)) i) as [ev' E]; [apply u64_range|lia|].
  exists ev'. transitivity (numbered evs (u64 (counter + 1)) !! i); [done|].
  rewrite E. do 3 f_equal. unfold u64.
  replace (counter + 1 + Z.of_nat (S i)) with (counter + 1 + (1 + Z.of_nat i)) by lia.
  rewrite <-!Z.add_assoc, Z.add_mod_idemp_l by done. f_equal. lia.
Qed.

(** In an ascending list of uint64 positions only the head may be at 0. *)
Lemma ascending_zero_head l i se :
  ascending l → (∀ x, x ∈ l → 0 ≤ value (Position x)) →
  l !! i = Some se → value (Position se) = 0 → i = 0%nat.
Proof.
  intros Hasc Hwf Hi Hz. destruct l as [|x l]; [done|]. destruct i as [|i]; [done|].
  exfalso. apply StronglySorted_cons in Hasc as [Hx _]. rewrite Forall_forall in Hx.
  specialize (Hx se ltac:(by eapply list_elem_of_lookup_2)).
  specialize (Hwf x ltac:(by left)). unfold pos_lt in Hx. lia.
Qed.

Lemma mem_room_necessary s commands :
  mem_inv s → ascending (events (after_append s commands)) →
  all_events commands ≠ [] → mem_room s (length (all_events commands)).
Proof.
  intros Hs Hasc Hne. pose proof (mem_last_wf s Hs) as Hlast. cbn in Hasc.
  unfold mem_room. apply Z.nle_gt. intros Hover.
  set (c := value (lastPosition (events s))) in *.
  destruct Hlast as [Hc0 Hc1]. fold c in Hc0, Hc1.
  destruct (numbered_lookup_wrap (all_events commands) c (Z.to_nat (two64 - 1 - c)))
    as [ev Hi]; [done|lia|].
  rewrite Z2Nat.id in Hi by lia.
  replace (u64 (c + 1 + (two64 - 1 - c))) with 0 in Hi.
  2: { replace (c + 1 + (two64 - 1 - c)) with two64 by lia. done. }
  assert (length (events s) + Z.to_nat (two64 - 1 - c) = 0)%nat as H0.
  { apply (ascending_zero_head _ _ (mkSequenced ev (mkPosition 0)) Hasc); [| |done].
    - intros x [Hx|Hx]%elem_of_app; [by apply Hs|].
      apply list_elem_of_lookup in Hx as [k Hk].
      destruct (numbered_lookup_wrap (all_events commands) c k) as [ev' Hk']; [done| |].
      { apply lookup_lt_Some in Hk. unfold appended in Hk. by rewrite numbered_length in Hk. }
      unfold appended in Hk. fold c in Hk. rewrite Hk in Hk'. injection Hk' as ->.
      apply u64_range.
    - rewrite lookup_app_r by lia. rewrite Nat.add_sub_swap, Nat.sub_diag by lia. done. }
  assert (events s = []) as Hnil by (apply length_zero_iff_nil; lia).
  assert (c = 0) as -> by (unfold c; by rewrite Hnil).
  unfold two64 in *. lia.
Qed.

(** ** Properties *)

(** C21: the in-memory [Append] implements the store's contract: on a store that
    satisfies the invariant (ascending uint64 positions, an open broadcast
    channel) and has positions left, it preserves the invariant and its result
    and new log are ones the contract allows; an append that does not return a
    position changes nothing, not even the broadcast channel. *)
Theorem Append_refines_contract ctx commands s r s' :
  mem_inv s → mem_room s (length (all_events commands)) →
  Append ctx commands s = (r, s') →
  mem_inv s' ∧ append_contract (events s) commands r (events s') ∧
  (¬ is_Ok r → s' = s).
Proof.
  intros Hs Hroom HA. destruct (Append_inv_contract ctx commands s r s' Hs Hroom HA) as [? Hc].
  split_and!; [done|done|]. intros Hno.
  destruct (Append_result ctx commands s r s' Hs HA) as [[-> _]|(se&_&->&_)]; [done|].
  exfalso. apply Hno. by eexists.
Qed.

(** C25: the result of [Append] on every branch, in the order in which the code
    decides: a done context; an invalid condition in any command; the first
    command whose condition the pre-call log violates; no events at all; and
    otherwise success, at the position [n] after the last one modulo 2^64,
    with the events of all commands appended in order, the waiters' channel
    closed and a fresh one in its place.  No branch panics. *)
Theorem Append_branches commands s : mem_inv s →
  (∀ e, Append (Some e) commands s = (Err (EContext e), s)) ∧
  (¬ conditions_valid commands → ∃ e, Append None commands s = (Err (ECondition e), s)) ∧
  (conditions_valid commands → ¬ conditions_hold (events s) commands →
     ∃ j cmd c, commands !! j = Some cmd ∧ Condition cmd = Some c ∧ violated (events s) c ∧
       conditions_hold (events s) (take j commands) ∧
       Append None commands s = (Err (violation_error commands j c), s)) ∧
  (conditions_valid commands → conditions_hold (events s) commands →
     all_events commands = [] → Append None commands s = (Err EZeroEvents, s)) ∧
  (conditions_valid commands → conditions_hold (events s) commands →
     all_events commands ≠ [] →
     Append None commands s =
       (Ok (mkPosition (advance (value (lastPosition (events s)))
                                (length (all_events commands)))),
        mkStore (events s ++ appended s commands) (next_chan s)
          ({[broadcast s]} ∪ closed s) (S (next_chan s)))).
Proof.
  intros Hs. pose proof (Append_cases commands s Hs) as HA.
  pose proof (append_locked_cases s commands Hs) as HL.
  assert (∀ j cmd c, commands !! j = Some cmd → Condition cmd = Some c →
    violated (events s) c → ¬ conditions_hold (events s) commands) as Hno.
  { intros j cmd c Hj Hc Hv Hh. unfold conditions_hold in Hh. rewrite Forall_lookup in Hh.
    by eapply Hh. }
  split; [done|]. destruct HA as [[Hinvalid HA]|[Hval ->]]; [by split_and!|].
  split_and!; [done|..]; intros _.
  { intros Hv. destruct HL as [(j&cmd&c&?&?&?&?&->)|[(?&_)|(?&_)]]; [|done..].
    by exists j, cmd, c. }
  { intros Hhold Hnil. destruct HL as [(j&cmd&c&?&?&?&_)|[(_&_&->)|(_&se&Hse&_)]];
      [by destruct (Hno j cmd c)|done|].
    unfold appended in Hse. by rewrite Hnil in Hse. }
  intros Hhold Hne.
  destruct HL as [(j&cmd&c&?&?&?&_)|[(_&?&_)|(_&se&Hse&->)]];
    [by destruct (Hno j cmd c)|done|].
  unfold after_append. do 2 f_equal. unfold appended in Hse. revert Hse.
  rewrite last_lookup, numbered_length.
  destruct (numbered_lookup_wrap (all_events commands) (value (lastPosition (events s)))
    (pred (length (all_events commands)))) as [ev ->]; [by apply mem_last_wf| |].
  { destruct (all_events commands); [done|cbn; lia]. }
  intros [= <-]. cbn. do 2 f_equal. unfold advance. f_equal.
  destruct (all_events commands); [done|cbn; lia].
Qed.

(** C36: the exact bound on positions.  A successful append on a store in good
    order keeps the log in ascending order precisely when the uint64 counter
    does not wrap around: otherwise some event gets position 0 behind an
    existing one. *)
Theorem Append_position_bound commands s : mem_inv s →
  conditions_valid commands → conditions_hold (events s) commands →
  all_events commands ≠ [] →
  ascending (events (Append None commands s).2) ↔
    value (lastPosition (events s)) + Z.of_nat (length (all_events commands)) < two64.
Proof.
  intros Hs Hval Hhold Hne.
  destruct (Append_cases commands s Hs) as [[? _]|[_ ->]]; [done|].
  destruct (append_locked_cases s commands Hs)
    as [(j&cmd&c&Hj&Hc&Hv&_)|[(_&?&_)|(_&se&Hse&->)]]; [|done|].
  { exfalso. unfold conditions_hold in Hhold. rewrite Forall_lookup in Hhold. by eapply Hhold. }
  cbn [snd]. split.
  - intros Hasc. by apply (mem_room_necessary s commands).
  - intros Hroom. by apply after_append_inv.
Qed.

(** [Read] followed by [Collect] returns the matching events of the log in
    read order, cut at the limit, without an error, and terminates; a done
    context is reported before anything is read.  Fuel for one more step than
    the log has events is enough. *)
Theorem Read_Collect query opts s :
  (∀ e, Read (Some e) query opts s = Err (EContext e)) ∧
  ∃ it, Read None query opts s = Ok it ∧
    ∃ it', Collect (S (length (events s))) it =
      Some (Ok (limit_to (Limit opts) (selection (events s) query opts), None), it').
Proof.
  split; [done|]. eexists. split; [done|]. rewrite matchingEvents_selection.
  set (result := limit_to _ _). set (it := mkSlice result 0).
  assert (length result ≤ length (events s))%nat as Hlen.
  { trans (length (selection (events s) query opts)).
    - apply prefix_length, limit_to_prefix.
    - unfold selection. destruct (Backwards opts); rewrite ?length_reverse; apply length_filter. }
  destruct (collect_loop_spec (S (length (events s))) it []) as (it'&E&_).
  - cbn. lia.
  - change (remaining it) with (drop 0 result). rewrite drop_0. lia.
  - exists (Close it'). unfold Collect. rewrite E. done.
Qed.

(** ** Witnesses *)

Definition ex_tags : Tags := mkTags {["course=c1"]}.
Definition ex_event : Event := mkEvent "enrolled" ex_tags None None.
Definition ex_item : QueryItem := mkItem ["enrolled"] ex_tags.
Definition ex_condition : AppendCondition := mkCondition (mkQuery [ex_item] false) None.
Definition ex_command : AppendCommand := mkCommand [ex_event] (Some ex_condition).
Definition ex_log : list SequencedEvent := [mkSequenced ex_event (mkPosition 7)].
Definition ex_store : Store := New ex_log.

Lemma ex_store_inv : mem_inv ex_store.
Proof. apply New_inv; [repeat constructor|]. by intros se ->%list_elem_of_singleton. Qed.

Lemma empty_store_inv : mem_inv (New []).
Proof. apply New_inv; [constructor|]. by intros se ?%elem_of_nil. Qed.

Example ex_append_conflict :
  (Append None [ex_command; ex_command] ex_store).1 =
    Err (EAppendCondition (mkConditionError ex_condition (Some 0))).
Proof. vm_compute. reflexivity. Qed.

Example ex_append_empty :
  (Append None [ex_command; mkCommand [ex_event] None] (New [])).1 = Ok (mkPosition 2).
Proof. vm_compute. reflexivity. Qed.

Lemma matchingEvents_correct_witness :
  ascending ex_log ∧
  (∀ se, se ∈ matchingEvents ex_log QueryAll (mkReadOptions true None 1) → se ∈ ex_log).
Proof.
  assert (ascending ex_log) as Hasc by repeat constructor.
  split; [done|]. intros se Hse.
  destruct (matchingEvents_correct ex_log QueryAll (mkReadOptions true None 1) Hasc)
    as (_&H&_). by apply H.
Defined.

Lemma Append_refines_contract_witness :
  append_contract (events ex_store) [ex_command]
    (Append None [ex_command] ex_store).1 (events (Append None [ex_command] ex_store).2).
Proof.
  eapply (Append_refines_contract None [ex_command] ex_store);
    [apply ex_store_inv|reflexivity|apply surjective_pairing].
Defined.

Lemma Append_branches_witness :
  Append None [] ex_store = (Err EZeroEvents, ex_store).
Proof.
  destruct (Append_branches [] ex_store ex_store_inv) as (_&_&_&H&_).
  apply H; [constructor|constructor|reflexivity].
Defined.

Lemma Append_position_bound_witness :
  let s := New [mkSequenced ex_event (mkPosition (two64 - 1))] in
  mem_inv s ∧ ¬ ascending (events (Append None [mkCommand [ex_event] None] s).2).
Proof.
  set (s := New _).
  assert (mem_inv s) as Hs.
  { apply New_inv; [repeat constructor|]. by intros se ->%list_elem_of_singleton. }
  split; [done|]. rewrite (Append_position_bound [mkCommand [ex_event] None] s Hs).
  - vm_compute. done.
  - by repeat constructor.
  - by repeat constructor.
  - done.
Defined.

Lemma Collect_total_witness :
  ∃ it', Collect 2 (mkSlice ex_log 0) = Some (Ok (ex_log, None), it') ∧ is_closed it' = true.
Proof.
  refine (Collect_total 2 (mkSlice ex_log 0) _ _); cbn; lia.
Defined.

Lemma All_spec_witness :
  let yield (n : nat) (_ : SequencedEvent) (_ : option store_error) := (true, S n) in
  ∃ it', All_ yield 2 (mkSlice ex_log 0) 0%nat = Some (Ok 1%nat, it') ∧ is_closed it' = true.
Proof.
  intros yield. refine (All_spec yield 2 (mkSlice ex_log 0) 0%nat _ _); cbn; lia.
Defined.

Lemma racing_appends_witness :
  ∃ r0 rs, (run_appends (replicate 3 [ex_command]) (New [])).1 = r0 :: rs ∧
    is_Ok r0 ∧ length rs = 2%nat ∧ Forall (λ r, ∃ e, r = Err (EAppendCondition e)) rs.
Proof.
  destruct (run_appends (replicate 3 [ex_command]) (New [])) as [rs s'] eqn:E.
  destruct (racing_appends_one_wins (St := Store) 2 ex_event ex_condition (New []) rs s')
    as (r0&rs'&Hrs&H0&Hlen&Hall&_).
  - apply empty_store_inv.
  - reflexivity.
  - apply ValidateAppendCondition_Ok. reflexivity.
  - apply (bool_decide_unpack _). vm_compute. done.
  - apply matchesQuery_true. vm_compute. reflexivity.
  - done.
  - exact E.
  - exists r0, rs'. exact (conj Hrs (conj H0 (conj Hlen Hall))).
Defined.

Lemma unconditional_appends_witness :
  let calls := [[mkCommand [ex_event] None]; [mkCommand [ex_event] None]] in
  ∃ new, events (run_appends calls ex_store).2 = events ex_store ++ new ∧ length new = 2%nat.
Proof.
  intros calls. destruct (run_appends calls ex_store) as [rs s'] eqn:E.
  destruct (unconditional_appends_all_land (St := Store) calls ex_store rs s')
    as (new&ps&_&_&Hv&Hnew&_).
  - apply ex_store_inv.
  - reflexivity.
  - by repeat constructor.
  - exact E.
  - exists new. split; [exact Hv|]. by rewrite <-(length_fmap se_Event), Hnew.
Defined.
