(* ===== verification/MemorySubscribe.v ===== *)
(** * MemorySubscribe

    Subscriptions of the in-memory store: [Subscribe] of [src/memory/store.go]
    and [subscribeIterator] of [src/memory/iterator.go], running concurrently
    with appends.

    [Next] is a small machine whose steps are the code's atomic sections: the
    head of the loop (which either takes from [pending] or, under the mutex,
    snapshots the matching events together with the broadcast channel) and the
    [select] on that channel and the context.  A [system] is the shared store
    with any number of subscriptions; its step relation interleaves appends,
    cancellations and the subscriptions' own steps in every possible way. *)

From S2P Require Import Prelude.
From S2P Require Import SequencePosition.
From S2P Require Import Tags.
From S2P Require Import EventStore.
From S2P Require Import Iterator.
From S2P Require Import Matching.
From S2P Require Import StoreSpec.
From S2P Require Import MemoryStore.

(** ** The iterator *)

Record subscribeIterator := mkSubscribe {
  sub_query : Query;
  position : SequencePosition;
  pending : list SequencedEvent;
  current : SequencedEvent;
}.

Definition Subscribe (ctx : context) (query : Query) (opts : SubscribeOptions) :
    outcome store_error subscribeIterator :=
  match ctx with
  | Some e => Err (EContext e)
  | None =>
      let position :=
        match Subscribe_After opts with
        | Some p => p
        | None => SequencePositionInitial
        end in
      Ok (mkSubscribe query position [] zeroSequenced)
  end.

(** Where a call of [Next] is: not running (the last call, if any, returned),
    at the head of the loop, or blocked in [select] on a captured channel. *)
Inductive next_pc :=
  | Idle
  | LoopHead
  | Waiting (waitCh : chan).

Inductive next_result :=
  | Running (pc : next_pc)
  | Returned (b : bool).

(** [eventstore.ReadOptions{After: &it.position}] *)
Definition after_options (p : SequencePosition) : ReadOptions := mkReadOptions false (Some p) 0.

(** One pass from the head of the loop to the next blocking point, [continue]
    or [return]. *)
Definition loop_head (s : Store) (it : subscribeIterator) : subscribeIterator * next_result :=
  match pending it with
  | se :: rest => (mkSubscribe (sub_query it) (Position se) rest se, Returned true)
  | [] =>
      let evs := matchingEvents (events s) (sub_query it) (after_options (position it)) in
      let waitCh := broadcast s in
      if decide (0 < length evs) then
        (mkSubscribe (sub_query it) (position it) evs (current it), Running LoopHead)
      else (it, Running (Waiting waitCh))
  end.

(** ** The system *)

(** A subscription: the iterator, the program counter of its consumer's current
    [Next] call, its context, and as history variables the position it started
    from and the events that [Next] has returned so far. *)
Record subscription := mkSubscription {
  iterator : subscribeIterator;
  pc : next_pc;
  ctx_done : bool;
  start : SequencePosition;
  delivered : list SequencedEvent;
}.

Record system := mkSystem {
  store : Store;
  subs : gmap nat subscription;
}.

Definition open_subscription (it : subscribeIterator) : subscription :=
  mkSubscription it Idle false (position it) [].

(** The effect of [loop_head] on a subscription. *)
Definition run_head (s : Store) (sub : subscription) : subscription :=
  match loop_head s (iterator sub) with
  | (it, Running pc) => mkSubscription it pc (ctx_done sub) (start sub) (delivered sub)
  | (it, Returned true) =>
      mkSubscription it Idle (ctx_done sub) (start sub) (delivered sub ++ [current it])
  | (it, Returned false) => mkSubscription it Idle (ctx_done sub) (start sub) (delivered sub)
  end.

Definition set_pc (p : next_pc) (sub : subscription) : subscription :=
  mkSubscription (iterator sub) p (ctx_done sub) (start sub) (delivered sub).

Definition cancel (sub : subscription) : subscription :=
  mkSubscription (iterator sub) (pc sub) true (start sub) (delivered sub).

Inductive sub_step (s : Store) : subscription → subscription → Prop :=
  (** the consumer calls [Next] *)
  | step_call sub : pc sub = Idle → sub_step s sub (set_pc LoopHead sub)
  | step_head sub : pc sub = LoopHead → sub_step s sub (run_head s sub)
  (** [case <-waitCh]: a receive from a closed channel *)
  | step_wake sub ch :
      pc sub = Waiting ch → ch ∈ closed s → sub_step s sub (set_pc LoopHead sub)
  (** [case <-it.ctx.Done(): return false] *)
  | step_stop sub ch :
      pc sub = Waiting ch → ctx_done sub = true → sub_step s sub (set_pc Idle sub).

Inductive step : system → system → Prop :=
  | step_append ctx commands r s' sys :
      mem_room (store sys) (length (all_events commands)) →
      Append ctx commands (store sys) = (r, s') →
      step sys (mkSystem s' (subs sys))
  | step_subscribe id query opts it sys :
      subs sys !! id = None → Subscribe None query opts = Ok it →
      step sys (mkSystem (store sys) (<[id := open_subscription it]> (subs sys)))
  | step_sub id sub sub' sys :
      subs sys !! id = Some sub → sub_step (store sys) sub sub' →
      step sys (mkSystem (store sys) (<[id := sub']> (subs sys)))
  | step_cancel id sub sys :
      subs sys !! id = Some sub →
      step sys (mkSystem (store sys) (<[id := cancel sub]> (subs sys))).

Definition initial (s : Store) : system := mkSystem s ∅.

Definition reachable (s0 : Store) (sys : system) : Prop := rtc step (initial s0) sys.

(** What a subscription is owed: the matching events after its start. *)
Definition stream (log : list SequencedEvent) (q : Query) (p : SequencePosition) :
    list SequencedEvent :=
  filter (selected q (after_options p)) log.
Arguments stream : simpl never.

(** ** The subscription invariant *)

Definition resume_position (sub : subscription) : SequencePosition :=
  match last (delivered sub) with
  | Some se => Position se
  | None => start sub
  end.

Record sub_inv (s : Store) (sub : subscription) : Prop := {
  sub_prefix : ∃ rest,
    stream (events s) (sub_query (iterator sub)) (start sub) =
      delivered sub ++ pending (iterator sub) ++ rest;
  sub_position : position (iterator sub) = resume_position sub;
  sub_waiting : ∀ ch, pc sub = Waiting ch →
    pending (iterator sub) = [] ∧ (ch = broadcast s ∨ ch ∈ closed s) ∧
    (ch ∉ closed s →
     stream (events s) (sub_query (iterator sub)) (start sub) = delivered sub);
}.

Record sys_inv (sys : system) : Prop := {
  sys_store : mem_inv (store sys);
  sys_subs : map_Forall (λ _, sub_inv (store sys)) (subs sys);
}.

(** ** Lemmas on streams *)

Lemma stream_app log new q p : stream (log ++ new) q p = stream log q p ++ stream new q p.
Proof. apply filter_app. Qed.

Lemma matching_stream log q p : matchingEvents log q (after_options p) = stream log q p.
Proof. by rewrite matchingEvents_nolimit by done. Qed.

Lemma stream_ascending log q p : ascending log → ascending (stream log q p).
Proof. apply StronglySorted_filter. Qed.

Lemma elem_of_stream log q p se :
  se ∈ stream log q p ↔
    se ∈ log ∧ (value p < value (Position se))%Z ∧ event_matches q (se_Event se).
Proof. unfold stream, selected. rewrite list_elem_of_filter. cbn. tauto. Qed.

(** Moving the start forward drops the events up to it. *)
Lemma stream_later log q p p' : (value p ≤ value p')%Z →
  stream log q p' = filter (λ se, value p' < value (Position se))%Z (stream log q p).
Proof.
  intros Hp. unfold stream. rewrite list_filter_filter. apply list_filter_iff.
  intros se. unfold selected. cbn. intuition lia.
Qed.

Lemma stream_resume log q p dl rest : ascending log → stream log q p = dl ++ rest →
  stream log q (match last dl with Some se => Position se | None => p end) = rest.
Proof.
  intros Hasc Hs. destruct (last dl) as [se|] eqn:Hlast.
  - pose proof (stream_ascending log q p Hasc) as Hsorted. rewrite Hs in Hsorted.
    apply last_Some in Hlast as [pre ->].
    assert (se ∈ stream log q p) as (_&Hse&_)%elem_of_stream by (rewrite Hs; set_solver).
    rewrite (stream_later log q p) by lia. rewrite Hs, filter_app.
    apply ascending_app in Hsorted as (Hlt&Hpre&_).
    apply ascending_app in Hpre as (Hltp&_&_). unfold pos_lt in *.
    rewrite filter_none, filter_all; [done|..].
    + intros x Hx. apply Hlt; set_solver.
    + intros x [Hx| ->%list_elem_of_singleton]%elem_of_app; [|lia].
      specialize (Hltp x se Hx ltac:(set_solver)). lia.
  - apply last_None in Hlast as ->. done.
Qed.

(** ** The invariant is preserved *)

Lemma sub_inv_set_pc s sub p :
  sub_inv s sub → (∀ ch, p ≠ Waiting ch) → sub_inv s (set_pc p sub).
Proof. intros [? ? ?] Hp. split; cbn; [done|done|]. intros ch ->. by destruct (Hp ch). Qed.

Lemma sub_inv_cancel s sub : sub_inv s sub → sub_inv s (cancel sub).
Proof. by intros [???]. Qed.

Lemma sub_inv_head s sub : mem_inv s → sub_inv s sub → sub_inv s (run_head s sub).
Proof.
  intros Hs [[rest Hrest] Hpos _]. unfold run_head, loop_head.
  destruct sub as [[q p pend cur] pc done st dl]. cbn in *.
  destruct pend as [|se pend]; cbn in Hrest |- *.
  - rewrite matching_stream. unfold resume_position in Hpos. cbn in Hpos. subst p.
    rewrite (stream_resume _ _ _ dl rest) by (done || apply Hs).
    case_decide as Hlen; cbn.
    + split; cbn; [|done|done]. exists []. by rewrite app_nil_r.
    + split; cbn; [by exists rest|done|]. intros ch [= <-].
      destruct rest; [|cbn in Hlen; lia]. rewrite app_nil_r in Hrest.
      split_and!; [done|by left|done].
  - split; cbn; [|by unfold resume_position; cbn; rewrite last_snoc|done].
    exists rest. by rewrite Hrest, <-(assoc_L (++)).
Qed.

Lemma sub_inv_append s commands sub :
  sub_inv s sub → sub_inv (after_append s commands) sub.
Proof.
  intros [[rest Hrest] Hpos Hwait]. split; cbn; [|done|].
  - exists (rest ++ stream (appended s commands) (sub_query (iterator sub)) (start sub)).
    rewrite stream_app, Hrest. by rewrite <-!(assoc_L (++)).
  - intros ch Hpc. destruct (Hwait ch Hpc) as (?&Hch&_). split_and!; [done|set_solver|].
    intros Hopen. exfalso. set_solver.
Qed.

Lemma sub_inv_step s sub sub' :
  mem_inv s → sub_inv s sub → sub_step s sub sub' → sub_inv s sub'.
Proof.
  intros Hs Hsub Hst. destruct Hst; [|by apply sub_inv_head|..];
    apply sub_inv_set_pc; done.
Qed.

Lemma step_inv sys sys' : sys_inv sys → step sys sys' → sys_inv sys'.
Proof.
  intros [Hs Hsubs]. destruct 1 as [ctx commands r s' sys Hroom HA|id query opts it sys Hid Hit
    |id sub sub' sys Hid Hst|id sub sys Hid]; cbn in *.
  - assert (s' = store sys ∨ s' = after_append (store sys) commands) as [-> | ->].
    { destruct (Append_result ctx commands (store sys) r s' Hs HA) as [[? _]|(?&_&_&?)]; auto. }
    + by split.
    + split; cbn; [by apply after_append_inv|].
      eapply map_Forall_impl; [exact Hsubs|]. intros ? ? ?. by apply sub_inv_append.
  - split; [done|]. apply map_Forall_insert_2; [|done].
    unfold Subscribe in Hit. injection Hit as <-. split; cbn; [|done|done].
    eexists. reflexivity.
  - split; [done|]. apply map_Forall_insert_2; [|done].
    eapply sub_inv_step; [done| |done]. by apply (Hsubs id).
  - split; [done|]. apply map_Forall_insert_2; [|done]. apply sub_inv_cancel. by apply (Hsubs id).
Qed.

Lemma reachable_inv s0 sys : mem_inv s0 → reachable s0 sys → sys_inv sys.
Proof.
  intros Hs0 Hr. unfold reachable in Hr.
  assert (sys_inv (initial s0)) as H0 by (split; [done|apply map_Forall_empty]).
  revert H0. induction Hr; eauto using step_inv.
Qed.

(** ** Properties *)

(** C22: exactly-once, in-order delivery.  In every reachable state of the
    store, its writers and its subscriptions, what a subscription has returned,
    followed by what it has buffered, is an initial part of the stream it is
    owed: the log's matching events after its start, in position order, with no
    gap and no repetition. *)
Theorem subscription_exactly_once s0 sys id sub :
  mem_inv s0 → reachable s0 sys → subs sys !! id = Some sub →
  (delivered sub ++ pending (iterator sub)) `prefix_of`
    stream (events (store sys)) (sub_query (iterator sub)) (start sub) ∧
  ascending (delivered sub ++ pending (iterator sub)) ∧
  (∀ se, se ∈ delivered sub → event_matches (sub_query (iterator sub)) (se_Event se) ∧
     (value (start sub) < value (Position se))%Z).
Proof.
  intros Hs0 Hr Hid. destruct (reachable_inv s0 sys Hs0 Hr) as [Hs Hsubs].
  destruct (Hsubs id sub Hid) as [[rest Hrest] _ _].
  assert ((delivered sub ++ pending (iterator sub)) `prefix_of`
    stream (events (store sys)) (sub_query (iterator sub)) (start sub)) as Hpre.
  { exists rest. by rewrite Hrest, (assoc_L (++)). }
  split_and!; [done| |].
  - eapply StronglySorted_prefix; [done|]. apply stream_ascending, Hs.
  - intros se Hse.
    assert (se ∈ stream (events (store sys)) (sub_query (iterator sub)) (start sub)) as
      (_&?&?)%elem_of_stream by (rewrite Hrest; set_solver). done.
Qed.

(** C23: no lost wake-up.  Whenever a subscription is blocked on a channel that
    is still open, it has returned every matching event of the log: an append
    that could add one must still close the very channel it waits on. *)
Theorem no_lost_wakeup s0 sys id sub ch :
  mem_inv s0 → reachable s0 sys → subs sys !! id = Some sub →
  pc sub = Waiting ch → ch ∉ closed (store sys) →
  ch = broadcast (store sys) ∧
  delivered sub = stream (events (store sys)) (sub_query (iterator sub)) (start sub).
Proof.
  intros Hs0 Hr Hid Hpc Hopen. destruct (reachable_inv s0 sys Hs0 Hr) as [Hs Hsubs].
  destruct (sub_waiting _ _ (Hsubs id sub Hid) ch Hpc) as (_&[->|?]&Hd); [|done].
  split; [done|]. symmetry. by apply Hd.
Qed.

(** A subscription taking its own steps, while the rest of the system pauses. *)
Definition sub_steps (s : Store) : subscription → subscription → Prop := rtc (sub_step s).

(** One own step as a function: [None] when the subscription is blocked.  A
    subscription whose context is not done has no other step. *)
Definition own_step (s : Store) (sub : subscription) : option subscription :=
  match pc sub with
  | Idle => Some (set_pc LoopHead sub)
  | LoopHead => Some (run_head s sub)
  | Waiting ch => if decide (ch ∈ closed s) then Some (set_pc LoopHead sub) else None
  end.

Lemma own_step_complete s sub sub' : ctx_done sub = false →
  sub_step s sub sub' ↔ own_step s sub = Some sub'.
Proof.
  intros Hctx. unfold own_step. split.
  - destruct 1 as [sub Hp|sub Hp|sub ch Hp Hc|sub ch Hp Hd]; rewrite Hp; [done|done| |congruence].
    by rewrite decide_True.
  - destruct (pc sub) as [| |ch] eqn:Hp; [..|case_decide; [|done]]; intros [= <-];
      by econstructor.
Qed.

(** Iterating [own_step] until an event has been returned. *)
Fixpoint run_next (fuel : nat) (s : Store) (sub : subscription) : option subscription :=
  match fuel with
  | O => None
  | S fuel =>
      sub' ← own_step s sub;
      if decide (length (delivered sub) < length (delivered sub')) then Some sub'
      else run_next fuel s sub'
  end.

Lemma run_next_step fuel s sub sub' :
  own_step s sub = Some sub' → delivered sub' = delivered sub →
  run_next (S fuel) s sub = run_next fuel s sub'.
Proof.
  intros E Hd. cbn [run_next]. rewrite E. cbn [mbind option_bind].
  by rewrite Hd, decide_False by lia.
Qed.

Lemma run_next_return fuel s sub sub' se :
  own_step s sub = Some sub' → delivered sub' = delivered sub ++ [se] →
  run_next (S fuel) s sub = Some sub'.
Proof.
  intros E Hd. cbn [run_next]. rewrite E. cbn [mbind option_bind].
  rewrite Hd, decide_True; [done|]. rewrite length_app. cbn. lia.
Qed.

Lemma run_next_pending fuel s sub se pend :
  pc sub = LoopHead → pending (iterator sub) = se :: pend →
  ∃ sub', run_next (S fuel) s sub = Some sub' ∧ delivered sub' = delivered sub ++ [se] ∧
    current (iterator sub') = se ∧ pc sub' = Idle.
Proof.
  intros Hp Hpend.
  assert (own_step s sub = Some (run_head s sub)) as E by (unfold own_step; by rewrite Hp).
  unfold run_head, loop_head in E. rewrite Hpend in E.
  eexists. split; [by eapply run_next_return|done].
Qed.

Lemma run_next_head fuel s sub se rest : mem_inv s → sub_inv s sub → pc sub = LoopHead →
  stream (events s) (sub_query (iterator sub)) (start sub) = delivered sub ++ se :: rest →
  ∃ sub', run_next (S (S fuel)) s sub = Some sub' ∧ delivered sub' = delivered sub ++ [se] ∧
    current (iterator sub') = se ∧ pc sub' = Idle.
Proof.
  intros Hs [[rest' Hrest'] Hpos _] Hp Hst.
  destruct (pending (iterator sub)) as [|se' pend] eqn:Hpend.
  - assert (own_step s sub = Some (run_head s sub)) as E by (unfold own_step; by rewrite Hp).
    unfold run_head, loop_head in E. rewrite Hpend, matching_stream, Hpos in E.
    unfold resume_position in E. rewrite (stream_resume _ _ _ (delivered sub) (se :: rest)) in E;
      [|apply Hs|done].
    rewrite decide_True in E by (cbn; lia). rewrite (run_next_step _ _ _ _ E) by done.
    by eapply (run_next_pending fuel s (mkSubscription _ LoopHead _ _ _)).
  - rewrite Hst in Hrest'. apply app_inv_head in Hrest'. injection Hrest' as <- _.
    by apply (run_next_pending (S fuel) s sub se pend).
Qed.

(** C24: liveness.  From any reachable state, if the log holds a matching event
    that a subscription has not returned yet, the subscription is not stuck:
    within four of its own steps its [Next] returns true and [Event] is the
    first such event.  While its context is not done these steps are forced:
    it has no other. *)
Theorem subscription_progress s0 sys id sub se rest :
  mem_inv s0 → reachable s0 sys → subs sys !! id = Some sub →
  stream (events (store sys)) (sub_query (iterator sub)) (start sub) =
    delivered sub ++ se :: rest →
  (∃ sub', run_next 4 (store sys) sub = Some sub' ∧
     delivered sub' = delivered sub ++ [se] ∧ current (iterator sub') = se ∧ pc sub' = Idle) ∧
  (∀ sub1 sub2, ctx_done sub1 = false →
     sub_step (store sys) sub1 sub2 ↔ own_step (store sys) sub1 = Some sub2).
Proof.
  intros Hs0 Hr Hid Hst. split; [|intros; by apply own_step_complete].
  destruct (reachable_inv s0 sys Hs0 Hr) as [Hs Hsubs]. pose proof (Hsubs id sub Hid) as Hsub.
  assert (∀ fuel, pc sub ≠ LoopHead → own_step (store sys) sub = Some (set_pc LoopHead sub) →
    ∃ sub', run_next (3 + fuel) (store sys) sub = Some sub' ∧
     delivered sub' = delivered sub ++ [se] ∧ current (iterator sub') = se ∧ pc sub' = Idle)
    as Hgo.
  { intros fuel _ E. change (3 + fuel) with (S (2 + fuel)). rewrite (run_next_step _ _ _ _ E) by done.
    by apply (run_next_head _ _ (set_pc LoopHead sub) se rest); [|apply sub_inv_set_pc|..]. }
  destruct (pc sub) as [| |ch] eqn:Hp.
  - apply (Hgo 1); [done|]. unfold own_step. by rewrite Hp.
  - by apply (run_next_head 2 _ _ se rest).
  - destruct (sub_waiting _ _ Hsub ch Hp) as (_&_&Hd).
    destruct (decide (ch ∈ closed (store sys))) as [Hc|Ho].
    + apply (Hgo 1); [done|]. unfold own_step. by rewrite Hp, decide_True.
    + exfalso. rewrite (Hd Ho) in Hst. apply (f_equal length) in Hst.
      rewrite length_app in Hst. cbn in Hst. lia.
Qed.

(** ** Witnesses *)

Definition ex_open : subscription :=
  open_subscription (mkSubscribe QueryAll SequencePositionInitial [] zeroSequenced).

(** An empty store with one subscription, blocked in [Next]. *)
Definition ex_blocked : system :=
  mkSystem (New [])
    (<[0 := run_head (New []) (set_pc LoopHead ex_open)]>
      (<[0 := set_pc LoopHead ex_open]> (<[0 := ex_open]> ∅))).

(** The same after one append. *)
Definition ex_woken : system :=
  mkSystem (Append None [mkCommand [ex_event] None] (New [])).2 (subs ex_blocked).

Lemma ex_blocked_reachable : reachable (New []) ex_blocked.
Proof.
  eapply rtc_l; [apply (step_subscribe 0 QueryAll (mkSubscribeOptions None 0)); reflexivity|].
  eapply rtc_l; [apply (step_sub 0 ex_open (set_pc LoopHead ex_open));
    [apply lookup_insert_eq|by apply step_call]|].
  apply rtc_once, (step_sub 0 (set_pc LoopHead ex_open) _);
    [apply lookup_insert_eq|by apply step_head].
Qed.

Lemma ex_woken_reachable : reachable (New []) ex_woken.
Proof.
  eapply rtc_r; [apply ex_blocked_reachable|].
  eapply (step_append None [mkCommand [ex_event] None]); [reflexivity|apply surjective_pairing].
Qed.

Lemma no_lost_wakeup_witness :
  ∃ sub, subs ex_blocked !! 0 = Some sub ∧ pc sub = Waiting 0 ∧
    delivered sub = stream (events (store ex_blocked)) QueryAll SequencePositionInitial.
Proof.
  eexists. split; [apply lookup_insert_eq|]. split; [reflexivity|].
  apply (no_lost_wakeup (New []) ex_blocked 0 _ 0);
    [apply empty_store_inv|apply ex_blocked_reachable|apply lookup_insert_eq|reflexivity|].
  apply not_elem_of_empty.
Defined.

Lemma subscription_exactly_once_witness :
  ∃ sub, subs ex_woken !! 0 = Some sub ∧
    (delivered sub ++ pending (iterator sub)) `prefix_of`
      stream (events (store ex_woken)) QueryAll SequencePositionInitial.
Proof.
  eexists. split; [apply lookup_insert_eq|].
  eapply (subscription_exactly_once (New []) ex_woken 0);
    [apply empty_store_inv|apply ex_woken_reachable|apply lookup_insert_eq].
Defined.

Lemma subscription_progress_witness :
  ∃ sub sub', subs ex_woken !! 0 = Some sub ∧
    run_next 4 (store ex_woken) sub = Some sub' ∧
    delivered sub' = [mkSequenced ex_event (mkPosition 1)].
Proof.
  eexists.
  destruct (subscription_progress (New []) ex_woken 0
    (run_head (New []) (set_pc LoopHead ex_open)) (mkSequenced ex_event (mkPosition 1)) [])
    as [(sub'&Hrun&Hd&_) _].
  - apply empty_store_inv.
  - apply ex_woken_reachable.
  - apply lookup_insert_eq.
  - vm_compute. reflexivity.
  - exists sub'. split; [apply lookup_insert_eq|]. split; [exact Hrun|]. rewrite Hd. reflexivity.
Defined.
