(* ===== verification/LockKeys.v ===== *)
(** * LockKeys

    The advisory-lock keys of the Postgres store ([src/postgres/lockkeys.go]):
    the FNV-1a hash, the three key namespaces, and the keys that a writer and a
    read barrier acquire; with the merging of keys over the commands of one
    [Append] ([src/postgres/append.go]).

    The properties are about conflicts: whenever a writer's event matters to a
    reader or to another writer's condition, the two ask for some common key in
    modes that exclude each other.  They hold whatever the hash function does,
    since a collision can only add conflicts. *)

From S2P Require Import Prelude.
From S2P Require Import GoStrings.
From S2P Require Import SequencePosition.
From S2P Require Import Tags.
From S2P Require Import EventStore.
From S2P Require Import Matching.
From S2P Require Import StoreSpec.

Local Open Scope Z_scope.

(** ** FNV-1a, 64 bits ([hash/fnv]) *)

Definition fnv_offset64 : Z := 14695981039346656037.
Definition fnv_prime64 : Z := 1099511628211.

(** [for _, c := range data { hash ^= c; hash *= prime64 }] *)
Fixpoint fnv1a (h : Z) (s : string) : Z :=
  match s with
  | EmptyString => h
  | String c s => fnv1a (u64 (Z.lxor h (byte_val c) * fnv_prime64)) s
  end.

Definition hashKey (s : string) : Z := i64 (fnv1a fnv_offset64 s).

(** ** Keys *)

Definition leaf_string (eventType tag : string) : string := "L:" +:+ eventType +:+ "|" +:+ tag.
Definition type_string (eventType : string) : string := "T:" +:+ eventType.
Definition global_string : string := "G".

Definition leafKey (eventType tag : string) : Z := hashKey (leaf_string eventType tag).
Definition typeIntentKey (eventType : string) : Z := hashKey (type_string eventType).
Definition globalIntentKey : Z := hashKey global_string.

(** The keys of a set, in the order in which Go's range visits them; the order
    is unspecified, and every consumer sorts the keys before locking. *)
Definition keysOf (set : gset Z) : list Z := elements set.

Record writerLockKeys := mkWriterKeys { leafX : list Z; intentS : list Z }.
Record readerLockKeys := mkReaderKeys { leafS : list Z; intentX : list Z }.

(** The loop [for _, t := range types { for _, tag := range tags {...} }]. *)
Definition leaf_keys_of (types tags : list string) (leaf : gset Z) : gset Z :=
  foldl (λ leaf t, foldl (λ leaf tag, {[leafKey t tag]} ∪ leaf) leaf tags) leaf types.

Definition computeWriterLockKeys (events : list Event) (condition : option AppendCondition) :
    writerLockKeys :=
  let leaf :=
    match condition with
    | Some c =>
        if IsAll (FailIfEventsMatch c) then ∅
        else foldl (λ leaf item, leaf_keys_of (Types item) (Values (Item_Tags item)) leaf)
               ∅ (Items (FailIfEventsMatch c))
    | None => ∅
    end in
  let '(leaf, intent) :=
    foldl (λ '(leaf, intent) ev,
             (foldl (λ leaf tag, {[leafKey (Type_ ev) tag]} ∪ leaf) leaf (Values (Event_Tags ev)),
              {[typeIntentKey (Type_ ev)]} ∪ intent))
      (leaf, ∅ : gset Z) events in
  let intent := if decide (0 < Z.of_nat (length events))
                then {[globalIntentKey]} ∪ intent else intent in
  mkWriterKeys (keysOf leaf) (keysOf intent).

Definition computeReaderLockKeys (query : Query) : readerLockKeys :=
  if IsAll query then mkReaderKeys [] [globalIntentKey]
  else
    let '(leaf, intent) :=
      foldl (λ '(leaf, intent) item,
               let tags := Values (Item_Tags item) in
               if decide (0 < Z.of_nat (length tags)) then
                 (leaf_keys_of (Types item) tags leaf, intent)
               else
                 (leaf, foldl (λ intent t, {[typeIntentKey t]} ∪ intent) intent (Types item)))
        (∅ : gset Z, ∅ : gset Z) (Items query) in
    mkReaderKeys (keysOf leaf) (keysOf intent).

(** [Append]: the union of the keys of all commands. *)
Definition commandKeys (commands : list AppendCommand) : writerLockKeys :=
  let '(leaf, intent) :=
    foldl (λ '(leaf, intent) cmd,
             let keys := computeWriterLockKeys (Events cmd) (Condition cmd) in
             (foldl (λ leaf k, {[k]} ∪ leaf) leaf (leafX keys),
              foldl (λ intent k, {[k]} ∪ intent) intent (intentS keys)))
      (∅ : gset Z, ∅ : gset Z) commands in
  mkWriterKeys (keysOf leaf) (keysOf intent).

(** ** What the key sets contain

    Each loop adds, for every element it visits, the keys of that element. *)

Lemma elem_of_keysOf k set : k ∈ keysOf set ↔ k ∈ set.
Proof. apply elem_of_elements. Qed.

(** A loop whose body adds the set [f x] for the element [x]. *)
Lemma foldl_adds {A} (body : gset Z → A → gset Z) (P : A → Z → Prop) :
  (∀ set x k, k ∈ body set x ↔ k ∈ set ∨ P x k) →
  ∀ (l : list A) (set : gset Z) k, k ∈ foldl body set l ↔ k ∈ set ∨ ∃ x, x ∈ l ∧ P x k.
Proof.
  intros Hbody l. induction l as [|x l IH]; intros set k; cbn.
  - split; [by left|]. by intros [?|(?&?%elem_of_nil&_)].
  - rewrite IH, Hbody. setoid_rewrite elem_of_cons. split.
    + intros [[?|?]|(y&?&?)]; [by left|right; exists x; tauto|right; exists y; tauto].
    + intros [?|(y&[->|?]&?)]; [by left; left|by left; right|right; by exists y].
Qed.

(** A loop over a pair of sets whose components do not interact. *)
Lemma foldl_pair {A S T} (f : S → A → S) (g : T → A → T) (l : list A) (s : S) (t : T) :
  foldl (λ '(s, t) x, (f s x, g t x)) (s, t) l = (foldl f s l, foldl g t l).
Proof. revert s t. induction l as [|x l IH]; intros s t; [done|]. apply IH. Qed.

Lemma foldl_add {A} (f : A → Z) (l : list A) (set : gset Z) k :
  k ∈ foldl (λ set x, {[f x]} ∪ set) set l ↔ k ∈ set ∨ ∃ x, x ∈ l ∧ k = f x.
Proof. apply (foldl_adds _ (λ x k, k = f x)). set_solver. Qed.

Definition pair_key (types tags : list string) (k : Z) : Prop :=
  ∃ t tag, t ∈ types ∧ tag ∈ tags ∧ k = leafKey t tag.

Lemma elem_of_leaf_keys types tags (leaf : gset Z) k :
  k ∈ leaf_keys_of types tags leaf ↔ k ∈ leaf ∨ pair_key types tags k.
Proof.
  unfold leaf_keys_of, pair_key.
  rewrite (foldl_adds _ (λ t k, ∃ tag, tag ∈ tags ∧ k = leafKey t tag)).
  - f_equiv. split; [intros (t&?&tag&?&?)|intros (t&tag&?&?&?)]; eauto 10.
  - intros set t k'. apply (foldl_add (leafKey t)).
Qed.

(** The key [k] is the leaf key of a type and a tag of the item. *)
Definition item_leaf (item : QueryItem) (k : Z) : Prop :=
  ∃ t tag, t ∈ Types item ∧ tag ∈ tag_values (Item_Tags item) ∧ k = leafKey t tag.

Definition event_leaf (ev : Event) (k : Z) : Prop :=
  ∃ tag, tag ∈ tag_values (Event_Tags ev) ∧ k = leafKey (Type_ ev) tag.

Lemma elem_of_item_leaf item (leaf : gset Z) k :
  k ∈ leaf_keys_of (Types item) (Values (Item_Tags item)) leaf ↔ k ∈ leaf ∨ item_leaf item k.
Proof.
  rewrite elem_of_leaf_keys. unfold pair_key, item_leaf. by setoid_rewrite elem_of_Values.
Qed.

Lemma elem_of_event_leaf ev (leaf : gset Z) k :
  k ∈ foldl (λ leaf tag, {[leafKey (Type_ ev) tag]} ∪ leaf) leaf (Values (Event_Tags ev)) ↔
    k ∈ leaf ∨ event_leaf ev k.
Proof. rewrite foldl_add. unfold event_leaf. by setoid_rewrite elem_of_Values. Qed.

Definition condition_leaf (condition : option AppendCondition) (k : Z) : Prop :=
  ∃ c item, condition = Some c ∧ IsAll (FailIfEventsMatch c) = false ∧
    item ∈ Items (FailIfEventsMatch c) ∧ item_leaf item k.

Lemma elem_of_leafX events condition k :
  k ∈ leafX (computeWriterLockKeys events condition) ↔
    condition_leaf condition k ∨ ∃ ev, ev ∈ events ∧ event_leaf ev k.
Proof.
  unfold computeWriterLockKeys.
  match goal with |- context [foldl _ (?l, ∅) events] => set (leaf0 := l) end.
  rewrite (foldl_pair (λ leaf ev, foldl (λ leaf tag, {[leafKey (Type_ ev) tag]} ∪ leaf) leaf
    (Values (Event_Tags ev))) (λ intent ev, {[typeIntentKey (Type_ ev)]} ∪ intent)).
  cbn [leafX]. rewrite elem_of_keysOf.
  rewrite (foldl_adds _ event_leaf) by (intros; apply elem_of_event_leaf).
  f_equiv. unfold leaf0, condition_leaf. destruct condition as [c|].
  2: { split; [by intros ?%elem_of_empty|by intros (?&?&?&_)]. }
  destruct (IsAll _) eqn:Hall.
  { split; [by intros ?%elem_of_empty|intros (?&?&[= ->]&?&_); congruence]. }
  rewrite (foldl_adds _ item_leaf) by (intros; apply elem_of_item_leaf). split.
  - intros [?%elem_of_empty|(item&?&?)]; [done|]. by exists c, item.
  - intros (?&item&[= ->]&_&?&?). right. by exists item.
Qed.

Lemma elem_of_intentS events condition k :
  k ∈ intentS (computeWriterLockKeys events condition) ↔
    (∃ ev, ev ∈ events ∧ k = typeIntentKey (Type_ ev)) ∨
    (events ≠ [] ∧ k = globalIntentKey).
Proof.
  unfold computeWriterLockKeys.
  match goal with |- context [foldl _ (?l, ∅) events] => set (leaf0 := l) end.
  rewrite (foldl_pair (λ leaf ev, foldl (λ leaf tag, {[leafKey (Type_ ev) tag]} ∪ leaf) leaf
    (Values (Event_Tags ev))) (λ intent ev, {[typeIntentKey (Type_ ev)]} ∪ intent)).
  cbn [intentS]. rewrite elem_of_keysOf. case_decide as Hl.
  - assert (events ≠ []) by (intros ->; cbn in Hl; lia).
    rewrite elem_of_union, elem_of_singleton, (foldl_add (λ ev, typeIntentKey (Type_ ev))).
    rewrite elem_of_empty. tauto.
  - destruct events; [|cbn in Hl; lia]. cbn. rewrite elem_of_empty.
    split; [done|]. by intros [(?&?%elem_of_nil&_)|[? _]].
Qed.

(** A reader's keys per query item: leaf keys if it names tags, type-intent
    keys if it does not. *)
Lemma elem_of_readerKeys query k :
  IsAll query = false →
  (k ∈ leafS (computeReaderLockKeys query) ↔
     ∃ item, item ∈ Items query ∧ item_leaf item k) ∧
  (k ∈ intentX (computeReaderLockKeys query) ↔
     ∃ item, item ∈ Items query ∧ Len (Item_Tags item) = 0%nat ∧
       ∃ t, t ∈ Types item ∧ k = typeIntentKey t).
Proof.
  intros Hall. unfold computeReaderLockKeys. rewrite Hall.
  match goal with |- context [foldl ?body (∅, ∅) (Items query)] => set (step := body) end.
  assert (∀ its (leaf intent : gset Z), foldl step (leaf, intent) its =
    (foldl (λ leaf item, (step (leaf, ∅) item).1) leaf its,
     foldl (λ intent item, (step (∅, intent) item).2) intent its)) as Hpair.
  { induction its as [|item its IH]; intros leaf intent; [done|]. cbn. rewrite <-IH.
    f_equal. by case_decide. }
  rewrite Hpair. cbn [leafS intentX]. rewrite !elem_of_keysOf. split.
  - rewrite (foldl_adds _ item_leaf).
    + split; [by intros [?%elem_of_empty|?]|by right].
    + intros set item k'. cbn. rewrite Values_length. case_decide as Hl; cbn.
      * apply elem_of_item_leaf.
      * split; [by left|]. intros [?|(t&tag&_&Htag&_)]; [done|].
        assert (Len (Item_Tags item) = 0%nat) as Hz by lia.
        unfold Len in Hz. apply size_empty_inv in Hz. unfold_leibniz. by rewrite Hz in Htag; apply elem_of_empty in Htag.
  - rewrite (foldl_adds _ (λ item k, Len (Item_Tags item) = 0%nat ∧
      ∃ t, t ∈ Types item ∧ k = typeIntentKey t)).
    + split; [by intros [?%elem_of_empty|?]|by right].
    + intros set item k'. cbn. rewrite Values_length. case_decide as Hl; cbn.
      * split; [by left|]. intros [?|[? _]]; [done|lia].
      * rewrite (foldl_add typeIntentKey). assert (Len (Item_Tags item) = 0%nat) by lia. tauto.
Qed.

Lemma elem_of_commandKeys commands k :
  (k ∈ leafX (commandKeys commands) ↔ ∃ cmd, cmd ∈ commands ∧
     k ∈ leafX (computeWriterLockKeys (Events cmd) (Condition cmd))) ∧
  (k ∈ intentS (commandKeys commands) ↔ ∃ cmd, cmd ∈ commands ∧
     k ∈ intentS (computeWriterLockKeys (Events cmd) (Condition cmd))).
Proof.
  unfold commandKeys.
  rewrite (foldl_pair
    (λ leaf cmd, foldl (λ leaf k, {[k]} ∪ leaf) leaf
       (leafX (computeWriterLockKeys (Events cmd) (Condition cmd))))
    (λ intent cmd, foldl (λ intent k, {[k]} ∪ intent) intent
       (intentS (computeWriterLockKeys (Events cmd) (Condition cmd))))).
  cbn [leafX intentS]. rewrite !elem_of_keysOf. split.
  - rewrite (foldl_adds _ (λ cmd k, k ∈ leafX (computeWriterLockKeys (Events cmd) (Condition cmd)))).
    + split; [by intros [?%elem_of_empty|?]|by right].
    + intros set cmd k'. rewrite (foldl_add id). unfold id. naive_solver.
  - rewrite (foldl_adds _ (λ cmd k, k ∈ intentS (computeWriterLockKeys (Events cmd) (Condition cmd)))).
    + split; [by intros [?%elem_of_empty|?]|by right].
    + intros set cmd k'. rewrite (foldl_add id). unfold id. naive_solver.
Qed.

Lemma leafX_commandKeys commands k :
  k ∈ leafX (commandKeys commands) ↔
    (∃ cmd, cmd ∈ commands ∧ condition_leaf (Condition cmd) k) ∨
    (∃ ev, ev ∈ all_events commands ∧ event_leaf ev k).
Proof.
  destruct (elem_of_commandKeys commands k) as [-> _]. setoid_rewrite elem_of_leafX.
  setoid_rewrite elem_of_all_events. split.
  - intros (cmd&?&[?|(ev&?&?)]); [left; by exists cmd|right; exists ev; eauto].
  - intros [(cmd&?&?)|(ev&(cmd&?&?)&?)]; exists cmd; eauto.
Qed.

Lemma intentS_commandKeys commands k :
  k ∈ intentS (commandKeys commands) ↔
    ∃ ev, ev ∈ all_events commands ∧ (k = typeIntentKey (Type_ ev) ∨ k = globalIntentKey).
Proof.
  destruct (elem_of_commandKeys commands k) as [_ ->]. setoid_rewrite elem_of_intentS.
  setoid_rewrite elem_of_all_events. split.
  - intros (cmd&?&[(ev&?&?)|[Hne ?]]); [exists ev; eauto|].
    destruct (Events cmd) as [|ev l] eqn:E; [done|]. exists ev. split; [|by right].
    exists cmd. split; [done|]. rewrite E. by left.
  - intros (ev&(cmd&?&Hev)&[?|?]); exists cmd; split; [done| |done|].
    + left. eauto.
    + right. split; [|done]. intros E. rewrite E in Hev. by apply elem_of_nil in Hev.
Qed.

(** ** Conflicts

    Two key sets conflict when they hold a key in modes of which one is
    exclusive. *)

Definition conflicting (excl shared excl' shared' : list Z) : Prop :=
  ∃ k, k ∈ excl ∧ (k ∈ excl' ∨ k ∈ shared') ∨ k ∈ shared ∧ k ∈ excl'.

Definition writers_conflict (w w' : writerLockKeys) : Prop :=
  conflicting (leafX w) (intentS w) (leafX w') (intentS w').

Definition barrier_conflict (w : writerLockKeys) (r : readerLockKeys) : Prop :=
  conflicting (leafX w) (intentS w) (intentX r) (leafS r).

(** An event that a read of [q] can return: its type is one of an item's
    types, and it has one of the item's tags if the item names any. *)
Definition item_reaches (item : QueryItem) (ev : Event) : Prop :=
  Type_ ev ∈ Types item ∧
  (Len (Item_Tags item) = 0%nat ∨
   ∃ tag, tag ∈ tag_values (Item_Tags item) ∧ tag ∈ tag_values (Event_Tags ev)).

Definition query_reaches (q : Query) (ev : Event) : Prop :=
  IsAll q = true ∨ ∃ item, item ∈ Items q ∧ item_reaches item ev.

(** What a read can return includes every event that matches. *)
Lemma matches_reaches q ev : event_matches q ev → query_reaches q ev.
Proof.
  intros [?|(item&?&Ht&Hs)]; [by left|right]. exists item. split; [done|]. split; [done|].
  destruct (set_choose_or_empty (tag_values (Item_Tags item))) as [[tag ?]|He].
  - right. exists tag. split; [done|by apply Hs].
  - left. unfold Len. by apply size_empty_iff.
Qed.

Lemma event_leaf_commandKeys commands ev tag :
  ev ∈ all_events commands → tag ∈ tag_values (Event_Tags ev) →
  leafKey (Type_ ev) tag ∈ leafX (commandKeys commands).
Proof. intros. apply leafX_commandKeys. right. exists ev. split; [done|]. by exists tag. Qed.

Lemma event_intent_commandKeys commands ev :
  ev ∈ all_events commands →
  typeIntentKey (Type_ ev) ∈ intentS (commandKeys commands) ∧
  globalIntentKey ∈ intentS (commandKeys commands).
Proof. intros. split; apply intentS_commandKeys; eauto. Qed.

Lemma reaches_barrier_conflict commands q ev :
  ev ∈ all_events commands → query_reaches q ev →
  barrier_conflict (commandKeys commands) (computeReaderLockKeys q).
Proof.
  intros Hev Hq. destruct (event_intent_commandKeys commands ev Hev) as [Htype Hglobal].
  unfold barrier_conflict, conflicting. destruct (IsAll q) eqn:Hall.
  { exists globalIntentKey. right. split; [done|]. unfold computeReaderLockKeys.
    rewrite Hall. by apply list_elem_of_singleton. }
  destruct Hq as [?|(item&Hitem&Ht&[Hlen|(tag&Htag&Hevtag)])]; [congruence| |].
  - exists (typeIntentKey (Type_ ev)). right. split; [done|].
    apply (proj2 (elem_of_readerKeys q _ Hall)). exists item. eauto.
  - exists (leafKey (Type_ ev) tag). left. split; [by apply event_leaf_commandKeys|]. right.
    apply (proj1 (elem_of_readerKeys q _ Hall)). exists item. split; [done|].
    by exists (Type_ ev), tag.
Qed.

(** A writer whose event matches a condition of another writer shares an
    exclusive key with it. *)
Lemma matches_writers_share commands commands' ev cmd c :
  ev ∈ all_events commands → cmd ∈ commands' → Condition cmd = Some c →
  condition_valid c → event_matches (FailIfEventsMatch c) ev →
  ∃ k, k ∈ leafX (commandKeys commands) ∧ k ∈ leafX (commandKeys commands').
Proof.
  intros Hev Hcmd Hc [Hall Hscoped] [?|(item&Hitem&Ht&Hsub)]; [congruence|].
  rewrite Forall_forall in Hscoped.
  destruct (proj1 (item_scoped_alt item) (Hscoped item Hitem)) as [_ [tag Htag]].
  exists (leafKey (Type_ ev) tag). split.
  - apply event_leaf_commandKeys; [done|by apply Hsub].
  - apply leafX_commandKeys. left. exists cmd. split; [done|]. exists c, item.
    split_and!; [done..|]. by exists (Type_ ev), tag.
Qed.

(** ** Namespaces *)

Lemma hashKey_int64 s : in_i64 (hashKey s).
Proof. apply i64_range. Qed.

(** A type that contains no separator: the leaf string determines the pair. *)
Lemma string_app_split c (s s' t t' : string) :
  has_byte c s = false → has_byte c s' = false →
  s +:+ String c t = s' +:+ String c t' → s = s' ∧ t = t'.
Proof.
  revert s'. induction s as [|a s IH]; intros [|a' s']; cbn [has_byte].
  - intros _ _ [=]. done.
  - intros _ Hs' [= E]. subst. by rewrite bool_decide_eq_true_2 in Hs'.
  - intros Hs _ [= E]. subst. by rewrite bool_decide_eq_true_2 in Hs.
  - rewrite !string_app_cons, !orb_false_iff. intros [_ ?] [_ ?] [= ->].
    destruct (IH s') as [-> ->]; done.
Qed.

Lemma string_app_inj (p s t : string) : p +:+ s = p +:+ t → s = t.
Proof. induction p as [|c p IH]; [done|]. rewrite !string_app_cons. intros [=]. auto. Qed.

Lemma leaf_string_inj t tag t' tag' :
  has_byte "|" t = false → has_byte "|" t' = false →
  leaf_string t tag = leaf_string t' tag' → t = t' ∧ tag = tag'.
Proof.
  unfold leaf_string. intros Ht Ht' E%(string_app_inj "L:").
  by apply (string_app_split "|" t t' tag tag').
Qed.

(** The three namespaces are disjoint before hashing. *)
Lemma namespaces_disjoint t tag t' :
  leaf_string t tag ≠ type_string t' ∧ leaf_string t tag ≠ global_string ∧
  type_string t ≠ global_string.
Proof. split_and!; by intros [=]. Qed.

(** The scopes of a writer: a type and tag pair of an event or of a
    condition, and the types of its events. *)
Definition writer_pair (commands : list AppendCommand) (t tag : string) : Prop :=
  (∃ ev, ev ∈ all_events commands ∧ Type_ ev = t ∧ tag ∈ tag_values (Event_Tags ev)) ∨
  (∃ cmd c item, cmd ∈ commands ∧ Condition cmd = Some c ∧
     item ∈ Items (FailIfEventsMatch c) ∧ t ∈ Types item ∧ tag ∈ tag_values (Item_Tags item)).

Lemma leafX_pair commands k :
  k ∈ leafX (commandKeys commands) → ∃ t tag, writer_pair commands t tag ∧ k = leafKey t tag.
Proof.
  rewrite leafX_commandKeys.
  intros [(cmd&?&c&item&?&?&?&t&tag&?&?&->)|(ev&?&tag&?&->)].
  - exists t, tag. split; [|done]. right. by exists cmd, c, item.
  - exists (Type_ ev), tag. split; [|done]. left. by exists ev.
Qed.

(** The strings that are hashed for a writer and for a reader. *)
Inductive hashed (commands : list AppendCommand) (q : Query) : string → Prop :=
  | hashed_pair t tag : writer_pair commands t tag → hashed commands q (leaf_string t tag)
  | hashed_type ev : ev ∈ all_events commands → hashed commands q (type_string (Type_ ev))
  | hashed_global : hashed commands q global_string
  | hashed_query_pair item t tag : item ∈ Items q → t ∈ Types item →
      tag ∈ tag_values (Item_Tags item) → hashed commands q (leaf_string t tag)
  | hashed_query_type item t : item ∈ Items q → t ∈ Types item →
      hashed commands q (type_string t).

(** None of them collide. *)
Definition no_collisions (commands : list AppendCommand) (q : Query) : Prop :=
  ∀ s s', hashed commands q s → hashed commands q s' → hashKey s = hashKey s' → s = s'.

Section barrier_precision.
Context (commands : list AppendCommand) (q : Query).
Hypothesis Hall : IsAll q = false.
Hypothesis Hcol : no_collisions commands q.

(** The two ways in which they share a type. *)
Definition share_scope : Prop :=
  ∃ item t, item ∈ Items q ∧ t ∈ Types item ∧
    ((∃ tag, tag ∈ tag_values (Item_Tags item) ∧ writer_pair commands t tag) ∨
     Len (Item_Tags item) = 0%nat ∧ ∃ ev, ev ∈ all_events commands ∧ Type_ ev = t).

Lemma shared_leaf k :
  (∀ t tag, writer_pair commands t tag → has_byte "|" t = false) →
  (∀ item t, item ∈ Items q → t ∈ Types item → has_byte "|" t = false) →
  k ∈ leafX (commandKeys commands) → k ∈ leafS (computeReaderLockKeys q) → share_scope.
Proof.
  intros Hw Hq (t&tag&Hp&->)%leafX_pair.
  intros (item&Hitem&t'&tag'&Ht'&Htag'&E)%(proj1 (elem_of_readerKeys q _ Hall)).
  apply Hcol in E; [|by constructor|by eapply hashed_query_pair].
  apply leaf_string_inj in E as [-> ->]; [|by eapply Hw|by eapply Hq].
  exists item, t'. eauto 10.
Qed.

Lemma leaf_not_intent k :
  k ∈ leafX (commandKeys commands) → k ∈ intentX (computeReaderLockKeys q) → False.
Proof.
  intros (t&tag&Hp&->)%leafX_pair.
  intros (item&Hitem&_&t'&Ht'&E)%(proj2 (elem_of_readerKeys q _ Hall)).
  apply Hcol in E; [|by constructor|by eapply hashed_query_type].
  by eapply (proj1 (namespaces_disjoint t tag t')).
Qed.

Lemma shared_intent k :
  k ∈ intentS (commandKeys commands) → k ∈ intentX (computeReaderLockKeys q) → share_scope.
Proof.
  intros (ev&Hev&Hk)%intentS_commandKeys.
  intros (item&Hitem&Hlen&t'&Ht'&->)%(proj2 (elem_of_readerKeys q _ Hall)).
  destruct Hk as [E|E].
  - apply Hcol in E; [|by eapply hashed_query_type|by constructor].
    apply (string_app_inj "T:") in E as ->. exists item, (Type_ ev). eauto 10.
  - apply Hcol in E; [|by eapply hashed_query_type|by constructor].
    by apply (proj2 (proj2 (namespaces_disjoint t' t' t'))) in E.
Qed.
End barrier_precision.


(** C29: two appends that matter to each other never run side by side: if an
    event of one matches a valid condition of the other, both ask for a common
    leaf key in exclusive mode, whatever the hash does. *)
Theorem writers_exclude commands commands' ev cmd c :
  ev ∈ all_events commands → cmd ∈ commands' → Condition cmd = Some c →
  condition_valid c → event_matches (FailIfEventsMatch c) ev →
  (∃ k, k ∈ leafX (commandKeys commands) ∧ k ∈ leafX (commandKeys commands')) ∧
  writers_conflict (commandKeys commands) (commandKeys commands') ∧
  Forall in_i64 (leafX (commandKeys commands)).
Proof.
  intros Hev Hcmd Hc Hv Hm.
  destruct (matches_writers_share commands commands' ev cmd c Hev Hcmd Hc Hv Hm) as (k&?&?).
  split_and!.
  - by exists k.
  - exists k. left. split; [done|by left].
  - apply Forall_forall. intros k' (t&tag&_&->)%leafX_pair. apply hashKey_int64.
Qed.

(** ** Witnesses *)

Definition lk_tags (l : list string) : Tags := mkTags (list_to_set l).
Definition lk_event : Event := mkEvent "Enrolled" (lk_tags ["course:1"; "student:2"]) None None.
Definition lk_query : Query := mkQuery [mkItem ["Enrolled"] (lk_tags ["course:1"])] false.
Definition lk_cond : AppendCondition := mkCondition lk_query None.

Lemma writers_exclude_witness :
  event_matches (FailIfEventsMatch lk_cond) lk_event ∧
  ∃ k, k ∈ leafX (commandKeys [mkCommand [lk_event] None]) ∧
       k ∈ leafX (commandKeys [mkCommand [] (Some lk_cond)]).
Proof.
  assert (event_matches (FailIfEventsMatch lk_cond) lk_event) as Hm
    by (apply matchesQuery_true; vm_compute; reflexivity).
  split; [exact Hm|].
  refine (proj1 (writers_exclude [mkCommand [lk_event] None] [mkCommand [] (Some lk_cond)]
    lk_event (mkCommand [] (Some lk_cond)) lk_cond _ _ _ _ Hm)).
  - change (lk_event ∈ [lk_event]). apply list_elem_of_singleton. reflexivity.
  - apply list_elem_of_singleton. reflexivity.
  - reflexivity.
  - apply (bool_decide_unpack _). vm_compute. exact I.
Defined.

Definition lk_other : Query := mkQuery [mkItem ["Enrolled"] (lk_tags ["course:2"])] false.

Lemma lk_writer_pair t tag :
  writer_pair [mkCommand [lk_event] None] t tag →
  t = "Enrolled" ∧ (tag = "course:1" ∨ tag = "student:2").
Proof.
  intros [(ev&Hev&<-&Htag)|(cmd&c&item&Hcmd&Hc&_)].
  - change (ev ∈ [lk_event]) in Hev. apply list_elem_of_singleton in Hev as ->.
    split; [done|]. cbn in Htag. set_solver.
  - apply list_elem_of_singleton in Hcmd as ->. done.
Qed.

Lemma lk_other_item item t tag :
  item ∈ Items lk_other → t ∈ Types item →
  t = "Enrolled" ∧ Len (Item_Tags item) = 1%nat ∧
  (tag ∈ tag_values (Item_Tags item) → tag = "course:2").
Proof.
  intros ->%list_elem_of_singleton ->%list_elem_of_singleton. split_and!; [done|done|].
  cbn. set_solver.
Qed.

Definition lk_strings : list string :=
  ["L:Enrolled|course:1"; "L:Enrolled|student:2"; "L:Enrolled|course:2"; "T:Enrolled"; "G"].

Lemma lk_hashed s : hashed [mkCommand [lk_event] None] lk_other s → s ∈ lk_strings.
Proof.
  destruct 1 as [t tag [-> [->| ->]]%lk_writer_pair|ev Hev| |item t tag Hi Ht Htag|item t Hi Ht].
  - by left.
  - by right; left.
  - change (ev ∈ [lk_event]) in Hev. apply list_elem_of_singleton in Hev as ->.
    by do 3 right; left.
  - by do 4 right; left.
  - destruct (lk_other_item item t tag Hi Ht) as (->&_&E). rewrite (E Htag).
    by do 2 right; left.
  - destruct (lk_other_item item t EmptyString Hi Ht) as (->&_&_). by do 3 right; left.
Qed.

Lemma lk_no_collisions : no_collisions [mkCommand [lk_event] None] lk_other.
Proof.
  intros s s' Hs%lk_hashed Hs'%lk_hashed.
  assert (Forall (λ s, Forall (λ s', hashKey s = hashKey s' → s = s') lk_strings) lk_strings)
    as HF by (apply (bool_decide_unpack _); vm_compute; exact I).
  rewrite Forall_forall in HF. specialize (HF s Hs). rewrite Forall_forall in HF. by apply HF.
Qed.

