(* ===== verification/Serialize.v ===== *)
(** * Serialize

    The data that crosses between the Go code of [src/postgres] and the
    database: positions as [bigint] ([position.go]), events and conditions as
    parallel arrays with tags packed into one text ([serialize.go]), the
    unpacking by [string_to_array] inside the stored procedures ([store.go]),
    and the condition violation carried by an error message ([append.go]). *)

From S2P Require Import Prelude.
From S2P Require Import GoStrconv.
From S2P Require Import GoStrings.
From S2P Require Import SequencePosition.
From S2P Require Import Tags.
From S2P Require Import EventStore.
From S2P Require Import StoreSpec.

Local Open Scope Z_scope.

(** ** Positions as [bigint] *)

Definition positionToInt64 (pos : SequencePosition) : outcome store_error Z :=
  match ParseInt (Position_String pos) with
  | Ok n => Ok n
  | _ => Panic ("postgres: impossible non-numeric position " +:+ Position_String pos)
  end.

Definition int64ToPosition (n : Z) : outcome store_error SequencePosition :=
  match ParseSequencePosition (FormatInt n) with
  | Ok pos => Ok pos
  | _ => Panic ("postgres: impossible invalid position " +:+ FormatInt n)
  end.

(** ** Packing and unpacking tags *)

Definition delimiter : ascii := "031".
Definition tagDelimiter : string := String delimiter EmptyString.

(** The fields of a text between the occurrences of [d]. *)
Fixpoint split_on (d : ascii) (s : string) : list string :=
  match s with
  | EmptyString => [EmptyString]
  | String c s =>
      if decide (c = d) then EmptyString :: split_on d s
      else match split_on d s with
           | w :: ws => String c w :: ws
           | [] => [String c EmptyString]
           end
  end.

(** SQL's [string_to_array(s, d)] for a delimiter of one character: the empty
    text gives the empty array. *)
Definition string_to_array (s : string) (d : ascii) : list string :=
  if decide (s = EmptyString) then [] else split_on d s.

(** ** Events *)

Definition null_json : string := "null".
Definition quote : string := String "034" EmptyString.

Definition serializePayload (ev : Event) : string :=
  let data := default null_json (Data ev) in
  let metadata := default null_json (Metadata ev) in
  "{" +:+ quote +:+ "data" +:+ quote +:+ ":" +:+ data +:+ "," +:+
    quote +:+ "metadata" +:+ quote +:+ ":" +:+ metadata +:+ "}".

(** The three result slices of [serializeEvents]. *)
Record eventArrays := mkEventArrays {
  ea_types : list string;
  ea_tags : list string;
  ea_payloads : list string;
}.

Definition push_event (a : eventArrays) (ev : Event) : eventArrays :=
  mkEventArrays (ea_types a ++ [Type_ ev])
    (ea_tags a ++ [Join (Values (Event_Tags ev)) tagDelimiter])
    (ea_payloads a ++ [serializePayload ev]).

Definition serializeEvents (commands : list AppendCommand) : eventArrays :=
  foldl (λ a cmd, foldl push_event a (Events cmd)) (mkEventArrays [] [] []) commands.

(** ** Conditions *)

(** Conversion to [int32]. *)
Definition i32 (z : Z) : Z :=
  let u := z `mod` 4294967296 in
  if decide (u < 2147483648) then u else u - 4294967296.

(** The four result slices of [serializeConditions]. *)
Record condArrays := mkCondArrays {
  ca_idxs : list Z;
  ca_types : list string;
  ca_tags : list string;
  ca_after : list Z;
}.

Definition push_cond (i : nat) (tags : Tags) (afterPos : Z) (a : condArrays) (t : string) :
    condArrays :=
  mkCondArrays (ca_idxs a ++ [i32 (Z.of_nat i)]) (ca_types a ++ [t])
    (ca_tags a ++ [Join (Values tags) tagDelimiter]) (ca_after a ++ [afterPos]).

Definition condition_after (c : AppendCondition) : outcome store_error Z :=
  match After c with
  | Some p => positionToInt64 p
  | None => Ok 0
  end.

(** The outer loop, from command [i] on. *)
Fixpoint serialize_from (i : nat) (commands : list AppendCommand) (a : condArrays) :
    outcome store_error condArrays :=
  match commands with
  | [] => Ok a
  | cmd :: commands =>
      match Condition cmd with
      | None => serialize_from (S i) commands a
      | Some c =>
          condition_after c ≫= λ afterPos,
          serialize_from (S i) commands
            (foldl (λ a item, foldl (push_cond i (Item_Tags item) afterPos) a (Types item))
               a (Items (FailIfEventsMatch c)))
      end
  end.

Definition serializeConditions (commands : list AppendCommand) :
    outcome store_error condArrays :=
  serialize_from 0 commands (mkCondArrays [] [] [] []).

(** ** Condition violations *)

(** The errors of a database call, as far as [errors.As] tells them apart: an
    error reported by the server, with its message, or any other. *)
Inductive db_error :=
  | PgError (msg : string)
  | OtherError (msg : string).

Definition violation_prefix : string := "APPEND_CONDITION_VIOLATED:cmd=".

Definition parseConditionViolation (err : db_error) : option Z :=
  match err with
  | OtherError _ => None
  | PgError msg =>
      if HasPrefix msg violation_prefix then
        match Atoi (TrimPrefix msg violation_prefix) with
        | Ok idx => Some idx
        | _ => None
        end
      else None
  end.

(** Indexing [commands[idx]] and dereferencing its condition both panic when
    they fail. *)
Definition conditionError (commands : list AppendCommand) (idx : Z) :
    outcome store_error SequencePosition :=
  let commandIndex := if decide (1 < Z.of_nat (length commands)) then Some idx else None in
  if decide (0 ≤ idx) then
    match commands !! Z.to_nat idx with
    | Some cmd =>
        match Condition cmd with
        | Some c => Err (EAppendCondition (mkConditionError c commandIndex))
        | None => Panic "nil pointer dereference"
        end
    | None => Panic "index out of range"
    end
  else Panic "index out of range".

(** ** Lemmas *)

Lemma positionToInt64_wf pos : pos_wf pos →
  positionToInt64 pos =
    if decide (value pos < two63) then Ok (value pos)
    else Panic ("postgres: impossible non-numeric position " +:+ Position_String pos).
Proof.
  intros Hwf. unfold positionToInt64, Position_String.
  rewrite ParseInt_FormatUint by done. by case_decide.
Qed.

Lemma int64ToPosition_nonneg n : 0 ≤ n < two63 → int64ToPosition n = Ok (mkPosition n).
Proof.
  intros Hn. unfold int64ToPosition, FormatInt. rewrite decide_False by lia.
  rewrite Parse_FormatUint; [done|]. unfold in_u64, two63, two64 in *. lia.
Qed.

Lemma int64ToPosition_neg n : n < 0 →
  int64ToPosition n = Panic ("postgres: impossible invalid position " +:+ FormatInt n).
Proof.
  intros Hn. unfold int64ToPosition, ParseSequencePosition.
  by destruct (ParseUint_FormatInt_neg n Hn) as [e ->].
Qed.

Lemma split_on_cons d s : ∃ w ws, split_on d s = w :: ws.
Proof.
  induction s as [|c s (w&ws&IH)]; cbn; [by eexists _, _|].
  case_decide; [by eexists _, _|]. rewrite IH. by eexists _, _.
Qed.

(** Splitting at the delimiter after a piece without one. *)
Lemma split_on_app d p s : has_byte d p = false →
  split_on d (p +:+ String d s) = p :: split_on d s.
Proof.
  induction p as [|c p IH]; cbn [has_byte].
  - intros _. change (EmptyString +:+ String d s) with (String d s). cbn.
    by rewrite decide_True.
  - rewrite orb_false_iff, bool_decide_eq_false, string_app_cons. intros [Hc Hp]. cbn.
    by rewrite decide_False, IH.
Qed.

Lemma split_on_none d p : has_byte d p = false → split_on d p = [p].
Proof.
  induction p as [|c p IH]; cbn [has_byte]; [done|].
  rewrite orb_false_iff, bool_decide_eq_false. intros [Hc Hp]. cbn.
  by rewrite decide_False, IH.
Qed.

Lemma split_on_Join d l : l ≠ [] → Forall (λ s, has_byte d s = false) l →
  split_on d (Join l (String d EmptyString)) = l.
Proof.
  intros Hne Hl. induction Hl as [|s l Hs Hl IH]; [done|].
  destruct l as [|s' l]; [by apply split_on_none|].
  change (Join (s :: s' :: l) (String d EmptyString)) with
    (s +:+ String d (Join (s' :: l) (String d EmptyString))).
  rewrite split_on_app by done. by rewrite IH.
Qed.

Lemma Join_empty l d : Forall (λ s, s ≠ EmptyString) l →
  Join l (String d EmptyString) = EmptyString → l = [].
Proof.
  destruct 1 as [|s l Hs _]; [done|]. destruct l as [|s' l]; [done|].
  destruct s; [done|]. cbn [Join]. by rewrite string_app_cons.
Qed.

(** A tag that survives packing. *)
Definition tag_clean (tag : string) : Prop :=
  tag ≠ EmptyString ∧ has_byte delimiter tag = false.

Definition tags_clean (t : Tags) : Prop := ∀ tag, tag ∈ tag_values t → tag_clean tag.

#[export] Instance tag_clean_dec tag : Decision (tag_clean tag).
Proof. unfold tag_clean. apply _. Defined.

Lemma string_to_array_Join l : Forall tag_clean l →
  string_to_array (Join l tagDelimiter) delimiter = l.
Proof.
  intros Hl. unfold string_to_array. case_decide as He.
  - apply Join_empty in He; [done|]. eapply Forall_impl; [done|]. by intros ? [? _].
  - apply split_on_Join; [by intros ->|]. eapply Forall_impl; [done|]. by intros ? [_ ?].
Qed.

Lemma string_to_array_Values t : tags_clean t →
  string_to_array (Join (Values t) tagDelimiter) delimiter = Values t.
Proof.
  intros Ht. apply string_to_array_Join, Forall_forall.
  intros tag Htag%elem_of_Values. by apply Ht.
Qed.

(** ** What the arrays hold *)

Lemma foldl_push_event l a :
  foldl push_event a l =
    mkEventArrays (ea_types a ++ (Type_ <$> l))
      (ea_tags a ++ ((λ ev, Join (Values (Event_Tags ev)) tagDelimiter) <$> l))
      (ea_payloads a ++ (serializePayload <$> l)).
Proof.
  revert a. induction l as [|ev l IH]; intros a; cbn; [by rewrite !app_nil_r; destruct a|].
  rewrite IH. unfold push_event. cbn. by rewrite <-!(assoc_L (++)).
Qed.

Lemma serializeEvents_all commands :
  serializeEvents commands =
    mkEventArrays (Type_ <$> all_events commands)
      ((λ ev, Join (Values (Event_Tags ev)) tagDelimiter) <$> all_events commands)
      (serializePayload <$> all_events commands).
Proof.
  unfold serializeEvents, all_events.
  assert (∀ a, foldl (λ a cmd, foldl push_event a (Events cmd)) a commands =
    foldl push_event a (mjoin (Events <$> commands))) as Hjoin.
  { induction commands as [|cmd l IH]; intros a; [done|]. cbn.
    by rewrite IH, foldl_app. }
  by rewrite Hjoin, foldl_push_event.
Qed.

(** One row of the condition arrays. *)
Record condRow := mkCondRow {
  cr_idx : Z;
  cr_type : string;
  cr_tags : string;
  cr_after : Z;
}.

Definition arrays_of (rows : list condRow) : condArrays :=
  mkCondArrays (cr_idx <$> rows) (cr_type <$> rows) (cr_tags <$> rows) (cr_after <$> rows).

Definition item_rows (i : nat) (afterPos : Z) (item : QueryItem) : list condRow :=
  (λ t, mkCondRow (i32 (Z.of_nat i)) t (Join (Values (Item_Tags item)) tagDelimiter) afterPos)
    <$> Types item.

Definition condition_rows (i : nat) (c : AppendCondition) : list condRow :=
  mjoin (item_rows i (match After c with Some p => value p | None => 0 end)
    <$> Items (FailIfEventsMatch c)).

Definition command_rows (i : nat) (cmd : AppendCommand) : list condRow :=
  match Condition cmd with Some c => condition_rows i c | None => [] end.

Fixpoint rows_from (i : nat) (commands : list AppendCommand) : list condRow :=
  match commands with
  | [] => []
  | cmd :: commands => command_rows i cmd ++ rows_from (S i) commands
  end.

(** Commands whose conditions have no bound beyond [int64]. *)
Definition after_fits (cmd : AppendCommand) : Prop :=
  ∀ c p, Condition cmd = Some c → After c = Some p → 0 ≤ value p < two63.

Lemma condition_after_fits cmd c : after_fits cmd → Condition cmd = Some c →
  condition_after c = Ok (match After c with Some p => value p | None => 0 end).
Proof.
  intros Hfit Hc. unfold condition_after. destruct (After c) as [p|] eqn:Hp; [|done].
  specialize (Hfit c p Hc Hp). rewrite positionToInt64_wf.
  - by rewrite decide_True by lia.
  - unfold pos_wf, in_u64, two63, two64 in *. lia.
Qed.

Lemma foldl_push_cond i tags afterPos types rows :
  foldl (push_cond i tags afterPos) (arrays_of rows) types =
    arrays_of (rows ++
      ((λ t, mkCondRow (i32 (Z.of_nat i)) t (Join (Values tags) tagDelimiter) afterPos) <$> types)).
Proof.
  revert rows. induction types as [|t types IH]; intros rows; cbn; [by rewrite app_nil_r|].
  assert (push_cond i tags afterPos (arrays_of rows) t =
    arrays_of (rows ++ [mkCondRow (i32 (Z.of_nat i)) t (Join (Values tags) tagDelimiter) afterPos]))
    as -> by (unfold push_cond, arrays_of; cbn; by rewrite !fmap_app).
  by rewrite IH, <-(assoc_L (++)).
Qed.

Lemma foldl_items i afterPos its rows :
  foldl (λ a item, foldl (push_cond i (Item_Tags item) afterPos) a (Types item))
    (arrays_of rows) its = arrays_of (rows ++ mjoin (item_rows i afterPos <$> its)).
Proof.
  revert rows. induction its as [|item its IH]; intros rows; cbn; [by rewrite app_nil_r|].
  rewrite foldl_push_cond, IH, <-(assoc_L (++)). done.
Qed.

Lemma serialize_from_rows i commands rows : Forall after_fits commands →
  serialize_from i commands (arrays_of rows) = Ok (arrays_of (rows ++ rows_from i commands)).
Proof.
  intros Hfit. revert i rows. induction Hfit as [|cmd commands Hcmd _ IH]; intros i rows; cbn.
  { by rewrite app_nil_r. }
  unfold command_rows. destruct (Condition cmd) as [c|] eqn:Hc; [|apply IH].
  rewrite (condition_after_fits cmd c) by done. cbn.
  rewrite foldl_items, IH, <-(assoc_L (++)). done.
Qed.

Lemma serializeConditions_rows commands : Forall after_fits commands →
  serializeConditions commands = Ok (arrays_of (rows_from 0 commands)).
Proof. apply (serialize_from_rows 0 commands []). Qed.

(** A row of the arrays is a type of an item of a command's condition. *)
Lemma elem_of_rows_from i commands row :
  row ∈ rows_from i commands ↔
    ∃ j cmd c item t, commands !! j = Some cmd ∧ Condition cmd = Some c ∧
      item ∈ Items (FailIfEventsMatch c) ∧ t ∈ Types item ∧
      row = mkCondRow (i32 (Z.of_nat (i + j))) t (Join (Values (Item_Tags item)) tagDelimiter)
              (match After c with Some p => value p | None => 0 end).
Proof.
  revert i. induction commands as [|cmd commands IH]; intros i; cbn [rows_from].
  { split; [by intros ?%elem_of_nil|]. by intros (?&?&?&?&?&?&_). }
  rewrite elem_of_app, IH. split.
  - intros [Hrow|(j&cmd'&c&item&t&?&?&?&?&->)].
    + unfold command_rows in Hrow. destruct (Condition cmd) as [c|] eqn:Hc; [|by apply elem_of_nil in Hrow].
      apply list_elem_of_join in Hrow as (l&Hrow&(item&->&?)%list_elem_of_fmap).
      apply list_elem_of_fmap in Hrow as (t&->&?).
      exists 0%nat, cmd, c, item, t. by rewrite Nat.add_0_r.
    + exists (S j), cmd', c, item, t. by rewrite Nat.add_succ_r.
  - intros ([|j]&cmd'&c&item&t&Hj&Hc&?&?&->).
    + left. injection Hj as ->. unfold command_rows. rewrite Hc.
      apply list_elem_of_join. eexists. split; [|by apply list_elem_of_fmap; exists item].
      apply list_elem_of_fmap. exists t. by rewrite Nat.add_0_r.
    + right. exists j, cmd', c, item, t. by rewrite Nat.add_succ_r in *.
Qed.

Lemma i32_small z : 0 ≤ z < 2147483648 → i32 z = z.
Proof. intros. unfold i32. rewrite Z.mod_small by lia. by rewrite decide_True by lia. Qed.

(** The message that the stored procedure raises. *)
Definition violation_message (idx : Z) : string := violation_prefix +:+ FormatInt idx.

Lemma parseConditionViolation_message idx : in_i64 idx →
  parseConditionViolation (PgError (violation_message idx)) = Some idx.
Proof.
  intros Hidx. unfold parseConditionViolation, violation_message, Atoi.
  by rewrite HasPrefix_app, TrimPrefix_app, ParseInt_FormatInt.
Qed.

Lemma conditionError_ok commands i cmd c :
  commands !! i = Some cmd → Condition cmd = Some c →
  conditionError commands (Z.of_nat i) = Err (violation_error commands i c).
Proof.
  intros Hi Hc. unfold conditionError, violation_error, command_index.
  rewrite decide_True by lia. rewrite Nat2Z.id, Hi, Hc.
  repeat case_decide; try done; lia.
Qed.

Lemma split_on_no_delim d s : Forall (λ w, has_byte d w = false) (split_on d s).
Proof.
  induction s as [|c s IH]; cbn; [by repeat constructor|].
  case_decide as Hc; [by constructor|].
  destruct (split_on d s) as [|w ws].
  - repeat constructor. cbn. by rewrite bool_decide_eq_false_2.
  - apply Forall_cons in IH as [? ?]. constructor; [|done]. cbn.
    by rewrite bool_decide_eq_false_2.
Qed.

Lemma string_to_array_no_delim d s : Forall (λ w, has_byte d w = false) (string_to_array s d).
Proof. unfold string_to_array. case_decide; [done|apply split_on_no_delim]. Qed.

Lemma token_not_empty v : isValidTagToken v = true → v ≠ EmptyString.
Proof. unfold isValidTagToken. by case_decide. Qed.

Definition no_delimiter (t : Tags) : Prop :=
  ∀ tag, tag ∈ tag_values t → has_byte delimiter tag = false.

(** Packing tags into one text and unpacking them loses nothing exactly when no
    tag contains the delimiter. *)
Lemma string_to_array_packed t : tags_wf t →
  string_to_array (Join (Values t) tagDelimiter) delimiter = Values t ↔ no_delimiter t.
Proof.
  intros Hwf. split.
  - intros E tag Htag%elem_of_Values. rewrite <-E in Htag.
    pose proof (string_to_array_no_delim delimiter (Join (Values t) tagDelimiter)) as HF.
    rewrite Forall_forall in HF. by apply HF.
  - intros Hd. apply string_to_array_Values. intros tag Htag.
    split; [by apply token_not_empty, Hwf|by apply Hd].
Qed.

(** ** Properties *)

(** Positions and [bigint]s correspond: a position converts exactly when
    its value is below [2^63], a [bigint] exactly when it is not negative, and
    the two conversions are then inverse to each other; otherwise they panic.
    [ParseSequencePosition] does admit positions on which [positionToInt64]
    panics. *)
Theorem position_bigint_roundtrip pos n :
  pos_wf pos → in_i64 n →
  (is_Ok (positionToInt64 pos) ↔ value pos < two63) ∧
  (positionToInt64 pos = Ok n ↔ int64ToPosition n = Ok pos) ∧
  (is_Ok (int64ToPosition n) ↔ 0 ≤ n) ∧
  (∃ large, ParseSequencePosition "9223372036854775808" = Ok large ∧
     ∃ msg, positionToInt64 large = Panic msg).
Proof.
  intros Hwf [Hl Hu]. rewrite positionToInt64_wf by done. split_and!.
  - case_decide; [by split; [|eexists]|]. split; [by intros [??]|done].
  - destruct (decide (0 ≤ n)).
    + rewrite int64ToPosition_nonneg by lia. destruct pos as [v]. cbn. case_decide.
      * split; intros [= ->]; done.
      * split; [done|]. intros [= ->]. lia.
    + rewrite int64ToPosition_neg by lia. case_decide; [|done].
      split; [|done]. intros [= <-]. destruct Hwf. lia.
  - destruct (decide (0 ≤ n)).
    + rewrite int64ToPosition_nonneg by lia. by split; [|eexists].
    + rewrite int64ToPosition_neg by lia. split; [by intros [??]|done].
  - exists (mkPosition two63). split; [by vm_compute|]. eexists. by vm_compute.
Qed.


(** ** Witnesses *)

Lemma position_bigint_roundtrip_witness :
  pos_wf (mkPosition 7) ∧ in_i64 7 ∧ int64ToPosition 7 = Ok (mkPosition 7).
Proof.
  split; [split; vm_compute; [intros [=]|reflexivity]|].
  split; [split; vm_compute; [intros [=]|reflexivity]|].
  refine (proj1 (proj1 (proj2 (position_bigint_roundtrip (mkPosition 7) 7 _ _))) _).
  - split; vm_compute; [intros [=]|reflexivity].
  - split; vm_compute; [intros [=]|reflexivity].
  - vm_compute. reflexivity.
Defined.

Definition ser_tags : Tags := mkTags {["course:1"; "student:2"]}.

Definition ser_command : AppendCommand :=
  mkCommand [] (Some (mkCondition (mkQuery [mkItem ["Enrolled"] ser_tags] false)
    (Some (mkPosition 4)))).

