(* ===== verification/PgServer.v ===== *)
(** * PgServer

    The database under the store of [src/postgres]: what the statements and
    stored procedures of the package use of it.  A server holds the committed
    rows of the events table, the sequence behind [sequence_position], the open
    transactions with their uncommitted rows, advisory locks and pending
    notifications, and the last value each session drew from the sequence.

    Programs that talk to the server are trees of commands ([prog]), so that
    the same program can be run alone or interleaved with others.  Every
    command can fail (a lost connection, a cancelled context, a deadlock that
    the server resolves, a value it refuses): the failure is chosen by the
    environment.

    [wal] lists the committed transactions in commit order.  No program reads
    it; it is there to state theorems about the order of commits. *)

From S2P Require Import Prelude.
From S2P Require Import GoStrconv.
From S2P Require Import Serialize.

Local Open Scope Z_scope.

(** ** The state *)

(** A row of the events table, without its primary key. *)
Record row := mkRow {
  r_type : string;
  r_tags : list string;
  r_payload : string;
}.

#[export] Instance row_eq_dec : EqDecision row.
Proof. solve_decision. Defined.

(** Rows by [sequence_position], the primary key. *)
Notation rows := (gmap Z row).

(** A lock is a key and a mode, [true] for exclusive. *)
Notation lock := (Z * bool)%type.

Record tx := mkTx {
  pending : rows;
  locks : list lock;
  notes : list (string * string);
}.

Record server := mkServer {
  table : rows;
  seq_last : option Z;
  txs : gmap nat tx;
  currvals : gmap nat Z;
  notified : list (string * string);
  wal : list (nat * rows);
}.

Definition empty_server : server := mkServer ∅ None ∅ ∅ [] [].

Definition set_tx (i : nat) (t : tx) (s : server) : server :=
  mkServer (table s) (seq_last s) (<[i:=t]> (txs s)) (currvals s) (notified s) (wal s).

Definition drop_tx (i : nat) (s : server) : server :=
  mkServer (table s) (seq_last s) (delete i (txs s)) (currvals s) (notified s) (wal s).

(** ** Locks *)

(** Two modes of the same key exclude each other unless both are shared. *)
Definition compatible (l l' : lock) : Prop :=
  l.1 = l'.1 → l.2 = false ∧ l'.2 = false.

(** No session but [i] holds a lock that excludes [l]. *)
Definition grantable (i : nat) (l : lock) (s : server) : Prop :=
  map_Forall (λ j t, j = i ∨ Forall (compatible l) (locks t)) (txs s).

#[export] Instance compatible_dec l l' : Decision (compatible l l').
Proof. unfold compatible. apply _. Defined.
#[export] Instance grantable_dec i l s : Decision (grantable i l s).
Proof. unfold grantable. apply _. Defined.

(** ** The sequence *)

(** [nextval] of a [bigserial] sequence. *)
Definition nextval (last : option Z) : option Z :=
  match last with
  | None => Some 1
  | Some v => if decide (v + 1 < two63) then Some (v + 1) else None
  end.

(** [COALESCE(pg_sequence_last_value(...), 0)] *)
Definition coalesce_last (last : option Z) : Z := default 0 last.

(** ** Commands *)

Inductive cmd :=
  | CBegin
  | CLock (k : Z) (excl : bool)
  | CLastValue
  | CSnapshot
  | CInsert (r : row)
  | CCurrval
  | CNotify (channel payload : string)
  | CCommit
  | CReply
  | CRollback.

#[export] Instance cmd_eq_dec : EqDecision cmd.
Proof. solve_decision. Defined.

(** What a command returns. *)
Definition val (c : cmd) : Type :=
  match c with
  | CLastValue => option Z
  | CSnapshot => rows
  | CCurrval => Z
  | _ => unit
  end.

(** An uncommitted row is visible to its own transaction only. *)
Definition visible (i : nat) (s : server) : rows :=
  match txs s !! i with
  | Some t => pending t ∪ table s
  | None => table s
  end.

Definition no_transaction : db_error := PgError "no transaction is in progress".
Definition sequence_exhausted : db_error := PgError "nextval: reached maximum value of sequence".
Definition currval_undefined : db_error := PgError "currval is not yet defined in this session".

(** The new state when [i] inserts [r] at position [p] in its transaction. *)
Definition insert_row (i : nat) (t : tx) (p : Z) (r : row) (s : server) : server :=
  mkServer (table s) (Some p)
    (<[i:=mkTx (<[p:=r]> (pending t)) (locks t) (notes t)]> (txs s))
    (<[i:=p]> (currvals s)) (notified s) (wal s).

Definition commit_tx (i : nat) (t : tx) (s : server) : server :=
  mkServer (pending t ∪ table s) (seq_last s) (delete i (txs s)) (currvals s)
    (notified s ++ notes t) (wal s ++ [(i, pending t)]).

(** A command without a failure of the environment: its result and the next
    state, or [None] while it has to wait for a lock. *)
Definition exec_ok (i : nat) (c : cmd) (s : server) :
    option (outcome db_error (val c) * server) :=
  match c return option (outcome db_error (val c) * server) with
  | CBegin => Some (Ok (), set_tx i (mkTx ∅ [] []) s)
  | CLock k excl =>
      match txs s !! i with
      | Some t =>
          if decide (grantable i (k, excl) s) then
            Some (Ok (), set_tx i (mkTx (pending t) ((k, excl) :: locks t) (notes t)) s)
          else None
      | None => Some (Err no_transaction, s)
      end
  | CLastValue => Some (Ok (seq_last s), s)
  | CSnapshot => Some (Ok (visible i s), s)
  | CInsert r =>
      match txs s !! i, nextval (seq_last s) with
      | Some t, Some p => Some (Ok (), insert_row i t p r s)
      | Some _, None => Some (Err sequence_exhausted, s)
      | None, _ => Some (Err no_transaction, s)
      end
  | CCurrval =>
      match currvals s !! i with
      | Some v => Some (Ok v, s)
      | None => Some (Err currval_undefined, s)
      end
  | CNotify channel payload =>
      match txs s !! i with
      | Some t =>
          Some (Ok (), set_tx i (mkTx (pending t) (locks t) (notes t ++ [(channel, payload)])) s)
      | None => Some (Err no_transaction, s)
      end
  | CCommit =>
      match txs s !! i with
      | Some t => Some (Ok (), commit_tx i t s)
      | None => Some (Err no_transaction, s)
      end
  | CReply => Some (Ok (), s)
  | CRollback => Some (Ok (), drop_tx i s)
  end.

(** Any command but a rollback can fail instead, without an effect. *)
Definition exec (fault : option db_error) (i : nat) (c : cmd) (s : server) :
    option (outcome db_error (val c) * server) :=
  match fault, c with
  | Some e, CRollback => exec_ok i c s
  | Some e, _ => Some (Err e, s)
  | None, _ => exec_ok i c s
  end.

(** ** Programs *)

Inductive prog (A : Type) :=
  | Ret (a : A)
  | Do (c : cmd) (k : outcome db_error (val c) → prog A).
Arguments Ret {A} a.
Arguments Do {A} c k.

Fixpoint prog_bind {A B} (m : prog A) (f : A → prog B) : prog B :=
  match m with
  | Ret a => f a
  | Do c k => Do c (λ r, prog_bind (k r) f)
  end.

#[export] Instance prog_mret : MRet prog := @Ret.
#[export] Instance prog_mbind : MBind prog := λ A B f m, prog_bind m f.

Definition call (c : cmd) : prog (outcome db_error (val c)) := Do c Ret.

(** Sequencing that stops at the first error: [if err != nil { return err }]
    on the client, an exception in a procedure. *)
Definition try_bind {E A B} (m : prog (outcome E A)) (f : A → prog (outcome E B)) :
    prog (outcome E B) :=
  prog_bind m (λ r, match r with
    | Ok a => f a
    | Err e => Ret (Err e)
    | Panic msg => Ret (Panic msg)
    end).

Notation "x ←! m ; k" := (try_bind m (λ x, k))
  (at level 20, m at level 100, k at level 200, right associativity).
Notation "m ;;! k" := (try_bind m (λ _, k)) (at level 100, right associativity).

(** A statement outside an explicit transaction runs in one of its own: it
    commits if it succeeds, and its reply can still be lost. *)
Definition statement {A} (body : prog (outcome db_error A)) : prog (outcome db_error A) :=
  r ← (call CBegin ;;! a ←! body; call CCommit ;;! call CReply ;;! Ret (Ok a));
  match r with
  | Ok a => Ret (Ok a)
  | r => Do CRollback (λ _, Ret r)
  end.

(** ** Running a program alone

    [faults] says, in order, which commands fail; [None] as the result means
    that the program waits for a lock. *)
Fixpoint run {A} (i : nat) (faults : list (option db_error)) (p : prog A) (s : server) :
    option (A * server) :=
  match p with
  | Ret a => Some (a, s)
  | Do c k =>
      '(r, s) ← exec (mjoin (head faults)) i c s;
      run i (tail faults) (k r) s
  end.
