(* ===== verification/SqlText.v ===== *)
(** * SqlText

    The SQL in which the store reads, on the side of the server: the statements
    of the form that [src/postgres/readsql.go] writes, their text, a parser for
    it, and the rows that they deliver.  [declare] executes a text: it parses
    it and evaluates what it has read.  [parse_render] says that the parser
    undoes the rendering. *)

From S2P Require Import Prelude.
From S2P Require Import GoStrconv.
From S2P Require Import GoStrings.
From S2P Require Import Serialize.
From S2P Require Import PgServer.

Local Open Scope Z_scope.

(** The arguments that the builder passes: [int64]s, strings and slices of
    strings. *)
Inductive param :=
  | PInt (n : Z)
  | PText (s : string)
  | PTextArray (l : list string).

#[export] Instance param_eq_dec : EqDecision param.
Proof. solve_decision. Defined.

Definition readCursorName : string := "event_cursor".

(** ** The statement *)

(** A placeholder, from one. *)
Notation placeholder := nat (only parsing).

Inductive comparison := Gt_ | Lt_ | Le_.

(** The conditions that the builder combines.  An item's conditions are joined
    by [AND], the items by [OR]. *)
Inductive filter_ :=
  | FPosition (op : comparison) (ph : placeholder)
  | FCriteria (items : list (list item_filter))
with item_filter :=
  | FTypeIn (phs : list placeholder)
  | FOverlap (ph : placeholder).

Record statement_ := mkStatement {
  filters : list filter_;
  descending : bool;
  limit_ph : option placeholder;
}.

(** ** Its text *)

Definition render_ph (ph : placeholder) : string := "$" +:+ FormatInt (Z.of_nat ph).

Definition render_comparison (op : comparison) : string :=
  match op with Gt_ => ">" | Lt_ => "<" | Le_ => "<=" end.

Definition render_item_filter (f : item_filter) : string :=
  match f with
  | FTypeIn phs => "type IN (" +:+ Join (render_ph <$> phs) ", " +:+ ")"
  | FOverlap ph => "tags && " +:+ render_ph ph +:+ "::text[]"
  end.

Definition render_item (fs : list item_filter) : string :=
  "(" +:+ Join (render_item_filter <$> fs) " AND " +:+ ")".

Definition render_filter (f : filter_) : string :=
  match f with
  | FPosition op ph =>
      "e.sequence_position " +:+ render_comparison op +:+ " " +:+ render_ph ph
  | FCriteria [fs] => render_item fs
  | FCriteria items => "(" +:+ Join (render_item <$> items) " OR " +:+ ")"
  end.

Definition render_statement (tableName : string) (st : statement_) : string :=
  "DECLARE " +:+ quote +:+ readCursorName +:+ quote +:+
    " CURSOR FOR SELECT e.sequence_position, e.type, e.payload, e.tags FROM " +:+
    tableName +:+ " e " +:+
    (match filters st with
     | [] => EmptyString
     | fs => "WHERE " +:+ Join (render_filter <$> fs) " AND "
     end) +:+
    " ORDER BY e.sequence_position " +:+ (if descending st then "DESC" else "ASC") +:+ " " +:+
    (match limit_ph st with Some ph => "LIMIT " +:+ render_ph ph | None => EmptyString end).

(** ** Its meaning *)

Definition arg (args : list param) (ph : placeholder) : option param := args !! pred ph.

Definition eval_comparison (op : comparison) (p n : Z) : bool :=
  match op with
  | Gt_ => bool_decide (n < p)
  | Lt_ => bool_decide (p < n)
  | Le_ => bool_decide (p ≤ n)
  end.

Definition eval_item_filter (args : list param) (r : row) (f : item_filter) : bool :=
  match f with
  | FTypeIn phs => existsb (λ ph, bool_decide (arg args ph = Some (PText (r_type r)))) phs
  | FOverlap ph =>
      match arg args ph with
      | Some (PTextArray l) => existsb (λ tag, bool_decide (tag ∈ r_tags r)) l
      | _ => false
      end
  end.

Definition eval_filter (args : list param) (p : Z) (r : row) (f : filter_) : bool :=
  match f with
  | FPosition op ph =>
      match arg args ph with Some (PInt n) => eval_comparison op p n | _ => false end
  | FCriteria items => existsb (forallb (eval_item_filter args r)) items
  end.

Definition position_le (a b : Z * row) : Prop := a.1 ≤ b.1.

#[export] Instance position_le_dec : RelDecision position_le.
Proof. intros a b. unfold position_le. apply _. Defined.

(** The rows that the cursor delivers: those of the snapshot that pass all
    filters, by position, up to the limit. *)
Definition eval_statement (st : statement_) (args : list param) (snapshot : rows) :
    list (Z * row) :=
  let selected := filter (λ pr, forallb (eval_filter args pr.1 pr.2) (filters st) = true)
                    (merge_sort position_le (map_to_list snapshot)) in
  let ordered := if descending st then reverse selected else selected in
  match limit_ph st with
  | Some ph =>
      match arg args ph with Some (PInt n) => take (Z.to_nat n) ordered | _ => ordered end
  | None => ordered
  end.

(** ** Its parser *)

(** A parser returns what it has read and the rest of the text. *)
Notation parser A := (string → option (A * string)).

(** [s] without the prefix [p]. *)
Fixpoint strip (p s : string) : option string :=
  match p, s with
  | EmptyString, _ => Some s
  | String c p, String d s => if decide (c = d) then strip p s else None
  | String _ _, EmptyString => None
  end.

Fixpoint parse_number (s : string) (n : Z) : Z * string :=
  match s with
  | EmptyString => (n, EmptyString)
  | String c s' =>
      match char_digit c with
      | Some d => parse_number s' (n * 10 + d)
      | None => (n, s)
      end
  end.

Definition parse_ph : parser placeholder := λ s,
  s ← strip "$" s;
  match s with
  | String c _ =>
      if decide (char_digit c = None) then None
      else let '(n, s) := parse_number s 0 in Some (Z.to_nat n, s)
  | EmptyString => None
  end.

(** One or more, separated by [sep]; [fuel] bounds their number. *)
Fixpoint sep_by {A} (fuel : nat) (p : parser A) (sep : string) : parser (list A) := λ s,
  match fuel with
  | O => None
  | S fuel =>
      '(x, s) ← p s;
      match strip sep s with
      | Some s => '(xs, s) ← sep_by fuel p sep s; Some (x :: xs, s)
      | None => Some ([x], s)
      end
  end.

(** A text has at most one more part than it has characters. *)
Definition separated {A} (p : parser A) (sep : string) : parser (list A) := λ s,
  sep_by (S (String.length s)) p sep s.

Definition parse_comparison : parser comparison := λ s,
  match strip "<=" s, strip "<" s, strip ">" s with
  | Some s, _, _ => Some (Le_, s)
  | None, Some s, _ => Some (Lt_, s)
  | None, None, Some s => Some (Gt_, s)
  | None, None, None => None
  end.

Definition parse_item_filter : parser item_filter := λ s,
  match strip "type IN (" s with
  | Some s => '(phs, s) ← separated parse_ph ", " s; s ← strip ")" s; Some (FTypeIn phs, s)
  | None => s ← strip "tags && " s; '(ph, s) ← parse_ph s; s ← strip "::text[]" s; Some (FOverlap ph, s)
  end.

Definition parse_item : parser (list item_filter) := λ s,
  s ← strip "(" s; '(fs, s) ← separated parse_item_filter " AND " s; s ← strip ")" s; Some (fs, s).

(** Two parentheses open a disjunction of items. *)
Definition parse_criteria : parser (list (list item_filter)) := λ s,
  match strip "((" s with
  | Some _ =>
      s ← strip "(" s; '(items, s) ← separated parse_item " OR " s; s ← strip ")" s; Some (items, s)
  | None => '(fs, s) ← parse_item s; Some ([fs], s)
  end.

Definition parse_filter : parser filter_ := λ s,
  match strip "e.sequence_position " s with
  | Some s =>
      '(op, s) ← parse_comparison s; s ← strip " " s; '(ph, s) ← parse_ph s; Some (FPosition op ph, s)
  | None => '(items, s) ← parse_criteria s; Some (FCriteria items, s)
  end.

Definition parse_where : parser (list filter_) := λ s,
  match strip "WHERE " s with
  | Some s => separated parse_filter " AND " s
  | None => Some ([], s)
  end.

Definition parse_order : parser bool := λ s,
  s ← strip " ORDER BY e.sequence_position " s;
  match strip "ASC " s with
  | Some s => Some (false, s)
  | None => s ← strip "DESC " s; Some (true, s)
  end.

Definition parse_limit (s : string) : option (option placeholder) :=
  if decide (s = EmptyString) then Some None
  else
    s ← strip "LIMIT " s; '(ph, s) ← parse_ph s;
    if decide (s = EmptyString) then Some (Some ph) else None.

(** What precedes the conditions. *)
Definition declaration (tableName : string) : string :=
  "DECLARE " +:+ quote +:+ readCursorName +:+ quote +:+
    " CURSOR FOR SELECT e.sequence_position, e.type, e.payload, e.tags FROM " +:+
    tableName +:+ " e ".

(** A cursor over the table of that name. *)
Definition parse_statement (tableName sql : string) : option statement_ :=
  s ← strip (declaration tableName) sql;
  '(fs, s) ← parse_where s;
  '(desc, s) ← parse_order s;
  limit ← parse_limit s;
  Some (mkStatement fs desc limit).

(** ** Execution *)

(** A statement of the protocol has at most so many arguments. *)
Definition max_arguments : Z := 65535.

Definition too_many_arguments : db_error :=
  OtherError "extended protocol limited to 65535 parameters".
Definition syntax_error : db_error := PgError "syntax error".

(** The rows of the cursor that a text declares. *)
Definition declare (tableName sql : string) (args : list param) (snapshot : rows) :
    outcome db_error (list (Z * row)) :=
  if decide (max_arguments < Z.of_nat (length args)) then Err too_many_arguments
  else
    match parse_statement tableName sql with
    | Some st => Ok (eval_statement st args snapshot)
    | None => Err syntax_error
    end.

(** ** The parser undoes the rendering *)

Lemma strip_app p s : strip p (p +:+ s) = Some s.
Proof.
  induction p as [|c p IH]; [by destruct s|]. rewrite string_app_cons. cbn.
  by rewrite decide_True.
Qed.

(** The rest does not continue a number. *)
Definition ends_number (s : string) : Prop :=
  match s with String c _ => char_digit c = None | EmptyString => True end.

Lemma parse_number_app t rest a m :
  numeral t a = Some m → ends_number rest → parse_number (t +:+ rest) a = (m, rest).
Proof.
  intros Hn Hrest. revert a Hn. induction t as [|c t IH]; intros a; cbn [numeral].
  - intros [= ->]. change (EmptyString +:+ rest) with rest.
    destruct rest as [|c rest]; [done|]. cbn in Hrest |- *. by rewrite Hrest.
  - rewrite string_app_cons. cbn [parse_number]. destruct (char_digit c); [|done]. apply IH.
Qed.

Definition ph_ok (ph : placeholder) : Prop := Z.of_nat ph ≤ max_arguments.

Lemma parse_ph_render ph rest : ph_ok ph → ends_number rest →
  parse_ph (render_ph ph +:+ rest) = Some (ph, rest).
Proof.
  intros Hph Hrest. unfold ph_ok, max_arguments in Hph.
  assert (FormatInt (Z.of_nat ph) = FormatUint (Z.of_nat ph)) as Hf
    by (unfold FormatInt; by rewrite decide_False by lia).
  assert (numeral (FormatUint (Z.of_nat ph)) 0 = Some (Z.of_nat ph)) as Hnum
    by (apply FormatUint_numeral; unfold in_u64, two64; lia).
  unfold parse_ph, render_ph. rewrite Hf, <-string_app_assoc, strip_app. cbn [mbind option_bind].
  destruct (FormatUint_cons (Z.of_nat ph)) as (c&t&E). rewrite E in Hnum |- *.
  pose proof (parse_number_app _ rest _ _ Hnum Hrest) as Hp.
  rewrite string_app_cons in Hp |- *. rewrite decide_False.
  - by rewrite Hp, Nat2Z.id.
  - intros Hc. cbn in Hnum. by rewrite Hc in Hnum.
Qed.

Section separated.
Context {A : Type} (render : A → string) (p : parser A) (sep rest : string).
Hypothesis Hsep : sep ≠ EmptyString.
Hypothesis Hrest : strip sep rest = None.

Lemma sep_by_Join xs fuel :
  xs ≠ [] → (length xs ≤ fuel)%nat →
  (∀ x t, x ∈ xs → t = rest ∨ (∃ t', t = sep +:+ t') → p (render x +:+ t) = Some (x, t)) →
  sep_by fuel p sep (Join (render <$> xs) sep +:+ rest) = Some (xs, rest).
Proof.
  revert fuel. induction xs as [|x xs IH]; intros fuel Hne Hfuel Hp; [done|].
  destruct fuel as [|fuel]; [cbn in Hfuel; lia|]. destruct xs as [|y xs].
  - cbn. rewrite Hp by (first [by left|by left; left]). cbn. by rewrite Hrest.
  - change (Join (render <$> x :: y :: xs) sep)
      with (render x +:+ sep +:+ Join (render <$> y :: xs) sep).
    cbn [sep_by]. rewrite <-!string_app_assoc, Hp by (first [by left|right; by eexists]).
    cbn [mbind option_bind]. rewrite strip_app, IH; [done|done|cbn in Hfuel |- *; lia|].
    intros z t Hz. apply Hp. by right.
Qed.

Lemma length_Join (l : list string) :
  (length l ≤ S (String.length (Join l sep)))%nat.
Proof.
  assert (∀ a b : string, String.length (a +:+ b) = (String.length a + String.length b)%nat) as Happ.
  { induction a as [|c a IHa]; intros b; [done|]. rewrite string_app_cons. cbn. by rewrite IHa. }
  assert (0 < String.length sep)%nat as Hs by (destruct sep; [done|cbn; lia]).
  induction l as [|a [|b l] IH]; [cbn; lia..|].
  change (Join (a :: b :: l) sep) with (a +:+ sep +:+ Join (b :: l) sep).
  rewrite !Happ. change (length (a :: b :: l)) with (S (length (b :: l))). lia.
Qed.

Lemma separated_Join xs :
  xs ≠ [] →
  (∀ x t, x ∈ xs → t = rest ∨ (∃ t', t = sep +:+ t') → p (render x +:+ t) = Some (x, t)) →
  separated p sep (Join (render <$> xs) sep +:+ rest) = Some (xs, rest).
Proof.
  intros Hne Hp. unfold separated. apply sep_by_Join; [done| |done].
  pose proof (length_Join (render <$> xs)) as Hl. rewrite length_fmap in Hl.
  assert (∀ a b : string, (String.length a ≤ String.length (a +:+ b))%nat) as Happ.
  { induction a as [|c a IHa]; intros b; [cbn; lia|]. rewrite string_app_cons. cbn.
    specialize (IHa b). lia. }
  specialize (Happ (Join (render <$> xs) sep) rest). lia.
Qed.
End separated.

(** Statements that the text can carry. *)
Definition item_filter_ok (f : item_filter) : Prop :=
  match f with
  | FTypeIn phs => phs ≠ [] ∧ Forall ph_ok phs
  | FOverlap ph => ph_ok ph
  end.

Definition item_ok (fs : list item_filter) : Prop := fs ≠ [] ∧ Forall item_filter_ok fs.

Definition filter_ok (f : filter_) : Prop :=
  match f with
  | FPosition _ ph => ph_ok ph
  | FCriteria items => items ≠ [] ∧ Forall item_ok items
  end.

Definition statement_ok (st : statement_) : Prop :=
  Forall filter_ok (filters st) ∧ ∀ ph, limit_ph st = Some ph → ph_ok ph.

Lemma parse_item_filter_render f rest : item_filter_ok f →
  ends_number rest → parse_item_filter (render_item_filter f +:+ rest) = Some (f, rest).
Proof.
  intros Hf Hrest. unfold parse_item_filter. destruct f as [phs|ph]; cbn [render_item_filter].
  - destruct Hf as [Hne Hphs]. rewrite Forall_forall in Hphs.
    rewrite <-!string_app_assoc, strip_app, separated_Join; [|done|done|done|].
    { cbn [mbind option_bind]. by rewrite strip_app. }
    intros ph t Hph Ht. apply parse_ph_render; [by apply Hphs|]. by destruct Ht as [->|[t' ->]].
  - assert (∀ s, strip "type IN (" ("tags && " +:+ s) = None) as E by done.
    rewrite <-!string_app_assoc, E, strip_app. cbn [mbind option_bind].
    rewrite parse_ph_render by done. cbn [mbind option_bind]. by rewrite strip_app.
Qed.

Lemma parse_item_render fs rest : item_ok fs →
  parse_item (render_item fs +:+ rest) = Some (fs, rest).
Proof.
  intros [Hne Hfs]. rewrite Forall_forall in Hfs. unfold parse_item, render_item.
  rewrite <-!string_app_assoc, strip_app. cbn [mbind option_bind].
  rewrite separated_Join; [|done|done|done|].
  { cbn [mbind option_bind]. by rewrite strip_app. }
  intros f t Hf Ht. apply parse_item_filter_render; [by apply Hfs|]. by destruct Ht as [->|[t' ->]].
Qed.

(** An item begins with one parenthesis only. *)
Lemma render_item_strip fs rest : item_ok fs →
  strip "((" (render_item fs +:+ rest) = None ∧
  strip "e.sequence_position " (render_item fs +:+ rest) = None ∧
  ∃ s, render_item fs +:+ rest = "(" +:+ s.
Proof.
  intros [Hne _]. destruct fs as [|f fs]; [done|]. unfold render_item.
  assert (∃ u, Join (render_item_filter <$> f :: fs) " AND " = String "t" u) as [u ->].
  { destruct f; cbn -[String.app]; destruct (render_item_filter <$> fs);
      rewrite ?string_app_cons; by eexists. }
  rewrite <-!string_app_assoc. split_and!; [done|done|by eexists].
Qed.

Lemma parse_criteria_render items rest : items ≠ [] → Forall item_ok items →
  parse_criteria (render_filter (FCriteria items) +:+ rest) = Some (items, rest) ∧
  strip "e.sequence_position " (render_filter (FCriteria items) +:+ rest) = None.
Proof.
  intros Hne Hitems. unfold parse_criteria. destruct items as [|fs [|fs' items]]; [done| |].
  - apply Forall_cons in Hitems as [Hok _]. cbn [render_filter].
    destruct (render_item_strip fs rest Hok) as (->&->&_). by rewrite parse_item_render.
  - cbn [render_filter]. set (items' := fs :: fs' :: items) in *. rewrite <-!string_app_assoc.
    split; [|done]. assert (∃ s, Join (render_item <$> items') " OR " = "(" +:+ s) as [s Hs].
    { cbn. eexists. unfold render_item. by rewrite <-!string_app_assoc. }
    assert (∀ u, strip "((" ("(" +:+ ("(" +:+ u)) = Some u) as E by (intros u; by destruct u).
    rewrite Hs at 1. rewrite <-!string_app_assoc, E, strip_app. cbn [mbind option_bind].
    rewrite separated_Join; [|done|done|done|].
    { cbn [mbind option_bind]. by rewrite strip_app. }
    rewrite Forall_forall in Hitems. intros f t Hf _. by apply parse_item_render, Hitems.
Qed.

Lemma parse_filter_render f rest : filter_ok f → ends_number rest →
  parse_filter (render_filter f +:+ rest) = Some (f, rest).
Proof.
  intros Hf Hrest. unfold parse_filter. destruct f as [op ph|items].
  - cbn [render_filter]. rewrite <-!string_app_assoc, strip_app.
    assert (parse_comparison (render_comparison op +:+ " " +:+ render_ph ph +:+ rest) =
      Some (op, " " +:+ render_ph ph +:+ rest)) as -> by (by destruct op).
    cbn [mbind option_bind]. rewrite strip_app. cbn [mbind option_bind].
    by rewrite parse_ph_render.
  - destruct Hf as [Hne Hitems]. destruct (parse_criteria_render items rest Hne Hitems) as [-> ->].
    done.
Qed.

(** The parser undoes the rendering. *)
Lemma parse_render tableName st : statement_ok st →
  parse_statement tableName (render_statement tableName st) = Some st.
Proof.
  intros [Hfs Hlim]. unfold parse_statement.
  set (order := " ORDER BY e.sequence_position " +:+ (if descending st then "DESC" else "ASC") +:+
    " " +:+ (match limit_ph st with Some ph => "LIMIT " +:+ render_ph ph | None => EmptyString end)).
  set (where_ := match filters st with
    | [] => EmptyString
    | fs => "WHERE " +:+ Join (render_filter <$> fs) " AND "
    end).
  assert (render_statement tableName st = declaration tableName +:+ where_ +:+ order) as ->.
  { unfold render_statement, declaration. by rewrite <-!string_app_assoc. }
  rewrite strip_app. cbn [mbind option_bind].
  assert (parse_where (where_ +:+ order) = Some (filters st, order)) as ->.
  { unfold parse_where, where_. destruct (filters st) as [|f fs] eqn:E.
    { change (EmptyString +:+ order) with order.
      assert (strip "WHERE " order = None) as -> by done. done. }
    rewrite <-!string_app_assoc, strip_app. apply separated_Join; [done|done|done|].
    rewrite Forall_forall in Hfs. intros g t Hg Ht. apply parse_filter_render; [by apply Hfs|].
    by destruct Ht as [->|[t' ->]]. }
  cbn [mbind option_bind]. unfold parse_order, order. rewrite strip_app. cbn [mbind option_bind].
  set (limit := match limit_ph st with Some ph => _ | None => _ end).
  assert (parse_limit limit = Some (limit_ph st)) as Hlimit.
  { unfold parse_limit, limit. destruct (limit_ph st) as [ph|] eqn:E; [|done].
    rewrite decide_False by (by rewrite string_app_cons). rewrite strip_app. cbn [mbind option_bind].
    rewrite <-(string_app_nil_r (render_ph ph)), parse_ph_render by (try done; by apply Hlim).
    done. }
  destruct st as [fs [] lim]; cbn [descending filters limit_ph] in *.
  - assert (∀ s, strip "ASC " ("DESC" +:+ " " +:+ s) = None ∧
      strip "DESC " ("DESC" +:+ " " +:+ s) = Some s) as E by (intros s; by destruct s).
    destruct (E limit) as [-> ->]. cbn [mbind option_bind]. by rewrite Hlimit.
  - assert (∀ s, strip "ASC " ("ASC" +:+ " " +:+ s) = Some s) as E by (intros s; by destruct s).
    rewrite E. cbn [mbind option_bind]. by rewrite Hlimit.
Qed.

(** A text is that of one statement. *)
Lemma render_inj tableName st st' : statement_ok st → statement_ok st' →
  render_statement tableName st = render_statement tableName st' → st = st'.
Proof.
  intros Hst Hst' E. pose proof (parse_render tableName st Hst) as H.
  rewrite E, parse_render in H by done. congruence.
Qed.

Lemma declare_render tableName st args snapshot :
  statement_ok st → Z.of_nat (length args) ≤ max_arguments →
  declare tableName (render_statement tableName st) args snapshot =
    Ok (eval_statement st args snapshot).
Proof.
  intros Hst Hargs. unfold declare. rewrite decide_False by lia. by rewrite parse_render.
Qed.
