(* ===== verification/ReadSQL.v ===== *)
(** * ReadSQL

    The SQL of a read ([src/postgres/readsql.go]): the builder of the text and
    of its arguments, the statement that the text is read as ([SqlText]), and
    the rows that it returns. *)

From S2P Require Import Prelude.
From S2P Require Import GoStrconv.
From S2P Require Import GoStrings.
From S2P Require Import SequencePosition.
From S2P Require Import Tags.
From S2P Require Import EventStore.
From S2P Require Import Matching.
From S2P Require Import Serialize.
From S2P Require Import PgServer.
From S2P Require Import SqlText.

Local Open Scope Z_scope.

(** ** The builder *)

Definition paramManager := list param.

(** [pm.add(v)]: the placeholder's text and the extended arguments. *)
Definition pm_add (pm : paramManager) (v : param) : string * paramManager :=
  let pm := pm ++ [v] in ("$" +:+ FormatInt (Z.of_nat (length pm)), pm).

(** The loop that fills [placeholders]. *)
Fixpoint add_types (types : list string) (pm : paramManager) : list string * paramManager :=
  match types with
  | [] => ([], pm)
  | t :: types =>
      let '(ph, pm) := pm_add pm (PText t) in
      let '(phs, pm) := add_types types pm in
      (ph :: phs, pm)
  end.

Definition itemFilterClause (item : QueryItem) (pm : paramManager) : string * paramManager :=
  let '(parts, pm) :=
    if decide (0 < Z.of_nat (length (Types item))) then
      let '(placeholders, pm) := add_types (Types item) pm in
      (["type IN (" +:+ Join placeholders ", " +:+ ")"], pm)
    else ([], pm) in
  let '(parts, pm) :=
    if decide (0 < Z.of_nat (Len (Item_Tags item))) then
      let '(ph, pm) := pm_add pm (PTextArray (Values (Item_Tags item))) in
      (parts ++ ["tags && " +:+ ph +:+ "::text[]"], pm)
    else (parts, pm) in
  if decide (length parts = 0%nat) then (EmptyString, pm)
  else ("(" +:+ Join parts " AND " +:+ ")", pm).

(** The loop of [criteriaClause]. *)
Fixpoint item_clauses (its : list QueryItem) (clauses : list string) (pm : paramManager) :
    list string * paramManager :=
  match its with
  | [] => (clauses, pm)
  | item :: its =>
      let '(clause, pm) := itemFilterClause item pm in
      item_clauses its (if decide (clause ≠ EmptyString) then clauses ++ [clause] else clauses) pm
  end.

Definition criteriaClause (query : Query) (pm : paramManager) : string * paramManager :=
  let '(clauses, pm) := item_clauses (Items query) [] pm in
  match clauses with
  | [] => (EmptyString, pm)
  | [clause] => (clause, pm)
  | _ => ("(" +:+ Join clauses " OR " +:+ ")", pm)
  end.

Definition buildReadSQL (tableName : string) (query : Query) (opts : ReadOptions)
    (upperBound : option Z) : outcome store_error (string * paramManager) :=
  '(filters, pm) ←
    match Read_After opts with
    | Some after =>
        let op := if Backwards opts then "<" else ">" in
        n ← positionToInt64 after;
        let '(ph, pm) := pm_add [] (PInt n) in
        Ok (["e.sequence_position " +:+ op +:+ " " +:+ ph], pm)
    | None => Ok ([], [])
    end;
  let '(filters, pm) :=
    match upperBound with
    | Some hwm =>
        let '(ph, pm) := pm_add pm (PInt hwm) in
        (filters ++ ["e.sequence_position <= " +:+ ph], pm)
    | None => (filters, pm)
    end in
  let '(filters, pm) :=
    if negb (IsAll query) then
      let '(clause, pm) := criteriaClause query pm in
      (if decide (clause ≠ EmptyString) then filters ++ [clause] else filters, pm)
    else (filters, pm) in
  let where_ := if decide (0 < Z.of_nat (length filters))
                then "WHERE " +:+ Join filters " AND " else EmptyString in
  let order := if Backwards opts then "DESC" else "ASC" in
  let '(limit, pm) :=
    if decide (0 < Limit opts) then
      let '(ph, pm) := pm_add pm (PInt (Limit opts)) in ("LIMIT " +:+ ph, pm)
    else (EmptyString, pm) in
  Ok ("DECLARE " +:+ quote +:+ readCursorName +:+ quote +:+
        " CURSOR FOR SELECT e.sequence_position, e.type, e.payload, e.tags FROM " +:+
        tableName +:+ " e " +:+ where_ +:+ " ORDER BY e.sequence_position " +:+ order +:+
        " " +:+ limit, pm).

(** ** The statement that the builder writes *)

Definition item_types (item : QueryItem) (n : nat) : list item_filter * list param :=
  if decide (Types item = []) then ([], [])
  else ([FTypeIn (seq (S n) (length (Types item)))], PText <$> Types item).

Definition item_tags (item : QueryItem) (n : nat) : list item_filter * list param :=
  if decide (Len (Item_Tags item) = 0%nat) then ([], [])
  else ([FOverlap (S n)], [PTextArray (Values (Item_Tags item))]).

(** The filters of an item whose first placeholder is [n + 1]. *)
Definition item_filters (item : QueryItem) (n : nat) : list item_filter * list param :=
  let '(fs, ps) := item_types item n in
  let '(fs', ps') := item_tags item (n + length ps) in
  (fs ++ fs', ps ++ ps').

Fixpoint items_filters (its : list QueryItem) (n : nat) : list (list item_filter) * list param :=
  match its with
  | [] => ([], [])
  | item :: its =>
      let '(fs, ps) := item_filters item n in
      let '(fss, ps') := items_filters its (n + length ps) in
      (if decide (fs = []) then fss else fs :: fss, ps ++ ps')
  end.

Definition criteria (query : Query) (n : nat) : list filter_ * list param :=
  if IsAll query then ([], [])
  else
    let '(fss, ps) := items_filters (Items query) n in
    (if decide (fss = []) then [] else [FCriteria fss], ps).

Definition after_filter (opts : ReadOptions) : list filter_ * list param :=
  match Read_After opts with
  | Some p => ([FPosition (if Backwards opts then Lt_ else Gt_) 1], [PInt (value p)])
  | None => ([], [])
  end.

Definition upper_filter (upperBound : option Z) (n : nat) : list filter_ * list param :=
  match upperBound with
  | Some hwm => ([FPosition Le_ (S n)], [PInt hwm])
  | None => ([], [])
  end.

Definition read_statement (query : Query) (opts : ReadOptions) (upperBound : option Z) :
    statement_ * list param :=
  let '(fs1, ps1) := after_filter opts in
  let '(fs2, ps2) := upper_filter upperBound (length ps1) in
  let '(fs3, ps3) := criteria query (length ps1 + length ps2) in
  let ps := ps1 ++ ps2 ++ ps3 in
  if decide (0 < Limit opts) then
    (mkStatement (fs1 ++ fs2 ++ fs3) (Backwards opts) (Some (S (length ps))),
     ps ++ [PInt (Limit opts)])
  else (mkStatement (fs1 ++ fs2 ++ fs3) (Backwards opts) None, ps).

(** ** The text is that of the statement *)

Lemma pm_add_render pm v : pm_add pm v = (render_ph (S (length pm)), pm ++ [v]).
Proof. unfold pm_add, render_ph. rewrite length_app. cbn. by rewrite Nat.add_1_r. Qed.

Lemma add_types_render types pm :
  add_types types pm =
    (render_ph <$> seq (S (length pm)) (length types), pm ++ (PText <$> types)).
Proof.
  revert pm. induction types as [|t types IH]; intros pm; cbn [add_types]; [by rewrite app_nil_r|].
  rewrite pm_add_render, IH, length_app. cbn. rewrite Nat.add_1_r, <-(assoc_L (++)). done.
Qed.

Lemma itemFilterClause_render item pm :
  itemFilterClause item pm =
    let '(fs, ps) := item_filters item (length pm) in
    (if decide (fs = []) then EmptyString else render_item fs, pm ++ ps).
Proof.
  unfold itemFilterClause, item_filters, item_types, item_tags, Len.
  destruct (Types item) as [|t types].
  - rewrite decide_False by done. rewrite (decide_True (P := [] = [])) by done.
    destruct (decide (size (tag_values (Item_Tags item)) = 0%nat)) as [->|Hn].
    + rewrite decide_False by lia. cbn. by rewrite app_nil_r.
    + rewrite decide_True by lia. rewrite pm_add_render. cbn. rewrite Nat.add_0_r. done.
  - rewrite decide_True by (cbn; lia). rewrite (decide_False (P := t :: types = [])) by done.
    rewrite add_types_render.
    destruct (decide (size (tag_values (Item_Tags item)) = 0%nat)) as [->|Hn].
    + rewrite decide_False by lia. cbn. by rewrite app_nil_r.
    + rewrite decide_True by lia. rewrite pm_add_render, !length_app, length_fmap. cbn.
      by rewrite <-(assoc_L (++)).
Qed.

Lemma render_item_nonempty fs : render_item fs ≠ EmptyString.
Proof. unfold render_item. by rewrite string_app_cons. Qed.

Lemma item_clauses_render its clauses pm :
  item_clauses its clauses pm =
    let '(fss, ps) := items_filters its (length pm) in
    (clauses ++ (render_item <$> fss), pm ++ ps).
Proof.
  revert clauses pm. induction its as [|item its IH]; intros clauses pm; cbn [item_clauses items_filters].
  { by rewrite !app_nil_r. }
  rewrite itemFilterClause_render. destruct (item_filters item (length pm)) as [fs ps].
  rewrite IH, length_app. destruct (items_filters its (length pm + length ps)) as [fss ps'].
  rewrite <-(assoc_L (++) pm). f_equal. destruct (decide (fs = [])) as [->|Hfs].
  - by rewrite decide_False by (by intros []).
  - rewrite decide_True by apply render_item_nonempty. cbn. by rewrite <-(assoc_L (++)).
Qed.

Lemma criteriaClause_render query pm : IsAll query = false →
  criteriaClause query pm =
    let '(fs, ps) := criteria query (length pm) in
    (match fs with f :: _ => render_filter f | [] => EmptyString end, pm ++ ps).
Proof.
  intros Hall. unfold criteriaClause, criteria. rewrite Hall, item_clauses_render.
  destruct (items_filters (Items query) (length pm)) as [fss ps]. cbn [app].
  destruct fss as [|fs [|fs' fss]]; done.
Qed.

Lemma criteria_shape query n :
  (criteria query n).1 = [] ∨ ∃ f, (criteria query n).1 = [f] ∧ render_filter f ≠ EmptyString.
Proof.
  unfold criteria. destruct (IsAll query); [by left|].
  destruct (items_filters _ _) as [fss ps]. case_decide; [by left|]. right.
  exists (FCriteria fss). split; [done|]. destruct fss as [|fs [|fs' fss]]; [done| |].
  - apply render_item_nonempty.
  - cbn. by rewrite string_app_cons.
Qed.

(** The three kinds of filters, as the builder collects them. *)
Lemma filters_render query pm (fs : list string) :
  (let '(filters, pm) :=
     if negb (IsAll query) then
       let '(clause, pm) := criteriaClause query pm in
       (if decide (clause ≠ EmptyString) then fs ++ [clause] else fs, pm)
     else (fs, pm) in (filters, pm)) =
  (let '(fs3, ps3) := criteria query (length pm) in
   (fs ++ (render_filter <$> fs3), pm ++ ps3)).
Proof.
  destruct (IsAll query) eqn:Hall; cbn [negb].
  { unfold criteria. rewrite Hall. cbn. by rewrite !app_nil_r. }
  rewrite criteriaClause_render by done. pose proof (criteria_shape query (length pm)) as Hs.
  destruct (criteria query (length pm)) as [fs3 ps3]. cbn in Hs.
  destruct Hs as [->|(f&->&Hf)].
  - rewrite decide_False by (by intros []). cbn. by rewrite app_nil_r.
  - by rewrite decide_True.
Qed.

(** ** What the statement returns *)

Lemma arg_app_l args args' n k : n = S k → (k < length args)%nat →
  arg (args ++ args') n = args !! k.
Proof. intros -> Hk. unfold arg. cbn. by apply lookup_app_l. Qed.

(** An argument at its place among the others. *)
Lemma arg_middle pre args post k : (k < length args)%nat →
  arg (pre ++ args ++ post) (S (length pre + k)) = args !! k.
Proof.
  intros Hk. unfold arg. cbn. rewrite lookup_app_r by lia.
  rewrite lookup_app_l by lia. f_equal. lia.
Qed.

Section eval.
Context (p : Z) (r : row).

(** What an item's filters test. *)
Definition item_selects (item : QueryItem) : Prop :=
  (Types item = [] ∨ r_type r ∈ Types item) ∧
  (Len (Item_Tags item) = 0%nat ∨
   ∃ tag, tag ∈ tag_values (Item_Tags item) ∧ tag ∈ r_tags r).

Lemma eval_types pre types post :
  eval_item_filter (pre ++ (PText <$> types) ++ post) r
    (FTypeIn (seq (S (length pre)) (length types))) = true ↔ r_type r ∈ types.
Proof.
  cbn. rewrite List.existsb_exists. setoid_rewrite <-list_elem_of_In.
  setoid_rewrite bool_decide_eq_true. setoid_rewrite elem_of_seq. split.
  - intros (ph&Hph&Harg).
    replace ph with (S (length pre + (ph - S (length pre)))) in Harg by lia.
    rewrite arg_middle in Harg by (rewrite length_fmap; lia).
    apply list_lookup_fmap_Some in Harg as (t&[= ->]&Ht). by eapply list_elem_of_lookup_2.
  - intros [k Hk]%list_elem_of_lookup_1. pose proof (lookup_lt_Some _ _ _ Hk).
    exists (S (length pre + k)). split; [lia|].
    rewrite arg_middle by (rewrite length_fmap; lia). by rewrite list_lookup_fmap, Hk.
Qed.

Lemma eval_overlap pre t post :
  eval_item_filter (pre ++ PTextArray (Values t) :: post) r (FOverlap (S (length pre))) = true ↔
    ∃ tag, tag ∈ tag_values t ∧ tag ∈ r_tags r.
Proof.
  pose proof (arg_middle pre [PTextArray (Values t)] post 0) as Harg.
  rewrite Nat.add_0_r in Harg. unfold eval_item_filter. cbn [app length] in Harg.
  rewrite Harg by lia. cbn.
  rewrite List.existsb_exists. setoid_rewrite <-list_elem_of_In.
  setoid_rewrite bool_decide_eq_true. by setoid_rewrite elem_of_Values.
Qed.

Lemma eval_item item pre post :
  let '(fs, ps) := item_filters item (length pre) in
  (forallb (eval_item_filter (pre ++ ps ++ post) r) fs = true ↔ item_selects item) ∧
  (fs = [] ↔ Types item = [] ∧ Len (Item_Tags item) = 0%nat).
Proof.
  unfold item_filters, item_types, item_tags, item_selects.
  case_decide as Ht; case_decide as Hl; cbn [app length].
  - split; [|done]. cbn. tauto.
  - rewrite Nat.add_0_r. split; [|split; [done|tauto]]. cbn [forallb].
    rewrite andb_true_r, eval_overlap. tauto.
  - rewrite !app_nil_r. split; [|split; [done|tauto]]. cbn [forallb]. rewrite andb_true_r, eval_types. tauto.
  - split; [|split; [done|tauto]]. cbn [forallb]. rewrite andb_true_r, andb_true_iff, length_fmap.
    rewrite <-(assoc_L (++)), eval_types.
    rewrite (assoc_L (++) pre).
    pose proof (eval_overlap (pre ++ (PText <$> Types item)) (Item_Tags item) post) as Ho.
    rewrite length_app, length_fmap in Ho. rewrite Ho. tauto.
Qed.

(** An item that contributes no filter at all. *)
Definition item_vacuous (item : QueryItem) : Prop :=
  Types item = [] ∧ Len (Item_Tags item) = 0%nat.

Lemma eval_items its pre post :
  let '(fss, ps) := items_filters its (length pre) in
  (existsb (forallb (eval_item_filter (pre ++ ps ++ post) r)) fss = true ↔
     ∃ item, item ∈ its ∧ ¬ item_vacuous item ∧ item_selects item) ∧
  (fss = [] ↔ Forall item_vacuous its).
Proof.
  revert pre. induction its as [|item its IH]; intros pre; cbn [items_filters].
  { split; [|by split]. split; [done|]. by intros (?&?%elem_of_nil&_). }
  destruct (item_filters item (length pre)) as [fs ps] eqn:Ei.
  specialize (IH (pre ++ ps)). rewrite length_app in IH.
  destruct (items_filters its (length pre + length ps)) as [fss ps'].
  rewrite <-!(assoc_L (++)) in IH. rewrite <-!(assoc_L (++)).
  pose proof (eval_item item pre (ps' ++ post)) as He. rewrite Ei in He.
  destruct He as [He Hempty], IH as [IH Hnil]. rewrite Forall_cons. unfold item_vacuous in *.
  split.
  - trans (¬ (Types item = [] ∧ Len (Item_Tags item) = 0%nat) ∧ item_selects item ∨
      ∃ item, item ∈ its ∧ ¬ (Types item = [] ∧ Len (Item_Tags item) = 0%nat) ∧
        item_selects item).
    + case_decide as Hfs; [rewrite IH; tauto|]. cbn [existsb]. rewrite orb_true_iff, IH, He. tauto.
    + setoid_rewrite elem_of_cons. split.
      * intros [?|(i&?&?)]; [exists item|exists i]; tauto.
      * intros (i&[->|?]&?); [by left|right; by exists i].
  - case_decide as Hfs; [rewrite Hnil; tauto|]. split; [done|]. tauto.
Qed.

(** What the criteria of a query test: nothing, if no item has a filter. *)
Definition criteria_selects (query : Query) : Prop :=
  IsAll query = true ∨ Forall item_vacuous (Items query) ∨
  ∃ item, item ∈ Items query ∧ ¬ item_vacuous item ∧ item_selects item.

Lemma eval_criteria query pre post :
  let '(fs, ps) := criteria query (length pre) in
  forallb (eval_filter (pre ++ ps ++ post) p r) fs = true ↔ criteria_selects query.
Proof.
  unfold criteria, criteria_selects. destruct (IsAll query); [split; [by left|done]|].
  pose proof (eval_items (Items query) pre post) as He.
  destruct (items_filters (Items query) (length pre)) as [fss ps]. destruct He as [He Hnil].
  case_decide as Hfs.
  - split; [|done]. intros _. right. left. by apply Hnil.
  - cbn [forallb eval_filter]. rewrite andb_true_r, He. split; [by right; right|].
    intros [?|[?|?]]; [done| |done]. by apply Hnil in H.
Qed.

(** The bounds of a read. *)
Definition within_bounds (opts : ReadOptions) (upperBound : option Z) : Prop :=
  (∀ b, Read_After opts = Some b → if Backwards opts then p < value b else value b < p) ∧
  (∀ hwm, upperBound = Some hwm → p ≤ hwm).

Lemma eval_after opts post :
  let '(fs, ps) := after_filter opts in
  forallb (eval_filter (ps ++ post) p r) fs = true ↔
    ∀ b, Read_After opts = Some b → if Backwards opts then p < value b else value b < p.
Proof.
  unfold after_filter. destruct (Read_After opts) as [b|]; [|done].
  cbn. rewrite andb_true_r. destruct (Backwards opts); cbn; rewrite bool_decide_eq_true;
    (split; [by intros ? ? [= <-]|by intros H; apply H]).
Qed.

Lemma eval_upper upperBound pre post :
  let '(fs, ps) := upper_filter upperBound (length pre) in
  forallb (eval_filter (pre ++ ps ++ post) p r) fs = true ↔ ∀ hwm, upperBound = Some hwm → p ≤ hwm.
Proof.
  unfold upper_filter. destruct upperBound as [hwm|]; [|done].
  pose proof (arg_middle pre [PInt hwm] post 0) as Harg. rewrite Nat.add_0_r in Harg.
  cbn [forallb eval_filter]. rewrite Harg by (cbn; lia). cbn.
  rewrite andb_true_r, bool_decide_eq_true. split; [by intros ? ? [= <-]|by intros H; apply H].
Qed.

Lemma eval_read_statement query opts upperBound :
  let '(st, args) := read_statement query opts upperBound in
  forallb (eval_filter args p r) (filters st) = true ↔
    within_bounds opts upperBound ∧ criteria_selects query.
Proof.
  unfold read_statement, within_bounds.
  pose proof (eval_after opts) as H1. destruct (after_filter opts) as [fs1 ps1].
  pose proof (eval_upper upperBound ps1) as H2.
  destruct (upper_filter upperBound (length ps1)) as [fs2 ps2].
  pose proof (eval_criteria query (ps1 ++ ps2)) as H3. rewrite length_app in H3.
  destruct (criteria query (length ps1 + length ps2)) as [fs3 ps3].
  assert (∀ post, forallb (eval_filter (ps1 ++ ps2 ++ ps3 ++ post) p r) (fs1 ++ fs2 ++ fs3) = true ↔
    ((∀ b, Read_After opts = Some b → if Backwards opts then p < value b else value b < p) ∧
     (∀ hwm, upperBound = Some hwm → p ≤ hwm)) ∧ criteria_selects query) as H.
  { intros post. rewrite !forallb_app, !andb_true_iff, (H1 (ps2 ++ ps3 ++ post)), (H2 (ps3 ++ post)).
    specialize (H3 post). rewrite <-(assoc_L (++)) in H3. rewrite H3. tauto. }
  case_decide; cbn [filters].
  - specialize (H [PInt (Limit opts)]). by rewrite <-!(assoc_L (++)).
  - specialize (H []). by rewrite app_nil_r in H.
Qed.
End eval.

(** The limit is the statement's last argument. *)
Lemma read_statement_limit query opts upperBound :
  let '(st, args) := read_statement query opts upperBound in
  descending st = Backwards opts ∧
  match limit_ph st with
  | Some ph => 0 < Limit opts ∧ arg args ph = Some (PInt (Limit opts))
  | None => Limit opts ≤ 0
  end.
Proof.
  unfold read_statement. destruct (after_filter opts) as [fs1 ps1].
  destruct (upper_filter upperBound (length ps1)) as [fs2 ps2].
  destruct (criteria query (length ps1 + length ps2)) as [fs3 ps3].
  case_decide; (split; [done|]); cbn; [|lia]. split; [done|].
  unfold arg. cbn. rewrite lookup_app_r by lia. by rewrite Nat.sub_diag.
Qed.

(** ** The builder's text is the statement's, and the statement's meaning *)

Lemma buildReadSQL_render tableName query opts upperBound :
  (∀ pos, Read_After opts = Some pos → 0 ≤ value pos < two63) →
  buildReadSQL tableName query opts upperBound =
    let '(st, args) := read_statement query opts upperBound in
    Ok (render_statement tableName st, args).
Proof.
  intros Hfit. unfold buildReadSQL, read_statement. cbv zeta.
  match goal with |- mbind _ ?m = _ =>
    assert (m = Ok (let '(fs, ps) := after_filter opts in (render_filter <$> fs, ps))) as ->
  end.
  { unfold after_filter. destruct (Read_After opts) as [pos|]; [|done].
    specialize (Hfit pos eq_refl). rewrite positionToInt64_wf.
    - rewrite decide_True by lia. cbn. by destruct (Backwards opts).
    - unfold pos_wf, in_u64, two63, two64 in *. lia. }
  destruct (after_filter opts) as [fs1 ps1]. cbn [mbind outcome_bind].
  match goal with |- (let '(_, _) := ?m in _) = _ =>
    assert (m = let '(fs2, ps2) := upper_filter upperBound (length ps1) in
      (render_filter <$> fs1 ++ fs2, ps1 ++ ps2)) as ->
  end.
  { unfold upper_filter. destruct upperBound as [hwm|]; [|by rewrite !app_nil_r].
    rewrite pm_add_render, fmap_app. done. }
  destruct (upper_filter upperBound (length ps1)) as [fs2 ps2].
  pose proof (filters_render query (ps1 ++ ps2) (render_filter <$> fs1 ++ fs2)) as Hf.
  rewrite length_app in Hf.
  destruct (criteria query (length ps1 + length ps2)) as [fs3 ps3].
  rewrite <-fmap_app, <-!(assoc_L (++)) in Hf.
  destruct (if negb (IsAll query) then _ else _) as [filters pm]. injection Hf as -> ->.
  set (fs := fs1 ++ fs2 ++ fs3). set (ps := ps1 ++ ps2 ++ ps3).
  assert ((if decide (0 < Z.of_nat (length (render_filter <$> fs)))
     then "WHERE " +:+ Join (render_filter <$> fs) " AND " else EmptyString) =
    match fs with
    | [] => EmptyString
    | fs => "WHERE " +:+ Join (render_filter <$> fs) " AND "
    end) as ->.
  { rewrite length_fmap. destruct fs; [done|]. by rewrite decide_True by (cbn [length]; lia). }
  clearbody fs. case_decide; [rewrite pm_add_render|]; unfold render_statement; by destruct fs.
Qed.

(** ** Executing the text *)

Lemma item_filters_ok item n :
  let '(fs, ps) := item_filters item n in
  Z.of_nat (n + length ps) ≤ max_arguments → Forall item_filter_ok fs.
Proof.
  unfold item_filters, item_types, item_tags.
  assert (∀ k, Z.of_nat (n + k) ≤ max_arguments → Forall ph_ok (seq (S n) k)) as Hseq.
  { intros k Hk. apply Forall_seq. unfold ph_ok. lia. }
  assert (Types item ≠ [] → seq (S n) (length (Types item)) ≠ []) as Hne.
  { intros Ht. by destruct (Types item). }
  repeat case_decide; cbn -[seq]; rewrite ?length_app, ?length_fmap; cbn -[seq]; intros Hn;
    rewrite ?Forall_cons; cbn -[seq]; unfold ph_ok; repeat apply conj;
    auto using Forall_nil_2; try lia; apply Hseq; lia.
Qed.

Lemma items_filters_ok its n :
  let '(fss, ps) := items_filters its n in
  Z.of_nat (n + length ps) ≤ max_arguments → Forall item_ok fss.
Proof.
  revert n. induction its as [|item its IH]; intros n; cbn [items_filters]; [by constructor|].
  pose proof (item_filters_ok item n) as Hi. destruct (item_filters item n) as [fs ps].
  specialize (IH (n + length ps)%nat). destruct (items_filters its _) as [fss ps'].
  rewrite length_app. intros Hn. case_decide; [apply IH; lia|].
  constructor; [|apply IH; lia]. split; [done|]. apply Hi. lia.
Qed.

Lemma criteria_ok query n :
  let '(fs, ps) := criteria query n in
  Z.of_nat (n + length ps) ≤ max_arguments → Forall filter_ok fs.
Proof.
  unfold criteria. destruct (IsAll query); [by constructor|].
  pose proof (items_filters_ok (Items query) n) as Hi.
  destruct (items_filters (Items query) n) as [fss ps]. intros Hn.
  case_decide; [by constructor|]. constructor; [|by constructor]. split; [done|by apply Hi].
Qed.

(** The builder's statements are within the grammar. *)
Lemma read_statement_ok query opts upperBound :
  Z.of_nat (length (read_statement query opts upperBound).2) ≤ max_arguments →
  statement_ok (read_statement query opts upperBound).1.
Proof.
  unfold read_statement. destruct (after_filter opts) as [fs1 ps1] eqn:E1.
  destruct (upper_filter upperBound (length ps1)) as [fs2 ps2] eqn:E2.
  pose proof (criteria_ok query (length ps1 + length ps2)) as H3.
  destruct (criteria query (length ps1 + length ps2)) as [fs3 ps3].
  intros Hn.
  assert (Z.of_nat (length (ps1 ++ ps2 ++ ps3)) ≤ max_arguments) as Hps.
  { case_decide; cbn [snd] in Hn; rewrite ?length_app in *; lia. }
  rewrite !length_app in Hps.
  assert (Forall filter_ok (fs1 ++ fs2 ++ fs3)) as Hfs.
  { rewrite !Forall_app. split_and!; [| |apply H3; lia].
    - unfold after_filter in E1. destruct (Read_After opts); injection E1 as <- <-; [|by constructor].
      apply Forall_cons. split; [|by constructor]. unfold filter_ok, ph_ok. cbn in Hps |- *. lia.
    - unfold upper_filter in E2. destruct upperBound; injection E2 as <- <-; [|by constructor].
      apply Forall_cons. split; [|by constructor]. unfold filter_ok, ph_ok. cbn in Hps |- *. lia. }
  case_decide; split; try done. intros ph. cbn.
  intros [= <-]. cbn [snd] in Hn. rewrite !length_app in *. unfold ph_ok. cbn in Hn. lia.
Qed.

(** Executing what the builder wrote delivers the rows that the read selects,
    unless it has too many arguments. *)
Lemma declare_read_statement tableName query opts upperBound snapshot :
  let '(st, args) := read_statement query opts upperBound in
  declare tableName (render_statement tableName st) args snapshot =
    if decide (max_arguments < Z.of_nat (length args)) then Err too_many_arguments
    else Ok (eval_statement st args snapshot).
Proof.
  pose proof (read_statement_ok query opts upperBound) as Hok.
  destruct (read_statement query opts upperBound) as [st args]. cbn in Hok.
  case_decide; [unfold declare; by rewrite decide_True|].
  apply declare_render; [apply Hok|]; lia.
Qed.

(** The arguments of a query: its types, and one for the tags of an item. *)
Definition item_arguments (item : QueryItem) : nat :=
  length (Types item) + (if decide (Len (Item_Tags item) = 0%nat) then 0 else 1).
Definition query_arguments (query : Query) : nat := sum_list (item_arguments <$> Items query).

(** With the two bounds and the limit of a read they fit into a statement. *)
Definition few_arguments (query : Query) : Prop :=
  Z.of_nat (query_arguments query) + 3 ≤ max_arguments.

Lemma criteria_arguments query n : (length (criteria query n).2 ≤ query_arguments query)%nat.
Proof.
  unfold criteria, query_arguments. destruct (IsAll query); [cbn; lia|].
  assert (length (items_filters (Items query) n).2 = sum_list (item_arguments <$> Items query)) as Hi.
  { revert n. induction (Items query) as [|item its IH]; intros n; [done|].
    cbn [items_filters fmap list_fmap sum_list]. rewrite <-(IH (n + length (item_filters item n).2)%nat).
    assert (length (item_filters item n).2 = item_arguments item) as <-.
    { unfold item_filters, item_types, item_tags, item_arguments.
      destruct (Types item) as [|ty types]; repeat case_decide; try done; cbn;
        rewrite ?length_app, ?length_fmap; cbn; lia. }
    destruct (item_filters item n) as [fs ps]. cbn [snd].
    destruct (items_filters its _) as [fss ps']. cbn. by rewrite length_app. }
  destruct (items_filters (Items query) n). cbn in *. lia.
Qed.

Lemma read_statement_arguments query opts upperBound : few_arguments query →
  Z.of_nat (length (read_statement query opts upperBound).2) ≤ max_arguments.
Proof.
  unfold few_arguments, read_statement, after_filter, upper_filter. intros Hq.
  destruct (Read_After opts), upperBound; cbn [length Nat.add];
    match goal with |- context [criteria query ?n] =>
      pose proof (criteria_arguments query n); destruct (criteria query n) as [fs3 ps3]
    end;
    case_decide; cbn in *; rewrite ?length_app; cbn; lia.
Qed.

Lemma declare_few tableName query opts upperBound snapshot : few_arguments query →
  let '(st, args) := read_statement query opts upperBound in
  declare tableName (render_statement tableName st) args snapshot =
    Ok (eval_statement st args snapshot).
Proof.
  intros Hq. pose proof (read_statement_arguments query opts upperBound Hq) as Hn.
  pose proof (declare_read_statement tableName query opts upperBound snapshot) as Hd.
  destruct (read_statement query opts upperBound) as [st args]. cbn in Hn.
  by rewrite decide_False in Hd by lia.
Qed.

(** The order of a read. *)
Definition row_order (backwards : bool) : relation (Z * row) := λ a b,
  if backwards then b.1 < a.1 else a.1 < b.1.

Lemma row_order_reverse l :
  StronglySorted (row_order false) l → StronglySorted (row_order true) (reverse l).
Proof. intros Hl. by apply (StronglySorted_reverse (row_order false)). Qed.

#[local] Instance position_le_total : Total position_le.
Proof. intros a b. unfold position_le. lia. Qed.

#[local] Instance position_le_trans : Transitive position_le.
Proof. intros a b c. unfold position_le. lia. Qed.

Lemma sorted_snapshot (snapshot : rows) :
  StronglySorted (row_order false) (merge_sort position_le (map_to_list snapshot)).
Proof.
  assert (StronglySorted position_le (merge_sort position_le (map_to_list snapshot))) as Hs.
  { apply (StronglySorted_merge_sort _). }
  assert (NoDup (merge_sort position_le (map_to_list snapshot)).*1) as Hn.
  { rewrite merge_sort_Permutation. apply NoDup_fst_map_to_list. }
  induction Hs as [|a l Hl IH Ha]; [constructor|]. apply NoDup_cons in Hn as [Hn Hnd].
  constructor; [by apply IH|]. rewrite Forall_forall in Ha |- *. intros b Hb.
  specialize (Ha b Hb). unfold position_le in Ha. cbn.
  assert (a.1 ≠ b.1); [|lia]. intros E. apply Hn. rewrite E. by apply list_elem_of_fmap_2.
Qed.

(** The rows of the snapshot within the bounds that meet the criteria, in read
    order. *)
Definition read_selection (query : Query) (opts : ReadOptions) (upperBound : option Z)
    (snapshot : rows) (l : list (Z * row)) : Prop :=
  StronglySorted (row_order (Backwards opts)) l ∧
  ∀ p r, (p, r) ∈ l ↔
    snapshot !! p = Some r ∧ within_bounds p opts upperBound ∧ criteria_selects r query.

Lemma eval_statement_selection query opts upperBound snapshot :
  let '(st, args) := read_statement query opts upperBound in
  ∃ l, read_selection query opts upperBound snapshot l ∧
    eval_statement st args snapshot = limit_to (Limit opts) l.
Proof.
  pose proof (λ p r, eval_read_statement p r query opts upperBound) as He.
  pose proof (read_statement_limit query opts upperBound) as Hl.
  destruct (read_statement query opts upperBound) as [st args]. destruct Hl as [Hd Hl].
  set (sel := filter (λ pr, forallb (eval_filter args pr.1 pr.2) (filters st) = true)
                (merge_sort position_le (map_to_list snapshot))).
  assert (StronglySorted (row_order false) sel) as Hs.
  { apply StronglySorted_filter, sorted_snapshot. }
  assert (∀ p r, (p, r) ∈ sel ↔
    snapshot !! p = Some r ∧ within_bounds p opts upperBound ∧ criteria_selects r query) as Hin.
  { intros p r. unfold sel. rewrite list_elem_of_filter, merge_sort_Permutation,
      elem_of_map_to_list, He. tauto. }
  exists (if Backwards opts then reverse sel else sel). split.
  - split; destruct (Backwards opts); try done; [by apply row_order_reverse|].
    intros p r. by rewrite elem_of_reverse.
  - unfold eval_statement, limit_to. fold sel. rewrite Hd.
    destruct (limit_ph st) as [ph|].
    + destruct Hl as [Hlim ->]. by rewrite decide_True.
    + by rewrite decide_False by lia.
Qed.

(** ** The text carries no value *)

Definition same_item_shape (a b : QueryItem) : Prop :=
  length (Types a) = length (Types b) ∧ (Len (Item_Tags a) = 0%nat ↔ Len (Item_Tags b) = 0%nat).

(** Queries with the same numbers of types and of tag filters. *)
Definition same_shape (q q' : Query) : Prop :=
  IsAll q = IsAll q' ∧ Forall2 same_item_shape (Items q) (Items q').

Definition same_bounds (opts opts' : ReadOptions) : Prop :=
  Backwards opts = Backwards opts' ∧ (0 < Limit opts ↔ 0 < Limit opts') ∧
  (is_Some (Read_After opts) ↔ is_Some (Read_After opts')).

Lemma item_filters_shape a b n : same_item_shape a b →
  (item_filters a n).1 = (item_filters b n).1 ∧
  length (item_filters a n).2 = length (item_filters b n).2.
Proof.
  intros [Ht Hl]. unfold item_filters, item_types, item_tags.
  assert (Types a = [] ↔ Types b = []) as Hn by (by rewrite <-!length_zero_iff_nil, Ht).
  repeat case_decide; try tauto; cbn; rewrite ?length_app, ?length_fmap; cbn;
    split; congruence.
Qed.

Lemma items_filters_shape its its' n : Forall2 same_item_shape its its' →
  (items_filters its n).1 = (items_filters its' n).1 ∧
  length (items_filters its n).2 = length (items_filters its' n).2.
Proof.
  intros H. revert n. induction H as [|a b its its' Hab _ IH]; intros n; [done|].
  cbn. destruct (item_filters_shape a b n Hab) as [Hf Hp].
  destruct (item_filters a n) as [fs ps], (item_filters b n) as [fs' ps']. cbn in Hf, Hp.
  rewrite <-Hp, <-Hf. destruct (IH (n + length ps)%nat) as [Hf' Hp'].
  destruct (items_filters its _) as [gs qs], (items_filters its' _) as [gs' qs'].
  cbn in *. rewrite Hf', !length_app, Hp, Hp'. by split.
Qed.

Lemma read_statement_shape query query' opts opts' hwm hwm' :
  same_shape query query' → same_bounds opts opts' → (is_Some hwm ↔ is_Some hwm') →
  (read_statement query opts hwm).1 = (read_statement query' opts' hwm').1 ∧
  length (read_statement query opts hwm).2 = length (read_statement query' opts' hwm').2.
Proof.
  intros [Hall Hits] (Hb&Hlim&Haft) Hhwm. unfold read_statement.
  assert ((after_filter opts).1 = (after_filter opts').1 ∧
    length (after_filter opts).2 = length (after_filter opts').2) as [H1 L1].
  { unfold after_filter. rewrite Hb. destruct (Read_After opts), (Read_After opts'); try done;
      by rewrite !is_Some_alt in Haft; destruct Haft. }
  destruct (after_filter opts) as [fs1 ps1], (after_filter opts') as [fs1' ps1'].
  cbn in H1, L1. rewrite <-L1, <-H1.
  assert ((upper_filter hwm (length ps1)).1 = (upper_filter hwm' (length ps1)).1 ∧
    length (upper_filter hwm (length ps1)).2 = length (upper_filter hwm' (length ps1)).2)
    as [H2 L2].
  { unfold upper_filter. destruct hwm, hwm'; try done;
      by rewrite !is_Some_alt in Hhwm; destruct Hhwm. }
  destruct (upper_filter hwm _) as [fs2 ps2], (upper_filter hwm' _) as [fs2' ps2'].
  cbn in H2, L2. rewrite <-L2, <-H2.
  assert ((criteria query (length ps1 + length ps2)).1 =
      (criteria query' (length ps1 + length ps2)).1 ∧
    length (criteria query (length ps1 + length ps2)).2 =
      length (criteria query' (length ps1 + length ps2)).2) as [H3 L3].
  { unfold criteria. rewrite <-Hall. destruct (IsAll query); [done|].
    destruct (items_filters_shape _ _ (length ps1 + length ps2) Hits) as [Hf Hp].
    destruct (items_filters (Items query) _), (items_filters (Items query') _).
    cbn in Hf, Hp. rewrite Hf. by split. }
  destruct (criteria query _) as [fs3 ps3], (criteria query' _) as [fs3' ps3'].
  cbn in H3, L3. rewrite H3, Hb. repeat case_decide; try tauto; cbn;
    rewrite !length_app, ?L1, ?L2, ?L3; (split; [|done]);
    by rewrite ?length_app, ?L1, ?L2, ?L3.
Qed.

(** ** Properties *)

(** C15: the text and arguments of a read denote what the read asks for: on any
    snapshot the statement returns the rows after (backwards: before) the
    bound and at or below the high-water mark that meet the criteria, in
    ascending (descending) position order, cut at the limit; and that is what
    the text means to a server that parses it, unless there are more arguments
    than the protocol can carry.  A bound beyond the range of [bigint] is the
    only panic. *)
Theorem buildReadSQL_selects tableName query opts upperBound :
  (∀ pos, Read_After opts = Some pos → pos_wf pos) →
  ((∀ pos, Read_After opts = Some pos → value pos < two63) →
     ∃ st args,
       buildReadSQL tableName query opts upperBound = Ok (render_statement tableName st, args) ∧
       ∀ snapshot, ∃ l, read_selection query opts upperBound snapshot l ∧
         eval_statement st args snapshot = limit_to (Limit opts) l ∧
         declare tableName (render_statement tableName st) args snapshot =
           if decide (max_arguments < Z.of_nat (length args)) then Err too_many_arguments
           else Ok (limit_to (Limit opts) l)) ∧
  (∀ pos, Read_After opts = Some pos → two63 ≤ value pos →
     ∃ msg, buildReadSQL tableName query opts upperBound = Panic msg).
Proof.
  intros Hwf. split.
  - intros Hfit. rewrite buildReadSQL_render.
    2: { intros pos Hp. specialize (Hwf pos Hp) as [? _]. by specialize (Hfit pos Hp). }
    pose proof (eval_statement_selection query opts upperBound) as He.
    pose proof (declare_read_statement tableName query opts upperBound) as Hd.
    destruct (read_statement query opts upperBound) as [st args]. exists st, args.
    split; [done|]. intros snapshot. destruct (He snapshot) as (l&Hl&E). exists l.
    by rewrite Hd, E.
  - intros pos Hp Hbig. unfold buildReadSQL. rewrite Hp, positionToInt64_wf by (by apply Hwf).
    rewrite decide_False by lia. by eexists.
Qed.

(** C18: no type name, tag, position or limit of a caller becomes part of the
    SQL text: two reads that differ only in such values have the same text,
    and the values travel as arguments. *)
Theorem buildReadSQL_text_parametric tableName query query' opts opts' hwm hwm' sql args sql' args' :
  (∀ pos, Read_After opts = Some pos → pos_wf pos) →
  (∀ pos, Read_After opts' = Some pos → pos_wf pos) →
  same_shape query query' → same_bounds opts opts' → (is_Some hwm ↔ is_Some hwm') →
  buildReadSQL tableName query opts hwm = Ok (sql, args) →
  buildReadSQL tableName query' opts' hwm' = Ok (sql', args') →
  sql = sql' ∧ length args = length args'.
Proof.
  assert (∀ q o h s a, (∀ pos, Read_After o = Some pos → pos_wf pos) →
    buildReadSQL tableName q o h = Ok (s, a) →
    s = render_statement tableName (read_statement q o h).1 ∧ a = (read_statement q o h).2) as H.
  { intros q o h s a Hwf Hb. rewrite buildReadSQL_render in Hb.
    - destruct (read_statement q o h). by simplify_eq/=.
    - intros pos Hp. destruct (Hwf pos Hp) as [? _]. split; [done|].
      apply Znot_ge_lt. intros Hge. unfold buildReadSQL in Hb.
      rewrite Hp, positionToInt64_wf, decide_False in Hb by first [lia|by apply Hwf]. done. }
  intros Hwf Hwf' Hq Ho Hh [-> ->]%H [-> ->]%H; try done.
  pose proof (read_statement_shape query query' opts opts' hwm hwm' Hq Ho Hh) as [-> Hl].
  by split.
Qed.

(** *** Witnesses *)

Definition w_item (types tags : list string) : QueryItem :=
  mkItem types (mkTags (list_to_set tags)).
Definition w_query (types tags : list string) : Query := mkQuery [w_item types tags] false.
Definition w_opts (after limit : Z) : ReadOptions :=
  mkReadOptions false (Some (mkPosition after)) limit.

Definition w_rows : rows :=
  list_to_map [(1, mkRow "a" ["x"] "p"); (2, mkRow "b" ["x"; "y"] "q"); (3, mkRow "b" ["y"] "r");
    (4, mkRow "b" ["x"] "s"); (5, mkRow "b" [] "t"); (6, mkRow "b" ["x"] "u")].

Lemma buildReadSQL_selects_witness :
  pos_wf (mkPosition 1) ∧
  (∃ st args,
    buildReadSQL "events" (w_query ["a"; "b"] ["x"]) (w_opts 1 1) (Some 5) =
      Ok (render_statement "events" st, args) ∧
    ∀ snapshot, ∃ l,
      read_selection (w_query ["a"; "b"] ["x"]) (w_opts 1 1) (Some 5) snapshot l ∧
      eval_statement st args snapshot = limit_to 1 l ∧
      declare "events" (render_statement "events" st) args snapshot =
        if decide (max_arguments < Z.of_nat (length args)) then Err too_many_arguments
        else Ok (limit_to 1 l)) ∧
  (match buildReadSQL "events" (w_query ["a"; "b"] ["x"]) (w_opts 1 1) (Some 5) with
   | Ok (sql, args) => declare "events" sql args w_rows
   | _ => Ok []
   end) = Ok [(2, mkRow "b" ["x"; "y"] "q")] ∧
  fst <$> buildReadSQL "events" (w_query ["a"; "b"] ["x"]) (w_opts 1 1) (Some 5) =
    Ok ("DECLARE " +:+ quote +:+ "event_cursor" +:+ quote +:+
      " CURSOR FOR SELECT e.sequence_position, e.type, e.payload, e.tags FROM events e WHERE e.sequence_position > $1 AND e.sequence_position <= $2 AND (type IN ($3, $4) AND tags && $5::text[]) ORDER BY e.sequence_position ASC LIMIT $6").
Proof.
  assert (pos_wf (mkPosition 1)) as Hwf by (split; vm_compute; congruence).
  split_and!; [done| |vm_compute; reflexivity|vm_compute; reflexivity].
  apply (buildReadSQL_selects "events" (w_query ["a"; "b"] ["x"]) (w_opts 1 1) (Some 5)).
  - by intros pos [= <-].
  - intros pos [= <-]. by vm_compute.
Defined.

Lemma buildReadSQL_text_parametric_witness :
  ∃ sql args args',
    buildReadSQL "events" (w_query ["a"] ["x"; "y"]) (w_opts 1 1) None = Ok (sql, args) ∧
    buildReadSQL "events" (w_query ["'); DROP TABLE events; --"] ["x"]) (w_opts 7 2) None =
      Ok (sql, args') ∧
    length args = length args' ∧ args ≠ args'.
Proof.
  destruct (buildReadSQL "events" (w_query ["a"] ["x"; "y"]) (w_opts 1 1) None)
    as [[sql args]| |] eqn:E; [|by vm_compute in E..].
  destruct (buildReadSQL "events" (w_query ["'); DROP TABLE events; --"] ["x"]) (w_opts 7 2) None)
    as [[sql' args']| |] eqn:E'; [|by vm_compute in E'..].
  destruct (buildReadSQL_text_parametric "events" (w_query ["a"] ["x"; "y"])
    (w_query ["'); DROP TABLE events; --"] ["x"]) (w_opts 1 1) (w_opts 7 2) None None
    sql args sql' args') as [-> Hl]; try done.
  - intros pos [= <-]. split; vm_compute; congruence.
  - intros pos [= <-]. split; vm_compute; congruence.
  - split; [done|]. constructor; [|done]. split; [done|]. by vm_compute.
  - exists sql', args, args'. split_and!; [done..|].
    vm_compute in E, E'. congruence.
Defined.
