(* ===== verification/PgProcedures.v ===== *)
(** * PgProcedures

    The stored procedures that [EnsureInstalled] creates
    ([src/postgres/store.go]), as programs over the server: the check of append
    conditions, the append, and the read barrier, with the query that takes
    writer locks ([src/postgres/append.go]).

    SQL arrays are [option (list A)], [None] for NULL; an element outside an
    array is NULL, and a comparison with NULL does not hold.  The planner
    settings of the condition check ([SET LOCAL]) do not change its result and
    are left out. *)

From S2P Require Import Prelude.
From S2P Require Import GoStrconv.
From S2P Require Import Serialize.
From S2P Require Import PgServer.

Local Open Scope Z_scope.

(** ** SQL arrays *)

Definition array_elems {A} (a : option (list A)) : list A := default [] a.

(** [a IS NOT NULL AND array_length(a, 1) > 0]: the length of an empty array
    is NULL. *)
Definition array_nonempty {A} (a : option (list A)) : bool :=
  match a with Some (_ :: _) => true | _ => false end.

(** [unnest] of four arrays: as many rows as the longest has elements, the
    others padded with NULL. *)
Definition unnest4 {A B C D} (a : option (list A)) (b : option (list B))
    (c : option (list C)) (d : option (list D)) :
    list (option A * option B * option C * option D) :=
  let a := array_elems a in let b := array_elems b in
  let c := array_elems c in let d := array_elems d in
  (λ i, (a !! i, b !! i, c !! i, d !! i)) <$>
    seq 0 (Nat.max (Nat.max (length a) (length b)) (Nat.max (length c) (length d))).

(** ** Conditions *)

(** [CASE WHEN s = '' THEN ARRAY[]::text[] ELSE string_to_array(s, d) END] *)
Definition unpack_tags (s : option string) : option (list string) :=
  s ← s; Some (if decide (s = EmptyString) then [] else string_to_array s delimiter).

(** [tags @> ctags] *)
Definition contains_all (tags ctags : list string) : bool :=
  forallb (λ tag, bool_decide (tag ∈ tags)) ctags.

(** The [WHERE] clause over a row [r] at position [p]. *)
Definition row_satisfies (ctype : option string) (ctags : option (list string))
    (after : option Z) (hwm p : Z) (r : row) : bool :=
  match ctype, ctags, after with
  | Some ctype, Some ctags, Some after =>
      contains_all (r_tags r) ctags && bool_decide (r_type r = ctype) &&
      bool_decide (after < p) && bool_decide (p ≤ hwm)
  | _, _, _ => false
  end.

Definition exists_row (snapshot : rows) (test : Z → row → bool) : bool :=
  existsb (λ '(p, r), test p r) (map_to_list snapshot).

(** [SELECT idx INTO v ... ORDER BY idx LIMIT 1]: the smallest index, NULL
    sorting last, and NULL when there is no row. *)
Definition select_first (idxs : list (option Z)) : option Z :=
  foldr (λ idx first,
    match idx, first with
    | Some i, Some j => Some (Z.min i j)
    | Some i, None => Some i
    | None, first => first
    end) None idxs.

Definition failing_conditions (idxs : option (list Z)) (types tags : option (list string))
    (after : option (list Z)) (hwm : Z) (snapshot : rows) : list (option Z) :=
  (λ '(idx, _, _, _), idx) <$>
    List.filter (λ '(_, ctype, ctags, cafter),
        exists_row snapshot (row_satisfies ctype (unpack_tags ctags) cafter hwm))
      (unnest4 idxs types tags after).

Definition check_conditions (p_cmd_idxs : option (list Z)) (p_types p_tags : option (list string))
    (p_after : option (list Z)) (p_hwm : Z) : prog (outcome db_error (option Z)) :=
  snapshot ←! call CSnapshot;
  Ret (Ok (select_first (failing_conditions p_cmd_idxs p_types p_tags p_after p_hwm snapshot))).

(** ** Locks *)

Definition key_le (l l' : lock) : Prop := l.1 ≤ l'.1.

#[export] Instance key_le_dec : RelDecision key_le.
Proof. intros l l'. unfold key_le. apply _. Defined.
#[export] Instance key_le_trans : Transitive key_le.
Proof. intros ???. unfold key_le. lia. Qed.
#[export] Instance key_le_total : Total key_le.
Proof. intros [k ?] [k' ?]. unfold key_le. cbn. lia. Qed.

(** [... FROM (SELECT k, m FROM unnest(a) k UNION ALL SELECT k, m' FROM
    unnest(b) k) t ORDER BY k]: the order of equal keys is unspecified. *)
Definition key_ordered (a : option (list Z)) (m : bool) (b : option (list Z)) (m' : bool) :
    list lock :=
  merge_sort key_le (((λ k, (k, m)) <$> array_elems a) ++ ((λ k, (k, m')) <$> array_elems b)).

Fixpoint acquire (ls : list lock) : prog (outcome db_error unit) :=
  match ls with
  | [] => Ret (Ok ())
  | (k, excl) :: ls => call (CLock k excl) ;;! acquire ls
  end.

Definition acquireWriterLocksSQL (leafX intentS : option (list Z)) : prog (outcome db_error unit) :=
  acquire (key_ordered leafX true intentS false).

(** ** The append *)

Definition not_null_violation : db_error := PgError "null value violates not-null constraint".

(** [INSERT ... SELECT p_types[i], string_to_array(p_tags[i], d), p_payloads[i]
    FROM generate_subscripts(p_types, 1) AS i], for the remaining subscripts. *)
Fixpoint insert_subscripts (subs : list nat) (types tags payloads : list string) :
    prog (outcome db_error unit) :=
  match subs with
  | [] => Ret (Ok ())
  | i :: subs =>
      match types !! i, tags !! i, payloads !! i with
      | Some ty, Some tg, Some pl =>
          call (CInsert (mkRow ty (string_to_array tg delimiter) pl)) ;;!
          insert_subscripts subs types tags payloads
      | _, _, _ => Ret (Err not_null_violation)
      end
  end.

(** [RAISE EXCEPTION 'APPEND_CONDITION_VIOLATED:cmd=%', idx] *)
Definition raise_violation (idx : option Z) : prog (outcome db_error unit) :=
  Ret (Err (PgError (match idx with
    | Some idx => violation_message idx
    | None => violation_prefix +:+ "<NULL>"
    end))).

(** The part between the high-water mark and the insertion. *)
Definition verify_conditions (p_cond_cmd_idxs : option (list Z))
    (p_cond_types p_cond_tags : option (list string)) (p_cond_after : option (list Z))
    (v_hwm : Z) : prog (outcome db_error unit) :=
  if array_nonempty p_cond_cmd_idxs then
    if decide (length (array_elems p_cond_cmd_idxs) = 1%nat) then
      snapshot ←! call CSnapshot;
      if exists_row snapshot
           (row_satisfies (array_elems p_cond_types !! 0%nat)
              (unpack_tags (array_elems p_cond_tags !! 0%nat))
              (array_elems p_cond_after !! 0%nat) v_hwm)
      then raise_violation (array_elems p_cond_cmd_idxs !! 0%nat)
      else Ret (Ok ())
    else
      v_failed ←! check_conditions p_cond_cmd_idxs p_cond_types p_cond_tags p_cond_after v_hwm;
      match v_failed with
      | Some idx => raise_violation (Some idx)
      | None => Ret (Ok ())
      end
  else Ret (Ok ()).

Definition events_append (notifyChannel : string)
    (p_lock_keys p_intent_keys : option (list Z)) (p_types p_tags p_payloads : option (list string))
    (p_cond_cmd_idxs : option (list Z)) (p_cond_types p_cond_tags : option (list string))
    (p_cond_after : option (list Z)) : prog (outcome db_error Z) :=
  (if array_nonempty p_lock_keys || array_nonempty p_intent_keys
   then acquire (key_ordered p_lock_keys true p_intent_keys false)
   else Ret (Ok ())) ;;!
  last ←! call CLastValue;
  verify_conditions p_cond_cmd_idxs p_cond_types p_cond_tags p_cond_after (coalesce_last last) ;;!
  insert_subscripts (seq 0 (length (array_elems p_types))) (array_elems p_types)
    (array_elems p_tags) (array_elems p_payloads) ;;!
  v_pos ←! call CCurrval;
  call (CNotify notifyChannel (FormatInt v_pos)) ;;!
  Ret (Ok v_pos).

(** ** The read barrier *)

Definition barrier_hwm (p_shared_keys p_exclusive_keys : option (list Z)) :
    prog (outcome db_error Z) :=
  acquire (key_ordered p_shared_keys false p_exclusive_keys true) ;;!
  last ←! call CLastValue;
  Ret (Ok (coalesce_last last)).
