(* ===== verification/PgStore.v ===== *)
(** * PgStore

    The Go side of the Postgres store: its construction
    ([src/postgres/store.go]), [Append] with its two paths
    ([src/postgres/append.go]) and the read barrier of [Read]
    ([src/postgres/read.go]), as programs over the server.

    The driver is represented by the commands that its calls cause on the
    server; it sends a nil slice as NULL and an empty one as an empty array. *)

From S2P Require Import Prelude.
From S2P Require Import GoStrconv.
From S2P Require Import GoStrings.
From S2P Require Import SequencePosition.
From S2P Require Import Tags.
From S2P Require Import EventStore.
From S2P Require Import Matching.
From S2P Require Import StoreSpec.
From S2P Require Import LockKeys.
From S2P Require Import Serialize.
From S2P Require Import PgServer.
From S2P Require Import PgProcedures.

Local Open Scope Z_scope.

(** ** Construction *)

Record Store := mkStore {
  tableName : string;
  appendFunctionName : string;
  checkFunctionName : string;
  barrierFunctionName : string;
  notifyChannel : string;
  copyThreshold : Z;
}.

Record Options := mkOptions {
  TablePrefix : string;
  CopyThreshold : Z;
}.

Definition defaultCopyThreshold : Z := 10000.

(** The character classes of [validIdentifier] under [(?i)]: Unicode case
    folding adds U+017F to the class of [s] and U+212A to that of [k]. *)
Definition ident_letter (r : Z) : bool :=
  bool_decide (97 ≤ r ≤ 122 ∨ 65 ≤ r ≤ 90 ∨ r = 383 ∨ r = 8490).
Definition ident_start (r : Z) : bool := ident_letter r || bool_decide (r = 95).
Definition ident_rest (r : Z) : bool := ident_start r || bool_decide (48 ≤ r ≤ 57).

(** [validIdentifier.MatchString] *)
Definition validIdentifier (s : string) : bool :=
  match runes s with
  | [] => false
  | r :: rs => ident_start r && forallb ident_rest rs && bool_decide (length rs ≤ 62)%nat
  end.

(** [fmt.Errorf("invalid table name ...")] *)
Inductive new_error := ErrTableName (name : string).

Definition New (opts : Options) : outcome new_error Store :=
  let tableName :=
    if decide (TablePrefix opts ≠ EmptyString) then TablePrefix opts +:+ "_events" else "events" in
  if negb (validIdentifier tableName) then Err (ErrTableName tableName)
  else
    let copyThreshold :=
      if decide (CopyThreshold opts ≤ 0) then defaultCopyThreshold else CopyThreshold opts in
    Ok (mkStore tableName (tableName +:+ "_append") (tableName +:+ "_check_conditions")
          (tableName +:+ "_barrier_hwm") tableName copyThreshold).

(** ** Append *)

(** A slice built by [append] from nil is nil when nothing was appended. *)
Definition appended {A} (l : list A) : option (list A) :=
  match l with [] => None | _ => Some l end.

(** A database error that is returned as it is. *)
Definition db_store_error (err : db_error) : store_error :=
  match err with PgError msg | OtherError msg => EDatabase msg end.

(** [if err != nil { return ..., err }] around a call to the database. *)
Definition db {A} (m : prog (outcome db_error A)) : prog (outcome store_error A) :=
  prog_bind m (λ r, Ret (map_err db_store_error r)).

(** A pure step of the client, which may panic. *)
Definition lift {E A} (r : outcome E A) : prog (outcome E A) := Ret r.

Fixpoint validate_all (commands : list AppendCommand) : outcome store_error unit :=
  match commands with
  | [] => Ok ()
  | cmd :: commands =>
      match Condition cmd with
      | Some c =>
          match ValidateAppendCondition c with
          | Err e => Err (ECondition e)
          | Panic msg => Panic msg
          | Ok _ => validate_all commands
          end
      | None => validate_all commands
      end
  end.

(** [totalEvents += len(cmd.Events)] over the commands. *)
Definition totalEvents (commands : list AppendCommand) : Z :=
  foldl (λ n cmd, n + Z.of_nat (length (Events cmd))) 0 commands.

Definition appendViaFunction (s : Store) (commands : list AppendCommand) (keys : writerLockKeys) :
    prog (outcome store_error SequencePosition) :=
  let evs := serializeEvents commands in
  conds ←! lift (serializeConditions commands);
  r ← statement (events_append (notifyChannel s)
        (Some (leafX keys)) (Some (intentS keys))
        (appended (ea_types evs)) (appended (ea_tags evs)) (appended (ea_payloads evs))
        (appended (ca_idxs conds)) (appended (ca_types conds)) (appended (ca_tags conds))
        (appended (ca_after conds)));
  match r with
  | Ok pos => lift (int64ToPosition pos)
  | Err err =>
      match parseConditionViolation err with
      | Some idx => lift (conditionError commands idx)
      | None => Ret (Err (db_store_error err))
      end
  | Panic msg => Ret (Panic msg)
  end.

(** [checkConditions]: [None] is [(0, false, nil)]. *)
Definition checkConditions (commands : list AppendCommand) (hwm : Z) :
    prog (outcome store_error (option Z)) :=
  conds ←! lift (serializeConditions commands);
  if decide (length (ca_idxs conds) = 0%nat) then Ret (Ok None)
  else db (check_conditions (appended (ca_idxs conds)) (appended (ca_types conds))
             (appended (ca_tags conds)) (appended (ca_after conds)) hwm).

(** [COPY]: the driver sends the rows one after another. *)
Fixpoint copy_rows (events : list Event) : prog (outcome db_error unit) :=
  match events with
  | [] => Ret (Ok ())
  | ev :: events =>
      call (CInsert (mkRow (Type_ ev) (Values (Event_Tags ev)) (serializePayload ev))) ;;!
      copy_rows events
  end.

(** The statements between [BeginTx] and the deferred [Rollback]. *)
Definition copy_transaction (s : Store) (commands : list AppendCommand) (keys : writerLockKeys) :
    prog (outcome store_error SequencePosition) :=
  db (acquireWriterLocksSQL (Some (leafX keys)) (Some (intentS keys))) ;;!
  last ←! db (call CLastValue);
  let hwm := coalesce_last last in
  violated ←! checkConditions commands hwm;
  match violated with
  | Some idx => lift (conditionError commands idx)
  | None =>
      let events := mjoin (Events <$> commands) in
      db (copy_rows events) ;;!
      pos ←! db (call CCurrval);
      db (call (CNotify (notifyChannel s) (FormatInt pos))) ;;!
      db (call CCommit) ;;! db (call CReply) ;;!
      lift (int64ToPosition pos)
  end.

Definition appendViaCopy (s : Store) (commands : list AppendCommand) (keys : writerLockKeys) :
    prog (outcome store_error SequencePosition) :=
  db (call CBegin) ;;!
  r ← copy_transaction s commands keys;
  Do CRollback (λ _, Ret r).

Definition Append (s : Store) (commands : list AppendCommand) :
    prog (outcome store_error SequencePosition) :=
  lift (validate_all commands) ;;!
  let keys := commandKeys commands in
  if decide (totalEvents commands = 0) then Ret (Err EZeroEvents)
  else if decide (totalEvents commands ≤ copyThreshold s) then
    appendViaFunction s commands keys
  else appendViaCopy s commands keys.

(** ** The barrier of a forward read *)

Definition barrierSnapshot (query : Query) : prog (outcome store_error Z) :=
  let keys := computeReaderLockKeys query in
  db (statement (barrier_hwm (Some (leafS keys)) (Some (intentX keys)))).
