(* ===== verification/PgInstall.v ===== *)
(** * PgInstall

    The installation of the Postgres store ([EnsureInstalled] of
    [src/postgres/store.go]): the migration lock, the statements that create
    the table, its indexes and the stored procedures, the early return at the
    first error and the deferred unlock.  The procedures themselves are modelled
    in [PgProcedures]. *)

From S2P Require Import Prelude.
From S2P Require Import Serialize.
From S2P Require Import PgServer.
From S2P Require Import PgStore.

Local Open Scope Z_scope.

(** ** The catalog *)

Inductive index_kind := TypePositionIndex | TagsIndex.

Inductive relation_ :=
  | RTable (columns : list (string * string))
  | RIndex (table : string) (kind : index_kind).

(** A stored procedure, by what its text mentions. *)
Inductive procedure :=
  | CheckProcedure (table delim : string)
  | AppendProcedure (table delim channel check : string)
  | BarrierProcedure (table : string).

(** Functions with the same name and other argument types are others. *)
Record catalog := mkCatalog {
  relations : gmap string relation_;
  functions : gmap (string * list string) procedure;
}.

Definition signature (p : procedure) : list string :=
  match p with
  | CheckProcedure _ _ => ["int[]"; "text[]"; "text[]"; "bigint[]"; "bigint"]
  | AppendProcedure _ _ _ _ =>
      ["bigint[]"; "bigint[]"; "text[]"; "text[]"; "text[]"; "int[]"; "text[]"; "text[]"; "bigint[]"]
  | BarrierProcedure _ => ["bigint[]"; "bigint[]"]
  end.

Definition event_columns : list (string * string) :=
  [("sequence_position", "BIGSERIAL PRIMARY KEY"); ("type", "TEXT"); ("tags", "TEXT[]");
   ("payload", "TEXT")].

Section install.
(** The name that an unquoted identifier stands for: the server folds its case
    and cuts it to a maximal length. *)
Context (resolve : string → string).

(** [IF NOT EXISTS] asks for any relation of the name. *)
Definition create_table (name : string) (c : catalog) : option catalog :=
  match relations c !! resolve name with
  | Some _ => Some c
  | None => Some (mkCatalog (<[resolve name := RTable event_columns]> (relations c)) (functions c))
  end.

Definition create_index (name table : string) (kind : index_kind) (c : catalog) : option catalog :=
  match relations c !! resolve table with
  | Some (RTable _) =>
      match relations c !! resolve name with
      | Some _ => Some c
      | None =>
          Some (mkCatalog (<[resolve name := RIndex (resolve table) kind]> (relations c)) (functions c))
      end
  | _ => None
  end.

Definition create_function (name : string) (p : procedure) (c : catalog) : option catalog :=
  Some (mkCatalog (relations c) (<[(resolve name, signature p) := p]> (functions c))).

(** The four texts that are executed.  The three statements of the first one
    run in one implicit transaction. *)
Definition create_schema (s : Store) (c : catalog) : option catalog :=
  c ← create_table (tableName s) c;
  c ← create_index (tableName s +:+ "_type_pos_idx") (tableName s) TypePositionIndex c;
  create_index (tableName s +:+ "_tags_gin") (tableName s) TagsIndex c.

Definition install_statements (s : Store) : list (catalog → option catalog) :=
  [create_schema s;
   create_function (checkFunctionName s) (CheckProcedure (tableName s) tagDelimiter);
   create_function (appendFunctionName s)
     (AppendProcedure (tableName s) tagDelimiter (notifyChannel s) (checkFunctionName s));
   create_function (barrierFunctionName s) (BarrierProcedure (tableName s))].

(** ** Executing statements on a connection *)

(** The migration lock belongs to a session, that is, to a connection, which
    can take it more than once. *)
Record database := mkDatabase {
  db_catalog : catalog;
  migration_lock : option (nat * nat);
}.

(** What happens to a call of [conn.Exec]: the server gets it; the server
    refuses it; the context has ended before it is sent; or the connection
    breaks, which ends the session, before the server has executed the
    statement or after it, when only the reply is lost. *)
Inductive fate :=
  | Sent
  | Refused (err : db_error)
  | NotSent (err : db_error)
  | Broken (err : db_error)
  | Lost (err : db_error).

(** What the server makes of a statement; it can be waiting for a lock. *)
Inductive effect :=
  | Done (d : database)
  | Error_ (err : db_error)
  | Waits.

Definition missing_table : db_error := PgError "relation does not exist".
Definition conn_closed : db_error := OtherError "conn closed".

Definition end_session (conn : nat) (d : database) : database :=
  match migration_lock d with
  | Some (holder, n) =>
      if decide (holder = conn) then mkDatabase (db_catalog d) None else d
  | None => d
  end.

(** A connection, as long as it works, and the server. *)
Definition Exec (conn : nat) (f : fate) (stmt : database → effect) (alive : bool) (d : database) :
    option (outcome db_error unit * bool * database) :=
  if negb alive then Some (Err conn_closed, false, d)
  else
    match f with
    | Refused err | NotSent err => Some (Err err, true, d)
    | Broken err => Some (Err err, false, end_session conn d)
    | Lost err =>
        Some (Err err, false, end_session conn (match stmt d with Done d => d | _ => d end))
    | Sent =>
        match stmt d with
        | Done d => Some (Ok (), true, d)
        | Error_ err => Some (Err err, true, d)
        | Waits => None
        end
    end.

(** [SELECT pg_advisory_lock($1)] and [SELECT pg_advisory_unlock($1)]; the
    latter warns when the lock is not held. *)
Definition lock_stmt (conn : nat) (d : database) : effect :=
  match migration_lock d with
  | None => Done (mkDatabase (db_catalog d) (Some (conn, 1%nat)))
  | Some (holder, n) =>
      if decide (holder = conn) then Done (mkDatabase (db_catalog d) (Some (conn, S n))) else Waits
  end.

Definition unlock_stmt (conn : nat) (d : database) : effect :=
  match migration_lock d with
  | Some (holder, S (S n)) =>
      if decide (holder = conn) then Done (mkDatabase (db_catalog d) (Some (conn, S n))) else Done d
  | Some (holder, _) =>
      if decide (holder = conn) then Done (mkDatabase (db_catalog d) None) else Done d
  | None => Done d
  end.

Definition ddl (stmt : catalog → option catalog) (d : database) : effect :=
  match stmt (db_catalog d) with
  | Some c => Done (mkDatabase c (migration_lock d))
  | None => Error_ missing_table
  end.

(** ** EnsureInstalled *)

(** [if _, err := conn.Exec(...); err != nil { return err }], one after another. *)
Fixpoint exec_all (conn : nat) (fates : list fate) (stmts : list (catalog → option catalog))
    (alive : bool) (d : database) : option (outcome db_error unit * bool * database) :=
  match stmts with
  | [] => Some (Ok (), alive, d)
  | stmt :: stmts =>
      '(r, alive, d) ← Exec conn (default Sent (head fates)) (ddl stmt) alive d;
      match r with
      | Ok _ => exec_all conn (tail fates) stmts alive d
      | r => Some (r, alive, d)
      end
  end.

(** What the environment does to a call. *)
Record install_env := mkInstallEnv {
  on_acquire : option db_error;
  on_lock : fate;
  on_statements : list fate;
  on_unlock : fate;
}.

(** [None]: the call waits for the migration lock.  The error of the deferred
    unlock is ignored, and the connection goes back to the pool as it is. *)
Definition EnsureInstalled (s : Store) (conn : nat) (env : install_env) (d : database) :
    option (outcome db_error unit * database) :=
  match on_acquire env with
  | Some err => Some (Err err, d)
  | None =>
      '(r, alive, d) ← Exec conn (on_lock env) (lock_stmt conn) true d;
      match r with
      | Ok _ =>
          '(r, alive, d) ← exec_all conn (on_statements env) (install_statements s) alive d;
          '(_, _, d) ← Exec conn (on_unlock env) (unlock_stmt conn) alive d;
          Some (r, d)
      | r => Some (r, d)
      end
  end.

(** ** What an installation leaves *)

(** The statements of a list, one after another. *)
Fixpoint apply_all (stmts : list (catalog → option catalog)) (c : catalog) : option catalog :=
  match stmts with
  | [] => Some c
  | stmt :: stmts => c ← stmt c; apply_all stmts c
  end.

Record installed (s : Store) (c : catalog) : Prop := {
  installed_table : ∃ columns, relations c !! resolve (tableName s) = Some (RTable columns);
  installed_indexes : is_Some (relations c !! resolve (tableName s +:+ "_type_pos_idx")) ∧
    is_Some (relations c !! resolve (tableName s +:+ "_tags_gin"));
  installed_check : functions c !!
    (resolve (checkFunctionName s), signature (CheckProcedure "" "")) =
    Some (CheckProcedure (tableName s) tagDelimiter);
  installed_append : functions c !!
    (resolve (appendFunctionName s), signature (AppendProcedure "" "" "" "")) =
    Some (AppendProcedure (tableName s) tagDelimiter (notifyChannel s) (checkFunctionName s));
  installed_barrier : functions c !!
    (resolve (barrierFunctionName s), signature (BarrierProcedure "")) =
    Some (BarrierProcedure (tableName s));
}.

(** The name of the table is free, or a table's. *)
Definition installable (s : Store) (c : catalog) : Prop :=
  ∀ r, relations c !! resolve (tableName s) = Some r → ∃ columns, r = RTable columns.

Lemma create_table_spec name c :
  ∃ c', create_table name c = Some c' ∧ is_Some (relations c' !! resolve name) ∧
    (∀ n r, relations c !! n = Some r → relations c' !! n = Some r) ∧
    (relations c !! resolve name = None → relations c' !! resolve name = Some (RTable event_columns)).
Proof.
  unfold create_table. destruct (relations c !! resolve name) as [r|] eqn:E.
  - exists c. split_and!; [done|by eexists|done|done].
  - eexists. split; [done|]. cbn. rewrite lookup_insert_eq. split_and!; [by eexists| |done].
    intros n r Hn. rewrite lookup_insert_ne; [done|congruence].
Qed.

Lemma create_index_spec name table kind c columns :
  relations c !! resolve table = Some (RTable columns) →
  ∃ c', create_index name table kind c = Some c' ∧ is_Some (relations c' !! resolve name) ∧
    (∀ n r, relations c !! n = Some r → relations c' !! n = Some r).
Proof.
  intros Ht. unfold create_index. rewrite Ht.
  destruct (relations c !! resolve name) as [r|] eqn:E.
  - exists c. split_and!; [done|by eexists|done].
  - eexists. split; [done|]. cbn. rewrite lookup_insert_eq. split; [by eexists|].
    intros n r Hn. rewrite lookup_insert_ne; [done|congruence].
Qed.

(** Nothing is done twice. *)
Lemma create_schema_again s c columns :
  relations c !! resolve (tableName s) = Some (RTable columns) →
  is_Some (relations c !! resolve (tableName s +:+ "_type_pos_idx")) →
  is_Some (relations c !! resolve (tableName s +:+ "_tags_gin")) →
  create_schema s c = Some c.
Proof.
  intros Ht [r1 H1] [r2 H2]. unfold create_schema, create_table. rewrite Ht. cbn.
  unfold create_index. rewrite Ht, H1. cbn. by rewrite Ht, H2.
Qed.

Lemma create_schema_spec s c : installable s c →
  ∃ c', create_schema s c = Some c' ∧ create_schema s c' = Some c' ∧
    (∃ columns, relations c' !! resolve (tableName s) = Some (RTable columns)) ∧
    is_Some (relations c' !! resolve (tableName s +:+ "_type_pos_idx")) ∧
    is_Some (relations c' !! resolve (tableName s +:+ "_tags_gin")) ∧
    (∀ n r, relations c !! n = Some r → relations c' !! n = Some r) ∧
    functions c' = functions c.
Proof.
  intros Hok.
  destruct (create_table_spec (tableName s) c) as (c1&E1&[r1 Hr1]&Hsub1&Hnew).
  assert (∃ columns, r1 = RTable columns) as [columns ->].
  { destruct (relations c !! resolve (tableName s)) as [r|] eqn:E.
    - destruct (Hok r E) as [columns ->]. exists columns. apply Hsub1 in E. congruence.
    - exists event_columns. specialize (Hnew eq_refl). congruence. }
  destruct (create_index_spec (tableName s +:+ "_type_pos_idx") (tableName s) TypePositionIndex
    c1 columns Hr1) as (c2&E2&[r2 Hr2]&Hsub2).
  destruct (create_index_spec (tableName s +:+ "_tags_gin") (tableName s) TagsIndex
    c2 columns (Hsub2 _ _ Hr1)) as (c3&E3&Hr3&Hsub3).
  exists c3. pose proof (Hsub3 _ _ (Hsub2 _ _ Hr1)) as Ht. pose proof (Hsub3 _ _ Hr2) as Hi.
  split_and!; [|by eapply create_schema_again; eauto|by eexists|by eexists|done|by auto|].
  - unfold create_schema. rewrite E1. cbn. rewrite E2. cbn. exact E3.
  - unfold create_table in E1. unfold create_index in E2, E3. repeat case_match; by simplify_eq/=.
Qed.

(** All statements, from a catalog in which any number of them have run. *)
Lemma install_spec s c : installable s c →
  ∃ c', apply_all (install_statements s) c = Some c' ∧ installed s c' ∧
    (∀ n r, relations c !! n = Some r → relations c' !! n = Some r) ∧
    ∀ k ck, apply_all (take k (install_statements s)) c = Some ck →
      installable s ck ∧ apply_all (install_statements s) ck = Some c'.
Proof.
  intros Hok.
  destruct (create_schema_spec s c Hok) as (c1&E1&E1'&(columns&Ht)&H1&H2&Hsub&Hf).
  unfold install_statements, create_function.
  cbn [apply_all]. rewrite E1. cbn. eexists. split_and!; [done| |done|].
  - split; cbn; [by exists columns|done| | |];
      by rewrite ?lookup_insert_ne, ?lookup_insert_eq by (by intros [=]).
  - assert (∀ f, create_schema s (mkCatalog (relations c1) f) = Some (mkCatalog (relations c1) f))
      as Hagain by (intros f; by eapply create_schema_again).
    assert (∀ f, installable s (mkCatalog (relations c1) f)) as Hinst.
    { intros f r. cbn. rewrite Ht. intros [= <-]. by exists columns. }
    assert (c1 = mkCatalog (relations c1) (functions c1)) as Hc1 by (by destruct c1).
    intros [|[|[|[|k]]]] ck; cbn [take apply_all mbind option_bind]; intros Hk.
    { injection Hk as <-. split; [done|]. by rewrite E1. }
    all: rewrite E1 in Hk; cbn [mbind option_bind] in Hk;
      rewrite ?take_nil in Hk; cbn [apply_all] in Hk; injection Hk as <-.
    1: rewrite Hc1 at 1 2.
    all: split; [apply Hinst|]; rewrite Hagain; cbn [mbind option_bind relations functions];
      do 2 f_equal; apply map_eq; intros key; rewrite !lookup_insert; repeat case_decide; congruence.
Qed.

(** ** Executing the statements *)

Definition fate_error (f : fate) : option db_error :=
  match f with
  | Sent => None
  | Refused err | NotSent err | Broken err | Lost err => Some err
  end.

Definition breaks (f : fate) : bool :=
  match f with Broken _ | Lost _ => true | _ => false end.

(** Whether the server executes the statement. *)
Definition executed (f : fate) : bool :=
  match f with Sent | Lost _ => true | _ => false end.

(** The lock after the session of [conn] has gone on, or has ended. *)
Definition session_lock (conn : nat) (alive : bool) (d : database) : option (nat * nat) :=
  if alive then migration_lock d else migration_lock (end_session conn d).

Lemma end_session_catalog conn d : db_catalog (end_session conn d) = db_catalog d.
Proof. unfold end_session. by repeat case_match. Qed.

Lemma end_session_idemp conn d d' : migration_lock d' = migration_lock (end_session conn d) →
  migration_lock (end_session conn d') = migration_lock (end_session conn d).
Proof.
  unfold end_session. destruct (migration_lock d) as [[h n]|] eqn:E.
  - destruct (decide (h = conn)) as [->|Hne]; cbn; [intros H; by rewrite H|].
    rewrite E. intros H. rewrite H. by rewrite decide_False.
  - rewrite E. intros H. by rewrite H.
Qed.

(** How many of the statements have taken effect when the call with fate [f],
    the one after the first [j], was the last. *)
Definition reached (f : fate) (j : nat) : nat := if executed f then S j else j.

(** The first of the calls fails. *)
Lemma exec_all_fails conn stmt stmts fates d c e :
  stmt (db_catalog d) = Some c → fate_error (default Sent (head fates)) = Some e →
  ∃ d', exec_all conn fates (stmt :: stmts) true d =
      Some (Err e, negb (breaks (default Sent (head fates))), d') ∧
    fates !! 0%nat = Some (default Sent (head fates)) ∧
    db_catalog d' = (if executed (default Sent (head fates)) then c else db_catalog d) ∧
    migration_lock d' = session_lock conn (negb (breaks (default Sent (head fates)))) d.
Proof.
  intros E Hf. destruct fates as [|f fates]; [done|]. cbn [head default from_option] in *.
  cbn [exec_all]. unfold Exec. cbn [negb head default from_option].
  destruct f as [|e'|e'|e'|e']; [done|..]; cbn in Hf; injection Hf as ->;
    cbn [mbind option_bind]; eexists; (split; [done|]); (split; [done|]);
    rewrite ?end_session_catalog; [done..|].
  unfold ddl. rewrite E. split; [done|]. unfold session_lock, end_session. cbn. by repeat case_match.
Qed.

Lemma exec_all_spec conn stmts fates d :
  (∀ k c, apply_all (take k stmts) (db_catalog d) = Some c → k < length stmts →
     is_Some (apply_all (take (S k) stmts) (db_catalog d)))%nat →
  ∃ r alive d' k, exec_all conn fates stmts true d = Some (r, alive, d') ∧
    apply_all (take k stmts) (db_catalog d) = Some (db_catalog d') ∧
    migration_lock d' = session_lock conn alive d ∧
    match r with
    | Ok _ => k = length stmts ∧ alive = true
    | Err e => ∃ j f, (j < length stmts)%nat ∧ fates !! j = Some f ∧ fate_error f = Some e ∧
        k = reached f j ∧ alive = negb (breaks f)
    | Panic _ => False
    end.
Proof.
  revert fates d. induction stmts as [|stmt stmts IH]; intros fates d Hall.
  { by exists (Ok ()), true, d, 0%nat. }
  destruct (Hall 0%nat (db_catalog d) eq_refl) as [c1 Hc1]; [cbn; lia|].
  cbn in Hc1. rewrite take_0 in Hc1. cbn in Hc1.
  destruct (stmt (db_catalog d)) as [c|] eqn:E; [|done]. cbn in Hc1.
  destruct (fate_error (default Sent (head fates))) as [e|] eqn:Hf.
  { destruct (exec_all_fails conn stmt stmts fates d c e E Hf) as (d'&Hrun&H0&Hcat&Hlock).
    set (f := default Sent (head fates)) in *.
    exists (Err e), (negb (breaks f)), d', (reached f 0). split; [exact Hrun|].
    split; [|split; [done|exists 0%nat, f; split_and!; [cbn; lia|done..]]].
    rewrite Hcat. unfold reached. destruct (executed f); [|done]. cbn. by rewrite take_0, E. }
  destruct (default Sent (head fates)) as [|e|e|e|e] eqn:Hhead; [|done..].
  cbn [exec_all]. rewrite Hhead. unfold Exec at 1, ddl at 1. rewrite E. cbn [negb mbind option_bind].
  destruct (IH (tail fates) (mkDatabase c (migration_lock d))) as (r&alive&d'&k&Hrun&Hcat&Hlock&Hr).
  { intros k ck Hk Hlt. destruct (Hall (S k) ck) as [cs Hcs]; [cbn; by rewrite E|cbn; lia|].
    exists cs. cbn in Hcs. by rewrite E in Hcs. }
  exists r, alive, d', (S k). split; [exact Hrun|]. cbn [take apply_all]. rewrite E.
  cbn [mbind option_bind]. split; [exact Hcat|]. split.
  { rewrite Hlock. unfold session_lock, end_session. cbn. destruct alive; [done|]. by repeat case_match. }
  destruct r as [[]|e|msg]; [cbn; by destruct Hr as [-> ->]| |done].
  destruct Hr as (j&f&Hlt&Hj&He&->&Ha). exists (S j), f. split_and!; [cbn; lia| |done| |done].
  - by destruct fates as [|f0 fates].
  - unfold reached. by destruct (executed f).
Qed.

Lemma installs_step s c k ck : installable s c →
  apply_all (take k (install_statements s)) c = Some ck →
  (k < length (install_statements s))%nat →
  is_Some (apply_all (take (S k) (install_statements s)) c).
Proof.
  intros Hok _ Hk. destruct (create_schema_spec s c Hok) as (c1&E1&_).
  unfold install_statements, create_function in *. cbn in Hk.
  destruct k as [|[|[|[|k]]]]; [| | | |lia]; cbn [take apply_all]; rewrite E1; by eexists.
Qed.

(** The lock statement, when its call fails. *)
Lemma lock_failed conn f d r alive d' e :
  fate_error f = Some e → Exec conn f (lock_stmt conn) true d = Some (r, alive, d') →
  r = Err e ∧ db_catalog d' = db_catalog d ∧
  (migration_lock d' = migration_lock d ∨ migration_lock d' = migration_lock (end_session conn d)).
Proof.
  intros He. unfold Exec. cbn [negb].
  destruct f as [|e'|e'|e'|e']; [done|..]; cbn in He; injection He as ->; intros [= <- <- <-];
    rewrite ?end_session_catalog; [by auto..|]. split; [done|].
  unfold lock_stmt, end_session. destruct (migration_lock d) as [[h n]|] eqn:E.
  - case_decide; cbn; rewrite ?E; [subst; rewrite decide_True by done; by auto|].
    rewrite decide_False by done. by auto.
  - cbn. rewrite decide_True by done. by auto.
Qed.

(** A call, up to its unlock. *)
Lemma EnsureInstalled_cases s conn env d r d' :
  installable s (db_catalog d) → EnsureInstalled s conn env d = Some (r, d') →
  (∃ e, r = Err e ∧ (on_acquire env = Some e ∨ fate_error (on_lock env) = Some e) ∧
     db_catalog d' = db_catalog d ∧
     (migration_lock d' = migration_lock d ∨ migration_lock d' = migration_lock (end_session conn d))) ∨
  (∃ d1 alive d2 x k, lock_stmt conn d = Done d1 ∧
     exec_all conn (on_statements env) (install_statements s) true d1 = Some (r, alive, d2) ∧
     Exec conn (on_unlock env) (unlock_stmt conn) alive d2 = Some (x, d') ∧
     db_catalog d' = db_catalog d2 ∧
     apply_all (take k (install_statements s)) (db_catalog d) = Some (db_catalog d') ∧
     migration_lock d2 = session_lock conn alive d1 ∧
     match r with
     | Ok _ => k = length (install_statements s) ∧ alive = true
     | Err e => ∃ j f, (j < length (install_statements s))%nat ∧ on_statements env !! j = Some f ∧
         fate_error f = Some e ∧ k = reached f j ∧ alive = negb (breaks f)
     | Panic _ => False
     end).
Proof.
  intros Hok. unfold EnsureInstalled. destruct (on_acquire env) as [e|].
  { intros [= <- <-]. left. exists e. split_and!; [done|by left|done|by left]. }
  destruct (fate_error (on_lock env)) as [e|] eqn:Hf.
  { destruct (Exec conn (on_lock env) (lock_stmt conn) true d) as [[[r1 a] d1]|] eqn:El; [|done].
    destruct (lock_failed conn (on_lock env) d r1 a d1 e Hf El) as (->&Hcat&Hl).
    intros [= <- <-]. left. exists e. split_and!; [done|by right|done|done]. }
  destruct (on_lock env) as [|e|e|e|e]; [|done..]. cbn -[exec_all install_statements].
  destruct (lock_stmt conn d) as [d1|e|] eqn:Hlock; cbn -[exec_all install_statements];
    [|by unfold lock_stmt in Hlock; repeat case_match|done].
  assert (db_catalog d1 = db_catalog d) as Hcat
    by (unfold lock_stmt in Hlock; repeat case_match; by simplify_eq/=).
  destruct (exec_all_spec conn (install_statements s) (on_statements env) d1)
    as (r1&alive&d2&k&E&Hc&Hl&Hr).
  { rewrite Hcat. intros k ck Hk Hlt. by eapply installs_step. }
  rewrite E. cbn [mbind option_bind].
  destruct (Exec conn (on_unlock env) (unlock_stmt conn) alive d2) as [[[u a] d3]|] eqn:Eu; [|done].
  cbn. intros [= <- <-]. right. exists d1, alive, d2, (u, a), k. rewrite <-Hcat.
  assert (db_catalog d3 = db_catalog d2) as ->.
  { unfold Exec, unlock_stmt in Eu. repeat case_match; simplify_eq/=; by rewrite ?end_session_catalog. }
  by split_and!.
Qed.

Lemma EnsureInstalled_catalog s conn env d r d' :
  installable s (db_catalog d) → EnsureInstalled s conn env d = Some (r, d') →
  ∃ k, apply_all (take k (install_statements s)) (db_catalog d) = Some (db_catalog d') ∧
    match r with
    | Ok _ => k = length (install_statements s)
    | Err e =>
        k = 0%nat ∧ (on_acquire env = Some e ∨ fate_error (on_lock env) = Some e) ∨
        ∃ j f, (j < length (install_statements s))%nat ∧ on_statements env !! j = Some f ∧
          fate_error f = Some e ∧ k = reached f j
    | Panic _ => False
    end.
Proof.
  intros Hok Hrun. destruct (EnsureInstalled_cases s conn env d r d' Hok Hrun)
    as [(e&->&He&->&_)|(d1&alive&d2&x&k&_&_&_&_&Hc&_&Hr)].
  - exists 0%nat. split; [done|]. by left.
  - exists k. split; [done|]. destruct r as [[]|e|msg]; [by destruct Hr| |done].
    destruct Hr as (j&f&?&?&?&?&_). right. by exists j, f.
Qed.
End install.

(** ** Properties *)

(** The server's limit on names, as a concrete [resolve]. *)
Definition cut_name (name : string) : string := String.substring 0 63 name.

(** A store whose table name has 63 characters. *)
Definition long_options : Options :=
  mkOptions (String.string_of_list_ascii (replicate 56 "x"%char)) 0.
Definition long_store : Store :=
  match New long_options with Ok s => s | _ => mkStore "" "" "" "" "" 0 end.

Definition is_index (r : relation_) : bool := match r with RIndex _ _ => true | _ => false end.

Definition long_catalog : catalog :=
  default (mkCatalog ∅ ∅) (apply_all (install_statements cut_name long_store) (mkCatalog ∅ ∅)).

Lemma long_catalog_indexes : map_Forall (λ _ r, is_index r = false) (relations long_catalog).
Proof. apply (bool_decide_unpack _). by vm_compute. Qed.


(** A lock is held at least once. *)
Definition lock_wf (d : database) : Prop := ∀ holder, migration_lock d ≠ Some (holder, 0%nat).

(** Taking the lock and giving it back, on a connection that works. *)
Lemma lock_unlock_sent conn d d1 d2 alive x d' :
  lock_wf d → lock_stmt conn d = Done d1 → migration_lock d2 = session_lock conn alive d1 →
  Exec conn Sent (unlock_stmt conn) alive d2 = Some (x, d') →
  migration_lock d' = migration_lock d ∨ migration_lock d' = migration_lock (end_session conn d).
Proof.
  intros Hwf Hlock Hd2 Hu. destruct alive; cbn in Hu, Hd2.
  - left. unfold lock_stmt in Hlock. unfold unlock_stmt in Hu. rewrite Hd2 in Hu.
    destruct (migration_lock d) as [[holder n]|] eqn:E.
    + case_decide; [|done]. injection Hlock as <-. subst. cbn in Hu.
      destruct n as [|n]; [by destruct (Hwf conn)|]. rewrite decide_True in Hu by done.
      by injection Hu as <- <-.
    + injection Hlock as <-. cbn in Hu. rewrite decide_True in Hu by done. by injection Hu as <- <-.
  - right. injection Hu as <- <-. rewrite Hd2. unfold lock_stmt in Hlock. unfold end_session.
    destruct (migration_lock d) as [[holder n]|] eqn:E.
    + case_decide; [|done]. injection Hlock as <-. subst. cbn. by rewrite decide_True.
    + injection Hlock as <-. cbn. by rewrite decide_True.
Qed.

(** The same if only the unlock's reply is lost. *)
Lemma lock_unlock conn d d1 d2 alive f x d' :
  lock_wf d → lock_stmt conn d = Done d1 → migration_lock d2 = session_lock conn alive d1 →
  executed f = true → Exec conn f (unlock_stmt conn) alive d2 = Some (x, d') →
  migration_lock d' = migration_lock d ∨ migration_lock d' = migration_lock (end_session conn d).
Proof.
  intros Hwf Hlock Hd2 Hf Hu. destruct alive; [|by eapply lock_unlock_sent].
  destruct f as [|e|e|e|e]; [by eapply lock_unlock_sent|done..|].
  assert (∃ d3, unlock_stmt conn d2 = Done d3) as [d3 Hd3]
    by (unfold unlock_stmt; repeat case_match; by eexists).
  cbn in Hu. rewrite Hd3 in Hu. injection Hu as _ <-. right.
  assert (migration_lock d3 = migration_lock d ∨
    migration_lock d3 = migration_lock (end_session conn d)) as [E|E].
  { eapply (lock_unlock_sent conn d d1 d2 true (Ok (), true) d3); try done. cbn. by rewrite Hd3. }
  - unfold end_session. rewrite E. destruct (migration_lock d) as [[h n]|] eqn:Ed; [|by rewrite E].
    destruct (decide (h = conn)); [done|by rewrite E, Ed].
  - by apply end_session_idemp.
Qed.

(** C33: the migration lock.  Whichever call fails, if the server executes the
    deferred unlock, the lock is afterwards held as before, or not at all by a
    session that has ended.  But the unlock uses the context of the call: when that
    context ends between two statements, the connection goes back to the pool
    with the lock, and every further call on another connection waits. *)
Theorem migration_lock_discipline resolve s conn env d r d' :
  installable resolve s (db_catalog d) → lock_wf d →
  EnsureInstalled resolve s conn env d = Some (r, d') →
  (executed (on_unlock env) = true →
     migration_lock d' = migration_lock d ∨ migration_lock d' = migration_lock (end_session conn d)) ∧
  (∀ err, migration_lock d = None → on_acquire env = None → on_lock env = Sent →
     Forall (λ f, breaks f = false) (on_statements env) → on_unlock env = NotSent err →
     migration_lock d' = Some (conn, 1%nat) ∧
     ∀ conn2 env2, conn2 ≠ conn → on_acquire env2 = None → on_lock env2 = Sent →
       EnsureInstalled resolve s conn2 env2 d' = None).
Proof.
  intros Hok Hwf Hrun.
  destruct (EnsureInstalled_cases resolve s conn env d r d' Hok Hrun)
    as [(e&->&He&_&Hl)|(d1&alive&d2&x&k&Hlock&_&Hu&_&_&Hl&Hr)]; split.
  - done.
  - intros err _ Ha Hs. destruct He as [He|He]; [by rewrite Ha in He|by rewrite Hs in He].
  - intros Hexec. by eapply lock_unlock.
  - intros err Hfree _ _ Hf Hn.
    assert (alive = true) as ->.
    { destruct r as [[]|e|msg]; [by destruct Hr| |done]. destruct Hr as (j&f&_&Hk&_&_&->).
      rewrite Forall_forall in Hf. by rewrite (Hf f) by (by eapply list_elem_of_lookup_2). }
    rewrite Hn in Hu. injection Hu as <- <-. cbn in Hl. unfold lock_stmt in Hlock.
    rewrite Hfree in Hlock. injection Hlock as <-. cbn in Hl. split; [done|].
    intros conn2 env2 Hne Ha Hs. unfold EnsureInstalled. rewrite Ha, Hs. unfold Exec, lock_stmt.
    cbn [negb]. rewrite Hl. by rewrite decide_False by congruence.
Qed.

(** *** Witnesses *)

Definition i_store : Store :=
  mkStore "events" "events_append" "events_check_conditions" "events_barrier_hwm" "events" 10000.
Definition i_empty : database := mkDatabase (mkCatalog ∅ ∅) None.

(** The context ends after the second statement. *)
Definition i_late : db_error := OtherError "context canceled".
Definition i_env : install_env := mkInstallEnv None Sent [Sent; Sent; NotSent i_late] (NotSent i_late).
Definition i_half : database :=
  match EnsureInstalled id i_store 1 i_env i_empty with Some (_, d) => d | None => i_empty end.

Lemma i_installable : installable id i_store (db_catalog i_empty).
Proof. done. Qed.

Lemma i_run : EnsureInstalled id i_store 1 i_env i_empty = Some (Err i_late, i_half).
Proof.
  assert (fst <$> EnsureInstalled id i_store 1 i_env i_empty = Some (Err i_late)) as H
    by (vm_compute; reflexivity).
  unfold i_half. destruct (EnsureInstalled id i_store 1 i_env i_empty) as [[r d]|]; [|done].
  cbn in H. by injection H as ->.
Qed.

(** The reply of the last statement is lost. *)
Definition i_lost : db_error := OtherError "connection reset".
Definition i_lost_env : install_env := mkInstallEnv None Sent [Sent; Sent; Sent; Lost i_lost] Sent.
Definition i_full : database :=
  match EnsureInstalled id i_store 1 i_lost_env i_empty with Some (_, d) => d | None => i_empty end.

Lemma i_lost_run : EnsureInstalled id i_store 1 i_lost_env i_empty = Some (Err i_lost, i_full).
Proof.
  assert (fst <$> EnsureInstalled id i_store 1 i_lost_env i_empty = Some (Err i_lost)) as H
    by (vm_compute; reflexivity).
  unfold i_full. destruct (EnsureInstalled id i_store 1 i_lost_env i_empty) as [[r d]|]; [|done].
  cbn in H. by injection H as ->.
Qed.


Lemma migration_lock_discipline_witness :
  migration_lock i_half = Some (1%nat, 1%nat) ∧
  EnsureInstalled id i_store 2 (mkInstallEnv None Sent [] Sent) i_half = None.
Proof.
  destruct (proj2 (migration_lock_discipline id i_store 1 i_env i_empty (Err i_late) i_half
    i_installable ltac:(by intros holder) i_run) i_late
    ltac:(reflexivity) ltac:(reflexivity) ltac:(reflexivity) ltac:(repeat constructor)
    ltac:(reflexivity)) as [Hl Hw].
  split; [exact Hl|]. apply Hw; [done|reflexivity|reflexivity].
Defined.
