(* ===== verification/PgConditions.v ===== *)
(** * PgConditions

    What the SQL condition check computes ([check_conditions] and the check
    inlined in the append procedure, [src/postgres/store.go]) from the arrays
    of [serializeConditions]: the index of the first command of which some
    condition is hit by a row at or below the high-water mark. *)

From S2P Require Import Prelude.
From S2P Require Import GoStrings.
From S2P Require Import SequencePosition.
From S2P Require Import Tags.
From S2P Require Import EventStore.
From S2P Require Import Matching.
From S2P Require Import StoreSpec.
From S2P Require Import Serialize.
From S2P Require Import PgServer.
From S2P Require Import PgProcedures.
From S2P Require Import PgStore.

Local Open Scope Z_scope.

(** ** Rows and events *)

Definition row_of (ev : Event) : row :=
  mkRow (Type_ ev) (Values (Event_Tags ev)) (serializePayload ev).

Definition item_row_matches (item : QueryItem) (r : row) : Prop :=
  r_type r ∈ Types item ∧ ∀ tag, tag ∈ tag_values (Item_Tags item) → tag ∈ r_tags r.

Definition row_matches (q : Query) (r : row) : Prop :=
  IsAll q = true ∨ ∃ item, item ∈ Items q ∧ item_row_matches item r.

Lemma row_matches_row_of q ev : row_matches q (row_of ev) ↔ event_matches q ev.
Proof.
  unfold row_matches, item_row_matches, event_matches, item_matches. cbn.
  by setoid_rewrite elem_of_Values.
Qed.

(** A table holds exactly the events of a log. *)
Definition holds_log (tbl : rows) (log : list SequencedEvent) : Prop :=
  ∀ p r, tbl !! p = Some r ↔ ∃ se, se ∈ log ∧ value (Position se) = p ∧ row_of (se_Event se) = r.

(** The bound of a condition: positions start at one. *)
Definition after_of (c : AppendCondition) : Z :=
  match After c with Some p => value p | None => 0 end.

Definition row_hit (c : AppendCondition) (p : Z) (r : row) : Prop :=
  after_of c < p ∧ row_matches (FailIfEventsMatch c) r.

(** A row of [tbl] at or below [h] violates the condition of the command. *)
Definition command_hit (tbl : rows) (h : Z) (cmd : AppendCommand) : Prop :=
  ∃ c p r, Condition cmd = Some c ∧ tbl !! p = Some r ∧ p ≤ h ∧ row_hit c p r.

(** ** SQL over the arrays of [serializeConditions] *)

Lemma array_elems_appended {A} (l : list A) : array_elems (appended l) = l.
Proof. by destruct l. Qed.

Lemma unnest4_arrays (rws : list condRow) :
  unnest4 (appended (cr_idx <$> rws)) (appended (cr_type <$> rws))
    (appended (cr_tags <$> rws)) (appended (cr_after <$> rws)) =
  (λ row, (Some (cr_idx row), Some (cr_type row), Some (cr_tags row), Some (cr_after row)))
    <$> rws.
Proof.
  unfold unnest4. rewrite !array_elems_appended, !length_fmap, !Nat.max_id.
  apply list_eq. intros i. rewrite !list_lookup_fmap.
  destruct (rws !! i) as [row|] eqn:Hi.
  - rewrite lookup_seq_lt by (by eapply lookup_lt_Some). cbn. rewrite !list_lookup_fmap, Hi.
    done.
  - by rewrite lookup_seq_ge by (by apply lookup_ge_None).
Qed.

Definition cond_fails (snapshot : rows) (h : Z) (c : condRow) : bool :=
  exists_row snapshot
    (row_satisfies (Some (cr_type c)) (unpack_tags (Some (cr_tags c))) (Some (cr_after c)) h).

Lemma failing_conditions_arrays rws h snapshot :
  failing_conditions (appended (cr_idx <$> rws)) (appended (cr_type <$> rws))
    (appended (cr_tags <$> rws)) (appended (cr_after <$> rws)) h snapshot =
  (λ c, Some (cr_idx c)) <$> List.filter (cond_fails snapshot h) rws.
Proof.
  unfold failing_conditions. rewrite unnest4_arrays.
  induction rws as [|c rws IH]; [done|]. cbn. unfold cond_fails at 1.
  destruct (exists_row snapshot _); cbn; by rewrite IH.
Qed.

Lemma select_first_spec (l : list Z) :
  match select_first (Some <$> l) with
  | None => l = []
  | Some m => m ∈ l ∧ ∀ n, n ∈ l → m ≤ n
  end.
Proof.
  induction l as [|n l IH]; [done|]. cbn.
  destruct (select_first (Some <$> l)) as [m|] eqn:E; unfold select_first in E |- *; rewrite E.
  - destruct IH as [Hm Hmin]. split.
    + destruct (Z.min_spec n m) as [[_ ->]|[_ ->]]; [by left|by right].
    + intros k [->|Hk]%elem_of_cons; [lia|]. specialize (Hmin k Hk). lia.
  - subst l. split; [by left|]. intros k ->%list_elem_of_singleton. done.
Qed.

Lemma exists_row_true snapshot test :
  exists_row snapshot test = true ↔ ∃ p r, snapshot !! p = Some r ∧ test p r = true.
Proof.
  unfold exists_row. rewrite List.existsb_exists. split.
  - intros ([p r]&Hin&Ht). exists p, r. split; [|done].
    by apply elem_of_map_to_list, list_elem_of_In.
  - intros (p&r&Hp&Ht). exists (p, r). split; [|done].
    by apply list_elem_of_In, elem_of_map_to_list.
Qed.

Lemma contains_all_true tags ctags :
  contains_all tags ctags = true ↔ ∀ tag, tag ∈ ctags → tag ∈ tags.
Proof.
  unfold contains_all. rewrite List.forallb_forall. setoid_rewrite <-list_elem_of_In.
  by setoid_rewrite bool_decide_eq_true.
Qed.

Lemma unpack_tags_Join t : tags_clean t →
  unpack_tags (Some (Join (Values t) tagDelimiter)) = Some (Values t).
Proof.
  intros Ht. cbn. case_decide as He; [|by rewrite string_to_array_Values].
  f_equal. pose proof (string_to_array_Values t Ht) as E. rewrite He in E.
  by rewrite <-E.
Qed.

(** The [WHERE] clause on the row made of a type, tags and a bound. *)
Lemma row_satisfies_true ty t after h p r : tags_clean t →
  row_satisfies (Some ty) (unpack_tags (Some (Join (Values t) tagDelimiter))) (Some after) h p r
    = true ↔
  r_type r = ty ∧ (∀ tag, tag ∈ tag_values t → tag ∈ r_tags r) ∧ after < p ∧ p ≤ h.
Proof.
  intros Ht. rewrite unpack_tags_Join by done. cbn.
  rewrite !andb_true_iff, !bool_decide_eq_true, contains_all_true.
  setoid_rewrite elem_of_Values. tauto.
Qed.

(** ** The verdict of the check *)

(** Conditions whose tags survive packing. *)
Definition condition_clean (cmd : AppendCommand) : Prop :=
  ∀ c item, Condition cmd = Some c → item ∈ Items (FailIfEventsMatch c) →
    tags_clean (Item_Tags item).

(** [res] is the index of the first command that is hit. *)
Definition verdict (tbl : rows) (h : Z) (commands : list AppendCommand) (res : option Z) : Prop :=
  match res with
  | None => ∀ cmd, cmd ∈ commands → ¬ command_hit tbl h cmd
  | Some idx => ∃ i cmd, idx = Z.of_nat i ∧ commands !! i = Some cmd ∧ command_hit tbl h cmd ∧
      ∀ j cmd', (j < i)%nat → commands !! j = Some cmd' → ¬ command_hit tbl h cmd'
  end.

Section verdict.
Context (commands : list AppendCommand) (snapshot : rows) (h : Z).
Hypothesis Hvalid : conditions_valid commands.
Hypothesis Hclean : Forall condition_clean commands.
Hypothesis Hlen : Z.of_nat (length commands) ≤ 2147483648.

Lemma row_of_command row :
  row ∈ rows_from 0 commands →
  ∃ i cmd c item t, commands !! i = Some cmd ∧ Condition cmd = Some c ∧
    item ∈ Items (FailIfEventsMatch c) ∧ t ∈ Types item ∧ tags_clean (Item_Tags item) ∧
    row = mkCondRow (Z.of_nat i) t (Join (Values (Item_Tags item)) tagDelimiter) (after_of c).
Proof.
  intros (i&cmd&c&item&t&Hi&Hc&Hitem&Ht&->)%elem_of_rows_from.
  exists i, cmd, c, item, t. split_and!; try done.
  - rewrite Forall_forall in Hclean. eapply Hclean; [|done..]. by eapply list_elem_of_lookup_2.
  - pose proof (lookup_lt_Some _ _ _ Hi). cbn. by rewrite i32_small by lia.
Qed.

Lemma failing_row_hits row :
  row ∈ rows_from 0 commands → cond_fails snapshot h row = true →
  ∃ i cmd, cr_idx row = Z.of_nat i ∧ commands !! i = Some cmd ∧ command_hit snapshot h cmd.
Proof.
  intros (i&cmd&c&item&t&Hi&Hc&Hitem&Ht&Hcl&->)%row_of_command (p&r&Hp&Hr)%exists_row_true.
  apply row_satisfies_true in Hr as (Hty&Htags&Hafter&Hle); [|done]. cbn in *.
  exists i, cmd. split_and!; [done|done|]. exists c, p, r. split_and!; [done..|].
  split; [done|]. right. exists item. split; [done|]. by split; [rewrite Hty|].
Qed.

Lemma hit_has_failing_row i cmd :
  commands !! i = Some cmd → command_hit snapshot h cmd →
  ∃ row, row ∈ rows_from 0 commands ∧ cond_fails snapshot h row = true ∧ cr_idx row = Z.of_nat i.
Proof.
  intros Hi (c&p&r&Hc&Hp&Hle&Hafter&Hm). pose proof (lookup_lt_Some _ _ _ Hi) as Hlt.
  assert (cmd ∈ commands) as Hcmd by (by eapply list_elem_of_lookup_2).
  unfold conditions_valid in Hvalid. rewrite Forall_forall in Hvalid, Hclean.
  destruct (Hvalid cmd Hcmd c Hc) as [Hall _].
  destruct Hm as [?|(item&Hitem&Ht&Htags)]; [congruence|].
  exists (mkCondRow (Z.of_nat i) (r_type r) (Join (Values (Item_Tags item)) tagDelimiter)
    (after_of c)). split_and!; [| |done].
  - apply elem_of_rows_from. exists i, cmd, c, item, (r_type r). split_and!; try done.
    cbn. by rewrite i32_small by lia.
  - apply exists_row_true. exists p, r. split; [done|]. cbn [cr_type cr_tags cr_after].
    apply row_satisfies_true; [by eapply Hclean|done].
Qed.

Lemma check_verdict :
  verdict snapshot h commands
    (select_first ((λ c, Some (cr_idx c)) <$>
       List.filter (cond_fails snapshot h) (rows_from 0 commands))).
Proof.
  set (failing := List.filter _ _).
  assert (∀ row, row ∈ failing ↔ row ∈ rows_from 0 commands ∧ cond_fails snapshot h row = true)
    as Hfail.
  { intros row. unfold failing. by rewrite list_elem_of_In, List.filter_In, <-list_elem_of_In. }
  replace ((λ c, Some (cr_idx c)) <$> failing) with (Some <$> (cr_idx <$> failing))
    by (by rewrite <-list_fmap_compose).
  pose proof (select_first_spec (cr_idx <$> failing)) as Hsel.
  destruct (select_first _) as [m|]; cbn.
  - destruct Hsel as [(row&->&Hrow)%list_elem_of_fmap Hmin].
    apply Hfail in Hrow as [Hrow Hf]. destruct (failing_row_hits row Hrow Hf) as (i&cmd&Hidx&Hi&Hhit).
    exists i, cmd. split_and!; [done..|]. intros j cmd' Hj Hcmd' Hhit'.
    destruct (hit_has_failing_row j cmd' Hcmd' Hhit') as (row'&Hrow'&Hf'&Hidx').
    specialize (Hmin (cr_idx row')). rewrite Hidx, Hidx' in Hmin.
    assert (Z.of_nat i ≤ Z.of_nat j); [|lia]. apply Hmin. rewrite <-Hidx'.
    apply list_elem_of_fmap_2. by apply Hfail.
  - intros cmd [i Hi]%list_elem_of_lookup_1 Hhit.
    destruct (hit_has_failing_row i cmd Hi Hhit) as (row&Hrow&Hf&_).
    apply fmap_nil_inv in Hsel. assert (row ∈ failing) as Hin by (by apply Hfail).
    rewrite Hsel in Hin. by apply elem_of_nil in Hin.
Qed.

(** A single row: the check inlined in the append procedure. *)
Lemma single_verdict row :
  rows_from 0 commands = [row] →
  verdict snapshot h commands (if cond_fails snapshot h row then Some (cr_idx row) else None).
Proof.
  intros E. pose proof check_verdict as H. rewrite E in H. cbn in H.
  by destruct (cond_fails snapshot h row).
Qed.
End verdict.

(** ** Tags on their way into the database *)

(** The rows that a program inserts, if nothing fails. *)
Fixpoint inserts {A} (p : prog A) : list row :=
  match p with
  | Ret _ => []
  | Do c k =>
      match c return (outcome db_error (val c) → list row) → list row with
      | CInsert r => λ rest, r :: rest (Ok ())
      | _ => λ _, []
      end (λ r, inserts (k r))
  end.

(** The [INSERT] of the append procedure, on the arrays that the client sends. *)
Definition procedure_inserts (commands : list AppendCommand) : prog (outcome db_error unit) :=
  let evs := serializeEvents commands in
  let p_types := appended (ea_types evs) in
  insert_subscripts (seq 0 (length (array_elems p_types))) (array_elems p_types)
    (array_elems (appended (ea_tags evs))) (array_elems (appended (ea_payloads evs))).

(** The tags of the rows of the condition arrays. *)
Definition item_tag_rows (item : QueryItem) : list Tags :=
  replicate (length (Types item)) (Item_Tags item).
Definition condition_tags (cmd : AppendCommand) : list Tags :=
  match Condition cmd with
  | Some c => mjoin (item_tag_rows <$> Items (FailIfEventsMatch c))
  | None => []
  end.

Definition packed (t : Tags) : string := Join (Values t) tagDelimiter.

(** An event as a row, with its tags unpacked from one text. *)
Definition unpacked_row (ev : Event) : row :=
  mkRow (Type_ ev) (string_to_array (packed (Event_Tags ev)) delimiter) (serializePayload ev).

Lemma inserts_subscripts (all_ l : list Event) k : drop k all_ = l →
  inserts (insert_subscripts (seq k (length l)) (Type_ <$> all_)
    ((λ ev, packed (Event_Tags ev)) <$> all_) (serializePayload <$> all_)) = unpacked_row <$> l.
Proof.
  revert k. induction l as [|ev l IH]; intros k Hk; [done|].
  assert (all_ !! k = Some ev) as Hev by (by rewrite <-(Nat.add_0_r k), <-lookup_drop, Hk).
  cbn [length seq insert_subscripts]. rewrite !list_lookup_fmap, Hev. cbn. f_equal. apply IH.
  by rewrite <-Nat.add_1_r, <-drop_drop, Hk.
Qed.

Lemma procedure_inserts_rows commands :
  inserts (procedure_inserts commands) = unpacked_row <$> all_events commands.
Proof.
  unfold procedure_inserts. rewrite serializeEvents_all. cbn [ea_types ea_tags ea_payloads].
  rewrite !array_elems_appended, length_fmap. by apply inserts_subscripts.
Qed.

Lemma copy_inserts_rows events : inserts (copy_rows events) = row_of <$> events.
Proof. induction events as [|ev events IH]; [done|]. cbn. by f_equal. Qed.

Lemma rows_from_tags i commands :
  cr_tags <$> rows_from i commands = packed <$> mjoin (condition_tags <$> commands).
Proof.
  revert i. induction commands as [|cmd commands IH]; intros i; [done|]. cbn.
  rewrite !fmap_app, IH. f_equal. unfold command_rows, condition_tags, condition_rows.
  destruct (Condition cmd) as [c|]; [|done]. generalize (match After c with Some p => value p | None => 0 end).
  intros after. induction (Items (FailIfEventsMatch c)) as [|item its IHits]; [done|].
  change (mjoin (item_rows i after <$> item :: its))
    with (item_rows i after item ++ mjoin (item_rows i after <$> its)).
  change (mjoin (item_tag_rows <$> item :: its))
    with (item_tag_rows item ++ mjoin (item_tag_rows <$> its)).
  rewrite !fmap_app, IHits. f_equal. unfold item_rows, item_tag_rows.
  rewrite <-list_fmap_compose. induction (Types item) as [|t types IHt]; [done|]. cbn. by f_equal.
Qed.

Lemma unpack_tags_some s : unpack_tags (Some s) = Some (string_to_array s delimiter).
Proof. cbn. unfold string_to_array. by case_decide. Qed.

Lemma fmap_agree {A B} (f g : A → B) (l : list A) : f <$> l = g <$> l ↔ ∀ x, x ∈ l → f x = g x.
Proof.
  split.
  - intros E x [i Hi]%list_elem_of_lookup_1.
    assert ((f <$> l) !! i = (g <$> l) !! i) as H by (by rewrite E).
    rewrite !list_lookup_fmap, Hi in H. by injection H.
  - intros H. induction l as [|x l IH]; [done|]. cbn. f_equal; [apply H; by left|].
    apply IH. intros y Hy. apply H. by right.
Qed.

(** C30: tags are packed into one text on the way to the stored procedures and
    unpacked there.  For commands whose tags are valid tokens, the procedure
    inserts the events' rows, those that the [COPY] path sends, exactly when no
    tag of an event contains the delimiter; and, for bounds within [bigint], it
    checks the conditions with the tags of their items exactly when no tag of
    an item contains it.  A tag that does is a valid token, and is torn apart. *)
Theorem packed_tags_roundtrip commands :
  (∀ ev, ev ∈ all_events commands → tags_wf (Event_Tags ev)) →
  (∀ cmd t, cmd ∈ commands → t ∈ condition_tags cmd → tags_wf t) →
  inserts (copy_rows (all_events commands)) = row_of <$> all_events commands ∧
  (inserts (procedure_inserts commands) = row_of <$> all_events commands ↔
     ∀ ev, ev ∈ all_events commands → no_delimiter (Event_Tags ev)) ∧
  (∀ conds, Forall after_fits commands → serializeConditions commands = Ok conds →
     unpack_tags ∘ Some <$> ca_tags conds = Some ∘ Values <$> mjoin (condition_tags <$> commands) ↔
       ∀ cmd t, cmd ∈ commands → t ∈ condition_tags cmd → no_delimiter t) ∧
  (∃ torn, tags_wf torn ∧ Len torn = 1%nat ∧ ∀ ty,
     inserts (procedure_inserts [mkCommand [mkEvent ty torn None None] None]) =
       [mkRow ty ["a"; "b"] (serializePayload (mkEvent ty torn None None))]).
Proof.
  intros Hev Hcond. split; [apply copy_inserts_rows|]. split; [|split].
  - rewrite procedure_inserts_rows, fmap_agree. split; intros H ev Hin; specialize (H ev Hin).
    + apply (string_to_array_packed _ (Hev ev Hin)). by injection H.
    + unfold unpacked_row, row_of. f_equal. by apply (string_to_array_packed _ (Hev ev Hin)).
  - intros conds Hfit. rewrite serializeConditions_rows by done. intros [= <-]. cbn [ca_tags arrays_of].
    rewrite rows_from_tags, <-list_fmap_compose, fmap_agree.
    setoid_rewrite list_elem_of_join. setoid_rewrite list_elem_of_fmap. split.
    + intros H cmd t Hcmd Ht. apply (string_to_array_packed t (Hcond cmd t Hcmd Ht)).
      assert (unpack_tags (Some (packed t)) = Some (Values t)) as E by (apply H; by eexists; eauto).
      rewrite unpack_tags_some in E. by injection E.
    + intros H t (l&Ht&cmd&->&Hcmd). cbn [compose]. unfold compose. rewrite unpack_tags_some. f_equal.
      apply (string_to_array_packed t (Hcond cmd t Hcmd Ht)). by apply (H cmd).
  - exists (mkTags {["a" +:+ tagDelimiter +:+ "b"]}). split_and!.
    + intros v Hv. cbn in Hv. apply elem_of_singleton in Hv as ->. by vm_compute.
    + by vm_compute.
    + intros ty. rewrite procedure_inserts_rows. cbn. unfold unpacked_row. by vm_compute.
Qed.

(** *** Witness *)

Definition w_packed : list AppendCommand :=
  [mkCommand [mkEvent "Enrolled" ser_tags None None]
     (Some (mkCondition (mkQuery [mkItem ["Enrolled"; "Left"] ser_tags] false) None))].

Lemma ser_tags_wf : tags_wf ser_tags.
Proof.
  intros v Hv. cbn in Hv.
  apply elem_of_union in Hv as [->%elem_of_singleton| ->%elem_of_singleton]; vm_compute; reflexivity.
Qed.

Lemma packed_tags_roundtrip_witness :
  inserts (procedure_inserts w_packed) = row_of <$> all_events w_packed.
Proof.
  refine (proj2 (proj1 (proj2 (packed_tags_roundtrip w_packed _ _))) _).
  - intros ev ->%list_elem_of_singleton. exact ser_tags_wf.
  - intros cmd t ->%list_elem_of_singleton Ht. cbn in Ht.
    apply elem_of_cons in Ht as [->| ->%list_elem_of_singleton]; exact ser_tags_wf.
  - intros ev ->%list_elem_of_singleton v Hv. cbn in Hv.
    apply elem_of_union in Hv as [->%elem_of_singleton| ->%elem_of_singleton]; vm_compute; reflexivity.
Defined.
