(* ===== verification/Cursor.v ===== *)
(** * Cursor

    The iterator of a Postgres read ([src/postgres/cursor.go]): the decoding of
    rows and the batches that [cursorIterator] fetches.  The iterator keeps the
    interface's promise: it is an instance of [IteratorLaws], whatever fetches
    fail and whatever rows do not decode. *)

From S2P Require Import Prelude.
From S2P Require Import GoStrings.
From S2P Require Import GoJson.
From S2P Require Import SequencePosition.
From S2P Require Import Tags.
From S2P Require Import EventStore.
From S2P Require Import Iterator.
From S2P Require Import Serialize.
From S2P Require Import PgServer.
From S2P Require Import PgStore.
From S2P Require Import PgConditions.

Local Open Scope Z_scope.

(** ** Rows *)

(** [rowToSequencedEvent]: the payload is decoded before the tags. *)
Definition rowToSequencedEvent (pr : Z * row) : outcome store_error SequencedEvent :=
  let '(seqPos, r) := pr in
  '(data, metadata) ← map_err EJson (Unmarshal (r_payload r));
  tagSet ← map_err ETags (TagsFrom (r_tags r));
  pos ← int64ToPosition seqPos;
  Ok (mkSequenced (mkEvent (r_type r) tagSet data metadata) pos).

(** [pgx.CollectRows]: all rows, or the first error. *)
Fixpoint collect_rows (l : list (Z * row)) : outcome store_error (list SequencedEvent) :=
  match l with
  | [] => Ok []
  | pr :: l =>
      ev ← rowToSequencedEvent pr;
      evs ← collect_rows l;
      Ok (ev :: evs)
  end.

(** ** The iterator *)

Definition readBatchSize : Z := 5000.

(** The fields of the code, and of its connection: the rows that the open
    cursor has yet to deliver, and how the fetches to come will go. *)
Record cursorIterator := mkCursor {
  buffer : list SequencedEvent;
  idx : nat;
  exhausted : bool;
  cursor_err : option store_error;
  cursor_closed : bool;
  cursor_rows : list (Z * row);
  fetches : list (option db_error);
}.

Definition cursor_Next (it : cursorIterator) : outcome store_error (bool * cursorIterator) :=
  if decide (cursor_err it ≠ None ∨ cursor_closed it = true) then Ok (false, it)
  else if decide (idx it < length (buffer it))%nat then
    Ok (true, mkCursor (buffer it) (S (idx it)) (exhausted it) (cursor_err it) (cursor_closed it)
                (cursor_rows it) (fetches it))
  else if exhausted it then Ok (false, it)
  else
    let batch := take (Z.to_nat readBatchSize) (cursor_rows it) in
    let left := drop (Z.to_nat readBatchSize) (cursor_rows it) in
    let failed err :=
      mkCursor (buffer it) (idx it) (exhausted it) (Some err) (cursor_closed it) left
        (tail (fetches it)) in
    match mjoin (head (fetches it)) with
    | Some err => Ok (false, failed (db_store_error err))
    | None =>
        match collect_rows batch with
        | Err err => Ok (false, failed err)
        | Panic msg => Panic msg
        | Ok evs =>
            let exhausted :=
              if decide (Z.of_nat (length evs) < readBatchSize) then true else exhausted it in
            Ok (bool_decide (0 < length evs)%nat,
                mkCursor evs 1 exhausted (cursor_err it) (cursor_closed it) left (tail (fetches it)))
        end
    end.

(** [it.buffer[it.idx-1]] *)
Definition cursor_Event (it : cursorIterator) : outcome store_error SequencedEvent :=
  match idx it with
  | O => Panic "index out of range [-1]"
  | S i =>
      match buffer it !! i with
      | Some ev => Ok ev
      | None => Panic "index out of range"
      end
  end.

Definition cursor_Close (it : cursorIterator) : cursorIterator :=
  mkCursor (buffer it) (idx it) (exhausted it) (cursor_err it) true (cursor_rows it) (fetches it).

#[export] Instance cursorIterator_iterator : EventIterator cursorIterator := {
  Next := cursor_Next;
  Current := cursor_Event;
  Err_ := cursor_err;
  Close := cursor_Close;
}.

(** ** What the iterator delivers *)

(** The events of the batches to come, up to the first that fails as a whole,
    and its error. *)
Fixpoint batches (fuel : nat) (l : list (Z * row)) (faults : list (option db_error)) :
    list SequencedEvent * option store_error :=
  match fuel with
  | O => ([], None)
  | S fuel =>
      match mjoin (head faults), collect_rows (take (Z.to_nat readBatchSize) l) with
      | Some err, _ => ([], Some (db_store_error err))
      | None, Err err => ([], Some err)
      | None, Panic _ => ([], None)
      | None, Ok evs =>
          if decide (Z.of_nat (length evs) < readBatchSize) then (evs, None)
          else
            let '(evs', err) := batches fuel (drop (Z.to_nat readBatchSize) l) (tail faults) in
            (evs ++ evs', err)
      end
  end.

(** Rows at the positions of a [bigserial] column. *)
Definition row_positions (l : list (Z * row)) : Prop := Forall (λ pr, 0 ≤ pr.1 < two63) l.

Lemma collect_rows_length l evs : collect_rows l = Ok evs → length evs = length l.
Proof.
  revert evs. induction l as [|pr l IH]; cbn; intros evs; [by intros [= <-]|].
  destruct (rowToSequencedEvent pr) as [ev| |]; [|done..].
  cbn. destruct (collect_rows l) as [evs'| |]; [|done..]. cbn. intros [= <-]. cbn.
  by rewrite (IH evs').
Qed.

Lemma rowToSequencedEvent_no_panic pr msg : 0 ≤ pr.1 < two63 → rowToSequencedEvent pr ≠ Panic msg.
Proof.
  destruct pr as [p r]. cbn. intros Hp. unfold rowToSequencedEvent.
  assert (∀ m, Unmarshal (r_payload r) ≠ Panic m) as Hj.
  { intros m. unfold Unmarshal. by repeat (case_match; try done). }
  destruct (Unmarshal (r_payload r)) as [[data metadata]| |m]; [|done|by destruct (Hj m)]. cbn.
  assert (∀ m, TagsFrom (r_tags r) ≠ Panic m) as Ht.
  { intros m. unfold TagsFrom. clear. induction (r_tags r) as [|v l IH]; cbn; [done|].
    destruct (isValidTagToken v); [|done]. cbn in *.
    destruct (check_values l) as [[]| |]; cbn in *; [done|done|]. by intros [= ->]. }
  destruct (TagsFrom (r_tags r)) as [t| |m]; [|done|by destruct (Ht m)]. cbn.
  by rewrite int64ToPosition_nonneg.
Qed.

Lemma collect_rows_no_panic l msg : row_positions l → collect_rows l ≠ Panic msg.
Proof.
  induction 1 as [|pr l Hp _ IH]; cbn; [done|].
  pose proof (rowToSequencedEvent_no_panic pr) as Hn.
  destruct (rowToSequencedEvent pr) as [ev| |m]; [|done|by destruct (Hn m Hp)]. cbn.
  destruct (collect_rows l) as [evs| |m]; [done|done|]. cbn. by intros [= ->].
Qed.

Lemma batch_positive : (0 < Z.to_nat readBatchSize)%nat.
Proof. unfold readBatchSize. lia. Qed.

(** A full batch shortens the cursor, so one more unit of fuel than rows is
    enough. *)
Lemma batches_enough f f' l faults : (length l < f)%nat → (length l < f')%nat →
  batches f l faults = batches f' l faults.
Proof.
  revert f' l faults. induction f as [|f IH]; intros f' l faults Hf Hf'; [lia|].
  destruct f' as [|f']; [lia|]. cbn [batches].
  destruct (mjoin (head faults)); [done|].
  destruct (collect_rows _) as [evs| |] eqn:E; [|done..].
  case_decide as Hlen; [done|]. apply collect_rows_length in E. rewrite length_take in E.
  pose proof batch_positive. rewrite (IH f'); [done|..]; rewrite length_drop; lia.
Qed.

(** The events that the fetches to come deliver. *)
Definition upcoming (it : cursorIterator) : list SequencedEvent * option store_error :=
  batches (S (length (cursor_rows it))) (cursor_rows it) (fetches it).
Arguments upcoming : simpl never.

Definition cursor_live (it : cursorIterator) : bool :=
  bool_decide (cursor_err it = None) && negb (cursor_closed it).

Definition cursor_remaining (it : cursorIterator) : list SequencedEvent :=
  if cursor_live it then
    drop (idx it) (buffer it) ++ (if exhausted it then [] else (upcoming it).1)
  else [].

Definition cursor_final_error (it : cursorIterator) : option store_error :=
  if cursor_live it && negb (exhausted it) then (upcoming it).2 else cursor_err it.

Definition cursor_inv (it : cursorIterator) : Prop := row_positions (cursor_rows it).

Lemma cursor_live_true it :
  cursor_live it = true ↔ cursor_err it = None ∧ cursor_closed it = false.
Proof. unfold cursor_live. rewrite andb_true_iff, bool_decide_eq_true, negb_true_iff. done. Qed.

Lemma upcoming_step it :
  upcoming it =
    match mjoin (head (fetches it)), collect_rows (take (Z.to_nat readBatchSize) (cursor_rows it)) with
    | Some err, _ => ([], Some (db_store_error err))
    | None, Err err => ([], Some err)
    | None, Panic _ => ([], None)
    | None, Ok evs =>
        if decide (Z.of_nat (length evs) < readBatchSize) then (evs, None)
        else
          let '(evs', err) := upcoming (mkCursor evs 1 false None false
            (drop (Z.to_nat readBatchSize) (cursor_rows it)) (tail (fetches it))) in
          (evs ++ evs', err)
    end.
Proof.
  unfold upcoming at 1. cbn [batches]. destruct (mjoin (head (fetches it))); [done|].
  destruct (collect_rows _) as [evs| |] eqn:E; [|done..]. case_decide as Hlen; [done|].
  unfold upcoming. cbn [cursor_rows fetches]. apply collect_rows_length in E. rewrite length_take in E.
  pose proof batch_positive.
  rewrite (batches_enough _ (S (length (drop (Z.to_nat readBatchSize) (cursor_rows it)))));
    [done|rewrite length_drop; lia|lia].
Qed.

(** [Next] at the end of the buffer, in terms of what is upcoming. *)
Lemma cursor_Next_fetch it :
  cursor_inv it → cursor_live it = true → (length (buffer it) ≤ idx it)%nat → exhausted it = false →
  ∃ it', cursor_Next it = Ok (bool_decide (0 < length (upcoming it).1)%nat, it') ∧ cursor_inv it' ∧
    match (upcoming it).1 with
    | [] => cursor_err it' = (upcoming it).2
    | ev :: evs => cursor_Event it' = Ok ev ∧ cursor_remaining it' = evs ∧
        cursor_final_error it' = (upcoming it).2
    end.
Proof.
  intros Hpos [Herr Hclosed]%cursor_live_true Hend Hex. rewrite upcoming_step.
  unfold cursor_Next. rewrite Herr, Hclosed, decide_False by naive_solver.
  rewrite decide_False by lia. rewrite Hex.
  assert (row_positions (take (Z.to_nat readBatchSize) (cursor_rows it))) as Htake
    by (by apply Forall_take).
  assert (row_positions (drop (Z.to_nat readBatchSize) (cursor_rows it))) as Hdrop
    by (by apply Forall_drop).
  destruct (mjoin (head (fetches it))) as [err|]; [by eexists|].
  destruct (collect_rows _) as [evs|err|msg] eqn:E;
    [|by eexists|by destruct (collect_rows_no_panic _ msg Htake)].
  pose proof batch_positive.
  set (it' := mkCursor evs 1 (if decide (Z.of_nat (length evs) < readBatchSize) then true else false)
    None false (drop (Z.to_nat readBatchSize) (cursor_rows it)) (tail (fetches it))).
  assert (cursor_remaining it' = drop 1 evs ++ (if decide (Z.of_nat (length evs) < readBatchSize)
    then [] else (upcoming it').1) ∧ cursor_final_error it' =
    if decide (Z.of_nat (length evs) < readBatchSize) then None else (upcoming it').2) as [Hr Hf].
  { unfold cursor_remaining, cursor_final_error, cursor_live. cbn. by case_decide. }
  exists it'. rewrite Hr, Hf. fold (upcoming it').
  destruct evs as [|ev evs].
  - by rewrite !decide_True by done.
  - change (upcoming (mkCursor (ev :: evs) 1 false None false
      (drop (Z.to_nat readBatchSize) (cursor_rows it)) (tail (fetches it)))) with (upcoming it').
    destruct (upcoming it') as [evs' e']. case_decide; cbn; rewrite ?app_nil_r; done.
Qed.

#[export] Instance cursorIterator_laws : IteratorLaws cursorIterator.
Proof.
  refine {|
    iter_inv := cursor_inv;
    remaining := cursor_remaining;
    final_error := cursor_final_error;
    is_closed := cursor_closed;
  |}.
  - intros it ev evs Hinv Hrem. unfold cursor_remaining in Hrem.
    destruct (cursor_live it) eqn:Hlive; [|done].
    destruct (decide (idx it < length (buffer it))%nat) as [Hlt|Hge].
    + exists (mkCursor (buffer it) (S (idx it)) (exhausted it) (cursor_err it) (cursor_closed it)
        (cursor_rows it) (fetches it)).
      destruct (lookup_lt_is_Some_2 (buffer it) (idx it) Hlt) as [ev' Hev].
      rewrite (drop_S _ _ _ Hev) in Hrem. cbn in Hrem. injection Hrem as -> Hrem.
      pose proof Hlive as [Herr Hclosed]%cursor_live_true. split_and!.
      * cbn. unfold cursor_Next. rewrite Herr, Hclosed, decide_False by naive_solver.
        by rewrite decide_True.
      * cbn. unfold cursor_Event. cbn. by rewrite Hev.
      * done.
      * unfold cursor_remaining. change (cursor_live (mkCursor _ _ _ _ _ _ _)) with (cursor_live it).
        by rewrite Hlive, <-Hrem.
      * done.
    + rewrite drop_ge in Hrem by lia. cbn in Hrem.
      destruct (exhausted it) eqn:Hex; [done|].
      destruct (cursor_Next_fetch it) as (it'&HN&Hinv'&Hmatch); [done..|lia|done|].
      rewrite Hrem in HN, Hmatch. destruct Hmatch as (?&?&Hf). exists it'. split_and!; try done.
      unfold cursor_final_error at 2. by rewrite Hlive, Hex.
  - intros it Hinv Hrem. unfold cursor_remaining in Hrem. cbn.
    unfold cursor_final_error. destruct (cursor_live it) eqn:Hlive.
    + apply app_nil in Hrem as [Hdrop Hrem]. 
      assert (length (buffer it) ≤ idx it)%nat as Hend.
      { apply (f_equal length) in Hdrop. rewrite length_drop in Hdrop. cbn in Hdrop. lia. }
      destruct (exhausted it) eqn:Hex; cbn.
      * exists it. split; [|done]. apply cursor_live_true in Hlive as [Herr Hclosed].
        unfold cursor_Next. rewrite Herr, Hclosed, decide_False by naive_solver.
        rewrite decide_False by lia. by rewrite Hex.
      * destruct (cursor_Next_fetch it) as (it'&HN&_&Hmatch); [done..|].
        rewrite Hrem in HN, Hmatch. by exists it'.
    + exists it. split; [|done]. unfold cursor_Next. rewrite decide_True; [done|].
      unfold cursor_live in Hlive. apply andb_false_iff in Hlive as [H|H].
      * left. by apply bool_decide_eq_false in H.
      * right. by destruct (cursor_closed it).
  - done.
Defined.

(** ** Collecting a fresh cursor *)

Definition fresh_cursor (l : list (Z * row)) (faults : list (option db_error)) : cursorIterator :=
  mkCursor [] 0 false None false l faults.

Lemma collect_rows_app l l' evs evs' :
  collect_rows l = Ok evs → collect_rows l' = Ok evs' → collect_rows (l ++ l') = Ok (evs ++ evs').
Proof.
  revert evs. induction l as [|pr l IH]; cbn; intros evs; [by intros [= <-]|].
  destruct (rowToSequencedEvent pr) as [ev| |]; [|done..]. cbn.
  destruct (collect_rows l) as [evs1| |]; [|done..]. cbn. intros [= <-] Hl'.
  by rewrite (IH evs1).
Qed.

Lemma collect_rows_split l l' evs : collect_rows (l ++ l') = Ok evs →
  ∃ evs1 evs2, collect_rows l = Ok evs1 ∧ collect_rows l' = Ok evs2 ∧ evs = evs1 ++ evs2.
Proof.
  revert evs. induction l as [|pr l IH]; cbn; intros evs; [by exists [], evs|].
  destruct (rowToSequencedEvent pr) as [ev| |]; [|done..]. cbn.
  destruct (collect_rows (l ++ l')) as [evs1| |]; [|done..]. cbn. intros [= <-].
  destruct (IH evs1 eq_refl) as (e1&e2&->&->&->). cbn. by exists (ev :: e1), e2.
Qed.

(** What the batches deliver is an initial part; without an error, all. *)
Lemma batches_prefix f l faults : row_positions l → (length l < f)%nat →
  ∃ k, collect_rows (take k l) = Ok (batches f l faults).1 ∧
    ((batches f l faults).2 = None → collect_rows l = Ok (batches f l faults).1).
Proof.
  revert l faults. induction f as [|f IH]; intros l faults Hpos Hf; [lia|]. cbn [batches].
  set (n := Z.to_nat readBatchSize). pose proof batch_positive as Hn. fold n in Hn.
  assert (row_positions (take n l)) as Htake by (by apply Forall_take).
  destruct (mjoin (head faults)) as [err|]; [by exists 0%nat|].
  destruct (collect_rows (take n l)) as [evs|err|msg] eqn:E;
    [|by exists 0%nat|by destruct (collect_rows_no_panic _ msg Htake)].
  pose proof (collect_rows_length _ _ E) as Hlen. rewrite length_take in Hlen.
  case_decide as Hshort.
  - exists n. split; [done|]. intros _. cbn. rewrite <-E. f_equal. symmetry. apply take_ge.
    unfold n in *. lia.
  - destruct (IH (drop n l) (tail faults)) as (k&Hk&Hall);
      [by apply Forall_drop|rewrite length_drop; lia|].
    destruct (batches f (drop n l) (tail faults)) as [evs' err]. cbn in *.
    exists (n + k)%nat. split.
    + rewrite <-take_take_drop. by apply collect_rows_app.
    + intros He. rewrite <-(take_drop n l) at 1. apply collect_rows_app; [done|by apply Hall].
Qed.

Lemma batches_complete f l faults evs :
  (length l < f)%nat → Forall (eq None) faults → collect_rows l = Ok evs →
  batches f l faults = (evs, None).
Proof.
  revert l faults evs. induction f as [|f IH]; intros l faults evs Hf Hfaults E; [lia|]. cbn [batches].
  set (n := Z.to_nat readBatchSize). pose proof batch_positive as Hn. fold n in Hn.
  assert (mjoin (head faults) = None) as -> by (by destruct Hfaults as [|?? <-]).
  rewrite <-(take_drop n l) in E. apply collect_rows_split in E as (e1&e2&E1&E2&->).
  rewrite E1. pose proof (collect_rows_length _ _ E1) as Hlen. rewrite length_take in Hlen.
  case_decide as Hshort.
  - assert (drop n l = []) as Hd by (apply drop_ge; unfold n in *; lia).
    rewrite Hd in E2. injection E2 as <-. by rewrite app_nil_r.
  - rewrite (IH _ _ e2); [done|rewrite length_drop; lia|by destruct Hfaults|done].
Qed.

(** [Collect] of a fresh cursor returns what the batches deliver. *)
Lemma collect_fresh l faults fuel : row_positions l → (length l < fuel)%nat →
  ∃ it', Collect fuel (fresh_cursor l faults) =
      Some (Ok ((batches (S (length l)) l faults).1, (batches (S (length l)) l faults).2), it') ∧
    cursor_closed it' = true.
Proof.
  intros Hpos Hfuel. set (it := fresh_cursor l faults).
  destruct (batches_prefix (S (length l)) l faults Hpos) as (k&Hk&_); [lia|].
  change (batches (S (length l)) l faults) with (upcoming it) in Hk |- *.
  destruct (collect_loop_spec fuel it []) as (it'&E&Herr); [done| |].
  { change (remaining it) with (upcoming it).1. apply collect_rows_length in Hk.
    rewrite length_take in Hk. lia. }
  change (remaining it) with (upcoming it).1 in E.
  change (final_error it) with (upcoming it).2 in Herr.
  exists (Close it'). unfold Collect. rewrite E. cbn in *. by rewrite Herr.
Qed.

(** ** Stored events decode *)

(** What comes back of an event: nil payloads come back as [null]. *)
Definition stored (ev : Event) : Event :=
  mkEvent (Type_ ev) (Event_Tags ev) (Some (default null_json (Data ev)))
    (Some (default null_json (Metadata ev))).

(** Events that the store can give back. *)
Definition decodable (ev : Event) : Prop :=
  tags_wf (Event_Tags ev) ∧ json_value (default null_json (Data ev)) ∧
  json_value (default null_json (Metadata ev)).

Lemma serializePayload_object ev :
  serializePayload ev = object_text (default null_json (Data ev)) (default null_json (Metadata ev)).
Proof. done. Qed.

Lemma TagsFrom_Values t : tags_wf t → TagsFrom (Values t) = Ok t.
Proof.
  intros Ht. rewrite TagsFrom_Ok.
  - f_equal. apply Tags_ext. intros v. cbn. by rewrite elem_of_list_to_set, elem_of_Values.
  - apply Forall_forall. intros v Hv%elem_of_Values. by apply Ht.
Qed.

Lemma row_of_decodes p ev : 0 ≤ p < two63 → decodable ev →
  rowToSequencedEvent (p, row_of ev) = Ok (mkSequenced (stored ev) (mkPosition p)).
Proof.
  intros Hp (Ht&Hd&Hm). unfold rowToSequencedEvent, row_of. cbn [r_payload r_tags r_type].
  rewrite serializePayload_object, Unmarshal_object by done. cbn.
  rewrite TagsFrom_Values by done. cbn. by rewrite int64ToPosition_nonneg.
Qed.

(** ** Properties *)

(** C17: an event whose tags are tokens and whose payloads are JSON values,
    without white space around them, comes back from its row as it was, at its position, a nil payload as
    [null].  Nothing enforces these conditions when the event is appended: an
    ill-formed payload can make the row undecodable, which fails every read
    that reaches it, and can come back as another payload. *)
Theorem row_roundtrip p ev :
  0 ≤ p < two63 →
  (decodable ev → rowToSequencedEvent (p, row_of ev) = Ok (mkSequenced (stored ev) (mkPosition p))) ∧
  (∃ data, rowToSequencedEvent (p, row_of (mkEvent (Type_ ev) EmptyTags (Some data) None)) =
     Err (EJson ErrSyntax)) ∧
  (∃ data data', data ≠ data' ∧
     rowToSequencedEvent (p, row_of (mkEvent (Type_ ev) EmptyTags (Some data) None)) =
       Ok (mkSequenced (mkEvent (Type_ ev) EmptyTags (Some data') (Some null_json)) (mkPosition p))).
Proof.
  intros Hp. split_and!.
  - by apply row_of_decodes.
  - by exists "{".
  - exists ("1," +:+ quote +:+ "data" +:+ quote +:+ ":2"), "2". split; [done|].
    assert (∀ data, rowToSequencedEvent (p, row_of (mkEvent (Type_ ev) EmptyTags (Some data) None)) =
      '(d, m) ← map_err EJson (Unmarshal (object_text data null_json));
      tagSet ← map_err ETags (TagsFrom (Values EmptyTags));
      pos ← int64ToPosition p; Ok (mkSequenced (mkEvent (Type_ ev) tagSet d m) pos)) as -> by done.
    replace (Unmarshal _) with
      (Ok (E := json_error) (Some "2", Some null_json)) by (vm_compute; reflexivity).
    cbn [map_err mbind outcome_bind]. rewrite int64ToPosition_nonneg by done. done.
Qed.

(** C14: collecting a cursor terminates and never passes off a part of the
    result as all of it: what it returns decodes an initial part of the
    cursor's rows, in order, and all of them unless it reports an error; it
    reports one only when a fetch fails or a row does not decode.  The
    batches leave no trace. *)
Theorem cursor_Collect l faults fuel :
  row_positions l → (length l < fuel)%nat →
  ∃ evs err it', Collect fuel (fresh_cursor l faults) = Some (Ok (evs, err), it') ∧
    cursor_closed it' = true ∧
    (∃ k, collect_rows (take k l) = Ok evs) ∧
    (err = None → collect_rows l = Ok evs) ∧
    (Forall (eq None) faults → is_Ok (collect_rows l) → err = None).
Proof.
  intros Hpos Hfuel.
  destruct (collect_fresh l faults fuel Hpos Hfuel) as (it'&E&Hclosed).
  destruct (batches_prefix (S (length l)) l faults Hpos) as (k&Hk&Hall); [lia|].
  exists (batches (S (length l)) l faults).1, (batches (S (length l)) l faults).2, it'.
  split_and!; [done|done|by exists k|done|].
  intros Hf [evs Hevs]. by rewrite (batches_complete _ _ _ evs) by (done || lia).
Qed.

(** *** Witnesses *)

Definition w_stored : Event :=
  mkEvent "Enrolled" (mkTags {["course:1"]}) (Some "[1, true]") None.

Lemma w_stored_decodable : decodable w_stored.
Proof.
  split_and!; [|by vm_compute..]. intros v Hv. cbn in Hv. apply elem_of_singleton in Hv as ->.
  by vm_compute.
Qed.

Lemma row_roundtrip_witness :
  rowToSequencedEvent (7, row_of w_stored) = Ok (mkSequenced (stored w_stored) (mkPosition 7)).
Proof. apply (row_roundtrip 7 w_stored); [done|apply w_stored_decodable]. Defined.

Lemma cursor_Collect_witness :
  let l := [(3, row_of w_stored); (5, row_of w_stored)] in
  (∃ evs err it', Collect 3 (fresh_cursor l []) = Some (Ok (evs, err), it') ∧
    cursor_closed it' = true ∧ (∃ k, collect_rows (take k l) = Ok evs) ∧
    (err = None → collect_rows l = Ok evs) ∧
    (Forall (eq None) ([] : list (option db_error)) → is_Ok (collect_rows l) → err = None)) ∧
  is_Ok (collect_rows l).
Proof.
  split.
  - apply (cursor_Collect [(3, row_of w_stored); (5, row_of w_stored)] [] 3); [by repeat constructor|].
    cbn. lia.
  - eexists. vm_compute. reflexivity.
Defined.
