(* ===== verification/PgLogic.v ===== *)
(** * PgLogic

    A rely-guarantee logic for programs that share the server of [PgServer]:
    the invariant of the server, what a session may rely on while others run,
    the weakest precondition [wp] of a program among other sessions, and its
    soundness for every interleaving of any number of programs.

    The invariant carries the protocol of the advisory locks: a session only
    inserts a row while it holds the row's locks (an exclusive lock for each
    pair of the row's type with one of its tags, and shared intent locks), and
    it keeps them until the end of its transaction.  [safe] is the obligation
    of a program at each command; [spec] is what must hold of a transaction
    when it commits. *)

From S2P Require Import Prelude.
From S2P Require Import LockKeys.
From S2P Require Import Serialize.
From S2P Require Import PgServer.

Local Open Scope Z_scope.

(** ** Rows, allocation and history *)

(** The locks that protect a row. *)
Definition row_keys (r : row) : list lock :=
  ((λ tag, (leafKey (r_type r) tag, true)) <$> r_tags r) ++
  [(typeIntentKey (r_type r), false); (globalIntentKey, false)].

Definition covered (ls : list lock) (r : row) : Prop := ∀ l, l ∈ row_keys r → l ∈ ls.

Definition last_position (s : server) : Z := coalesce_last (seq_last s).

(** A row at its position, committed or not. *)
Definition allocated (s : server) (p : Z) (r : row) : Prop :=
  table s !! p = Some r ∨ ∃ i t, txs s !! i = Some t ∧ pending t !! p = Some r.

(** The table after a history of committed transactions. *)
Definition replay (h : list (nat * rows)) : rows := foldl (λ tbl e, e.2 ∪ tbl) ∅ h.

Definition own_wal (i : nat) (s : server) : list (nat * rows) :=
  filter (λ e, e.1 = i) (wal s).

Record Inv (s : server) : Prop := {
  inv_seq v : seq_last s = Some v → 1 ≤ v < two63;
  inv_allocated p r : allocated s p r → 1 ≤ p ≤ last_position s;
  inv_fresh i t p : txs s !! i = Some t → is_Some (pending t !! p) → table s !! p = None;
  inv_disjoint i j t t' : i ≠ j → txs s !! i = Some t → txs s !! j = Some t' →
    pending t ##ₘ pending t';
  inv_covered i t p r : txs s !! i = Some t → pending t !! p = Some r → covered (locks t) r;
  inv_locks i j t t' l l' : i ≠ j → txs s !! i = Some t → txs s !! j = Some t' →
    l ∈ locks t → l' ∈ locks t' → compatible l l';
  inv_wal : table s = replay (wal s);
}.

(** ** What a session relies on *)

Record rely (i : nat) (s s' : server) : Prop := {
  rely_table : table s ⊆ table s';
  rely_last : last_position s ≤ last_position s';
  rely_tx : txs s' !! i = txs s !! i;
  rely_currval : currvals s' !! i = currvals s !! i;
  rely_allocated p r : allocated s' p r → p ≤ last_position s → allocated s p r;
  rely_commit p r t l l' : table s' !! p = Some r → table s !! p = None →
    txs s !! i = Some t → l ∈ locks t → l' ∈ row_keys r → compatible l l';
  rely_wal : wal s `prefix_of` wal s';
  rely_own_wal : own_wal i s' = own_wal i s;
}.

Lemma compatible_sym l l' : compatible l l' → compatible l' l.
Proof. unfold compatible. intros H E. destruct H; [done|]. done. Qed.

#[export] Instance rely_refl i : Reflexive (rely i).
Proof. intros s. split; try done. intros. congruence. Qed.

#[export] Instance rely_trans i : Transitive (rely i).
Proof.
  intros s1 s2 s3 R R'. split.
  - trans (table s2); [apply R|apply R'].
  - trans (last_position s2); [apply R|apply R'].
  - by rewrite (rely_tx _ _ _ R'), (rely_tx _ _ _ R).
  - by rewrite (rely_currval _ _ _ R'), (rely_currval _ _ _ R).
  - intros p r Hp Hle. apply (rely_allocated _ _ _ R); [|done].
    apply (rely_allocated _ _ _ R'); [done|]. pose proof (rely_last _ _ _ R). lia.
  - intros p r t l l' H3 H1 Ht Hl Hl'. destruct (table s2 !! p) as [r'|] eqn:H2.
    + assert (r' = r) as ->.
      { pose proof (lookup_weaken _ _ _ _ H2 (rely_table _ _ _ R')). congruence. }
      by apply (rely_commit _ _ _ R p r t).
    + apply (rely_commit _ _ _ R' p r t); try done. by rewrite (rely_tx _ _ _ R).
  - trans (wal s2); [apply R|apply R'].
  - by rewrite (rely_own_wal _ _ _ R'), (rely_own_wal _ _ _ R).
Qed.

(** ** Commands keep the invariant *)

Lemma last_position_nextval s p : nextval (seq_last s) = Some p → Inv s →
  p = last_position s + 1 ∧ 1 ≤ p < two63.
Proof.
  intros Hn HI. unfold nextval, last_position, coalesce_last in *.
  destruct (seq_last s) as [v|] eqn:Hv; [|by injection Hn as <-].
  case_decide; [|done]. injection Hn as <-. cbn. pose proof (inv_seq _ HI v Hv). lia.
Qed.

Lemma replay_snoc h e : replay (h ++ [e]) = e.2 ∪ replay h.
Proof. unfold replay. by rewrite foldl_app. Qed.

Lemma own_wal_snoc i s s' e : wal s' = wal s ++ [e] →
  own_wal i s' = own_wal i s ++ (if decide (e.1 = i) then [e] else []).
Proof. unfold own_wal. intros ->. rewrite filter_app, filter_cons, filter_nil. by case_decide. Qed.

Section set_tx.
Context (i : nat) (s : server).

(** Replacing one transaction by another with the same rows. *)
Lemma allocated_set_tx t t' p r :
  txs s !! i = Some t → pending t' = pending t →
  allocated (set_tx i t' s) p r ↔ allocated s p r.
Proof.
  intros Ht Hp. unfold allocated. cbn. f_equiv. split.
  - intros (j&u&Hj&Hu). destruct (decide (j = i)) as [->|].
    + rewrite lookup_insert_eq in Hj. injection Hj as <-. exists i, t. by rewrite <-Hp.
    + rewrite lookup_insert_ne in Hj by done. by exists j, u.
  - intros (j&u&Hj&Hu). destruct (decide (j = i)) as [->|].
    + exists i, t'. rewrite lookup_insert_eq, Hp. by simplify_eq.
    + exists j, u. by rewrite lookup_insert_ne by done.
Qed.

Lemma set_tx_rely t j : j ≠ i →
  (∀ p r, allocated (set_tx i t s) p r → allocated s p r) → rely j s (set_tx i t s).
Proof.
  intros Hne Hal. split; cbn; try done; [by rewrite lookup_insert_ne by done|by auto|].
  intros. congruence.
Qed.

Lemma set_tx_inv t t' :
  Inv s → txs s !! i = Some t → pending t' = pending t →
  (∀ l, l ∈ locks t → l ∈ locks t') →
  (∀ j u l l', j ≠ i → txs s !! j = Some u → l ∈ locks t' → l' ∈ locks u → compatible l l') →
  Inv (set_tx i t' s).
Proof.
  intros HI Ht Hp Hsub Hcompat. split; cbn.
  - apply HI.
  - intros p r ?%(allocated_set_tx t t' p r Ht Hp). by apply (inv_allocated _ HI p r).
  - intros j u p [[<- <-]|[??]]%lookup_insert_Some; [rewrite Hp|]; by eapply (inv_fresh _ HI).
  - intros j k u u' Hne [[<- <-]|[??]]%lookup_insert_Some [[<- <-]|[??]]%lookup_insert_Some;
      rewrite ?Hp; try done; (eapply (inv_disjoint _ HI); [exact Hne|done|done]).
  - intros j u p r [[<- <-]|[??]]%lookup_insert_Some; [|by eapply (inv_covered _ HI)].
    rewrite Hp. intros Hr l Hl. by apply Hsub, (inv_covered _ HI i t p r).
  - intros j k u u' l l' Hne [[<- <-]|[??]]%lookup_insert_Some
      [[<- <-]|[??]]%lookup_insert_Some Hl Hl'; try done.
    + by eapply Hcompat.
    + apply compatible_sym. by eapply Hcompat.
    + by eapply (inv_locks _ HI j k).
  - apply HI.
Qed.
End set_tx.

(** *** Begin and rollback *)

Lemma allocated_begin i s p r : txs s !! i = None →
  allocated (set_tx i (mkTx ∅ [] []) s) p r ↔ allocated s p r.
Proof.
  intros Hn. unfold allocated. cbn. f_equiv. split.
  - intros (j&u&[[<- <-]|[??]]%lookup_insert_Some&Hu); [by cbn in Hu; rewrite lookup_empty in Hu|by exists j, u].
  - intros (j&u&Hj&Hu). exists j, u. rewrite lookup_insert_ne by congruence. done.
Qed.

Lemma begin_inv i s : Inv s → txs s !! i = None → Inv (set_tx i (mkTx ∅ [] []) s).
Proof.
  intros HI Hn. split; cbn.
  - apply HI.
  - intros p r ?%allocated_begin; [|done]. by apply (inv_allocated _ HI p r).
  - intros j u p [[<- <-]|[??]]%lookup_insert_Some Hp; [by cbn in Hp; rewrite lookup_empty in Hp; destruct Hp|].
    by eapply (inv_fresh _ HI).
  - intros j k u u' Hne [[<- <-]|[??]]%lookup_insert_Some [[<- <-]|[??]]%lookup_insert_Some;
      try done; [apply map_disjoint_empty_l|apply map_disjoint_empty_r|].
    eapply (inv_disjoint _ HI); [exact Hne|done|done].
  - intros j u p r [[<- <-]|[??]]%lookup_insert_Some Hp; [by cbn in Hp; rewrite lookup_empty in Hp|].
    by eapply (inv_covered _ HI).
  - intros j k u u' l l' Hne [[<- <-]|[??]]%lookup_insert_Some
      [[<- <-]|[??]]%lookup_insert_Some Hl Hl'; try done;
      [by apply elem_of_nil in Hl|by apply elem_of_nil in Hl'|].
    eapply (inv_locks _ HI); [exact Hne|done..].
  - apply HI.
Qed.

Lemma allocated_drop i s p r : allocated (drop_tx i s) p r → allocated s p r.
Proof.
  unfold allocated. cbn. intros [?|(j&u&[??]%lookup_delete_Some&?)]; [by left|]. right. by exists j, u.
Qed.

Lemma drop_inv i s : Inv s → Inv (drop_tx i s).
Proof.
  intros HI. split; cbn.
  - apply HI.
  - intros p r ?%allocated_drop. by apply (inv_allocated _ HI p r).
  - intros j u p [_ ?]%lookup_delete_Some. by eapply (inv_fresh _ HI).
  - intros j k u u' ? [_ ?]%lookup_delete_Some [_ ?]%lookup_delete_Some.
    by apply (inv_disjoint _ HI j k).
  - intros j u p r [_ ?]%lookup_delete_Some. by eapply (inv_covered _ HI).
  - intros j k u u' l l' ? [_ ?]%lookup_delete_Some [_ ?]%lookup_delete_Some.
    by apply (inv_locks _ HI j k).
  - apply HI.
Qed.

Lemma drop_rely i s j : j ≠ i → rely j s (drop_tx i s).
Proof.
  intros Hne. split; cbn; try done; [by rewrite lookup_delete_ne by done| |].
  - intros p r ? _. by eapply allocated_drop.
  - intros. congruence.
Qed.

(** *** Insertion *)

Section insert.
Context (i : nat) (t : tx) (p : Z) (r : row) (s : server).
Context (HI : Inv s) (Ht : txs s !! i = Some t) (Hn : nextval (seq_last s) = Some p).

Lemma new_position_unused r' q : allocated s q r' → q < p.
Proof.
  intros H. destruct (last_position_nextval s p Hn HI) as [-> _].
  destruct (inv_allocated _ HI q r' H). lia.
Qed.

Lemma new_position_pending j u : txs s !! j = Some u → pending u !! p = None.
Proof.
  intros Hu. destruct (pending u !! p) as [r'|] eqn:Hp; [|done].
  assert (p < p); [|lia]. apply (new_position_unused r'). right. by exists j, u.
Qed.

Lemma new_position_table : table s !! p = None.
Proof.
  destruct (table s !! p) as [r'|] eqn:Hp; [|done].
  assert (p < p); [|lia]. apply (new_position_unused r'). by left.
Qed.

Lemma allocated_insert q r' :
  allocated (insert_row i t p r s) q r' → allocated s q r' ∨ (q = p ∧ r' = r).
Proof.
  unfold allocated. cbn. intros [?|(j&u&[[<- <-]|[??]]%lookup_insert_Some&Hq)]; [by left; left| |].
  - cbn in Hq. apply lookup_insert_Some in Hq as [[<- <-]|[??]]; [by right|].
    left. right. by exists i, t.
  - left. right. by exists j, u.
Qed.

Lemma insert_inv : covered (locks t) r → Inv (insert_row i t p r s).
Proof.
  intros Hcov. destruct (last_position_nextval s p Hn HI) as [Hp Hrange]. split; cbn.
  - by intros v [= <-].
  - intros q r' [H|[-> ->]]%allocated_insert; [|unfold last_position; cbn; lia].
    destruct (inv_allocated _ HI q r' H). unfold last_position in *. cbn. lia.
  - intros j u q [[<- <-]|[??]]%lookup_insert_Some Hq; [|by eapply (inv_fresh _ HI)].
    destruct (decide (q = p)) as [->|]; [apply new_position_table|].
    cbn in Hq. rewrite lookup_insert_ne in Hq by done. by eapply (inv_fresh _ HI).
  - intros j k u u' Hne [[<- <-]|[??]]%lookup_insert_Some [[<- <-]|[??]]%lookup_insert_Some;
      try done; cbn.
    + apply map_disjoint_insert_l. split; [by eapply new_position_pending|].
      eapply (inv_disjoint _ HI); [exact Hne|done|done].
    + apply map_disjoint_insert_r. split; [by eapply new_position_pending|].
      eapply (inv_disjoint _ HI); [exact Hne|done|done].
    + eapply (inv_disjoint _ HI); [exact Hne|done|done].
  - intros j u q r' [[<- <-]|[??]]%lookup_insert_Some; [|by eapply (inv_covered _ HI)]. cbn.
    intros [[<- <-]|[??]]%lookup_insert_Some; [done|]. by eapply (inv_covered _ HI).
  - intros j k u u' l l' Hne [[<- <-]|[??]]%lookup_insert_Some
      [[<- <-]|[??]]%lookup_insert_Some; cbn; try done;
      (eapply (inv_locks _ HI); [exact Hne|done..]).
  - apply HI.
Qed.

Lemma insert_rely j : j ≠ i → rely j s (insert_row i t p r s).
Proof.
  intros Hne. destruct (last_position_nextval s p Hn HI) as [Hp _].
  split; cbn; try done; rewrite ?lookup_insert_ne by done; try done.
  - unfold last_position in *. cbn. lia.
  - intros q r' [?|[-> ->]]%allocated_insert Hle; [done|lia].
  - intros. congruence.
Qed.
End insert.

(** *** Commit *)

Section commit.
Context (i : nat) (t : tx) (s : server) (HI : Inv s) (Ht : txs s !! i = Some t).

Lemma pending_disjoint_table : pending t ##ₘ table s.
Proof.
  apply map_disjoint_spec. intros p r r' Hp Hq.
  rewrite (inv_fresh _ HI i t p Ht) in Hq; [done|by eexists].
Qed.

Lemma table_commit_Some p r :
  table (commit_tx i t s) !! p = Some r ↔ pending t !! p = Some r ∨ table s !! p = Some r.
Proof. cbn. apply lookup_union_Some, pending_disjoint_table. Qed.

Lemma allocated_commit p r : allocated (commit_tx i t s) p r → allocated s p r.
Proof.
  intros [[?|?]%table_commit_Some|(j&u&Hu&?)].
  - right. by exists i, t.
  - by left.
  - cbn in Hu. apply lookup_delete_Some in Hu as [_ ?]. right. by exists j, u.
Qed.

Lemma commit_inv : Inv (commit_tx i t s).
Proof.
  split.
  - apply HI.
  - intros p r ?%allocated_commit. by apply (inv_allocated _ HI p r).
  - intros j u p Hu [r Hp]. cbn in Hu. apply lookup_delete_Some in Hu as [Hne Hu].
    destruct (table (commit_tx i t s) !! p) as [r'|] eqn:E; [|done].
    apply table_commit_Some in E as [E|E].
    + pose proof (inv_disjoint _ HI i j t u Hne Ht Hu) as Hd.
      by destruct (map_disjoint_spec (pending t) (pending u)) as [Hs _];
        destruct (Hs Hd p r' r E Hp).
    + by rewrite (inv_fresh _ HI j u p Hu) in E by (by eexists).
  - cbn. intros j k u u' ? [_ ?]%lookup_delete_Some [_ ?]%lookup_delete_Some.
    by apply (inv_disjoint _ HI j k).
  - cbn. intros j u p r [_ ?]%lookup_delete_Some. by eapply (inv_covered _ HI).
  - cbn. intros j k u u' l l' ? [_ ?]%lookup_delete_Some [_ ?]%lookup_delete_Some.
    by apply (inv_locks _ HI j k).
  - cbn [commit_tx table wal]. by rewrite replay_snoc, (inv_wal _ HI).
Qed.

Lemma commit_rely j : j ≠ i → rely j s (commit_tx i t s).
Proof.
  intros Hne. split.
  - cbn. apply map_union_subseteq_r, pending_disjoint_table.
  - done.
  - cbn. by rewrite lookup_delete_ne by done.
  - done.
  - intros p r ? _. by apply allocated_commit.
  - intros p r u l l' Hnew Hold Hu Hl Hl'. apply table_commit_Some in Hnew as [Hp|]; [|congruence].
    apply (inv_locks _ HI j i u t); [done..|]. by apply (inv_covered _ HI i t p r).
  - cbn. by eexists.
  - rewrite (own_wal_snoc j s _ (i, pending t)) by done. cbn.
    rewrite decide_False by done. by rewrite app_nil_r.
Qed.
End commit.

(** ** The logic *)

Section logic.
(** What holds of a transaction of a session when it commits: the session, the
    table it commits to, its rows. *)
Context (spec : nat → rows → rows → Prop).

(** Every commit of the history met [spec] at its time, and added rows at
    positions that were free. *)
Definition wal_legal (s : server) : Prop :=
  ∀ h1 i new h2, wal s = h1 ++ (i, new) :: h2 →
    spec i (replay h1) new ∧ new ##ₘ replay h1.

(** What a program has to see to before each command. *)
Definition safe (i : nat) (c : cmd) (s : server) : Prop :=
  match c with
  | CBegin => txs s !! i = None
  | CInsert r => ∀ t, txs s !! i = Some t → covered (locks t) r
  | CCommit => ∀ t, txs s !! i = Some t → spec i (table s) (pending t)
  | _ => True
  end.

Lemma commit_legal i t s : Inv s → wal_legal s → txs s !! i = Some t →
  spec i (table s) (pending t) → wal_legal (commit_tx i t s).
Proof.
  intros HI Hlegal Ht Hspec h1 j new h2 E. cbn in E.
  destruct h2 as [|e h2 _] using rev_ind.
  - apply app_inj_2 in E as [E [= <- <-]]; [|done].
    rewrite <-E, <-(inv_wal _ HI). split; [done|]. by eapply pending_disjoint_table.
  - rewrite app_comm_cons, (assoc_L (++)) in E. apply app_inj_2 in E as [E _]; [|done].
    by apply (Hlegal h1 j new h2).
Qed.

Lemma exec_ok_inv i c s r s' :
  Inv s → safe i c s → exec_ok i c s = Some (r, s') →
  Inv s' ∧ ∀ j, j ≠ i → rely j s s'.
Proof.
  intros HI Hsafe.
  assert (Inv s ∧ ∀ j, j ≠ i → rely j s s) as Hid by done.
  destruct c; cbn in *.
  - intros [= <- <-]. split; [by apply begin_inv|]. intros j ?.
    apply set_tx_rely; [done|]. by intros p r ?%allocated_begin.
  - destruct (txs s !! i) as [t|] eqn:Ht; [|by intros [= <- <-]].
    case_decide as Hg; [|done]. intros [= <- <-]. split.
    + eapply set_tx_inv; [done|done|done| |]; cbn; [by right|].
      intros j u l l' Hne Hu [->|Hl]%elem_of_cons Hl'.
      * destruct (Hg j u Hu) as [|HF]; [done|]. rewrite Forall_forall in HF. by apply HF.
      * by apply (inv_locks _ HI i j t u).
    + intros j ?. apply set_tx_rely; [done|]. intros p r. by apply (allocated_set_tx i s t).
  - by intros [= <- <-].
  - by intros [= <- <-].
  - destruct (txs s !! i) as [t|] eqn:Ht; [|by intros [= <- <-]].
    destruct (nextval (seq_last s)) as [p|] eqn:Hp; [|by intros [= <- <-]].
    intros [= <- <-]. split; [by apply insert_inv; auto|].
    intros j ?. by apply insert_rely.
  - destruct (currvals s !! i); by intros [= <- <-].
  - destruct (txs s !! i) as [t|] eqn:Ht; [|by intros [= <- <-]]. intros [= <- <-]. split.
    + eapply set_tx_inv; [done|done|done|done|]. cbn. intros. by eapply (inv_locks _ HI i j t u).
    + intros j ?. apply set_tx_rely; [done|]. intros p r. by apply (allocated_set_tx i s t).
  - destruct (txs s !! i) as [t|] eqn:Ht; [|by intros [= <- <-]]. intros [= <- <-].
    split; [by apply commit_inv|]. intros j ?. by apply commit_rely.
  - by intros [= <- <-].
  - intros [= <- <-]. split; [by apply drop_inv|]. intros j ?. by apply drop_rely.
Qed.

Lemma exec_ok_legal i c s r s' :
  Inv s → wal_legal s → safe i c s → exec_ok i c s = Some (r, s') → wal_legal s'.
Proof.
  intros HI HL Hsafe E. destruct (decide (c = CCommit)) as [->|Hc].
  - cbn in *. destruct (txs s !! i) as [t|] eqn:Ht; [|by injection E as <- <-].
    injection E as <- <-. apply commit_legal; auto.
  - intros h1 j new h2 Hw. apply (HL h1 j new h2). rewrite <-Hw.
    destruct c; try done; cbn in E; case_matches_in E; by simplify_eq/=.
Qed.

Lemma exec_cases fault i c s r s' : exec fault i c s = Some (r, s') →
  exec_ok i c s = Some (r, s') ∨ (c ≠ CRollback ∧ s' = s ∧ ∃ e, r = Err e ∧ fault = Some e).
Proof.
  destruct fault as [e|]; [|by left]. destruct c; cbn; try (by left); intros [= <- <-];
    right; (split_and!; [done|done|by exists e]).
Qed.

Lemma exec_sound fault i c s r s' :
  Inv s → wal_legal s → safe i c s → exec fault i c s = Some (r, s') →
  Inv s' ∧ wal_legal s' ∧ ∀ j, j ≠ i → rely j s s'.
Proof.
  intros HI HL Hsafe [H|(_&->&_)]%exec_cases; [|done].
  destruct (exec_ok_inv i c s r s' HI Hsafe H). eauto using exec_ok_legal.
Qed.

(** *** Weakest preconditions

    The environment may fail a command with any error but the one that only
    the stored procedure raises. *)

Definition ordinary (e : db_error) : Prop := parseConditionViolation e = None.

Definition fault_ok (fault : option db_error) : Prop := ∀ e, fault = Some e → ordinary e.

Fixpoint wp {A} (i : nat) (p : prog A) (Q : A → server → Prop) (s : server) : Prop :=
  ∀ s', Inv s' → rely i s s' →
  match p with
  | Ret a => Q a s'
  | Do c k => safe i c s' ∧
      ∀ fault r s'', fault_ok fault → exec fault i c s' = Some (r, s'') → wp i (k r) Q s''
  end.

Lemma wp_rely {A} i (p : prog A) Q s s' : rely i s s' → wp i p Q s → wp i p Q s'.
Proof.
  intros HR. destruct p; cbn; intros Hwp s'' HI HR'; apply Hwp; try done;
    by trans s'.
Qed.

Lemma wp_intro {A} i (p : prog A) Q s :
  (∀ s', Inv s' → rely i s s' → wp i p Q s') → wp i p Q s.
Proof.
  intros H. destruct p; cbn in *; intros s' HI HR; by apply (H s').
Qed.

Lemma wp_ret {A} i (a : A) Q s :
  (∀ s', Inv s' → rely i s s' → Q a s') → wp i (Ret a) Q s.
Proof. done. Qed.

Lemma wp_do {A} i c (k : _ → prog A) Q s :
  (∀ s', Inv s' → rely i s s' → safe i c s' ∧
     (c ≠ CRollback → ∀ e, ordinary e → wp i (k (Err e)) Q s') ∧
     ∀ r s'', exec_ok i c s' = Some (r, s'') → Inv s'' → wp i (k r) Q s'') →
  wp i (Do c k) Q s.
Proof.
  intros H s' HI HR. destruct (H s' HI HR) as (Hsafe&Herr&Hok). split; [done|].
  intros fault r s'' Hf [E|(?&->&e&->&->)]%exec_cases; [|by apply Herr; auto].
  apply Hok; [done|]. by apply (exec_ok_inv i c s' r s'').
Qed.

Lemma wp_bind {A B} i (m : prog A) (f : A → prog B) Q s :
  wp i m (λ a s', wp i (f a) Q s') s → wp i (prog_bind m f) Q s.
Proof.
  revert s. induction m as [a|c k IH]; intros s; cbn.
  - intros H. apply wp_intro. intros s' HI HR. by apply H.
  - intros H s' HI HR. destruct (H s' HI HR) as [Hsafe Hk]. split; [done|].
    intros fault r s'' Hf E. by apply IH, (Hk fault).
Qed.

Lemma wp_mono {A} i (p : prog A) (P Q : A → server → Prop) s :
  (∀ a s', Inv s' → P a s' → Q a s') → wp i p P s → wp i p Q s.
Proof.
  intros HPQ. revert s. induction p as [a|c k IH]; intros s; cbn.
  - intros H s' HI HR. by apply HPQ, H.
  - intros H s' HI HR. destruct (H s' HI HR) as [Hsafe Hk]. split; [done|].
    intros fault r s'' Hf E. by apply IH, (Hk fault).
Qed.

Lemma wp_and {A} i (p : prog A) (P Q : A → server → Prop) s :
  wp i p P s → wp i p Q s → wp i p (λ a s', P a s' ∧ Q a s') s.
Proof.
  revert s. induction p as [a|c k IH]; intros s; cbn.
  - intros HP HQ s' HI HR. split; [by apply HP|by apply HQ].
  - intros HP HQ s' HI HR. destruct (HP s' HI HR) as [Hsafe HkP], (HQ s' HI HR) as [_ HkQ].
    split; [done|]. intros fault r s'' Hf E. apply IH; [by apply (HkP fault)|by apply (HkQ fault)].
Qed.

(** Sequencing: the continuation after a value, and what an error leaves. *)
Lemma wp_try {E A B} i (m : prog (outcome E A)) (f : A → prog (outcome E B)) Q s :
  wp i m (λ r s', match r with
    | Ok a => wp i (f a) Q s'
    | Err e => wp i (Ret (Err e)) Q s'
    | Panic msg => wp i (Ret (Panic msg)) Q s'
    end) s →
  wp i (try_bind m f) Q s.
Proof.
  intros H. apply wp_bind. eapply wp_mono; [|exact H]. by intros [a|e|msg] s'.
Qed.

(** *** Soundness

    A configuration is a server and the programs of its sessions; a step
    executes one command of one session, which may fail. *)

Definition config (R : Type) : Type := server * gmap nat (prog R).

Inductive step {R} : config R → config R → Prop :=
  | step_do s ths i c k fault r s' :
      ths !! i = Some (Do c k) → fault_ok fault → exec fault i c s = Some (r, s') →
      step (s, ths) (s', <[i := k r]> ths).

(** Every session meets its postcondition. *)
Definition config_ok {R} (Q : nat → R → server → Prop) (cfg : config R) : Prop :=
  Inv cfg.1 ∧ wal_legal cfg.1 ∧ ∀ i p, cfg.2 !! i = Some p → wp i p (Q i) cfg.1.

Lemma step_ok {R} Q (cfg cfg' : config R) :
  config_ok Q cfg → step cfg cfg' → config_ok Q cfg'.
Proof.
  intros (HI&HL&Hwp) Hstep. destruct Hstep as [s ths i c k fault r s' Hi Hf Hexec]. cbn in *.
  destruct (Hwp i _ Hi s HI) as [Hsafe Hk]; [done|].
  destruct (exec_sound fault i c s r s' HI HL Hsafe Hexec) as (HI'&HL'&HR).
  split_and!; [done|done|]. cbn. intros j p [[<- <-]|[Hne Hj]]%lookup_insert_Some.
  - by apply (Hk fault).
  - eapply wp_rely; [by apply HR|]. by apply Hwp.
Qed.

Lemma steps_ok {R} Q (cfg cfg' : config R) :
  config_ok Q cfg → rtc step cfg cfg' → config_ok Q cfg'.
Proof. intros H Hsteps. induction Hsteps; [done|]. eauto using step_ok. Qed.

(** A session that is done has established its postcondition. *)
Lemma config_ok_done {R} Q (cfg : config R) i a :
  config_ok Q cfg → cfg.2 !! i = Some (Ret a) → Q i a cfg.1.
Proof. intros (HI&_&Hwp) Hi. by apply (Hwp i _ Hi). Qed.

(** What an idle session, or an observer, sees of the others' steps. *)
Lemma step_observer {R} (Q : nat → R → server → Prop) (cfg cfg' : config R) j :
  config_ok Q cfg → step cfg cfg' → cfg.2 !! j = None →
  rely j cfg.1 cfg'.1 ∧ cfg'.2 !! j = None.
Proof.
  intros (HI&HL&Hwp) Hstep Hj. destruct Hstep as [s ths i c k fault r s' Hi Hf Hexec]. cbn in *.
  destruct (Hwp i _ Hi s HI) as [Hsafe Hk]; [done|].
  destruct (exec_sound fault i c s r s' HI HL Hsafe Hexec) as (HI'&HL'&HR).
  assert (j ≠ i) by congruence. split; [by apply HR|]. by rewrite lookup_insert_ne by done.
Qed.

Lemma steps_observer {R} (Q : nat → R → server → Prop) (cfg cfg' : config R) j :
  config_ok Q cfg → rtc step cfg cfg' → cfg.2 !! j = None → rely j cfg.1 cfg'.1.
Proof.
  intros Hok Hsteps. induction Hsteps as [|x y z Hstep Hsteps IH]; [done|]. intros Hj.
  destruct (step_observer Q x y j Hok Hstep Hj). trans y.1; [done|].
  apply IH; [by eapply step_ok|done].
Qed.

(** A program that runs alone meets its postcondition too. *)
Lemma run_wp {A} i faults (p : prog A) Q s a s' :
  Forall fault_ok faults →
  Inv s → wal_legal s → wp i p Q s → run i faults p s = Some (a, s') →
  Inv s' ∧ wal_legal s' ∧ Q a s'.
Proof.
  revert faults s. induction p as [b|c k IH]; intros faults s HF HI HL; cbn.
  - intros H [= <- <-]. split_and!; [done..|]. by apply H.
  - intros H. destruct (H s HI) as [Hsafe Hk]; [done|].
    destruct (exec (mjoin (head faults)) i c s) as [[r s1]|] eqn:E; [|done]. cbn.
    destruct (exec_sound _ i c s r s1 HI HL Hsafe E) as (HI1&HL1&_).
    assert (fault_ok (mjoin (head faults))) as Hf by (by destruct HF; [intros ?|]).
    assert (Forall fault_ok (tail faults)) by (by destruct HF).
    intros Hrun. by eapply (IH r (tail faults) s1); [..|by eapply (Hk _ r s1 Hf)|].
Qed.
End logic.

Lemma empty_server_inv : Inv empty_server.
Proof.
  split; cbn; try done.
  intros p r [H|(i&t&H&_)]; cbn in H; by rewrite lookup_empty in H.
Qed.
