(* ===== verification/PgTyping.v ===== *)
(** * PgTyping

    The [bigint] column of positions ([sequence_position BIGSERIAL] in
    [src/postgres/store.go]): every position on the server, committed or not,
    was drawn from the sequence, whatever programs run.  The store relies on it
    where it decodes rows: [int64ToPosition] panics on a negative position, and
    [positionToInt64] on one that does not fit. *)

From S2P Require Import Prelude.
From S2P Require Import GoJson.
From S2P Require Import SequencePosition.
From S2P Require Import Tags.
From S2P Require Import EventStore.
From S2P Require Import Serialize.
From S2P Require Import PgServer.
From S2P Require Import SqlText.
From S2P Require Import ReadSQL.
From S2P Require Import PgStore.
From S2P Require Import Cursor.
From S2P Require Import PgLogic.

Local Open Scope Z_scope.

(** ** Typed servers *)

Record server_typed (s : server) : Prop := {
  typed_seq v : seq_last s = Some v → 1 ≤ v < two63;
  typed_rows p r : allocated s p r → 1 ≤ p ≤ last_position s;
}.

Lemma Inv_typed s : Inv s → server_typed s.
Proof. intros HI. split; apply HI. Qed.

(** A set of rows as a [SELECT] returns them. *)
Definition rows_typed (m : rows) : Prop := map_Forall (λ p _, 1 ≤ p < two63) m.

(** A result of the type that the command promises. *)
Definition val_typed (c : cmd) : outcome db_error (val c) → Prop :=
  match c with
  | CSnapshot => λ r, ∀ snapshot, r = Ok snapshot → rows_typed snapshot
  | _ => λ _, True
  end.

Lemma typed_last s : server_typed s → last_position s < two63.
Proof.
  intros [Hseq _]. unfold last_position, coalesce_last.
  destruct (seq_last s) as [v|]; [|done]. cbn. by apply Hseq.
Qed.

Lemma allocated_typed s p r : server_typed s → allocated s p r → 1 ≤ p < two63.
Proof.
  intros Hs Hp. pose proof (typed_last s Hs). destruct (typed_rows s Hs p r Hp). lia.
Qed.

Lemma visible_typed i s : server_typed s → rows_typed (visible i s).
Proof.
  intros Hs p r Hp. apply (allocated_typed s p r Hs). unfold visible in Hp.
  destruct (txs s !! i) as [t|] eqn:Ht; [|by left].
  apply lookup_union_Some_raw in Hp as [Hp|[_ Hp]]; [right; by exists i, t|by left].
Qed.

(** A command allocates at most the position it draws. *)
Lemma exec_ok_allocated i c s r s' p rw : exec_ok i c s = Some (r, s') → allocated s' p rw →
  allocated s p rw ∨ (nextval (seq_last s) = Some p ∧ seq_last s' = Some p).
Proof.
  intros E. unfold allocated.
  destruct c; cbn in E; case_matches_in E; simplify_eq/=; try (by left);
    (intros [Hp|(j&u&Hj&Hu)]; cbn in *;
     [try by left; left|
      first [apply lookup_insert_Some in Hj as [[<- <-]|[_ Hj]]
            |apply lookup_delete_Some in Hj as [_ Hj]|idtac];
      cbn in *; rewrite ?lookup_empty in Hu; try done; try (by left; right; eauto)]).
  - apply lookup_insert_Some in Hu as [[<- <-]|[_ Hu]]; [by right|]. left. right. eauto.
  - apply lookup_union_Some_raw in Hp as [Hp|[_ Hp]]; [|by left; left]. left. right. eauto.
Qed.

Lemma exec_ok_seq i c s r s' : exec_ok i c s = Some (r, s') →
  seq_last s' = seq_last s ∨ ∃ p, nextval (seq_last s) = Some p ∧ seq_last s' = Some p.
Proof. intros E. destruct c; cbn in E; case_matches_in E; simplify_eq/=; eauto. Qed.

Lemma nextval_typed s p : server_typed s → nextval (seq_last s) = Some p →
  1 ≤ p < two63 ∧ last_position s < p.
Proof.
  intros [Hseq _]. unfold nextval, last_position, coalesce_last.
  destruct (seq_last s) as [v|]; [|intros [= <-]; cbn; unfold two63; lia].
  specialize (Hseq v eq_refl). case_decide; [|done]. intros [= <-]. cbn. lia.
Qed.

Lemma exec_typed fault i c s r s' : server_typed s → exec fault i c s = Some (r, s') →
  server_typed s' ∧ val_typed c r.
Proof.
  intros Hs [E|(_&->&e&->&_)]%exec_cases; [|split; [done|by destruct c]].
  split.
  - pose proof (exec_ok_seq i c s r s' E) as Hseq. split.
    + intros v Hv. destruct Hseq as [Hseq|(p&Hp&Hseq)]; rewrite Hseq in Hv.
      * by apply (typed_seq s Hs).
      * injection Hv as ->. by apply (nextval_typed s).
    + intros p rw Hp. assert (last_position s ≤ last_position s') as Hmono.
      { unfold last_position at 2. destruct Hseq as [->|(p'&Hp'&->)]; [done|].
        apply (nextval_typed s p' Hs) in Hp'. cbn. lia. }
      destruct (exec_ok_allocated i c s r s' p rw E Hp) as [Hal|[Hn Hl]].
      * destruct (typed_rows s Hs p rw Hal). lia.
      * apply (nextval_typed s p Hs) in Hn. unfold last_position. rewrite Hl. cbn. lia.
  - destruct c; try done. cbn in *. injection E as <- <-.
    intros snapshot [= <-]. by apply visible_typed.
Qed.

Lemma step_typed {R} (cfg cfg' : config R) : server_typed cfg.1 → step cfg cfg' → server_typed cfg'.1.
Proof. intros Hs Hstep. destruct Hstep. cbn in *. by eapply exec_typed. Qed.

(** A statement selects rows of its snapshot. *)
Lemma eval_statement_positions sq args snapshot :
  rows_typed snapshot → row_positions (eval_statement sq args snapshot).
Proof.
  intros Hs. apply Forall_forall. intros [p r] Hin. cbn.
  assert (1 ≤ p < two63); [|lia]. apply (Hs p r). clear Hs.
  set (sel := filter (λ pr, forallb (eval_filter args pr.1 pr.2) (filters sq) = true)
    (merge_sort position_le (map_to_list snapshot))).
  assert ((p, r) ∈ sel) as Hsel.
  { revert Hin. unfold eval_statement. fold sel.
    assert ((p, r) ∈ (if descending sq then reverse sel else sel) → (p, r) ∈ sel) as Hord
      by (destruct (descending sq); [by rewrite elem_of_reverse|done]).
    destruct (limit_ph sq) as [ph|]; [|done]. destruct (arg args ph) as [[]|]; try done.
    intros (i&Hi&_)%elem_of_take. by apply Hord, (list_elem_of_lookup_2 _ i). }
  apply list_elem_of_filter in Hsel as [_ Hsel]. by rewrite merge_sort_Permutation, elem_of_map_to_list in Hsel.
Qed.

(** ** Properties *)

(** C35: positions stay [bigint]s.  Whatever programs run on a server, in
    whatever interleaving and with whatever failures, the sequence stays within
    [1 .. 2^63 - 1] and every position of a row, committed or not, is between 1
    and the last value drawn.  So no row can make the conversion of its
    position panic: every row of the table decodes or is refused with an error
    of its payload or its tags, and its position survives the way back to the
    database. *)
Theorem positions_stay_bigint {R} (s0 : server) (ths : gmap nat (prog R)) cfg :
  server_typed s0 → rtc step (s0, ths) cfg →
  server_typed cfg.1 ∧
  ∀ p r, table cfg.1 !! p = Some r →
    1 ≤ p < two63 ∧ int64ToPosition p = (Ok (mkPosition p) : outcome store_error _) ∧
    positionToInt64 (mkPosition p) = (Ok p : outcome store_error _) ∧
    match rowToSequencedEvent (p, r) with
    | Ok se => Position se = mkPosition p ∧ Type_ (se_Event se) = r_type r
    | Err (EJson _) | Err (ETags _) => True
    | _ => False
    end.
Proof.
  intros Hs Hsteps.
  assert (server_typed cfg.1) as Hcfg.
  { remember (s0, ths) as c0 eqn:E. assert (server_typed c0.1) as H0 by (by rewrite E).
    clear E. induction Hsteps; eauto using step_typed. }
  split; [done|]. intros p r Hp.
  assert (1 ≤ p < two63) as Hrange by (eapply allocated_typed; [done|by left]).
  split_and!; [lia|lia|by apply int64ToPosition_nonneg; lia| |].
  - rewrite positionToInt64_wf by (unfold pos_wf, in_u64, two63, two64 in *; cbn; lia). cbn.
    by rewrite decide_True by lia.
  - pose proof (rowToSequencedEvent_no_panic (p, r)) as Hpanic. unfold rowToSequencedEvent in *.
    destruct (Unmarshal (r_payload r)) as [[data metadata]|e|msg]; cbn in *;
      [|done|by destruct (Hpanic msg ltac:(lia))].
    destruct (TagsFrom (r_tags r)) as [t|e|msg]; cbn in *;
      [|done|by destruct (Hpanic msg ltac:(lia))].
    by rewrite int64ToPosition_nonneg by lia.
Qed.

(** *** Witness *)

Lemma positions_stay_bigint_witness :
  server_typed (insert_row 0 (mkTx ∅ [] []) 1 (mkRow "a" [] "1") (set_tx 0 (mkTx ∅ [] []) empty_server)).
Proof.
  set (r := mkRow "a" [] "1").
  refine (proj1 (positions_stay_bigint empty_server
    {[ 0%nat := Do CBegin (λ _, Do (CInsert r) (λ _, Ret ())) ]}
    (insert_row 0 (mkTx ∅ [] []) 1 r (set_tx 0 (mkTx ∅ [] []) empty_server),
     <[0%nat := Ret ()]> (<[0%nat := Do (CInsert r) (λ _, Ret ())]>
       {[ 0%nat := Do CBegin (λ _, Do (CInsert r) (λ _, Ret ())) ]}))
    (Inv_typed _ empty_server_inv) _)).
  eapply rtc_l; [eapply (step_do _ _ 0 CBegin _ None); [reflexivity|by intros e|reflexivity]|].
  eapply rtc_l; [eapply (step_do _ _ 0 (CInsert r) _ None);
    [apply lookup_insert_eq|by intros e|vm_compute; reflexivity]|].
  reflexivity.
Defined.
