(* ===== verification/PgRules.v ===== *)
(** * PgRules

    Derived rules of the logic of [PgLogic]: the commands of a session inside
    and outside a transaction, lock acquisition, statements that commit on
    their own, and facts that survive whatever happens later. *)

From S2P Require Import Prelude.
From S2P Require Import Serialize.
From S2P Require Import PgServer.
From S2P Require Import PgProcedures.
From S2P Require Import PgLogic.

Local Open Scope Z_scope.

(** ** What holds of any later state, whoever made the steps *)

Record evolves (s s' : server) : Prop := {
  evolves_table : table s ⊆ table s';
  evolves_last : last_position s ≤ last_position s';
  evolves_allocated p r : allocated s' p r → p ≤ last_position s → allocated s p r;
  evolves_wal : wal s `prefix_of` wal s';
}.

Lemma rely_evolves i s s' : rely i s s' → evolves s s'.
Proof. intros []. by split. Qed.

#[export] Instance evolves_refl : Reflexive evolves.
Proof. intros s. by split. Qed.

#[export] Instance evolves_trans : Transitive evolves.
Proof.
  intros s1 s2 s3 [T1 L1 A1 W1] [T2 L2 A2 W2]. split; [by trans (table s2)|lia| |by trans (wal s2)].
  intros p r H Hle. apply A1; [|done]. apply A2; [done|lia].
Qed.

(** ** Sessions *)

(** Session [i] has the open transaction [t] and has committed [w] so far. *)
Definition session (i : nat) (t : tx) (w : list (nat * rows)) (s : server) : Prop :=
  txs s !! i = Some t ∧ own_wal i s = w.

(** Session [i] has no transaction. *)
Definition idle (i : nat) (w : list (nat * rows)) (s : server) : Prop :=
  txs s !! i = None ∧ own_wal i s = w.

Lemma session_rely i t w s s' : rely i s s' → session i t w s → session i t w s'.
Proof. intros R [Ht Hw]. split; [by rewrite (rely_tx _ _ _ R)|by rewrite (rely_own_wal _ _ _ R)]. Qed.

Lemma idle_rely i w s s' : rely i s s' → idle i w s → idle i w s'.
Proof. intros R [Ht Hw]. split; [by rewrite (rely_tx _ _ _ R)|by rewrite (rely_own_wal _ _ _ R)]. Qed.

Lemma session_set_tx i t t' w s : session i t w s → session i t' w (set_tx i t' s).
Proof. intros [Ht Hw]. split; [apply lookup_insert_eq|done]. Qed.

Definition empty_tx : tx := mkTx ∅ [] [].

Section rules.
Context (spec : nat → rows → rows → Prop).

Lemma exec_ok_evolves i c s r s' :
  Inv s → safe spec i c s → exec_ok i c s = Some (r, s') → evolves s s'.
Proof.
  intros HI Hsafe E. apply (rely_evolves (S i)), (exec_ok_inv spec i c s r s' HI Hsafe E). lia.
Qed.

(** Whatever a program does, the server evolves. *)
Lemma wp_evolves {A} i (p : prog A) Q s0 s :
  evolves s0 s → wp spec i p Q s → wp spec i p (λ a s', Q a s' ∧ evolves s0 s') s.
Proof.
  revert s. induction p as [a|c k IH]; intros s Hev; cbn.
  - intros H s' HI HR. split; [by apply H|]. trans s; [done|by eapply rely_evolves].
  - intros H s' HI HR. destruct (H s' HI HR) as [Hsafe Hk]. split; [done|].
    intros fault r s'' Hf E. apply IH; [|by apply (Hk fault)]. trans s; [done|].
    trans s'; [by eapply rely_evolves|].
    destruct (exec_cases _ _ _ _ _ _ E) as [E'|(_&->&_)]; [|done]. by eapply exec_ok_evolves.
Qed.

(** A command, with what is known of the state in which it runs. *)
Lemma wp_cmd {A} i c (k : _ → prog A) Q s :
  (∀ s', Inv s' → rely i s s' → safe spec i c s') →
  (∀ s' e, Inv s' → rely i s s' → c ≠ CRollback → ordinary e →
     wp spec i (k (Err e)) Q s') →
  (∀ s' r s'', Inv s' → rely i s s' → exec_ok i c s' = Some (r, s'') → Inv s'' →
     evolves s s'' → wp spec i (k r) Q s'') →
  wp spec i (Do c k) Q s.
Proof.
  intros Hsafe Herr Hok. apply wp_do. intros s' HI HR. split_and!; [by apply Hsafe|eauto|].
  intros r s'' E HI'. apply (Hok s' r s''); [done..|]. trans s'; [by eapply rely_evolves|].
  eapply exec_ok_evolves; eauto.
Qed.

Lemma wp_begin {A} i w (k : _ → prog A) Q s :
  idle i w s →
  (∀ s' e, ordinary e → Inv s' → evolves s s' → idle i w s' → wp spec i (k (Err e)) Q s') →
  (∀ s', Inv s' → evolves s s' → session i empty_tx w s' → wp spec i (k (Ok ())) Q s') →
  wp spec i (Do CBegin k) Q s.
Proof.
  intros Hidle Herr Hok. apply wp_cmd.
  - intros s' HI HR. apply (idle_rely i w s s' HR Hidle).
  - intros. apply Herr; [done|done|by eapply rely_evolves|by eapply idle_rely].
  - intros s' r s'' HI HR E HI' Hev. injection E as <- <-. apply Hok; [done..|].
    destruct (idle_rely i w s s' HR Hidle) as [_ Hw]. split; [apply lookup_insert_eq|done].
Qed.

(** A command inside a transaction that only changes the transaction. *)
Lemma wp_lock {A} i t w key excl (k : _ → prog A) Q s :
  session i t w s →
  (∀ s' e, ordinary e → Inv s' → evolves s s' → session i t w s' → wp spec i (k (Err e)) Q s') →
  (∀ s', Inv s' → evolves s s' →
     session i (mkTx (pending t) ((key, excl) :: locks t) (notes t)) w s' →
     wp spec i (k (Ok ())) Q s') →
  wp spec i (Do (CLock key excl) k) Q s.
Proof.
  intros Hs Herr Hok. apply wp_cmd; [done| |].
  - intros. apply Herr; [done|done|by eapply rely_evolves|by eapply session_rely].
  - intros s' r s'' HI HR E HI' Hev. destruct (session_rely i t w s s' HR Hs) as [Ht Hw].
    cbn in E. rewrite Ht in E. case_decide; [|done]. injection E as <- <-.
    apply Hok; [done..|]. by eapply session_set_tx.
Qed.

Lemma wp_notify {A} i t w ch pl (k : _ → prog A) Q s :
  session i t w s →
  (∀ s' e, ordinary e → Inv s' → evolves s s' → session i t w s' → wp spec i (k (Err e)) Q s') →
  (∀ s', Inv s' → evolves s s' →
     session i (mkTx (pending t) (locks t) (notes t ++ [(ch, pl)])) w s' →
     wp spec i (k (Ok ())) Q s') →
  wp spec i (Do (CNotify ch pl) k) Q s.
Proof.
  intros Hs Herr Hok. apply wp_cmd; [done| |].
  - intros. apply Herr; [done|done|by eapply rely_evolves|by eapply session_rely].
  - intros s' r s'' HI HR E HI' Hev. destruct (session_rely i t w s s' HR Hs) as [Ht Hw].
    cbn in E. rewrite Ht in E. injection E as <- <-.
    apply Hok; [done..|]. by eapply session_set_tx.
Qed.

(** Reading commands run in a state that the others may have brought about. *)
Lemma wp_last {A} i (k : _ → prog A) Q s :
  (∀ s' e, ordinary e → Inv s' → rely i s s' → wp spec i (k (Err e)) Q s') →
  (∀ s', Inv s' → rely i s s' → wp spec i (k (Ok (seq_last s'))) Q s') →
  wp spec i (Do CLastValue k) Q s.
Proof.
  intros Herr Hok. apply wp_cmd; [done|auto|].
  intros s' r s'' HI HR E HI' Hev. injection E as <- <-. by apply Hok.
Qed.

Lemma wp_snapshot {A} i (k : _ → prog A) Q s :
  (∀ s' e, ordinary e → Inv s' → rely i s s' → wp spec i (k (Err e)) Q s') →
  (∀ s', Inv s' → rely i s s' → wp spec i (k (Ok (visible i s'))) Q s') →
  wp spec i (Do CSnapshot k) Q s.
Proof.
  intros Herr Hok. apply wp_cmd; [done|auto|].
  intros s' r s'' HI HR E HI' Hev. injection E as <- <-. by apply Hok.
Qed.

Lemma wp_reply {A} i (k : _ → prog A) Q s :
  (∀ s' e, ordinary e → Inv s' → rely i s s' → wp spec i (k (Err e)) Q s') →
  (∀ s', Inv s' → rely i s s' → wp spec i (k (Ok ())) Q s') →
  wp spec i (Do CReply k) Q s.
Proof.
  intros Herr Hok. apply wp_cmd; [done|auto|].
  intros s' r s'' HI HR E HI' Hev. injection E as <- <-. by apply Hok.
Qed.

Lemma wp_rollback {A} i w (k : _ → prog A) Q s :
  own_wal i s = w →
  (∀ s' r, Inv s' → evolves s s' → idle i w s' → wp spec i (k r) Q s') →
  wp spec i (Do CRollback k) Q s.
Proof.
  intros Hw Hok. apply wp_cmd; [done|done|].
  intros s' r s'' HI HR E HI' Hev. injection E as <- <-. apply Hok; [done..|].
  split; [apply lookup_delete_eq|]. rewrite <-Hw. apply (rely_own_wal _ _ _ HR).
Qed.

Lemma wp_commit {A} i t w (k : _ → prog A) Q s :
  session i t w s →
  (∀ s', Inv s' → rely i s s' → spec i (table s') (pending t)) →
  (∀ s' e, ordinary e → Inv s' → evolves s s' → session i t w s' → wp spec i (k (Err e)) Q s') →
  (∀ s', Inv s' → evolves s s' → idle i (w ++ [(i, pending t)]) s' →
     wp spec i (k (Ok ())) Q s') →
  wp spec i (Do CCommit k) Q s.
Proof.
  intros Hs Hspec Herr Hok. apply wp_cmd.
  - intros s' HI HR t' Ht'. destruct (session_rely i t w s s' HR Hs) as [Ht _].
    assert (t' = t) as -> by congruence. by apply Hspec.
  - intros. apply Herr; [done|done|by eapply rely_evolves|by eapply session_rely].
  - intros s' r s'' HI HR E HI' Hev. destruct (session_rely i t w s s' HR Hs) as [Ht Hw].
    cbn in E. rewrite Ht in E. injection E as <- <-. apply Hok; [done..|].
    split; [apply lookup_delete_eq|].
    rewrite (own_wal_snoc i s' _ (i, pending t)) by done. cbn. by rewrite decide_True, Hw.
Qed.

(** Lock acquisition: all locks are held in the end. *)
Lemma wp_acquire i t w ls s :
  session i t w s →
  wp spec i (acquire ls) (λ r s', evolves s s' ∧ match r with
    | Ok _ => ∃ t', session i t' w s' ∧ pending t' = pending t ∧
        (∀ l, l ∈ ls ∨ l ∈ locks t → l ∈ locks t')
    | Err e => own_wal i s' = w ∧ ordinary e
    | Panic _ => False
    end) s.
Proof.
  revert t s. induction ls as [|[key excl] ls IH]; intros t s Hs.
  - intros s' HI HR. split; [by eapply rely_evolves|]. exists t.
    split_and!; [by eapply session_rely|done|]. intros l [Hl|?]; [by apply elem_of_nil in Hl|done].
  - cbn [acquire]. apply wp_try. apply (wp_lock i t w); [done| |].
    + intros s' e He HI Hev Hs'. apply wp_ret. intros s1 HI1 HR1. apply wp_ret.
      intros s2 HI2 HR2. split.
      { trans s'; [done|]. trans s1; by eapply rely_evolves. }
      split; [|done]. apply (session_rely i t w s1 s2 HR2), (session_rely i t w s' s1 HR1 Hs').
    + intros s' HI Hev Hs'. apply wp_ret. intros s1 HI1 HR1.
      eapply wp_mono; [|apply (IH _ s1 (session_rely _ _ _ _ _ HR1 Hs'))].
      intros r s2 HI2 [Hev2 Hr]. split.
      { trans s'; [done|]. trans s1; [by eapply rely_evolves|done]. }
      destruct r as [[]|e|]; [|done|done]. destruct Hr as (t'&Hs2&Hp&Hl).
      exists t'. split_and!; [done|done|]. intros l [[->|?]%elem_of_cons|?]; apply Hl; cbn.
      * right. by left.
      * by left.
      * right. by right.
Qed.

(** What a statement leaves behind: [F] is a fact about the result and the
    committed rows, [E] one about the errors of its body; [has] says what the
    session has committed.  An error of the environment may leave the
    transaction committed, when it is the reply that got lost. *)
Definition statement_post {A} (has : list (nat * rows) → server → Prop) (i : nat)
    (w : list (nat * rows)) (F : A → rows → server → Prop) (E : db_error → server → Prop)
    (r : outcome db_error A) (s : server) : Prop :=
  match r with
  | Ok a => ∃ new, has (w ++ [(i, new)]) s ∧ F a new s
  | Err e => (has w s ∧ E e s) ∨
      (ordinary e ∧ (has w s ∨ ∃ a new, has (w ++ [(i, new)]) s ∧ F a new s))
  | Panic _ => False
  end.

Section statements.
Context {A : Type} (i : nat) (w : list (nat * rows)).
Context (F : A → rows → server → Prop) (E : db_error → server → Prop).
Hypothesis HF : ∀ a new s1 s2, Inv s2 → evolves s1 s2 → F a new s1 → F a new s2.
Hypothesis HE : ∀ e s1 s2, evolves s1 s2 → E e s1 → E e s2.

Lemma statement_post_evolves has has' r s s' :
  Inv s' → evolves s s' → (∀ w, has w s → has' w s') →
  statement_post has i w F E r s → statement_post has' i w F E r s'.
Proof.
  intros HI Hev Hhas. destruct r as [a|e|msg]; [| |done].
  - intros (new&?&?). exists new. eauto.
  - intros [[? ?]|[? [?|(a&new&?&?)]]]; [left|right..]; (split; [by auto|]); [by eapply HE|by left; auto|].
    right. exists a, new. eauto.
Qed.

(** The end of a statement that failed, and of one that commits. *)
Lemma statement_rollback e s :
  statement_post (λ w s, own_wal i s = w) i w F E (Err e) s →
  wp spec i (Do CRollback (λ _, Ret (Err e))) (statement_post (idle i) i w F E) s.
Proof.
  intros H. apply (wp_rollback i (own_wal i s)); [done|].
  intros s' r HI' Hev Hidle. apply wp_ret. intros s'' HI'' HR.
  eapply statement_post_evolves; [done|trans s'; [done|by eapply rely_evolves]| |exact H].
  intros w' <-. by eapply idle_rely.
Qed.

Lemma ordinary_error (e : db_error) s s' : ordinary e → own_wal i s = w → rely i s s' →
  statement_post (λ w s, own_wal i s = w) i w F E (Err e) s'.
Proof.
  intros He Hw HR. right. split; [done|]. left. by rewrite (rely_own_wal _ _ _ HR).
Qed.

(** Before the rollback: a failed statement may still have its transaction. *)
Definition statement_mid (r : outcome db_error A) (s : server) : Prop :=
  match r with
  | Ok _ => statement_post (idle i) i w F E r s
  | _ => statement_post (λ w s, own_wal i s = w) i w F E r s
  end.

Lemma statement_commit t a s :
  session i t w s → F a (pending t) s →
  (∀ s', Inv s' → rely i s s' → spec i (table s') (pending t)) →
  wp spec i (call CCommit ;;! call CReply ;;! Ret (Ok a)) statement_mid s.
Proof.
  intros Hs Hf Hspec. apply wp_try, (wp_commit i t w); [done|done| |].
  { intros s1 e He HI1 _ [_ Hw] s2 HI2 HR s3 HI3 HR3. apply (ordinary_error e s1); [done|done|].
    by trans s2. }
  intros s1 HI1 Hev1 Hi1. apply wp_ret. intros s2 HI2 HR2.
  assert (∀ s', Inv s' → rely i s2 s' →
    idle i (w ++ [(i, pending t)]) s' ∧ F a (pending t) s') as Hdone.
  { intros s' HI' HR'. assert (rely i s1 s') as HR by (by trans s2). split.
    - by apply (idle_rely i _ s1).
    - apply (HF a _ s); [done| |done]. trans s1; [done|by eapply rely_evolves]. }
  apply wp_try, wp_reply.
  - intros s3 e He HI3 HR3 s4 HI4 HR4 s5 HI5 HR5. right. split; [done|]. right.
    assert (rely i s2 s5) as HR by (trans s3; [done|by trans s4]).
    destruct (Hdone s5 HI5 HR) as [[_ ?] ?]. by exists a, (pending t).
  - intros s3 HI3 HR3 s4 HI4 HR4 s5 HI5 HR5. exists (pending t). apply Hdone; [done|].
    trans s3; [done|by trans s4].
Qed.

(** A statement on its own. *)
Lemma wp_statement (body : prog (outcome db_error A)) s :
  idle i w s →
  (∀ s1, Inv s1 → evolves s s1 → session i empty_tx w s1 →
     wp spec i body (λ r s2, match r with
       | Ok a => ∃ t, session i t w s2 ∧ F a (pending t) s2 ∧
           ∀ s', Inv s' → rely i s2 s' → spec i (table s') (pending t)
       | Err e => own_wal i s2 = w ∧ E e s2
       | Panic _ => False
       end) s1) →
  wp spec i (statement body) (statement_post (idle i) i w F E) s.
Proof.
  intros Hidle Hbody. unfold statement. apply wp_bind.
  eapply (wp_mono _ _ _ statement_mid).
  { intros [a|e|msg] s2 HI2; [|by apply statement_rollback|done].
    intros Hmid s3 HI3 HR. eapply statement_post_evolves; [done|by eapply rely_evolves| |done].
    intros w'. by eapply idle_rely. }
  apply wp_try, (wp_begin i w); [done| |].
  { intros s1 e He HI1 _ [_ Hw] s2 HI2 HR s3 HI3 HR3. apply (ordinary_error e s1); [done|done|].
    by trans s2. }
  intros s1 HI1 Hev1 Hs1. apply wp_ret. intros s2 HI2 HR2. apply wp_try.
  eapply wp_mono; [|apply (Hbody s2); [done|trans s1; [done|by eapply rely_evolves]|
    by eapply session_rely]].
  intros [a|e|msg] s3 HI3; [|intros [Hw He] s4 HI4 HR4; left|done].
  - intros (t&Hs3&Hf&Hspec). by apply (statement_commit t).
  - split; [by rewrite (rely_own_wal _ _ _ HR4)|]. eapply HE; [by eapply rely_evolves|done].
Qed.
End statements.
End rules.
