(* ===== verification/PgBarrier.v ===== *)
(** * PgBarrier

    The read barrier ([barrierSnapshot] of [src/postgres/read.go], the barrier
    procedure of [src/postgres/store.go]) among concurrent writers: when it
    returns a high-water mark, the rows at or below it that a read of its query
    can return are complete. *)

From S2P Require Import Prelude.
From S2P Require Import Tags.
From S2P Require Import EventStore.
From S2P Require Import LockKeys.
From S2P Require Import Serialize.
From S2P Require Import PgServer.
From S2P Require Import PgProcedures.
From S2P Require Import PgStore.
From S2P Require Import PgLogic.
From S2P Require Import PgRules.

Local Open Scope Z_scope.

(** ** Locks that keep rows away *)

(** Every row of [P] has a lock that some lock of [ls] excludes. *)
Definition guarded (ls : list lock) (P : Z → row → Prop) : Prop :=
  ∀ p r, P p r → ∃ l l', l ∈ ls ∧ l' ∈ row_keys r ∧ ¬ compatible l l'.

Lemma guarded_mono ls ls' P : (∀ l, l ∈ ls → l ∈ ls') → guarded ls P → guarded ls' P.
Proof. intros Hsub H p r HP. destruct (H p r HP) as (l&l'&?&?&?). exists l, l'. auto. Qed.

(** While a session holds such locks, no other has a row of [P] pending. *)
Lemma guarded_pending i t s P j u p r :
  Inv s → txs s !! i = Some t → guarded (locks t) P →
  j ≠ i → txs s !! j = Some u → pending u !! p = Some r → ¬ P p r.
Proof.
  intros HI Ht HG Hne Hu Hp HP. destruct (HG p r HP) as (l&l'&Hl&Hl'&Hn). apply Hn.
  apply (inv_locks _ HI i j t u); [done..|]. by apply (inv_covered _ HI j u p r).
Qed.

(** Nor do the others commit one. *)
Lemma guarded_table i t s s' P p r :
  rely i s s' → txs s !! i = Some t → guarded (locks t) P →
  table s' !! p = Some r → P p r → table s !! p = Some r.
Proof.
  intros HR Ht HG Hp HP. destruct (table s !! p) as [r'|] eqn:E.
  - pose proof (lookup_weaken _ _ _ _ E (rely_table _ _ _ HR)). congruence.
  - destruct (HG p r HP) as (l&l'&Hl&Hl'&Hn). destruct Hn.
    by apply (rely_commit _ _ _ HR p r t).
Qed.

(** ** The reader's locks *)

(** A row that a read of [q] can return. *)
Definition row_reaches (q : Query) (r : row) : Prop :=
  IsAll q = true ∨ ∃ item, item ∈ Items q ∧ r_type r ∈ Types item ∧
    (Len (Item_Tags item) = 0%nat ∨
     ∃ tag, tag ∈ tag_values (Item_Tags item) ∧ tag ∈ r_tags r).

Lemma elem_of_key_ordered a m b m' l :
  l ∈ key_ordered (Some a) m (Some b) m' ↔
    (∃ k, l = (k, m) ∧ k ∈ a) ∨ (∃ k, l = (k, m') ∧ k ∈ b).
Proof.
  unfold key_ordered. rewrite merge_sort_Permutation, elem_of_app. cbn.
  by rewrite !list_elem_of_fmap.
Qed.

Lemma same_key_excludes k m m' : m = true ∨ m' = true → ¬ compatible (k, m) (k, m').
Proof. intros [-> | ->] H; by destruct (H eq_refl). Qed.

Definition reader_locks (q : Query) : list lock :=
  key_ordered (Some (leafS (computeReaderLockKeys q))) false
    (Some (intentX (computeReaderLockKeys q))) true.

Lemma elem_of_row_keys r l :
  l ∈ row_keys r ↔ (∃ tag, l = (leafKey (r_type r) tag, true) ∧ tag ∈ r_tags r) ∨
    l = (typeIntentKey (r_type r), false) ∨ l = (globalIntentKey, false).
Proof.
  unfold row_keys. rewrite elem_of_app, list_elem_of_fmap, elem_of_cons, list_elem_of_singleton.
  done.
Qed.

Lemma reader_locks_guard q : guarded (reader_locks q) (λ _, row_reaches q).
Proof.
  intros p r Hr. unfold reader_locks. setoid_rewrite elem_of_key_ordered.
  setoid_rewrite elem_of_row_keys. destruct (IsAll q) eqn:Hall.
  { exists (globalIntentKey, true), (globalIntentKey, false).
    split_and!; [|by right; right|by apply same_key_excludes; left].
    right. exists globalIntentKey. split; [done|]. unfold computeReaderLockKeys.
    rewrite Hall. by apply list_elem_of_singleton. }
  destruct Hr as [?|(item&Hitem&Ht&[Hlen|(tag&Htag&Hrow)])]; [congruence| |].
  - exists (typeIntentKey (r_type r), true), (typeIntentKey (r_type r), false).
    split_and!; [|by right; left|by apply same_key_excludes; left].
    right. eexists. split; [done|]. apply (proj2 (elem_of_readerKeys q _ Hall)). eauto 10.
  - exists (leafKey (r_type r) tag, false), (leafKey (r_type r) tag, true).
    split_and!; [|by left; exists tag|by apply same_key_excludes; right].
    left. eexists. split; [done|]. apply (proj1 (elem_of_readerKeys q _ Hall)).
    exists item. split; [done|]. by exists (r_type r), tag.
Qed.

(** ** What the barrier establishes *)

(** No uncommitted row at or below [h] is within reach of [q]. *)
Record settled (q : Query) (h : Z) (s : server) : Prop := {
  settled_last : 0 ≤ h ≤ last_position s;
  settled_pending i t p r : txs s !! i = Some t → pending t !! p = Some r → p ≤ h →
    ¬ row_reaches q r;
}.

(** It stays so, since later rows get later positions. *)
Lemma settled_evolves q h s s' : Inv s' → evolves s s' → settled q h s → settled q h s'.
Proof.
  intros HI' Hev [[? Hlast] Hpend]. split; [pose proof (evolves_last _ _ Hev); lia|].
  intros i t p r Ht Hp Hle Hr.
  destruct (evolves_allocated _ _ Hev p r) as [Htab|(j&u&Hu&Hq)]; [by right; exists i, t|lia| |].
  - pose proof (lookup_weaken _ _ _ _ Htab (evolves_table _ _ Hev)) as Htab'.
    by rewrite (inv_fresh _ HI' i t p Ht) in Htab' by (by eexists).
  - by apply (Hpend j u p r).
Qed.

(** No row at or below [h] within reach of [q] appears any more. *)
Lemma settled_table q h s s' p r :
  Inv s → evolves s s' → settled q h s →
  table s' !! p = Some r → p ≤ h → row_reaches q r → table s !! p = Some r.
Proof.
  intros HI Hev [[_ Hlast] Hpend] Hp Hle Hr.
  destruct (evolves_allocated _ _ Hev p r) as [?|(j&u&Hu&Hq)]; [by left|lia|done|].
  by destruct (Hpend j u p r Hu Hq Hle).
Qed.

Lemma last_position_range s : Inv s → last_position s < two63.
Proof.
  intros HI. unfold last_position, coalesce_last. destruct (seq_last s) as [v|] eqn:Hv; [|done].
  cbn. pose proof (inv_seq _ HI v Hv). lia.
Qed.

Lemma last_position_nonneg s : Inv s → 0 ≤ last_position s.
Proof.
  intros HI. unfold last_position, coalesce_last. destruct (seq_last s) as [v|] eqn:Hv; [|done].
  cbn. pose proof (inv_seq _ HI v Hv). lia.
Qed.

(** Reading the sequence while holding the reader's locks. *)
Lemma settled_at_last i t s q :
  Inv s → txs s !! i = Some t → pending t = ∅ →
  (∀ l, l ∈ reader_locks q → l ∈ locks t) → settled q (last_position s) s.
Proof.
  intros HI Ht Hempty Hl. split; [pose proof (last_position_nonneg s HI); lia|].
  intros j u p r Hu Hp _. destruct (decide (j = i)) as [->|Hne].
  - assert (u = t) as -> by congruence. by rewrite Hempty, lookup_empty in Hp.
  - apply (guarded_pending i t s (λ _, row_reaches q) j u p r); try done.
    eapply guarded_mono; [exact Hl|apply reader_locks_guard].
Qed.

Section barrier.
Context (spec : nat → rows → rows → Prop) (i : nat) (w : list (nat * rows)) (q : Query).
Hypothesis Hspec : ∀ tbl, spec i tbl ∅.

Lemma barrier_hwm_wp s :
  session i empty_tx w s →
  wp spec i (barrier_hwm (Some (leafS (computeReaderLockKeys q)))
               (Some (intentX (computeReaderLockKeys q))))
    (λ r s2, match r with
      | Ok h => ∃ t, session i t w s2 ∧ (pending t = ∅ ∧ settled q h s2 ∧ last_position s ≤ h) ∧
          ∀ s', Inv s' → rely i s2 s' → spec i (table s') (pending t)
      | Err e => own_wal i s2 = w ∧ ordinary e
      | Panic _ => False
      end) s.
Proof.
  intros Hs. unfold barrier_hwm. fold (reader_locks q). apply wp_try.
  eapply wp_mono; [|by apply (wp_acquire spec i empty_tx w)].
  intros [[]|e|msg] s1 HI1 [Hev1 Hr]; [|destruct Hr as [Hw He]|done].
  2: { intros s2 HI2 HR2. split; [by rewrite (rely_own_wal _ _ _ HR2)|done]. }
  destruct Hr as (t&Ht&Hempty&Hlocks). apply wp_try, wp_last.
  { intros s2 e He HI2 HR2 s3 HI3 HR3 s4 HI4 HR4. split; [|done].
    rewrite (rely_own_wal _ _ _ HR4), (rely_own_wal _ _ _ HR3), (rely_own_wal _ _ _ HR2).
    apply Ht. }
  intros s2 HI2 HR2 s3 HI3 HR3 s4 HI4 HR4.
  assert (rely i s2 s4) as HR by (by trans s3).
  pose proof (session_rely _ _ _ _ _ HR2 Ht) as Ht2.
  exists t. split_and!; [by eapply session_rely|done| | |].
  - apply (settled_evolves q _ s2); [done|by eapply rely_evolves|].
    apply (settled_at_last i t); [done|apply Ht2|done|]. intros l Hl. apply Hlocks. by left.
  - pose proof (evolves_last _ _ Hev1). pose proof (rely_last _ _ _ HR2). unfold last_position in *. lia.
  - intros s' HI' HR'. rewrite Hempty. apply Hspec.
Qed.

(** The whole call of the client. *)
Lemma barrierSnapshot_wp s :
  idle i w s →
  wp spec i (barrierSnapshot q) (λ r s', match r with
    | Ok h => idle i (w ++ [(i, ∅)]) s' ∧ settled q h s' ∧ last_position s ≤ h
    | Err e => ∃ msg, e = EDatabase msg
    | Panic _ => False
    end) s.
Proof.
  intros Hidle. unfold barrierSnapshot, db. apply wp_bind.
  eapply wp_mono; [|apply (wp_statement spec i w (λ h new s', new = ∅ ∧ settled q h s' ∧ last_position s ≤ h)
    (λ e _, ordinary e)); [|done|done|]].
  - intros [h|e|msg] s1 HI1; [|intros _|done].
    + intros (new&Hi&->&Hset&Hle) s2 HI2 HR2. split_and!; [by eapply idle_rely| |done].
      eapply settled_evolves; [done|by eapply rely_evolves|done].
    + intros s2 HI2 HR2. destruct e as [m|m]; by exists m.
  - intros h new s1 s2 HI2 Hev (->&Hset&Hle). split_and!; [done|by eapply settled_evolves|done].
  - intros s1 HI1 Hev1 Hs1. eapply wp_mono; [|by apply barrier_hwm_wp].
    intros [h|e|msg] s2 HI2; [|done|done]. intros (t&Hs2&(Hp&Hset&Hle)&Hsp).
    exists t. split_and!; try done. pose proof (evolves_last _ _ Hev1). lia.
Qed.
End barrier.
