(* ===== verification/PgRead.v ===== *)
(** * PgRead

    [Read] of the Postgres store ([src/postgres/read.go]): the barrier of a
    forward read, the transaction and the cursor; what its criteria select, in
    comparison with the meaning of a query; and what a finished read
    guarantees among concurrent appends. *)

From S2P Require Import Prelude.
From S2P Require Import GoStrings.
From S2P Require Import SequencePosition.
From S2P Require Import Tags.
From S2P Require Import EventStore.
From S2P Require Import Iterator.
From S2P Require Import Matching.
From S2P Require Import StoreSpec.
From S2P Require Import LockKeys.
From S2P Require Import Serialize.
From S2P Require Import PgServer.
From S2P Require Import SqlText.
From S2P Require Import ReadSQL.
From S2P Require Import PgProcedures.
From S2P Require Import PgStore.
From S2P Require Import PgConditions.
From S2P Require Import Cursor.
From S2P Require Import PgLogic.
From S2P Require Import PgRules.
From S2P Require Import PgBarrier.

Local Open Scope Z_scope.

(** ** Read *)

(** The high-water mark of a forward read. *)
Definition upper_bound (query : Query) (opts : ReadOptions) : prog (outcome store_error (option Z)) :=
  if negb (Backwards opts) then
    hwm ←! barrierSnapshot query; Ret (Ok (Some hwm))
  else Ret (Ok None).

(** [DECLARE] executes the text on the snapshot of its time.  [faults] says how
    the fetches of the iterator will go. *)
Definition Read (s : Store) (faults : list (option db_error)) (query : Query)
    (opts : ReadOptions) : prog (outcome store_error cursorIterator) :=
  upperBound ←! upper_bound query opts;
  db (call CBegin) ;;!
  stmt ←! lift (buildReadSQL (tableName s) query opts upperBound);
  let '(sql, args) := stmt in
  snapshot ← call CSnapshot;
  match snapshot ≫= declare (tableName s) sql args with
  | Ok rows => Ret (Ok (fresh_cursor rows faults))
  | Err err => Do CRollback (λ _, Ret (Err (db_store_error err)))
  | Panic msg => Do CRollback (λ _, Ret (Panic msg)) (* no command panics *)
  end.

(** ** Criteria and queries *)

Lemma criteria_selects_wf r q : query_wf q → criteria_selects r q ↔ row_reaches q r.
Proof.
  intros [->|(Hall&Hne&Htypes)].
  { split; intros _; by left. }
  unfold criteria_selects, row_reaches. rewrite Forall_forall in Htypes.
  assert (∀ item, item ∈ Items q → ¬ item_vacuous item) as Hnv.
  { intros item Hitem [Ht _]. by apply (Htypes item Hitem). }
  split.
  - intros [?|[Hv|(item&Hitem&_&Hs&Htags)]]; [congruence| |].
    + destruct (Items q) as [|item its]; [done|]. apply Forall_cons in Hv as [Hv _].
      destruct (Hnv item); [by left|done].
    + right. exists item. destruct Hs as [Hs|Hs]; [by destruct (Htypes item Hitem)|]. done.
  - intros [?|(item&Hitem&Hs&Htags)]; [congruence|]. right. right. exists item.
    split_and!; [done|by apply Hnv|]. split; [by right|done].
Qed.

(** A query whose items have at most one tag each. *)
Definition single_tags (q : Query) : Prop :=
  Forall (λ item, (Len (Item_Tags item) ≤ 1)%nat) (Items q).

Lemma row_matches_reaches q r : row_matches q r → row_reaches q r.
Proof.
  intros [?|(item&Hitem&Ht&Htags)]; [by left|]. right. exists item. split_and!; [done..|].
  destruct (decide (Len (Item_Tags item) = 0%nat)) as [?|Hne]; [by left|]. right.
  unfold Len in Hne. rewrite size_non_empty_iff in Hne. apply set_choose in Hne as [tag Htag].
  exists tag. split; [done|by apply Htags].
Qed.

Lemma row_reaches_matches q r : single_tags q → row_reaches q r → row_matches q r.
Proof.
  unfold single_tags. rewrite Forall_forall.
  intros Hs [?|(item&Hitem&Ht&Htags)]; [by left|]. right. exists item. split; [done|]. split; [done|].
  intros tag Htag. specialize (Hs item Hitem). unfold Len in *.
  destruct Htags as [H0|(tag'&Htag'&Hr)].
  - apply size_empty_inv in H0. by apply H0 in Htag; apply elem_of_empty in Htag.
  - assert (tag = tag') as ->; [|done].
    assert (size (tag_values (Item_Tags item)) = 1%nat) as H1.
    { assert (size (tag_values (Item_Tags item)) ≠ 0%nat); [|lia].
      rewrite size_non_empty_iff. intros E. by apply E in Htag; apply elem_of_empty in Htag. }
    apply size_1_elem_of in H1 as [x Hx]. apply Hx, elem_of_singleton in Htag as ->.
    by apply Hx, elem_of_singleton in Htag' as ->.
Qed.

(** ** What a finished read has established *)

(** A bound that the arguments can carry. *)
Definition after_fits_opts (opts : ReadOptions) : Prop :=
  ∀ pos, Read_After opts = Some pos → 0 ≤ value pos < two63.

(** A read that started in [s] and has its cursor in [s']: the rows of
    [snapshot], up to the mark [h] of a forward read. *)
Record read_done (q : Query) (opts : ReadOptions) (faults : list (option db_error)) (s s' : server)
    (h : option Z) (snapshot : rows) (it : cursorIterator) : Prop := {
  done_cursor : ∃ l, read_selection q opts h snapshot l ∧
    it = fresh_cursor (limit_to (Limit opts) l) faults;
  done_fresh : table s ⊆ snapshot;
  done_table : snapshot ⊆ table s';
  done_mark : match h with
    | None => Backwards opts = true
    | Some hwm => Backwards opts = false ∧ last_position s ≤ hwm ∧ settled q hwm s' ∧
        ∀ p r, table s' !! p = Some r → p ≤ hwm → row_reaches q r → snapshot !! p = Some r
    end;
}.

Lemma read_done_evolves q opts faults s s1 s2 h snapshot it :
  Inv s1 → Inv s2 → evolves s1 s2 →
  read_done q opts faults s s1 h snapshot it → read_done q opts faults s s2 h snapshot it.
Proof.
  intros HI1 HI2 Hev [Hc Hf Ht Hm]. split; [done|done|trans (table s1); [done|apply Hev]|].
  destruct h as [hwm|]; [|done]. destruct Hm as (?&?&Hset&Hcomp).
  split_and!; [done|done|by eapply settled_evolves|].
  intros p r Hp Hle Hr. apply Hcomp; [|done|done]. by apply (settled_table q hwm s1 s2 p r).
Qed.

Section read.
Context (spec : nat → rows → rows → Prop) (i : nat) (w : list (nat * rows)).
Context (st : Store) (faults : list (option db_error)) (q : Query) (opts : ReadOptions).
Hypothesis Hspec : ∀ tbl, spec i tbl ∅.
Hypothesis Hfits : after_fits_opts opts.

(** What the session has committed: the barrier's empty transaction. *)
Definition read_wal : list (nat * rows) :=
  if Backwards opts then w else w ++ [(i, ∅)].

Lemma upper_bound_wp s :
  Inv s → idle i w s →
  wp spec i (upper_bound q opts) (λ r s', match r with
    | Ok h => idle i read_wal s' ∧ evolves s s' ∧ match h with
        | None => Backwards opts = true
        | Some hwm => Backwards opts = false ∧ last_position s ≤ hwm ∧ settled q hwm s'
        end
    | Err e => ∃ msg, e = EDatabase msg
    | Panic _ => False
    end) s.
Proof.
  intros HI Hidle. unfold upper_bound, read_wal. destruct (Backwards opts); cbn [negb].
  - apply wp_ret. intros s' HI' HR. split_and!; [by eapply idle_rely|by eapply rely_evolves|done].
  - apply wp_try. eapply wp_mono;
      [|exact (wp_evolves spec i _ _ s s (reflexivity s) (barrierSnapshot_wp spec i w q Hspec s Hidle))].
    intros [h|e|msg] s1 HI1 [Hr Hev]; [|destruct Hr as [msg ->]|done].
    + destruct Hr as (Hi&Hset&Hle). intros s2 HI2 HR2.
      split_and!; [by eapply idle_rely| |done|done|].
      * trans s1; [done|by eapply rely_evolves].
      * eapply settled_evolves; [done|by eapply rely_evolves|done].
    + intros s2 HI2 HR2. by exists msg.
Qed.

(** A failed declaration. *)
Lemma wp_failed {A} (e : db_error) (Q : A → server → Prop) s :
  wp spec i (Do CRollback (λ _, Ret (Err (db_store_error e)))) (λ r s', match r with
    | Ok a => Q a s'
    | Err e => ∃ msg, e = EDatabase msg
    | Panic _ => False
    end) s.
Proof.
  apply (wp_rollback spec i (own_wal i s)); [done|]. intros s1 r HI1 _ _ s2 HI2 HR2.
  destruct e as [m|m]; by exists m.
Qed.

(** The open transaction of the iterator writes nothing. *)
Lemma Read_wp s :
  Inv s → idle i w s →
  wp spec i (Read st faults q opts) (λ r s', match r with
    | Ok it => session i empty_tx read_wal s' ∧ ∃ h snapshot, read_done q opts faults s s' h snapshot it
    | Err e => ∃ msg, e = EDatabase msg
    | Panic _ => False
    end) s.
Proof.
  intros HI Hidle. unfold Read. apply wp_try.
  eapply wp_mono; [|by apply upper_bound_wp].
  intros [h|e|msg] s1 HI1; [|intros [msg ->] s2 HI2 HR2; by exists msg|done].
  intros (Hi1&Hev1&Hh). unfold db. apply wp_try, wp_bind, (wp_begin spec i read_wal); [done| |].
  { intros s2 e _ HI2 _ _ s3 HI3 HR3 s4 HI4 HR4 s5 HI5 HR5. destruct e as [m|m]; by exists m. }
  intros s2 HI2 Hev2 Hs2 s3 HI3 HR3 s4 HI4 HR4. apply wp_try. unfold lift.
  rewrite buildReadSQL_render by done.
  pose proof (eval_statement_selection q opts h) as Hsel.
  pose proof (declare_read_statement (tableName st) q opts h) as Hdecl.
  destruct (read_statement q opts h) as [sq args]. intros s5 HI5 HR5. apply wp_bind.
  apply wp_snapshot.
  { intros s6 e _ HI6 HR6. apply wp_ret. intros s7 HI7 HR7. by apply wp_failed. }
  assert (rely i s2 s5) as HR25 by (trans s3; [done|trans s4; done]).
  intros s6 HI6 HR6. apply wp_ret. intros s7 HI7 HR7. cbn [mbind outcome_bind]. rewrite Hdecl.
  case_decide; [by apply wp_failed|]. intros s8 HI8 HR8.
  assert (session i empty_tx read_wal s6) as Hs6
    by (eapply session_rely; [|exact Hs2]; by trans s5).
  assert (visible i s6 = table s6) as ->.
  { unfold visible. destruct Hs6 as [-> _]. cbn. by rewrite (left_id_L ∅ (∪)). }
  destruct (Hsel (table s6)) as (l&Hl&->).
  assert (evolves s1 s6) as Hev16.
  { trans s2; [done|]. trans s5; by eapply rely_evolves. }
  split; [eapply session_rely; [|exact Hs6]; by trans s7|]. exists h, (table s6).
  apply (read_done_evolves q opts faults s s6); [done|done|trans s7; by eapply rely_evolves|].
  split; [by exists l| |done|].
  - apply (evolves_table s s6). by trans s1.
  - destruct h as [hwm|]; [|done]. destruct Hh as (?&?&Hset).
    split_and!; [done|done|by eapply settled_evolves|done].
Qed.
End read.

(** ** Reading a log *)

Definition event_row (se : SequencedEvent) : Z * row :=
  (value (Position se), row_of (se_Event se)).

(** An event as the store gives it back. *)
Definition stored_at (se : SequencedEvent) : SequencedEvent :=
  mkSequenced (stored (se_Event se)) (Position se).

Lemma row_order_irrefl b (x : Z * row) : ¬ row_order b x x.
Proof. unfold row_order. destruct b; lia. Qed.

(** A list sorted by a strict order is determined by its elements. *)
Lemma row_order_unique b l l' :
  StronglySorted (row_order b) l → StronglySorted (row_order b) l' →
  (∀ x, x ∈ l ↔ x ∈ l') → l = l'.
Proof.
  intros Hl. revert l'. induction Hl as [|x l Hl IH Hx]; intros l' Hl' Heq.
  { destruct l' as [|y l']; [done|].
    destruct (not_elem_of_nil y). apply Heq. by left. }
  destruct Hl' as [|y l' Hl' Hy]; [destruct (not_elem_of_nil x); apply Heq; by left|].
  rewrite Forall_forall in Hx, Hy.
  assert (x = y) as ->.
  { assert (x = y ∨ x ∈ l') as [|Hxl'] by (apply elem_of_cons, Heq; by left); [done|].
    assert (y = x ∨ y ∈ l) as [|Hyl] by (apply elem_of_cons, Heq; by left); [done|].
    specialize (Hx y Hyl). specialize (Hy x Hxl'). unfold row_order in *. destruct b; lia. }
  f_equal. apply IH; [done|]. intros z. split; intros Hz.
  - assert (z ∈ y :: l') as Hz' by (apply Heq; by right).
    apply elem_of_cons in Hz' as [->|?]; [|done]. by destruct (row_order_irrefl b y (Hx y Hz)).
  - assert (z ∈ y :: l) as Hz' by (apply Heq; by right).
    apply elem_of_cons in Hz' as [->|?]; [|done]. by destruct (row_order_irrefl b y (Hy y Hz)).
Qed.

Lemma event_rows_sorted l : ascending l → StronglySorted (row_order false) (event_row <$> l).
Proof.
  unfold ascending. induction 1 as [|se l _ IH Hse]; cbn; constructor; [done|].
  apply Forall_fmap. eapply Forall_impl; [exact Hse|]. done.
Qed.

Lemma within_bounds_range opts h se :
  (∀ hwm, h = Some hwm → value (Position se) ≤ hwm) →
  within_bounds (value (Position se)) opts h ↔ in_range (Backwards opts) (Read_After opts) (Position se).
Proof.
  intros Hh. unfold within_bounds, in_range. destruct (Read_After opts) as [b|]; [|naive_solver].
  destruct (Backwards opts); naive_solver.
Qed.

(** The rows that a read selects from a table that holds a log are those of
    the events that the query selects from the log. *)
Lemma read_selection_log q opts h tbl log l :
  holds_log tbl log → ascending log → query_wf q → single_tags q →
  (∀ se hwm, se ∈ log → h = Some hwm → value (Position se) ≤ hwm) →
  read_selection q opts h tbl l → l = event_row <$> selection log q opts.
Proof.
  intros Hlog Hasc Hwf Hsingle Hh [Hs Hl].
  apply (row_order_unique (Backwards opts)); [done| |].
  - pose proof (selection_sorted log q opts Hasc) as Hsel.
    induction Hsel as [|se sel _ IH Hse]; cbn; constructor; [done|].
    apply Forall_fmap. eapply Forall_impl; [exact Hse|]. intros se'.
    unfold read_order, row_order, pos_lt. by destruct (Backwards opts).
  - intros [p r]. rewrite Hl, list_elem_of_fmap. setoid_rewrite elem_of_selection.
    rewrite criteria_selects_wf, (Hlog p r) by done. split.
    + intros ((se&Hse&<-&<-)&Hb&Hr). exists se. split_and!; [done|done|].
      split; [apply (within_bounds_range opts h); [intros hwm; by apply Hh|done]|].
      by apply row_matches_row_of, row_reaches_matches.
    + intros (se&[= -> ->]&Hse&Hrange&Hm). split_and!; [by exists se| |].
      * apply (within_bounds_range opts h); [|done]. intros hwm. by apply Hh.
      * by apply row_matches_reaches, row_matches_row_of.
Qed.

Lemma limit_to_fmap {A B} (f : A → B) n l : limit_to n (f <$> l) = f <$> limit_to n l.
Proof. unfold limit_to. case_decide; [by rewrite fmap_take|done]. Qed.

Lemma collect_event_rows l :
  Forall (λ se, 0 ≤ value (Position se) < two63 ∧ decodable (se_Event se)) l →
  collect_rows (event_row <$> l) = Ok (stored_at <$> l).
Proof.
  induction 1 as [|se l [Hp Hd] _ IH]; [done|]. cbn [fmap list_fmap collect_rows].
  assert (rowToSequencedEvent (event_row se) = Ok (stored_at se)) as ->.
  { unfold event_row. rewrite row_of_decodes by done. unfold stored_at.
    by destruct (Position se). }
  cbn [mbind outcome_bind]. by rewrite IH.
Qed.

(** ** What the clause of the criteria selects *)

(** Whether a row passes the clause that [criteriaClause] writes after the
    arguments [pm], as a server reads it among the further arguments [post];
    [buildReadSQL] leaves out an empty clause. *)
Definition clause_selects (query : Query) (pm post : paramManager) (p : Z) (r : row) : bool :=
  if IsAll query then true
  else
    let '(clause, args) := criteriaClause query pm in
    if decide (clause = EmptyString) then true
    else
      match parse_filter clause with
      | Some (f, EmptyString) => eval_filter (args ++ post) p r f
      | _ => false
      end.

Lemma clause_selects_criteria q pm post p r :
  few_arguments q → (length pm ≤ 2)%nat →
  clause_selects q pm post p r = true ↔ criteria_selects r q.
Proof.
  intros Hfew Hpm. unfold clause_selects.
  destruct (IsAll q) eqn:Hall; [split; [by left|done]|].
  rewrite criteriaClause_render by done.
  pose proof (eval_criteria p r q pm post) as He. pose proof (criteria_shape q (length pm)) as Hs.
  pose proof (criteria_ok q (length pm)) as Hok. pose proof (criteria_arguments q (length pm)) as Hn.
  destruct (criteria q (length pm)) as [fs ps]. cbn [fst snd] in Hs, Hn.
  rewrite <-He. destruct Hs as [->|(f&->&Hf)]; [done|].
  rewrite decide_False by done. rewrite <-(assoc_L (++)).
  assert (filter_ok f) as Hfok.
  { apply Forall_singleton, Hok. unfold few_arguments in Hfew. lia. }
  pose proof (parse_filter_render f EmptyString Hfok I) as Hparse.
  rewrite string_app_nil_r in Hparse. rewrite Hparse. cbn [forallb]. by rewrite andb_true_r.
Qed.

(** ** Properties *)

(** C16: what the clause that [criteriaClause] writes selects, read by a
    server with its arguments (after at most the two of the bounds), against
    the meaning of queries: never too little for a query that the constructors
    build and whose arguments fit into a statement, and exactly the matching
    events if no item has more than one tag.  An item with two tags selects
    events that have only one of them, and the zero query, which matches
    nothing, selects everything. *)
Theorem criteria_vs_query q ev pm post p :
  query_wf q → few_arguments q → (length pm ≤ 2)%nat →
  (event_matches q ev → clause_selects q pm post p (row_of ev) = true) ∧
  (single_tags q → clause_selects q pm post p (row_of ev) = true → event_matches q ev) ∧
  (clause_selects q pm post p (row_of ev) = true ↔ criteria_selects (row_of ev) q) ∧
  (∀ ty a b, a ≠ b →
     let q2 := mkQuery [mkItem [ty] (mkTags {[a; b]})] false in
     let ev2 := mkEvent ty (mkTags {[a]}) None None in
     query_wf q2 ∧ clause_selects q2 pm post p (row_of ev2) = true ∧ ¬ event_matches q2 ev2) ∧
  clause_selects zeroQuery pm post p (row_of ev) = true ∧ ¬ event_matches zeroQuery ev.
Proof.
  intros Hwf Hfew Hpm. rewrite clause_selects_criteria by done.
  assert (criteria_selects (row_of ev) q ↔ row_reaches q (row_of ev)) as Hreach
    by (by apply criteria_selects_wf).
  split_and!.
  - intros ?. by apply Hreach, row_matches_reaches, row_matches_row_of.
  - intros ??. apply row_matches_row_of, row_reaches_matches; [done|by apply Hreach].
  - done.
  - intros ty a b Hab q2 ev2.
    assert (query_wf q2) as Hwf2 by (right; split_and!; [done|done|by repeat constructor]).
    split_and!; [done| |].
    + apply clause_selects_criteria; [|done|].
      { assert (query_arguments q2 ≤ 2)%nat; [|unfold few_arguments, max_arguments; lia].
        unfold query_arguments, item_arguments. cbn -[Len]. destruct (decide _); lia. }
      apply criteria_selects_wf; [done|]. right. eexists. split; [by apply list_elem_of_singleton|].
      split; [by apply list_elem_of_singleton|]. right. exists a. cbn.
      split; [set_solver|]. apply elem_of_Values. cbn. set_solver.
    + intros [?|(item&->%list_elem_of_singleton&_&Hsub)]; [done|]. cbn in Hsub.
      apply Hab. set_solver.
  - apply clause_selects_criteria; [by vm_compute|done|]. right. left. constructor.
  - intros [?|(item&?%elem_of_nil&_)]; done.
Qed.

(** *** Witnesses *)

Definition w_course : Query := mkQuery [mkItem ["Enrolled"] (mkTags {["course:1"]})] false.

Lemma w_course_wf : query_wf w_course.
Proof. right. split_and!; [done|done|by repeat constructor]. Qed.

Lemma criteria_vs_query_witness :
  clause_selects w_course [PInt 4] [PInt 10] 5 (row_of w_stored) = true ∧
  fst (criteriaClause w_course [PInt 4]) = "(type IN ($2) AND tags && $3::text[])".
Proof.
  split; [|vm_compute; reflexivity].
  refine (proj1 (criteria_vs_query w_course w_stored [PInt 4] [PInt 10] 5 w_course_wf _ _) _).
  - by vm_compute.
  - cbn. lia.
  - apply matchesQuery_true. vm_compute. reflexivity.
Defined.
