(* ===== verification/PgSubscribe.v ===== *)
(** * PgSubscribe

    Subscriptions of the Postgres store ([src/postgres/subscribe.go]).  [Next]
    drains what a [Read] after the current position finds and otherwise waits
    for a notification or the poll interval.  When notifications arrive, how
    long waiting takes and when the context ends is up to the environment: a
    list of [turn]s says it for one round of the loop after the other. *)

From S2P Require Import Prelude.
From S2P Require Import GoJson.
From S2P Require Import SequencePosition.
From S2P Require Import Tags.
From S2P Require Import EventStore.
From S2P Require Import Iterator.
From S2P Require Import Matching.
From S2P Require Import LockKeys.
From S2P Require Import Serialize.
From S2P Require Import PgServer.
From S2P Require Import SqlText.
From S2P Require Import ReadSQL.
From S2P Require Import PgProcedures.
From S2P Require Import PgStore.
From S2P Require Import PgConditions.
From S2P Require Import Cursor.
From S2P Require Import PgLogic.
From S2P Require Import PgRules.
From S2P Require Import PgBarrier.
From S2P Require Import PgRead.

Local Open Scope Z_scope.

(** ** The iterator *)

(** In nanoseconds, like every [time.Duration]. *)
Definition defaultPollInterval : Z := 100000000.

Record subscribeIterator := mkSubscribe {
  sub_query : Query;
  position : SequencePosition;
  pollInterval : Z;
  pending_events : list SequencedEvent;
  current : SequencedEvent;
  sub_err : option store_error;
  sub_closed : bool;
}.

(** The calls that a subscription makes on the pool and on its listener
    connection; an [Acquire] that fails takes no connection. *)
Inductive conn_call :=
  | PoolAcquire (ok : bool)
  | ConnExec (sql : string)
  | ConnRelease.

(** [acquire] and [listen] say how the two calls fail, if they do. *)
Definition Subscribe (s : Store) (acquire listen : option db_error) (query : Query)
    (opts : SubscribeOptions) : list conn_call * outcome store_error subscribeIterator :=
  let pollInterval :=
    if decide (PollInterval opts ≤ 0) then defaultPollInterval else PollInterval opts in
  let position :=
    match Subscribe_After opts with
    | Some p => p
    | None => SequencePositionInitial
    end in
  match acquire with
  | Some err => ([PoolAcquire false], Err (db_store_error err))
  | None =>
      let exec := ConnExec ("LISTEN " +:+ notifyChannel s) in
      match listen with
      | Some err => ([PoolAcquire true; exec; ConnRelease], Err (db_store_error err))
      | None =>
          ([PoolAcquire true; exec],
           Ok (mkSubscribe query position pollInterval [] zeroSequenced None false))
      end
  end.

(** How [WaitForNotification] ends. *)
Inductive wait_result :=
  | Notified
  | PollElapsed
  | ContextEnded
  | WaitFailed (err : db_error).

(** One round of the loop: whether the context has ended at its head, how the
    fetches go, whether the context has ended when a drain has failed, and how
    the wait ends. *)
Record turn := mkTurn {
  ended_at_head : bool;
  turn_fetches : list (option db_error);
  ended_in_drain : bool;
  turn_wait : wait_result;
}.

(** Enough for a cursor that has just been declared. *)
Definition collect_fuel (it : cursorIterator) : nat := S (length (cursor_rows it)).

(** [drain]: read after the position and collect; [Collect] closes the read's
    iterator, which ends its transaction. *)
Definition drain (st : Store) (fetches : list (option db_error)) (it : subscribeIterator) :
    prog (outcome store_error (list SequencedEvent)) :=
  readIt ←! Read st fetches (sub_query it) (mkReadOptions false (Some (position it)) 0);
  Do CRollback (λ _, Ret
    match Collect (collect_fuel readIt) readIt with
    | Some (Ok (events, None), _) => Ok events
    | Some (Ok (_, Some err), _) => Err err
    | Some (Err err, _) => Err err
    | Some (Panic msg, _) => Panic msg
    | None => Panic "out of fuel"
    end).

(** What a call of [Next] comes to: it returns a boolean, with the rounds that
    the environment has left; or the environment says nothing further and the
    call is still waiting; or it panics. *)
Inductive next_result :=
  | Returned (b : bool) (it : subscribeIterator) (env : list turn)
  | Waiting (it : subscribeIterator)
  | Panicked (msg : string).

Definition with_pending (events : list SequencedEvent) (it : subscribeIterator) : subscribeIterator :=
  mkSubscribe (sub_query it) (position it) (pollInterval it) events (current it) (sub_err it)
    (sub_closed it).

Definition with_err (err : store_error) (it : subscribeIterator) : subscribeIterator :=
  mkSubscribe (sub_query it) (position it) (pollInterval it) (pending_events it) (current it)
    (Some err) (sub_closed it).

(** [it.current = it.pending[0]; it.pending = it.pending[1:];
    it.position = it.current.Position] *)
Definition take_pending (se : SequencedEvent) (rest : list SequencedEvent)
    (it : subscribeIterator) : subscribeIterator :=
  mkSubscribe (sub_query it) (Position se) (pollInterval it) rest se (sub_err it) (sub_closed it).

(** The loop of [Next]. *)
Fixpoint next_loop (st : Store) (env : list turn) (it : subscribeIterator) : prog next_result :=
  match pending_events it with
  | se :: rest => Ret (Returned true (take_pending se rest it) env)
  | [] =>
      match env with
      | [] => Ret (Waiting it)
      | t :: env =>
          if ended_at_head t then Ret (Returned false it env)
          else
            r ← drain st (turn_fetches t) it;
            match r with
            | Err err =>
                if ended_in_drain t then Ret (Returned false it env)
                else Ret (Returned false (with_err err it) env)
            | Panic msg => Ret (Panicked msg)
            | Ok events =>
                if decide (0 < length events)%nat then next_loop st env (with_pending events it)
                else
                  match turn_wait t with
                  | Notified | PollElapsed => next_loop st env it
                  | ContextEnded => Ret (Returned false it env)
                  | WaitFailed err => Ret (Returned false (with_err (db_store_error err) it) env)
                  end
            end
      end
  end.

Definition Next (st : Store) (env : list turn) (it : subscribeIterator) : prog next_result :=
  if decide (sub_err it ≠ None ∨ sub_closed it = true) then Ret (Returned false it env)
  else next_loop st env it.

(** The error of [UNLISTEN] is ignored. *)
Definition Close (s : Store) (it : subscribeIterator) : list conn_call * subscribeIterator :=
  if sub_closed it then ([], it)
  else
    ([ConnExec ("UNLISTEN " +:+ notifyChannel s); ConnRelease],
     mkSubscribe (sub_query it) (position it) (pollInterval it) (pending_events it) (current it)
       (sub_err it) true).

(** ** A consumer *)

(** [for it.Next() { events = append(events, it.Event()) }], for at most [n]
    calls; [false] in the result when the last call is still waiting. *)
Fixpoint consume (st : Store) (n : nat) (env : list turn) (it : subscribeIterator)
    (delivered : list SequencedEvent) :
    prog (outcome store_error (list SequencedEvent * subscribeIterator * bool)) :=
  match n with
  | O => Ret (Ok (delivered, it, true))
  | S n =>
      r ← Next st env it;
      match r with
      | Returned true it env => consume st n env it (delivered ++ [current it])
      | Returned false it _ => Ret (Ok (delivered, it, true))
      | Waiting it => Ret (Ok (delivered, it, false))
      | Panicked msg => Ret (Panic msg)
      end
  end.

(** ** What a subscription has seen

    The rows of the query after [start] up to a mark [h] that cannot change any
    more, decoded in order. *)

Record streaming_to (q : Query) (start : Z) (seen : list SequencedEvent) (h : Z)
    (l : list (Z * row)) (s : server) : Prop := {
  st_seen : collect_rows l = Ok seen;
  st_sorted : StronglySorted (row_order false) l;
  st_rows p r : (p, r) ∈ l ↔ table s !! p = Some r ∧ start < p ≤ h ∧ row_reaches q r;
  st_settled : h = start ∨ settled q h s;
}.

Definition streaming (q : Query) (start : Z) (seen : list SequencedEvent) (s : server) : Prop :=
  ∃ h l, streaming_to q start seen h l s.

(** Where to go on after [seen]. *)
Definition resume (start : Z) (seen : list SequencedEvent) : Z :=
  match last seen with Some se => value (Position se) | None => start end.

Lemma streaming_nil q start s : streaming q start [] s.
Proof.
  exists start, []. split; [done|constructor| |by left].
  intros p r. split; [by intros ?%elem_of_nil|lia].
Qed.

Lemma streaming_to_evolves q start seen h l s s' : Inv s → Inv s' → evolves s s' →
  streaming_to q start seen h l s → streaming_to q start seen h l s'.
Proof.
  intros HI HI' Hev [Hc Hs Hl Hset]. split; [done|done| |].
  - intros p r. rewrite Hl. split.
    + intros (Hp&?&?). split_and!; try lia; try done. eapply lookup_weaken; [done|apply Hev].
    + intros (Hp&?&?). split_and!; try lia; try done.
      destruct Hset as [->|Hset]; [lia|]. apply (settled_table q h s s'); try done. lia.
  - destruct Hset as [?|Hset]; [by left|right]. by eapply settled_evolves.
Qed.

Lemma streaming_evolves q start seen s s' : Inv s → Inv s' → evolves s s' →
  streaming q start seen s → streaming q start seen s'.
Proof. intros HI HI' Hev (h&l&H). exists h, l. by apply (streaming_to_evolves q start seen h l s s'). Qed.

Lemma decoded_position pr se : 0 ≤ pr.1 < two63 → rowToSequencedEvent pr = Ok se →
  value (Position se) = pr.1.
Proof.
  destruct pr as [p r]. unfold rowToSequencedEvent. cbn. intros Hp.
  destruct (Unmarshal _) as [[data metadata]| |]; [|done..]. cbn.
  destruct (TagsFrom _) as [t| |]; [|done..]. cbn. rewrite int64ToPosition_nonneg by done.
  by intros [= <-].
Qed.

Lemma decoded_positions l evs : row_positions l → collect_rows l = Ok evs →
  (λ se, value (Position se)) <$> evs = l.*1.
Proof.
  intros Hl. revert evs. induction Hl as [|pr l Hp _ IH]; cbn; intros evs; [by intros [= <-]|].
  destruct (rowToSequencedEvent pr) as [se| |] eqn:E; [|done..]. cbn.
  destruct (collect_rows l) as [evs'| |]; [|done..]. cbn. intros [= <-]. cbn.
  by rewrite (decoded_position pr se Hp E), (IH evs').
Qed.

Lemma collect_rows_elem l evs se : collect_rows l = Ok evs → se ∈ evs →
  ∃ pr, pr ∈ l ∧ rowToSequencedEvent pr = Ok se.
Proof.
  revert evs. induction l as [|pr l IH]; cbn; intros evs.
  { intros [= <-] ?%elem_of_nil. done. }
  destruct (rowToSequencedEvent pr) as [ev| |] eqn:E; [|done..]. cbn.
  destruct (collect_rows l) as [evs'| |]; [|done..]. cbn.
  intros [= <-] [->|Hin]%elem_of_cons; [exists pr; split; [by left|done]|].
  destruct (IH evs' eq_refl Hin) as (pr'&?&?). exists pr'. split; [by right|done].
Qed.

Lemma table_positions s l : Inv s → (∀ p r, (p, r) ∈ l → table s !! p = Some r) →
  row_positions l.
Proof.
  intros HI Hl. apply Forall_forall. intros [p r] Hin. cbn.
  destruct (inv_allocated _ HI p r) as [H1 H2]; [left; by apply Hl|].
  assert (last_position s < two63); [|lia]. unfold last_position, coalesce_last.
  destruct (seq_last s) as [v|] eqn:Hv; [|done]. apply (inv_seq _ HI v Hv).
Qed.

(** The rows seen are at or below the position to go on from. *)
Lemma seen_below (l : list (Z * row)) evs start p r :
  row_positions l → StronglySorted (row_order false) l → collect_rows l = Ok evs →
  (p, r) ∈ l → p ≤ resume start evs.
Proof.
  intros Hpos Hs Hc Hin. pose proof (decoded_positions l evs Hpos Hc) as Hps. unfold resume.
  destruct (last l) as [[p' r']|] eqn:Hlast.
  - assert (last l.*1 = Some p') as Hl by (by rewrite fmap_last, Hlast).
    rewrite <-Hps, fmap_last in Hl. destruct (last evs) as [se|]; [|done].
    injection Hl as ->. apply last_Some in Hlast as [l' ->].
    apply elem_of_app in Hin as [Hin|Hin].
    + pose proof (StronglySorted_app_1_elem_of _ l' [(p', r')] (p, r) (p', r') Hs Hin) as Hlt.
      unfold row_order in Hlt. cbn in Hlt. assert (p < p'); [|lia].
      apply Hlt. by apply list_elem_of_singleton.
    + apply list_elem_of_singleton in Hin as [= -> ->]. done.
  - apply last_None in Hlast as ->. by apply elem_of_nil in Hin.
Qed.

Lemma resume_bounds q start seen h l s : Inv s → streaming_to q start seen h l s →
  start ≤ resume start seen ∧ (resume start seen = start ∨ resume start seen ≤ h).
Proof.
  intros HI [Hc Hs Hl _].
  assert (row_positions l) as Hpos by (apply (table_positions s); [done|]; intros p r Hin; by apply Hl in Hin as [? _]).
  pose proof (decoded_positions l seen Hpos Hc) as Hps. unfold resume.
  destruct (last seen) as [se|] eqn:Hlast; [|by split; [|left]].
  assert (last l.*1 = Some (value (Position se))) as Hl1 by (by rewrite <-Hps, fmap_last, Hlast).
  apply last_Some_elem_of, list_elem_of_fmap in Hl1 as ([p r]&->&Hin). cbn.
  apply Hl in Hin. lia.
Qed.

(** What a drain after [pos] that ran from [s0] to [s] brings. *)
Definition drained (q : Query) (pos : Z) (s0 s : server) (events : list SequencedEvent) : Prop :=
  ∃ h, last_position s0 ≤ h ∧ settled q h s ∧ ∃ l, collect_rows l = Ok events ∧
    StronglySorted (row_order false) l ∧
    ∀ p r, (p, r) ∈ l ↔ table s !! p = Some r ∧ pos < p ≤ h ∧ row_reaches q r.

Lemma streaming_extend q start seen events s0 s :
  Inv s0 → Inv s → evolves s0 s → streaming q start seen s0 →
  drained q (resume start seen) s0 s events → streaming q start (seen ++ events) s.
Proof.
  intros HI0 HI Hev (h0&l0&Hst) (h&Hfresh&Hset&l&Hc&Hs&Hl).
  pose proof (resume_bounds q start seen h0 l0 s0 HI0 Hst) as [Hge Hle].
  assert (h0 = start ∨ h0 ≤ h) as Hh.
  { destruct (st_settled _ _ _ _ _ _ Hst) as [?|[? _]]; [by left|right; lia]. }
  pose proof (streaming_to_evolves q start seen h0 l0 s0 s HI0 HI Hev Hst) as Hst'.
  destruct (decide (h < start)) as [Hlt|Hle'].
  { assert (l = []) as ->.
    { destruct l as [|[p r] l]; [done|]. exfalso.
      assert (table s !! p = Some r ∧ resume start seen < p ≤ h ∧ row_reaches q r) as (_&?&_)
        by (apply Hl; by left). lia. }
    injection Hc as <-. rewrite app_nil_r. by exists h0, l0. }
  destruct Hst' as [Hc0 Hs0 Hl0 _].
  assert (row_positions l0) as Hpos
    by (apply (table_positions s); [done|]; intros p r Hin; by apply Hl0 in Hin as [? _]).
  exists h, (l0 ++ l). split; [by apply collect_rows_app| | |by right].
  - apply StronglySorted_app. split_and!; [|done|done].
    intros [p r] [p' r'] Hin Hin'. unfold row_order. cbn.
    pose proof (seen_below l0 seen start p r Hpos Hs0 Hc0 Hin). apply Hl in Hin'. lia.
  - intros p r. rewrite elem_of_app, Hl0, Hl. split.
    + intros [(?&?&?)|(?&?&?)]; (split_and!; [done|lia|lia|done]).
    + intros (Hp&Hrange&Hr). destruct (decide (p ≤ h0)); [left|right];
        (split_and!; [done|lia|lia|done]).
Qed.

(** ** The logic of a subscription *)

(** The invariant of an iterator that has delivered [dl]. *)
Record sub_inv (q : Query) (start : Z) (dl : list SequencedEvent) (it : subscribeIterator)
    (s : server) : Prop := {
  sub_inv_query : sub_query it = q;
  sub_inv_position : 0 ≤ value (position it) < two63 ∧ value (position it) = resume start dl;
  sub_inv_streaming : streaming q start (dl ++ pending_events it) s;
  sub_inv_open : sub_closed it = false;
  sub_inv_err : is_Some (sub_err it) → pending_events it = [];
}.

Lemma sub_inv_evolves q start dl it s s' : Inv s → Inv s' → evolves s s' →
  sub_inv q start dl it s → sub_inv q start dl it s'.
Proof.
  intros HI HI' Hev [? ? ? ? ?]. split; [done|done|by apply (streaming_evolves q start _ s s')|done..].
Qed.

Lemma streaming_position q start seen s se : Inv s → streaming q start seen s → se ∈ seen →
  0 ≤ value (Position se) < two63.
Proof.
  intros HI (h&l&[Hc Hs Hl _]) Hse.
  assert (row_positions l) as Hpos by (apply (table_positions s); [done|]; intros p r Hin; by apply Hl in Hin as [? _]).
  pose proof (decoded_positions l seen Hpos Hc) as Hps.
  assert (value (Position se) ∈ l.*1) as Hin
    by (rewrite <-Hps; by apply (list_elem_of_fmap_2 (λ se, value (Position se)))).
  apply list_elem_of_fmap in Hin as ([p r]&->&Hin). unfold row_positions in Hpos.
  rewrite Forall_forall in Hpos. by apply (Hpos (p, r)).
Qed.

Lemma sub_inv_take q start dl it se rest s : Inv s →
  pending_events it = se :: rest → sub_inv q start dl it s →
  sub_inv q start (dl ++ [se]) (take_pending se rest it) s.
Proof.
  intros HI Hp [Hq Hpos Hst Hopen Herr]. rewrite Hp in Hst. split; [done| | |done|].
  - cbn. split.
    + eapply streaming_position; [done|done|]. apply elem_of_app. right. by left.
    + unfold resume. by rewrite last_snoc.
  - cbn. by rewrite <-(assoc_L (++)).
  - cbn. intros He. rewrite Hp in Herr. by specialize (Herr He).
Qed.

Section subscription.
Context (spec : nat → rows → rows → Prop) (i : nat) (st : Store) (q : Query) (start : Z).
Hypothesis Hspec : ∀ tbl, spec i tbl ∅.
Hypothesis Hwf : query_wf q.

(** What the rows of a finished read are, once its iterator is closed. *)
Lemma read_done_drained pos fetches s s' h snapshot it events :
  Inv s' → read_done q (mkReadOptions false (Some pos) 0) fetches s s' h snapshot it →
  match Collect (collect_fuel it) it with
  | Some (Ok (evs, None), _) => evs = events → drained q (value pos) s s' events
  | Some (Ok (_, Some _), _) => True
  | _ => False
  end.
Proof.
  intros HI' [(l&[Hs Hl]&->) _ Htab Hmark].
  assert (limit_to (Limit (mkReadOptions false (Some pos) 0)) l = l) as -> by done.
  assert (row_positions l) as Hpos.
  { apply (table_positions s'); [done|]. intros p r Hin. apply Hl in Hin as [Hp _].
    by eapply lookup_weaken. }
  destruct (collect_fresh l fetches (collect_fuel (fresh_cursor l fetches)) Hpos) as (it'&->&_);
    [unfold collect_fuel; cbn; lia|].
  destruct (batches_prefix (S (length l)) l fetches Hpos) as (_&_&Hall); [lia|].
  destruct (batches (S (length l)) l fetches) as [evs [err|]]; [done|]. cbn in *. intros ->.
  destruct h as [hwm|]; [|by cbn in Hmark]. destruct Hmark as (_&Hfresh&Hset&Hcomp).
  exists hwm. split_and!; [done|done|]. exists l. split_and!; [by apply Hall|done|].
  intros p r. rewrite Hl, criteria_selects_wf by done. unfold within_bounds. cbn. split.
  - intros (Hp&[Hb Hh]&Hr). split_and!; [by eapply lookup_weaken|by apply Hb|by apply Hh|done].
  - intros (Hp&[Hb Hh]&Hr). split_and!; [by apply Hcomp|by intros ? [= <-]|by intros ? [= <-]|done].
Qed.

Lemma drain_wp fetches it s :
  Inv s → txs s !! i = None → sub_query it = q → 0 ≤ value (position it) < two63 →
  wp spec i (drain st fetches it) (λ r s', evolves s s' ∧ match r with
    | Ok events => txs s' !! i = None ∧ drained q (value (position it)) s s' events
    | Err _ => True
    | Panic _ => False
    end) s.
Proof.
  intros HI Hn Hq Hpos. unfold drain. rewrite Hq. apply wp_try.
  set (opts := mkReadOptions false (Some (position it)) 0).
  assert (after_fits_opts opts) as Hfits by (by intros pos [= <-]).
  assert (idle i (own_wal i s) s) as Hidle by done.
  eapply wp_mono; [|exact (wp_evolves spec i _ _ s s (reflexivity s)
    (Read_wp spec i (own_wal i s) st fetches q opts Hspec Hfits s HI Hidle))].
  intros [readIt|e|msg] s1 HI1 [Hr Hev1]; [| |done].
  2: { intros s2 HI2 HR2. split; [|done]. trans s1; [done|by eapply rely_evolves]. }
  destruct Hr as ([_ Hw]&h&snapshot&Hdone).
  apply (wp_rollback spec i (own_wal i s1)); [done|]. intros s2 r HI2 Hev2 [Hn2 _].
  apply wp_ret. intros s3 HI3 HR3.
  assert (evolves s1 s3) as Hev13 by (trans s2; [done|by eapply rely_evolves]).
  split; [by trans s1|].
  pose proof (read_done_evolves q opts fetches s s1 s3 h snapshot readIt HI1 HI3 Hev13 Hdone) as Hd.
  pose proof (λ events, read_done_drained (position it) fetches s s3 h snapshot readIt events HI3 Hd)
    as Hc.
  destruct (Collect (collect_fuel readIt) readIt) as [[[[evs [err|]]|e|msg] it']|];
    [done| |by destruct (Hc [])..].
  split; [by rewrite (rely_tx _ _ _ HR3)|by apply Hc].
Qed.

(** The result of a call of [Next] on [it]: what it has seen before comes first. *)
Definition next_post (dl : list SequencedEvent) (it : subscribeIterator) (r : next_result)
    (s : server) : Prop :=
  match r with
  | Returned true it' _ => txs s !! i = None ∧ sub_inv q start (dl ++ [current it']) it' s ∧
      dl ++ pending_events it `prefix_of` (dl ++ [current it']) ++ pending_events it'
  | Returned false it' _ | Waiting it' => sub_inv q start dl it' s ∧ pending_events it = [] ∧
      pending_events it' = []
  | Panicked _ => False
  end.

(** A drain into an iterator that has nothing pending. *)
Lemma drain_pending dl it events s s' :
  Inv s → Inv s' → evolves s s' → pending_events it = [] → sub_err it = None →
  sub_inv q start dl it s →
  drained q (value (position it)) s s' events → sub_inv q start dl (with_pending events it) s'.
Proof.
  intros HI HI' Hev Hp He [Hq Hpos Hst Hopen _] Hd. split; [done|done| |done|].
  - cbn. rewrite Hp, app_nil_r in Hst. destruct Hpos as [_ Hpos]. rewrite Hpos in Hd.
    by apply (streaming_extend q start dl events s s').
  - cbn. rewrite He. by intros [??].
Qed.

Lemma next_loop_pending env it se rest : pending_events it = se :: rest →
  next_loop st env it = Ret (Returned true (take_pending se rest it) env).
Proof. intros Hp. destruct env; cbn [next_loop]; by rewrite Hp. Qed.

Lemma next_loop_drain t env it : pending_events it = [] → ended_at_head t = false →
  next_loop st (t :: env) it =
    prog_bind (drain st (turn_fetches t) it) (λ r,
      match r with
      | Err err =>
          if ended_in_drain t then Ret (Returned false it env)
          else Ret (Returned false (with_err err it) env)
      | Panic msg => Ret (Panicked msg)
      | Ok events =>
          if decide (0 < length events)%nat then next_loop st env (with_pending events it)
          else
            match turn_wait t with
            | Notified | PollElapsed => next_loop st env it
            | ContextEnded => Ret (Returned false it env)
            | WaitFailed err => Ret (Returned false (with_err (db_store_error err) it) env)
            end
      end).
Proof. intros Hp Ht. cbn [next_loop]. by rewrite Hp, Ht. Qed.

Lemma take_wp env dl it se rest s :
  Inv s → txs s !! i = None → pending_events it = se :: rest → sub_inv q start dl it s →
  wp spec i (Ret (Returned true (take_pending se rest it) env)) (next_post dl it) s.
Proof.
  intros HI Hn Hp Hinv s1 HI1 HR1. cbn. rewrite Hp. split_and!.
  - by rewrite (rely_tx _ _ _ HR1).
  - apply (sub_inv_take q start dl it); [done|done|].
    apply (sub_inv_evolves q start dl it s s1); [done|done|by eapply rely_evolves|done].
  - by rewrite <-(assoc_L (++)).
Qed.

(** The iterator stays as it is, up to an error. *)
Definition stays (it : subscribeIterator) (r : next_result) : Prop :=
  r = Waiting it ∨ ∃ env, r = Returned false it env ∨ ∃ e, r = Returned false (with_err e it) env.

Lemma stays_wp dl it r s : Inv s → sub_inv q start dl it s → pending_events it = [] → stays it r →
  wp spec i (Ret r) (next_post dl it) s.
Proof.
  intros HI Hinv Hp Hr s1 HI1 HR1.
  destruct (sub_inv_evolves q start dl it s s1 HI HI1 (rely_evolves _ _ _ HR1) Hinv) as [? ? ? ? ?].
  by destruct Hr as [->|(env&[->|(e&->)])]; (split; [split|]).
Qed.

Lemma next_loop_wp env dl it s :
  Inv s → txs s !! i = None → sub_inv q start dl it s → sub_err it = None →
  wp spec i (next_loop st env it) (next_post dl it) s.
Proof.
  revert it s. induction env as [|t env IH]; intros it s HI Hn Hinv He;
    (destruct (pending_events it) as [|se rest] eqn:Hp;
      [|rewrite (next_loop_pending _ it se rest Hp); by apply (take_wp _ dl it se rest s)]).
  { cbn [next_loop]. rewrite Hp. apply (stays_wp dl it); [done..|by left]. }
  destruct (ended_at_head t) eqn:Hend.
  { cbn [next_loop]. rewrite Hp, Hend. apply (stays_wp dl it); [done..|right; exists env; by left]. }
  rewrite next_loop_drain by done. apply wp_bind. pose proof Hinv as [Hq [Hpos _] _ _ _].
  eapply wp_mono; [|apply (drain_wp (turn_fetches t) it s HI Hn Hq Hpos)].
  intros r s1 HI1 [Hev Hr].
  assert (sub_inv q start dl it s1) as Hinv1 by (by apply (sub_inv_evolves q start dl it s s1)).
  destruct r as [events|e|msg]; [|destruct (ended_in_drain t); apply (stays_wp dl it);
    try done; right; exists env; [by left|right; by eexists]|done].
  destruct Hr as [Hn1 Hd]. case_decide.
  - eapply wp_mono; [|apply IH; [done|done|by apply (drain_pending dl it events s s1)|done]].
    unfold next_post. cbn. rewrite Hp. intros [[] it' env'|it'|msg] s2 _; [| | |done].
    + intros (?&?&Hpre). split_and!; [done|done|]. etrans; [|exact Hpre].
      rewrite app_nil_r. by eexists.
    + by intros (?&?&?).
    + by intros (?&?&?).
  - destruct (turn_wait t); try (by apply IH); apply (stays_wp dl it); try done;
      right; exists env; [by left|right; by eexists].
Qed.

(** [seen] has every row of [s0] that the subscription asks for. *)
Definition caught_up (s0 : server) (seen : list SequencedEvent) : Prop :=
  ∀ p r, table s0 !! p = Some r → start < p → row_reaches q r →
    ∃ se, se ∈ seen ∧ value (Position se) = p.

Lemma caught_up_prefix s0 seen seen' : seen `prefix_of` seen' → caught_up s0 seen → caught_up s0 seen'.
Proof.
  intros [rest ->] H p r Hp Hlt Hr. destruct (H p r Hp Hlt Hr) as (se&?&?).
  exists se. split; [|done]. apply elem_of_app. by left.
Qed.

(** A drain from the start catches up with what was there. *)
Lemma drained_caught_up s s' events : Inv s → Inv s' → evolves s s' →
  drained q start s s' events → caught_up s events.
Proof.
  intros HI HI' Hev (h&Hfresh&_&l&Hc&_&Hl) p r Hp Hlt Hr.
  assert (row_positions l) as Hpos
    by (apply (table_positions s'); [done|]; intros p' r' Hin; by apply Hl in Hin as [? _]).
  assert (p ∈ l.*1) as Hin.
  { apply list_elem_of_fmap. exists (p, r). split; [done|]. apply Hl. split_and!; [|done| |done].
    - eapply lookup_weaken; [done|apply Hev].
    - destruct (inv_allocated _ HI p r); [by left|]. lia. }
  rewrite <-(decoded_positions l events Hpos Hc) in Hin.
  apply list_elem_of_fmap in Hin as (se&->&?). by exists se.
Qed.

(** A first round that the context lives through catches up, or ends the
    subscription with an error. *)
Lemma next_loop_progress t env it s :
  Inv s → txs s !! i = None → pending_events it = [] → sub_err it = None →
  sub_inv q start [] it s → ended_at_head t = false → ended_in_drain t = false →
  wp spec i (next_loop st (t :: env) it) (λ res s', match res with
    | Returned true it' _ => caught_up s (current it' :: pending_events it')
    | Returned false it' _ | Waiting it' => is_Some (sub_err it') ∨ caught_up s []
    | Panicked _ => True
    end) s.
Proof.
  intros HI Hn Hp He Hinv Hend Hend'.
  rewrite next_loop_drain by done. apply wp_bind. pose proof Hinv as [Hq [Hpos Hstart] _ _ _].
  eapply wp_mono; [|apply (drain_wp (turn_fetches t) it s HI Hn Hq Hpos)].
  intros res s1 HI1 [Hev Hres]. destruct res as [events|e|msg]; [| |done].
  2: { rewrite Hend'. intros s2 HI2 HR2. left. by eexists. }
  destruct Hres as [Hn1 Hd].
  pose proof (drain_pending [] it events s s1 HI HI1 Hev Hp He Hinv Hd) as Hinv1.
  rewrite Hstart in Hd. apply drained_caught_up in Hd as Hup; [|done..].
  destruct events as [|se rest].
  - rewrite decide_False by (cbn; lia).
    assert (sub_inv q start [] it s1) as Hinv2 by (by apply (sub_inv_evolves q start [] it s s1)).
    assert (wp spec i (next_loop st env it) (λ res s', match res with
      | Returned true it' _ => caught_up s (current it' :: pending_events it')
      | Returned false it' _ | Waiting it' => is_Some (sub_err it') ∨ caught_up s []
      | Panicked _ => True
      end) s1) as Hloop.
    { eapply wp_mono; [|by apply (next_loop_wp env [] it s1)].
      intros [[] it' env'|it'|msg] s2 _; [|by right..|done]. intros (_&_&Hpre).
      eapply caught_up_prefix; [|exact Hup]. apply prefix_nil. }
    destruct (turn_wait t); try done; intros s2 HI2 HR2; by right.
  - rewrite decide_True by (cbn; lia).
    rewrite (next_loop_pending _ _ se rest) by done. by intros s2 HI2 HR2.
Qed.

Lemma Next_wp env dl it s :
  Inv s → txs s !! i = None → sub_inv q start dl it s →
  wp spec i (Next st env it) (next_post dl it) s.
Proof.
  intros HI Hn Hinv. unfold Next. pose proof Hinv as [_ _ _ Hopen Herr]. case_decide as Hc.
  - apply (stays_wp dl it); [done|done| |right; exists env; by left].
    apply Herr. destruct Hc as [Hc|Hc]; [by destruct (sub_err it)|congruence].
  - apply next_loop_wp; [done..|]. destruct (sub_err it); [|done]. destruct Hc. by left.
Qed.

(** What a consumer has after up to [n] calls on [it], when it had [dl]. *)
Definition consumed (n : nat) (dl : list SequencedEvent) (it : subscribeIterator)
    (r : outcome store_error (list SequencedEvent * subscribeIterator * bool)) (s : server) : Prop :=
  match r with
  | Ok (dl', it', _) => sub_inv q start dl' it' s ∧
      dl ++ pending_events it `prefix_of` dl' ++ pending_events it' ∧
      dl `prefix_of` dl' ∧
      (length dl' = (length dl + n)%nat ∨ pending_events it' = [])
  | _ => False
  end.

Lemma consumed_evolves n dl it r s s' : Inv s → Inv s' → evolves s s' →
  consumed n dl it r s → consumed n dl it r s'.
Proof.
  intros HI HI' Hev. destruct r as [[[dl' it'] b]|e|msg]; [|done|done].
  intros (Hinv&?&?&?). split_and!; [|done..]. by apply (sub_inv_evolves q start dl' it' s s').
Qed.

Lemma consume_wp n env dl it s :
  Inv s → txs s !! i = None → sub_inv q start dl it s →
  wp spec i (consume st n env it dl) (consumed n dl it) s.
Proof.
  revert env dl it s. induction n as [|n IH]; intros env dl it s HI Hn Hinv; cbn [consume].
  { intros s1 HI1 HR1. apply (consumed_evolves _ _ _ _ s s1); [done|done|by eapply rely_evolves|].
    split_and!; [done|done|done|left; lia]. }
  apply wp_bind. eapply wp_mono; [|by apply (Next_wp env dl it s)].
  intros [[] it' env'|it'|msg] s1 HI1 Hr; [| | |done].
  { destruct Hr as (Hn1&Hinv1&Hpre1). eapply wp_mono; [|by apply IH].
    intros [[[dl' it''] b]|e|msg] s2 _; [|done|done]. intros (Hinv2&Hpre2&Hpre3&Hlen).
    split_and!; [done|by etrans|etrans; [|exact Hpre3]; by eexists|].
    rewrite length_app in Hlen. cbn in Hlen. destruct Hlen; [left; lia|by right]. }
  all: destruct Hr as (Hinv1&Hp&Hp'); intros s2 HI2 HR2;
    apply (consumed_evolves _ _ _ _ s1 s2); [done|done|by eapply rely_evolves|];
    (split_and!; [done|by rewrite Hp, Hp'|done|by right]).
Qed.

(** What a consumer achieves whose subscription lives through a first round. *)
Definition consumer_progress (n : nat) (s0 : server)
    (r : outcome store_error (list SequencedEvent * subscribeIterator * bool)) : Prop :=
  match r with
  | Ok (dl, it, _) => is_Some (sub_err it) ∨ length dl = n ∨ caught_up s0 dl
  | _ => False
  end.

Lemma consume_progress n t env it s :
  Inv s → txs s !! i = None → sub_inv q start [] it s →
  pending_events it = [] → sub_err it = None →
  ended_at_head t = false → ended_in_drain t = false →
  wp spec i (consume st n (t :: env) it []) (λ r _, consumer_progress n s r) s.
Proof.
  intros HI Hn Hinv Hp Herr Hend Hend'. destruct n as [|n]; cbn [consume].
  { intros s1 HI1 HR1. right. by left. }
  assert (Next st (t :: env) it = next_loop st (t :: env) it) as ->.
  { unfold Next. rewrite Herr, (sub_inv_open _ _ _ _ _ Hinv). by rewrite decide_False by naive_solver. }
  apply wp_bind. eapply wp_mono; [|apply wp_and;
    [by apply (next_loop_wp (t :: env) [] it s)|by apply (next_loop_progress t env it s)]].
  intros [[] it' env'|it'|msg] s1 HI1 [Hpost Hres]; [| | |done].
  - destruct Hpost as (Hn1&Hinv'&_). eapply wp_mono; [|by apply consume_wp].
    intros [[[dl' it''] b]|e|msg] s2 _; [|done|done]. intros (_&Hpre&_&Hlen). right.
    destruct Hlen as [Hlen|Hlen]; [left; done|right].
    rewrite Hlen, app_nil_r in Hpre. by eapply caught_up_prefix.
  - intros s2 HI2 HR2. destruct Hres; [by left|by right; right].
  - intros s2 HI2 HR2. destruct Hres; [by left|by right; right].
Qed.
End subscription.

(** A new subscription has seen nothing. *)
Definition start_of (opts : SubscribeOptions) : Z :=
  match Subscribe_After opts with Some p => value p | None => 0 end.

Lemma Subscribe_inv st acquire listen q opts calls it s :
  Subscribe st acquire listen q opts = (calls, Ok it) → 0 ≤ start_of opts < two63 →
  sub_inv q (start_of opts) [] it s ∧ pending_events it = [] ∧ sub_err it = None.
Proof.
  unfold Subscribe, start_of. destruct acquire, listen; intros [=]. subst. intros Hstart.
  split; [|done]. split; cbn; [done| |apply streaming_nil|done|by intros [??]].
  by destruct (Subscribe_After opts).
Qed.

(** ** Properties *)

(** How many connections of the pool the calls leave taken. *)
Definition held_connections (calls : list conn_call) : Z :=
  foldl (λ n c, match c with
    | PoolAcquire true => n + 1
    | ConnRelease => n - 1
    | _ => n
    end) 0 calls.

(** C34: the listener connection of a subscription.  A [Subscribe] that fails
    reports the error of the call that failed and leaves no connection taken,
    also when the [LISTEN] on a connection fails; one that succeeds listens on
    one connection, and starts after the given position, with the default
    interval for one that is not positive.  The first [Close] gives the
    connection back, any further one does nothing, and a closed subscription
    delivers nothing more, without asking the server. *)
Theorem subscription_connection st acquire listen q opts :
  let '(calls, r) := Subscribe st acquire listen q opts in
  match r with
  | Err err => held_connections calls = 0 ∧
      (map_err db_store_error (match acquire, listen with
        | Some e, _ | None, Some e => Err e
        | None, None => Ok ()
        end) = Err err)
  | Panic _ => False
  | Ok it => acquire = None ∧ listen = None ∧ held_connections calls = 1 ∧
      last calls = Some (ConnExec ("LISTEN " +:+ notifyChannel st)) ∧
      value (position it) = start_of opts ∧ 0 < pollInterval it ∧
      (0 < PollInterval opts → pollInterval it = PollInterval opts) ∧
      ∀ it', sub_closed it' = false →
        let '(closing, it'') := Close st it' in
        held_connections (calls ++ closing) = 0 ∧
        Close st it'' = ([], it'') ∧
        ∀ env, Next st env it'' = Ret (Returned false it'' env)
  end.
Proof.
  unfold Subscribe. destruct acquire as [e|]; [by split|].
  destruct listen as [e|]; [by split|]. split_and!; try done.
  - unfold start_of. cbn. by destruct (Subscribe_After opts).
  - cbn. case_decide; unfold defaultPollInterval; lia.
  - cbn. intros ?. by rewrite decide_False by lia.
  - intros it' Hopen. unfold Close. rewrite Hopen. split_and!; [done|done|].
    intros env. unfold Next. by rewrite decide_True by (by right).
Qed.
