(* ===== verification/PgAppend.v ===== *)
(** * PgAppend

    [Append] of [src/postgres/append.go] among concurrent sessions, through
    both of its paths: the stored procedure in one statement, and the explicit
    transaction that streams the events with [COPY]. *)

From S2P Require Import Prelude.
From S2P Require Import GoStrconv.
From S2P Require Import GoStrings.
From S2P Require Import SequencePosition.
From S2P Require Import Tags.
From S2P Require Import EventStore.
From S2P Require Import Matching.
From S2P Require Import StoreSpec.
From S2P Require Import LockKeys.
From S2P Require Import Serialize.
From S2P Require Import PgServer.
From S2P Require Import PgProcedures.
From S2P Require Import PgStore.
From S2P Require Import PgConditions.
From S2P Require Import PgLogic.
From S2P Require Import PgRules.
From S2P Require Import PgBarrier.

Local Open Scope Z_scope.

(** ** The writer's locks *)

Definition writer_locks (commands : list AppendCommand) : list lock :=
  key_ordered (Some (leafX (commandKeys commands))) true
    (Some (intentS (commandKeys commands))) false.

(** A row that violates a condition of some command. *)
Definition commands_hit (commands : list AppendCommand) (p : Z) (r : row) : Prop :=
  ∃ cmd c, cmd ∈ commands ∧ Condition cmd = Some c ∧ row_hit c p r.

Lemma writer_locks_guard commands : conditions_valid commands →
  guarded (writer_locks commands) (commands_hit commands).
Proof.
  intros Hvalid p r (cmd&c&Hcmd&Hc&_&Hm). unfold conditions_valid in Hvalid.
  rewrite Forall_forall in Hvalid. destruct (Hvalid cmd Hcmd c Hc) as [Hall Hscoped].
  destruct Hm as [?|(item&Hitem&Ht&Htags)]; [congruence|].
  rewrite Forall_forall in Hscoped.
  destruct (proj1 (item_scoped_alt item) (Hscoped item Hitem)) as [_ [tag Htag]].
  exists (leafKey (r_type r) tag, true), (leafKey (r_type r) tag, true). split_and!.
  - apply elem_of_key_ordered. left. eexists. split; [done|]. apply leafX_commandKeys. left.
    exists cmd. split; [done|]. exists c, item. split_and!; [done..|].
    by exists (r_type r), tag.
  - apply elem_of_row_keys. left. exists tag. split; [done|by apply Htags].
  - apply same_key_excludes. by left.
Qed.

Lemma writer_locks_cover commands ev : ev ∈ all_events commands →
  covered (writer_locks commands) (row_of ev).
Proof.
  intros Hev l Hl. apply elem_of_key_ordered. apply elem_of_row_keys in Hl. cbn in Hl.
  destruct (event_intent_commandKeys commands ev Hev) as [Htype Hglobal].
  destruct Hl as [(tag&->&Htag%elem_of_Values)|[->| ->]].
  - left. eexists. split; [done|]. by apply event_leaf_commandKeys.
  - right. by eexists.
  - right. by eexists.
Qed.

(** ** What a transaction writes *)

(** The events, in order, at ascending positions [ps]. *)
Definition rows_at (ps : list Z) (events : list Event) : rows :=
  list_to_map (zip ps (row_of <$> events)).

(** What commits on behalf of the commands, onto the table [tbl]. *)
Definition legal (commands : list AppendCommand) (tbl new : rows) : Prop :=
  (∀ p r, tbl !! p = Some r → ¬ commands_hit commands p r) ∧
  ∃ ps, StronglySorted Z.lt ps ∧ length ps = length (all_events commands) ∧
    new = rows_at ps (all_events commands).

(** The events are written after the position [h0], the last at [pos]. *)
Definition written (commands : list AppendCommand) (h0 pos : Z) (new : rows) : Prop :=
  ∃ ps, StronglySorted Z.lt ps ∧ length ps = length (all_events commands) ∧
    new = rows_at ps (all_events commands) ∧ Forall (Z.lt h0) ps ∧ last ps = Some pos ∧
    1 ≤ pos < two63.

(** ** Insertion *)

Lemma rows_at_snoc ps events p ev :
  length ps = length events → Forall (λ q, q < p) ps →
  rows_at (ps ++ [p]) (events ++ [ev]) = <[p := row_of ev]> (rows_at ps events).
Proof.
  intros Hlen Hps. unfold rows_at. rewrite fmap_app, zip_with_app by (by rewrite length_fmap).
  cbn. rewrite list_to_map_app. cbn. rewrite insert_empty, insert_union_singleton_l.
  apply map_union_comm. apply map_disjoint_singleton_r. apply not_elem_of_list_to_map_1.
  rewrite fst_zip by (by rewrite length_fmap, Hlen). intros Hp.
  rewrite Forall_forall in Hps. specialize (Hps p Hp). lia.
Qed.

Lemma StronglySorted_snoc (ps : list Z) p :
  StronglySorted Z.lt ps → Forall (λ q, q < p) ps → StronglySorted Z.lt (ps ++ [p]).
Proof.
  intros Hs Hps. apply StronglySorted_app. split_and!; [|done|repeat constructor].
  intros q p' Hq ->%list_elem_of_singleton. rewrite Forall_forall in Hps. by apply Hps.
Qed.

(** Session [i] has inserted [events] since the position [h0] was the last. *)
Definition inserted (i : nat) (h0 : Z) (events : list Event) (t : tx) (s : server) : Prop :=
  ∃ ps, StronglySorted Z.lt ps ∧ length ps = length events ∧ pending t = rows_at ps events ∧
    Forall (λ p, h0 < p ≤ last_position s) ps ∧
    ∀ p, last ps = Some p → currvals s !! i = Some p.

Lemma inserted_rely i h0 events t s s' :
  rely i s s' → inserted i h0 events t s → inserted i h0 events t s'.
Proof.
  intros HR (ps&?&?&?&Hps&Hcur). exists ps. split_and!; try done.
  - eapply Forall_impl; [exact Hps|]. intros p ?. pose proof (rely_last _ _ _ HR).
    cbn in *. lia.
  - intros p Hp. rewrite (rely_currval _ _ _ HR). by apply Hcur.
Qed.

Lemma inserted_nil i h0 t s : pending t = ∅ → inserted i h0 [] t s.
Proof. intros. exists []. split_and!; try done; constructor. Qed.

(** The locks and the rows of a writer in the middle of its insertions. *)
Definition writing (i : nat) (w : list (nat * rows)) (h0 : Z) (commands : list AppendCommand)
    (events : list Event) (t : tx) (s : server) : Prop :=
  session i t w s ∧ (∀ l, l ∈ writer_locks commands → l ∈ locks t) ∧
  h0 ≤ last_position s ∧ inserted i h0 events t s ∧
  (∀ p r, table s !! p = Some r → ¬ commands_hit commands p r).

Lemma writing_rely i w h0 commands events t s s' :
  conditions_valid commands → rely i s s' →
  writing i w h0 commands events t s → writing i w h0 commands events t s'.
Proof.
  intros Hvalid HR (Hs&Hl&Hh&Hins&Hclear). split_and!.
  - by eapply session_rely.
  - done.
  - pose proof (rely_last _ _ _ HR). lia.
  - by eapply inserted_rely.
  - intros p r Hp Hhit. apply (Hclear p r); [|done].
    apply (guarded_table i t s s' (commands_hit commands) p r); try done; [apply Hs|].
    eapply guarded_mono; [exact Hl|by apply writer_locks_guard].
Qed.

Section append.
Context (spec : nat → rows → rows → Prop) (i : nat) (w : list (nat * rows)).
Context (commands : list AppendCommand) (h0 : Z).
Hypothesis Hspec : ∀ tbl new, legal commands tbl new → spec i tbl new.
Hypothesis Hvalid : conditions_valid commands.

(** One more row. *)
Lemma wp_insert {A} events ev t (k : _ → prog A) Q s :
  ev ∈ all_events commands → writing i w h0 commands events t s →
  (∀ s' e, ordinary e → Inv s' → evolves s s' → own_wal i s' = w →
     wp spec i (k (Err e)) Q s') →
  (∀ s' t', Inv s' → evolves s s' → writing i w h0 commands (events ++ [ev]) t' s' →
     wp spec i (k (Ok ())) Q s') →
  wp spec i (Do (CInsert (row_of ev)) k) Q s.
Proof.
  intros Hev Hw Herr Hok.
  assert (∀ s', Inv s' → rely i s s' → own_wal i s' = w) as Hown
    by (intros s' _ HR; apply (writing_rely _ _ _ _ _ _ s s' Hvalid HR Hw)).
  apply wp_cmd.
  - intros s' _ HR t' Ht'.
    destruct (writing_rely _ _ _ _ _ _ s s' Hvalid HR Hw) as ([Ht _]&Hl&_).
    assert (t' = t) as -> by congruence. intros l Hrow. apply Hl.
    by apply (writer_locks_cover commands ev).
  - intros. apply Herr; [done|done|by eapply rely_evolves|by apply Hown].
  - intros s' r s'' HI HR E HI' Hevol.
    pose proof (writing_rely _ _ _ _ _ _ s s' Hvalid HR Hw) as ([Ht Hwal]&Hl&Hh&Hins&Hclear).
    cbn in E. rewrite Ht in E.
    destruct (nextval (seq_last s')) as [p|] eqn:Hn; injection E as <- <-.
    2: { apply Herr; [done|done|by eapply rely_evolves|done]. }
    destruct (last_position_nextval s' p Hn HI) as [Hp Hrange].
    destruct Hins as (ps&Hsorted&Hlen&Hpend&Hps&Hcur).
    assert (Forall (λ q, q < p) ps) as Hlt.
    { eapply Forall_impl; [exact Hps|]. cbn. lia. }
    eapply Hok; [done|done|]. split_and!.
    + split; [apply lookup_insert_eq|done].
    + exact Hl.
    + unfold last_position in *. cbn. lia.
    + exists (ps ++ [p]). split_and!.
      * by apply StronglySorted_snoc.
      * rewrite !length_app. cbn. lia.
      * cbn. rewrite Hpend. symmetry. by apply rows_at_snoc.
      * apply Forall_app. split; [|repeat constructor; unfold last_position; cbn; lia].
        eapply Forall_impl; [exact Hps|]. unfold last_position at 2. cbn. lia.
      * intros q Hq. rewrite last_snoc in Hq. injection Hq as <-. apply lookup_insert_eq.
    + exact Hclear.
Qed.

Lemma wp_copy_rows done_ todo t s :
  (∀ ev, ev ∈ todo → ev ∈ all_events commands) → writing i w h0 commands done_ t s →
  wp spec i (copy_rows todo) (λ r s', match r with
    | Ok _ => ∃ t', writing i w h0 commands (done_ ++ todo) t' s'
    | Err e => own_wal i s' = w ∧ ordinary e
    | Panic _ => False
    end) s.
Proof.
  revert done_ t s. induction todo as [|ev todo IH]; intros done_ t s Hall Hw.
  { intros s' HI HR. exists t. rewrite app_nil_r. by eapply writing_rely. }
  cbn [copy_rows]. apply wp_try, (wp_insert done_ ev t); [apply Hall; by left|done| |].
  - intros s1 e He HI1 Hev1 Hw1 s2 HI2 HR2 s3 HI3 HR3. split; [|done].
    by rewrite (rely_own_wal _ _ _ HR3), (rely_own_wal _ _ _ HR2).
  - intros s1 t1 HI1 Hev1 Hw1 s2 HI2 HR2.
    eapply wp_mono; [|apply (IH (done_ ++ [ev]) t1 s2)].
    + intros [[]|e|msg] s3 _; [|done|done]. by rewrite <-(assoc_L (++)).
    + intros ev' ?. apply Hall. by right.
    + by eapply writing_rely.
Qed.

(** ** From the locks to the verdict *)

Context (s0 : server).
Hypothesis Hh0 : h0 = last_position s0.
Hypothesis HI0 : Inv s0.
Hypothesis Hclean : Forall condition_clean commands.
Hypothesis Hlen : Z.of_nat (length commands) ≤ 2147483648.

(** All locks are held and nothing is written yet. *)
Definition holding (t : tx) (s : server) : Prop :=
  session i t w s ∧ pending t = ∅ ∧ (∀ l, l ∈ writer_locks commands → l ∈ locks t) ∧
  evolves s0 s.

Lemma holding_rely t s s' : rely i s s' → holding t s → holding t s'.
Proof.
  intros HR (?&?&?&?). split_and!; [by eapply session_rely|done|done|].
  trans s; [done|by eapply rely_evolves].
Qed.

(** The rows that matter are all at or below [h]. *)
Definition bounded (h : Z) (t : tx) (s : server) : Prop :=
  holding t s ∧ h0 ≤ h ∧ ∀ p r, table s !! p = Some r → commands_hit commands p r → p ≤ h.

Lemma bounded_rely h t s s' : rely i s s' → bounded h t s → bounded h t s'.
Proof.
  intros HR (Hhold&Hle&Hb). split_and!; [by eapply holding_rely|done|].
  intros p r Hp Hhit. apply (Hb p r); [|done].
  destruct Hhold as ([Ht _]&_&Hl&_).
  apply (guarded_table i t s s' (commands_hit commands) p r); try done.
  eapply guarded_mono; [exact Hl|by apply writer_locks_guard].
Qed.

Lemma holding_bounded t s : Inv s → holding t s → bounded (last_position s) t s.
Proof.
  intros HI Hhold. split_and!; [done| |].
  - rewrite Hh0. apply Hhold.
  - intros p r Hp _. apply (inv_allocated _ HI p r). by left.
Qed.

(** Command [idx] was the first to be hit at some moment since the start. *)
Definition violation (idx : Z) (s : server) : Prop :=
  ∃ tbl h, verdict tbl h commands (Some idx) ∧ table s0 ⊆ tbl ∧ tbl ⊆ table s ∧ h0 ≤ h.

Lemma violation_evolves idx s s' : evolves s s' → violation idx s → violation idx s'.
Proof.
  intros Hev (tbl&h&?&?&?&?). exists tbl, h. split_and!; try done.
  trans (table s); [done|by apply evolves_table].
Qed.

(** What follows from the verdict over the snapshot of a bounded session. *)
Lemma verdict_clear h t s :
  bounded h t s → verdict (visible i s) h commands None → writing i w h0 commands [] t s.
Proof.
  intros ((Hs&Hp&Hl&Hev)&Hle&Hb) Hv. unfold visible in Hv.
  destruct Hs as [Ht Hw]. rewrite Ht, Hp, (left_id_L ∅ (∪)) in Hv.
  split_and!; [done|done| |by apply inserted_nil|].
  - rewrite Hh0. by apply evolves_last.
  - intros p r Htab Hhit. pose proof (Hb p r Htab Hhit) as Hph.
    destruct Hhit as (cmd&c&Hcmd&Hc&Hhit). apply (Hv cmd Hcmd). by exists c, p, r.
Qed.

Lemma verdict_violation h t s idx :
  bounded h t s → verdict (visible i s) h commands (Some idx) → violation idx s.
Proof.
  intros ((Hs&Hp&Hl&Hev)&Hle&Hb) Hv. unfold visible in Hv.
  destruct Hs as [Ht Hw]. rewrite Ht, Hp, (left_id_L ∅ (∪)) in Hv.
  exists (table s), h. split_and!; [done|by apply evolves_table|done|done].
Qed.

(** The errors of a writer's procedure. *)
Definition append_error (e : db_error) (s : server) : Prop :=
  ordinary e ∨ ∃ idx, e = PgError (violation_message idx) ∧ violation idx s.

Lemma append_error_evolves e s s' : evolves s s' → append_error e s → append_error e s'.
Proof.
  intros Hev [?|(idx&?&?)]; [by left|]. right. exists idx. split; [done|].
  by eapply violation_evolves.
Qed.

(** A program that draws its verdict from a snapshot. *)
Lemma wp_snapshot_verdict {B} h t (f : rows → prog (outcome db_error B)) (res : rows → option Z)
    (R : outcome db_error B → server → Prop) s :
  bounded h t s → (∀ snapshot, verdict snapshot h commands (res snapshot)) →
  (∀ s' e, own_wal i s' = w → ordinary e → R (Err e) s') →
  (∀ s' snapshot, Inv s' → evolves s s' → own_wal i s' = w →
     match res snapshot with
     | None => writing i w h0 commands [] t s'
     | Some idx => violation idx s'
     end → wp spec i (f snapshot) R s') →
  wp spec i (try_bind (call CSnapshot) f) R s.
Proof.
  intros Hb Hres Herr Hok.
  assert (∀ s', rely i s s' → own_wal i s' = w) as Hown.
  { intros s' HR. destruct Hb as ([[_ Hw] _]&_). by rewrite (rely_own_wal _ _ _ HR). }
  apply wp_try, wp_snapshot.
  - intros s1 e He HI1 HR1 s2 HI2 HR2 s3 HI3 HR3. apply Herr; [|done]. apply Hown.
    trans s1; [done|by trans s2].
  - intros s1 HI1 HR1 s2 HI2 HR2.
    assert (rely i s s2) as HR by (by trans s1).
    apply Hok; [done|by eapply rely_evolves|by apply Hown|].
    pose proof (Hres (visible i s1)) as Hv.
    pose proof (bounded_rely h t s s1 HR1 Hb) as Hb1.
    destruct (res (visible i s1)) as [idx|].
    + apply (violation_evolves idx s1); [by eapply rely_evolves|].
      by apply (verdict_violation h t).
    + eapply writing_rely; [done|exact HR2|]. by apply (verdict_clear h).
Qed.

Definition cond_rows : list condRow := rows_from 0 commands.

(** The check of the append procedure. *)
Lemma wp_verify_conditions h t s :
  bounded h t s →
  wp spec i (verify_conditions (appended (cr_idx <$> cond_rows)) (appended (cr_type <$> cond_rows))
               (appended (cr_tags <$> cond_rows)) (appended (cr_after <$> cond_rows)) h)
    (λ r s', match r with
      | Ok _ => writing i w h0 commands [] t s'
      | Err e => own_wal i s' = w ∧ append_error e s'
      | Panic _ => False
      end) s.
Proof.
  intros Hb. unfold verify_conditions. destruct cond_rows as [|row rws] eqn:Erows.
  { intros s' HI HR. apply (verdict_clear h t); [by eapply bounded_rely|].
    pose proof (check_verdict commands (visible i s') h Hvalid Hclean Hlen) as Hv.
    fold cond_rows in Hv. by rewrite Erows in Hv. }
  rewrite <-Erows. rewrite !array_elems_appended. rewrite Erows at 1. cbn [fmap list_fmap appended
    array_nonempty]. case_decide as Hone.
  - rewrite Erows in Hone. cbn in Hone. destruct rws as [|? ?]; [|done].
    apply (wp_snapshot_verdict h t _
      (λ snapshot, if cond_fails snapshot h row then Some (cr_idx row) else None)); [done| | |].
    + intros snapshot. by apply single_verdict.
    + intros s' e Hw He. split; [done|by left].
    + intros s' snapshot HI Hev Hw Hres. rewrite Erows. cbn -[row_satisfies unpack_tags].
      fold (cond_fails snapshot h row).
      destruct (cond_fails snapshot h row); cbn in Hres; intros s'' HI'' HR.
      * split; [by rewrite (rely_own_wal _ _ _ HR)|]. right. exists (cr_idx row). split; [done|].
        eapply violation_evolves; [by eapply rely_evolves|done].
      * by eapply writing_rely.
  - apply wp_try. apply (wp_snapshot_verdict h t _ (λ snapshot,
      select_first ((λ c, Some (cr_idx c)) <$> List.filter (cond_fails snapshot h) cond_rows)));
      [done| | |].
    + intros snapshot. by apply check_verdict.
    + intros s' e Hw He s'' HI'' HR. split; [by rewrite (rely_own_wal _ _ _ HR)|by left].
    + intros s' snapshot HI Hev Hw Hres. rewrite failing_conditions_arrays.
      apply wp_ret. intros s1 HI1 HR1.
      destruct (select_first _) as [idx|]; intros s2 HI2 HR2.
      * split; [by rewrite (rely_own_wal _ _ _ HR2), (rely_own_wal _ _ _ HR1)|].
        right. exists idx. split; [done|].
        eapply violation_evolves; [|done]. trans s1; by eapply rely_evolves.
      * eapply writing_rely; [done|exact HR2|]. by eapply writing_rely.
Qed.

(** ** The stored procedure *)

(** Acquiring the writer's locks at the start of a transaction. *)
Lemma wp_writer_locks s :
  session i empty_tx w s → evolves s0 s →
  wp spec i (acquire (writer_locks commands)) (λ r s', match r with
    | Ok _ => ∃ t, holding t s'
    | Err e => own_wal i s' = w ∧ ordinary e
    | Panic _ => False
    end) s.
Proof.
  intros Hs Hev. eapply wp_mono; [|by apply (wp_acquire spec i empty_tx w)].
  intros [[]|e|msg] s1 HI1 [Hev1 Hr]; [|done|done].
  destruct Hr as (t&Ht&Hempty&Hl). exists t. split_and!; [done|done| |by trans s].
  intros l Hin. apply Hl. by left.
Qed.

(** From the locks to the high-water mark. *)
Lemma wp_high_water_mark {B} (f : option Z → prog (outcome db_error B)) R t s :
  holding t s →
  (∀ s' e, own_wal i s' = w → ordinary e → R (Err e) s') →
  (∀ s' last, Inv s' → evolves s s' → bounded (coalesce_last last) t s' →
     wp spec i (f last) R s') →
  wp spec i (try_bind (call CLastValue) f) R s.
Proof.
  intros Hhold Herr Hok. apply wp_try, wp_last.
  - intros s1 e He HI1 HR1 s2 HI2 HR2 s3 HI3 HR3. apply Herr; [|done].
    rewrite (rely_own_wal _ _ _ HR3), (rely_own_wal _ _ _ HR2), (rely_own_wal _ _ _ HR1).
    apply Hhold.
  - intros s1 HI1 HR1 s2 HI2 HR2. apply Hok; [done|by eapply rely_evolves; trans s1|].
    eapply bounded_rely; [exact HR2|]. apply (holding_bounded t s1); [done|].
    by eapply holding_rely.
Qed.

Lemma writing_currval events t s p :
  writing i w h0 commands events t s → currvals s !! i = Some p → events ≠ [] →
  ∃ ps, StronglySorted Z.lt ps ∧ length ps = length events ∧ pending t = rows_at ps events ∧
    Forall (Z.lt h0) ps ∧ last ps = Some p ∧ p ≤ last_position s.
Proof.
  intros (_&_&_&(ps&?&Hl&?&Hps&Hcur)&_) Hp Hne. exists ps.
  destruct (last ps) as [q|] eqn:Hlast.
  - pose proof (Hcur q eq_refl). assert (q = p) as -> by congruence.
    split_and!; try done.
    + eapply Forall_impl; [exact Hps|]. cbn. lia.
    + rewrite Forall_forall in Hps. destruct (Hps p); [|done].
      by eapply last_Some_elem_of.
  - apply last_None in Hlast as ->. by destruct events.
Qed.

(** The end of both paths: the position of the last row, and a notification. *)
Lemma wp_currval {A} (k : outcome db_error Z → prog A) Q t s :
  all_events commands ≠ [] → writing i w h0 commands (all_events commands) t s →
  (∀ s' e, ordinary e → Inv s' → own_wal i s' = w → wp spec i (k (Err e)) Q s') →
  (∀ s' pos, Inv s' → evolves s s' → writing i w h0 commands (all_events commands) t s' →
     written commands h0 pos (pending t) → wp spec i (k (Ok pos)) Q s') →
  wp spec i (Do CCurrval k) Q s.
Proof.
  intros Hne Hwr Herr Hok.
  assert (∀ s', rely i s s' → own_wal i s' = w) as Hown.
  { intros s' HR. by apply (writing_rely _ _ _ _ _ _ s s' Hvalid HR Hwr). }
  apply wp_cmd; [done|auto|].
  intros s' r s'' HI HR E HI' Hev. pose proof (writing_rely _ _ _ _ _ _ s s' Hvalid HR Hwr) as Hwr'.
  cbn in E. destruct (currvals s' !! i) as [p|] eqn:Hp; injection E as <- <-;
    [|by apply Herr; [| |apply Hown]].
  apply Hok; [done..|].
  destruct (writing_currval (all_events commands) t s' p Hwr' Hp Hne) as (ps&?&?&?&Hps&Hlast&Hle).
  exists ps. split_and!; try done; [|pose proof (last_position_range s' HI); lia].
  rewrite Forall_forall in Hps. pose proof (Hps p ltac:(by eapply last_Some_elem_of)).
  rewrite Hh0 in *. pose proof (last_position_nonneg s0 HI0). lia.
Qed.

Lemma wp_writing_notify {A} ch pl (k : outcome db_error unit → prog A) Q events t s :
  writing i w h0 commands events t s →
  (∀ s' e, ordinary e → Inv s' → own_wal i s' = w → wp spec i (k (Err e)) Q s') →
  (∀ s' t', Inv s' → evolves s s' → pending t' = pending t →
     writing i w h0 commands events t' s' → wp spec i (k (Ok ())) Q s') →
  wp spec i (Do (CNotify ch pl) k) Q s.
Proof.
  intros Hwr Herr Hok. apply wp_cmd; [done| |].
  - intros s' e HI HR _ He. apply Herr; [done|done|].
    by apply (writing_rely _ _ _ _ _ _ s s' Hvalid HR Hwr).
  - intros s' r s'' HI HR E HI' Hev.
    destruct (writing_rely _ _ _ _ _ _ s s' Hvalid HR Hwr) as ([Ht Hw]&Hl&Hh&Hins&Hclear).
    cbn in E. rewrite Ht in E. injection E as <- <-.
    apply (Hok _ (mkTx (pending t) (locks t) (notes t ++ [(ch, pl)])));
      [done|done| |split_and!; [|exact Hl|exact Hh|unfold inserted; exact Hins|exact Hclear]]; [done|].
    split; [apply lookup_insert_eq|done].
Qed.

(** What is written may be committed. *)
Lemma writing_legal t pos s :
  writing i w h0 commands (all_events commands) t s → written commands h0 pos (pending t) →
  ∀ s', Inv s' → rely i s s' → spec i (table s') (pending t).
Proof.
  intros Hwr (ps&?&?&?&_) s' HI HR. apply Hspec.
  destruct (writing_rely _ _ _ _ _ _ s s' Hvalid HR Hwr) as (_&_&_&_&Hclear).
  split; [done|]. by exists ps.
Qed.

(** The procedure's insertion is that of the events, if their tags survive
    packing. *)
Lemma insert_subscripts_copy (all_ l : list Event) k :
  Forall (λ ev, tags_clean (Event_Tags ev)) l → drop k all_ = l →
  insert_subscripts (seq k (length l)) (Type_ <$> all_)
    ((λ ev, Join (Values (Event_Tags ev)) tagDelimiter) <$> all_) (serializePayload <$> all_) =
  copy_rows l.
Proof.
  intros Hl. revert k. induction Hl as [|ev l Hev Hl IH]; intros k Hdrop; [done|].
  assert (all_ !! k = Some ev) as Hk.
  { pose proof (lookup_drop all_ k 0) as Hd. rewrite Hdrop, Nat.add_0_r in Hd. done. }
  cbn [seq length insert_subscripts copy_rows]. rewrite !list_lookup_fmap, Hk. cbn.
  rewrite string_to_array_Values by done. rewrite (IH (S k)); [done|].
  by rewrite <-(drop_drop all_ 1 k), Nat.add_1_r in Hdrop || (rewrite <-Nat.add_1_r, <-drop_drop, Hdrop).
Qed.

Hypothesis Hevents : Forall (λ ev, tags_clean (Event_Tags ev)) (all_events commands).
Hypothesis Hne : all_events commands ≠ [].

Lemma keys_nonempty :
  array_nonempty (Some (leafX (commandKeys commands))) ||
  array_nonempty (Some (intentS (commandKeys commands))) = true.
Proof.
  destruct (all_events commands) as [|ev l] eqn:E; [done|].
  destruct (event_intent_commandKeys commands ev) as [_ Hg]; [rewrite E; by left|].
  destruct (intentS (commandKeys commands)) as [|k ks]; [by apply elem_of_nil in Hg|].
  cbn. apply orb_true_r.
Qed.

(** The error post of a procedure is stable. *)
Lemma error_rely e s s' : rely i s s' →
  own_wal i s = w ∧ append_error e s → own_wal i s' = w ∧ append_error e s'.
Proof.
  intros HR [Hw He]. split; [by rewrite (rely_own_wal _ _ _ HR)|].
  eapply append_error_evolves; [by eapply rely_evolves|done].
Qed.

(** The procedure after its insertion. *)
Lemma events_append_end ch t s :
  writing i w h0 commands (all_events commands) t s →
  wp spec i (v_pos ←! call CCurrval; call (CNotify ch (FormatInt v_pos)) ;;! Ret (Ok v_pos))
    (λ r s2, match r with
      | Ok pos => ∃ t, session i t w s2 ∧ written commands h0 pos (pending t) ∧
          ∀ s', Inv s' → rely i s2 s' → spec i (table s') (pending t)
      | Err e => own_wal i s2 = w ∧ append_error e s2
      | Panic _ => False
      end) s.
Proof.
  intros Hwr.
  assert (∀ e s1 s', ordinary e → rely i s1 s' → own_wal i s1 = w →
    own_wal i s' = w ∧ append_error e s') as Herr.
  { intros e s1 s' He HR Hw. eapply error_rely; [done|]. split; [done|by left]. }
  apply wp_try, (wp_currval _ _ t); [done|done| |].
  { intros s1 e He HI1 Hw s2 HI2 HR2 s3 HI3 HR3. by apply (Herr e s1); [|trans s2|]. }
  intros s1 pos HI1 Hev1 Hwr1 Hwritten s2 HI2 HR2.
  apply wp_try, (wp_writing_notify _ _ _ _ (all_events commands) t); [by eapply writing_rely| |].
  { intros s3 e He HI3 Hw s4 HI4 HR4 s5 HI5 HR5. by apply (Herr e s3); [|trans s4|]. }
  intros s3 t3 HI3 Hev3 Hp3 Hwr3 s4 HI4 HR4 s5 HI5 HR5.
  assert (writing i w h0 commands (all_events commands) t3 s5) as Hwr5
    by (eapply writing_rely; [done|by trans s4|done]).
  exists t3. rewrite <-Hp3 in Hwritten. split_and!; [apply Hwr5|done|].
  by apply (writing_legal t3 pos).
Qed.

Lemma events_append_wp ch s :
  let evs := serializeEvents commands in
  session i empty_tx w s → evolves s0 s →
  wp spec i (events_append ch (Some (leafX (commandKeys commands)))
               (Some (intentS (commandKeys commands)))
               (appended (ea_types evs)) (appended (ea_tags evs)) (appended (ea_payloads evs))
               (appended (cr_idx <$> cond_rows)) (appended (cr_type <$> cond_rows))
               (appended (cr_tags <$> cond_rows)) (appended (cr_after <$> cond_rows)))
    (λ r s2, match r with
      | Ok pos => ∃ t, session i t w s2 ∧ written commands h0 pos (pending t) ∧
          ∀ s', Inv s' → rely i s2 s' → spec i (table s') (pending t)
      | Err e => own_wal i s2 = w ∧ append_error e s2
      | Panic _ => False
      end) s.
Proof.
  intros evs Hs Hev. unfold events_append, evs. rewrite serializeEvents_all.
  cbn [ea_types ea_tags ea_payloads]. rewrite !array_elems_appended.
  rewrite length_fmap, insert_subscripts_copy by done.
  fold (writer_locks commands). rewrite keys_nonempty.
  apply wp_try. eapply wp_mono; [|by apply wp_writer_locks].
  intros [[]|e|msg] s1 HI1 Hr; [| |done].
  2: { intros s' HI' HR. eapply error_rely; [done|]. split; [apply Hr|by left; apply Hr]. }
  destruct Hr as [t Hhold].
  apply (wp_high_water_mark _ _ t); [done|by intros; split; [|left]|].
  intros s2 last HI2 Hev2 Hb. apply wp_try.
  eapply wp_mono; [|by apply (wp_verify_conditions _ t)].
  intros [[]|e|msg] s3 HI3 Hr; [| |done].
  2: { intros s' HI' HR. by eapply error_rely. }
  apply wp_try. eapply wp_mono; [|by apply (wp_copy_rows [] (all_events commands) t)].
  intros [[]|e|msg] s4 HI4 Hr4; [| |done].
  2: { intros s' HI' HR. eapply error_rely; [done|]. split; [apply Hr4|by left; apply Hr4]. }
  cbn [app] in Hr4. destruct Hr4 as [t4 Hwr4].
  by apply (events_append_end ch t4).
Qed.

(** ** The function path *)

Hypothesis Hfit : Forall after_fits commands.

(** What a call of [Append] leaves behind; [has] says what the session has
    committed. *)
Definition result_post (has : list (nat * rows) → server → Prop)
    (r : outcome store_error SequencePosition) (s : server) : Prop :=
  match r with
  | Ok pos => ∃ new, has (w ++ [(i, new)]) s ∧ written commands h0 (value pos) new
  | Err e =>
      (∃ j c cmd, e = violation_error commands j c ∧ commands !! j = Some cmd ∧
         Condition cmd = Some c ∧ violation (Z.of_nat j) s ∧ has w s) ∨
      (∃ msg, e = EDatabase msg ∧
         (has w s ∨ ∃ new pos, has (w ++ [(i, new)]) s ∧ written commands h0 pos new))
  | Panic _ => False
  end.

Definition append_post := result_post (idle i).

Lemma violation_command idx s : violation idx s →
  ∃ j c cmd, idx = Z.of_nat j ∧ commands !! j = Some cmd ∧ Condition cmd = Some c ∧
    in_i64 idx ∧ conditionError commands idx = Err (violation_error commands j c).
Proof.
  intros (tbl&h&(j&cmd&->&Hj&(c&p&r&Hc&_)&_)&_). pose proof (lookup_lt_Some _ _ _ Hj).
  exists j, c, cmd. split_and!; [done..| |by eapply conditionError_ok].
  unfold in_i64, two63. lia.
Qed.

Section has.
Context (has : list (nat * rows) → server → Prop).

Lemma post_violation idx s : violation idx s → has w s →
  result_post has (conditionError commands idx) s.
Proof.
  intros Hv Hi. destruct (violation_command idx s Hv) as (j&c&cmd&->&Hj&Hc&_&->).
  left. by exists j, c, cmd.
Qed.

Lemma post_Ok pos new s :
  written commands h0 pos new → has (w ++ [(i, new)]) s →
  result_post has (int64ToPosition pos) s.
Proof.
  intros Hw Hi. pose proof Hw as (ps&_&_&_&_&_&Hrange).
  rewrite int64ToPosition_nonneg by lia. by exists new.
Qed.

Lemma post_database err s :
  (has w s ∨ ∃ new pos, has (w ++ [(i, new)]) s ∧ written commands h0 pos new) →
  result_post has (Err (db_store_error err)) s.
Proof. intros H. right. destruct err as [m|m]; by exists m. Qed.

Lemma post_evolves (has' : list (nat * rows) → server → Prop) r s s' :
  evolves s s' → (∀ w, has w s → has' w s') → result_post has r s → result_post has' r s'.
Proof.
  intros Hev Hhas. destruct r as [pos|e|msg]; [| |done].
  - intros (new&?&?). exists new. eauto.
  - intros [(j&c&cmd&?&?&?&?&?)|(msg&?&Hi)]; [left|right].
    + exists j, c, cmd. split_and!; [done..|by eapply violation_evolves|auto].
    + exists msg. split; [done|]. destruct Hi as [?|(new&pos&?&?)]; [left; auto|right].
      exists new, pos. auto.
Qed.
End has.

Lemma append_post_rely r s s' : rely i s s' → append_post r s → append_post r s'.
Proof.
  intros HR. apply post_evolves; [by eapply rely_evolves|]. intros w'. by eapply idle_rely.
Qed.

Lemma appendViaFunction_wp st s :
  idle i w s → evolves s0 s →
  wp spec i (appendViaFunction st commands (commandKeys commands)) append_post s.
Proof.
  intros Hidle Hev. unfold appendViaFunction. rewrite serializeConditions_rows by done.
  fold cond_rows. apply wp_try. intros s1 HI1 HR1. apply wp_bind. cbn [arrays_of ca_idxs ca_types
    ca_tags ca_after].
  eapply wp_mono; [|apply (wp_statement spec i w (λ pos new _, written commands h0 pos new)
    append_error); [done|by intros; eapply append_error_evolves|by eapply idle_rely|]].
  2: { intros s2 HI2 Hev2 Hs2. apply events_append_wp; [done|].
       trans s; [done|]. trans s1; [by eapply rely_evolves|done]. }
  intros [pos|e|msg] s2 HI2 Hr; [| |done].
  - destruct Hr as (new&Hi&Hw). intros s3 HI3 HR3. eapply post_Ok; [done|].
    by eapply idle_rely.
  - assert ((∃ idx, e = PgError (violation_message idx) ∧ violation idx s2 ∧ idle i w s2) ∨
      (ordinary e ∧ (idle i w s2 ∨
         ∃ new pos, idle i (w ++ [(i, new)]) s2 ∧ written commands h0 pos new)))
      as [(idx&->&Hv&Hi)|[He Hi]].
    { destruct Hr as [[Hi [He|(idx&->&Hv)]]|[He [Hi|(pos&new&Hi)]]]; [right|left|right..]; eauto 6. }
    + destruct (violation_command idx s2 Hv) as (j&c&cmd&_&_&_&Hidx&_).
      rewrite parseConditionViolation_message by done. intros s3 HI3 HR3.
      eapply append_post_rely; [done|]. by apply post_violation.
    + unfold ordinary in He. rewrite He. intros s3 HI3 HR3.
      eapply append_post_rely; [done|]. by apply post_database.
Qed.

(** ** The COPY path *)

Lemma wp_db {A B} (m : prog (outcome db_error A)) (f : A → prog (outcome store_error B)) Q s :
  wp spec i m (λ r s', match r with
    | Ok a => wp spec i (f a) Q s'
    | Err e => ∀ s'', Inv s'' → rely i s' s'' → Q (Err (db_store_error e)) s''
    | Panic msg => ∀ s'', Inv s'' → rely i s' s'' → Q (Panic msg) s''
    end) s →
  wp spec i (try_bind (db m) f) Q s.
Proof.
  intros H. apply wp_try. unfold db. apply wp_bind. eapply wp_mono; [|exact H].
  intros [a|e|msg] s1 HI1 Hr s2 HI2 HR2; [by eapply wp_rely| |].
  - intros s3 HI3 HR3. apply Hr; [done|by trans s2].
  - intros s3 HI3 HR3. apply Hr; [done|by trans s2].
Qed.

(** The client's own check before it copies. *)
Lemma wp_checkConditions h t s :
  bounded h t s →
  wp spec i (checkConditions commands h) (λ r s', match r with
    | Ok None => writing i w h0 commands [] t s'
    | Ok (Some idx) => own_wal i s' = w ∧ violation idx s'
    | Err e => own_wal i s' = w ∧ ∃ err, e = db_store_error err
    | Panic _ => False
    end) s.
Proof.
  intros Hb. unfold checkConditions. rewrite serializeConditions_rows by done. fold cond_rows.
  apply wp_try. intros s1 HI1 HR1. cbn [arrays_of ca_idxs ca_types ca_tags ca_after].
  rewrite length_fmap. case_decide as Hlen0.
  { intros s2 HI2 HR2. apply (verdict_clear h t); [by eapply bounded_rely; [trans s1|]|].
    pose proof (check_verdict commands (visible i s2) h Hvalid Hclean Hlen) as Hv.
    fold cond_rows in Hv. apply length_zero_iff_nil in Hlen0. by rewrite Hlen0 in Hv. }
  unfold db. apply wp_bind. apply (wp_snapshot_verdict h t _ (λ snapshot,
      select_first ((λ c, Some (cr_idx c)) <$> List.filter (cond_fails snapshot h) cond_rows)));
    [by eapply bounded_rely| | |].
  - intros snapshot. by apply check_verdict.
  - intros s' e Hw He s'' HI'' HR. cbn. split; [by rewrite (rely_own_wal _ _ _ HR)|by exists e].
  - intros s' snapshot HI Hev Hw Hres. rewrite failing_conditions_arrays.
    intros s2 HI2 HR2 s3 HI3 HR3. cbn. assert (rely i s' s3) as HR by (by trans s2).
    destruct (select_first _) as [idx|].
    + split; [by rewrite (rely_own_wal _ _ _ HR)|].
      eapply violation_evolves; [by eapply rely_evolves|done].
    + by eapply writing_rely.
Qed.

(** What the explicit transaction has done when it is rolled back. *)
Definition copy_post := result_post (λ w s, own_wal i s = w).

Lemma copy_error e s : own_wal i s = w →
  ∀ s', Inv s' → rely i s s' → copy_post (Err (db_store_error e)) s'.
Proof.
  intros Hw s' _ HR. apply post_database. left. by rewrite (rely_own_wal _ _ _ HR).
Qed.

(** Committing, and the reply that may be lost. *)
Lemma wp_copy_commit t pos s :
  writing i w h0 commands (all_events commands) t s → written commands h0 pos (pending t) →
  wp spec i (db (call CCommit) ;;! db (call CReply) ;;! lift (int64ToPosition pos)) copy_post s.
Proof.
  intros Hwr Hw. apply wp_db, (wp_commit spec i t w); [apply Hwr|by eapply writing_legal| |].
  { intros s1 e He HI1 _ [_ Hw1] s2 HI2 HR2. apply copy_error.
    by rewrite (rely_own_wal _ _ _ HR2). }
  intros s1 HI1 Hev1 [_ Hw1] s2 HI2 HR2. apply wp_db, wp_reply.
  { intros s3 e He HI3 HR3 s4 HI4 HR4 s5 HI5 HR5. apply post_database. right.
    exists (pending t), pos. split; [|done]. by rewrite (rely_own_wal _ _ _ HR5), (rely_own_wal _ _ _ HR4),
      (rely_own_wal _ _ _ HR3), (rely_own_wal _ _ _ HR2). }
  intros s3 HI3 HR3 s4 HI4 HR4 s5 HI5 HR5. eapply post_Ok; [done|].
  by rewrite (rely_own_wal _ _ _ HR5), (rely_own_wal _ _ _ HR4), (rely_own_wal _ _ _ HR3),
    (rely_own_wal _ _ _ HR2).
Qed.

(** Copying the events, up to the end of the transaction. *)
Lemma wp_copy_events st t s :
  writing i w h0 commands [] t s →
  wp spec i (db (copy_rows (mjoin (Events <$> commands))) ;;!
    pos ←! db (call CCurrval);
    db (call (CNotify (notifyChannel st) (FormatInt pos))) ;;!
    db (call CCommit) ;;! db (call CReply) ;;! lift (int64ToPosition pos)) copy_post s.
Proof.
  intros Hwr. apply wp_db. fold (all_events commands).
  eapply wp_mono; [|by apply (wp_copy_rows [] (all_events commands) t)].
  intros [[]|e|msg] s1 HI1 Hr; [|by apply copy_error, Hr|done].
  cbn [app] in Hr. destruct Hr as [t1 Hwr1].
  apply wp_db, (wp_currval _ _ t1); [done|done| |].
  { intros s2 e He HI2 Hw2 s3 HI3 HR3. apply copy_error.
    by rewrite (rely_own_wal _ _ _ HR3). }
  intros s2 pos HI2 Hev2 Hwr2 Hwritten s3 HI3 HR3.
  apply wp_db, (wp_writing_notify _ _ _ _ (all_events commands) t1); [by eapply writing_rely| |].
  { intros s4 e He HI4 Hw4 s5 HI5 HR5. apply copy_error.
    by rewrite (rely_own_wal _ _ _ HR5). }
  intros s4 t4 HI4 Hev4 Hp4 Hwr4 s5 HI5 HR5.
  apply (wp_copy_commit t4); [by eapply writing_rely|by rewrite Hp4].
Qed.

Lemma copy_transaction_wp st s :
  session i empty_tx w s → evolves s0 s →
  wp spec i (copy_transaction st commands (commandKeys commands)) copy_post s.
Proof.
  intros Hs Hev. unfold copy_transaction, acquireWriterLocksSQL. fold (writer_locks commands).
  apply wp_db. eapply wp_mono; [|by apply wp_writer_locks].
  intros [[]|e|msg] s1 HI1 Hr; [|by apply copy_error, Hr|done].
  destruct Hr as [t Hhold]. apply wp_db, wp_last.
  { intros s2 e He HI2 HR2 s3 HI3 HR3. apply copy_error.
    rewrite (rely_own_wal _ _ _ HR3), (rely_own_wal _ _ _ HR2). apply Hhold. }
  intros s2 HI2 HR2 s3 HI3 HR3. apply wp_try.
  eapply wp_mono; [|apply (wp_checkConditions _ t)].
  2: { eapply bounded_rely; [exact HR3|]. apply (holding_bounded t s2); [done|].
       by eapply holding_rely. }
  intros [[idx|]|e|msg] s4 HI4 Hr; [| | |done].
  - intros s5 HI5 HR5. destruct Hr as [Hw Hv]. apply post_violation.
    + eapply violation_evolves; [by eapply rely_evolves|done].
    + by rewrite (rely_own_wal _ _ _ HR5).
  - by apply (wp_copy_events st t).
  - destruct Hr as [Hw [err ->]]. exact (copy_error err s4 Hw).
Qed.

Lemma appendViaCopy_wp st s :
  idle i w s → evolves s0 s →
  wp spec i (appendViaCopy st commands (commandKeys commands)) append_post s.
Proof.
  intros Hidle Hev. apply wp_db, (wp_begin spec i w); [done| |].
  { intros s1 e He HI1 Hev1 Hi1 s2 HI2 HR2 s3 HI3 HR3. apply post_database. left.
    eapply idle_rely; [|done]. by trans s2. }
  intros s1 HI1 Hev1 Hs1 s2 HI2 HR2. apply wp_bind.
  eapply wp_mono; [|apply (copy_transaction_wp st s2); [by eapply session_rely|]].
  2: { trans s; [done|]. trans s1; [done|by eapply rely_evolves]. }
  intros r s3 HI3 Hr. apply (wp_rollback spec i (own_wal i s3)); [done|].
  intros s4 r' HI4 Hev4 Hi4. apply wp_ret. intros s5 HI5 HR5.
  eapply post_evolves; [trans s4; [exact Hev4|by eapply rely_evolves]| |exact Hr].
  intros w' <-. by eapply idle_rely.
Qed.
End append.

(** ** The whole call *)

Lemma validate_all_spec commands :
  (validate_all commands = Ok () ∧ conditions_valid commands) ∨
  (∃ e cmd c, validate_all commands = Err (ECondition e) ∧ cmd ∈ commands ∧
     Condition cmd = Some c ∧ ValidateAppendCondition c = Err e).
Proof.
  induction commands as [|cmd commands IH]; cbn; [by left; split; [|constructor]|].
  destruct IH as [[-> Hv]|(e&cmd'&c'&->&?&?&?)].
  - destruct (Condition cmd) as [c|] eqn:Hc.
    + pose proof (ValidateAppendCondition_no_panic c) as Hp.
      destruct (ValidateAppendCondition c) as [[]|e|msg] eqn:E; [left| |by destruct (Hp msg)].
      * split; [done|]. constructor; [|done]. intros c' Hc'. simplify_eq.
        by apply ValidateAppendCondition_Ok.
      * right. exists e, cmd, c. split_and!; [done|by left|done|done].
    + left. split; [done|]. constructor; [|done]. intros c' Hc'. congruence.
  - right. destruct (Condition cmd) as [c|] eqn:Hc.
    + pose proof (ValidateAppendCondition_no_panic c) as Hp.
      destruct (ValidateAppendCondition c) as [[]|e'|msg] eqn:E; [| |by destruct (Hp msg)].
      * exists e, cmd', c'. split_and!; [done|by right|done|done].
      * exists e', cmd, c. split_and!; [done|by left|done|done].
    + exists e, cmd', c'. split_and!; [done|by right|done|done].
Qed.

Lemma totalEvents_length commands :
  totalEvents commands = Z.of_nat (length (all_events commands)).
Proof.
  unfold totalEvents, all_events.
  assert (∀ n, foldl (λ n cmd, n + Z.of_nat (length (Events cmd))) n commands =
    n + Z.of_nat (length (mjoin (Events <$> commands)))) as H.
  { induction commands as [|cmd l IH]; intros n; cbn; [lia|].
    rewrite IH, length_app, Nat2Z.inj_add. symmetry. apply Z.add_assoc. }
  by rewrite H.
Qed.

(** Commands that fit the representation of the database. *)
Record representable (commands : list AppendCommand) : Prop := {
  rep_conditions : Forall condition_clean commands;
  rep_events : Forall (λ ev, tags_clean (Event_Tags ev)) (all_events commands);
  rep_after : Forall after_fits commands;
  rep_length : Z.of_nat (length commands) ≤ 2147483648;
}.

(** The outcomes of a call, with what the session has committed then. *)
Definition append_outcome (i : nat) (w : list (nat * rows)) (commands : list AppendCommand)
    (s0 : server) (r : outcome store_error SequencePosition) (s : server) : Prop :=
  (∃ e cmd c, r = Err (ECondition e) ∧ cmd ∈ commands ∧ Condition cmd = Some c ∧
     ValidateAppendCondition c = Err e ∧ idle i w s) ∨
  (conditions_valid commands ∧
   ((r = Err EZeroEvents ∧ all_events commands = [] ∧ idle i w s) ∨
    (all_events commands ≠ [] ∧ append_post i w commands (last_position s0) s0 r s))).

Lemma Append_wp spec i w commands st s :
  (∀ tbl new, conditions_valid commands → legal commands tbl new → spec i tbl new) →
  representable commands → Inv s → idle i w s →
  wp spec i (Append st commands) (append_outcome i w commands s) s.
Proof.
  intros Hspec [Hcond Hev Hafter Hlen] HI Hidle. unfold Append, lift.
  apply wp_try. intros s1 HI1 HR1.
  destruct (validate_all_spec commands) as [[-> Hvalid]|(e&cmd&c&->&Hcmd&Hc&He)].
  2: { intros s2 HI2 HR2. left. exists e, cmd, c. split_and!; try done.
       eapply idle_rely; [|done]. by trans s1. }
  rewrite totalEvents_length. case_decide as Hn.
  { intros s2 HI2 HR2. right. split; [done|]. left.
    split_and!; [done|apply length_zero_iff_nil; lia|eapply idle_rely; [by trans s1|done]]. }
  assert (all_events commands ≠ []) as Hne by (intros E; rewrite E in Hn; done).
  assert (idle i w s1) as Hidle1 by (by eapply idle_rely).
  case_decide; (eapply wp_mono; [intros r s2 HI2 Hr; right; split; [done|right; split; [done|exact Hr]]|]).
  - apply appendViaFunction_wp; auto. by eapply rely_evolves.
  - apply appendViaCopy_wp; auto. by eapply rely_evolves.
Qed.
