(* ===== verification/PgConcurrency.v ===== *)
(** * PgConcurrency

    Any number of clients of the Postgres store at once: each session runs one
    call of [Append], one read barrier or one [Read], their commands interleave
    freely, and any command can fail.  What holds of every reachable configuration:

    - the commits, in the order in which they happen, are a serial execution of
      the abstract store ([commits_serializable]);
    - a finished call reports truthfully what it committed
      ([append_outcomes]);
    - the high-water mark of a finished barrier is a stable bound for reads of
      its query ([read_barrier_complete]);
    - a finished read has what was there when it started, and no later event
      appears before its mark ([read_complete]). *)

From S2P Require Import Prelude.
From S2P Require Import SequencePosition.
From S2P Require Import Tags.
From S2P Require Import EventStore.
From S2P Require Import Matching.
From S2P Require Import StoreSpec.
From S2P Require Import LockKeys.
From S2P Require Import Serialize.
From S2P Require Import PgServer.
From S2P Require Import ReadSQL.
From S2P Require Import PgProcedures.
From S2P Require Import PgStore.
From S2P Require Import PgConditions.
From S2P Require Import Cursor.
From S2P Require Import PgLogic.
From S2P Require Import PgRules.
From S2P Require Import PgBarrier.
From S2P Require Import PgRead.
From S2P Require Import PgSubscribe.
From S2P Require Import PgAppend.

Local Open Scope Z_scope.

(** ** Clients

    The transaction of a read's iterator ends some time after [Read] returns,
    when the iterator is closed.  A subscriber calls [Next] up to [n] times,
    for as long as it returns true. *)

Inductive task :=
  | TAppend (commands : list AppendCommand)
  | TBarrier (q : Query)
  | TRead (q : Query) (opts : ReadOptions) (fetches : list (option db_error))
  | TSubscribe (acquire listen : option db_error) (q : Query) (opts : SubscribeOptions)
      (n : nat) (env : list turn).

Inductive result :=
  | RAppend (r : outcome store_error SequencePosition)
  | RBarrier (r : outcome store_error Z)
  | RRead (r : outcome store_error cursorIterator)
  | RSubscribe (r : outcome store_error (list SequencedEvent * subscribeIterator * bool)).

Definition program (st : Store) (t : task) : prog result :=
  match t with
  | TAppend commands => r ← Append st commands; Ret (RAppend r)
  | TBarrier q => r ← barrierSnapshot q; Ret (RBarrier r)
  | TRead q opts fetches =>
      r ← Read st fetches q opts;
      match r with
      | Ok it => Do CRollback (λ _, Ret (RRead (Ok it)))
      | r => Ret (RRead r)
      end
  | TSubscribe acquire listen q opts n env =>
      match (Subscribe st acquire listen q opts).2 with
      | Ok it => r ← consume st n env it []; Ret (RSubscribe r)
      | Err err => Ret (RSubscribe (Err err))
      | Panic msg => Ret (RSubscribe (Panic msg))
      end
  end.

Definition task_ok (t : task) : Prop :=
  match t with
  | TAppend commands => representable commands
  | TBarrier _ => True
  | TRead _ opts _ => after_fits_opts opts
  | TSubscribe _ _ q opts _ _ => query_wf q ∧ 0 ≤ start_of opts < two63
  end.

(** A server without open transactions, on which the sessions of [tasks] have
    not committed anything yet. *)
Record quiescent (tasks : gmap nat task) (s : server) : Prop := {
  quiescent_inv : Inv s;
  quiescent_txs : txs s = ∅;
  quiescent_wal i new : (i, new) ∈ wal s → tasks !! i = None;
  quiescent_fresh h1 i new h2 : wal s = h1 ++ (i, new) :: h2 → new ##ₘ replay h1;
}.

Section system.
Context (st : Store) (tasks : gmap nat task) (s0 : server).
Hypothesis Htasks : map_Forall (λ _, task_ok) tasks.
Hypothesis Hquiet : quiescent tasks s0.

Definition initial : config result := (s0, program st <$> tasks).

(** What a session of [tasks] commits. *)
Definition task_spec (i : nat) (tbl new : rows) : Prop :=
  match tasks !! i with
  | Some (TAppend commands) => conditions_valid commands ∧ legal commands tbl new
  | Some (TBarrier _) | Some (TRead _ _ _) | Some (TSubscribe _ _ _ _ _ _) => new = ∅
  | None => (i, new) ∈ wal s0
  end.

(** What a session has established when it is done. *)
Definition task_post (i : nat) (r : result) (s : server) : Prop :=
  match tasks !! i, r with
  | Some (TAppend commands), RAppend r => append_outcome i [] commands s0 r s
  | Some (TBarrier q), RBarrier r =>
      match r with
      | Ok h => idle i [(i, ∅)] s ∧ settled q h s
      | Err e => ∃ msg, e = EDatabase msg
      | Panic _ => False
      end
  | Some (TRead q opts fetches), RRead r =>
      match r with
      | Ok it => txs s !! i = None ∧ ∃ h snapshot, read_done q opts fetches s0 s h snapshot it
      | Err e => ∃ msg, e = EDatabase msg
      | Panic _ => False
      end
  | Some (TSubscribe acquire listen q opts n env), RSubscribe r =>
      match r with
      | Ok (dl, it, _) => sub_inv q (start_of opts) dl it s ∧
          (length dl = n ∨ pending_events it = []) ∧
          (∀ t env', env = t :: env' → ended_at_head t = false → ended_in_drain t = false →
             consumer_progress q (start_of opts) n s0 r)
      | Err e => is_Some acquire ∨ is_Some listen
      | Panic _ => False
      end
  | _, _ => False
  end.

Lemma initial_idle i t : tasks !! i = Some t → idle i [] s0.
Proof.
  intros Ht. split; [by rewrite (quiescent_txs _ _ Hquiet), lookup_empty|].
  apply filter_none. intros [j new] Hin Hj. cbn in Hj. subst j.
  apply (quiescent_wal _ _ Hquiet) in Hin. congruence.
Qed.

Lemma append_outcome_rely i w commands s1 r s s' : rely i s s' →
  append_outcome i w commands s1 r s → append_outcome i w commands s1 r s'.
Proof.
  intros HR [(e&cmd&c&->&?&?&?&?)|[Hv [(->&?&?)|[Hne Hp]]]].
  - left. exists e, cmd, c. split_and!; try done. by eapply idle_rely.
  - right. split; [done|]. left. split_and!; [done..|by eapply idle_rely].
  - right. split; [done|]. right. split; [done|]. by eapply append_post_rely.
Qed.

Lemma subscriber_ok i acquire listen q opts n env :
  tasks !! i = Some (TSubscribe acquire listen q opts n env) →
  query_wf q → 0 ≤ start_of opts < two63 →
  wp task_spec i (program st (TSubscribe acquire listen q opts n env)) (task_post i) s0.
Proof.
  intros Ht Hwf Hstart. cbn [program].
  assert (∀ tbl, task_spec i tbl ∅) as Hspec by (intros tbl; unfold task_spec; by rewrite Ht).
  assert (txs s0 !! i = None) as Hn by apply (initial_idle i _ Ht).
  assert (Inv s0) as HI by apply Hquiet.
  destruct (Subscribe st acquire listen q opts) as [calls [it|e|msg]] eqn:Hsub; cbn [snd].
  - destruct (Subscribe_inv _ _ _ _ _ _ _ s0 Hsub Hstart) as (Hinv&Hp&He). apply wp_bind.
    assert (wp task_spec i (consume st n env it []) (λ r _, ∀ t env', env = t :: env' →
      ended_at_head t = false → ended_in_drain t = false →
      consumer_progress q (start_of opts) n s0 r) s0) as Hprogress.
    { destruct env as [|t env].
      { eapply wp_mono; [|by apply (consume_wp task_spec i st q (start_of opts))]. done. }
      destruct (decide (ended_at_head t = false ∧ ended_in_drain t = false)) as [[Hh Hd]|Hno].
      - eapply wp_mono; [|by apply (consume_progress task_spec i st q (start_of opts) Hspec Hwf)].
        by intros r s1 _ Hr ? ? [= <- <-].
      - eapply wp_mono; [|by apply (consume_wp task_spec i st q (start_of opts))].
        intros r s1 _ _ ? ? [= <- <-] ? ?. by destruct Hno. }
    eapply wp_mono; [|apply wp_and; [|exact Hprogress];
      by apply (consume_wp task_spec i st q (start_of opts))].
    intros [[[dl it'] b]|e|msg] s1 HI1 [Hr Hpr]; [|done..]. destruct Hr as (Hinv'&_&_&Hlen).
    intros s2 HI2 HR2. unfold task_post. rewrite Ht. split_and!; [|done|done].
    apply (sub_inv_evolves _ _ _ _ s1 s2); [done|done|by eapply rely_evolves|done].
  - intros s1 HI1 HR1. unfold task_post. rewrite Ht. unfold Subscribe in Hsub.
    destruct acquire; [by left|]. destruct listen; [by right|done].
  - unfold Subscribe in Hsub. by destruct acquire, listen.
Qed.

Lemma initial_ok : config_ok task_spec task_post initial.
Proof.
  split_and!; [apply Hquiet| |].
  - intros h1 i new h2 E. cbn in E. split; [|by eapply (quiescent_fresh _ _ Hquiet)].
    assert ((i, new) ∈ wal s0) as Hin by (rewrite E; apply elem_of_app; right; by left).
    unfold task_spec. by rewrite (quiescent_wal _ _ Hquiet i new).
  - cbn. intros i p Hi. apply lookup_fmap_Some in Hi as (t&<-&Ht).
    pose proof (Htasks i t Ht) as Hok. pose proof (initial_idle i t Ht) as Hidle.
    destruct t as [commands|q|q opts fetches|acquire listen q opts n env]; cbn [program].
    + apply wp_bind. eapply wp_mono; [|apply (Append_wp task_spec i [] commands st s0)];
        [|intros tbl new ? ?; unfold task_spec; by rewrite Ht|done|apply Hquiet|done].
      intros r s1 HI1 Hr s2 HI2 HR2. unfold task_post. rewrite Ht. by eapply append_outcome_rely.
    + apply wp_bind. eapply wp_mono; [|apply (barrierSnapshot_wp task_spec i [] q)];
        [|intros tbl; unfold task_spec; by rewrite Ht|done].
      intros r s1 HI1 Hr s2 HI2 HR2. unfold task_post. rewrite Ht.
      destruct r as [h|e|msg]; [|done|done]. destruct Hr as (Hi&Hset&_).
      split; [by eapply idle_rely|]. eapply settled_evolves; [done|by eapply rely_evolves|done].
    + apply wp_bind. eapply wp_mono; [|apply (Read_wp task_spec i [] st fetches q opts)];
        [|intros tbl; unfold task_spec; by rewrite Ht|done|apply Hquiet|done].
      intros r s1 HI1 Hr. destruct r as [it|e|msg]; [|destruct Hr as [msg ->]|done].
      * destruct Hr as ([_ Hw]&h&snapshot&Hdone). eapply (wp_rollback task_spec i); [done|].
        intros s2 r HI2 Hev2 [Hn _] s3 HI3 HR3. unfold task_post. rewrite Ht.
        split; [by rewrite (rely_tx _ _ _ HR3)|]. exists h, snapshot.
        apply (read_done_evolves _ _ _ _ s1); [done|done| |done].
        trans s2; [done|by eapply rely_evolves].
      * intros s2 HI2 HR2. unfold task_post. rewrite Ht. by exists msg.
    + destruct Hok as [Hwf Hstart]. by apply subscriber_ok.
Qed.

Lemma reachable_ok cfg : rtc step initial cfg → config_ok task_spec task_post cfg.
Proof. apply steps_ok, initial_ok. Qed.
End system.

Lemma steps_evolves {R} spec (Q : nat → R → server → Prop) (cfg cfg' : config R) :
  config_ok spec Q cfg → rtc step cfg cfg' → evolves cfg.1 cfg'.1.
Proof.
  intros Hok Hsteps. apply (rely_evolves (fresh (dom cfg.2))).
  eapply steps_observer; [done..|]. apply not_elem_of_dom, is_fresh.
Qed.

(** What was committed is in the table. *)
Lemma replay_mono spec s h1 h2 : wal_legal spec s → wal s = h1 ++ h2 →
  replay h1 ⊆ replay (wal s).
Proof.
  intros Hlegal.
  revert h1. induction h2 as [|[j new] h2 IH]; intros h1 E; [by rewrite E, app_nil_r|].
  trans (replay (h1 ++ [(j, new)])); [|apply IH; by rewrite E, <-(assoc_L (++))].
  rewrite replay_snoc. apply map_union_subseteq_r. by apply (Hlegal h1 j new h2).
Qed.

Lemma own_wal_replay spec s i new : wal_legal spec s →
  (i, new) ∈ own_wal i s → new ⊆ replay (wal s).
Proof.
  intros Hlegal [_ (h1&h2&E)%list_elem_of_split]%list_elem_of_filter.
  trans (replay (h1 ++ [(i, new)])).
  - rewrite replay_snoc. apply map_union_subseteq_l.
  - eapply replay_mono; [done|]. by rewrite E, <-(assoc_L (++)).
Qed.

(** ** The abstract execution *)

(** The rows of a log. *)
Definition log_rows (log : list SequencedEvent) : rows :=
  list_to_map ((λ se, (value (Position se), row_of (se_Event se))) <$> log).

Definition is_read (t : task) : Prop :=
  match t with TAppend _ => False | _ => True end.

(** A serial execution: the transactions one after another, each with the
    events it appends to the log of those before it. *)
Inductive serial (tasks : gmap nat task) : list (nat * list SequencedEvent) → Prop :=
  | serial_nil : serial tasks []
  | serial_append h i commands evs :
      serial tasks h → tasks !! i = Some (TAppend commands) →
      conditions_valid commands → conditions_hold (mjoin h.*2) commands →
      se_Event <$> evs = all_events commands → ascending evs →
      (∀ a b, a ∈ mjoin h.*2 → b ∈ evs → value (Position a) ≠ value (Position b)) →
      serial tasks (h ++ [(i, evs)])
  | serial_read h i t :
      serial tasks h → tasks !! i = Some t → is_read t → serial tasks (h ++ [(i, [])]).

Definition sequenced (ps : list Z) (events : list Event) : list SequencedEvent :=
  zip_with (λ p ev, mkSequenced ev (mkPosition p)) ps events.

Lemma sequenced_events ps events :
  length ps = length events → se_Event <$> sequenced ps events = events.
Proof.
  revert events. induction ps as [|p ps IH]; intros [|ev events] [=]; [done|].
  cbn. f_equal. by apply IH.
Qed.

Lemma sequenced_positions ps events :
  length ps = length events → (λ se, value (Position se)) <$> sequenced ps events = ps.
Proof.
  revert events. induction ps as [|p ps IH]; intros [|ev events] [=]; [done|].
  cbn. f_equal. by apply IH.
Qed.

Lemma sequenced_rows ps events :
  length ps = length events → log_rows (sequenced ps events) = rows_at ps events.
Proof.
  unfold log_rows, rows_at. intros Hlen. f_equal. revert events Hlen.
  induction ps as [|p ps IH]; intros [|ev events] [=]; [done|]. cbn. f_equal. by apply IH.
Qed.

Lemma ascending_positions evs :
  ascending evs ↔ StronglySorted Z.lt ((λ se, value (Position se)) <$> evs).
Proof.
  unfold ascending. induction evs as [|se evs IH]; cbn; [by split; constructor|].
  rewrite !StronglySorted_cons, IH, Forall_fmap. done.
Qed.

Lemma ascending_NoDup evs : ascending evs → NoDup ((λ se, value (Position se)) <$> evs).
Proof.
  rewrite ascending_positions. generalize ((λ se, value (Position se)) <$> evs) as ps.
  induction 1 as [|p ps Hs IH Hp]; constructor; [|done].
  intros Hin. rewrite Forall_forall in Hp. specialize (Hp p Hin). lia.
Qed.

Lemma log_rows_Some evs p r : ascending evs →
  log_rows evs !! p = Some r ↔
    ∃ se, se ∈ evs ∧ value (Position se) = p ∧ row_of (se_Event se) = r.
Proof.
  intros Hasc. unfold log_rows. rewrite <-elem_of_list_to_map, list_elem_of_fmap.
  - split; [intros (se&[= -> ->]&?); by exists se|intros (se&?&<-&<-); by exists se].
  - rewrite <-list_fmap_compose. by apply ascending_NoDup.
Qed.

Lemma holds_log_nil : holds_log ∅ [].
Proof. intros p r. rewrite lookup_empty. split; [done|]. by intros (se&?%elem_of_nil&_). Qed.

Lemma holds_log_snoc tbl log evs :
  holds_log tbl log → ascending evs →
  (∀ a b, a ∈ log → b ∈ evs → value (Position a) ≠ value (Position b)) →
  holds_log (log_rows evs ∪ tbl) (log ++ evs).
Proof.
  intros Hlog Hasc Hdis p r. setoid_rewrite elem_of_app. rewrite lookup_union_Some.
  - rewrite log_rows_Some, (Hlog p r) by done. naive_solver.
  - apply map_disjoint_spec. intros q r1 r2 Hr1 Hr2.
    apply log_rows_Some in Hr1 as (b&Hb&Hbq&_); [|done].
    apply Hlog in Hr2 as (a&Ha&Haq&_). apply (Hdis a b Ha Hb). congruence.
Qed.

(** No row hits a condition exactly when the log violates none. *)
Lemma holds_log_conditions tbl log commands :
  holds_log tbl log → (∀ p, is_Some (tbl !! p) → 1 ≤ p) →
  (∀ p r, tbl !! p = Some r → ¬ commands_hit commands p r) → conditions_hold log commands.
Proof.
  intros Hlog Hpos Hclear. apply Forall_forall. intros cmd Hcmd c Hc (se&Hse&Hrange&Hm).
  assert (tbl !! value (Position se) = Some (row_of (se_Event se))) as Hrow
    by (apply Hlog; by exists se).
  apply (Hclear _ _ Hrow). exists cmd, c. split_and!; [done|done|].
  split; [|by apply row_matches_row_of]. unfold in_range, after_of in *.
  destruct (After c); [done|]. pose proof (Hpos (value (Position se))). rewrite Hrow in *.
  assert (1 ≤ value (Position se)) by (apply H; by eexists). lia.
Qed.

Lemma replay_dom h1 h2 p : is_Some (replay h1 !! p) → is_Some (replay (h1 ++ h2) !! p).
Proof.
  intros Hp. induction h2 as [|e h2 IH] using rev_ind; [by rewrite app_nil_r|].
  rewrite (assoc_L (++)), replay_snoc. apply lookup_union_is_Some. by right.
Qed.

Definition commit_rows : list (nat * list SequencedEvent) → list (nat * rows) :=
  fmap (λ e, (e.1, log_rows e.2)).

(** A legal history is a serial execution. *)
Lemma legal_serial tasks (W : list (nat * rows)) :
  (∀ h1 i new h2, W = h1 ++ (i, new) :: h2 →
     task_spec tasks empty_server i (replay h1) new ∧ new ##ₘ replay h1) →
  (∀ p, is_Some (replay W !! p) → 1 ≤ p) →
  ∃ h, serial tasks h ∧ W = commit_rows h ∧ holds_log (replay W) (mjoin h.*2).
Proof.
  induction W as [|[i new] W IH] using rev_ind; intros Hlegal Hpos.
  { exists []. split_and!; [constructor|done|apply holds_log_nil]. }
  destruct IH as (h&Hser&HW&Hlog).
  { intros h1 j new' h2 E. apply (Hlegal h1 j new' (h2 ++ [(i, new)])). rewrite E.
    by rewrite <-(assoc_L (++)). }
  { intros p Hp. by apply Hpos, replay_dom. }
  destruct (Hlegal W i new []) as [Hspec Hdis]; [done|]. unfold task_spec in Hspec.
  assert (∀ t, tasks !! i = Some t → is_read t → new = ∅ →
    ∃ h, serial tasks h ∧ W ++ [(i, new)] = commit_rows h ∧
      holds_log (replay (W ++ [(i, new)])) (mjoin h.*2)) as Hread.
  { intros t Ht Hr ->. exists (h ++ [(i, [])]). split_and!.
    - by eapply serial_read.
    - unfold commit_rows. by rewrite fmap_app, HW.
    - rewrite replay_snoc, fmap_app, join_app. cbn.
      by rewrite !app_nil_r, (left_id_L ∅ (∪)). }
  destruct (tasks !! i) as [[commands|q|q opts fetches|acquire listen q opts n env]|] eqn:Hi;
    [|by eapply Hread..|by apply elem_of_nil in Hspec].
  - destruct Hspec as (Hvalid&Hclear&ps&Hsorted&Hlen&->).
    set (evs := sequenced ps (all_events commands)).
    assert (ascending evs) as Hasc.
    { apply ascending_positions. unfold evs. by rewrite sequenced_positions. }
    assert (rows_at ps (all_events commands) = log_rows evs) as Hrows
      by (symmetry; by apply sequenced_rows).
    assert (∀ a b, a ∈ mjoin h.*2 → b ∈ evs → value (Position a) ≠ value (Position b)) as Hfresh.
    { intros a b Ha Hb E. rewrite Hrows, map_disjoint_spec in Hdis.
      apply (Hdis (value (Position b)) (row_of (se_Event b)) (row_of (se_Event a))).
      - apply log_rows_Some; [done|]. by exists b.
      - apply Hlog. by exists a. }
    exists (h ++ [(i, evs)]). split_and!.
    + eapply serial_append; [done|done|done| | |done|done].
      * eapply holds_log_conditions; [done| |done]. intros p Hp. by apply Hpos, replay_dom.
      * by apply sequenced_events.
    + unfold commit_rows. rewrite fmap_app, HW. cbn. by rewrite Hrows.
    + rewrite replay_snoc, fmap_app, join_app. cbn. rewrite app_nil_r, Hrows.
      by apply holds_log_snoc.
Qed.

Lemma empty_quiescent tasks : quiescent tasks empty_server.
Proof.
  split; [apply empty_server_inv|done| |].
  - by intros i new ?%elem_of_nil.
  - by intros [|??] ???.
Qed.

(** ** Schedules, to run a system on concrete inputs *)

(** Sessions take turns as listed; a session that waits or is done passes. *)
Fixpoint run_schedule {R} (sched : list nat) (cfg : config R) : config R :=
  match sched with
  | [] => cfg
  | i :: sched =>
      match cfg.2 !! i with
      | Some (Do c k) =>
          match exec None i c cfg.1 with
          | Some (r, s') => run_schedule sched (s', <[i := k r]> cfg.2)
          | None => run_schedule sched cfg
          end
      | _ => run_schedule sched cfg
      end
  end.

Lemma run_schedule_steps {R} sched (cfg : config R) : rtc step cfg (run_schedule sched cfg).
Proof.
  revert cfg. induction sched as [|i sched IH]; intros [s ths]; cbn; [done|].
  destruct (ths !! i) as [[a|c k]|] eqn:Hi; [done| |done].
  change (exec_ok i c s) with (exec None i c s).
  destruct (exec None i c s) as [[r s']|] eqn:E; [|done].
  eapply rtc_l; [|apply IH]. by apply (step_do s ths i c k None r s').
Qed.

(** ** Properties *)

(** C1: serializability.  In whatever order the commands of concurrent appends
    and barriers interleave, and whichever of them fail, the committed
    transactions are, in commit order, a serial execution of the abstract
    store: every append found its conditions to hold in the log of all those
    before it, and added exactly its events, in order, at ascending positions
    that were free; the events table holds exactly the resulting log.  The
    server starts empty, and the calls are [task_ok]: appends of representable
    commands (without the delimiter in a tag, which the procedure would tear
    apart, and without a bound beyond [bigint]), reads whose bound fits, and
    subscriptions on queries of the constructors whose start fits. *)
Theorem commits_serializable st tasks cfg :
  map_Forall (λ _, task_ok) tasks →
  rtc step (initial st tasks empty_server) cfg →
  ∃ h, serial tasks h ∧ wal cfg.1 = commit_rows h ∧ holds_log (table cfg.1) (mjoin h.*2).
Proof.
  intros Htasks Hsteps.
  destruct (reachable_ok st tasks empty_server Htasks (empty_quiescent tasks) cfg Hsteps)
    as (HI&Hlegal&_).
  rewrite (inv_wal _ HI). apply legal_serial; [exact Hlegal|].
  intros p [r Hp]. rewrite <-(inv_wal _ HI) in Hp.
  apply (inv_allocated _ HI p r). by left.
Qed.

(** The read barrier.  When a barrier of [q] has returned the high-water
    mark [h], every row at or below [h] that a read of [q] can return and that
    is ever going to be in the table is there already: no event can be skipped
    by a reader that advances to [h]. *)
Theorem read_barrier_complete st tasks s0 i q h cfg cfg' :
  map_Forall (λ _, task_ok) tasks → quiescent tasks s0 →
  tasks !! i = Some (TBarrier q) →
  rtc step (initial st tasks s0) cfg → cfg.2 !! i = Some (Ret (RBarrier (Ok h))) →
  rtc step cfg cfg' →
  table cfg.1 ⊆ table cfg'.1 ∧
  ∀ p r, table cfg'.1 !! p = Some r → p ≤ h → row_reaches q r → table cfg.1 !! p = Some r.
Proof.
  intros Htasks Hquiet Hi Hsteps Hdone Hlater.
  pose proof (reachable_ok st tasks s0 Htasks Hquiet cfg Hsteps) as Hok.
  pose proof (steps_evolves _ _ cfg cfg' Hok Hlater) as Hev.
  pose proof (config_ok_done _ _ cfg i _ Hok Hdone) as Hpost.
  unfold task_post in Hpost. rewrite Hi in Hpost. destruct Hpost as [_ Hset].
  split; [apply Hev|]. intros p r Hp Hle Hr.
  by apply (settled_table q h cfg.1 cfg'.1); [apply Hok|..].
Qed.

(** C2: a finished forward read is complete.  There is a mark [h], not below
    what was in the table when the read started, such that the cursor holds
    the selected rows at or below [h], in order and up to the limit, and this
    remains so: at any later time the selected rows of the table at or below
    [h] are still the same ones.  In particular no event can appear at or
    before the last position that the read returned.  The query is one of the
    constructors' ([query_wf]: the zero query takes no barrier), and the
    appends are representable ([task_ok]: a torn tag would escape the locks). *)
Theorem read_complete st tasks s0 i q opts fetches it cfg cfg' :
  map_Forall (λ _, task_ok) tasks → quiescent tasks s0 →
  tasks !! i = Some (TRead q opts fetches) → query_wf q → Backwards opts = false →
  rtc step (initial st tasks s0) cfg → cfg.2 !! i = Some (Ret (RRead (Ok it))) →
  rtc step cfg cfg' →
  ∃ h l, last_position s0 ≤ h ∧ it = fresh_cursor (limit_to (Limit opts) l) fetches ∧
    StronglySorted (row_order false) l ∧
    ∀ p r, (p, r) ∈ l ↔
      table cfg'.1 !! p = Some r ∧ p ≤ h ∧
      (∀ b, Read_After opts = Some b → value b < p) ∧ row_reaches q r.
Proof.
  intros Htasks Hquiet Hi Hwf Hfwd Hsteps Hdone Hlater.
  pose proof (reachable_ok st tasks s0 Htasks Hquiet cfg Hsteps) as Hok.
  pose proof (steps_evolves _ _ cfg cfg' Hok Hlater) as Hev.
  pose proof (config_ok_done _ _ cfg i _ Hok Hdone) as Hpost.
  assert (Inv cfg'.1) as HI' by (apply (steps_ok _ _ cfg cfg' Hok Hlater)).
  unfold task_post in Hpost. rewrite Hi in Hpost. destruct Hpost as (_&h&snapshot&Hread).
  apply (read_done_evolves _ _ _ _ cfg.1 cfg'.1) in Hread; [|apply Hok|done|done].
  destruct Hread as [(l&[Hs Hl]&->) _ Htab Hmark].
  destruct h as [h|]; [|congruence]. destruct Hmark as (_&Hle&_&Hcomp). rewrite Hfwd in Hs.
  exists h, l. split_and!; [done|done|done|]. intros p r.
  rewrite Hl, criteria_selects_wf by done. unfold within_bounds. rewrite Hfwd. split.
  - intros (Hp&[Hb Hh]&Hr). split_and!; [by eapply lookup_weaken|by apply Hh|done|done].
  - intros (Hp&Hh&Hb&Hr). split_and!; [by apply Hcomp|done|by intros ? [= <-]|done].
Qed.

(** C6: what a finished [Append] reports is what it committed, among any other
    sessions and failures.  A position: exactly its events, in order, after
    everything that was there when it started, the last of them at that
    position.  An [AppendConditionError]: nothing, and the condition it names
    was violated.  A database error: nothing, or all of its events when the
    reply to the commit was lost.  Other errors: nothing.  It leaves no
    transaction open, and never panics: the commands are representable
    ([task_ok]), so no bound is beyond [bigint] and no tag is torn. *)
Theorem append_outcomes st tasks s0 i commands r cfg :
  map_Forall (λ _, task_ok) tasks → quiescent tasks s0 →
  tasks !! i = Some (TAppend commands) →
  rtc step (initial st tasks s0) cfg → cfg.2 !! i = Some (Ret (RAppend r)) →
  txs cfg.1 !! i = None ∧
  match r with
  | Ok pos => conditions_valid commands ∧
      ∃ new, own_wal i cfg.1 = [(i, new)] ∧ new ⊆ table cfg.1 ∧
        written commands (last_position s0) (value pos) new
  | Err (EAppendCondition e) => own_wal i cfg.1 = [] ∧
      ∃ j cmd c p rw, EAppendCondition e = violation_error commands j c ∧
        commands !! j = Some cmd ∧ Condition cmd = Some c ∧
        table cfg.1 !! p = Some rw ∧ row_hit c p rw
  | Err (EDatabase _) => own_wal i cfg.1 = [] ∨
      ∃ new pos, own_wal i cfg.1 = [(i, new)] ∧ new ⊆ table cfg.1 ∧
        written commands (last_position s0) pos new
  | Err EZeroEvents => own_wal i cfg.1 = [] ∧ all_events commands = []
  | Err (ECondition e) => own_wal i cfg.1 = [] ∧
      ∃ cmd c, cmd ∈ commands ∧ Condition cmd = Some c ∧ ValidateAppendCondition c = Err e
  | Err (EContext _) | Err (EJson _) | Err (ETags _) | Panic _ => False
  end.
Proof.
  intros Htasks Hquiet Hi Hsteps Hdone.
  pose proof (reachable_ok st tasks s0 Htasks Hquiet cfg Hsteps) as Hok.
  pose proof (config_ok_done _ _ cfg i _ Hok Hdone) as Hpost.
  unfold task_post in Hpost. rewrite Hi in Hpost. destruct Hok as (HI&Hlegal&_).
  destruct Hpost as [(e&cmd&c&->&?&?&?&[Hn Hw])|[Hvalid [(->&?&[Hn Hw])|[Hne Hp]]]].
  - split; [done|]. split; [done|]. by exists cmd, c.
  - done.
  - destruct r as [pos|e|msg]; [| |done].
    + destruct Hp as (new&[Hn Hw]&Hwritten). split; [done|]. split; [done|].
      exists new. split_and!; [done| |done]. rewrite (inv_wal _ HI).
      eapply own_wal_replay; [done|]. cbn in Hw. rewrite Hw. by left.
    + destruct Hp as [(j&c&cmd&->&Hj&Hc&Hv&[Hn Hw])|(msg&->&[[Hn Hw]|(new&pos&[Hn Hw]&Hnew)])].
      * split; [done|]. split; [done|].
        destruct Hv as (tbl&h&(j'&cmd'&Hj'&Hcmd'&(c'&p&rw&Hc'&Hp&_&Hhit)&_)&_&Hsub&_).
        assert (j' = j) as -> by lia. simplify_eq.
        exists j, cmd, c, p, rw. split_and!; [done..| |done]. by eapply lookup_weaken.
      * split; [done|]. by left.
      * split; [done|]. right. exists new, pos. split_and!; [done| |done].
        rewrite (inv_wal _ HI). eapply own_wal_replay; [done|]. cbn in Hw. rewrite Hw. by left.
Qed.

(** ** Witnesses *)

Definition w_store : Store := mkStore "events" "events_append" "events_check_conditions"
  "events_barrier_hwm" "events" 1.
Definition w_tags : Tags := mkTags {["course:1"]}.
Definition w_event : Event := mkEvent "Enrolled" w_tags (Some "1") None.
Definition w_query : Query := mkQuery [mkItem ["Enrolled"] w_tags] false.
Definition w_condition : AppendCondition := mkCondition w_query None.

(** Two conditional appends of the same event, one through each path, a read
    barrier and a read. *)
Definition w_once : list AppendCommand := [mkCommand [w_event] (Some w_condition)].
Definition w_twice : list AppendCommand := [mkCommand [w_event; w_event] (Some w_condition)].
Definition w_tasks : gmap nat task :=
  {[ 0%nat := TAppend w_once; 1%nat := TAppend w_twice; 2%nat := TBarrier w_query;
     3%nat := TRead w_query (mkReadOptions false None 0) [] ]}.

Lemma w_tags_clean : tags_clean w_tags.
Proof. intros tag Hin. cbn in Hin. apply elem_of_singleton in Hin as ->. apply (bool_decide_unpack _). by vm_compute. Qed.

Lemma w_representable events cond :
  (∀ c, cond = Some c → c = w_condition) → Forall (λ ev, ev = w_event) events →
  representable [mkCommand events cond].
Proof.
  intros Hc Hev. split.
  - apply Forall_singleton. intros c item Hcond. cbn in Hcond. rewrite (Hc c Hcond).
    intros ->%list_elem_of_singleton. apply w_tags_clean.
  - unfold all_events. cbn. rewrite app_nil_r. eapply Forall_impl; [exact Hev|]. intros ev ->. apply w_tags_clean.
  - apply Forall_singleton. intros c p Hcond. cbn in Hcond. rewrite (Hc c Hcond). intros [=].
  - done.
Qed.

Lemma w_tasks_ok : map_Forall (λ _, task_ok) w_tasks.
Proof.
  unfold w_tasks. repeat apply map_Forall_insert_2; [| |done| |apply map_Forall_empty].
  - apply w_representable; [by intros c [= <-]|by repeat constructor].
  - apply w_representable; [by intros c [= <-]|by repeat constructor].
  - by intros pos [=].
Qed.

(** Session 0 is ahead; the others wait for its locks, then session 1 finds
    its condition violated. *)
Definition w_schedule : list nat :=
  replicate 3 0%nat ++ mjoin (replicate 4 [0; 1; 2]%nat) ++ replicate 12 0%nat ++
  replicate 12 2%nat.
Definition w_middle : config result :=
  run_schedule w_schedule (initial w_store w_tasks empty_server).
Definition w_final : config result := run_schedule (replicate 12 1%nat) w_middle.

(** Session 3 reads in between. *)
Definition w_read : config result := run_schedule (replicate 12 3%nat) w_middle.
Definition w_read_final : config result := run_schedule (replicate 12 1%nat) w_read.

Lemma w_middle_steps : rtc step (initial w_store w_tasks empty_server) w_middle.
Proof. apply run_schedule_steps. Qed.
Lemma w_final_steps : rtc step w_middle w_final.
Proof. apply run_schedule_steps. Qed.

Lemma commits_serializable_witness :
  map_to_list (table w_final.1) = [(1, row_of w_event)] ∧
  ∃ h, serial w_tasks h ∧ wal w_final.1 = commit_rows h ∧
    holds_log (table w_final.1) (mjoin h.*2).
Proof.
  split; [vm_compute; reflexivity|].
  refine (commits_serializable w_store w_tasks w_final w_tasks_ok _).
  (exact (transitivity w_middle_steps w_final_steps)).
Defined.

Lemma read_barrier_complete_witness :
  w_middle.2 !! 2%nat = Some (Ret (RBarrier (Ok 1))) ∧
  table w_middle.1 ⊆ table w_final.1 ∧
  ∀ p r, table w_final.1 !! p = Some r → p ≤ 1 → row_reaches w_query r →
    table w_middle.1 !! p = Some r.
Proof.
  split; [vm_compute; reflexivity|].
  refine (read_barrier_complete w_store w_tasks empty_server 2 w_query 1 w_middle w_final
    w_tasks_ok (empty_quiescent w_tasks) _ w_middle_steps _ w_final_steps).
  - vm_compute. reflexivity.
  - vm_compute. reflexivity.
Defined.

Lemma read_complete_witness :
  w_read.2 !! 3%nat = Some (Ret (RRead (Ok (fresh_cursor [(1, row_of w_event)] [])))) ∧
  ∃ h l, last_position empty_server ≤ h ∧
    fresh_cursor [(1, row_of w_event)] [] = fresh_cursor (limit_to 0 l) [] ∧
    StronglySorted (row_order false) l ∧
    ∀ p r, (p, r) ∈ l ↔
      table w_read_final.1 !! p = Some r ∧ p ≤ h ∧
      (∀ b, None = Some b → value b < p) ∧ row_reaches w_query r.
Proof.
  split; [vm_compute; reflexivity|].
  refine (read_complete w_store w_tasks empty_server 3 w_query (mkReadOptions false None 0) []
    (fresh_cursor [(1, row_of w_event)] []) w_read w_read_final
    w_tasks_ok (empty_quiescent w_tasks) _ _ _ _ _ _).
  - vm_compute. reflexivity.
  - right. split_and!; [done|done|by repeat constructor].
  - reflexivity.
  - exact (transitivity w_middle_steps (run_schedule_steps _ _)).
  - vm_compute. reflexivity.
  - apply run_schedule_steps.
Defined.

Lemma append_outcomes_witness :
  own_wal 1 w_final.1 = [] ∧ ∃ new, own_wal 0 w_final.1 = [(0%nat, new)] ∧
    written w_once 0 1 new.
Proof.
  assert (rtc step (initial w_store w_tasks empty_server) w_final) as Hsteps
    by (exact (transitivity w_middle_steps w_final_steps)).
  split.
  - refine (proj1 (proj2 (append_outcomes w_store w_tasks empty_server 1 w_twice
      (Err (violation_error w_twice 0 w_condition)) w_final w_tasks_ok (empty_quiescent w_tasks)
      _ Hsteps _))); vm_compute; reflexivity.
  - destruct (proj2 (append_outcomes w_store w_tasks empty_server 0 w_once
      (Ok (mkPosition 1)) w_final w_tasks_ok (empty_quiescent w_tasks) eq_refl Hsteps
      ltac:(vm_compute; reflexivity))) as (_&new&Hw&_&Hnew).
    exists new. split; [exact Hw|exact Hnew].
Defined.
