(* ===== verification/PgDelivery.v ===== *)
(** * PgDelivery

    What subscriptions of the Postgres store deliver among concurrent appends:
    every event once and in order, and everything that was there when they
    started ([src/postgres/subscribe.go] over [src/postgres/read.go]). *)

From S2P Require Import Prelude.
From S2P Require Import SequencePosition.
From S2P Require Import EventStore.
From S2P Require Import StoreSpec.
From S2P Require Import Matching.
From S2P Require Import Serialize.
From S2P Require Import PgServer.
From S2P Require Import ReadSQL.
From S2P Require Import PgStore.
From S2P Require Import PgConditions.
From S2P Require Import Cursor.
From S2P Require Import PgLogic.
From S2P Require Import PgTyping.
From S2P Require Import PgRules.
From S2P Require Import PgBarrier.
From S2P Require Import PgRead.
From S2P Require Import PgSubscribe.
From S2P Require Import PgConcurrency.

Local Open Scope Z_scope.

(** The end of a subscriber's calls, at a later configuration. *)
Lemma subscriber_done st tasks s0 i acquire listen q opts n env dl it b cfg cfg' :
  map_Forall (λ _, task_ok) tasks → quiescent tasks s0 →
  tasks !! i = Some (TSubscribe acquire listen q opts n env) →
  rtc step (initial st tasks s0) cfg → cfg.2 !! i = Some (Ret (RSubscribe (Ok (dl, it, b)))) →
  rtc step cfg cfg' →
  Inv cfg'.1 ∧ sub_inv q (start_of opts) dl it cfg'.1 ∧
  (length dl = n ∨ pending_events it = []) ∧
  (∀ t env', env = t :: env' → ended_at_head t = false → ended_in_drain t = false →
     consumer_progress q (start_of opts) n s0 (Ok (dl, it, b))).
Proof.
  intros Htasks Hquiet Hi Hsteps Hdone Hlater.
  pose proof (reachable_ok st tasks s0 Htasks Hquiet cfg Hsteps) as Hok.
  pose proof (steps_evolves _ _ cfg cfg' Hok Hlater) as Hev.
  pose proof (config_ok_done _ _ cfg i _ Hok Hdone) as Hpost.
  assert (Inv cfg'.1) as HI' by (apply (steps_ok _ _ cfg cfg' Hok Hlater)).
  unfold task_post in Hpost. rewrite Hi in Hpost. destruct Hpost as (Hinv&Hlen&Hpr).
  split_and!; [done| |done|done].
  by apply (sub_inv_evolves _ _ _ _ cfg.1 cfg'.1); [apply Hok|..].
Qed.

(** ** Properties *)

(** C3: a subscription delivers every event exactly once and in order, among
    any concurrent appends and failures.  What it has delivered, and what it
    holds ready, are at any later time the decoded rows of the table that its
    query reaches, from its start up to some mark, in ascending order: nothing
    is skipped, repeated or reordered, and nothing can appear later in between.
    [Next] has returned true as often as it was asked, or nothing is ready.
    By [task_ok] the query is one of the constructors', the start is within
    [bigint] and the appends are representable. *)
Theorem delivery_exactly_once st tasks s0 i acquire listen q opts n env dl it b cfg cfg' :
  map_Forall (λ _, task_ok) tasks → quiescent tasks s0 →
  tasks !! i = Some (TSubscribe acquire listen q opts n env) →
  rtc step (initial st tasks s0) cfg → cfg.2 !! i = Some (Ret (RSubscribe (Ok (dl, it, b)))) →
  rtc step cfg cfg' →
  (length dl = n ∨ pending_events it = []) ∧
  ∃ h l, collect_rows l = Ok (dl ++ pending_events it) ∧
    StronglySorted (row_order false) l ∧
    ascending (dl ++ pending_events it) ∧
    ∀ p r, (p, r) ∈ l ↔
      table cfg'.1 !! p = Some r ∧ start_of opts < p ≤ h ∧ row_reaches q r.
Proof.
  intros Htasks Hquiet Hi Hsteps Hdone Hlater.
  destruct (subscriber_done st tasks s0 i acquire listen q opts n env dl it b cfg cfg')
    as (HI&[_ _ (h&l&[Hc Hs Hl _]) _ _]&Hlen&_); [done..|].
  split; [done|]. exists h, l. split_and!; [done|done| |done].
  apply ascending_positions. rewrite (decoded_positions l _); [| |done].
  - clear -Hs. induction Hs as [|x l _ IH Hx]; cbn; [constructor|].
    apply StronglySorted_cons. split; [|done]. by apply Forall_fmap.
  - apply (table_positions cfg'.1); [done|]. intros p r Hin. by apply Hl in Hin as [? _].
Qed.

(** C4: a subscription catches up.  If its context outlives the first round,
    a subscriber that asks up to [n] times has met an error, or has received
    [n] events, or has received every row that its query reaches after its
    start and that was in the store when it began, whatever other sessions do
    meanwhile (with calls that are [task_ok]). *)
Theorem delivery_catches_up st tasks s0 i acquire listen q opts n t env dl it b cfg :
  map_Forall (λ _, task_ok) tasks → quiescent tasks s0 →
  tasks !! i = Some (TSubscribe acquire listen q opts n (t :: env)) →
  ended_at_head t = false → ended_in_drain t = false →
  rtc step (initial st tasks s0) cfg → cfg.2 !! i = Some (Ret (RSubscribe (Ok (dl, it, b)))) →
  is_Some (sub_err it) ∨ length dl = n ∨
  ∀ p r, table s0 !! p = Some r → start_of opts < p → row_reaches q r →
    ∃ se, se ∈ dl ∧ value (Position se) = p ∧ rowToSequencedEvent (p, r) = Ok se.
Proof.
  intros Htasks Hquiet Hi Hh Hd Hsteps Hdone.
  destruct (subscriber_done st tasks s0 i acquire listen q opts n (t :: env) dl it b cfg cfg)
    as (HI&[_ _ (h&l&[Hc Hs Hl _]) _ _]&_&Hpr); [done..|].
  destruct (Hpr t env eq_refl Hh Hd) as [?|[?|Hup]]; [by left|by right; left|right; right].
  intros p r Hp Hlt Hr. destruct (Hup p r Hp Hlt Hr) as (se&Hse&Hpos).
  exists se. split_and!; [done|done|].
  pose proof (reachable_ok st tasks s0 Htasks Hquiet cfg Hsteps) as Hok.
  assert (table cfg.1 !! p = Some r) as Hp'.
  { eapply lookup_weaken; [done|].
    apply (steps_evolves _ _ _ cfg (initial_ok st tasks s0 Htasks Hquiet) Hsteps). }
  assert (se ∈ dl ++ pending_events it) as Hin by (apply elem_of_app; by left).
  apply (collect_rows_elem l) in Hin as ([p' r']&Hin&Hdec); [|done].
  apply Hl in Hin as (Hp''&_). pose proof (decoded_position (p', r') se) as Heq. cbn in Heq.
  rewrite Heq in Hpos; [subst p'; congruence| |done].
  destruct (inv_allocated _ HI p' r'); [by left|].
  pose proof (typed_last _ (Inv_typed _ HI)). lia.
Qed.

(** ** Witnesses *)

(** The server that a finished system leaves is a start for further ones. *)
Lemma reachable_quiescent st tasks tasks' s0 cfg :
  map_Forall (λ _, task_ok) tasks → quiescent tasks s0 → quiescent tasks' s0 →
  rtc step (initial st tasks s0) cfg → txs cfg.1 = ∅ → tasks ##ₘ tasks' →
  quiescent tasks' cfg.1.
Proof.
  intros Htasks Hquiet Hquiet' Hsteps Htxs Hdis.
  destruct (reachable_ok st tasks s0 Htasks Hquiet cfg Hsteps) as (HI&Hlegal&_).
  split; [done|done| |].
  - intros i new (h1&h2&E)%list_elem_of_split. destruct (Hlegal h1 i new h2 E) as [Hspec _].
    unfold task_spec in Hspec. destruct (tasks !! i) as [t|] eqn:Ht.
    + by apply (map_disjoint_Some_l tasks tasks' i t).
    + by apply (quiescent_wal _ _ Hquiet' i new).
  - intros h1 i new h2 E. by apply (Hlegal h1 i new h2).
Qed.

(** Session 9 appends an event; then session 0 subscribes and receives it,
    waits, finds another one that session 1 has appended meanwhile, and waits
    again. *)
Definition d_before : gmap nat task := {[ 9%nat := TAppend w_once ]}.
Definition d_server : server :=
  (run_schedule (replicate 20 9%nat) (initial w_store d_before empty_server)).1.

Definition d_turn (wait : wait_result) : turn := mkTurn false [] false wait.
Definition d_env : list turn := [d_turn Notified; d_turn PollElapsed; d_turn Notified].
Definition d_opts : SubscribeOptions := mkSubscribeOptions None 0.
Definition d_tasks : gmap nat task :=
  {[ 0%nat := TSubscribe None None w_query d_opts 5 d_env;
     1%nat := TAppend [mkCommand [w_event] None] ]}.
Definition d_final : config result :=
  run_schedule (replicate 14 0%nat ++ replicate 20 1%nat ++ replicate 40 0%nat)
    (initial w_store d_tasks d_server).

(** The event as a read gives it back. *)
Definition d_event (p : Z) : SequencedEvent := mkSequenced (stored w_event) (mkPosition p).
Definition d_end : subscribeIterator :=
  mkSubscribe w_query (mkPosition 2) defaultPollInterval [] (d_event 2) None false.

Lemma d_before_ok : map_Forall (λ _, task_ok) d_before.
Proof. apply map_Forall_singleton, w_representable; [by intros c [= <-]|by repeat constructor]. Qed.

Lemma d_tasks_ok : map_Forall (λ _, task_ok) d_tasks.
Proof.
  apply map_Forall_insert_2; [|apply map_Forall_singleton].
  - split; [|done]. right. split_and!; [done|done|by repeat constructor].
  - apply w_representable; [by intros c [=]|by repeat constructor].
Qed.

Lemma d_quiescent : quiescent d_tasks d_server.
Proof.
  apply (reachable_quiescent w_store d_before d_tasks empty_server _ d_before_ok);
    [apply empty_quiescent..|apply run_schedule_steps|by vm_compute|].
  apply map_disjoint_dom. unfold d_before, d_tasks. set_solver.
Qed.

Lemma delivery_exactly_once_witness :
  d_final.2 !! 0%nat = Some (Ret (RSubscribe (Ok ([d_event 1; d_event 2], d_end, false)))) ∧
  ∃ h l, collect_rows l = Ok ([d_event 1; d_event 2] ++ []) ∧
    StronglySorted (row_order false) l ∧ ascending ([d_event 1; d_event 2] ++ []) ∧
    ∀ p r, (p, r) ∈ l ↔
      table d_final.1 !! p = Some r ∧ start_of d_opts < p ≤ h ∧ row_reaches w_query r.
Proof.
  split; [vm_compute; reflexivity|].
  refine (proj2 (delivery_exactly_once w_store d_tasks d_server 0 None None w_query d_opts 5
    d_env [d_event 1; d_event 2] d_end false d_final d_final d_tasks_ok d_quiescent _ _ _ _)).
  - vm_compute. reflexivity.
  - apply run_schedule_steps.
  - vm_compute. reflexivity.
  - reflexivity.
Defined.

Lemma delivery_catches_up_witness :
  table d_server !! 1 = Some (row_of w_event) ∧
  (is_Some (sub_err d_end) ∨ length [d_event 1; d_event 2] = 5%nat ∨
   ∀ p r, table d_server !! p = Some r → 0 < p → row_reaches w_query r →
     ∃ se, se ∈ [d_event 1; d_event 2] ∧ value (Position se) = p ∧
       rowToSequencedEvent (p, r) = Ok se).
Proof.
  split; [vm_compute; reflexivity|].
  refine (delivery_catches_up w_store d_tasks d_server 0 None None w_query d_opts 5
    (d_turn Notified) [d_turn PollElapsed; d_turn Notified]
    [d_event 1; d_event 2] d_end false d_final d_tasks_ok d_quiescent _ _ _ _ _).
  - vm_compute. reflexivity.
  - reflexivity.
  - reflexivity.
  - apply run_schedule_steps.
  - vm_compute. reflexivity.
Defined.
