(* ===== verification/PgSequential.v ===== *)
(** * PgSequential

    [Append] of the Postgres store without other sessions: it implements the
    abstract contract of [StoreSpec], whatever fails; without failures it does
    return, and both of its paths do the same. *)

From S2P Require Import Prelude.
From S2P Require Import GoStrconv.
From S2P Require Import SequencePosition.
From S2P Require Import Tags.
From S2P Require Import EventStore.
From S2P Require Import Matching.
From S2P Require Import StoreSpec.
From S2P Require Import LockKeys.
From S2P Require Import Serialize.
From S2P Require Import PgServer.
From S2P Require Import PgProcedures.
From S2P Require Import PgStore.
From S2P Require Import PgConditions.
From S2P Require Import PgLogic.
From S2P Require Import PgRules.
From S2P Require Import PgBarrier.
From S2P Require Import PgAppend.
From S2P Require Import PgConcurrency.

Local Open Scope Z_scope.

(** ** A session alone *)

(** What session [i] does when it runs alone: only its own commits, and nothing
    to the transactions of others. *)
Lemma exec_ok_own i c s r s' : exec_ok i c s = Some (r, s') →
  (∃ l, wal s' = wal s ++ l ∧ Forall (λ e, e.1 = i) l) ∧
  ∀ j, j ≠ i → txs s' !! j = txs s !! j.
Proof.
  assert ((∃ l, wal s = wal s ++ l ∧ Forall (λ e, e.1 = i) l) ∧
    ∀ j, j ≠ i → txs s !! j = txs s !! j) as Hid.
  { split; [|done]. exists []. by rewrite app_nil_r. }
  intros E. destruct c; cbn in E; case_matches_in E; simplify_eq/=; try exact Hid;
    split; try (by intros; rewrite ?lookup_insert_ne, ?lookup_delete_ne by done);
    try (by exists []; rewrite app_nil_r).
  by eexists; split; [done|repeat constructor].
Qed.

Lemma run_own {A} i faults (p : prog A) s a s' : run i faults p s = Some (a, s') →
  (∃ l, wal s' = wal s ++ l ∧ Forall (λ e, e.1 = i) l) ∧
  ∀ j, j ≠ i → txs s' !! j = txs s !! j.
Proof.
  revert faults s. induction p as [b|c k IH]; intros faults s; cbn.
  { intros [= <- <-]. split; [|done]. exists []. by rewrite app_nil_r. }
  destruct (exec _ i c s) as [[r s1]|] eqn:E; [|done]. cbn. intros Hrun.
  destruct (IH r _ s1 Hrun) as [(l&Hw&Hl) Ht].
  apply exec_cases in E as [E|(_&->&_)]; [|by eauto].
  destruct (exec_ok_own i c s r s1 E) as [(l1&Hw1&Hl1) Ht1]. split.
  - exists (l1 ++ l). rewrite Hw, Hw1, (assoc_L (++)). split; [done|by apply Forall_app].
  - intros j ?. by rewrite Ht, Ht1.
Qed.

Lemma own_wal_app i s s' l : wal s' = wal s ++ l → Forall (λ e, e.1 = i) l →
  own_wal i s' = own_wal i s ++ l.
Proof.
  unfold own_wal. intros -> Hl. rewrite filter_app. f_equal. apply filter_all.
  by rewrite Forall_forall in Hl.
Qed.

(** ** The contract *)

(** A server that represents a log, between calls. *)
Record represents (s : server) (log : list SequencedEvent) : Prop := {
  represents_quiescent : quiescent ∅ s;
  represents_log : holds_log (table s) log;
  represents_ascending : ascending log;
}.

Lemma holds_log_position s log se : Inv s → holds_log (table s) log → se ∈ log →
  1 ≤ value (Position se) ≤ last_position s.
Proof.
  intros HI Hlog Hse. apply (inv_allocated _ HI _ (row_of (se_Event se))). left.
  apply Hlog. by exists se.
Qed.

Lemma sequenced_last ps events pos : length ps = length events → last ps = Some pos →
  ∃ se, last (sequenced ps events) = Some se ∧ Position se = mkPosition pos.
Proof.
  intros Hlen Hlast.
  assert (last ((λ se, value (Position se)) <$> sequenced ps events) = Some pos) as H
    by (by rewrite sequenced_positions).
  rewrite fmap_last in H. destruct (last (sequenced ps events)) as [se|]; [|done].
  injection H as H. exists se. split; [done|]. destruct (Position se). by f_equal.
Qed.

Lemma written_nonempty commands h0 pos new : written commands h0 pos new →
  ∃ rw, new !! pos = Some rw.
Proof.
  intros (ps&Hsorted&Hlen&->&_&Hlast&_).
  destruct (sequenced_last ps (all_events commands) pos Hlen Hlast) as (se&Hse&Hp).
  exists (row_of (se_Event se)). rewrite <-sequenced_rows by done. apply log_rows_Some.
  - apply ascending_positions. by rewrite sequenced_positions.
  - exists se. split_and!; [by eapply last_Some_elem_of|by rewrite Hp|done].
Qed.

(** Rows written after all others extend the log. *)
Lemma written_contract s log commands pos new :
  Inv s → holds_log (table s) log → ascending log →
  conditions_valid commands → conditions_hold log commands →
  written commands (last_position s) pos new →
  ∃ log', append_contract log commands (Ok (mkPosition pos)) log' ∧
    holds_log (new ∪ table s) log' ∧ ascending log'.
Proof.
  intros HI Hlog Hasc Hvalid Hhold (ps&Hsorted&Hlen&->&Hps&Hlast&_).
  set (evs := sequenced ps (all_events commands)).
  assert (ascending evs) as Hasc'.
  { apply ascending_positions. unfold evs. by rewrite sequenced_positions. }
  assert (∀ a b, a ∈ log → b ∈ evs → value (Position a) < value (Position b)) as Hlt.
  { intros a b Ha Hb. destruct (holds_log_position s log a HI Hlog Ha).
    assert (value (Position b) ∈ ps) as Hin.
    { rewrite <-(sequenced_positions ps (all_events commands)) by done.
      by apply (list_elem_of_fmap_2 (λ se, value (Position se))). }
    rewrite Forall_forall in Hps. specialize (Hps _ Hin). lia. }
  assert (ascending (log ++ evs)) as Hall by (by apply ascending_app).
  destruct (sequenced_last ps (all_events commands) pos Hlen Hlast) as (se&Hse&<-).
  exists (log ++ evs). split_and!; [|rewrite <-sequenced_rows by done|done].
  - apply contract_ok; try done. by apply sequenced_events.
  - apply holds_log_snoc; [done|done|]. intros a b Ha Hb. specialize (Hlt a b Ha Hb). lia.
Qed.

(** A row of the table that hits a condition is an event of the log. *)
Lemma command_hit_violated tbl log h cmd c : holds_log tbl log →
  Condition cmd = Some c → command_hit tbl h cmd → violated log c.
Proof.
  intros Hlog Hc (c'&p&r&Hc'&Hp&_&Hafter&Hm). simplify_eq.
  apply Hlog in Hp as (se&Hse&<-&<-). exists se. split_and!; [done| |by apply row_matches_row_of].
  unfold in_range, after_of in *. by destruct (After c).
Qed.

Lemma violated_command_hit s log h cmd c : Inv s → holds_log (table s) log →
  last_position s ≤ h → Condition cmd = Some c → violated log c → command_hit (table s) h cmd.
Proof.
  intros HI Hlog Hh Hc (se&Hse&Hrange&Hm).
  destruct (holds_log_position s log se HI Hlog Hse).
  exists c, (value (Position se)), (row_of (se_Event se)). split_and!; [done| |lia|].
  - apply Hlog. by exists se.
  - split; [|by apply row_matches_row_of]. unfold in_range, after_of in *.
    destruct (After c); [done|lia].
Qed.

(** The conditions of a legal transaction hold in the log. *)
Lemma legal_conditions s log commands new : Inv s → holds_log (table s) log →
  legal commands (table s) new → conditions_hold log commands.
Proof.
  intros HI Hlog [Hclear _]. eapply holds_log_conditions; [done| |done].
  intros p [r Hp]. apply (inv_allocated _ HI p r). by left.
Qed.

(** What the session commits in a run alone: an earlier history, or a legal
    transaction. *)
Definition alone_spec (s0 : server) (commands : list AppendCommand) (j : nat)
    (tbl new : rows) : Prop :=
  (j, new) ∈ wal s0 ∨ (conditions_valid commands ∧ legal commands tbl new).

Lemma quiescent_legal s0 commands : quiescent ∅ s0 → wal_legal (alone_spec s0 commands) s0.
Proof.
  intros Hq h1 j new h2 E. split; [|by eapply (quiescent_fresh _ _ Hq)].
  left. rewrite E. apply elem_of_app. right. by left.
Qed.

Section sequential.
Context (st : Store) (i : nat) (commands : list AppendCommand) (s : server).
Context (log : list SequencedEvent) (faults : list (option db_error)).
Context (r : outcome store_error SequencePosition) (s' : server).
Hypothesis Hrep : representable commands.
Hypothesis Hs : represents s log.
Hypothesis Hfaults : Forall fault_ok faults.
Hypothesis Hrun : run i faults (Append st commands) s = Some (r, s').

(** The run, as the logic sees it. *)
Lemma run_logic :
  Inv s' ∧ wal_legal (alone_spec s commands) s' ∧
  append_outcome i (own_wal i s) commands s r s' ∧ evolves s s'.
Proof.
  destruct Hs as [Hq _ _]. pose proof (quiescent_inv _ _ Hq) as HI.
  assert (∀ tbl new, conditions_valid commands → legal commands tbl new →
    alone_spec s commands i tbl new) as Hspec by (intros tbl new ??; by right).
  apply (run_wp (alone_spec s commands) i faults (Append st commands)
    (λ r s', append_outcome i (own_wal i s) commands s r s' ∧ evolves s s') s r s');
    [done|done|by apply quiescent_legal| |done].
  apply wp_evolves; [done|]. apply Append_wp; [done|done|done|].
  split; [|done]. by rewrite (quiescent_txs _ _ Hq), lookup_empty.
Qed.

Lemma run_outcome :
  Inv s' ∧ wal_legal (alone_spec s commands) s' ∧
  append_outcome i (own_wal i s) commands s r s'.
Proof. by destruct run_logic as (?&?&?&_). Qed.

Lemma run_evolves : evolves s s'.
Proof. by destruct run_logic as (_&_&_&?). Qed.

Lemma run_txs : txs s' !! i = None → txs s' = ∅.
Proof.
  intros Hi. apply map_eq. intros j. rewrite lookup_empty.
  destruct (decide (j = i)) as [->|]; [done|].
  destruct (run_own i faults _ s r s' Hrun) as [_ Ht]. rewrite Ht by done.
  by rewrite (quiescent_txs _ _ (represents_quiescent _ _ Hs)), lookup_empty.
Qed.

Lemma run_quiescent : txs s' !! i = None → quiescent ∅ s'.
Proof.
  intros Hi. destruct run_outcome as (HI&Hlegal&_). split; [done|by apply run_txs|done|].
  intros h1 j new h2 E. by apply (Hlegal h1 j new h2).
Qed.

(** Nothing committed: the log is what it was. *)
Lemma run_unchanged : idle i (own_wal i s) s' → represents s' log.
Proof.
  intros [Hn Hw]. destruct run_outcome as (HI'&_&_).
  destruct (run_own i faults _ s r s' Hrun) as [(l&Hl&Hall) _].
  rewrite (own_wal_app i s s' l Hl Hall) in Hw.
  assert (l = []) as -> by (apply (app_inv_head (own_wal i s)); by rewrite app_nil_r).
  rewrite app_nil_r in Hl. destruct Hs as [Hq Hlog Hasc].
  split; [by apply run_quiescent| |done].
  by rewrite (inv_wal _ HI'), Hl, <-(inv_wal _ (quiescent_inv _ _ Hq)).
Qed.

(** One transaction committed: the log has grown by the events. *)
Lemma run_committed pos new :
  conditions_valid commands → all_events commands ≠ [] →
  idle i (own_wal i s ++ [(i, new)]) s' → written commands (last_position s) pos new →
  ∃ log', append_contract log commands (Ok (mkPosition pos)) log' ∧ represents s' log'.
Proof.
  intros Hvalid Hne [Hn Hw] Hwritten. destruct run_outcome as (HI'&Hlegal&_).
  destruct (run_own i faults _ s r s' Hrun) as [(l&Hl&Hall) _].
  rewrite (own_wal_app i s s' l Hl Hall) in Hw. apply app_inv_head in Hw as ->.
  destruct Hs as [Hq Hlog Hasc]. pose proof (quiescent_inv _ _ Hq) as HI.
  assert (conditions_hold log commands) as Hhold.
  { destruct (Hlegal (wal s) i new []) as [Hspec Hdis]; [done|].
    rewrite <-(inv_wal _ HI) in Hspec, Hdis. destruct Hspec as [Hin|[_ Hl']].
    - destruct (written_nonempty commands _ pos new Hwritten) as [rw Hrw].
      assert (new ⊆ table s) as Hsub.
      { rewrite (inv_wal _ HI).
        apply (own_wal_replay (alone_spec s commands) s i); [by apply quiescent_legal|].
        by apply list_elem_of_filter. }
      pose proof (lookup_weaken _ _ _ _ Hrw Hsub).
      by apply (map_disjoint_spec new (table s)) with pos rw rw in Hdis.
    - by eapply legal_conditions. }
  destruct (written_contract s log commands pos new HI Hlog Hasc Hvalid Hhold Hwritten)
    as (log'&?&?&?).
  exists log'. split; [done|]. split; [by apply run_quiescent| |done].
  by rewrite (inv_wal _ HI'), Hl, replay_snoc, <-(inv_wal _ HI).
Qed.

(** The log after the run, and its relation to the result. *)
Lemma run_contract :
  ∃ log', represents s' log' ∧
    (append_contract log commands r log' ∨
     ∃ msg pos, r = Err (EDatabase msg) ∧ append_contract log commands (Ok pos) log').
Proof.
  destruct run_outcome as (HI'&_&Hout). destruct Hs as [Hq Hlog Hasc].
  pose proof (quiescent_inv _ _ Hq) as HI.
  destruct Hout as [(e&cmd&c&Hr&Hcmd&Hc&He&Hi)|[Hvalid [(Hr&Hn&Hi)|[Hne Hp]]]].
  - exists log. split; [by apply run_unchanged|]. left. rewrite Hr. by eapply contract_invalid.
  - exists log. split; [by apply run_unchanged|]. left. rewrite Hr. by apply contract_empty.
  - assert ((∃ pos, r = Ok pos) ∨ (∃ e, r = Err e) ∨ ∃ msg, r = Panic msg)
      as [[pos Er]|[[e Er]|[msg Er]]] by (clear; destruct r; eauto);
      rewrite Er in Hp |- *; cbn in Hp; [| |done].
    + destruct Hp as (new&Hi&Hw).
      destruct (run_committed (value pos) new Hvalid Hne Hi Hw) as (log'&?&?).
      exists log'. split; [done|]. left. by destruct pos.
    + destruct Hp as [(j&c&cmd&->&Hj&Hc&Hv&Hi)|(msg&->&[Hi|(new&pos&Hi&Hw)])].
      * pose proof (run_unchanged Hi) as Hs'. exists log. split; [done|]. left.
        destruct Hv as (tbl&h&(j'&cmd'&Hj'&Hcmd'&Hhit&Hfirst)&Hsub&Hsub'&Hh).
        assert (j' = j) as -> by lia. simplify_eq.
        assert (table s' = table s) as Ht.
        { apply map_eq. intros p. apply option_eq. intros x.
          by rewrite (represents_log _ _ Hs' p x), (Hlog p x). }
        rewrite Ht in Hsub'. assert (tbl = table s) as -> by (by apply (anti_symm (⊆))).
        eapply contract_violated; [done|done|done|by eapply command_hit_violated|].
        apply Forall_forall. intros cmd2 Hcmd2 c2 Hc2 Hviol.
        apply list_elem_of_lookup_1 in Hcmd2 as [k Hk].
        apply lookup_take_Some in Hk as [Hk Hlt].
        apply (Hfirst k cmd2); [lia|done|]. by eapply violated_command_hit.
      * exists log. split; [by apply run_unchanged|]. left. constructor.
      * destruct (run_committed pos new Hvalid Hne Hi Hw) as (log'&?&?).
        exists log'. split; [done|]. right. by exists msg, (mkPosition pos).
Qed.
End sequential.

(** ** Without failures, a call returns *)

(** The program runs to its end, without waiting, in a state satisfying [Q]. *)
Fixpoint runs {A} (i : nat) (p : prog A) (s : server) (Q : A → server → Prop) : Prop :=
  match p with
  | Ret a => Q a s
  | Do c k => ∃ r s', exec_ok i c s = Some (r, s') ∧ runs i (k r) s' Q
  end.

Lemma runs_run {A} i (p : prog A) s Q : runs i p s Q →
  ∃ a s', run i [] p s = Some (a, s') ∧ Q a s'.
Proof.
  revert s. induction p as [a|c k IH]; intros s; cbn; [by exists a, s|].
  intros (r&s'&E&Hr). destruct (IH r s' Hr) as (a&s''&Hrun&HQ). exists a, s''.
  split; [|done]. change (exec None i c s) with (exec_ok i c s). rewrite E. exact Hrun.
Qed.

Lemma runs_mono {A} i (p : prog A) s (P Q : A → server → Prop) :
  (∀ a s', P a s' → Q a s') → runs i p s P → runs i p s Q.
Proof.
  intros HPQ. revert s. induction p as [a|c k IH]; intros s; cbn; [auto|].
  intros (r&s'&E&Hr). exists r, s'. auto.
Qed.

Lemma runs_bind {A B} i (m : prog A) (f : A → prog B) s Q :
  runs i m s (λ a s', runs i (f a) s' Q) → runs i (prog_bind m f) s Q.
Proof.
  revert s. induction m as [a|c k IH]; intros s; cbn; [auto|].
  intros (r&s'&E&Hr). exists r, s'. auto.
Qed.

(** Session [i] has a transaction, the only one, and [n] positions are left. *)
Definition alone (i : nat) (n : Z) (s : server) : Prop :=
  (∃ t, txs s = {[ i := t ]}) ∧ 0 ≤ n ∧ last_position s + n < two63.

Lemma alone_tx i n s : alone i n s → ∃ t, txs s !! i = Some t ∧ txs s = {[ i := t ]}.
Proof. intros [[t Ht] _]. exists t. by rewrite Ht, lookup_singleton_eq. Qed.

Lemma alone_set_tx i n s t : alone i n s → alone i n (set_tx i t s).
Proof.
  intros [[t' Ht'] Hn]. split; [|done]. exists t. cbn. by rewrite Ht', insert_singleton_eq.
Qed.

Lemma alone_grantable i n s l : alone i n s → grantable i l s.
Proof.
  intros [[t Ht] _]. unfold grantable. rewrite Ht. apply map_Forall_singleton. by left.
Qed.

(** The state that the procedures leave unchanged until they insert. *)
Definition same_data (s s' : server) : Prop :=
  table s' = table s ∧ seq_last s' = seq_last s.

#[export] Instance same_data_refl : Reflexive same_data.
Proof. by split. Qed.
#[export] Instance same_data_trans : Transitive same_data.
Proof. intros s1 s2 s3 [E1 E2] [E3 E4]. split; congruence. Qed.

Lemma runs_acquire i n ls s : alone i n s →
  runs i (acquire ls) s (λ r s', r = Ok () ∧ alone i n s' ∧ same_data s s').
Proof.
  revert s. induction ls as [|[k excl] ls IH]; intros s Hs; [done|].
  destruct (alone_tx i n s Hs) as (t&Ht&_). cbn. rewrite Ht.
  rewrite decide_True by (by eapply alone_grantable).
  eexists _, _. split; [done|].
  eapply runs_mono; [|apply IH, alone_set_tx, Hs]. cbn. intros r s' (?&?&?). done.
Qed.

(** The server procedure's error, and what follows from the insertion. *)
Definition violates (commands : list AppendCommand) (e : db_error) : Prop :=
  ∃ j cmd c, e = PgError (violation_message (Z.of_nat j)) ∧ commands !! j = Some cmd ∧
    Condition cmd = Some c ∧ in_i64 (Z.of_nat j).

Section runs.
Context (i : nat) (commands : list AppendCommand).
Hypothesis Hrep : representable commands.
Hypothesis Hvalid : conditions_valid commands.

Lemma verdict_violates tbl h idx : verdict tbl h commands (Some idx) →
  ∃ j cmd c, idx = Z.of_nat j ∧ commands !! j = Some cmd ∧ Condition cmd = Some c ∧
    in_i64 (Z.of_nat j).
Proof.
  intros (j&cmd&->&Hj&(c&_&_&Hc&_)&_). exists j, cmd, c. split_and!; try done.
  pose proof (lookup_lt_Some _ _ _ Hj). pose proof (rep_length _ Hrep).
  unfold in_i64, two63. lia.
Qed.

Lemma runs_verify n h s : alone i n s →
  runs i (verify_conditions (appended (cr_idx <$> cond_rows commands))
            (appended (cr_type <$> cond_rows commands)) (appended (cr_tags <$> cond_rows commands))
            (appended (cr_after <$> cond_rows commands)) h) s
    (λ r s', s' = s ∧ (r = Ok () ∨ ∃ e, r = Err e ∧ violates commands e)).
Proof.
  intros Hs. pose proof (rep_conditions _ Hrep) as Hclean. pose proof (rep_length _ Hrep) as Hlen.
  unfold verify_conditions. destruct (cond_rows commands) as [|row rws] eqn:Erows.
  { split; [done|by left]. }
  rewrite <-Erows, !array_elems_appended. rewrite Erows at 1.
  cbn [fmap list_fmap appended array_nonempty]. case_decide as Hone.
  - rewrite Erows in Hone. cbn in Hone. destruct rws as [|? ?]; [|done].
    rewrite Erows. cbn -[row_satisfies unpack_tags visible].
    eexists _, s. split; [done|]. cbn -[row_satisfies unpack_tags visible].
    fold (cond_fails (visible i s) h row).
    pose proof (single_verdict commands (visible i s) h Hvalid Hclean Hlen row Erows) as Hv.
    destruct (cond_fails (visible i s) h row); cbn; [|split; [done|by left]].
    apply verdict_violates in Hv as (j&cmd&c&->&?&?&?).
    split; [done|]. right. eexists. split; [done|]. by exists j, cmd, c.
  - eexists _, s. split; [done|]. cbn -[visible failing_conditions select_first].
    rewrite failing_conditions_arrays.
    pose proof (check_verdict commands (visible i s) h Hvalid Hclean Hlen) as Hv.
    fold (cond_rows commands) in Hv.
    destruct (select_first _) as [idx|]; cbn; [|split; [done|by left]].
    apply verdict_violates in Hv as (j&cmd&c&->&?&?&?).
    split; [done|]. right. eexists. split; [done|]. by exists j, cmd, c.
Qed.

(** Inserting takes consecutive positions. *)
Lemma runs_copy_rows n l s : 0 ≤ n → alone i (n + Z.of_nat (length l)) s →
  runs i (copy_rows l) s (λ r s', r = Ok () ∧ alone i n s' ∧
    last_position s' = last_position s + Z.of_nat (length l) ∧
    (l ≠ [] ∨ currvals s !! i = Some (last_position s) →
       currvals s' !! i = Some (last_position s'))).
Proof.
  intros Hn. revert s. induction l as [|ev l IH]; intros s Hs.
  { rewrite Z.add_0_r in Hs. cbn. rewrite Z.add_0_r. split_and!; [done..|].
    by intros [?|?]. }
  destruct (alone_tx i _ s Hs) as (t&Ht&Htxs). destruct Hs as [_ Hroom]. cbn [length] in Hroom.
  assert (nextval (seq_last s) = Some (last_position s + 1)) as Hnext.
  { unfold nextval, last_position, coalesce_last in *. destruct (seq_last s) as [v|]; [|done].
    cbn in *. by rewrite decide_True by lia. }
  cbn [copy_rows]. apply runs_bind. cbn. rewrite Ht, Hnext. eexists _, _. split; [done|].
  set (s1 := insert_row _ _ _ _ _).
  assert (last_position s1 = last_position s + 1) as Hlast1 by done.
  eapply runs_mono; [|apply (IH s1)].
  - cbn. intros r s' (->&Hal&Hlast&Hcur). split_and!; [done|done|lia|].
    intros _. apply Hcur. right. unfold s1. cbn. apply lookup_insert_eq.
  - split; [|lia]. eexists. cbn. rewrite Htxs. apply insert_singleton_eq.
Qed.

Hypothesis Hne : all_events commands ≠ [].

Definition total : Z := Z.of_nat (length (all_events commands)).

(** The end of both paths. *)
Lemma runs_currval_notify {B} n ch (f : Z → prog (outcome db_error B)) Q s :
  alone i n s → currvals s !! i = Some (last_position s) →
  (∀ s', alone i n s' → last_position s' = last_position s → runs i (f (last_position s)) s' Q) →
  runs i (v_pos ←! call CCurrval; call (CNotify ch (FormatInt v_pos)) ;;! f v_pos) s Q.
Proof.
  intros Hs Hcur Hf. destruct (alone_tx i _ s Hs) as (t&Ht&Htxs).
  cbn. rewrite Hcur. eexists _, _. split; [done|]. cbn. rewrite Ht. eexists _, _. split; [done|].
  cbn. apply Hf; [by apply alone_set_tx|done].
Qed.

Lemma runs_events_append ch s :
  let evs := serializeEvents commands in
  alone i total s →
  runs i (events_append ch (Some (leafX (commandKeys commands)))
            (Some (intentS (commandKeys commands)))
            (appended (ea_types evs)) (appended (ea_tags evs)) (appended (ea_payloads evs))
            (appended (cr_idx <$> cond_rows commands)) (appended (cr_type <$> cond_rows commands))
            (appended (cr_tags <$> cond_rows commands)) (appended (cr_after <$> cond_rows commands))) s
    (λ r s', (r = Ok (last_position s + total) ∧ alone i 0 s') ∨
       (∃ e, r = Err e ∧ violates commands e)).
Proof.
  intros evs Hs. unfold events_append, evs. rewrite serializeEvents_all.
  cbn [ea_types ea_tags ea_payloads]. rewrite !array_elems_appended.
  rewrite length_fmap, insert_subscripts_copy by (try done; apply Hrep).
  rewrite (keys_nonempty commands (rep_events _ Hrep) Hne).
  apply runs_bind. eapply runs_mono; [|by apply (runs_acquire i total)].
  intros r s1 (->&Hs1&Hsame1).
  apply runs_bind. eexists _, _. split; [done|]. cbn [runs].
  apply runs_bind. eapply runs_mono; [|by apply (runs_verify total)].
  intros r s2 (->&[->|(e&->&He)]); [|right; by exists e].
  assert (last_position s1 = last_position s) as Hlast1
    by (unfold last_position; by destruct Hsame1 as [_ ->]).
  apply runs_bind. eapply runs_mono; [|apply (runs_copy_rows 0)];
    [|done|by rewrite Z.add_0_l].
  intros r s3 (->&Hs3&Hlast3&Hcur3).
  apply (runs_currval_notify 0); [done|apply Hcur3; by left|].
  intros s4 Hs4 _. left. split; [|done]. f_equal. unfold total. lia.
Qed.

(** A statement that succeeds commits, and one that fails is rolled back. *)
Lemma runs_statement {A} n (body : prog (outcome db_error A)) s (P : A → Prop)
    (E : db_error → Prop) :
  txs s = ∅ → 0 ≤ n → last_position s + n < two63 →
  (∀ s', alone i n s' → same_data s s' → runs i body s' (λ r s'',
     (∃ a, r = Ok a ∧ alone i 0 s'' ∧ P a) ∨ ∃ e, r = Err e ∧ E e)) →
  runs i (statement body) s (λ r _, (∃ a, r = Ok a ∧ P a) ∨ ∃ e, r = Err e ∧ E e).
Proof.
  intros Htxs Hn Hroom Hbody. unfold statement. apply runs_bind, runs_bind.
  eexists _, _. split; [done|]. cbn [runs]. apply runs_bind.
  eapply runs_mono; [|apply Hbody; [|done]].
  2: { split; [|done]. eexists. cbn. rewrite Htxs. apply insert_empty. }
  intros r s1 [(a&->&Hs1&HP)|(e&->&He)].
  - destruct (alone_tx i _ s1 Hs1) as (t&Ht&_). cbn. rewrite Ht.
    eexists _, _. split; [done|]. cbn. eexists _, _. split; [done|]. left. by exists a.
  - eexists _, _. split; [done|]. right. by exists e.
Qed.

(** What a call returns: the position of its last event, right after the last
    one before, or the violation of one of its conditions. *)
Definition call_result (s : server) (r : outcome store_error SequencePosition) : Prop :=
  r = Ok (mkPosition (last_position s + total)) ∨
  ∃ j cmd c, r = Err (violation_error commands j c) ∧ commands !! j = Some cmd ∧
    Condition cmd = Some c.

Lemma total_pos : 0 < total.
Proof. unfold total. destruct (all_events commands); [done|]. cbn. lia. Qed.

Lemma call_result_Ok s : Inv s → last_position s + total < two63 →
  call_result s (int64ToPosition (last_position s + total)).
Proof.
  intros HI Hroom. left. pose proof (last_position_nonneg s HI). pose proof total_pos.
  by rewrite int64ToPosition_nonneg by lia.
Qed.

Lemma runs_appendViaFunction st s :
  Inv s → txs s = ∅ → last_position s + total < two63 →
  runs i (appendViaFunction st commands (commandKeys commands)) s (λ r _, call_result s r).
Proof.
  intros HI Htxs Hroom. unfold appendViaFunction.
  rewrite serializeConditions_rows by apply Hrep. fold (cond_rows commands).
  apply runs_bind. cbn [lift runs arrays_of ca_idxs ca_types ca_tags ca_after].
  apply runs_bind. eapply runs_mono; [|apply (runs_statement total _ s
    (λ pos, pos = last_position s + total) (violates commands)); [done|pose proof total_pos; lia|done|]].
  - intros r s1 [(pos&->&->)|(e&->&(j&cmd&c&->&Hj&Hc&Hidx))].
    + by apply call_result_Ok.
    + rewrite parseConditionViolation_message by done. right. exists j, cmd, c.
      split_and!; [|done|done]. by eapply conditionError_ok.
  - intros s1 Hs1 Hsame. eapply runs_mono; [|by apply runs_events_append].
    intros r s2 [[-> Hs2]|?]; [left|by right]. eexists. split_and!; [done|done|].
    unfold last_position. by destruct Hsame as [_ ->].
Qed.

Lemma runs_db {A B} (m : prog (outcome db_error A)) (f : A → prog (outcome store_error B)) s Q :
  runs i m s (λ r s', ∃ a, r = Ok a ∧ runs i (f a) s' Q) → runs i (try_bind (db m) f) s Q.
Proof.
  intros H. apply runs_bind. unfold db. apply runs_bind. eapply runs_mono; [|exact H].
  by intros r s' (a&->&Hf).
Qed.

Lemma runs_checkConditions n h s : alone i n s →
  runs i (checkConditions commands h) s (λ r s', s' = s ∧ (r = Ok None ∨
    ∃ j cmd c, r = Ok (Some (Z.of_nat j)) ∧ commands !! j = Some cmd ∧ Condition cmd = Some c)).
Proof.
  intros Hs. unfold checkConditions. rewrite serializeConditions_rows by apply Hrep.
  fold (cond_rows commands). apply runs_bind. cbn [lift runs arrays_of ca_idxs ca_types ca_tags
    ca_after]. case_decide; [split; [done|by left]|].
  unfold db. apply runs_bind. eexists _, s. split; [done|].
  cbn -[visible failing_conditions select_first]. rewrite failing_conditions_arrays.
  pose proof (check_verdict commands (visible i s) h Hvalid (rep_conditions _ Hrep)
    (rep_length _ Hrep)) as Hv. fold (cond_rows commands) in Hv.
  destruct (select_first _) as [idx|]; (split; [done|]); [right|by left].
  apply verdict_violates in Hv as (j&cmd&c&->&?&?&?). by exists j, cmd, c.
Qed.

Lemma runs_copy_transaction st s :
  Inv s → alone i total s →
  runs i (copy_transaction st commands (commandKeys commands)) s (λ r _, call_result s r).
Proof.
  intros HI Hs. pose proof Hs as (_&_&Hroom). unfold copy_transaction, acquireWriterLocksSQL.
  apply runs_db. eapply runs_mono; [|by apply (runs_acquire i total)].
  intros r s1 (->&Hs1&Hsame). eexists. split; [done|].
  assert (last_position s1 = last_position s) as Hlast1
    by (unfold last_position; by destruct Hsame as [_ ->]).
  apply runs_db. eexists _, s1. split; [done|]. eexists. split; [done|].
  apply runs_bind. eapply runs_mono; [|by apply (runs_checkConditions total)].
  intros r s2 [-> [->|(j&cmd&c&->&Hj&Hc)]].
  2: { right. exists j, cmd, c. split_and!; [|done|done]. by eapply conditionError_ok. }
  apply runs_db. fold (all_events commands).
  eapply runs_mono; [|apply (runs_copy_rows 0); [done|by rewrite Z.add_0_l]].
  intros r s3 (->&Hs3&Hlast3&Hcur3). eexists. split; [done|].
  destruct (alone_tx i _ s3 Hs3) as (t&Ht&Htxs).
  cbn -[call_result]. rewrite Hcur3 by (by left).
  eexists _, _. split; [done|]. cbn -[call_result]. rewrite Ht. eexists _, _. split; [done|].
  cbn -[call_result]. rewrite lookup_insert_eq. eexists _, _. split; [done|].
  cbn -[call_result]. eexists _, _. split; [done|]. cbn -[call_result].
  rewrite Hlast3, Hlast1. by apply call_result_Ok.
Qed.

Lemma runs_Append st s :
  Inv s → txs s = ∅ → last_position s + total < two63 →
  runs i (Append st commands) s (λ r _, call_result s r).
Proof.
  intros HI Htxs Hroom. unfold Append. apply runs_bind. cbn [lift runs].
  destruct (validate_all_spec commands) as [[-> _]|(e&cmd&c&_&Hcmd&Hc&He)].
  2: { unfold conditions_valid in Hvalid. rewrite Forall_forall in Hvalid.
       by rewrite (proj2 (ValidateAppendCondition_Ok c) (Hvalid cmd Hcmd c Hc)) in He. }
  pose proof total_pos. rewrite totalEvents_length. fold total. rewrite decide_False by lia.
  case_decide; [by apply runs_appendViaFunction|].
  unfold appendViaCopy. apply runs_db. cbn. eexists _, _. split; [done|]. eexists. split; [done|].
  apply runs_bind. eapply runs_mono; [|apply runs_copy_transaction].
  - intros r s1 Hr. cbn. by eexists _, _.
  - apply begin_inv; [done|]. by rewrite Htxs, lookup_empty.
  - split; [|split; [lia|exact Hroom]]. eexists. cbn. rewrite Htxs. apply insert_empty.
Qed.
End runs.

(** ** Positions without gaps *)

Lemma sorted_count (ps : list Z) h0 q :
  StronglySorted Z.lt ps → Forall (Z.lt h0) ps → last ps = Some q →
  h0 + Z.of_nat (length ps) ≤ q.
Proof.
  revert q. induction ps as [|p ps IH] using rev_ind; intros q Hs Hall; [done|].
  rewrite last_snoc. intros [= <-]. apply StronglySorted_app in Hs as (Hlt&Hs&_).
  apply Forall_app in Hall as [Hall Hp]. apply Forall_cons in Hp as [Hp _].
  rewrite length_app. cbn [length]. destruct (last ps) as [q'|] eqn:Hlast.
  - specialize (IH q' Hs Hall eq_refl).
    assert (q' < p) by (apply Hlt; [by eapply last_Some_elem_of|by apply list_elem_of_singleton]).
    lia.
  - apply last_None in Hlast as ->. cbn [length]. lia.
Qed.

(** As many ascending positions as there is room for are consecutive. *)
Lemma sorted_consecutive (ps : list Z) h0 :
  StronglySorted Z.lt ps → Forall (Z.lt h0) ps →
  last ps = Some (h0 + Z.of_nat (length ps)) → ps = seqZ (h0 + 1) (Z.of_nat (length ps)).
Proof.
  induction ps as [|p ps IH] using rev_ind; intros Hs Hall; [done|].
  rewrite last_snoc. intros [= Hp]. pose proof Hs as (Hlt&Hs'&_)%StronglySorted_app.
  apply Forall_app in Hall as [Hall _]. rewrite length_app in *. cbn in *.
  rewrite Nat2Z.inj_add, seqZ_app by lia. cbn.
  assert (ps = seqZ (h0 + 1) (Z.of_nat (length ps))) as E.
  { destruct (last ps) as [q|] eqn:Hlast; [|by apply last_None in Hlast as ->].
    apply IH; [done|done|]. f_equal. pose proof (sorted_count ps h0 q Hs' Hall Hlast).
    assert (q < p) by (apply Hlt; [by eapply last_Some_elem_of|by apply list_elem_of_singleton]).
    lia. }
  rewrite <-E. f_equal.
  replace p with (Z.of_nat 0 + (h0 + 1 + Z.of_nat (length ps))) by lia. done.
Qed.

Lemma written_consecutive commands h0 new :
  written commands h0 (h0 + Z.of_nat (length (all_events commands))) new →
  new = rows_at (seqZ (h0 + 1) (Z.of_nat (length (all_events commands)))) (all_events commands).
Proof.
  intros (ps&Hs&Hlen&->&Hall&Hlast&_). f_equal. rewrite <-Hlen in *. by apply sorted_consecutive.
Qed.

(** ** Properties *)

(** C7: [Append] implements the contract of [eventstore.Store] when no other
    session is active, on either path and whatever fails: afterwards the server
    represents a log that the contract relates to the result, except that a
    database error may hide a successful append, when the reply to the commit
    was lost.  In particular an append is all or nothing.  The commands are
    representable: no tag contains the delimiter, no bound is beyond [bigint]. *)
Theorem Append_implements_contract st i commands s log faults r s' :
  representable commands → represents s log → Forall fault_ok faults →
  run i faults (Append st commands) s = Some (r, s') →
  ∃ log', represents s' log' ∧
    (append_contract log commands r log' ∨
     ∃ msg pos, r = Err (EDatabase msg) ∧ append_contract log commands (Ok pos) log').
Proof. intros. by eapply run_contract. Qed.

Lemma run_Append_returns st i commands s :
  representable commands → conditions_valid commands → all_events commands ≠ [] →
  quiescent ∅ s → last_position s + Z.of_nat (length (all_events commands)) < two63 →
  ∃ r s', run i [] (Append st commands) s = Some (r, s') ∧ call_result commands s r.
Proof.
  intros Hrep Hvalid Hne Hq Hroom.
  apply runs_run. apply runs_Append; try done; apply Hq.
Qed.

Lemma call_result_no_error commands s r : call_result commands s r →
  ∀ msg, r ≠ Err (EDatabase msg).
Proof. by intros [->|(j&cmd&c&->&_)] msg. Qed.

Lemma contract_violation_inv log commands j c log' :
  append_contract log commands (Err (violation_error commands j c)) log' →
  ∃ k cmd c', violation_error commands j c = violation_error commands k c' ∧
    commands !! k = Some cmd ∧ Condition cmd = Some c' ∧ violated log c' ∧
    conditions_hold log (take k commands).
Proof.
  remember (Err (violation_error commands j c)) as r eqn:Er.
  destruct 1 as [e|msg|e cmd c1|k cmd c1 ? ? ? ? ?| |]; try (by unfold violation_error in Er).
  exists k, cmd, c1. split; [congruence|done].
Qed.

(** The contract leaves no choice between success and violation. *)
Lemma contract_Ok_iff log commands s r log' :
  call_result commands s r → append_contract log commands r log' →
  is_Ok r ↔ conditions_hold log commands.
Proof.
  intros [->|(j&cmd&c&->&_)] Hc.
  - apply append_contract_Ok in Hc as (new&se&_&_&Hhold&_). split; [done|]. intros _. by eexists.
  - split; [by intros [??]|]. intros Hhold. unfold conditions_hold in Hhold.
    apply contract_violation_inv in Hc as (k&cmd'&c'&_&Hk&Hc'&Hviol&_).
    rewrite Forall_forall in Hhold.
    by destruct (Hhold cmd' ltac:(by eapply list_elem_of_lookup_2) c' Hc').
Qed.

(** C12: without failures a call of [Append] on a server with no other session,
    for representable commands with valid conditions and at least one event,
    always returns, unless the sequence has run out of positions: it neither
    waits for a lock nor fails in the database, and it succeeds exactly when
    its conditions hold, with its events at the next consecutive positions. *)
Theorem Append_returns st i commands s log :
  representable commands → represents s log →
  conditions_valid commands → all_events commands ≠ [] →
  last_position s + Z.of_nat (length (all_events commands)) < two63 →
  ∃ r s' log', run i [] (Append st commands) s = Some (r, s') ∧
    represents s' log' ∧ append_contract log commands r log' ∧
    (is_Ok r ↔ conditions_hold log commands) ∧
    (∀ pos, r = Ok pos →
       value pos = last_position s + Z.of_nat (length (all_events commands))).
Proof.
  intros Hrep Hs Hvalid Hne Hroom.
  destruct (run_Append_returns st i commands s Hrep Hvalid Hne (represents_quiescent _ _ Hs) Hroom)
    as (r&s'&Hrun&Hr).
  destruct (run_contract st i commands s log [] r s' Hrep Hs ltac:(constructor) Hrun)
    as (log'&Hs'&[Hcon|(msg&pos&->&_)]); [|by destruct (call_result_no_error _ _ _ Hr msg)].
  exists r, s', log'. split_and!; [done..|by eapply contract_Ok_iff|].
  intros pos ->. destruct Hr as [[= ->]|(j&cmd&c&[=]&_)]. done.
Qed.

(** The first violated command is determined by the log. *)
Lemma first_violated_unique log commands k k' cmd cmd' c c' :
  commands !! k = Some cmd → Condition cmd = Some c → violated log c →
  conditions_hold log (take k commands) →
  commands !! k' = Some cmd' → Condition cmd' = Some c' → violated log c' →
  conditions_hold log (take k' commands) → k = k'.
Proof.
  intros Hk Hc Hv Hhold Hk' Hc' Hv' Hhold'. unfold conditions_hold in *.
  rewrite Forall_forall in Hhold, Hhold'.
  destruct (Nat.lt_trichotomy k k') as [Hlt|[?|Hlt]]; [|done|].
  - destruct (Hhold' cmd) with c; [|done|done].
    apply list_elem_of_lookup. exists k. by apply lookup_take_Some.
  - destruct (Hhold cmd') with c'; [|done|done].
    apply list_elem_of_lookup. exists k'. by apply lookup_take_Some.
Qed.

Lemma represents_table s s' log : represents s log → represents s' log → table s = table s'.
Proof.
  intros [_ H _] [_ H' _]. apply map_eq. intros p. apply option_eq. intros x.
  by rewrite (H p x), (H' p x).
Qed.

(** A successful call in a run alone writes consecutive positions. *)
Lemma run_Ok_table st i commands s log r s' :
  representable commands → represents s log → run i [] (Append st commands) s = Some (r, s') →
  r = Ok (mkPosition (last_position s + Z.of_nat (length (all_events commands)))) →
  table s' = rows_at (seqZ (last_position s + 1) (Z.of_nat (length (all_events commands))))
    (all_events commands) ∪ table s.
Proof.
  intros Hrep Hs Hrun ->.
  destruct (run_outcome st i commands s log [] _ s' Hrep Hs ltac:(constructor) Hrun)
    as (HI'&_&[(?&?&?&[=]&_)|[_ [([=]&_)|[_ (new&[_ Hw]&Hwritten)]]]]).
  apply written_consecutive in Hwritten as ->.
  destruct (run_own i [] _ s _ s' Hrun) as [(l&Hl&Hall) _].
  rewrite (own_wal_app i s s' l Hl Hall) in Hw. apply app_inv_head in Hw as ->.
  rewrite (inv_wal _ HI'), Hl, replay_snoc.
  by rewrite <-(inv_wal _ (quiescent_inv _ _ (represents_quiescent _ _ Hs))).
Qed.

(** C11: the two paths of [Append] are interchangeable: on a server with no
    other session and without failures, a call returns the same result and
    leaves the same table whatever the copy threshold, that is, whether the
    stored procedure or the explicit transaction with COPY does the work.  That
    holds for representable commands (the paths differ on tags with the
    delimiter) and while the sequence has room for the events. *)
Theorem append_paths_equivalent st st' i commands s log r s1 r' s1' :
  representable commands → represents s log →
  last_position s + Z.of_nat (length (all_events commands)) < two63 →
  run i [] (Append st commands) s = Some (r, s1) →
  run i [] (Append st' commands) s = Some (r', s1') →
  r = r' ∧ table s1 = table s1'.
Proof.
  intros Hrep Hs Hroom Hrun Hrun'.
  destruct (validate_all_spec commands) as [[Hval Hvalid]|(e&cmd&c&Hval&_)].
  2: { unfold Append in Hrun, Hrun'. rewrite Hval in Hrun, Hrun'. cbn in *. by simplify_eq. }
  destruct (decide (all_events commands = [])) as [Hne|Hne].
  { unfold Append in Hrun, Hrun'. rewrite Hval, totalEvents_length, Hne in Hrun, Hrun'.
    cbn -[decide] in Hrun, Hrun'. rewrite decide_True in Hrun, Hrun' by done.
    cbn in Hrun, Hrun'. by simplify_eq. }
  destruct (run_Append_returns st i commands s Hrep Hvalid Hne (represents_quiescent _ _ Hs) Hroom)
    as (r0&s0&Hr0&Hres). rewrite Hrun in Hr0. injection Hr0 as <- <-.
  destruct (run_Append_returns st' i commands s Hrep Hvalid Hne (represents_quiescent _ _ Hs) Hroom)
    as (r0&s0&Hr0&Hres'). rewrite Hrun' in Hr0. injection Hr0 as <- <-.
  destruct (run_contract st i commands s log [] r s1 Hrep Hs ltac:(constructor) Hrun)
    as (log1&Hs1&[Hc1|(msg&?&->&_)]); [|by destruct (call_result_no_error _ _ _ Hres msg)].
  destruct (run_contract st' i commands s log [] r' s1' Hrep Hs ltac:(constructor) Hrun')
    as (log2&Hs2&[Hc2|(msg&?&->&_)]); [|by destruct (call_result_no_error _ _ _ Hres' msg)].
  pose proof (contract_Ok_iff _ _ _ _ _ Hres Hc1) as Hiff.
  pose proof (contract_Ok_iff _ _ _ _ _ Hres' Hc2) as Hiff'.
  destruct Hres as [Hr|(j&cmd&c&->&_)], Hres' as [Hr'|(j'&cmd'&c'&->&_)].
  - split; [congruence|]. rewrite (run_Ok_table st i commands s log r s1) by done.
    by rewrite (run_Ok_table st' i commands s log r' s1') by done.
  - destruct (proj2 Hiff') as [??]; [|done]. apply Hiff. rewrite Hr. by eexists.
  - destruct (proj2 Hiff) as [??]; [|done]. apply Hiff'. rewrite Hr'. by eexists.
  - pose proof (append_contract_err _ _ _ _ Hc1) as ->.
    pose proof (append_contract_err _ _ _ _ Hc2) as ->. split; [|by eapply represents_table].
    apply contract_violation_inv in Hc1 as (k&cmd1&c1&->&Hk1&Hcc1&Hv1&Hh1).
    apply contract_violation_inv in Hc2 as (k'&cmd2&c2&->&Hk2&Hcc2&Hv2&Hh2).
    assert (k = k') as -> by (by eapply first_violated_unique).
    assert (c1 = c2) as -> by congruence. done.
Qed.

(** ** Witnesses *)

Lemma empty_represents : represents empty_server [].
Proof. split; [apply empty_quiescent|apply holds_log_nil|constructor]. Qed.

Lemma w_once_valid : conditions_valid w_once.
Proof. apply (bool_decide_unpack _). vm_compute. exact I. Qed.

Definition w_after (st : Store) : server :=
  match run 0 [] (Append st w_once) empty_server with Some (_, s) => s | None => empty_server end.

Lemma Append_implements_contract_witness :
  run 0 [] (Append w_store w_once) empty_server = Some (Ok (mkPosition 1), w_after w_store) ∧
  ∃ log', represents (w_after w_store) log' ∧
    (append_contract [] w_once (Ok (mkPosition 1)) log' ∨
     ∃ msg pos, Ok (A:=SequencePosition) (mkPosition 1) = Err (EDatabase msg) ∧
       append_contract [] w_once (Ok pos) log').
Proof.
  assert (run 0 [] (Append w_store w_once) empty_server =
    Some (Ok (mkPosition 1), w_after w_store)) as Hrun by (vm_compute; reflexivity).
  split; [exact Hrun|].
  refine (Append_implements_contract w_store 0 w_once empty_server [] [] _ _ _ empty_represents
    _ Hrun).
  - apply w_representable; [by intros c [= <-]|repeat constructor].
  - constructor.
Defined.

Lemma Append_returns_witness :
  ∃ r s' log', run 0 [] (Append w_store w_twice) empty_server = Some (r, s') ∧
    represents s' log' ∧ append_contract [] w_twice r log' ∧
    (is_Ok r ↔ conditions_hold [] w_twice) ∧ (∀ pos, r = Ok pos → value pos = 0 + 2).
Proof.
  refine (Append_returns w_store 0 w_twice empty_server [] _ empty_represents _ _ _).
  - apply w_representable; [by intros c [= <-]|repeat constructor].
  - apply (bool_decide_unpack _). vm_compute. exact I.
  - vm_compute. intros [=].
  - vm_compute. reflexivity.
Defined.

(** The same call with a threshold that sends it through COPY. *)
Definition w_copy_store : Store := mkStore "events" "events_append" "events_check_conditions"
  "events_barrier_hwm" "events" 0.

Lemma append_paths_equivalent_witness :
  table (w_after w_store) = table (w_after w_copy_store) ∧
  notified (w_after w_store) = [("events", "1")].
Proof.
  split; [|vm_compute; reflexivity].
  refine (proj2 (append_paths_equivalent w_store w_copy_store 0 w_once empty_server []
    (Ok (mkPosition 1)) (w_after w_store) (Ok (mkPosition 1)) (w_after w_copy_store)
    _ empty_represents _ _ _)).
  - apply w_representable; [by intros c [= <-]|repeat constructor].
  - vm_compute. reflexivity.
  - vm_compute. reflexivity.
  - vm_compute. reflexivity.
Defined.
