(* ===== verification/PgSequentialRead.v ===== *)
(** * PgSequentialRead

    [Read] of the Postgres store without other sessions: it returns, and what
    its iterator collects is what the in-memory store returns for the same
    log, query and options. *)

From S2P Require Import Prelude.
From S2P Require Import SequencePosition.
From S2P Require Import Tags.
From S2P Require Import EventStore.
From S2P Require Import Iterator.
From S2P Require Import Matching.
From S2P Require Import StoreSpec.
From S2P Require Import LockKeys.
From S2P Require Import Serialize.
From S2P Require Import PgServer.
From S2P Require Import SqlText.
From S2P Require Import ReadSQL.
From S2P Require Import PgProcedures.
From S2P Require Import PgStore.
From S2P Require Import PgConditions.
From S2P Require Import Cursor.
From S2P Require Import PgLogic.
From S2P Require Import PgRules.
From S2P Require Import PgBarrier.
From S2P Require Import PgRead.
From S2P Require Import PgConcurrency.
From S2P Require Import PgSequential.

Local Open Scope Z_scope.

(** ** What a read alone establishes *)

Section sequential.
Context (st : Store) (i : nat) (fetches : list (option db_error)) (q : Query) (opts : ReadOptions).
Context (s : server) (log : list SequencedEvent) (faults : list (option db_error)).
Hypothesis Hs : represents s log.
Hypothesis Hfits : after_fits_opts opts.

(** A read commits nothing. *)
Definition reader_spec (j : nat) (tbl new : rows) : Prop := (j, new) ∈ wal s ∨ new = ∅.

Section run.
Context (r : outcome store_error cursorIterator) (s' : server).
Hypothesis Hfaults : Forall fault_ok faults.
Hypothesis Hrun : run i faults (Read st fetches q opts) s = Some (r, s').

Lemma reader_legal : wal_legal reader_spec s.
Proof.
  destruct Hs as [Hq _ _]. intros h1 j new h2 E. split; [|by eapply (quiescent_fresh _ _ Hq)].
  left. rewrite E. apply elem_of_app. right. by left.
Qed.

Lemma read_outcome :
  Inv s' ∧ wal_legal reader_spec s' ∧ evolves s s' ∧ match r with
    | Ok it => session i empty_tx (read_wal i (own_wal i s) opts) s' ∧
        ∃ h snapshot, read_done q opts fetches s s' h snapshot it
    | Err e => ∃ msg, e = EDatabase msg
    | Panic _ => False
    end.
Proof.
  destruct Hs as [Hq _ _]. pose proof (quiescent_inv _ _ Hq) as HI.
  destruct (run_wp reader_spec i faults (Read st fetches q opts) _ s r s' Hfaults HI reader_legal
    (wp_evolves reader_spec i _ _ s s (reflexivity s)
      (Read_wp reader_spec i (own_wal i s) st fetches q opts (λ tbl, or_intror eq_refl) Hfits s HI
        (conj (eq_trans (f_equal (lookup i) (quiescent_txs _ _ Hq)) (lookup_empty i)) eq_refl)))
    Hrun) as (HI'&Hlegal'&Hr&Hev).
  by destruct r.
Qed.

(** The table is still the log's, and the cursor ran on it. *)
Lemma read_snapshot it : r = Ok it →
  table s' = table s ∧ ∃ h, read_done q opts fetches s s' h (table s) it.
Proof.
  intros Er. destruct read_outcome as (HI'&_&_&Hr). rewrite Er in Hr.
  destruct Hr as ([_ Hw]&h&snapshot&Hdone).
  assert (table s' = table s) as Htab.
  { destruct (run_own i faults _ s r s' Hrun) as [(l&Hl&Hall) _].
    rewrite (own_wal_app i s s' l Hl Hall) in Hw. unfold read_wal in Hw.
    pose proof (quiescent_inv _ _ (represents_quiescent _ _ Hs)) as HI.
    rewrite (inv_wal _ HI'), (inv_wal _ HI), Hl. destruct (Backwards opts).
    - assert (l = []) as -> by (apply (app_inv_head (own_wal i s)); by rewrite app_nil_r).
      by rewrite app_nil_r.
    - apply app_inv_head in Hw as ->. rewrite replay_snoc. cbn. by rewrite (left_id_L ∅ (∪)). }
  split; [done|]. exists h. assert (snapshot = table s) as <-; [|done].
  apply (anti_symm (⊆)); [rewrite <-Htab; apply Hdone|apply Hdone].
Qed.
End run.
End sequential.

(** ** Collecting the result *)

Section collect.
Context (q : Query) (opts : ReadOptions) (fetches : list (option db_error)).
Context (s s' : server) (log : list SequencedEvent) (h : option Z) (it : cursorIterator).
Hypothesis Hs : represents s log.
Hypothesis Hdone : read_done q opts fetches s s' h (table s) it.
Hypothesis Hwf : query_wf q.
Hypothesis Hsingle : single_tags q.

Lemma read_cursor_rows :
  it = fresh_cursor (event_row <$> matchingEvents log q opts) fetches.
Proof.
  destruct Hs as [Hq Hlog Hasc]. pose proof (quiescent_inv _ _ Hq) as HI.
  destruct Hdone as [(l&Hl&->) _ _ Hmark].
  rewrite (read_selection_log q opts h (table s) log l) by
    (try done; intros se hwm Hse ->; destruct Hmark as (_&?&_);
     destruct (holds_log_position s log se HI Hlog Hse); lia).
  by rewrite limit_to_fmap, matchingEvents_selection.
Qed.

Lemma matching_in_log se : se ∈ matchingEvents log q opts → se ∈ log.
Proof.
  intros Hse. rewrite matchingEvents_selection in Hse.
  pose proof (elem_of_prefix _ _ _ Hse (limit_to_prefix _ _)) as Hsel.
  by apply elem_of_selection in Hsel as [? _].
Qed.

Lemma matching_length : (length (matchingEvents log q opts) ≤ length log)%nat.
Proof.
  rewrite matchingEvents_selection. etrans; [apply prefix_length, limit_to_prefix|].
  unfold selection. destruct (Backwards opts); rewrite ?length_reverse; apply length_filter.
Qed.

Lemma log_positions se : se ∈ log → 0 ≤ value (Position se) < two63.
Proof.
  intros Hse. destruct Hs as [Hq Hlog _]. pose proof (quiescent_inv _ _ Hq) as HI.
  destruct (holds_log_position s log se HI Hlog Hse) as [H1 H2].
  assert (last_position s < two63); [|lia]. unfold last_position, coalesce_last.
  destruct (seq_last s) as [v|] eqn:Hv; [|done]. apply (inv_seq _ HI v Hv).
Qed.

Lemma collect_read fuel :
  Forall (λ se, decodable (se_Event se)) log → Forall (eq None) fetches →
  (length (matchingEvents log q opts) < fuel)%nat →
  ∃ it', Collect fuel it = Some (Ok (stored_at <$> matchingEvents log q opts, None), it') ∧
    cursor_closed it' = true.
Proof.
  intros Hdec Hf Hfuel. rewrite read_cursor_rows. set (rws := event_row <$> matchingEvents log q opts).
  assert (collect_rows rws = Ok (stored_at <$> matchingEvents log q opts)) as Hc.
  { apply collect_event_rows, Forall_forall. intros se Hse%matching_in_log.
    rewrite Forall_forall in Hdec. split; [by apply log_positions|by apply Hdec]. }
  assert (length rws = length (matchingEvents log q opts)) as Hlen by (unfold rws; by rewrite length_fmap).
  destruct (collect_fresh rws fetches fuel) as (it'&E&?).
  - apply Forall_fmap, Forall_forall. intros se Hse%matching_in_log. by apply log_positions.
  - lia.
  - exists it'. by rewrite E, (batches_complete _ rws fetches _ (Nat.lt_succ_diag_r _) Hf Hc).
Qed.
End collect.

(** ** Without failures, a read returns *)

Lemma alone_begin i s : Inv s → txs s = ∅ → alone i 0 (set_tx i empty_tx s).
Proof.
  intros HI Htxs. split.
  - exists empty_tx. cbn. by rewrite Htxs.
  - split; [done|]. unfold last_position, coalesce_last. cbn.
    destruct (seq_last s) as [v|] eqn:Hv; cbn; [|done]. pose proof (inv_seq _ HI v Hv). lia.
Qed.

Lemma runs_barrierSnapshot i q s : Inv s → txs s = ∅ →
  runs i (barrierSnapshot q) s (λ r s', ∃ h, r = Ok h ∧ txs s' = ∅).
Proof.
  intros HI Htxs. unfold barrierSnapshot, db, statement.
  apply runs_bind, runs_bind. apply runs_bind.
  cbn [call runs exec_ok]. eexists _, _. split; [done|].
  apply runs_bind. unfold barrier_hwm. apply runs_bind.
  eapply runs_mono; [|by apply (runs_acquire i 0), alone_begin].
  intros r s1 (->&Hal&_). destruct (alone_tx i 0 s1 Hal) as (t&Ht&Htx).
  cbn. eexists _, _. split; [done|]. cbn. rewrite Ht. eexists _, _. split; [done|].
  eexists _, _. split; [done|]. exists (coalesce_last (seq_last s1)). split; [done|].
  cbn. by rewrite Htx, delete_singleton_eq.
Qed.

(** Up to the declaration, whatever it answers. *)
Lemma runs_Read_declare st i fetches q opts s (Q : outcome store_error cursorIterator → Prop) :
  Inv s → txs s = ∅ → after_fits_opts opts →
  (∀ h snapshot, let '(st', args) := read_statement q opts h in
     match declare (tableName st) (render_statement (tableName st) st') args snapshot with
     | Ok rws => Q (Ok (fresh_cursor rws fetches))
     | Err e => Q (Err (db_store_error e))
     | Panic msg => Q (Panic msg)
     end) →
  runs i (Read st fetches q opts) s (λ r _, Q r).
Proof.
  intros HI Htxs Hfits HQ. unfold Read. apply runs_bind.
  eapply (runs_mono _ _ _ (λ r s', (∃ h, r = Ok h) ∧ txs s' = ∅)).
  - intros r s1 [[h ->] Htx1]. apply runs_bind. unfold db. apply runs_bind.
    cbn [call runs exec_ok]. eexists _, _. split; [done|]. cbn [map_err runs]. unfold lift.
    rewrite buildReadSQL_render by done. specialize (HQ h (visible i (set_tx i (mkTx ∅ [] []) s1))).
    destruct (read_statement q opts h) as [sq args].
    cbn -[declare]. eexists _, _. split; [done|]. cbn -[declare].
    destruct (declare _ _ _ _); [done|by eexists _, _..].
  - unfold upper_bound. destruct (Backwards opts); cbn [negb].
    + split; [by exists None|done].
    + apply runs_bind. eapply runs_mono; [|by apply runs_barrierSnapshot].
      intros r s1 (h&->&Htx). cbn. split; [by eexists|done].
Qed.

Lemma runs_Read st i fetches q opts s : Inv s → txs s = ∅ → after_fits_opts opts →
  few_arguments q → runs i (Read st fetches q opts) s (λ r _, is_Ok r).
Proof.
  intros HI Htxs Hfits Hfew. apply runs_Read_declare; [done..|]. intros h snapshot.
  pose proof (declare_few (tableName st) q opts h snapshot Hfew) as Hd.
  destruct (read_statement q opts h) as [sq args]. rewrite Hd. by eexists.
Qed.

Lemma runs_Read_returns st i fetches q opts s : Inv s → txs s = ∅ → after_fits_opts opts →
  runs i (Read st fetches q opts) s (λ _ _, True).
Proof.
  intros HI Htxs Hfits. apply (runs_Read_declare _ _ _ _ _ _ (λ _, True)); [done..|].
  intros h snapshot. by destruct (read_statement q opts h), (declare _ _ _ _).
Qed.

(** ** Properties *)

(** C13: a read that runs without other sessions returns what the in-memory
    store returns, as the Postgres store gives it back: nil payloads come back
    as [null].  It holds for queries built by the constructors (not for the
    zero query) of which no item has more than one tag, for a bound within
    [bigint], on a log of events that decode.  The read always returns an
    iterator when nothing fails and its arguments fit into a statement; its
    iterator, if no fetch fails, collects exactly the stored form of the events
    that the in-memory store selects from the same log for the same query and
    options, in the same order and up to the same limit; and otherwise the
    read reports a database error. *)
Theorem Read_agrees_with_memory st i fetches q opts s log :
  represents s log → after_fits_opts opts → query_wf q → single_tags q →
  Forall (λ se, decodable (se_Event se)) log →
  (few_arguments q → ∃ it s', run i [] (Read st fetches q opts) s = Some (Ok it, s')) ∧
  (∃ r s', run i [] (Read st fetches q opts) s = Some (r, s')) ∧
  ∀ faults r s', Forall fault_ok faults → run i faults (Read st fetches q opts) s = Some (r, s') →
    match r with
    | Ok it => table s' = table s ∧ ∀ fuel, Forall (eq None) fetches → (length log < fuel)%nat →
        ∃ it', Collect fuel it = Some (Ok (stored_at <$> matchingEvents log q opts, None), it') ∧
          cursor_closed it' = true
    | Err e => ∃ msg, e = EDatabase msg
    | Panic _ => False
    end.
Proof.
  intros Hs Hfits Hwf Hsingle Hdec. pose proof (represents_quiescent _ _ Hs) as Hq.
  pose proof (quiescent_inv _ _ Hq) as HI. pose proof (quiescent_txs _ _ Hq) as Htxs. split_and!.
  - intros Hfew. destruct (runs_run i (Read st fetches q opts) s _
      (runs_Read st i fetches q opts s HI Htxs Hfits Hfew)) as (r&s'&Hrun&[it ->]).
    by exists it, s'.
  - destruct (runs_run i (Read st fetches q opts) s _
      (runs_Read_returns st i fetches q opts s HI Htxs Hfits)) as (r&s'&Hrun&_).
    by exists r, s'.
  - intros faults r s' Hf Hrun.
    destruct (read_outcome st i fetches q opts s log faults Hs Hfits r s' Hf Hrun) as (_&_&_&Hr).
    destruct r as [it|e|msg]; [|done|done].
    destruct (read_snapshot st i fetches q opts s log faults Hs Hfits (Ok it) s' Hf Hrun it eq_refl)
      as (Htab&h&Hdone).
    split; [done|]. intros fuel Hfetch Hfuel. pose proof (matching_length q opts log).
    eapply (collect_read q opts fetches s s' log h); try done. lia.
Qed.

(** *** Witness: reading back the first append *)

Definition w_once_log : list SequencedEvent := [mkSequenced w_event (mkPosition 1)].

Lemma w_once_represents : represents (w_after w_store) w_once_log.
Proof.
  assert (run 0 [] (Append w_store w_once) empty_server =
    Some (Ok (mkPosition 1), w_after w_store)) as Hrun by (vm_compute; reflexivity).
  destruct (run_contract w_store 0 w_once empty_server [] [] (Ok (mkPosition 1)) (w_after w_store))
    as (log&Hlog&[Hc|(msg&pos&[=]&_)]).
  - apply w_representable; [by intros c [= <-]|by repeat constructor].
  - apply empty_represents.
  - constructor.
  - done.
  - apply append_contract_Ok in Hc as (new&se&->&Hev&_&_&Hlast&Hp).
    destruct new as [|[ev p] [|??]]; [done| |done]. cbn in Hlast. injection Hlast as <-.
    cbn in Hp. subst p. by injection Hev as ->.
Qed.

Definition w_all : ReadOptions := mkReadOptions false None 0.

Lemma Read_agrees_with_memory_witness :
  stored_at <$> matchingEvents w_once_log w_query w_all =
    [mkSequenced (stored w_event) (mkPosition 1)] ∧
  ∃ it s', run 5 [] (Read w_store [] w_query w_all) (w_after w_store) = Some (Ok it, s').
Proof.
  split; [vm_compute; reflexivity|].
  refine (proj1 (Read_agrees_with_memory w_store 5 [] w_query w_all (w_after w_store) w_once_log
    w_once_represents _ _ _ _) _).
  - by intros pos [=].
  - right. split_and!; [done|done|by repeat constructor].
  - constructor; [|constructor]. by vm_compute.
  - constructor; [|constructor]. split_and!; [|by vm_compute..].
    intros v Hv. cbn in Hv. apply elem_of_singleton in Hv as ->. by vm_compute.
  - vm_compute. intros [=].
Defined.
