(* ===== verification/PgDeadlock.v ===== *)
(** * PgDeadlock

    Appends, read barriers and reads never deadlock on their advisory locks: every
    call takes its locks in one key-ordered pass ([src/postgres/append.go],
    [src/postgres/store.go]), so that in any configuration in which calls are
    unfinished some call can take its next step.

    The proof types programs by the locks they hold ([ord]): a lock may only be
    requested when its key is above all keys held.  The server answers with
    values of the right type ([val_typed]). *)

From S2P Require Import Prelude.
From S2P Require Import SequencePosition.
From S2P Require Import EventStore.
From S2P Require Import StoreSpec.
From S2P Require Import LockKeys.
From S2P Require Import Serialize.
From S2P Require Import PgServer.
From S2P Require Import SqlText.
From S2P Require Import ReadSQL.
From S2P Require Import PgProcedures.
From S2P Require Import PgStore.
From S2P Require Import Iterator.
From S2P Require Import Cursor.
From S2P Require Import PgLogic.
From S2P Require Import PgTyping.
From S2P Require Import PgBarrier.
From S2P Require Import PgRead.
From S2P Require Import PgSubscribe.
From S2P Require Import PgAppend.
From S2P Require Import PgConcurrency.

Local Open Scope Z_scope.

(** ** Programs that request locks in key order *)

(** The locks of the open transaction, if there is one. *)
Notation held := (option (list lock)).

Definition succeeded {E A} (r : outcome E A) : bool :=
  match r with Ok _ => true | _ => false end.

(** How a command changes them. *)
Definition after (c : cmd) (ok : bool) (h : held) : held :=
  match c with
  | CBegin => if ok then Some [] else h
  | CLock k excl => if ok then cons (k, excl) <$> h else h
  | CCommit => if ok then None else h
  | CRollback => None
  | _ => h
  end.

Definition above (c : cmd) (h : held) : Prop :=
  match c, h with
  | CLock k _, Some ls => ∀ l, l ∈ ls → l.1 < k
  | _, _ => True
  end.

Fixpoint ord {A} (h : held) (p : prog A) (Q : A → held → Prop) : Prop :=
  match p with
  | Ret a => Q a h
  | Do c k => above c h ∧ ∀ r, val_typed c r → ord (after c (succeeded r) h) (k r) Q
  end.

Lemma ord_mono {A} h (p : prog A) (P Q : A → held → Prop) :
  (∀ a h', P a h' → Q a h') → ord h p P → ord h p Q.
Proof.
  intros HPQ. revert h. induction p as [a|c k IH]; intros h; cbn; [auto|].
  intros [Ha Hk]. split; [done|]. intros r Hr. by apply IH, Hk.
Qed.

Lemma ord_bind {A B} h (m : prog A) (f : A → prog B) Q :
  ord h m (λ a h', ord h' (f a) Q) → ord h (prog_bind m f) Q.
Proof.
  revert h. induction m as [a|c k IH]; intros h; cbn; [auto|].
  intros [Ha Hk]. split; [done|]. intros r Hr. by apply IH, Hk.
Qed.

(** Some transaction is open. *)
Definition open_tx {A} (a : A) (h : held) : Prop := is_Some h.

Lemma ord_try {E A B} h (m : prog (outcome E A)) (f : A → prog (outcome E B)) :
  ord h m open_tx → (∀ a h', is_Some h' → ord h' (f a) open_tx) → ord h (try_bind m f) open_tx.
Proof.
  intros Hm Hf. apply ord_bind. eapply ord_mono; [|exact Hm].
  intros [a|e|msg] h' Hh; [by apply Hf|done|done].
Qed.

(** Commands that leave the transaction as it is. *)
Definition plain (c : cmd) : bool :=
  match c with CBegin | CLock _ _ | CCommit | CRollback => false | _ => true end.

Lemma ord_plain {E A} h c (k : outcome db_error (val c) → prog (outcome E A)) :
  plain c = true → is_Some h → (∀ r h', is_Some h' → ord h' (k r) open_tx) →
  ord h (Do c k) open_tx.
Proof. intros Hc Hh Hk. destruct c; try done; (split; [done|]); intros o _; by apply Hk. Qed.

Lemma ord_call h c : plain c = true → is_Some h → ord h (call c) open_tx.
Proof. intros. by apply ord_plain. Qed.

(** ** The parts of the calls *)

(** Locks in strictly ascending order, above those already held. *)
Lemma ord_acquire ls hs :
  StronglySorted (λ l l' : lock, l.1 < l'.1) ls →
  (∀ l l', l ∈ hs → l' ∈ ls → l.1 < l'.1) → ord (Some hs) (acquire ls) open_tx.
Proof.
  intros Hs. revert hs. induction Hs as [|[k excl] ls Hs IH Hall]; intros hs Hhs; [by eexists|].
  cbn. split.
  { intros l Hl. apply (Hhs l (k, excl) Hl). by left. }
  intros [[]|e|msg] _; cbn; [|by eexists..]. apply IH.
  rewrite Forall_forall in Hall. intros l l' [->|Hl]%elem_of_cons Hl'; [by apply Hall|].
  apply Hhs; [done|by right].
Qed.

Lemma ord_verify h idxs types tags after hwm : is_Some h →
  ord h (verify_conditions idxs types tags after hwm) open_tx.
Proof.
  intros Hh. unfold verify_conditions, check_conditions.
  destruct (array_nonempty _); [|done]. case_decide.
  - apply ord_try; [by apply ord_call|]. intros snap h' Hh'. by case_match.
  - apply ord_try; [apply ord_try; [by apply ord_call|done]|]. intros o h' Hh'. by destruct o.
Qed.

Lemma ord_insert_subscripts h subs types tags payloads : is_Some h →
  ord h (insert_subscripts subs types tags payloads) open_tx.
Proof.
  revert h. induction subs as [|i subs IH]; intros h Hh; cbn -[try_bind]; [done|].
  repeat case_match; try done. apply ord_try; [by apply ord_call|]. intros _. apply IH.
Qed.

Lemma ord_copy_rows h events : is_Some h → ord h (copy_rows events) open_tx.
Proof.
  revert h. induction events as [|ev events IH]; intros h Hh; cbn -[try_bind]; [done|].
  apply ord_try; [by apply ord_call|]. intros _. apply IH.
Qed.

(** A statement starts and ends without a transaction. *)
Definition closed {A} (a : A) (h : held) : Prop := h = None.

Lemma ord_statement {A} (body : prog (outcome db_error A)) :
  ord (Some []) body open_tx → ord None (statement body) closed.
Proof.
  intros Hbody. unfold statement. apply ord_bind.
  apply ord_mono with (P := λ r h, match r with Ok _ => h = None | _ => True end).
  { intros [a|e|msg] h; [by intros ->|done..]. }
  unfold try_bind. apply ord_bind. split; [done|].
  intros [[]|e|msg] _; [|done..]. cbn [after succeeded ord]. apply ord_bind.
  eapply ord_mono; [|exact Hbody]. intros [a|e|msg] h _; [|done..].
  cbn. split; [done|]. intros [[]|e|msg] _; cbn; [|done..].
  split; [done|]. by intros [[]|e|msg] _.
Qed.

Lemma distinct_keys_sorted (ls : list lock) :
  StronglySorted key_le ls → NoDup ls.*1 → StronglySorted (λ l l' : lock, l.1 < l'.1) ls.
Proof.
  induction 1 as [|x xs Hs IH Hall]; intros Hkeys; [constructor|].
  cbn in Hkeys. apply NoDup_cons in Hkeys as [Hx Hkeys].
  apply StronglySorted_cons. split; [|by apply IH]. rewrite Forall_forall in *.
  intros y Hy. specialize (Hall y Hy). unfold key_le in Hall.
  assert (x.1 ≠ y.1); [|lia]. intros E. apply Hx. rewrite E. by apply list_elem_of_fmap_2.
Qed.

Lemma key_ordered_sorted a m b m' :
  NoDup (a ++ b) →
  StronglySorted (λ l l' : lock, l.1 < l'.1) (key_ordered (Some a) m (Some b) m').
Proof.
  intros Hnd. apply distinct_keys_sorted; [apply StronglySorted_merge_sort; apply _|].
  unfold key_ordered. rewrite merge_sort_Permutation, fmap_app, <-!list_fmap_compose.
  change (NoDup ((id <$> a) ++ (id <$> b))). by rewrite !list_fmap_id.
Qed.

(** ** The calls *)

(** No leaf key of the call is also an intent key: a collision would have the
    call ask for the same key twice. *)
Definition task_keys (t : task) : list Z :=
  match t with
  | TAppend commands => leafX (commandKeys commands) ++ intentS (commandKeys commands)
  | TBarrier q => leafS (computeReaderLockKeys q) ++ intentX (computeReaderLockKeys q)
  | TRead q opts _ =>
      if Backwards opts then []
      else leafS (computeReaderLockKeys q) ++ intentX (computeReaderLockKeys q)
  | TSubscribe _ _ q _ _ _ => leafS (computeReaderLockKeys q) ++ intentX (computeReaderLockKeys q)
  end.

Lemma ord_events_append ch commands evs conds :
  NoDup (task_keys (TAppend commands)) →
  ord (Some []) (events_append ch (Some (leafX (commandKeys commands)))
    (Some (intentS (commandKeys commands)))
    (appended (ea_types evs)) (appended (ea_tags evs)) (appended (ea_payloads evs))
    (appended (ca_idxs conds)) (appended (ca_types conds)) (appended (ca_tags conds))
    (appended (ca_after conds))) open_tx.
Proof.
  intros Hnd. unfold events_append. apply ord_try.
  { case_match; [|by eexists]. apply ord_acquire; [by apply key_ordered_sorted|].
    by intros l l' ?%elem_of_nil. }
  intros _ h1 Hh1. apply ord_try; [by apply ord_call|]. intros last h2 Hh2.
  apply ord_try; [by apply ord_verify|]. intros _ h3 Hh3.
  apply ord_try; [by apply ord_insert_subscripts|]. intros _ h4 Hh4.
  apply ord_try; [by apply ord_call|]. intros pos h5 Hh5.
  apply ord_try; [by apply ord_call|]. by intros _ h6 Hh6.
Qed.

Lemma ord_db {A} h (m : prog (outcome db_error A)) : ord h m open_tx → ord h (db m) open_tx.
Proof. intros Hm. apply ord_bind. eapply ord_mono; [|exact Hm]. done. Qed.

Definition anything {A} (a : A) (h : held) : Prop := True.

Lemma ord_then {E A B} h (m : prog (outcome E A)) (f : A → prog (outcome E B)) :
  ord h m open_tx → (∀ a h', is_Some h' → ord h' (f a) anything) →
  ord h (try_bind m f) anything.
Proof.
  intros Hm Hf. apply ord_bind. eapply ord_mono; [|exact Hm].
  intros [a|e|msg] h' Hh; [by apply Hf|done|done].
Qed.

Lemma ord_checkConditions h commands hwm : is_Some h →
  ord h (checkConditions commands hwm) open_tx.
Proof.
  intros Hh. apply ord_try; [done|]. intros conds h1 Hh1. case_decide; [done|].
  apply ord_db. unfold check_conditions. apply ord_try; [by apply ord_call|done].
Qed.

Lemma ord_copy_transaction st commands :
  NoDup (task_keys (TAppend commands)) →
  ord (Some []) (copy_transaction st commands (commandKeys commands)) anything.
Proof.
  intros Hnd. unfold copy_transaction. apply ord_then.
  { apply ord_db, ord_acquire; [by apply key_ordered_sorted|]. by intros l l' ?%elem_of_nil. }
  intros _ h1 Hh1. apply ord_then; [by apply ord_db, ord_call|]. intros last h2 Hh2.
  apply ord_then; [by apply ord_checkConditions|]. intros [idx|] h3 Hh3; [done|].
  apply ord_then; [by apply ord_db, ord_copy_rows|]. intros _ h4 Hh4.
  apply ord_then; [by apply ord_db, ord_call|]. intros pos h5 Hh5.
  apply ord_then; [by apply ord_db, ord_call|]. intros _ h6 Hh6.
  split; [done|]. intros [[]|e|msg] _; [|done|done].
  split; [done|]. by intros [[]|e|msg] _.
Qed.

Lemma ord_Append st commands :
  NoDup (task_keys (TAppend commands)) → ord None (Append st commands) closed.
Proof.
  intros Hnd. unfold Append, lift. cbn [try_bind prog_bind].
  destruct (validate_all commands) as [[]|e|msg]; [|done|done]. cbn [prog_bind].
  case_decide; [done|]. case_decide.
  - unfold appendViaFunction, lift. cbn [try_bind prog_bind].
    destruct (serializeConditions commands) as [conds|e|msg]; [|done|done].
    apply ord_bind. eapply ord_mono; [|by apply ord_statement, ord_events_append].
    intros [pos|e|msg] h; [|by case_match|]; by intros ->.
  - split; [done|]. intros [[]|e|msg] _; [|done|done]. cbn -[copy_transaction].
    apply ord_bind. eapply ord_mono; [|by apply ord_copy_transaction].
    intros r h _. by split.
Qed.

Lemma ord_barrierSnapshot q :
  NoDup (task_keys (TBarrier q)) → ord None (barrierSnapshot q) closed.
Proof.
  intros Hnd. unfold barrierSnapshot, db. apply ord_bind.
  eapply ord_mono; [|apply ord_statement]; [done|].
  apply ord_try.
  { apply ord_acquire; [by apply key_ordered_sorted|]. by intros l l' ?%elem_of_nil. }
  intros _ h1 Hh1. apply ord_try; [by apply ord_call|done].
Qed.

(** [Read] leaves the iterator's transaction open. *)
Lemma ord_Read st fetches q opts :
  NoDup (task_keys (TRead q opts fetches)) → after_fits_opts opts →
  ord None (Read st fetches q opts)
    (λ r h, match r with
      | Ok it => ∃ l, it = fresh_cursor l fetches ∧ row_positions l
      | _ => h = None
      end).
Proof.
  intros Hnd Hfits. unfold Read. apply ord_bind.
  apply ord_mono with (P := closed).
  2: { unfold upper_bound. cbn in Hnd. destruct (Backwards opts); [done|]. cbn [negb].
    apply ord_bind. eapply ord_mono; [|by apply ord_barrierSnapshot].
    by intros [hwm|e|msg] h ->. }
  intros [h|e|msg] hl ->; [|done..]. split; [done|]. intros [[]|e|msg] _; [|done..].
  cbn [succeeded after]. unfold lift. rewrite buildReadSQL_render by done.
  pose proof (declare_read_statement (tableName st) q opts h) as Hd.
  destruct (read_statement q opts h) as [sq args]. split; [done|].
  intros [snapshot|e|msg] Hsnap; [|done..]. cbn -[declare fresh_cursor]. rewrite Hd.
  case_decide; [done|].
  exists (eval_statement sq args snapshot). split; [done|]. by apply eval_statement_positions, Hsnap.
Qed.

(** *** Subscriptions *)

Definition event_positions (evs : list SequencedEvent) : Prop :=
  Forall (λ se, 0 ≤ value (Position se) < two63) evs.

Lemma collect_positions l fetches fuel : row_positions l → (length l < fuel)%nat →
  match Collect fuel (fresh_cursor l fetches) with
  | Some (Ok (evs, _), _) => event_positions evs
  | _ => True
  end.
Proof.
  intros Hl Hfuel. destruct (collect_fresh l fetches fuel Hl Hfuel) as (it'&->&_).
  destruct (batches_prefix (S (length l)) l fetches Hl) as (k&Hk&_); [lia|].
  apply decoded_positions in Hk; [|by apply Forall_take].
  unfold event_positions. rewrite <-(Forall_fmap (λ se, value (Position se)) (λ p, 0 ≤ p < two63)).
  rewrite Hk. apply Forall_fmap. by apply Forall_take.
Qed.

(** The iterator's positions fit, so that its reads do not panic. *)
Record sub_fits (q : Query) (it : subscribeIterator) : Prop := {
  sub_fits_query : sub_query it = q;
  sub_fits_position : 0 ≤ value (position it) < two63;
  sub_fits_pending : event_positions (pending_events it);
}.

Section subscriber.
Context (st : Store) (q : Query).
Hypothesis Hnd : NoDup (task_keys (TBarrier q)).

Lemma ord_drain fetches it : sub_fits q it →
  ord None (drain st fetches it)
    (λ r h, h = None ∧ match r with Ok evs => event_positions evs | _ => True end).
Proof.
  intros [Hq Hpos _]. unfold drain. rewrite Hq. apply ord_bind.
  eapply ord_mono; [|apply ord_Read; [done|by intros pos [= <-]]].
  intros [readIt|e|msg] h Hr; [|done..]. destruct Hr as (l&->&Hl).
  split; [done|]. intros r _. cbn [after ord]. split; [done|].
  pose proof (collect_positions l fetches (collect_fuel (fresh_cursor l fetches)) Hl) as Hc.
  destruct (Collect _ _) as [[[[evs [err|]]|e|msg] it']|]; try done.
  apply Hc. unfold collect_fuel. cbn. lia.
Qed.

Definition next_fits (r : next_result) (h : held) : Prop :=
  h = None ∧ match r with Returned _ it _ | Waiting it => sub_fits q it | Panicked _ => True end.

Lemma ord_next_loop env it : sub_fits q it → ord None (next_loop st env it) next_fits.
Proof.
  revert it. induction env as [|t env IH]; intros it Hit;
    (destruct (pending_events it) as [|se rest] eqn:Hp;
     [|rewrite (next_loop_pending st _ it se rest Hp); destruct Hit as [Hq Hpos Hpend];
       rewrite Hp in Hpend; by apply Forall_cons in Hpend as [??]]).
  { cbn [next_loop]. by rewrite Hp. }
  destruct (ended_at_head t) eqn:Hend; [cbn [next_loop]; by rewrite Hp, Hend|].
  rewrite next_loop_drain by done. apply ord_bind.
  eapply ord_mono; [|by apply ord_drain]. destruct Hit as [Hq Hpos Hpend].
  intros [evs|e|msg] h [-> Hevs]; [|by destruct (ended_in_drain t)|done].
  case_decide; [by apply IH|]. by destruct (turn_wait t); try (by apply IH).
Qed.

Lemma ord_consume n env it dl : sub_fits q it → ord None (consume st n env it dl) closed.
Proof.
  revert env it dl. induction n as [|n IH]; intros env it dl Hit; cbn [consume]; [done|].
  apply ord_bind. apply ord_mono with (P := next_fits).
  - intros [[] it' env'|it'|msg] h [-> Hr]; [by apply IH|done..].
  - unfold Next. case_decide; [done|]. by apply ord_next_loop.
Qed.
End subscriber.

(** What keeps a call from deadlocks: distinct keys, and no panic. *)
Definition lockable (t : task) : Prop :=
  NoDup (task_keys t) ∧
  match t with
  | TRead _ opts _ => after_fits_opts opts
  | TSubscribe _ _ _ opts _ _ => 0 ≤ start_of opts < two63
  | _ => True
  end.

Lemma ord_program st t : lockable t → ord None (program st t) closed.
Proof.
  intros [Hnd Hfits]. destruct t as [commands|q|q opts fetches|acquire listen q opts n env];
    cbn [program].
  - apply ord_bind. eapply ord_mono; [|by apply ord_Append]. done.
  - apply ord_bind. eapply ord_mono; [|by apply ord_barrierSnapshot]. done.
  - apply ord_bind. eapply ord_mono; [|by apply ord_Read]. by intros [it|e|msg] h.
  - destruct (Subscribe st acquire listen q opts) as [calls [it|e|msg]] eqn:Hsub; [|done..].
    cbn [snd]. apply ord_bind.
    destruct (Subscribe_inv _ _ _ _ _ _ _ empty_server Hsub Hfits) as ([Hq [Hpos _] _ _ _]&Hp&_).
    eapply ord_mono; [|apply (ord_consume st q)]; [done|done|].
    split; [done|done|]. by rewrite Hp; constructor.
Qed.

(** ** Progress of the system *)

(** The locks of the server's transactions are those of the typing. *)
Lemma exec_after fault i c s r s' : exec fault i c s = Some (r, s') →
  locks <$> txs s' !! i = after c (succeeded r) (locks <$> txs s !! i) ∧
  ∀ j, j ≠ i → txs s' !! j = txs s !! j.
Proof.
  intros [E|(Hc&->&e&->&_)]%exec_cases; [|by destruct c].
  destruct c; cbn in E; case_matches_in E; simplify_eq/=;
    repeat match goal with H : txs _ !! _ = _ |- _ => rewrite H end;
    rewrite ?lookup_insert_eq, ?lookup_delete_eq; try done;
    (split; [done|]); intros; by rewrite ?lookup_insert_ne, ?lookup_delete_ne by done.
Qed.

(** A step in which nothing fails. *)
Definition can_step {R} (cfg : config R) : Prop :=
  ∃ i c k r s', cfg.2 !! i = Some (Do c k) ∧ exec_ok i c cfg.1 = Some (r, s').

Definition all_done {R} (cfg : config R) : Prop :=
  ∀ i p, cfg.2 !! i = Some p → ∃ a, p = Ret a.

(** Every session follows the lock order, and every transaction is a
    session's. *)
Record lock_ordered {R} (cfg : config R) : Prop := {
  lock_ordered_typed : server_typed cfg.1;
  lock_ordered_prog i p : cfg.2 !! i = Some p → ord (locks <$> txs cfg.1 !! i) p closed;
  lock_ordered_dom i : is_Some (txs cfg.1 !! i) → is_Some (cfg.2 !! i);
}.

Lemma lock_ordered_step {R} (cfg cfg' : config R) :
  lock_ordered cfg → step cfg cfg' → lock_ordered cfg'.
Proof.
  intros [Htyped Hprog Hdom] Hstep. destruct Hstep as [s ths i c k fault r s' Hi Hf E]. cbn in *.
  destruct (exec_typed fault i c s r s' Htyped E) as [Htyped' Hr].
  destruct (exec_after fault i c s r s' E) as [Hown Hothers].
  destruct (Hprog i _ Hi) as [_ Hk]. split; cbn; [done| |].
  - intros j p [[<- <-]|[Hne Hj]]%lookup_insert_Some; [rewrite Hown; by apply Hk|].
    rewrite Hothers by done. by apply Hprog.
  - intros j Hj. destruct (decide (j = i)) as [->|Hne]; [rewrite lookup_insert_eq; by eexists|].
    rewrite lookup_insert_ne by done. apply Hdom. by rewrite <-Hothers.
Qed.

(** A call that cannot take its step waits for a lock of another's. *)
Lemma blocked {R} (cfg : config R) i c k :
  cfg.2 !! i = Some (Do c k) → exec_ok i c cfg.1 = None →
  ∃ key excl j t l, c = CLock key excl ∧ j ≠ i ∧ txs cfg.1 !! j = Some t ∧ l ∈ locks t ∧
    l.1 = key ∧ is_Some (txs cfg.1 !! i).
Proof.
  intros Hi E. destruct c; cbn in E; try (case_matches_in E; done).
  destruct (txs cfg.1 !! i) as [t|] eqn:Ht; [|done]. case_decide as Hg; [done|].
  unfold grantable in Hg. apply map_not_Forall in Hg as (j&u&Hj&Hn); [|apply _].
  apply not_or_and_not in Hn || apply Decidable.not_or in Hn. destruct Hn as [Hne Hn].
  apply not_Forall_Exists in Hn; [|apply _]. apply Exists_exists in Hn as (l&Hl&Hnc).
  exists k0, excl, j, u, l. split_and!; try done. unfold compatible in Hnc. cbn in Hnc.
  destruct (decide (k0 = l.1)); [done|tauto].
Qed.

(** The largest of finitely many keys. *)
Lemma exists_max {A} (f : A → Z) (l : list A) :
  l ≠ [] → ∃ x, x ∈ l ∧ ∀ y, y ∈ l → f y ≤ f x.
Proof.
  induction l as [|a l IH]; [done|]. intros _. destruct l as [|b l].
  { exists a. split; [by left|]. by intros y ->%list_elem_of_singleton. }
  destruct IH as (x&Hx&Hmax); [done|]. destruct (decide (f x ≤ f a)).
  - exists a. split; [by left|]. intros y [->|Hy]%elem_of_cons; [done|].
    specialize (Hmax y Hy). lia.
  - exists x. split; [by right|]. intros y [->|Hy]%elem_of_cons; [lia|by apply Hmax].
Qed.

(** The key that a program asks for next. *)
Definition next_key {R} (p : prog R) : Z :=
  match p with Do (CLock key _) _ => key | _ => 0 end.

Definition is_ret {R} (p : prog R) : bool := match p with Ret _ => true | _ => false end.

Definition asks_for {R} (key : Z) (p : prog R) : bool :=
  match p with Do (CLock key' _) _ => bool_decide (key' = key) | _ => false end.

(** The server keeps a queue of those who wait for a lock: [queue j] is the
    place of session [j].  A request is served in turn if nobody who asks for
    the same key is before it. *)
Definition in_turn {R} (queue : nat → nat) (cfg : config R) (i : nat) (c : cmd) : Prop :=
  match c with
  | CLock key _ => ∀ j p, cfg.2 !! j = Some p → asks_for key p = true → (queue i ≤ queue j)%nat
  | _ => True
  end.

Definition can_step_in_turn {R} (queue : nat → nat) (cfg : config R) : Prop :=
  ∃ i c k r s', cfg.2 !! i = Some (Do c k) ∧ exec_ok i c cfg.1 = Some (r, s') ∧ in_turn queue cfg i c.

Lemma in_turn_step {R} queue (cfg : config R) : can_step_in_turn queue cfg → can_step cfg.
Proof. intros (i&c&k&r&s'&Hi&E&_). by exists i, c, k, r, s'. Qed.

(** The owner of a lock of the largest key that is asked for does not ask for
    another. *)
Lemma owner_steps {R} queue (cfg : config R) key excl i k :
  lock_ordered cfg → cfg.2 !! i = Some (Do (CLock key excl) k) →
  exec_ok i (CLock key excl) cfg.1 = None →
  (∀ j p, cfg.2 !! j = Some p → is_ret p = false → next_key p ≤ key) → can_step_in_turn queue cfg.
Proof.
  intros [_ Hprog Hdom] Hi E Hmax.
  destruct (blocked cfg i _ k Hi E) as (key'&excl'&j&t&l&[= <- <-]&_&Ht&Hl&Hkey&_).
  destruct (Hdom j) as [[a|c' k'] Hj]; [by rewrite Ht|..].
  { pose proof (Hprog j _ Hj) as Hc. rewrite Ht in Hc. done. }
  destruct (Hprog j _ Hj) as [Habove _]. rewrite Ht in Habove.
  assert (∀ key', c' ≠ CLock key' true ∧ c' ≠ CLock key' false) as Hno.
  { intros key'. split; intros ->; specialize (Habove l Hl); specialize (Hmax j _ Hj eq_refl);
      cbn in Habove, Hmax; lia. }
  destruct (exec_ok j c' cfg.1) as [[r s']|] eqn:E'.
  - exists j, c', k', r, s'. split_and!; [done..|].
    destruct c' as [|key' [] | | | | | | | |]; try done; destruct (Hno key'); congruence.
  - destruct (blocked cfg j c' k' Hj E') as (key'&[]&_&_&_&->&_); destruct (Hno key'); congruence.
Qed.

Lemma lock_ordered_progress {R} queue (cfg : config R) :
  lock_ordered cfg → all_done cfg ∨ can_step_in_turn queue cfg.
Proof.
  intros Hord. set (unfinished := filter (λ ip, is_ret ip.2 = false) (map_to_list cfg.2)).
  assert (∀ i p, (i, p) ∈ unfinished ↔ is_ret p = false ∧ cfg.2 !! i = Some p) as Hun.
  { intros i p. unfold unfinished. by rewrite list_elem_of_filter, elem_of_map_to_list. }
  destruct (decide (unfinished = [])) as [Hnil|Hne].
  { left. intros i [a|c k] Hi; [by eexists|]. assert ((i, Do c k) ∈ unfinished) as Hin by (by apply Hun).
    rewrite Hnil in Hin. by apply elem_of_nil in Hin. }
  right. destruct (exists_max (λ ip, next_key ip.2) unfinished Hne) as ([i p]&Hin&Hmax).
  set (key := next_key p) in *.
  assert (∀ j p', cfg.2 !! j = Some p' → is_ret p' = false → next_key p' ≤ key) as Hkey.
  { intros j p' Hj Hp'. apply (Hmax (j, p')). by apply Hun. }
  apply Hun in Hin as [Hp Hi]. destruct (asks_for key p) eqn:Hasks.
  - set (waiting := filter (λ ip, asks_for key ip.2 = true) unfinished).
    assert (∀ j p', cfg.2 !! j = Some p' → asks_for key p' = true → (j, p') ∈ waiting) as Hwait.
    { intros j p' Hj Hp'. apply list_elem_of_filter. split; [done|]. apply Hun. by destruct p'. }
    destruct (exists_max (λ ip, - Z.of_nat (queue ip.1)) waiting) as ([j pj]&Hj&Hfirst).
    { intros E. specialize (Hwait i p Hi Hasks). rewrite E in Hwait. by apply elem_of_nil in Hwait. }
    apply list_elem_of_filter in Hj as [Hpj Hj]. apply Hun in Hj as [_ Hj]. cbn in Hpj.
    destruct pj as [|[|key' excl| | | | | | | |] k]; try done.
    cbn in Hpj. apply bool_decide_eq_true in Hpj as ->.
    destruct (exec_ok j (CLock key excl) cfg.1) as [[r s']|] eqn:E; [|by eapply owner_steps].
    exists j, (CLock key excl), k, r, s'. split_and!; [done|done|].
    intros j' p' Hj' Hp'. specialize (Hfirst (j', p') (Hwait j' p' Hj' Hp')). cbn in Hfirst. lia.
  - destruct p as [a|c k]; [done|]. destruct (exec_ok i c cfg.1) as [[r s']|] eqn:E.
    + exists i, c, k, r, s'. split_and!; [done..|]. destruct c; try done. exfalso.
      cbn in Hasks. by rewrite bool_decide_eq_true_2 in Hasks.
    + destruct (blocked cfg i c k Hi E) as (key'&excl&_&_&_&->&_). exfalso.
      cbn in Hasks. by rewrite bool_decide_eq_true_2 in Hasks.
Qed.

Lemma initial_lock_ordered st tasks s0 :
  map_Forall (λ _, lockable) tasks → server_typed s0 → txs s0 = ∅ →
  lock_ordered (initial st tasks s0).
Proof.
  intros Hkeys Htyped Htxs. split; cbn; [done|rewrite Htxs; intros i..].
  - intros p Hi. rewrite lookup_empty. apply lookup_fmap_Some in Hi as (t&<-&Ht).
    apply ord_program. by apply (Hkeys i t).
  - rewrite lookup_empty. by intros [??].
Qed.

(** ** Properties *)

(** C8: concurrent appends, read barriers, reads and subscriptions never
    deadlock: provided that no call has a leaf key that collides with one of
    its own intent keys (and no read or subscription a bound beyond [bigint]),
    and that they start on a well-typed server without open transactions, in
    every reachable configuration either all calls have finished or some call
    can take its next step without a failure.  That holds whatever the order in
    which the server queues the requests for a lock: some call can go on that
    nobody who asks for the same lock precedes. *)
Theorem deadlock_freedom st tasks s0 cfg :
  map_Forall (λ _, lockable) tasks → server_typed s0 → txs s0 = ∅ →
  rtc step (initial st tasks s0) cfg →
  all_done cfg ∨ (can_step cfg ∧ ∀ queue, can_step_in_turn queue cfg).
Proof.
  intros Hkeys Htyped Htxs Hsteps.
  assert (lock_ordered cfg) as Hord.
  { pose proof (initial_lock_ordered st tasks s0 Hkeys Htyped Htxs) as Hord.
    induction Hsteps; eauto using lock_ordered_step. }
  destruct (lock_ordered_progress id cfg Hord) as [?|Hstep]; [by left|]. right.
  split; [by eapply in_turn_step|]. intros queue.
  destruct (lock_ordered_progress queue cfg Hord) as [Hdone|?]; [|done].
  destruct Hstep as (i&c&k&_&_&Hi&_). by destruct (Hdone i _ Hi).
Qed.

(** ** Witnesses *)

(** Half way through, session 1 waits for session 0. *)
Definition w_waiting : config result :=
  run_schedule (replicate 4 0%nat ++ replicate 4 1%nat) (initial w_store w_tasks empty_server).

Lemma w_keys : map_Forall (λ _, lockable) w_tasks.
Proof.
  assert (map_Forall (λ _ t, NoDup (task_keys t)) w_tasks) as Hkeys
    by (apply (bool_decide_unpack _); vm_compute; exact I).
  intros i t Ht. split; [by apply (Hkeys i t)|].
  unfold w_tasks in Ht. repeat (apply lookup_insert_Some in Ht as [[_ <-]|[_ Ht]]; [done|]).
  apply lookup_singleton_Some in Ht as [_ <-]. by intros pos [=].
Qed.

Lemma deadlock_freedom_witness :
  all_done w_waiting ∨ (can_step w_waiting ∧ ∀ queue, can_step_in_turn queue w_waiting).
Proof.
  refine (deadlock_freedom w_store w_tasks empty_server w_waiting w_keys
    (Inv_typed _ empty_server_inv) eq_refl _).
  apply run_schedule_steps.
Defined.
