(* ===== verification/PgTermination.v ===== *)
(** * PgTermination

    Executions of the Postgres store end.  Every call uses a bounded number of
    database commands, whatever they answer, so that every execution of a system
    of calls is finite; and as calls do not deadlock ([PgDeadlock]), a schedule
    that lets every session take its turn often enough brings all of them to
    their end. *)

From S2P Require Import Prelude.
From S2P Require Import EventStore.
From S2P Require Import StoreSpec.
From S2P Require Import LockKeys.
From S2P Require Import Serialize.
From S2P Require Import PgServer.
From S2P Require Import SqlText.
From S2P Require Import ReadSQL.
From S2P Require Import PgProcedures.
From S2P Require Import PgStore.
From S2P Require Import PgConditions.
From S2P Require Import Cursor.
From S2P Require Import PgLogic.
From S2P Require Import PgTyping.
From S2P Require Import PgRead.
From S2P Require Import PgSubscribe.
From S2P Require Import PgAppend.
From S2P Require Import PgConcurrency.
From S2P Require Import PgDeadlock.

(** ** Counting commands *)

(** The program ends within [n] commands, and [Q] holds of what is left of
    them and of its result. *)
Fixpoint within {A} (n : nat) (p : prog A) (Q : nat → A → Prop) {struct p} : Prop :=
  match p with
  | Ret a => Q n a
  | Do c k =>
      match n with
      | O => False
      | S n => ∀ r, within n (k r) Q
      end
  end.

Lemma within_mono {A} n m (p : prog A) (P Q : nat → A → Prop) :
  (n ≤ m)%nat → (∀ n' m' a, (n' ≤ m')%nat → P n' a → Q m' a) → within n p P → within m p Q.
Proof.
  intros Hle HPQ. revert n m Hle. induction p as [a|c k IH]; intros n m Hle; cbn; [by apply HPQ|].
  destruct n as [|n]; [done|]. destruct m as [|m]; [lia|]. intros Hk r.
  apply (IH r n m); [lia|auto].
Qed.

Lemma within_bind {A B} n (m : prog A) (f : A → prog B) Q :
  within n m (λ n' a, within n' (f a) Q) → within n (prog_bind m f) Q.
Proof.
  revert n. induction m as [a|c k IH]; intros n; cbn; [done|].
  destruct n as [|n]; [done|]. intros Hk r. by apply IH.
Qed.

(** At most [n] commands. *)
Definition costs {A} (n : nat) (p : prog A) : Prop :=
  ∀ rest, within (n + rest) p (λ n' _, (rest ≤ n')%nat).

Lemma costs_ret {A} (a : A) : costs 0 (Ret a).
Proof. intros rest. cbn. lia. Qed.

Lemma costs_le {A} n m (p : prog A) : (n ≤ m)%nat → costs n p → costs m p.
Proof.
  intros Hle Hp rest. eapply (within_mono (n + rest)); [lia| |apply Hp]. cbn. lia.
Qed.

Lemma costs_do {A} n c (k : outcome db_error (val c) → prog A) :
  (∀ r, costs n (k r)) → costs (S n) (Do c k).
Proof. intros Hk rest r. apply Hk. Qed.

Lemma costs_bind {A B} n k (m : prog A) (f : A → prog B) :
  costs n m → (∀ a, costs k (f a)) → costs (n + k) (prog_bind m f).
Proof.
  intros Hm Hf rest. apply within_bind. rewrite <-Nat.add_assoc.
  eapply within_mono; [reflexivity| |apply (Hm (k + rest)%nat)].
  cbn. intros n' m' a Hle Hn'. eapply (within_mono (k + rest)); [lia| |apply (Hf a rest)].
  cbn. lia.
Qed.

Lemma costs_try {E A B} n k (m : prog (outcome E A)) (f : A → prog (outcome E B)) :
  costs n m → (∀ a, costs k (f a)) → costs (n + k) (try_bind m f).
Proof.
  intros Hm Hf. apply costs_bind; [done|]. intros [a|e|msg]; [done|..];
    (eapply costs_le; [|apply costs_ret]; lia).
Qed.

Lemma costs_call c : costs 1 (call c).
Proof. apply costs_do. intros r. apply costs_ret. Qed.

(** ** The calls *)

Lemma costs_db {A} n (m : prog (outcome db_error A)) : costs n m → costs n (db m).
Proof.
  intros Hm. unfold db. rewrite <-(Nat.add_0_r n). apply costs_bind; [done|]. intros r. apply costs_ret.
Qed.

Lemma costs_acquire ls : costs (length ls) (acquire ls).
Proof.
  induction ls as [|[k excl] ls IH]; [apply costs_ret|]. cbn [acquire length].
  apply (costs_try 1); [apply costs_call|by intros _].
Qed.

Lemma costs_statement {A} n (body : prog (outcome db_error A)) :
  costs n body → costs (n + 4) (statement body).
Proof.
  intros Hbody. unfold statement. apply (costs_le ((1 + (n + 2)) + 1)); [lia|].
  apply costs_bind.
  - apply costs_try; [apply costs_call|]. intros _. apply costs_try; [done|]. intros a.
    apply (costs_try 1 1); [apply costs_call|]. intros _.
    apply (costs_try 1 0); [apply costs_call|]. intros _. apply costs_ret.
  - intros [a|e|msg]; [eapply costs_le; [|apply costs_ret]; lia|..];
      apply costs_do; intros _; apply costs_ret.
Qed.

Lemma costs_check idxs types tags after hwm : costs 1 (check_conditions idxs types tags after hwm).
Proof. apply (costs_try 1 0); [apply costs_call|]. intros o. apply costs_ret. Qed.

Lemma costs_verify idxs types tags after hwm : costs 1 (verify_conditions idxs types tags after hwm).
Proof.
  unfold verify_conditions. case_match; [|eapply costs_le; [|apply costs_ret]; lia]. case_decide.
  - apply (costs_try 1 0); [apply costs_call|]. intros o. case_match; [|apply costs_ret].
    unfold raise_violation. case_match; apply costs_ret.
  - apply (costs_try 1 0); [apply costs_check|]. intros [idx|]; apply costs_ret.
Qed.

Lemma costs_insert_subscripts subs types tags payloads :
  costs (length subs) (insert_subscripts subs types tags payloads).
Proof.
  induction subs as [|i subs IH]; [apply costs_ret|]. cbn [insert_subscripts length].
  repeat case_match; try (eapply costs_le; [|apply costs_ret]; lia).
  apply (costs_try 1); [apply costs_call|by intros _].
Qed.

Lemma costs_copy_rows events : costs (length events) (copy_rows events).
Proof.
  induction events as [|ev events IH]; [apply costs_ret|]. cbn [copy_rows length].
  apply (costs_try 1); [apply costs_call|by intros _].
Qed.

(** A result without commands. *)
Lemma costs_done {A} n (a : A) : costs n (Ret a).
Proof. eapply costs_le; [|apply costs_ret]. lia. Qed.

Lemma costs_key_ordered a m b m' :
  costs (length (array_elems a) + length (array_elems b)) (acquire (key_ordered a m b m')).
Proof.
  assert (length (array_elems a) + length (array_elems b) = length (key_ordered a m b m'))%nat as ->;
    [|apply costs_acquire].
  unfold key_ordered. rewrite (Permutation_length (merge_sort_Permutation _ _)).
  by rewrite length_app, !length_fmap.
Qed.

Section append.
Context (st : Store) (commands : list AppendCommand).

Let locks : nat := length (task_keys (TAppend commands)).
Let events : nat := length (all_events commands).

Lemma costs_writer_locks :
  costs locks (acquire (key_ordered (Some (leafX (commandKeys commands))) true
    (Some (intentS (commandKeys commands))) false)).
Proof.
  unfold locks, task_keys. rewrite length_app.
  apply (costs_key_ordered (Some (leafX (commandKeys commands))) true
    (Some (intentS (commandKeys commands))) false).
Qed.

Lemma costs_appendViaFunction : costs (locks + events + 8) (appendViaFunction st commands (commandKeys commands)).
Proof.
  unfold appendViaFunction.
  apply (costs_le (0 + ((locks + (1 + (1 + (events + (1 + (1 + 0))))) + 4) + 0))); [lia|].
  apply costs_try; [apply costs_ret|]. intros conds.
  apply costs_bind.
  - apply costs_statement. unfold events_append. apply costs_try.
    { case_match; [apply costs_writer_locks|apply costs_done]. }
    intros _. apply costs_try; [apply costs_call|]. intros last.
    apply costs_try; [apply costs_verify|]. intros _. apply costs_try.
    { rewrite serializeEvents_all. cbn [ea_types]. rewrite array_elems_appended, length_fmap.
      eapply costs_le; [|apply costs_insert_subscripts]. by rewrite length_seq. }
    intros _. apply costs_try; [apply costs_call|]. intros pos.
    apply costs_try; [apply costs_call|]. intros _. apply costs_ret.
  - intros [pos|e|msg]; [apply costs_ret| |apply costs_ret]. case_match; apply costs_ret.
Qed.

Lemma costs_checkConditions h : costs 1 (checkConditions commands h).
Proof.
  unfold checkConditions. apply (costs_try 0 1); [apply costs_ret|]. intros conds.
  case_decide; [apply costs_done|]. apply costs_db, costs_check.
Qed.

Lemma costs_appendViaCopy : costs (locks + events + 8) (appendViaCopy st commands (commandKeys commands)).
Proof.
  unfold appendViaCopy.
  apply (costs_le (1 + ((locks + (1 + (1 + (events + (1 + (1 + (1 + (1 + 0)))))))) + 1))); [lia|].
  apply costs_try; [apply costs_db, costs_call|]. intros _. apply costs_bind.
  2: { intros r. apply costs_do. intros _. apply costs_ret. }
  unfold copy_transaction. apply costs_try; [apply costs_db, costs_writer_locks|]. intros _.
  apply costs_try; [apply costs_db, costs_call|]. intros last.
  apply costs_try; [apply costs_checkConditions|]. intros [idx|]; [apply costs_done|].
  apply costs_try; [apply costs_db, costs_copy_rows|]. intros _.
  repeat (apply costs_try; [apply costs_db, costs_call|]; intros ?). apply costs_ret.
Qed.

Lemma costs_Append : costs (locks + events + 8) (Append st commands).
Proof.
  unfold Append. apply (costs_try 0 (locks + events + 8)); [apply costs_ret|]. intros _.
  case_decide; [apply costs_done|]. case_decide; [apply costs_appendViaFunction|apply costs_appendViaCopy].
Qed.
End append.

Section reads.
Context (st : Store) (q : Query).

Let locks : nat := length (task_keys (TBarrier q)).

Lemma costs_barrierSnapshot : costs (locks + 5) (barrierSnapshot q).
Proof.
  unfold barrierSnapshot. apply costs_db.
  apply (costs_le ((locks + (1 + 0)) + 4)); [lia|]. apply costs_statement.
  apply costs_try.
  - unfold locks, task_keys. rewrite length_app.
    apply (costs_key_ordered (Some (leafS (computeReaderLockKeys q))) false
      (Some (intentX (computeReaderLockKeys q))) true).
  - intros _. apply costs_try; [apply costs_call|]. intros last. apply costs_ret.
Qed.

Lemma costs_Read fetches opts : costs (locks + 8) (Read st fetches q opts).
Proof.
  unfold Read. apply (costs_le ((locks + 5) + (1 + (0 + 2)))); [lia|]. apply costs_try.
  - unfold upper_bound. destruct (Backwards opts); cbn [negb]; [apply costs_done|].
    apply (costs_le (locks + 5 + 0)); [lia|]. apply costs_try; [apply costs_barrierSnapshot|].
    intros h. apply costs_ret.
  - intros h. apply costs_try; [apply costs_db, costs_call|]. intros _.
    apply costs_try; [apply costs_ret|]. intros [sql args]. apply costs_do.
    intros snapshot. cbn [prog_bind].
    destruct (snapshot ≫= declare (tableName st) sql args); [apply costs_done|apply costs_do; intros _; apply costs_ret..].
Qed.

Lemma costs_drain fetches it : sub_query it = q → costs (locks + 9) (drain st fetches it).
Proof.
  intros Hq. unfold drain. rewrite Hq. apply (costs_le ((locks + 8) + 1)); [lia|].
  apply costs_try; [apply costs_Read|]. intros readIt. apply costs_do. intros _. apply costs_ret.
Qed.

(** A round of a subscription uses up a turn of its list. *)
Definition turns_left (rest : nat) (n : nat) (r : next_result) : Prop :=
  match r with
  | Returned _ it env => sub_query it = q ∧ (length env * (locks + 9) + rest ≤ n)%nat
  | _ => True
  end.

Lemma within_next_loop env it rest : sub_query it = q →
  within (length env * (locks + 9) + rest) (next_loop st env it) (turns_left rest).
Proof.
  revert it. induction env as [|t env IH]; intros it Hq;
    (destruct (pending_events it) as [|se evs] eqn:Hp;
     [|rewrite (next_loop_pending st _ it se evs Hp); cbn -[locks]; split; [done|lia]]).
  { cbn [next_loop]. by rewrite Hp. }
  destruct (ended_at_head t) eqn:Hend; [cbn [next_loop]; rewrite Hp, Hend; cbn -[locks]; split; [done|lia]|].
  rewrite next_loop_drain by done. apply within_bind.
  replace (length (t :: env) * (locks + 9) + rest)%nat
    with ((locks + 9) + (length env * (locks + 9) + rest))%nat by (cbn -[locks]; lia).
  eapply within_mono; [reflexivity| |by apply costs_drain].
  cbn beta. intros n' m' r Hle Hn'.
  assert (∀ it, sub_query it = q → within m' (next_loop st env it) (turns_left rest)) as Hloop.
  { intros it' Hq'. apply (within_mono (length env * (locks + 9) + rest) m' _ (turns_left rest));
      [lia| |by apply IH].
    intros n1 m1 [b it1 env1| |] ?; cbn -[locks]; [|done..]. intros [? ?]. split; [done|lia]. }
  destruct r as [events|e|msg]; [| |done].
  - case_decide; [by apply Hloop|]. destruct (turn_wait t); try (by apply Hloop);
      cbn -[locks]; (split; [done|lia]).
  - destruct (ended_in_drain t); cbn -[locks]; (split; [done|lia]).
Qed.

Lemma within_consume n env it dl : sub_query it = q →
  within (length env * (locks + 9)) (consume st n env it dl) (λ _ _, True).
Proof.
  revert env it dl. induction n as [|n IH]; intros env it dl Hq; cbn [consume]; [done|].
  apply within_bind. rewrite <-(Nat.add_0_r (length env * (locks + 9))).
  eapply (within_mono _ _ _ (turns_left 0)); [reflexivity| |].
  - intros n' m' [[] it' env'|it'|msg] Hle; cbn [turns_left]; [|done..].
    intros [Hq' Hn']. eapply within_mono; [| |by apply IH]; [lia|done].
  - unfold Next. case_decide; [by cbn -[locks]; split; [|lia]|]. by apply within_next_loop.
Qed.
End reads.

(** ** Systems *)

(** How many commands a call may take. *)
Definition command_bound (t : task) : nat :=
  match t with
  | TAppend commands => length (task_keys t) + length (all_events commands) + 8
  | TBarrier _ => length (task_keys t) + 5
  | TRead q _ _ => length (task_keys (TBarrier q)) + 9
  | TSubscribe _ _ q _ _ env => length env * (length (task_keys (TBarrier q)) + 9)
  end.

Lemma within_program st t : within (command_bound t) (program st t) (λ _ _, True).
Proof.
  assert (∀ A n (p : prog A), costs n p → within n p (λ _ _, True)) as Hcosts.
  { intros A n p Hp. specialize (Hp 0%nat). rewrite Nat.add_0_r in Hp.
    by eapply within_mono; [| |exact Hp]. }
  destruct t as [commands|q|q opts fetches|acquire listen q opts n env]; cbn [program].
  - apply Hcosts. eapply (costs_le (_ + 0)); [|apply costs_bind; [apply costs_Append|]];
      [unfold command_bound; lia|]. intros r. apply costs_ret.
  - apply Hcosts. eapply (costs_le (_ + 0)); [|apply costs_bind; [apply costs_barrierSnapshot|]];
      [unfold command_bound; lia|]. intros r. apply costs_ret.
  - apply Hcosts. eapply (costs_le (_ + 1)); [|apply costs_bind; [apply costs_Read|]];
      [unfold command_bound; lia|].
    intros [it|e|msg]; [apply costs_do; intros _; apply costs_ret|apply costs_done..].
  - destruct (Subscribe st acquire listen q opts) as [calls [it|e|msg]] eqn:Hsub; [|done..].
    cbn [snd]. apply within_bind. unfold Subscribe in Hsub. destruct acquire, listen; try done.
    injection Hsub as _ <-. eapply within_mono; [| |by apply within_consume]; [done|].
    by intros n' m' [r|e|msg].
Qed.

(** Every session has a bound for what is left of it. *)
Definition bounded {R} (bs : gmap nat nat) (cfg : config R) : Prop :=
  ∀ i p, cfg.2 !! i = Some p → ∃ b, bs !! i = Some b ∧ within b p (λ _ _, True).

Definition total_bound (tasks : gmap nat task) : nat := map_sum command_bound tasks.

Lemma initial_bounded st tasks s0 : bounded (command_bound <$> tasks) (initial st tasks s0).
Proof.
  intros i p. cbn. rewrite lookup_fmap_Some. intros (t&<-&Ht). exists (command_bound t).
  rewrite lookup_fmap, Ht. split; [done|apply within_program].
Qed.

Lemma bounded_step {R} bs (cfg cfg' : config R) : bounded bs cfg → step cfg cfg' →
  ∃ bs', bounded bs' cfg' ∧ (map_sum id bs' < map_sum id bs)%nat.
Proof.
  intros Hb Hstep. destruct Hstep as [s ths i c k fault r s' Hi Hf E]. destruct (Hb i _ Hi) as (b&Hbi&Hk).
  destruct b as [|b]; [done|]. exists (<[i:=b]> bs).
  pose proof (map_sum_insert id bs i (S b) b Hbi). cbn in *. split; [|lia].
  intros j p. cbn. destruct (decide (j = i)) as [->|Hj].
  - rewrite !lookup_insert_eq. intros [= <-]. by exists b.
  - rewrite !lookup_insert_ne by done. apply Hb.
Qed.

Lemma bounded_steps {R} bs n (cfg cfg' : config R) : bounded bs cfg → nsteps step n cfg cfg' →
  ∃ bs', bounded bs' cfg' ∧ (n + map_sum id bs' ≤ map_sum id bs)%nat.
Proof.
  intros Hb Hsteps. revert bs Hb. induction Hsteps as [|n x y z Hstep _ IH]; intros bs Hb.
  { by exists bs. }
  destruct (bounded_step bs x y Hb Hstep) as (bs1&Hb1&Hlt).
  destruct (IH bs1 Hb1) as (bs'&?&?). exists bs'. split; [done|lia].
Qed.

(** ** Schedules *)

(** Running through a list of sessions: nothing happens, because none of them
    can take a step; or there are steps. *)
Lemma run_schedule_round {R} round (cfg : config R) :
  (run_schedule round cfg = cfg ∧
   ∀ i c k, i ∈ round → cfg.2 !! i = Some (Do c k) → exec_ok i c cfg.1 = None) ∨
  ∃ n, nsteps step (S n) cfg (run_schedule round cfg).
Proof.
  revert cfg. induction round as [|i round IH]; intros [s ths].
  { left. split; [done|]. by intros i c k ?%elem_of_nil. }
  cbn. destruct (ths !! i) as [[a|c k]|] eqn:Hi.
  2: { change (exec_ok i c s) with (exec None i c s).
    destruct (exec None i c s) as [[r s']|] eqn:E.
    - right. assert (step (s, ths) (s', <[i:=k r]> ths)) as Hstep by (by apply (step_do s ths i c k None r s')).
      destruct (IH (s', <[i:=k r]> ths)) as [[-> _]|[n Hn]].
      + exists 0%nat. apply nsteps_once, Hstep.
      + exists (S n). by eapply nsteps_l.
    - destruct (IH (s, ths)) as [[-> Hno]|Hn]; [left|by right]. split; [done|].
      intros j c' k' [->|Hj]%elem_of_cons Hjk; [|by eapply Hno]. cbn in Hjk. simplify_eq. exact E. }
  all: destruct (IH (s, ths)) as [[-> Hno]|Hn]; [left|by right]; (split; [done|]);
    intros j c' k' [->|Hj]%elem_of_cons Hjk; [|by eapply Hno]; cbn in Hjk; congruence.
Qed.

Lemma nsteps_all_done {R} n (cfg cfg' : config R) : all_done cfg → nsteps step n cfg cfg' → cfg' = cfg.
Proof.
  intros Hdone. destruct 1 as [|n x y z Hstep _]; [done|]. exfalso.
  destruct Hstep as [s ths i c k fault r s' Hi _ _]. by destruct (Hdone i _ Hi).
Qed.

Lemma run_schedule_app {R} l k (cfg : config R) :
  run_schedule (l ++ k) cfg = run_schedule k (run_schedule l cfg).
Proof.
  revert cfg. induction l as [|i l IH]; intros [s ths]; [done|]. cbn.
  destruct (ths !! i) as [[a|c ki]|]; [done| |done].
  change (exec_ok i c s) with (exec None i c s). by destruct (exec None i c s) as [[r s']|].
Qed.

Lemma run_schedule_done {R} l (cfg : config R) : all_done cfg → run_schedule l cfg = cfg.
Proof.
  intros Hdone. destruct cfg as [s ths]. induction l as [|i l IH]; [done|]. cbn.
  destruct (ths !! i) as [p|] eqn:Hi; [|done]. by destruct (Hdone i p Hi) as [a ->].
Qed.

Lemma nsteps_sessions {R} n (cfg cfg' : config R) i :
  nsteps step n cfg cfg' → is_Some (cfg'.2 !! i) → is_Some (cfg.2 !! i).
Proof.
  induction 1 as [|n x y z Hstep _ IH]; [done|]. intros Hi%IH.
  destruct Hstep as [s ths j c k fault r s' Hj _ _]. cbn in *.
  destruct (decide (i = j)) as [->|]; [by eexists|]. by rewrite lookup_insert_ne in Hi.
Qed.

Lemma run_schedule_sessions {R} l (cfg : config R) i :
  is_Some (cfg.2 !! i) → is_Some ((run_schedule l cfg).2 !! i).
Proof.
  revert cfg. induction l as [|j l IH]; intros [s ths] Hi; [done|]. cbn in *.
  destruct (ths !! j) as [[a|c k]|]; [by apply IH| |by apply IH].
  change (exec_ok j c s) with (exec None j c s). destruct (exec None j c s) as [[r s']|]; [|by apply IH].
  apply IH. cbn. destruct (decide (i = j)) as [->|]; [rewrite lookup_insert_eq; by eexists|].
  by rewrite lookup_insert_ne.
Qed.

Lemma nsteps_lock_ordered {R} n (cfg cfg' : config R) :
  lock_ordered cfg → nsteps step n cfg cfg' → lock_ordered cfg'.
Proof. intros Hord. induction 1; eauto using lock_ordered_step. Qed.

(** Rounds in which every session gets its turn take a step each, or all calls
    are done. *)
Lemma rounds_progress {R} rounds (cfg : config R) :
  lock_ordered cfg → Forall (λ round, ∀ i, is_Some (cfg.2 !! i) → i ∈ round) rounds →
  all_done (run_schedule (mjoin rounds) cfg) ∨
  ∃ n, (length rounds ≤ n)%nat ∧ nsteps step n cfg (run_schedule (mjoin rounds) cfg).
Proof.
  revert cfg. induction rounds as [|round rounds IH]; intros cfg Hord Hall.
  { right. exists 0%nat. split; [done|constructor]. }
  apply Forall_cons in Hall as [Hround Hrounds]. cbn [mjoin list_join]. rewrite run_schedule_app.
  destruct (lock_ordered_progress id cfg Hord) as [Hdone|(i&c&k&r&s'&Hi&E&_)].
  { left. by rewrite !run_schedule_done by (rewrite ?run_schedule_done; done). }
  destruct (run_schedule_round round cfg) as [[_ Hno]|[n Hn]].
  { rewrite (Hno i c k) in E; [done| |done]. apply Hround. by eexists. }
  destruct (IH (run_schedule round cfg)) as [Hdone|(n'&Hle&Hn')].
  - by eapply nsteps_lock_ordered.
  - eapply Forall_impl; [exact Hrounds|]. cbn. intros l Hl j Hj. apply Hl. by eapply nsteps_sessions.
  - by left.
  - right. exists (S n + n')%nat. split; [cbn; lia|]. by eapply nsteps_trans.
Qed.

Lemma bounded_rounds {R} bs rounds (cfg : config R) :
  bounded bs cfg → lock_ordered cfg →
  Forall (λ round, ∀ i, is_Some (cfg.2 !! i) → i ∈ round) rounds →
  (map_sum id bs ≤ length rounds)%nat → all_done (run_schedule (mjoin rounds) cfg).
Proof.
  intros Hb Hord Hall Hlen.
  destruct (rounds_progress rounds cfg Hord Hall) as [Hdone|(n&Hn&Hsteps)]; [done|].
  destruct (bounded_steps bs n cfg _ Hb Hsteps) as (bs'&Hb'&Hle).
  intros i [a|c k] Hi; [by eexists|]. exfalso. destruct (Hb' i _ Hi) as ([|b]&Hbi&Hk); [done|].
  pose proof (map_sum_lookup id bs' i (S b) Hbi). cbn in *. lia.
Qed.

(** A fair schedule: rounds that give every session its turn. *)
Definition fair (tasks : gmap nat task) (rounds : list (list nat)) : Prop :=
  Forall (λ round, ∀ i, is_Some (tasks !! i) → i ∈ round) rounds.

Lemma fair_rounds_finish st tasks s0 rounds :
  map_Forall (λ _, lockable) tasks → server_typed s0 → txs s0 = ∅ →
  fair tasks rounds → (total_bound tasks ≤ length rounds)%nat →
  all_done (run_schedule (mjoin rounds) (initial st tasks s0)).
Proof.
  intros Hkeys Htyped Htxs Hfair Hlen. apply (bounded_rounds (command_bound <$> tasks)).
  - apply initial_bounded.
  - by apply initial_lock_ordered.
  - eapply Forall_impl; [exact Hfair|]. cbn. intros round Hround i Hi. apply Hround.
    rewrite lookup_fmap in Hi. by apply fmap_is_Some in Hi.
  - by rewrite map_sum_fmap.
Qed.

(** ** Properties *)

(** C9: executions of concurrent calls end.  Whatever fails and however the
    commands interleave, an execution has at most as many steps as the calls
    together may use commands, a number that depends only on their keys and
    events (and, for subscriptions, on the rounds that the environment gives
    them).  If no call collides with its own lock keys or has a bound beyond
    [bigint], on a well-typed server without open transactions, no call waits
    for ever: an execution in which no call can go on without a failure has
    finished, even if the server serves the requests for a lock strictly in the
    order of a queue; and if nothing fails, any schedule that gives every
    session as many turns as that number brings every call to its end. *)
Theorem executions_end st tasks s0 :
  (∀ n cfg, nsteps step n (initial st tasks s0) cfg → (n ≤ total_bound tasks)%nat) ∧
  (map_Forall (λ _, lockable) tasks → server_typed s0 → txs s0 = ∅ →
   (∀ n cfg queue, nsteps step n (initial st tasks s0) cfg → ¬ can_step_in_turn queue cfg →
      all_done cfg) ∧
   ∀ rounds, fair tasks rounds → (total_bound tasks ≤ length rounds)%nat →
     all_done (run_schedule (mjoin rounds) (initial st tasks s0))).
Proof.
  split.
  - intros n cfg Hsteps.
    destruct (bounded_steps _ n _ _ (initial_bounded st tasks s0) Hsteps) as (bs'&_&Hle).
    rewrite map_sum_fmap in Hle. change (map_sum (id ∘ command_bound) tasks) with (total_bound tasks) in Hle.
    lia.
  - intros Hkeys Htyped Htxs. split.
    + intros n cfg queue Hsteps Hno.
      destruct (lock_ordered_progress queue cfg) as [?|?]; [|done|done].
      eapply nsteps_lock_ordered; [|exact Hsteps]. by apply initial_lock_ordered.
    + intros rounds. by apply fair_rounds_finish.
Qed.

(** *** Witness: the four calls of [PgConcurrency], in turns *)

Definition t_rounds : list (list nat) := replicate 41 [3; 2; 1; 0]%nat.

Lemma t_fair : fair w_tasks t_rounds.
Proof.
  apply Forall_replicate. intros i [t Ht]. unfold w_tasks in Ht.
  repeat (apply lookup_insert_Some in Ht as [[<- _]|[_ Ht]]; [set_solver|]).
  apply lookup_singleton_Some in Ht as [<- _]. set_solver.
Qed.

Lemma executions_end_witness :
  total_bound w_tasks = 41%nat ∧
  all_done (run_schedule (mjoin t_rounds) (initial w_store w_tasks empty_server)).
Proof.
  split; [vm_compute; reflexivity|].
  apply (proj2 (proj2 (executions_end w_store w_tasks empty_server) w_keys
    (Inv_typed _ empty_server_inv) eq_refl) t_rounds t_fair).
  apply (bool_decide_unpack _). vm_compute. exact I.
Defined.
