(* ===== verification/PgFaultless.v ===== *)
(** * PgFaultless

    Appends that the environment lets alone.  When no command fails, whatever
    the interleaving, a call of [Append] on valid commands never reports a
    failure of the database, and it draws positions only if it succeeds, so that
    positions have no gaps.

    [calm] follows a program over everything that a server can answer other
    than an error, and checks that it is never in a position to get one, nor
    gives up a row: it keeps track of the transaction, of [currval], and of the
    positions that the program may still draw. *)

From S2P Require Import Prelude.
From S2P Require Import GoStrconv.
From S2P Require Import SequencePosition.
From S2P Require Import EventStore.
From S2P Require Import Matching.
From S2P Require Import StoreSpec.
From S2P Require Import LockKeys.
From S2P Require Import Serialize.
From S2P Require Import PgServer.
From S2P Require Import PgProcedures.
From S2P Require Import PgStore.
From S2P Require Import PgConditions.
From S2P Require Import PgLogic.
From S2P Require Import PgTyping.
From S2P Require Import PgRules.
From S2P Require Import PgBarrier.
From S2P Require Import SqlText.
From S2P Require Import ReadSQL.
From S2P Require Import Cursor.
From S2P Require Import PgRead.
From S2P Require Import PgSubscribe.
From S2P Require Import PgAppend.
From S2P Require Import PgConcurrency.
From S2P Require Import PgSequential.

Local Open Scope Z_scope.

(** ** Programs that get no error *)

(** A session, as far as errors go: whether a transaction is open, and whether
    it has rows, whether [currval] is defined, and how many positions the
    session may draw. *)
Record standing := mkStanding {
  in_tx : bool;
  dirty : bool;
  drew : bool;
  quota : nat;
}.

(** The standing after a command that it allows. *)
Definition stand (c : cmd) (a : standing) : option standing :=
  match c with
  | CBegin => if dirty a then None else Some (mkStanding true false (drew a) (quota a))
  | CLock _ _ | CNotify _ _ => if in_tx a then Some a else None
  | CInsert _ =>
      match in_tx a, quota a with
      | true, S n => Some (mkStanding true true true n)
      | _, _ => None
      end
  | CCurrval => if drew a then Some a else None
  | CCommit => if in_tx a then Some (mkStanding false false (drew a) (quota a)) else None
  | CRollback => if dirty a then None else Some (mkStanding false false (drew a) (quota a))
  | CLastValue | CSnapshot | CReply => Some a
  end.

Fixpoint calm {A} (a : standing) (p : prog A) (Q : A → standing → Prop) : Prop :=
  match p with
  | Ret x => Q x a
  | Do c k => ∃ a', stand c a = Some a' ∧ ∀ v, calm a' (k (Ok v)) Q
  end.

Lemma calm_mono {A} a (p : prog A) (P Q : A → standing → Prop) :
  (∀ x a', P x a' → Q x a') → calm a p P → calm a p Q.
Proof.
  intros HPQ. revert a. induction p as [x|c k IH]; intros a; cbn; [auto|].
  intros (a'&?&Hk). exists a'. split; [done|]. intros v. by apply IH.
Qed.

Lemma calm_bind {A B} a (m : prog A) (f : A → prog B) Q :
  calm a m (λ x a', calm a' (f x) Q) → calm a (prog_bind m f) Q.
Proof.
  revert a. induction m as [x|c k IH]; intros a; cbn; [auto|].
  intros (a'&?&Hk). exists a'. split; [done|]. intros v. by apply IH.
Qed.

(** Commands of the procedures and of the client. *)
Lemma calm_call {B} a a' c (f : val c → prog (outcome db_error B)) Q :
  stand c a = Some a' → (∀ v, calm a' (f v) Q) → calm a (try_bind (call c) f) Q.
Proof. intros Ha Hf. cbn. by exists a'. Qed.

Lemma calm_db {A B} a (m : prog (outcome db_error A)) (f : A → prog (outcome store_error B)) Q :
  calm a m (λ r a', ∃ x, r = Ok x ∧ calm a' (f x) Q) → calm a (try_bind (db m) f) Q.
Proof.
  intros Hm. apply calm_bind. unfold db. apply calm_bind. eapply calm_mono; [|exact Hm].
  by intros r a' (x&->&Hf).
Qed.

Lemma calm_db_call {B} a a' c (f : val c → prog (outcome store_error B)) Q :
  stand c a = Some a' → (∀ v, calm a' (f v) Q) → calm a (try_bind (db (call c)) f) Q.
Proof. intros Ha Hf. apply calm_db. exists a'. split; [done|]. intros v. by exists v. Qed.

(** ** The parts of an append *)

Section parts.
Context (commands : list AppendCommand).
Hypothesis Hrep : representable commands.
Hypothesis Hvalid : conditions_valid commands.

Lemma calm_acquire a ls : in_tx a = true → calm a (acquire ls) (λ r a', r = Ok () ∧ a' = a).
Proof.
  intros Ha. induction ls as [|[k excl] ls IH]; [done|]. cbn [acquire].
  apply (calm_call a a); [cbn; by rewrite Ha|]. intros _. exact IH.
Qed.

Lemma calm_verify a h :
  calm a (verify_conditions (appended (cr_idx <$> cond_rows commands))
            (appended (cr_type <$> cond_rows commands)) (appended (cr_tags <$> cond_rows commands))
            (appended (cr_after <$> cond_rows commands)) h)
    (λ r a', a' = a ∧ (r = Ok () ∨ ∃ e, r = Err e ∧ violates commands e)).
Proof.
  pose proof (rep_conditions _ Hrep) as Hclean. pose proof (rep_length _ Hrep) as Hlen.
  unfold verify_conditions. destruct (cond_rows commands) as [|row rws] eqn:Erows.
  { split; [done|by left]. }
  rewrite <-Erows, !array_elems_appended. rewrite Erows at 1.
  cbn [fmap list_fmap appended array_nonempty]. case_decide as Hone.
  - rewrite Erows in Hone. cbn in Hone. destruct rws as [|? ?]; [|done].
    rewrite Erows. apply (calm_call a a); [done|]. intros snapshot.
    cbn -[row_satisfies unpack_tags].
    fold (cond_fails snapshot h row).
    pose proof (single_verdict commands snapshot h Hvalid Hclean Hlen row Erows) as Hv.
    destruct (cond_fails snapshot h row); cbn; [|split; [done|by left]].
    apply (verdict_violates commands Hrep) in Hv as (j&cmd&c&->&?&?&?).
    split; [done|]. right. eexists. split; [done|]. by exists j, cmd, c.
  - exists a. split; [done|]. intros snapshot. cbn -[failing_conditions select_first].
    rewrite failing_conditions_arrays.
    pose proof (check_verdict commands snapshot h Hvalid Hclean Hlen) as Hv.
    fold (cond_rows commands) in Hv.
    destruct (select_first _) as [idx|]; cbn; [|split; [done|by left]].
    apply (verdict_violates commands Hrep) in Hv as (j&cmd&c&->&?&?&?).
    split; [done|]. right. eexists. split; [done|]. by exists j, cmd, c.
Qed.

(** Each insertion draws a position. *)
Lemma calm_copy_rows b d n l :
  calm (mkStanding true b d (n + length l)) (copy_rows l)
    (λ r a', r = Ok () ∧ in_tx a' = true ∧ quota a' = n ∧ (l ≠ [] ∨ d = true → drew a' = true)).
Proof.
  revert b d. induction l as [|ev l IH]; intros b d; cbn [copy_rows].
  { split_and!; [done|done|by cbn; lia|]. by intros [?|?]. }
  apply (calm_call _ (mkStanding true true true (n + length l))); [cbn; by rewrite Nat.add_succ_r|].
  intros _. eapply calm_mono; [|apply (IH true true)]. intros r a' (->&?&?&Hd). auto 10.
Qed.

Hypothesis Hne : all_events commands ≠ [].

(** No failure of the database. *)
Definition faultless (r : outcome store_error SequencePosition) : Prop :=
  match r with
  | Err (EDatabase _) | Err (EContext _) => False
  | _ => True
  end.

(** A session that has done nothing yet. *)
Definition full (o d : bool) : standing := mkStanding o false d (length (all_events commands)).

Lemma faultless_position pos : faultless (int64ToPosition pos).
Proof. unfold int64ToPosition. by repeat case_match. Qed.

Lemma calm_events_append ch d :
  let evs := serializeEvents commands in
  calm (full true d) (events_append ch (Some (leafX (commandKeys commands)))
            (Some (intentS (commandKeys commands)))
            (appended (ea_types evs)) (appended (ea_tags evs)) (appended (ea_payloads evs))
            (appended (cr_idx <$> cond_rows commands)) (appended (cr_type <$> cond_rows commands))
            (appended (cr_tags <$> cond_rows commands)) (appended (cr_after <$> cond_rows commands)))
    (λ r a, (∃ pos, r = Ok pos ∧ in_tx a = true) ∨
       (∃ e, r = Err e ∧ violates commands e ∧ dirty a = false)).
Proof.
  intros evs. unfold events_append, evs. rewrite serializeEvents_all.
  cbn [ea_types ea_tags ea_payloads]. rewrite !array_elems_appended.
  rewrite length_fmap, insert_subscripts_copy by (try done; apply Hrep).
  rewrite (keys_nonempty commands (rep_events _ Hrep) Hne).
  apply calm_bind. eapply calm_mono; [|by apply calm_acquire]. intros r a (->&->).
  apply (calm_call _ (full true d)); [done|]. intros last.
  apply calm_bind. eapply calm_mono; [|apply calm_verify].
  intros r a (->&[->|(e&->&He)]); [|right; by exists e].
  apply calm_bind. eapply calm_mono; [|apply (calm_copy_rows false d 0)].
  intros r a (->&Ha&Hq&Hd). specialize (Hd (or_introl Hne)).
  apply (calm_call a a); [cbn; by rewrite Hd|]. intros pos.
  apply (calm_call a a); [cbn; by rewrite Ha|]. intros _. left. by exists pos.
Qed.

(** A statement commits what succeeds and rolls back what fails. *)
Lemma calm_statement {A} a (body : prog (outcome db_error A)) P :
  dirty a = false →
  calm (mkStanding true false (drew a) (quota a)) body
    (λ r a, match r with Ok _ => in_tx a = true | _ => dirty a = false end ∧ P r) →
  calm a (statement body) (λ r a, P r ∧ dirty a = false).
Proof.
  intros Hd Hbody. unfold statement. apply calm_bind.
  apply (calm_call _ (mkStanding true false (drew a) (quota a))); [cbn; by rewrite Hd|]. intros _.
  apply calm_bind. eapply calm_mono; [|exact Hbody]. clear a Hd Hbody.
  intros [x|e|msg] a [Ha HP].
  - apply (calm_call a (mkStanding false false (drew a) (quota a))); [cbn; by rewrite Ha|]. intros _.
    by apply (calm_call _ (mkStanding false false (drew a) (quota a))).
  - cbn. rewrite Ha. eexists. split; [done|]. by intros _.
  - cbn. rewrite Ha. eexists. split; [done|]. by intros _.
Qed.

Lemma calm_appendViaFunction st d :
  calm (full false d) (appendViaFunction st commands (commandKeys commands)) (λ r _, faultless r).
Proof.
  unfold appendViaFunction. rewrite serializeConditions_rows by apply Hrep. fold (cond_rows commands).
  apply calm_bind. cbn [lift calm arrays_of ca_idxs ca_types ca_tags ca_after].
  apply calm_bind. eapply calm_mono; [|apply (calm_statement _ _ (λ r,
    (∃ pos, r = Ok pos) ∨ (∃ e, r = Err e ∧ violates commands e)))]; [|done|].
  - intros r a [[(pos&->)|(e&->&(j&cmd&c&->&Hj&Hc&Hidx))] _].
    + by apply faultless_position.
    + rewrite parseConditionViolation_message by done. cbn.
      by rewrite (conditionError_ok commands j cmd c).
  - eapply calm_mono; [|apply calm_events_append].
    intros r a [(pos&->&Ha)|(e&->&He&Hq)]; (split; [done|]); [left|right]; eauto.
Qed.

Lemma calm_checkConditions a h :
  calm a (checkConditions commands h) (λ r a', a' = a ∧ (r = Ok None ∨
    ∃ j cmd c, r = Ok (Some (Z.of_nat j)) ∧ commands !! j = Some cmd ∧ Condition cmd = Some c)).
Proof.
  unfold checkConditions. rewrite serializeConditions_rows by apply Hrep.
  fold (cond_rows commands). apply calm_bind. cbn [lift calm arrays_of ca_idxs ca_types ca_tags
    ca_after]. case_decide; [split; [done|by left]|].
  unfold db. apply calm_bind. exists a. split; [done|]. intros snapshot.
  cbn -[failing_conditions select_first]. rewrite failing_conditions_arrays.
  pose proof (check_verdict commands snapshot h Hvalid (rep_conditions _ Hrep)
    (rep_length _ Hrep)) as Hv. fold (cond_rows commands) in Hv.
  destruct (select_first _) as [idx|]; (split; [done|]); [right|by left].
  apply (verdict_violates commands Hrep) in Hv as (j&cmd&c&->&?&?&?). by exists j, cmd, c.
Qed.

(** The transaction is rolled back after an error, and after the commit. *)
Lemma calm_copy_transaction st d :
  calm (full true d) (copy_transaction st commands (commandKeys commands))
    (λ r a, faultless r ∧ dirty a = false).
Proof.
  unfold copy_transaction, acquireWriterLocksSQL.
  apply calm_db. eapply calm_mono; [|by apply calm_acquire]. intros r a (->&->). eexists. split; [done|].
  apply (calm_db_call _ (full true d)); [done|]. intros last.
  apply calm_bind. eapply calm_mono; [|apply calm_checkConditions].
  intros r a (->&[->|(j&cmd&c&->&Hj&Hc)]).
  2: { cbn. by rewrite (conditionError_ok commands j cmd c). }
  apply calm_db. fold (all_events commands). eapply calm_mono; [|apply (calm_copy_rows false d 0)].
  intros r a (->&Ha&Hq&Hd). specialize (Hd (or_introl Hne)). eexists. split; [done|].
  apply (calm_db_call a a); [cbn; by rewrite Hd|]. intros pos.
  apply (calm_db_call a a); [cbn; by rewrite Ha|]. intros _.
  apply (calm_db_call a (mkStanding false false (drew a) (quota a))); [cbn; by rewrite Ha|]. intros _.
  apply (calm_db_call _ (mkStanding false false (drew a) (quota a))); [done|]. intros _.
  split; [by apply faultless_position|done].
Qed.

Lemma calm_valid_Append st d :
  calm (full false d)
    (if decide (totalEvents commands ≤ copyThreshold st)
     then appendViaFunction st commands (commandKeys commands)
     else appendViaCopy st commands (commandKeys commands))
    (λ r _, faultless r).
Proof.
  case_decide; [apply calm_appendViaFunction|].
  unfold appendViaCopy. apply (calm_db_call _ (full true d)); [done|]. intros _.
  apply calm_bind. eapply calm_mono; [|apply calm_copy_transaction].
  intros r a [Hr Ha]. cbn. rewrite Ha. eexists. split; [done|]. intros _. by destruct r.
Qed.
End parts.

Lemma calm_Append st commands d : representable commands →
  calm (full commands false d) (Append st commands) (λ r _, faultless r).
Proof.
  intros Hrep. unfold Append. apply calm_bind. cbn [lift calm].
  destruct (validate_all_spec commands) as [[-> Hvalid]|(e&cmd&c&->&_)]; [|done].
  rewrite totalEvents_length. case_decide as Hn; [done|].
  rewrite <-totalEvents_length. apply calm_valid_Append; [done|done|].
  intros E. by rewrite E in Hn.
Qed.

(** ** Readers

    The calls that only read are calm: they insert nothing. *)

Definition reads {A} (p : prog A) : Prop :=
  ∀ a, dirty a = false → calm a p (λ _ a', dirty a' = false).

Lemma reads_ret {A} (x : A) : reads (Ret x).
Proof. by intros a. Qed.

Lemma reads_bind {A B} (m : prog A) (f : A → prog B) :
  reads m → (∀ x, reads (f x)) → reads (prog_bind m f).
Proof.
  intros Hm Hf a Ha. apply calm_bind. eapply calm_mono; [|by apply Hm].
  intros x a' Ha'. by apply Hf.
Qed.

Lemma reads_try {A B} (m : prog (outcome store_error A)) (f : A → prog (outcome store_error B)) :
  reads m → (∀ x, reads (f x)) → reads (try_bind m f).
Proof. intros Hm Hf. apply reads_bind; [done|]. intros [x|e|msg]; [done|apply reads_ret..]. Qed.

Lemma reads_barrierSnapshot q : reads (barrierSnapshot q).
Proof.
  intros a Ha. unfold barrierSnapshot, db. apply calm_bind.
  eapply calm_mono; [|apply (calm_statement _ _ (λ _, True)); [done|]]; [by intros r a' [_ ?]|].
  unfold barrier_hwm. apply calm_bind. eapply calm_mono; [|by apply calm_acquire].
  intros r a' [-> ->]. by eexists.
Qed.

Lemma reads_rollback {A} (x : A) : reads (Do CRollback (λ _, Ret x)).
Proof. intros a Ha. eexists. cbn. rewrite Ha. by split. Qed.

Lemma reads_Read st fetches q opts : reads (Read st fetches q opts).
Proof.
  unfold Read. apply reads_try.
  - unfold upper_bound. destruct (negb _); [|apply reads_ret].
    apply reads_try; [apply reads_barrierSnapshot|]. intros hwm. apply reads_ret.
  - intros h a Ha. apply (calm_db_call _ (mkStanding true false (drew a) (quota a)));
      [cbn; by rewrite Ha|]. intros _.
    apply calm_bind. cbn [lift calm]. destruct (buildReadSQL _ _ _ _) as [[sql args]|e|msg]; [|done..].
    eexists. split; [done|]. intros snapshot. cbn -[declare].
    destruct (declare (tableName st) sql args snapshot); [done|by apply reads_rollback..].
Qed.

Lemma reads_next_loop st env it : reads (next_loop st env it).
Proof.
  revert it. induction env as [|t env IH]; intros it; cbn [next_loop];
    (destruct (pending_events it); [|apply reads_ret]); [apply reads_ret|].
  destruct (ended_at_head t); [apply reads_ret|]. apply reads_bind.
  { apply reads_try; [apply reads_Read|]. intros readIt. apply reads_rollback. }
  intros [events|e|msg]; [|destruct (ended_in_drain t); apply reads_ret|apply reads_ret].
  case_decide; [apply IH|]. destruct (turn_wait t); first [apply IH|apply reads_ret].
Qed.

Lemma reads_consume st n env it dl : reads (consume st n env it dl).
Proof.
  revert env it dl. induction n as [|n IH]; intros env it dl; cbn [consume]; [apply reads_ret|].
  apply reads_bind; [|intros [[]| |]; first [apply IH|apply reads_ret]].
  unfold Next. case_decide; [apply reads_ret|]. apply reads_next_loop.
Qed.

(** ** Sessions *)

(** The server's side of a standing. *)
Definition stands (i : nat) (a : standing) (s : server) : Prop :=
  (in_tx a = true → is_Some (txs s !! i)) ∧ (drew a = true → is_Some (currvals s !! i)) ∧
  (dirty a = false → ∀ t, txs s !! i = Some t → pending t = ∅).

(** No position after [b] has been skipped. *)
Definition gapless (b : Z) (s : server) : Prop :=
  ∀ p, b < p ≤ last_position s → ∃ r, allocated s p r.

(** What a session has to do with a command of another. *)
Definition untouched (i : nat) (s s' : server) : Prop :=
  ∀ j, j ≠ i → txs s' !! j = txs s !! j ∧ currvals s' !! j = currvals s !! j.

Lemma stands_untouched i j a s s' : untouched i s s' → j ≠ i → stands j a s → stands j a s'.
Proof. unfold stands. intros Hu Hj. by destruct (Hu j Hj) as [-> ->]. Qed.

(** A command that keeps what is in the table, and whose session keeps its rows
    in its transaction or in the table, leaves no gap. *)
Lemma gapless_update b i s s' :
  last_position s' = last_position s → untouched i s s' →
  (∀ p, is_Some (table s !! p) → is_Some (table s' !! p)) →
  (∀ t p r, txs s !! i = Some t → pending t !! p = Some r → ∃ r', allocated s' p r') →
  gapless b s → gapless b s'.
Proof.
  intros Hlast Hother Htbl Hown Hg p Hp. rewrite Hlast in Hp.
  destruct (Hg p Hp) as [r [Hr|(j&t&Hj&Hr)]].
  - destruct (Htbl p) as [r' Hr']; [by eexists|]. exists r'. by left.
  - destruct (decide (j = i)) as [->|Hne]; [by eapply Hown|].
    exists r. right. exists j, t. by rewrite (proj1 (Hother j Hne)).
Qed.

Lemma untouched_set_tx i t s : untouched i s (set_tx i t s).
Proof. intros j Hj. cbn. by rewrite lookup_insert_ne. Qed.

Lemma untouched_delete i s s' :
  txs s' = delete i (txs s) → currvals s' = currvals s → untouched i s s'.
Proof. intros Ht Hc j Hj. by rewrite Ht, Hc, lookup_delete_ne. Qed.

(** One command of session [i], from a standing to the next. *)
Record goes_on (b : Z) (i : nat) (s : server) (a : standing) (s' : server) (a' : standing) : Prop := {
  goes_stands : stands i a' s';
  goes_total : last_position s' + Z.of_nat (quota a') = last_position s + Z.of_nat (quota a);
  goes_untouched : untouched i s s';
  goes_gapless : gapless b s → gapless b s';
}.

Lemma goes_refl b i s a : stands i a s → goes_on b i s a s a.
Proof. by intros Hs. Qed.

Lemma goes_begin b i s a : stands i a s → dirty a = false →
  goes_on b i s a (set_tx i (mkTx ∅ [] []) s) (mkStanding true false (drew a) (quota a)).
Proof.
  intros (Htx&Hcur&Hclean) Hd. split; [|done|apply untouched_set_tx|].
  - split_and!; cbn; [by intros _; rewrite lookup_insert_eq|done|].
    intros _ t. rewrite lookup_insert_eq. by intros [= <-].
  - apply gapless_update with i; [done|apply untouched_set_tx|done|].
    intros t p r Ht. by rewrite (Hclean Hd t Ht), lookup_empty.
Qed.

Lemma goes_set_tx b i s a t t' : stands i a s → txs s !! i = Some t → pending t' = pending t →
  goes_on b i s a (set_tx i t' s) a.
Proof.
  intros (Htx&Hcur&Hclean) Ht Hp. split; [|done|apply untouched_set_tx|].
  - split_and!; cbn; [by intros _; rewrite lookup_insert_eq|done|].
    intros Hd u. rewrite lookup_insert_eq. intros [= <-]. rewrite Hp. by apply (Hclean Hd).
  - intros Hg p Hb. destruct (Hg p Hb) as [r Hr]. exists r. by apply (allocated_set_tx _ _ t).
Qed.

Lemma goes_insert b i s a t rw n :
  txs s !! i = Some t → quota a = S n →
  goes_on b i s a (insert_row i t (last_position s + 1) rw s) (mkStanding true true true n).
Proof.
  intros Ht Hq. split.
  - split_and!; cbn; [by intros _; rewrite lookup_insert_eq|by intros _; rewrite lookup_insert_eq|done].
  - rewrite Hq. unfold last_position at 1. cbn. lia.
  - intros j Hj. cbn. by rewrite !lookup_insert_ne.
  - intros Hg p. unfold last_position at 1. cbn. intros Hp.
    destruct (decide (p = last_position s + 1)) as [->|].
    { exists rw. right. exists i. eexists. cbn. rewrite lookup_insert_eq. split; [done|]. cbn.
      by rewrite lookup_insert_eq. }
    destruct (Hg p) as [r [Hr|(j&u&Hj&Hr)]]; [lia|by exists r; left|]. exists r. right. exists j.
    destruct (decide (j = i)) as [->|].
    + simplify_eq. eexists. cbn. rewrite lookup_insert_eq. split; [done|]. cbn.
      by rewrite lookup_insert_ne.
    + exists u. cbn. by rewrite lookup_insert_ne.
Qed.

Lemma goes_commit b i s a t : stands i a s → txs s !! i = Some t →
  goes_on b i s a (commit_tx i t s) (mkStanding false false (drew a) (quota a)).
Proof.
  intros (Htx&Hcur&Hclean) Ht.
  assert (untouched i s (commit_tx i t s)) as Hu by (by apply untouched_delete).
  split; [|done|done|].
  - split_and!; cbn; [done|done|]. intros _ u. by rewrite lookup_delete_eq.
  - apply gapless_update with i; [done|done| |].
    + intros p [r Hr]. cbn. rewrite lookup_union, Hr. destruct (pending t !! p); by eexists.
    + intros u p r Hu' Hr. simplify_eq. exists r. left. cbn. rewrite lookup_union, Hr.
      by destruct (table s !! p).
Qed.

Lemma goes_rollback b i s a : stands i a s → dirty a = false →
  goes_on b i s a (drop_tx i s) (mkStanding false false (drew a) (quota a)).
Proof.
  intros (Htx&Hcur&Hclean) Hd. assert (untouched i s (drop_tx i s)) as Hu by (by apply untouched_delete).
  split; [|done|done|].
  - split_and!; cbn; [done|done|]. intros _ u. by rewrite lookup_delete_eq.
  - apply gapless_update with i; [done|done|done|].
    intros t p r Ht. by rewrite (Hclean Hd t Ht), lookup_empty.
Qed.

Lemma nextval_room s : last_position s + 1 < two63 → nextval (seq_last s) = Some (last_position s + 1).
Proof.
  unfold nextval, last_position, coalesce_last. destruct (seq_last s); [|done]. cbn. intros ?.
  by rewrite decide_True.
Qed.

(** A command that is allowed gets no error. *)
Lemma exec_calm b i c s a a' r s' :
  stands i a s → stand c a = Some a' → last_position s + Z.of_nat (quota a) < two63 →
  exec_ok i c s = Some (r, s') → ∃ v, r = Ok v ∧ goes_on b i s a s' a'.
Proof.
  intros Hs Ha Hroom E. pose proof Hs as (Htx&Hcur&_).
  destruct c; cbn in Ha, E.
  5: { destruct (in_tx a); [|done]. destruct (quota a) as [|n] eqn:Hq; [done|].
    destruct (Htx eq_refl) as [t Ht]. rewrite Ht, nextval_room in E by lia. simplify_eq.
    eexists. split; [reflexivity|by apply goes_insert]. }
  all: repeat case_match; try done;
    try (destruct Htx as [t' Ht]; [done|]; simplify_eq);
    try (destruct Hcur as [v Hv]; [done|]; simplify_eq);
    simplify_eq; eexists; (split; [reflexivity|]).
  all: try first [by apply goes_refl|by apply goes_begin|by apply goes_commit|by apply goes_rollback
    |by eapply goes_set_tx].
Qed.

Lemma goes_trans b i s1 a1 s2 a2 s3 a3 :
  goes_on b i s1 a1 s2 a2 → goes_on b i s2 a2 s3 a3 → goes_on b i s1 a1 s3 a3.
Proof.
  intros [_ Hq1 Hu1 Hg1] [? Hq2 Hu2 Hg2]. split; [done|lia| |auto].
  intros j Hj. destruct (Hu1 j Hj), (Hu2 j Hj). split; congruence.
Qed.

(** A program that runs alone. *)
Lemma run_calm {A} b i (p : prog A) Q s a x s' :
  calm a p Q → stands i a s → last_position s + Z.of_nat (quota a) < two63 →
  run i [] p s = Some (x, s') → ∃ a', Q x a' ∧ goes_on b i s a s' a'.
Proof.
  revert s a. induction p as [y|c k IH]; intros s a; cbn [calm run].
  { intros HQ Hs _ [= -> ->]. exists a. split; [done|by apply goes_refl]. }
  intros (a1&Ha1&Hk) Hs Hroom E.
  change (exec (mjoin (head [])) i c s) with (exec_ok i c s) in E.
  destruct (exec_ok i c s) as [[r s1]|] eqn:Ex; [|done]. cbn in E.
  destruct (exec_calm b i c s a a1 r s1) as (v&->&Hgo); [done..|].
  destruct (IH (Ok v) s1 a1) as (a2&HQ&Hgo2); [auto|apply Hgo|rewrite (goes_total _ _ _ _ _ _ Hgo); done|done|].
  exists a2. split; [done|by eapply goes_trans].
Qed.

(** ** The system *)

Definition total_quota : gmap nat standing → nat := map_sum quota.

(** Every session is calm, and there is room for what they all may draw. *)
Record all_calm {R} (b : Z) (Q : nat → R → standing → Prop) (as_ : gmap nat standing)
    (cfg : config R) : Prop := {
  calm_sessions i p : cfg.2 !! i = Some p →
    ∃ a, as_ !! i = Some a ∧ stands i a cfg.1 ∧ calm a p (Q i);
  calm_room : last_position cfg.1 + Z.of_nat (total_quota as_) < two63;
  calm_gapless : gapless b cfg.1;
}.

Lemma step_calm {R} b (Q : nat → R → standing → Prop) as_ s ths i c k r s' :
  all_calm b Q as_ (s, ths) → ths !! i = Some (Do c k) → exec_ok i c s = Some (r, s') →
  ∃ as', all_calm b Q as' (s', <[i := k r]> ths).
Proof.
  intros [Hsess Hroom Hgap] Hi E. cbn [fst snd] in *.
  destruct (Hsess i _ Hi) as (a&Ha&Hs&a'&Ha'&Hk).
  pose proof (map_sum_lookup quota as_ i a Ha) as Htot.
  fold (total_quota as_) in Htot.
  destruct (exec_calm b i c s a a' r s') as (v&->&[Hs' Hq Hu Hg]); [done|done|lia|done|].
  pose proof (map_sum_insert quota as_ i a a' Ha) as Hins.
  fold (total_quota as_) (total_quota (<[i:=a']> as_)) in Hins.
  exists (<[i:=a']> as_). split; cbn [fst snd]; [|lia|auto].
  intros j p. destruct (decide (j = i)) as [->|Hj].
  - rewrite !lookup_insert_eq. intros [= <-]. exists a'. auto.
  - rewrite !lookup_insert_ne by done. intros Hp. destruct (Hsess j p Hp) as (aj&?&Hsj&?).
    exists aj. split_and!; [done|by eapply stands_untouched|done].
Qed.

Lemma run_schedule_calm {R} b (Q : nat → R → standing → Prop) sched as_ cfg :
  all_calm b Q as_ cfg → ∃ as', all_calm b Q as' (run_schedule sched cfg).
Proof.
  revert as_ cfg. induction sched as [|i sched IH]; intros as_ [s ths] Hc; cbn; [by exists as_|].
  destruct (ths !! i) as [[x|c k]|] eqn:Hi; [by eapply IH| |by eapply IH].
  change (exec_ok i c s) with (exec None i c s).
  destruct (exec None i c s) as [[r s']|] eqn:E; [|by eapply IH].
  destruct (step_calm b Q as_ s ths i c k r s' Hc Hi E) as [as' Hc']. by eapply IH.
Qed.

(** The standing of a session that has not begun. *)
Definition fresh_standing (t : task) : standing :=
  match t with
  | TAppend commands => full commands false false
  | _ => mkStanding false false false 0
  end.

(** The events that are to be appended. *)
Definition demand (tasks : gmap nat task) : nat := total_quota (fresh_standing <$> tasks).

(** No result of an append is a failure of the database. *)
Definition result_faultless (r : result) (_ : standing) : Prop :=
  match r with RAppend r => faultless r | _ => True end.

Lemma calm_program st t : task_ok t → calm (fresh_standing t) (program st t) result_faultless.
Proof.
  intros Ht. destruct t as [commands|q|q opts fetches|acquire listen q opts n env]; cbn [program].
  - apply calm_bind. eapply calm_mono; [|by apply calm_Append]. done.
  - apply calm_bind. eapply calm_mono; [|by apply reads_barrierSnapshot]. done.
  - apply calm_bind. eapply calm_mono; [|by apply reads_Read]. intros [it|e|msg] a Ha; [|done..].
    cbn. rewrite Ha. eexists. by split.
  - destruct (Subscribe st acquire listen q opts).2 as [it|e|msg]; [|done..].
    apply calm_bind. eapply calm_mono; [|by apply reads_consume]. done.
Qed.

Lemma initial_calm st tasks s0 :
  map_Forall (λ _, task_ok) tasks → txs s0 = ∅ →
  last_position s0 + Z.of_nat (demand tasks) < two63 →
  all_calm (last_position s0) (λ _, result_faultless) (fresh_standing <$> tasks)
    (initial st tasks s0).
Proof.
  intros Htasks Htxs Hroom. split; cbn [fst snd initial]; [|done|intros p Hp; lia].
  intros i p. rewrite lookup_fmap_Some. intros (t&<-&Ht). exists (fresh_standing t).
  split_and!; [by rewrite lookup_fmap, Ht| |by apply calm_program, (Htasks i)].
  split_and!; [by destruct t|by destruct t|]. intros _ u. by rewrite Htxs, lookup_empty.
Qed.

(** ** Properties *)

(** C10: appends and readers that the environment lets alone.  When no command
    fails, then whatever the interleaving, and so long as the sequence has room
    for all events, no append reports a failure of the database; and when no
    transaction is open, the positions that were taken since the start have no
    gap: each is that of a row in the table.  The calls are [task_ok]. *)
Theorem faultless_appends st tasks s0 sched :
  map_Forall (λ _, task_ok) tasks → txs s0 = ∅ →
  last_position s0 + Z.of_nat (demand tasks) < two63 →
  let cfg := run_schedule sched (initial st tasks s0) in
  (∀ i r, cfg.2 !! i = Some (Ret (RAppend r)) → faultless r) ∧
  (txs cfg.1 = ∅ → ∀ p, last_position s0 < p ≤ last_position cfg.1 → is_Some (table cfg.1 !! p)).
Proof.
  intros Htasks Htxs Hroom cfg.
  destruct (run_schedule_calm _ _ sched _ _ (initial_calm st tasks s0 Htasks Htxs Hroom))
    as [as' [Hsess _ Hgap]].
  fold cfg in Hsess, Hgap. split.
  - intros i r Hi. by destruct (Hsess i _ Hi) as (a&_&_&Hr).
  - intros Hdone p Hp. destruct (Hgap p Hp) as [r [Hr|(j&t&Hj&_)]]; [by exists r|].
    by rewrite Hdone, lookup_empty in Hj.
Qed.

(** *** Witness *)

(** Two appends race, one of which fails its condition, among readers; the
    sequence has room for exactly their three events. *)
Definition f_server : server := mkServer ∅ (Some (two63 - 4)) ∅ ∅ [] [].
Definition f_config : config result :=
  run_schedule (w_schedule ++ replicate 12 1%nat) (initial w_store w_tasks f_server).

Lemma faultless_appends_witness :
  f_config.2 !! 1%nat = Some (Ret (RAppend (Err (violation_error w_twice 0 w_condition)))) ∧
  faultless (Err (violation_error w_twice 0 w_condition)) ∧
  last_position f_config.1 = two63 - 3 ∧ is_Some (table f_config.1 !! (two63 - 3)).
Proof.
  pose proof (faultless_appends w_store w_tasks f_server (w_schedule ++ replicate 12 1%nat)
    w_tasks_ok eq_refl eq_refl) as [Hr Hg].
  assert (f_config.2 !! 1%nat = Some (Ret (RAppend (Err (violation_error w_twice 0 w_condition)))))
    as H1 by (vm_compute; reflexivity).
  split; [exact H1|]. split; [exact (Hr _ _ H1)|]. split; [vm_compute; reflexivity|].
  apply Hg; [vm_compute; reflexivity|]. split; vm_compute; [reflexivity|discriminate].
Defined.
