(* ===== verification/ConformanceData.v ===== *)
(** * ConformanceData

    The data that the tests of the conformance suite make up: numbered tags and
    payloads are tags and JSON values that either store can hold. *)

From S2P Require Import Prelude.
From S2P Require Import GoStrconv.
From S2P Require Import GoStrings.
From S2P Require Import GoJson.
From S2P Require Import Tags.
From S2P Require Import Serialize.

Local Open Scope Z_scope.

Fixpoint all_digits (s : string) : bool :=
  match s with
  | EmptyString => true
  | String c s => is_digit c && all_digits s
  end.

Lemma digit_char_digit d : 0 ≤ d < 10 → is_digit (digit_char d).
Proof.
  intros Hd. unfold is_digit, byte_val, digit_char. rewrite N_ascii_embedding by lia.
  apply bool_decide_pack. lia.
Qed.

(** A numeral without leading zeros. *)
Lemma format_digits_shape fuel n acc :
  0 ≤ n < 10 ^ Z.of_nat (S fuel) → all_digits acc →
  ∃ d s, format_digits (S fuel) n acc = String (digit_char d) s ∧ 0 ≤ d < 10 ∧ all_digits s ∧
    (d = 0 → n = 0 ∧ s = acc).
Proof.
  revert n acc. induction fuel as [|fuel IH]; intros n acc Hn Hacc; rewrite format_digits_S;
    pose proof (Z.mod_pos_bound n 10 eq_refl) as Hmod.
  - change (10 ^ Z.of_nat 1) with 10 in Hn. rewrite decide_True by lia.
    exists (n `mod` 10), acc. do 3 (split; [done|]). rewrite Z.mod_small by lia. done.
  - case_decide as Hlt.
    + exists (n `mod` 10), acc. do 3 (split; [done|]). rewrite Z.mod_small by lia. done.
    + destruct (IH (n / 10) (String (digit_char (n `mod` 10)) acc)) as (d&s&->&?&?&Hd).
      { rewrite Nat2Z.inj_succ, Z.pow_succ_r in Hn by lia.
        split; [apply Z.div_pos; lia|]. apply Z.div_lt_upper_bound; lia. }
      { apply andb_prop_intro. split; [by apply digit_char_digit|done]. }
      exists d, s. do 3 (split; [done|]). intros [Hz _]%Hd.
      pose proof (Z.div_mod n 10). lia.
Qed.

Lemma FormatInt_shape n : 0 ≤ n < two63 →
  ∃ d s, FormatInt n = String (digit_char d) s ∧ 0 ≤ d < 10 ∧ all_digits s ∧
    (d = 0 → n = 0 ∧ s = EmptyString).
Proof.
  intros Hn. unfold FormatInt, FormatUint. rewrite decide_False by lia.
  apply format_digits_shape; [|done]. change (10 ^ Z.of_nat 20) with 100000000000000000000.
  unfold two63 in *. lia.
Qed.

Lemma skip_all_digits s : all_digits s → skip_digits s = EmptyString.
Proof.
  induction s as [|c s IH]; [done|]. cbn. destruct (is_digit c); [|done]. apply IH.
Qed.

Lemma scan_number_digits c s : is_digit c → all_digits s → (c = "0"%char → s = EmptyString) →
  scan_number (String c s) = Some EmptyString.
Proof.
  intros Hc Hs Hz. unfold scan_number, scan_integer. rewrite decide_False by (by intros ->).
  case_decide as H0; [by rewrite (Hz H0)|]. unfold scan_digits.
  destruct (is_digit c); [|done]. cbn. by rewrite skip_all_digits.
Qed.

(** A number is a JSON value. *)
Lemma FormatInt_json n : 0 ≤ n < two63 → json_value (FormatInt n).
Proof.
  intros (d&s&->&Hd&Hs&Hz)%FormatInt_shape.
  assert (is_digit (digit_char d)) as Hdig by (by apply digit_char_digit).
  assert (scan_number (String (digit_char d) s) = Some EmptyString) as Hscan.
  { apply scan_number_digits; [done|done|]. intros Hc.
    assert (char_digit (digit_char d) = Some 0) as H0 by by rewrite Hc.
    rewrite char_digit_char in H0 by done. injection H0 as ->. by destruct Hz. }
  unfold json_value, scan_fuel. cbn [scan]. revert Hdig Hscan.
  generalize (digit_char d). intros c Hc Hscan.
  by repeat (rewrite decide_False by (by intros ->)).
Qed.

(** ASCII without blanks and control characters. *)
Fixpoint printable (s : string) : bool :=
  match s with
  | EmptyString => true
  | String c s => bool_decide (32 < byte_val c < 127) && printable s
  end.

Lemma printable_app s t : printable (s +:+ t) = printable s && printable t.
Proof.
  induction s as [|c s IH]; [done|]. rewrite string_app_cons. cbn. by rewrite IH, andb_assoc.
Qed.

Lemma all_digits_printable s : all_digits s → printable s.
Proof.
  induction s as [|c s IH]; [done|]. cbn. unfold is_digit. case_bool_decide; [|done].
  rewrite bool_decide_eq_true_2 by lia. apply IH.
Qed.

Lemma FormatInt_printable n : 0 ≤ n < two63 → printable (FormatInt n).
Proof.
  intros (d&s&->&Hd&Hs&_)%FormatInt_shape. cbn. unfold byte_val, digit_char.
  rewrite N_ascii_embedding by lia. rewrite bool_decide_eq_true_2 by lia.
  by apply all_digits_printable.
Qed.

(** Printable tags are tokens, and survive packing. *)
Lemma printable_good s : s ≠ EmptyString → printable s → isValidTagToken s = true ∧ tag_clean s.
Proof.
  intros Hne Hs.
  assert (is_ascii s = true ∧ Forall (λ r, IsSpace r = false) (bytes s) ∧
    has_byte delimiter s = false) as (Ha&Hb&Hd).
  { clear Hne. induction s as [|c s IH]; [done|]. cbn in Hs.
    apply andb_prop_elim in Hs as [Hc%bool_decide_unpack Hs]. destruct (IH Hs) as (Ha&Hb&Hd). cbn.
    rewrite bool_decide_eq_true_2 by lia. split_and!; [done| |].
    - constructor; [|done]. unfold IsSpace. rewrite decide_True by lia.
      apply bool_decide_eq_false_2. intros Hin. repeat apply elem_of_cons in Hin as [?|Hin]; try lia.
      by apply elem_of_nil in Hin.
    - rewrite Hd, orb_false_r. apply bool_decide_eq_false_2. intros ->.
      change (byte_val delimiter) with 31 in Hc. lia. }
  split; [|by split]. apply isValidTagToken_true. split; [done|]. by rewrite runes_ascii.
Qed.
