(* ===== verification/Conformance.v ===== *)
(** * Conformance

    The conformance suite of the stores ([src/eventstore/eventstoretest]): its
    tests as programs over any store, to be run on the models.

    A test runs in a world: the store that [newStore] made, the subscriptions
    that it has started with their draining goroutines, and whether it has
    failed so far.  [require] stops the test, [assert] marks it as failed and
    goes on.  The goroutines of the subscriptions run at their own pace: [paces]
    says, from one operation of the test to the next, how many rounds each of
    them gets. *)

From S2P Require Import Prelude.
From S2P Require Import GoStrconv.
From S2P Require Import SequencePosition.
From S2P Require Import Tags.
From S2P Require Import EventStore.
From S2P Require Import Iterator.

Local Open Scope Z_scope.

(** ** A store under test *)

(** A round of [for it.Next() { ch <- it.Event() }]: an event, the end of the
    loop, or a call of [Next] that is still blocked. *)
Inductive sub_event :=
  | Yielded (se : SequencedEvent)
  | Ended
  | NotYet.

(** The operations of [eventstore.Store] on the state [S] behind it, with read
    iterators [I] and subscribe iterators [J].  [None]: the call does not
    return.  [ts_fuel] bounds the calls of [Next] on a read iterator, [ts_close]
    is what closing it does to the store.  [ts_concurrently] runs one [Append]
    per list of commands in goroutines of their own. *)
Class TestStore (S I J : Type) `{EventIterator I} := {
  ts_new : S;
  ts_append : list AppendCommand → S → option (outcome store_error SequencePosition * S);
  ts_read : Query → ReadOptions → S → option (outcome store_error I * S);
  ts_fuel : I → nat;
  ts_close : I → S → S;
  ts_concurrently : list (list AppendCommand) → S →
    option (list (outcome store_error SequencePosition) * S);
  ts_subscribe : Query → SubscribeOptions → S → option (outcome store_error J * S);
  ts_next : bool → J → S → option (sub_event * J * S);
  ts_sub_err : J → option store_error;
  ts_sub_close : J → S → J * S;
}.

(** ** Tests *)

Section suite.
Context {S I J : Type} `{TestStore S I J}.

(** [subscription] of [subscribe.go]: the iterator, and the channel that the
    goroutine writes to. *)
Record subscription := mkSubscription {
  sub_it : J;
  sub_events : list SequencedEvent;
  sub_closed : bool;
  sub_cancelled : bool;
}.

Record world := mkWorld {
  store : S;
  subs : list subscription;
  paces : list nat;
  failed : bool;
}.

(** How a test, or a part of it, ends: normally, at a [FailNow], or not at all. *)
Inductive verdict (A : Type) :=
  | Completed (a : A)
  | Stopped
  | Blocked.
Arguments Completed {A} a.
Arguments Stopped {A}.
Arguments Blocked {A}.

Definition test (A : Type) : Type := world → verdict A * world.

#[export] Instance test_ret : MRet test := λ A a w, (Completed a, w).
#[export] Instance test_bind : MBind test := λ A B k t w,
  match t w with
  | (Completed a, w) => k a w
  | (Stopped, w) => (Stopped, w)
  | (Blocked, w) => (Blocked, w)
  end.

Definition set_store (s : S) (w : world) : world := mkWorld s (subs w) (paces w) (failed w).
Definition set_subs (ss : list subscription) (w : world) : world :=
  mkWorld (store w) ss (paces w) (failed w).
Definition set_failed (b : bool) (w : world) : world := mkWorld (store w) (subs w) (paces w) b.

(** *** testing and testify *)

Definition FailNow {A} : test A := λ w, (Stopped, set_failed true w).

(** [require.True], and [assert.True] with its relatives *)
Definition require_ (b : bool) : test unit := if b then mret () else FailNow.
Definition assert_ (b : bool) : test unit := λ w, (Completed (), set_failed (failed w || negb b) w).

Definition require_NoError {E A} (r : outcome E A) : test A :=
  match r with Ok a => mret a | _ => FailNow end.

(** A panic stops the test. *)
Definition require_Error {E A} (r : outcome E A) : test E :=
  match r with Err e => mret e | _ => FailNow end.

Definition assert_NoError {E A} (r : outcome E A) : test unit :=
  match r with Ok _ => mret () | Err _ => assert_ false | Panic _ => FailNow end.

(** [errors.As(err, &conditionErr)] *)
Definition as_condition_error (e : store_error) : option AppendConditionError :=
  match e with EAppendCondition e => Some e | _ => None end.

Definition require_ErrorAs {A} (r : outcome store_error A) : test AppendConditionError :=
  e ← require_Error r;
  match as_condition_error e with Some e => mret e | None => FailNow end.

(** [l[i]] panics when it is out of range. *)
Definition index {A} (l : list A) (i : nat) : test A :=
  match l !! i with Some a => mret a | None => FailNow end.

(** [t.Run]: the subtest fails on its own, and with it the test. *)
Definition t_Run (name : string) (f : test unit) : test unit := λ w,
  match f (set_failed false w) with
  | (Blocked, w') => (Blocked, w')
  | (_, w') => (Completed (), set_failed (failed w || failed w') w')
  end.

(** *** The draining goroutines *)

(** The capacity of the channel. *)
Definition channel_size : nat := 32.

(** A round of the goroutine; it starts one only when the channel has room. *)
Definition round (s : S) (sub : subscription) : subscription * S :=
  if sub_closed sub || bool_decide (channel_size ≤ length (sub_events sub))%nat then (sub, s)
  else
    match ts_next (sub_cancelled sub) (sub_it sub) s with
    | Some (Yielded se, it, s) =>
        (mkSubscription it (sub_events sub ++ [se]) false (sub_cancelled sub), s)
    | Some (Ended, it, s) => (mkSubscription it (sub_events sub) true (sub_cancelled sub), s)
    | Some (NotYet, it, s) => (mkSubscription it (sub_events sub) false (sub_cancelled sub), s)
    | None => (sub, s)
    end.

Fixpoint rounds (n : nat) (s : S) (sub : subscription) : subscription * S :=
  match n with
  | O => (sub, s)
  | Datatypes.S n => let '(sub, s) := round s sub in rounds n s sub
  end.

Fixpoint all_rounds (n : nat) (s : S) (ss : list subscription) : list subscription * S :=
  match ss with
  | [] => ([], s)
  | sub :: ss =>
      let '(sub, s) := rounds n s sub in
      let '(ss, s) := all_rounds n s ss in
      (sub :: ss, s)
  end.

(** What the goroutines do before the next operation of the test. *)
Definition tick : test unit := λ w,
  let '(ss, s) := all_rounds (default O (head (paces w))) (store w) (subs w) in
  (Completed (), mkWorld s ss (tail (paces w)) (failed w)).

Definition call {A} (f : S → option (A * S)) : test A := λ w,
  match f (store w) with
  | Some (a, s) => (Completed a, set_store s w)
  | None => (Blocked, w)
  end.

(** *** The store's methods *)

Definition newStore : test unit := λ w, (Completed (), mkWorld ts_new [] (paces w) (failed w)).

Definition Append (commands : list AppendCommand) : test (outcome store_error SequencePosition) :=
  tick ;; call (ts_append commands).

Definition Read (query : Query) (opts : ReadOptions) : test (outcome store_error I) :=
  tick ;; call (ts_read query opts).

(** [eventstore.Collect] *)
Definition collect_now (it : I) : test (list SequencedEvent * option store_error) := λ w,
  match Collect (ts_fuel it) it with
  | Some (Ok r, it) => (Completed r, set_store (ts_close it (store w)) w)
  | Some (_, it) => (Stopped, set_failed true (set_store (ts_close it (store w)) w))
  | None => (Blocked, w)
  end.

Definition Collect_ (it : I) : test (list SequencedEvent * option store_error) :=
  tick ;; collect_now it.

(** ** helpers.go *)

Definition mustEvent (eventType : string) (tags : list string) : test Event :=
  tagSet ← require_NoError (TagsFrom tags);
  mret (mkEvent eventType tagSet None None).

Definition mustQuery (types tags : list string) : test Query :=
  tagSet ← require_NoError (TagsFrom tags);
  require_NoError (QueryFromItems [mkItem types tagSet]).

Definition scopedCondition (types tags : list string) (after : option SequencePosition) :
    test AppendCondition :=
  query ← mustQuery types tags;
  mret (mkCondition query after).

Definition mustAppendEvent (eventType : string) (tags : list string) : test SequencePosition :=
  ev ← mustEvent eventType tags;
  r ← Append [mkCommand [ev] None];
  require_NoError r.

Definition no_error (err : option store_error) : bool :=
  match err with None => true | Some _ => false end.

Definition mustRead (query : Query) (opts : ReadOptions) : test (list SequencedEvent) :=
  r ← Read query opts;
  it ← require_NoError r;
  '(events, err) ← Collect_ it;
  require_ (no_error err) ;;
  mret events.

(** [eventstore.ReadOptions{}] *)
Definition all_events_ : ReadOptions := mkReadOptions false None 0.

(** ** append.go *)

Definition append_single : test unit :=
  newStore ;;
  ev ← mustEvent "A" [];
  r ← Append [mkCommand [ev] None];
  pos ← require_NoError r;
  assert_ (IsAfter pos SequencePositionInitial).

Definition append_sequential : test unit :=
  newStore ;;
  evA ← mustEvent "A" [];
  r1 ← Append [mkCommand [evA] None];
  pos1 ← require_NoError r1;
  evB ← mustEvent "B" [];
  r2 ← Append [mkCommand [evB] None];
  pos2 ← require_NoError r2;
  assert_ (IsAfter pos2 pos1).

Definition append_multi_event : test unit :=
  newStore ;;
  evA ← mustEvent "A" [];
  evB ← mustEvent "B" [];
  evC ← mustEvent "C" [];
  r ← Append [mkCommand [evA; evB; evC] None];
  pos ← require_NoError r;
  events ← mustRead QueryAll all_events_;
  require_ (bool_decide (length events = 3%nat)) ;;
  last ← index events 2;
  assert_ (bool_decide (pos = Position last)).

Definition append_rejects (commands : list AppendCommand) : test unit :=
  newStore ;;
  r ← Append commands;
  err ← require_Error r;
  assert_ (bool_decide (as_condition_error err = None)).

Definition append_invalid : test unit :=
  evA ← mustEvent "A" [];
  t_Run "zero commands" (append_rejects []) ;;
  t_Run "command with zero events" (append_rejects [mkCommand [] None]) ;;
  t_Run "command with an invalid append condition"
    (append_rejects [mkCommand [evA] (Some (mkCondition QueryAll None))]).

Definition condition_nothing_matches : test unit :=
  newStore ;;
  ev ← mustEvent "A" ["tag-1"];
  condition ← scopedCondition ["A"] ["tag-1"] None;
  r ← Append [mkCommand [ev] (Some condition)];
  assert_NoError r.

Definition condition_fails : test unit :=
  newStore ;;
  ev ← mustEvent "A" ["tag-1"];
  r ← Append [mkCommand [ev] None];
  require_NoError r ;;
  condition ← scopedCondition ["A"] ["tag-1"] None;
  r ← Append [mkCommand [ev] (Some condition)];
  conditionErr ← require_ErrorAs r;
  assert_ (bool_decide (CommandIndex conditionErr = None)) ;;
  assert_ (bool_decide (condition = ace_Condition conditionErr)).

Definition condition_at_or_before : test unit :=
  newStore ;;
  evA ← mustEvent "A" ["tag-1"];
  r ← Append [mkCommand [evA] None];
  posA ← require_NoError r;
  evB ← mustEvent "B" ["tag-1"];
  condition ← scopedCondition ["A"] ["tag-1"] (Some posA);
  r ← Append [mkCommand [evB] (Some condition)];
  assert_NoError r.

Definition append_atomic : test unit :=
  newStore ;;
  evA ← mustEvent "A" ["tag-1"];
  r ← Append [mkCommand [evA] None];
  require_NoError r ;;
  condition ← scopedCondition ["A"] ["tag-1"] None;
  evB ← mustEvent "B" [];
  evC ← mustEvent "C" [];
  r ← Append [mkCommand [evB] None; mkCommand [evC] (Some condition)];
  conditionErr ← require_ErrorAs r;
  commandIndex ← match CommandIndex conditionErr with Some i => mret i | None => FailNow end;
  assert_ (bool_decide (1 = commandIndex)) ;;
  assert_ (bool_decide (condition = ace_Condition conditionErr)) ;;
  events ← mustRead QueryAll all_events_;
  assert_ (bool_decide (length events = 1%nat)).

Definition testAppend : test unit :=
  t_Run "single event append returns a position after initial" append_single ;;
  t_Run "sequential appends produce increasing positions" append_sequential ;;
  t_Run "returned position is the last event of a multi-event command" append_multi_event ;;
  t_Run "rejects invalid append input" append_invalid ;;
  t_Run "condition succeeds when nothing matches" condition_nothing_matches ;;
  t_Run "condition fails when a matching event exists after the given position" condition_fails ;;
  t_Run "condition succeeds when the only matching event is at or before after"
    condition_at_or_before ;;
  t_Run "a multi-command append is atomic" append_atomic.

(** ** read.go *)

Definition comparePosition (a b : SequencedEvent) : Z :=
  CompareSequencePosition (Position a) (Position b).

(** [slices.IsSortedFunc] *)
Fixpoint IsSortedFunc {A} (x : list A) (cmp : A → A → Z) : bool :=
  match x with
  | [] => true
  | a :: x =>
      match x with
      | [] => true
      | b :: _ => negb (bool_decide (cmp b a < 0)) && IsSortedFunc x cmp
      end
  end.

Definition positionsOf (events : list SequencedEvent) : list SequencePosition := Position <$> events.

(** The loop of [seedABB]. *)
Fixpoint seed (evs : list (string * string)) (positions : list SequencePosition) :
    test (list SequencePosition) :=
  match evs with
  | [] => mret positions
  | (eventType, tag) :: evs =>
      pos ← mustAppendEvent eventType [tag];
      seed evs (positions ++ [pos])
  end.

Definition seedABB : test (list SequencePosition) :=
  seed [("A", "tag-1"); ("B", "tag-2"); ("B", "tag-3")] [].

(** The events of the first test, with [strconv.Itoa(i)] as their data. *)
Definition numbered_event (i : nat) : Event :=
  mkEvent "A" EmptyTags (Some (FormatInt (Z.of_nat i))) None.

Fixpoint require_numbered (i : nat) (got : list SequencedEvent) : test unit :=
  match got with
  | [] => mret ()
  | ev :: got =>
      require_ (bool_decide (default EmptyString (Data (se_Event ev)) = FormatInt (Z.of_nat i))) ;;
      require_numbered (Datatypes.S i) got
  end.

Definition read_large (n : nat) : test unit :=
  newStore ;;
  r ← Append [mkCommand (numbered_event <$> seq 0 n) None];
  require_NoError r ;;
  got ← mustRead QueryAll all_events_;
  require_ (bool_decide (length got = n)) ;;
  require_numbered 0 got.

Fixpoint read_empty (directions : list bool) : test unit :=
  match directions with
  | [] => mret ()
  | backwards :: directions =>
      newStore ;;
      events ← mustRead QueryAll (mkReadOptions backwards None 0);
      assert_ (bool_decide (events = [])) ;;
      read_empty directions
  end.

Definition read_snapshot : test unit :=
  newStore ;;
  mustAppendEvent "A" [] ;;
  r ← Read QueryAll all_events_;
  it ← require_NoError r;
  mustAppendEvent "B" [] ;;
  '(events, err) ← Collect_ it;
  require_ (no_error err) ;;
  require_ (bool_decide (length events = 1%nat)) ;;
  ev ← index events 0;
  assert_ (bool_decide (Type_ (se_Event ev) = "A")).

Definition read_ascending : test unit :=
  newStore ;;
  seedABB ;;
  events ← mustRead QueryAll all_events_;
  require_ (bool_decide (length events = 3%nat)) ;;
  assert_ (IsSortedFunc events comparePosition).

Definition read_backwards : test unit :=
  newStore ;;
  seedABB ;;
  events ← mustRead QueryAll (mkReadOptions true None 0);
  require_ (bool_decide (length events = 3%nat)) ;;
  assert_ (IsSortedFunc events (λ a b, comparePosition b a)).

(** Most tests of [testRead] seed a store, read it once and expect the events
    at some of the positions. *)
Definition expect_one (positions : list SequencePosition) (i : nat)
    (events : list SequencedEvent) : test unit :=
  require_ (bool_decide (length events = 1%nat)) ;;
  pos ← index positions i;
  ev ← index events 0;
  assert_ (bool_decide (pos = Position ev)).

Definition read_after : test unit :=
  newStore ;;
  positions ← seedABB;
  pos ← index positions 1;
  events ← mustRead QueryAll (mkReadOptions false (Some pos) 0);
  expect_one positions 2 events.

Definition read_after_backwards : test unit :=
  newStore ;;
  positions ← seedABB;
  pos ← index positions 1;
  events ← mustRead QueryAll (mkReadOptions true (Some pos) 0);
  expect_one positions 0 events.

Definition read_before_first : test unit :=
  newStore ;;
  positions ← seedABB;
  pos ← index positions 0;
  events ← mustRead QueryAll (mkReadOptions true (Some pos) 0);
  assert_ (bool_decide (events = [])).

Definition read_by_type : test unit :=
  newStore ;;
  positions ← seedABB;
  query ← require_NoError (QueryFromItems [mkItem ["B"] EmptyTags]);
  events ← mustRead query all_events_;
  require_ (bool_decide (length events = 2%nat)) ;;
  assert_ (bool_decide (drop 1 positions = positionsOf events)).

Definition read_or : test unit :=
  newStore ;;
  positions ← seedABB;
  query ← require_NoError (QueryFromItems [mkItem ["B"] EmptyTags; mkItem ["A"] EmptyTags]);
  events ← mustRead query all_events_;
  assert_ (bool_decide (positions = positionsOf events)).

Definition read_by_tag : test unit :=
  newStore ;;
  positions ← seedABB;
  query ← mustQuery ["A"; "B"] ["tag-2"];
  events ← mustRead query all_events_;
  expect_one positions 1 events.

Definition read_unmatched_tag : test unit :=
  newStore ;;
  seedABB ;;
  query ← mustQuery ["A"; "B"] ["unmatched"];
  events ← mustRead query all_events_;
  assert_ (bool_decide (events = [])).

Definition read_superset : test unit :=
  newStore ;;
  pos ← mustAppendEvent "A" ["tag-1"; "tag-2"];
  query ← mustQuery ["A"] ["tag-1"];
  events ← mustRead query all_events_;
  expect_one [pos] 0 events.

Definition read_and : test unit :=
  newStore ;;
  mustAppendEvent "A" ["tag-2"] ;;
  mustAppendEvent "B" ["tag-1"] ;;
  query ← mustQuery ["A"] ["tag-1"];
  events ← mustRead query all_events_;
  assert_ (bool_decide (events = [])).

Definition read_limit : test unit :=
  newStore ;;
  positions ← seedABB;
  events ← mustRead QueryAll (mkReadOptions false None 1);
  expect_one positions 0 events.

Definition read_limit_backwards : test unit :=
  newStore ;;
  positions ← seedABB;
  events ← mustRead QueryAll (mkReadOptions true None 1);
  expect_one positions 2 events.

Definition read_after_limit : test unit :=
  newStore ;;
  positions ← seedABB;
  pos ← index positions 0;
  events ← mustRead QueryAll (mkReadOptions false (Some pos) 1);
  expect_one positions 1 events.

Definition read_after_type_limit : test unit :=
  newStore ;;
  positions ← seedABB;
  query ← require_NoError (QueryFromItems [mkItem ["B"] EmptyTags]);
  pos ← index positions 0;
  events ← mustRead query (mkReadOptions false (Some pos) 1);
  expect_one positions 1 events.

(** [n] of the first test; a parameter, so that it can be run on less. *)
Definition large : nat := Z.to_nat 100000.

Definition testRead_ (n : nat) : test unit :=
  t_Run "reads a large number of events correctly and in order" (read_large n) ;;
  t_Run "an empty store yields no events" (read_empty [false; true]) ;;
  t_Run "reflects a snapshot at call time, not appends made while draining" read_snapshot ;;
  t_Run "yields events in ascending position order by default" read_ascending ;;
  t_Run "backwards yields events in descending position order" read_backwards ;;
  t_Run "after excludes events at or before the given position" read_after ;;
  t_Run "after with backwards excludes events at or after the given position" read_after_backwards ;;
  t_Run "backwards with after at the first position yields nothing" read_before_first ;;
  t_Run "filters by type" read_by_type ;;
  t_Run "query items are combined with OR" read_or ;;
  t_Run "filters by an exact tag match" read_by_tag ;;
  t_Run "no match when the tag differs" read_unmatched_tag ;;
  t_Run "matches when the event's tags are a superset of the filter's tags" read_superset ;;
  t_Run "within a query item, type and tags are combined with AND" read_and ;;
  t_Run "limit caps events read forward to the earliest matches" read_limit ;;
  t_Run "limit caps events read backward to the latest matches" read_limit_backwards ;;
  t_Run "combines after and limit" read_after_limit ;;
  t_Run "combines after, type filter, and limit" read_after_type_limit.

Definition testRead : test unit := testRead_ large.

(** ** subscribe.go *)

(** [mustSubscribe]: the subscription's place in the world is its number. *)
Definition mustSubscribe (query : Query) (opts : SubscribeOptions) : test nat :=
  tick ;;
  r ← call (ts_subscribe query opts);
  it ← require_NoError r;
  (λ w, (Completed (length (subs w)),
         set_subs (subs w ++ [mkSubscription it [] false false]) w)) : test nat.

(** One more round of the goroutine of subscription [id]. *)
Definition run_round (id : nat) : test unit := λ w,
  match subs w !! id with
  | Some sub =>
      let '(sub, s) := round (store w) sub in
      (Completed (), mkWorld s (<[id := sub]> (subs w)) (paces w) (failed w))
  | None => (Completed (), w)
  end.

(** [cancel] *)
Definition cancel (id : nat) : test unit := λ w,
  match subs w !! id with
  | Some sub =>
      (Completed (), set_subs (<[id := mkSubscription (sub_it sub) (sub_events sub) (sub_closed sub)
                                  true]> (subs w)) w)
  | None => (Completed (), w)
  end.

(** A receive from the channel that does not block: an event, the end of a
    closed channel, or nothing. *)
Definition try_receive (id : nat) : test sub_event := λ w,
  match subs w !! id with
  | Some sub =>
      match sub_events sub with
      | se :: rest =>
          (Completed (Yielded se),
           set_subs (<[id := mkSubscription (sub_it sub) rest (sub_closed sub) (sub_cancelled sub)]>
             (subs w)) w)
      | [] => (Completed (if sub_closed sub then Ended else NotYet), w)
      end
  | None => (Stopped, set_failed true w)
  end.

(** Before the timeout of a wait, which is many times the poll interval of
    either store, the goroutine gets at least one round. *)
Definition mustReceive (id : nat) : test SequencedEvent :=
  tick ;;
  r ← try_receive id;
  match r with
  | Yielded se => mret se
  | Ended => FailNow
  | NotYet =>
      run_round id ;;
      r ← try_receive id;
      match r with
      | Yielded se => mret se
      | Ended | NotYet => FailNow
      end
  end.

(** The rounds that a goroutine gets before a wait for the end of its channel
    times out. *)
Definition patience : nat := 100.

(** [for { select { case _, ok := <-events: ... } }], [true] when the channel
    is closed. *)
Fixpoint drain_closed (fuel : nat) (id : nat) : test bool :=
  match fuel with
  | O => mret false
  | Datatypes.S fuel =>
      r ← try_receive id;
      match r with
      | Ended => mret true
      | Yielded _ => drain_closed fuel id
      | NotYet => run_round id ;; drain_closed fuel id
      end
  end.

Definition assertClosed (id : nat) : test unit :=
  tick ;;
  closed ← drain_closed patience id;
  require_ closed.

(** [s.it.Close()] *)
Definition sub_Close (id : nat) : test unit := λ w,
  match subs w !! id with
  | Some sub =>
      let '(it, s) := ts_sub_close (sub_it sub) (store w) in
      (Completed (),
       mkWorld s (<[id := mkSubscription it (sub_events sub) (sub_closed sub) (sub_cancelled sub)]>
         (subs w)) (paces w) (failed w))
  | None => (Completed (), w)
  end.

(** [stop] waits for the channel to be closed without a timeout, then closes
    the iterator. *)
Definition blocked_ {A} : test A := λ w, (Blocked, w).
Definition stop (id : nat) : test unit :=
  cancel id ;;
  closed ← drain_closed patience id;
  if (closed : bool) then sub_Close id else blocked_.

(** [defer sub.stop()]: after the rest of the test, also when that has
    stopped. *)
Definition deferred_stop (id : nat) (body : test unit) : test unit := λ w,
  match body w with
  | (Blocked, w) => (Blocked, w)
  | (v, w) =>
      match stop id w with
      | (Completed _, w) => (v, w)
      | (v', w) => (v', w)
      end
  end.

(** [sub.it.Err()] *)
Definition sub_Err (id : nat) : test (option store_error) := λ w,
  (Completed (subs w !! id ≫= λ sub, ts_sub_err (sub_it sub)), w).

Definition from_start : SubscribeOptions := mkSubscribeOptions None 0.

(** [assert.Equal(t, want, mustReceive(t, sub.events).Position)] *)
Definition expect_position (want : SequencePosition) (id : nat) : test unit :=
  se ← mustReceive id;
  assert_ (bool_decide (want = Position se)).

Definition subscribe_historical : test unit :=
  newStore ;;
  posA ← mustAppendEvent "A" [];
  posB ← mustAppendEvent "B" [];
  sub ← mustSubscribe QueryAll from_start;
  deferred_stop sub (
    expect_position posA sub ;;
    expect_position posB sub).

Definition subscribe_live : test unit :=
  newStore ;;
  sub ← mustSubscribe QueryAll from_start;
  deferred_stop sub (
    pos ← mustAppendEvent "Live" [];
    expect_position pos sub).

Definition subscribe_seamless : test unit :=
  newStore ;;
  posA ← mustAppendEvent "Historical" [];
  sub ← mustSubscribe QueryAll from_start;
  deferred_stop sub (
    posB ← mustAppendEvent "Live" [];
    expect_position posA sub ;;
    expect_position posB sub).

Definition subscribe_after : test unit :=
  newStore ;;
  posA ← mustAppendEvent "A" [];
  sub ← mustSubscribe QueryAll (mkSubscribeOptions (Some posA) 0);
  deferred_stop sub (
    posB ← mustAppendEvent "B" [];
    expect_position posB sub).

Definition subscribe_query : test unit :=
  newStore ;;
  query ← mustQuery ["Target"] [];
  sub ← mustSubscribe query from_start;
  deferred_stop sub (
    mustAppendEvent "Noise" [] ;;
    pos ← mustAppendEvent "Target" [];
    received ← mustReceive sub;
    assert_ (bool_decide (Type_ (se_Event received) = "Target")) ;;
    assert_ (bool_decide (pos = Position received))).

Definition subscribe_multiple : test unit :=
  newStore ;;
  sub1 ← mustSubscribe QueryAll from_start;
  deferred_stop sub1 (
    sub2 ← mustSubscribe QueryAll from_start;
    deferred_stop sub2 (
      pos ← mustAppendEvent "Shared" [];
      expect_position pos sub1 ;;
      expect_position pos sub2)).

Fixpoint append_times (n : nat) (appended : list SequencePosition) : test (list SequencePosition) :=
  match n with
  | O => mret appended
  | Datatypes.S n => pos ← mustAppendEvent "E" []; append_times n (appended ++ [pos])
  end.

Fixpoint expect_positions (wants : list SequencePosition) (id : nat) : test unit :=
  match wants with
  | [] => mret ()
  | want :: wants => expect_position want id ;; expect_positions wants id
  end.

Definition subscribe_order : test unit :=
  newStore ;;
  sub ← mustSubscribe QueryAll from_start;
  deferred_stop sub (
    appended ← append_times 5 [];
    expect_positions appended sub).

Definition subscribe_cancel : test unit :=
  newStore ;;
  sub ← mustSubscribe QueryAll from_start;
  deferred_stop sub (
    cancel sub ;;
    assertClosed sub ;;
    err ← sub_Err sub;
    assert_ (no_error err)).

Definition testSubscribe : test unit :=
  t_Run "delivers historical events first" subscribe_historical ;;
  t_Run "delivers events appended after subscribe starts" subscribe_live ;;
  t_Run "delivers historical and live events seamlessly" subscribe_seamless ;;
  t_Run "after option skips earlier events" subscribe_after ;;
  t_Run "delivers only events matching the query" subscribe_query ;;
  t_Run "multiple concurrent subscriptions see the same events" subscribe_multiple ;;
  t_Run "position ordering is sequential across live appends" subscribe_order ;;
  t_Run "context cancellation stops the subscription cleanly" subscribe_cancel.

(** ** concurrency.go *)

(** [concurrently], with goroutines that make one [Append] each. *)
Definition concurrently (calls : list (list AppendCommand)) :
    test (list (outcome store_error SequencePosition)) :=
  tick ;; call (ts_concurrently calls).

Definition allDistinct (positions : list SequencePosition) : bool :=
  bool_decide (size (list_to_set (Position_String <$> positions) : gset string) = length positions).

(** The loop over [errs] of the racing appends. *)
Fixpoint count_results (rs : list (outcome store_error SequencePosition)) (successes failures : Z) :
    test (Z * Z) :=
  match rs with
  | [] => mret (successes, failures)
  | Ok _ :: rs => count_results rs (successes + 1) failures
  | Err e :: rs =>
      assert_ (match as_condition_error e with Some _ => true | None => false end) ;;
      count_results rs successes (failures + 1)
  | Panic _ :: _ => FailNow
  end.

Definition race_condition (n : nat) : test unit :=
  newStore ;;
  event ← mustEvent "A" ["race"];
  condition ← scopedCondition ["A"] ["race"] None;
  rs ← concurrently (replicate n [mkCommand [event] (Some condition)]);
  '(successes, failures) ← count_results rs 0 0;
  assert_ (bool_decide (successes = 1)) ;;
  assert_ (bool_decide (failures = Z.of_nat n - 1)) ;;
  events ← mustRead QueryAll all_events_;
  assert_ (bool_decide (length events = 1%nat)).

(** [fmt.Sprintf("tag-%d", i)] for the goroutines from [i] on, with the event
    and the condition of each. *)
Fixpoint disjoint_calls (i n : nat) (calls : list (list AppendCommand)) :
    test (list (list AppendCommand)) :=
  match n with
  | O => mret calls
  | Datatypes.S n =>
      let tag := "tag-" +:+ FormatInt (Z.of_nat i) in
      event ← mustEvent "A" [tag];
      condition ← scopedCondition ["A"] [tag] None;
      disjoint_calls (Datatypes.S i) n (calls ++ [[mkCommand [event] (Some condition)]])
  end.

(** [for _, err := range errs { assert.NoError(t, err) }]; the positions of
    calls that failed are the zero value. *)
Fixpoint no_errors (rs : list (outcome store_error SequencePosition))
    (positions : list SequencePosition) : test (list SequencePosition) :=
  match rs with
  | [] => mret positions
  | Ok pos :: rs => no_errors rs (positions ++ [pos])
  | Err _ :: rs => assert_ false ;; no_errors rs (positions ++ [SequencePositionInitial])
  | Panic _ :: _ => FailNow
  end.

Definition race_disjoint (n : nat) : test unit :=
  newStore ;;
  calls ← disjoint_calls 0 n [];
  rs ← concurrently calls;
  positions ← no_errors rs [];
  assert_ (allDistinct positions) ;;
  readEvents ← mustRead QueryAll all_events_;
  assert_ (bool_decide (length readEvents = n)).

Fixpoint plain_calls (n : nat) (calls : list (list AppendCommand)) :
    test (list (list AppendCommand)) :=
  match n with
  | O => mret calls
  | Datatypes.S n =>
      event ← mustEvent "E" [];
      plain_calls n (calls ++ [[mkCommand [event] None]])
  end.

Definition race_unconditional (n : nat) : test unit :=
  newStore ;;
  calls ← plain_calls n [];
  rs ← concurrently calls;
  positions ← no_errors rs [];
  assert_ (allDistinct positions) ;;
  readEvents ← mustRead QueryAll all_events_;
  assert_ (bool_decide (length readEvents = n)) ;;
  assert_ (bool_decide (positions ≡ₚ positionsOf readEvents)).

Definition racers : nat := 20.

Definition testConcurrency_ (n : nat) : test unit :=
  t_Run "racing appends under the same condition: exactly one succeeds" (race_condition n) ;;
  t_Run "concurrent appends to disjoint scopes all succeed" (race_disjoint n) ;;
  t_Run "concurrent unconditional appends produce no lost writes" (race_unconditional n).

Definition testConcurrency : test unit := testConcurrency_ racers.

(** ** eventstoretest.go *)

Definition Run : test unit :=
  t_Run "Append" testAppend ;;
  t_Run "Read" testRead ;;
  t_Run "Subscribe" testSubscribe ;;
  t_Run "Concurrency" testConcurrency.

(** A test that runs on a new store from scratch, with the goroutines at any
    pace, and its outcome. *)
Inductive outcome_ := Pass | Fail_ | Hangs.

Definition run_test (t : test unit) (paces : list nat) : outcome_ :=
  match t (mkWorld ts_new [] paces false) with
  | (Blocked, _) => Hangs
  | (_, w) => if failed w then Fail_ else Pass
  end.
End suite.

Arguments Completed {_} _.
Arguments Stopped {_}.
Arguments Blocked {_}.

Arguments testAppend {S I J H} ts : rename.
Arguments testRead_ {S I J H} ts : rename.
Arguments testRead {S I J H} ts : rename.
Arguments testSubscribe {S I J H} ts : rename.
Arguments testConcurrency_ {S I J H} ts : rename.
Arguments testConcurrency {S I J H} ts : rename.
Arguments Run {S I J H} ts : rename.
Arguments run_test {S I J H} ts : rename.
