(* ===== verification/ConformanceLaws.v ===== *)
(** * ConformanceLaws

    What a store promises to the conformance suite, as a class, and the rules
    by which the tests are verified against it: [wpt] is the weakest
    precondition of a test that neither fails nor stops early. *)

From S2P Require Import Prelude.
From S2P Require Import GoStrconv.
From S2P Require Import SequencePosition.
From S2P Require Import Tags.
From S2P Require Import EventStore.
From S2P Require Import Iterator.
From S2P Require Import Matching.
From S2P Require Import StoreSpec.
From S2P Require Import Serialize.
From S2P Require Import PgConditions.
From S2P Require Import Cursor.
From S2P Require Import ReadSQL.
From S2P Require Import PgRead.
From S2P Require Import PgAppend.
From S2P Require Import Conformance.

Local Open Scope Z_scope.

(** ** The laws *)

(** Commands that either store can hold and give back. *)
Record ordinary (commands : list AppendCommand) : Prop := {
  ordinary_representable : representable commands;
  ordinary_decodable : Forall decodable (all_events commands);
}.

(** An event as a read may give it back: nil payloads may be filled in. *)
Definition same_event (se got : SequencedEvent) : Prop :=
  Position got = Position se ∧ Type_ (se_Event got) = Type_ (se_Event se) ∧
  ∀ d, Data (se_Event se) = Some d → Data (se_Event got) = Some d.

(** The matching events after a position. *)
Definition owed (log : list SequencedEvent) (q : Query) (p : SequencePosition) :
    list SequencedEvent :=
  matchingEvents log q (mkReadOptions false (Some p) 0).

(** Results of a healthy store: no failure of its infrastructure. *)
Definition healthy (r : outcome store_error SequencePosition) : Prop :=
  match r with
  | Ok _ => True
  | Err (EDatabase _) | Err (EContext _) => False
  | Err _ => True
  | Panic _ => False
  end.

(** What racing appends did: the calls that succeeded, in the order in which
    they took effect, each with its events. *)
Inductive raced (calls : list (list AppendCommand)) : list (nat * list SequencedEvent) → Prop :=
  | raced_nil : raced calls []
  | raced_snoc h i commands evs :
      raced calls h → calls !! i = Some commands → (i ∉ h.*1) →
      conditions_hold (mjoin h.*2) commands → se_Event <$> evs = all_events commands →
      raced calls (h ++ [(i, evs)]).

Definition race_result (h : list (nat * list SequencedEvent)) (log : list SequencedEvent) (i : nat)
    (commands : list AppendCommand) (r : outcome store_error SequencePosition) : Prop :=
  match r with
  | Ok pos => ∃ evs se, (i, evs) ∈ h ∧ last evs = Some se ∧ Position se = pos
  | Err (EAppendCondition _) => (i ∉ h.*1) ∧ ¬ conditions_hold log commands
  | _ => False
  end.

Definition race_outcome (calls : list (list AppendCommand))
    (rs : list (outcome store_error SequencePosition)) (log : list SequencedEvent) : Prop :=
  length rs = length calls ∧
  ∃ h, raced calls h ∧ log ≡ₚ mjoin h.*2 ∧
    ∀ i commands r, calls !! i = Some commands → rs !! i = Some r →
      race_result h log i commands r.

Definition admissible (commands : list AppendCommand) : Prop :=
  ordinary commands ∧ conditions_valid commands ∧ all_events commands ≠ [] ∧
  length commands = 1%nat.

(** Queries that select what they mean, and fit into a statement. *)
Definition simple_query (q : Query) : Prop := single_tags q ∧ few_arguments q.

(** [holds o log s]: the state [s] holds [log], and [o] is the read iterator
    that is open.  [sub_ok q p dl j s]: the subscribe iterator [j] was started
    with [q] after [p] and has delivered [dl]. *)
Class TestStoreLaws (S I J : Type) `{TestStore S I J} := {
  holds : option I → list SequencedEvent → S → Prop;
  evolves_ : S → S → Prop;
  sub_ok : Query → SequencePosition → list SequencedEvent → J → S → Prop;
  evolves_refl s : evolves_ s s;
  holds_ascending o log s : holds o log s → ascending log;
  holds_positions o log s se : holds o log s → se ∈ log → 1 ≤ value (Position se) < two63;
  holds_new : holds None [] ts_new;
  append_law o log s commands :
    holds o log s → ordinary commands →
    Z.of_nat (length log + length (all_events commands)) < two63 →
    ∃ r log' s', ts_append commands s = Some (r, s') ∧ holds o log' s' ∧ evolves_ s s' ∧
      append_contract log commands r log' ∧ healthy r;
  read_law log s q opts :
    holds None log s → Forall (λ se, decodable (se_Event se)) log →
    query_wf q → simple_query q → after_fits_opts opts →
    ∃ it s' got it', ts_read q opts s = Some (Ok it, s') ∧ holds (Some it) log s' ∧
      evolves_ s s' ∧ Collect (ts_fuel it) it = Some (Ok (got, None), it') ∧
      Forall2 same_event (matchingEvents log q opts) got ∧
      ∀ log s, holds (Some it) log s →
        holds None log (ts_close it' s) ∧ evolves_ s (ts_close it' s);
  subscribe_law log s q opts :
    holds None log s → query_wf q → simple_query q →
    0 ≤ value (default SequencePositionInitial (Subscribe_After opts)) < two63 →
    ∃ j s', ts_subscribe q opts s = Some (Ok j, s') ∧ holds None log s' ∧ evolves_ s s' ∧
      sub_ok q (default SequencePositionInitial (Subscribe_After opts)) [] j s' ∧
      ts_sub_err j = None;
  sub_ok_evolves q p dl j s s' log log' :
    holds None log s → holds None log' s' → evolves_ s s' →
    sub_ok q p dl j s → sub_ok q p dl j s';
  sub_ok_owed q p dl j s log :
    holds None log s → sub_ok q p dl j s →
    ∃ l rest, owed log q p = l ++ rest ∧ Forall2 same_event l dl;
  next_law log s q p dl j cancelled :
    holds None log s → Forall (λ se, decodable (se_Event se)) log → sub_ok q p dl j s →
    ts_sub_err j = None →
    ∃ e j' s', ts_next cancelled j s = Some (e, j', s') ∧ holds None log s' ∧ evolves_ s s' ∧
      ts_sub_err j' = None ∧
      match e with
      | Yielded se => sub_ok q p (dl ++ [se]) j' s'
      | NotYet => cancelled = false ∧ sub_ok q p dl j' s' ∧ length (owed log q p) = length dl
      | Ended => cancelled = true
      end;
  sub_close_law log s j :
    holds None log s → ts_sub_err j = None →
    ∃ j' s', ts_sub_close j s = (j', s') ∧ holds None log s' ∧ evolves_ s s' ∧ ts_sub_err j' = None;
  race_law calls rs s' :
    Forall admissible calls → Z.of_nat (length (mjoin (all_events <$> calls))) < two63 →
    ts_concurrently calls ts_new = Some (rs, s') →
    ∃ log, holds None log s' ∧ race_outcome calls rs log;
}.

Lemma raced_decodable calls h : Forall admissible calls → raced calls h →
  Forall (λ se, decodable (se_Event se)) (mjoin h.*2).
Proof.
  intros Hadm. induction 1 as [|h i commands evs _ IH Hi _ _ Hevs]; [constructor|].
  rewrite fmap_app, join_app. apply Forall_app. split; [done|]. cbn. rewrite app_nil_r.
  rewrite Forall_lookup in Hadm. destruct (Hadm i commands Hi) as [[_ Hd] _].
  rewrite <-Hevs, Forall_fmap in Hd. exact Hd.
Qed.

(** ** Weakest preconditions of tests *)

Section rules.
Context {S I J : Type} `{TestStoreLaws S I J}.
(** Whether a test may block, as when goroutines are not scheduled to their end. *)
Context (may_block : Prop).

Notation test := (@test S J).
Notation world := (@world S J).

Definition wpt {A} (t : test A) (Q : A → world → Prop) (w : world) : Prop :=
  match t w with
  | (Completed a, w') => failed w' = failed w ∧ Q a w'
  | (Stopped, _) => False
  | (Blocked, _) => may_block
  end.

Lemma wpt_ret {A} (a : A) (Q : A → world → Prop) w : Q a w → wpt (mret a) Q w.
Proof. done. Qed.

Lemma wpt_bind {A B} (t : test A) (k : A → test B) Q w :
  wpt t (λ a w', wpt (k a) Q w') w → wpt (t ≫= k) Q w.
Proof.
  unfold wpt, mbind, test_bind. destruct (t w) as [[a| |] w1]; [|done..].
  intros [Hf HQ]. destruct (k a w1) as [[b| |] w2]; [|done..].
  destruct HQ as [Hf' HQ]. split; [congruence|done].
Qed.

Lemma wpt_mono {A} (t : test A) (P Q : A → world → Prop) w :
  (∀ a w', P a w' → Q a w') → wpt t P w → wpt t Q w.
Proof. unfold wpt. intros HPQ. destruct (t w) as [[a| |] w1]; [|done..]. intros [? ?]. auto. Qed.

(** A part of a test, and what comes after it. *)
Lemma wpt_step {A B} (t : test A) (k : A → test B) P Q w :
  wpt t P w → (∀ a w', P a w' → wpt (k a) Q w') → wpt (t ≫= k) Q w.
Proof. intros Ht Hk. apply wpt_bind. by eapply wpt_mono. Qed.

Lemma wpt_assert (b : bool) (Q : () → world → Prop) w : b = true → Q () w → wpt (assert_ b) Q w.
Proof.
  intros -> HQ. unfold wpt, assert_. cbn. rewrite orb_false_r. split; [done|].
  by destruct w.
Qed.

Lemma wpt_require (b : bool) (Q : () → world → Prop) w : b = true → Q () w → wpt (require_ b) Q w.
Proof. by intros ->. Qed.

Lemma wpt_index {A} (l : list A) i a (Q : A → world → Prop) w :
  l !! i = Some a → Q a w → wpt (index l i) Q w.
Proof. unfold index. by intros ->. Qed.

Lemma wpt_Run name (f : test ()) (Q : () → world → Prop) w :
  wpt f (λ _ w', Q () (set_failed (failed w) w')) (set_failed false w) → wpt (t_Run name f) Q w.
Proof.
  unfold wpt, t_Run. destruct (f (set_failed false w)) as [[[]| |] w']; [|done..].
  cbn. intros [-> HQ]. rewrite orb_false_r. by split.
Qed.

(** A subtest that makes its own store. *)
Lemma wpt_subtest name (f : test ()) (Q : () → world → Prop) w :
  (∀ w, wpt f (λ _ _, True) w) → (∀ w', Q () w') → wpt (t_Run name f) Q w.
Proof. intros Hf HQ. apply wpt_Run. eapply wpt_mono; [|apply Hf]. auto. Qed.

(** *** The world of a test *)

(** A subscription of the test: it is receiving the events of a query after a
    position, of which the test has got the first few; it has been cancelled;
    or its channel has been drained. *)
Inductive sub_spec :=
  | Receiving (q : Query) (p : SequencePosition) (k : nat)
  | Ending (q : Query) (p : SequencePosition)
  | Finished.

Definition sub_at (s : S) (spec : sub_spec) (sub : subscription) : Prop :=
  ts_sub_err (sub_it sub) = None ∧ (length (sub_events sub) ≤ channel_size)%nat ∧
  match spec with
  | Receiving q p k => sub_closed sub = false ∧ sub_cancelled sub = false ∧
      ∃ got, length got = k ∧ sub_ok q p (got ++ sub_events sub) (sub_it sub) s
  | Ending q p => sub_cancelled sub = true ∧
      (sub_closed sub = true ∨
       sub_closed sub = false ∧ ∃ got, sub_ok q p (got ++ sub_events sub) (sub_it sub) s)
  | Finished => sub_closed sub = true ∧ sub_cancelled sub = true ∧ sub_events sub = []
  end.

Record at_log (o : option I) (log : list SequencedEvent) (ss : list sub_spec) (w : world) : Prop := {
  at_holds : holds o log (store w);
  at_decodable : Forall (λ se, decodable (se_Event se)) log;
  at_subs : Forall2 (sub_at (store w)) ss (subs w);
  at_exclusive : o = None ∨ ss = [];
}.

Lemma sub_at_evolves s s' log log' spec sub :
  holds None log s → holds None log' s' → evolves_ s s' → sub_at s spec sub → sub_at s' spec sub.
Proof.
  intros Hs Hs' Hev (?&?&Hsub). split_and!; [done..|].
  pose proof (λ q p dl j, sub_ok_evolves q p dl j s s' log log' Hs Hs' Hev) as Hok.
  destruct spec; naive_solver.
Qed.

(** Without iterators open, an operation that keeps the store healthy. *)
Lemma at_log_evolves o o' log log' ss w s' :
  at_log o log ss w → holds o' log' s' → evolves_ (store w) s' → (o' = None ∨ ss = []) →
  Forall (λ se, decodable (se_Event se)) log' → at_log o' log' ss (set_store s' w).
Proof.
  intros [Hh Hd Hs Hex] Hh' Hev Hex' Hd'. split; cbn; [done|done| |done].
  destruct Hex' as [->| ->]; [|by inversion Hs; constructor].
  destruct Hex as [->| ->]; [|by inversion Hs; constructor].
  eapply Forall2_impl; [exact Hs|]. intros spec sub. by eapply sub_at_evolves.
Qed.

Lemma round_spec log s spec sub sub' s' :
  holds None log s → Forall (λ se, decodable (se_Event se)) log →
  sub_at s spec sub → round s sub = (sub', s') →
  holds None log s' ∧ evolves_ s s' ∧ sub_at s' spec sub'.
Proof.
  intros Hs Hd Hsub. unfold round.
  assert (holds None log s ∧ evolves_ s s ∧ sub_at s spec sub) as Hid
    by (split_and!; [done|apply evolves_refl|done]).
  destruct (sub_closed sub) eqn:Hcl; cbn [orb]; [by intros [= <- <-]|].
  case_bool_decide as Hsz; [by intros [= <- <-]|].
  destruct Hsub as (He&_&Hsub).
  assert (∃ q p got, sub_ok q p (got ++ sub_events sub) (sub_it sub) s) as (q&p&got&Hok)
    by (clear Hid; destruct spec as [q' p' k|q' p'|];
        [destruct Hsub as (_&_&got&_&?)|destruct Hsub as (_&[?|(_&got&?)])|destruct Hsub as [? _]];
        [eauto|congruence|eauto|congruence]).
  assert (∃ e j' s1, ts_next (sub_cancelled sub) (sub_it sub) s = Some (e, j', s1) ∧
    holds None log s1 ∧ evolves_ s s1 ∧ ts_sub_err j' = None ∧
    (e = Ended → sub_cancelled sub = true) ∧
    ∀ q p dl, sub_ok q p dl (sub_it sub) s →
      match e with
      | Yielded se => sub_ok q p (dl ++ [se]) j' s1
      | NotYet => sub_ok q p dl j' s1
      | Ended => True
      end) as (e&j'&s1&->&Hs1&Hev&He1&Hend&Hr).
  { destruct (next_law log s q p _ _ (sub_cancelled sub) Hs Hd Hok He)
      as (e&j'&s1&E&Hs1&Hev&He1&Hr).
    exists e, j', s1. split_and!; [done..|by intros ->|].
    intros q' p' dl Hok'.
    destruct (next_law log s q' p' _ _ (sub_cancelled sub) Hs Hd Hok' He)
      as (e'&j1&s2&E'&_&_&_&Hr'). rewrite E in E'. injection E' as <- <- <-.
    destruct e; naive_solver. }
  unfold channel_size in Hsz.
  destruct e as [se| |]; intros [= <- <-];
    (split_and!; [done..|]); (split; [done|]); cbn; rewrite ?length_app;
    (split; [unfold channel_size; cbn; lia|]);
    (destruct spec as [q' p' k|q' p'|]; [| |by destruct Hsub; congruence]).
  - destruct Hsub as (_&?&got'&?&Hok'). split_and!; [done..|]. exists got'.
    rewrite (assoc_L (++)). auto.
  - destruct Hsub as (?&[?|(_&got'&Hok')]); [congruence|]. split; [done|]. right.
    split; [done|]. exists got'. rewrite (assoc_L (++)). auto.
  - destruct Hsub as (_&?&_). specialize (Hend eq_refl). congruence.
  - destruct Hsub as [? _]. auto.
  - destruct Hsub as (_&?&got'&?&Hok'). split_and!; [done..|]. exists got'. auto.
  - destruct Hsub as (?&[?|(_&got'&Hok')]); [congruence|]. split; [done|]. right. eauto.
Qed.

Lemma rounds_spec n log s spec sub sub' s' :
  holds None log s → Forall (λ se, decodable (se_Event se)) log →
  sub_at s spec sub → rounds n s sub = (sub', s') →
  holds None log s' ∧ sub_at s' spec sub' ∧
  ∀ spec2 sub2, sub_at s spec2 sub2 → sub_at s' spec2 sub2.
Proof.
  intros Hs Hd. revert s sub Hs. induction n as [|n IH]; intros s sub Hs Hsub; cbn.
  { intros [= <- <-]. done. }
  destruct (round s sub) as [sub1 s1] eqn:E. intros Hr.
  destruct (round_spec log s spec sub sub1 s1 Hs Hd Hsub E) as (Hs1&Hev&Hsub1).
  destruct (IH s1 sub1 Hs1 Hsub1 Hr) as (Hs'&Hsub'&Hothers). split_and!; [done..|].
  intros spec2 sub2 H2. apply Hothers. by eapply (sub_at_evolves s s1).
Qed.

Lemma all_rounds_spec n log s specs ss ss' s' :
  holds None log s → Forall (λ se, decodable (se_Event se)) log →
  Forall2 (sub_at s) specs ss → all_rounds n s ss = (ss', s') →
  holds None log s' ∧ Forall2 (sub_at s') specs ss' ∧
  ∀ spec2 sub2, sub_at s spec2 sub2 → sub_at s' spec2 sub2.
Proof.
  intros Hs Hd Hss. revert s s' ss' Hs Hss. revert specs.
  induction ss as [|sub ss IH]; intros specs s s' ss' Hs Hss; cbn.
  { intros [= <- <-]. by apply Forall2_nil_inv_r in Hss as ->. }
  apply Forall2_cons_inv_r in Hss as (spec&specs'&Hsub&Hss&->).
  destruct (rounds n s sub) as [sub1 s1] eqn:E1.
  destruct (all_rounds n s1 ss) as [ss2 s2] eqn:E2. intros [= <- <-].
  destruct (rounds_spec n log s spec sub sub1 s1 Hs Hd Hsub E1) as (Hs1&Hsub1&Hoth1).
  destruct (IH specs' s1 s2 ss2 Hs1) as (Hs2&Hss2&Hoth2); [|done|].
  { eapply Forall2_impl; [done|]. auto. }
  split_and!; [done|constructor; auto|auto].
Qed.

Lemma wpt_tick o log ss w : at_log o log ss w → wpt tick (λ _ w', at_log o log ss w') w.
Proof.
  intros [Hh Hd Hs Hex]. unfold wpt, tick.
  destruct Hex as [->| ->].
  - destruct (all_rounds _ (store w) (subs w)) as [ss' s'] eqn:E.
    destruct (all_rounds_spec _ log _ ss _ ss' s' Hh Hd Hs E) as (?&?&_).
    split; [done|]. split; try done. by left.
  - apply Forall2_nil_inv_l in Hs as ->. cbn. split; [done|].
    split; [done|done|constructor|by right].
Qed.

Lemma wpt_after_tick {A} o log ss (k : test A) (Q : A → world → Prop) w :
  at_log o log ss w → (∀ w', at_log o log ss w' → wpt k Q w') → wpt (tick ;; k) Q w.
Proof. intros Hw Hk. eapply wpt_step; [by apply wpt_tick|]. intros [] w'. apply Hk. Qed.

Lemma wpt_newStore w : wpt newStore (λ _ w', at_log None [] [] w') w.
Proof. split; [done|]. split; [apply holds_new|constructor|constructor|by left]. Qed.

(** *** Appends and reads *)

Lemma wpt_call {A} (f : S → option (A * S)) a s' (Q : A → world → Prop) w :
  f (store w) = Some (a, s') → Q a (set_store s' w) → wpt (call f) Q w.
Proof. unfold wpt, call. by intros ->. Qed.

Lemma wpt_require_NoError {E A} (r : outcome E A) a (Q : A → world → Prop) w :
  r = Ok a → Q a w → wpt (require_NoError r) Q w.
Proof. by intros ->. Qed.

Lemma contract_decodable log commands r log' :
  append_contract log commands r log' → Forall decodable (all_events commands) →
  Forall (λ se, decodable (se_Event se)) log → Forall (λ se, decodable (se_Event se)) log'.
Proof.
  intros Hc Hev Hlog. inversion Hc as [| | | | |new se ? ? Hnew]; subst; try done.
  apply Forall_app. split; [done|]. rewrite <-Hnew, Forall_fmap in Hev.
  exact Hev.
Qed.

Lemma wpt_Append o log ss w commands :
  at_log o log ss w → ordinary commands →
  Z.of_nat (length log + length (all_events commands)) < two63 →
  wpt (Append commands) (λ r w', ∃ log', at_log o log' ss w' ∧
    append_contract log commands r log' ∧ healthy r) w.
Proof.
  intros Hw Ho Hlen. apply (wpt_after_tick _ _ _ _ _ _ Hw). intros w1 Hw1.
  destruct (append_law o log (store w1) commands) as (r&log'&s'&E&Hh&Hev&Hc&Hr);
    [apply Hw1|done..|].
  eapply wpt_call; [exact E|]. exists log'. split_and!; [|done..].
  eapply at_log_evolves; [done..|apply Hw1|].
  eapply contract_decodable; [done|apply Ho|apply Hw1].
Qed.

(** An append without violated conditions succeeds. *)
Lemma wpt_Append_ok o log ss w commands :
  at_log o log ss w → ordinary commands →
  Z.of_nat (length log + length (all_events commands)) < two63 →
  conditions_valid commands → conditions_hold log commands → all_events commands ≠ [] →
  wpt (Append commands) (λ r w', ∃ new se, r = Ok (Position se) ∧
    at_log o (log ++ new) ss w' ∧ se_Event <$> new = all_events commands ∧
    last new = Some se) w.
Proof.
  intros Hw Ho Hlen Hv Hc Hne. eapply wpt_mono; [|by eapply wpt_Append].
  intros r w' (log'&Hw'&Hcon&Hr).
  destruct Hcon as [| |e cmd c Hin Hcmd He|i cmd c _ Hi Hcmd Hviol _|_ Hnil|new se _ _ Hnew _ Hlast].
  - done.
  - done.
  - unfold conditions_valid in Hv. rewrite Forall_forall in Hv.
    specialize (Hv cmd Hin c Hcmd). apply ValidateAppendCondition_Ok in Hv. congruence.
  - unfold conditions_hold in Hc. rewrite Forall_forall in Hc.
    by destruct (Hc cmd (list_elem_of_lookup_2 _ _ _ Hi) c Hcmd).
  - done.
  - eauto 10.
Qed.

(** One with a violated condition fails with the error of the first of them. *)
Lemma wpt_Append_violated o log ss w commands :
  at_log o log ss w → ordinary commands →
  Z.of_nat (length log + length (all_events commands)) < two63 →
  conditions_valid commands → ¬ conditions_hold log commands → all_events commands ≠ [] →
  wpt (Append commands) (λ r w', ∃ i cmd c, r = Err (violation_error commands i c) ∧
    at_log o log ss w' ∧ commands !! i = Some cmd ∧ Condition cmd = Some c ∧ violated log c) w.
Proof.
  intros Hw Ho Hlen Hv Hc Hne. eapply wpt_mono; [|by eapply wpt_Append].
  intros r w' (log'&Hw'&Hcon&Hr).
  destruct Hcon as [| |e cmd c Hin Hcmd He|i cmd c _ Hi Hcmd Hviol _|_ Hnil|new se _ Hcon _ _ _].
  - done.
  - done.
  - unfold conditions_valid in Hv. rewrite Forall_forall in Hv.
    specialize (Hv cmd Hin c Hcmd). apply ValidateAppendCondition_Ok in Hv. congruence.
  - eauto 10.
  - done.
  - done.
Qed.

(** Invalid input is rejected, but not as a violated condition. *)
Lemma wpt_Append_rejected o log ss w commands :
  at_log o log ss w → ordinary commands →
  Z.of_nat (length log + length (all_events commands)) < two63 →
  ¬ conditions_valid commands ∨ (conditions_hold log commands ∧ all_events commands = []) →
  wpt (Append commands) (λ r w', ∃ e, r = Err e ∧ as_condition_error e = None ∧
    at_log o log ss w') w.
Proof.
  intros Hw Ho Hlen Hbad. eapply wpt_mono; [|by eapply wpt_Append].
  intros r w' (log'&Hw'&Hcon&Hr).
  destruct Hcon as [| |e cmd c Hin Hcmd He|i cmd c Hv Hi Hcmd Hviol _|Hv Hnil|new se Hv _ Hnew _ Hlast];
    try done; [eauto| |eauto|].
  - destruct Hbad as [?|[Hc _]]; [done|]. unfold conditions_hold in Hc. rewrite Forall_forall in Hc.
    by destruct (Hc cmd (list_elem_of_lookup_2 _ _ _ Hi) c Hcmd).
  - destruct Hbad as [?|[_ Hnil]]; [done|]. rewrite Hnil in Hnew.
    apply fmap_nil_inv in Hnew as ->. done.
Qed.

Lemma wpt_Read log w q opts :
  at_log None log [] w → query_wf q → simple_query q → after_fits_opts opts →
  wpt (Read q opts) (λ r w', ∃ it got it', r = Ok it ∧ at_log (Some it) log [] w' ∧
    Collect (ts_fuel it) it = Some (Ok (got, None), it') ∧
    Forall2 same_event (matchingEvents log q opts) got ∧
    ∀ log s, holds (Some it) log s →
      holds None log (ts_close it' s) ∧ evolves_ s (ts_close it' s)) w.
Proof.
  intros Hw Hq Ht Ha. apply (wpt_after_tick _ _ _ _ _ _ Hw). intros w1 Hw1.
  destruct (read_law log (store w1) q opts) as (it&s'&got&it'&E&Hh&Hev&Hr&Hgot&Hcl);
    [apply Hw1|apply Hw1|done..|].
  eapply wpt_call; [exact E|]. exists it, got, it'. split_and!; [done| |done..].
  eapply at_log_evolves; [done..|by right|apply Hw1].
Qed.

Lemma wpt_Collect log w it got it' :
  at_log (Some it) log [] w → Collect (ts_fuel it) it = Some (Ok (got, None), it') →
  (∀ log s, holds (Some it) log s →
    holds None log (ts_close it' s) ∧ evolves_ s (ts_close it' s)) →
  wpt (Collect_ it) (λ r w', r = (got, None) ∧ at_log None log [] w') w.
Proof.
  intros Hw E Hcl. apply (wpt_after_tick _ _ _ _ _ _ Hw). intros w1 Hw1.
  unfold wpt, collect_now. rewrite E. split; [done|]. split; [done|].
  destruct (Hcl log (store w1)) as [Hh Hev]; [apply Hw1|].
  eapply at_log_evolves; [done..|by right|apply Hw1].
Qed.

(** A read yields the matching events of the log. *)
Lemma wpt_mustRead log w q opts :
  at_log None log [] w → query_wf q → simple_query q → after_fits_opts opts →
  wpt (mustRead q opts) (λ got w', at_log None log [] w' ∧
    Forall2 same_event (matchingEvents log q opts) got) w.
Proof.
  intros Hw Hq Ht Ha. unfold mustRead. eapply wpt_step; [by apply wpt_Read|].
  intros r w1 (it&got&it'&->&Hw1&E&Hgot&Hcl). apply wpt_bind, (wpt_require_NoError _ it); [done|].
  eapply wpt_step; [by eapply wpt_Collect|].
  intros [got' err] w2 [[= -> ->] Hw2]. by apply wpt_bind, wpt_require.
Qed.

(** *** Events and queries *)

(** Tags that the code accepts and the stores can hold. *)
Definition good_tags (tags : list string) : Prop :=
  Forall (λ tag, isValidTagToken tag = true ∧ tag_clean tag) tags.

Definition tags_of (tags : list string) : Tags := mkTags (list_to_set tags).
Definition event_of (eventType : string) (tags : list string) : Event :=
  mkEvent eventType (tags_of tags) None None.
Definition query_of (types tags : list string) : Query := mkQuery [mkItem types (tags_of tags)] false.

Lemma good_tags_valid tags : good_tags tags → TagsFrom tags = Ok (tags_of tags).
Proof. intros Ht. apply TagsFrom_Ok. eapply Forall_impl; [exact Ht|]. by intros ? []. Qed.

Lemma tags_of_elem tags v : v ∈ tag_values (tags_of tags) ↔ v ∈ tags.
Proof. cbn. by rewrite elem_of_list_to_set. Qed.

Lemma good_tags_clean tags : good_tags tags → tags_clean (tags_of tags).
Proof.
  intros Ht v Hv%tags_of_elem. unfold good_tags in Ht. rewrite Forall_forall in Ht. by apply Ht.
Qed.

Lemma event_of_decodable eventType tags : good_tags tags → decodable (event_of eventType tags).
Proof.
  intros Ht. split_and!; [|by vm_compute..].
  intros v Hv%tags_of_elem. unfold good_tags in Ht. rewrite Forall_forall in Ht. by apply Ht.
Qed.

Lemma wpt_mustEvent eventType tags (Q : Event → world → Prop) w :
  good_tags tags → Q (event_of eventType tags) w → wpt (mustEvent eventType tags) Q w.
Proof.
  intros Ht HQ. apply wpt_bind. apply (wpt_require_NoError _ (tags_of tags)); [|done].
  by apply good_tags_valid.
Qed.

Lemma wpt_mustQuery types tags (Q : Query → world → Prop) w :
  good_tags tags → types ≠ [] → Q (query_of types tags) w → wpt (mustQuery types tags) Q w.
Proof.
  intros Ht Hne HQ. apply wpt_bind. apply (wpt_require_NoError _ (tags_of tags)).
  { by apply good_tags_valid. }
  apply (wpt_require_NoError _ (query_of types tags)); [|done]. by destruct types.
Qed.

Lemma wpt_scopedCondition types tags after (Q : AppendCondition → world → Prop) w :
  good_tags tags → types ≠ [] → Q (mkCondition (query_of types tags) after) w →
  wpt (scopedCondition types tags after) Q w.
Proof. intros ???. by apply wpt_bind, wpt_mustQuery. Qed.

Lemma ordinary_plain (evs : list Event) :
  Forall (λ ev, tags_clean (Event_Tags ev) ∧ decodable ev) evs → ordinary [mkCommand evs None].
Proof.
  intros [Hc Hd]%Forall_and. split; [split|]; cbn; rewrite ?(right_id_L [] (++)); try done.
  - by apply Forall_singleton.
  - by apply Forall_singleton.
Qed.

(** An event of a type with tags, at the end of the log. *)
Lemma wpt_mustAppendEvent o log ss w eventType tags :
  at_log o log ss w → good_tags tags → Z.of_nat (length log + 1) < two63 →
  wpt (mustAppendEvent eventType tags) (λ pos w', ∃ se, pos = Position se ∧
    se_Event se = event_of eventType tags ∧ at_log o (log ++ [se]) ss w') w.
Proof.
  intros Hw Ht Hlen. apply wpt_bind, wpt_mustEvent; [done|].
  eapply wpt_step; [eapply wpt_Append_ok; [done|..]|].
  - apply ordinary_plain, Forall_singleton. split; [by apply good_tags_clean|by apply event_of_decodable].
  - done.
  - by apply Forall_singleton.
  - by apply Forall_singleton.
  - done.
  - intros r w1 (new&se&->&Hw1&Hnew&Hlast). apply (wpt_require_NoError _ (Position se)); [done|].
    destruct new as [|se' [|??]]; [done| |done]. injection Hlast as ->. injection Hnew as Hse. eauto.
Qed.

(** *** Subscriptions *)

(** The store and one subscription move. *)
Lemma at_log_sub log ss w id spec s' sub :
  at_log None log ss w → holds None log s' → evolves_ (store w) s' → sub_at s' spec sub →
  at_log None log (<[id := spec]> ss) (mkWorld s' (<[id := sub]> (subs w)) (paces w) (failed w)).
Proof.
  intros [Hh Hd Hs _] Hh' Hev Hsub. split; cbn; [done|done| |by left].
  apply Forall2_insert; [|done]. eapply Forall2_impl; [exact Hs|].
  intros spec0 sub0. by eapply sub_at_evolves.
Qed.

Lemma at_log_set_subs (w : world) id sub :
  subs w !! id = Some sub → set_subs (<[id := sub]> (subs w)) w = w.
Proof. intros Hsub. rewrite list_insert_id by done. by destruct w. Qed.

Lemma at_log_sub_same log ss w id spec sub :
  at_log None log ss w → sub_at (store w) spec sub →
  at_log None log (<[id := spec]> ss) (set_subs (<[id := sub]> (subs w)) w).
Proof. intros Hw Hsub. by apply (at_log_sub _ _ w _ _ (store w)); [|apply Hw|apply evolves_refl|]. Qed.

Lemma at_log_lookup o log ss w id spec :
  at_log o log ss w → ss !! id = Some spec →
  ∃ sub, subs w !! id = Some sub ∧ sub_at (store w) spec sub.
Proof. intros Hw Hid. eapply Forall2_lookup_l; [apply Hw|done]. Qed.

Lemma wpt_mustSubscribe log ss w q opts :
  at_log None log ss w → query_wf q → simple_query q →
  0 ≤ value (default SequencePositionInitial (Subscribe_After opts)) < two63 →
  wpt (mustSubscribe q opts) (λ id w', id = length ss ∧
    at_log None log
      (ss ++ [Receiving q (default SequencePositionInitial (Subscribe_After opts)) 0]) w') w.
Proof.
  intros Hw Hq Ht Hp. apply (wpt_after_tick _ _ _ _ _ _ Hw). intros w1 Hw1.
  destruct (subscribe_law log (store w1) q opts) as (j&s'&E&Hh&Hev&Hj&He); [apply Hw1|done..|].
  apply wpt_bind. eapply wpt_call; [exact E|].
  apply wpt_bind, (wpt_require_NoError _ j); [done|].
  assert (at_log None log ss (set_store s' w1)) as [_ Hd Hs _]
    by (eapply at_log_evolves; [done..|by left|apply Hw1]).
  split; [done|]. split; [symmetry; by apply Forall2_length in Hs|].
  split; cbn; [done|done| |by left]. apply Forall2_app; [done|]. constructor; [|constructor].
  split_and!; cbn; [done|unfold channel_size; lia|done..|]. by exists [].
Qed.

Lemma owed_lookup log s q p got events j se k :
  holds None log s → sub_ok q p (got ++ events) j s → length got = k →
  owed log q p !! k = Some se →
  match events with
  | [] => length (owed log q p) ≠ length (got ++ events)
  | se' :: _ => same_event se se'
  end.
Proof.
  intros Hh Hok Hk Hse. destruct (sub_ok_owed q p _ j s log Hh Hok) as (l&rest&Heq&Hl).
  destruct events as [|se' events].
  - rewrite app_nil_r, Hk. apply lookup_lt_Some in Hse. lia.
  - assert ((got ++ se' :: events) !! k = Some se') as Hk' by (by apply list_lookup_middle).
    destruct (Forall2_lookup_r _ _ _ _ _ Hl Hk') as (se0&Hse0&Hsame).
    rewrite Heq, (lookup_app_l_Some _ _ _ _ Hse0) in Hse. by injection Hse as <-.
Qed.

(** A receive of the next event that is owed. *)
Lemma wpt_try_receive log ss w id q p k se got events it :
  at_log None log ss w → ss !! id = Some (Receiving q p k) →
  owed log q p !! k = Some se →
  subs w !! id = Some (mkSubscription it events false false) → length got = k →
  (length events ≤ channel_size)%nat → ts_sub_err it = None →
  sub_ok q p (got ++ events) it (store w) → events ≠ [] →
  wpt (try_receive id) (λ r w', ∃ se', r = Yielded se' ∧ same_event se se' ∧
    at_log None log (<[id := Receiving q p (Datatypes.S k)]> ss) w') w.
Proof.
  intros Hw Hid Hse Hsub Hk Hlen He Hok Hne. destruct events as [|se' events]; [done|].
  unfold wpt, try_receive. rewrite Hsub. cbn. split; [done|]. exists se'. split; [done|].
  split; [exact (owed_lookup _ _ _ _ _ _ _ _ _ (at_holds _ _ _ _ Hw) Hok Hk Hse)|].
  apply at_log_sub_same; [done|]. cbn in Hlen.
  split_and!; cbn; [done|lia|done|done|]. exists (got ++ [se']).
  rewrite length_app. cbn. split; [lia|]. by rewrite <-(assoc_L (++)).
Qed.

Lemma wpt_mustReceive log ss w id q p k se :
  at_log None log ss w → ss !! id = Some (Receiving q p k) → owed log q p !! k = Some se →
  wpt (mustReceive id) (λ got w', same_event se got ∧
    at_log None log (<[id := Receiving q p (Datatypes.S k)]> ss) w') w.
Proof.
  intros Hw Hid Hse. apply (wpt_after_tick _ _ _ _ _ _ Hw). intros w1 Hw1.
  destruct (at_log_lookup _ _ _ _ _ _ Hw1 Hid) as ([it events closed cancelled]&Hsub&He&Hlen&Hcl&Hca&got&Hk&Hok).
  cbn in He, Hlen, Hcl, Hca, Hok. subst closed cancelled.
  destruct events as [|se' events].
  - apply wpt_bind. unfold wpt at 1, try_receive at 1. rewrite Hsub. split; [done|]. cbn beta iota.
    apply wpt_bind. unfold wpt at 1, run_round. rewrite Hsub. unfold round. cbn [sub_closed sub_events].
    rewrite bool_decide_eq_false_2 by (unfold channel_size; cbn; lia). cbn [orb sub_cancelled sub_it].
    destruct (next_law log (store w1) q p (got ++ []) it false)
      as (e&j'&s1&->&Hs1&Hev&He1&Hr); [apply Hw1|apply Hw1|done..|].
    destruct e as [se'| |]; [|done|].
    + split; [done|]. eapply wpt_step.
      { apply (wpt_try_receive log (<[id := Receiving q p k]> ss) _ id q p k se got [se'] j').
        - apply at_log_sub; [done..|]. split_and!; cbn; [done|unfold channel_size; lia|done..|].
          exists got. split; [done|]. by rewrite app_nil_r in Hr.
        - rewrite list_lookup_insert_eq; [done|]. by apply lookup_lt_Some in Hid.
        - done.
        - cbn. rewrite list_lookup_insert_eq; [done|]. by apply lookup_lt_Some in Hsub.
        - done.
        - unfold channel_size. cbn. lia.
        - done.
        - by rewrite app_nil_r in Hr.
        - done. }
      intros r w2 (se2&->&Hsame&Hw2). apply wpt_ret. split; [done|].
      by rewrite list_insert_insert_eq in Hw2.
    + destruct Hr as (_&_&Hr). by destruct (owed_lookup _ _ _ _ _ _ _ _ _ (at_holds _ _ _ _ Hw1) Hok Hk Hse).
  - eapply wpt_step; [by eapply wpt_try_receive|].
    intros r w2 (se2&->&Hsame&Hw2). by apply wpt_ret.
Qed.

Lemma wpt_cancel log ss w id q p k :
  at_log None log ss w → ss !! id = Some (Receiving q p k) →
  wpt (cancel id) (λ _ w', at_log None log (<[id := Ending q p]> ss) w') w.
Proof.
  intros Hw Hid.
  destruct (at_log_lookup _ _ _ _ _ _ Hw Hid) as (sub&Hsub&He&Hlen&Hcl&Hca&got&Hk&Hok).
  unfold wpt, cancel. rewrite Hsub. split; [done|]. apply at_log_sub_same; [done|].
  split_and!; cbn; [done..|]. right. eauto.
Qed.

(** Cancelling again changes nothing. *)
Lemma wpt_cancel_again log ss w id spec :
  at_log None log ss w → ss !! id = Some spec →
  match spec with Receiving _ _ _ => False | _ => True end →
  wpt (cancel id) (λ _ w', at_log None log ss w') w.
Proof.
  intros Hw Hid Hspec.
  destruct (at_log_lookup _ _ _ _ _ _ Hw Hid) as (sub&Hsub&Hat).
  unfold wpt, cancel. rewrite Hsub. split; [done|].
  rewrite <-(list_insert_id ss id spec Hid). apply at_log_sub_same; [done|].
  destruct Hat as (?&?&Hat). split_and!; [done..|].
  destruct spec; naive_solver.
Qed.

(** How much fuel draining a cancelled subscription takes: two steps per event
    that is still to come, one per event in the channel. *)
Definition drainable (log : list SequencedEvent) (s : S) (q : Query) (p : SequencePosition)
    (sub : subscription) (fuel : nat) : Prop :=
  (sub_closed sub = true ∧ (length (sub_events sub) < fuel)%nat) ∨
  (sub_closed sub = false ∧ ∃ got, sub_ok q p (got ++ sub_events sub) (sub_it sub) s ∧
    (length (sub_events sub) + 2 * (length (owed log q p) - length (got ++ sub_events sub)) + 2
       < fuel)%nat).

Lemma sub_ok_length log s q p dl j :
  holds None log s → sub_ok q p dl j s → (length dl ≤ length (owed log q p))%nat.
Proof.
  intros Hh Hok. destruct (sub_ok_owed q p dl j s log Hh Hok) as (l&rest&->&Hl).
  apply Forall2_length in Hl. rewrite length_app. lia.
Qed.

Lemma wpt_drain log ss id q p fuel w sub :
  at_log None log ss w → ss !! id = Some (Ending q p) → subs w !! id = Some sub →
  drainable log (store w) q p sub fuel →
  wpt (drain_closed fuel id) (λ b w', b = true ∧ at_log None log (<[id := Finished]> ss) w') w.
Proof.
  revert w sub. induction fuel as [|fuel IH]; intros w sub Hw Hid Hsub Hfuel;
    [destruct Hfuel as [[]|(?&?&?&?)]; lia|].
  destruct (at_log_lookup _ _ _ _ _ _ Hw Hid) as (sub'&Hsub'&He&Hsz&Hca&_).
  rewrite Hsub in Hsub'. injection Hsub' as <-.
  destruct sub as [it events closed cancelled].
  unfold drainable in Hfuel. cbn [sub_it sub_events sub_closed sub_cancelled] in *. subst cancelled.
  cbn [drain_closed]. apply wpt_bind. unfold wpt at 1, try_receive. rewrite Hsub.
  cbn [sub_it sub_events sub_closed sub_cancelled].
  destruct events as [|se events].
  - split; [done|]. destruct Hfuel as [[-> _]|(->&got&Hok&Hfuel)].
    + apply wpt_ret. split; [done|]. rewrite <-(at_log_set_subs w id _ Hsub).
      by apply at_log_sub_same.
    + apply wpt_bind. unfold wpt at 1, run_round. rewrite Hsub. unfold round.
      cbn [sub_it sub_events sub_closed sub_cancelled orb].
      rewrite bool_decide_eq_false_2 by (unfold channel_size; cbn; lia).
      destruct (next_law log (store w) q p (got ++ []) it true)
        as (e&j'&s1&->&Hs1&Hev&He1&Hr); [apply Hw|apply Hw|done..|].
      destruct e as [se| |]; [| |by destruct Hr]; (split; [done|]).
      all: match goal with |- wpt _ _ (mkWorld _ (<[_ := ?x]> _) _ _) =>
        assert (at_log None log ss (mkWorld s1 (<[id := x]> (subs w)) (paces w) (failed w))) as Hw1;
        [rewrite <-(list_insert_id ss id _ Hid); apply at_log_sub; [done..|];
         split_and!; cbn; [done|unfold channel_size; lia|done|]|
         apply (IH _ x Hw1 Hid); [by eapply list_lookup_insert_eq, lookup_lt_Some|]] end.
      * right. split; [done|]. exists got. by rewrite app_nil_r in Hr.
      * right. split; [done|]. exists got. rewrite app_nil_r in *. split; [done|]. cbn.
        pose proof (sub_ok_length log s1 q p _ j' Hs1 Hr). rewrite length_app in *. cbn in *. lia.
      * by left.
      * left. split; [done|]. cbn. lia.
  - split; [done|].
    match goal with |- wpt _ _ (set_subs (<[_ := ?x]> _) _) =>
      assert (at_log None log ss (set_subs (<[id := x]> (subs w)) w)) as Hw1;
      [rewrite <-(list_insert_id ss id _ Hid); apply at_log_sub_same; [done|]|
       apply (IH _ x Hw1 Hid); [by eapply list_lookup_insert_eq, lookup_lt_Some|]] end;
      cbn in Hsz, Hfuel.
    + split_and!; cbn; [done|lia|done|].
      destruct Hfuel as [[-> _]|(->&got&Hok&_)]; [by left|right]. split; [done|].
      exists (got ++ [se]). by rewrite <-(assoc_L (++)).
    + destruct Hfuel as [[-> ?]|(->&got&Hok&?)]; [left; cbn; split; [done|lia]|right].
      split; [done|]. exists (got ++ [se]). rewrite <-(assoc_L (++)). cbn. split; [done|]. lia.
Qed.

Lemma owed_length log q p : (length (owed log q p) ≤ length log)%nat.
Proof.
  unfold owed. rewrite matchingEvents_selection. cbn [Limit]. unfold limit_to, selection.
  rewrite decide_False by lia. apply length_filter.
Qed.

Lemma wpt_drain_finished log ss w id fuel :
  at_log None log ss w → ss !! id = Some Finished →
  wpt (drain_closed (Datatypes.S fuel) id)
    (λ b w', b = true ∧ at_log None log (<[id := Finished]> ss) w') w.
Proof.
  intros Hw Hid. destruct (at_log_lookup _ _ _ _ _ _ Hw Hid) as (sub&Hsub&_&_&Hcl&_&Hev).
  cbn [drain_closed]. apply wpt_bind. unfold wpt at 1, try_receive.
  rewrite Hsub, Hev, Hcl. split; [done|]. apply wpt_ret. by rewrite list_insert_id.
Qed.

(** The logs of the tests are short: a wait for the end of a channel does not
    run out of patience. *)
Lemma wpt_drain_patience log ss w id spec :
  at_log None log ss w → ss !! id = Some spec → (length log ≤ 32)%nat →
  match spec with Receiving _ _ _ => False | _ => True end →
  wpt (drain_closed patience id)
    (λ b w', b = true ∧ at_log None log (<[id := Finished]> ss) w') w.
Proof.
  intros Hw Hid Hlen Hspec. destruct (at_log_lookup _ _ _ _ _ _ Hw Hid) as (sub&Hsub&Hat).
  destruct spec as [|q p|]; [done| |].
  - eapply wpt_drain; [done..|]. destruct Hat as (_&Hsz&_&Hat).
    unfold channel_size in Hsz. unfold drainable, patience.
    destruct Hat as [?|(?&got&Hok)]; [left; split; [done|lia]|right]. split; [done|].
    exists got. split; [done|]. pose proof (owed_length log q p). rewrite length_app. lia.
  - by apply (wpt_drain_finished _ _ _ _ 99).
Qed.

Lemma wpt_assertClosed log ss w id q p :
  at_log None log ss w → ss !! id = Some (Ending q p) → (length log ≤ 32)%nat →
  wpt (assertClosed id) (λ _ w', at_log None log (<[id := Finished]> ss) w') w.
Proof.
  intros Hw Hid Hlen. apply (wpt_after_tick _ _ _ _ _ _ Hw). intros w1 Hw1.
  eapply wpt_step; [by eapply wpt_drain_patience|]. intros b w2 [-> Hw2]. by apply wpt_require.
Qed.

Lemma wpt_sub_Close log ss w id :
  at_log None log ss w → ss !! id = Some Finished →
  wpt (sub_Close id) (λ _ w', at_log None log ss w') w.
Proof.
  intros Hw Hid. destruct (at_log_lookup _ _ _ _ _ _ Hw Hid) as (sub&Hsub&He&Hsz&Hcl&Hca&Hev).
  destruct (sub_close_law log (store w) (sub_it sub)) as (j'&s1&E&Hs1&Hevo&He1); [apply Hw|done|].
  unfold wpt, sub_Close. rewrite Hsub, E. split; [done|].
  rewrite <-(list_insert_id ss id _ Hid). by apply at_log_sub.
Qed.

Lemma wpt_stop log ss w id spec :
  at_log None log ss w → ss !! id = Some spec → (length log ≤ 32)%nat →
  wpt (stop id) (λ _ w', at_log None log (<[id := Finished]> ss) w') w.
Proof.
  intros Hw Hid Hlen. unfold stop.
  assert (wpt (cancel id) (λ _ w', ∃ ss' spec', at_log None log ss' w' ∧ ss' !! id = Some spec' ∧
    match spec' with Receiving _ _ _ => False | _ => True end ∧
    <[id := Finished]> ss' = <[id := Finished]> ss) w) as Hcancel.
  { destruct spec as [q p k|q p|].
    - eapply wpt_mono; [|by eapply wpt_cancel]. intros [] w1 Hw1. do 2 eexists.
      split; [exact Hw1|]. split; [by eapply list_lookup_insert_eq, lookup_lt_Some|].
      split; [done|apply list_insert_insert_eq].
    - eapply wpt_mono; [|by eapply wpt_cancel_again]. intros [] w1 Hw1. by exists ss, (Ending q p).
    - eapply wpt_mono; [|by eapply wpt_cancel_again]. intros [] w1 Hw1. by exists ss, Finished. }
  eapply wpt_step; [exact Hcancel|]. intros [] w1 (ss'&spec'&Hw1&Hid'&Hspec&<-).
  eapply wpt_step; [by eapply wpt_drain_patience|]. intros b w2 [-> Hw2].
  apply wpt_sub_Close; [done|]. by eapply list_lookup_insert_eq, lookup_lt_Some.
Qed.

Lemma wpt_deferred_stop (body : test ()) id (Q : () → world → Prop) w :
  wpt body (λ _ w', wpt (stop id) Q w') w → wpt (deferred_stop id body) Q w.
Proof.
  unfold wpt, deferred_stop. destruct (body w) as [[[]| |] w1]; [|done..].
  intros [Hf HQ]. destruct (stop id w1) as [[[]| |] w2]; [|done..].
  destruct HQ as [Hf' HQ]. split; [congruence|done].
Qed.

Lemma wpt_sub_Err log ss w id spec :
  at_log None log ss w → ss !! id = Some spec →
  wpt (sub_Err id) (λ e w', e = None ∧ at_log None log ss w') w.
Proof.
  intros Hw Hid. destruct (at_log_lookup _ _ _ _ _ _ Hw Hid) as (sub&Hsub&He&_).
  unfold wpt, sub_Err. rewrite Hsub. done.
Qed.

(** *** Races *)

Lemma wpt_concurrently w calls :
  store w = ts_new → subs w = [] →
  (ts_concurrently calls ts_new = None → may_block) →
  Forall admissible calls → Z.of_nat (length (mjoin (all_events <$> calls))) < two63 →
  wpt (concurrently calls) (λ rs w', ∃ log, at_log None log [] w' ∧ race_outcome calls rs log) w.
Proof.
  intros Hs Hsub Hblock Hadm Hlen. apply wpt_bind. unfold wpt at 1, tick.
  rewrite Hsub. cbn [all_rounds]. split; [done|]. unfold wpt, call. cbn [store]. rewrite Hs.
  destruct (ts_concurrently calls ts_new) as [[rs s']|] eqn:E; [|auto].
  destruct (race_law calls rs s' Hadm Hlen E) as (log&Hh&Hr). split; [done|].
  exists log. split; [|done]. split; cbn; [done| |constructor|by left].
  destruct Hr as (_&h&Hraced&Hperm&_). rewrite Hperm. by eapply raced_decodable.
Qed.
End rules.
