(* ===== verification/ConformanceRaces.v ===== *)
(** * ConformanceRaces

    Facts about the outcome of racing appends ([race_outcome] of
    [ConformanceLaws]): its histories, and what follows when all calls succeed. *)

From S2P Require Import Prelude.
From S2P Require Import GoStrconv.
From S2P Require Import SequencePosition.
From S2P Require Import Tags.
From S2P Require Import EventStore.
From S2P Require Import Matching.
From S2P Require Import StoreSpec.
From S2P Require Import Conformance.
From S2P Require Import ConformanceLaws.

Local Open Scope Z_scope.

(** The calls of a history are distinct, and their events are their own. *)
Lemma raced_spec calls h : raced calls h →
  NoDup h.*1 ∧ ∀ i evs, (i, evs) ∈ h →
    ∃ commands, calls !! i = Some commands ∧ se_Event <$> evs = all_events commands.
Proof.
  induction 1 as [|h i commands evs _ [Hnd IH] Hi Hnew _ Hevs].
  { split; [constructor|]. intros i evs Hin. by apply elem_of_nil in Hin. }
  rewrite fmap_app. split.
  - apply NoDup_app. split_and!; [done| |apply NoDup_singleton].
    by intros j Hj ->%list_elem_of_singleton.
  - intros j evs' [Hj|[= -> ->]%list_elem_of_singleton]%elem_of_app; [auto|eauto].
Qed.

Lemma elem_of_raced_log (h : list (nat * list SequencedEvent)) se :
  se ∈ mjoin h.*2 ↔ ∃ i evs, (i, evs) ∈ h ∧ se ∈ evs.
Proof.
  rewrite list_elem_of_join. setoid_rewrite list_elem_of_fmap. split.
  - intros (evs&?&[i evs']&->&?). eauto.
  - intros (i&evs&?&?). exists evs. split; [done|]. by exists (i, evs).
Qed.

Lemma raced_join (h : list (nat * list SequencedEvent)) :
  Forall (λ x, length x.2 = 1%nat) h →
  ∃ l, mjoin h.*2 = l ∧ Forall2 (λ x se, x.2 = [se]) h l.
Proof.
  induction 1 as [|[i evs] h Hx _ (l&<-&IH)]; [by exists []|].
  destruct evs as [|se [|??]]; try done. exists (se :: mjoin h.*2). split; [done|]. by constructor.
Qed.

(** When every racer appends one event and succeeds, the log is made of their
    events, and they return their positions. *)
Lemma race_all_succeed calls rs log :
  race_outcome calls rs log → Forall (λ commands, length (all_events commands) = 1%nat) calls →
  Forall is_Ok rs →
  ∃ l, rs = Ok <$> positionsOf l ∧ l ≡ₚ log ∧ length l = length calls.
Proof.
  intros (Hlen&h&Hraced&Hlog&Hres) Hone Hok. destruct (raced_spec calls h Hraced) as [Hnd Hh].
  rewrite Forall_forall in Hone.
  assert (h.*1 ≡ₚ seq 0 (length calls)) as Hseq.
  { apply NoDup_Permutation; [done|apply NoDup_seq|]. intros i. rewrite elem_of_seq. split.
    - intros ([j evs]&->&Hin)%list_elem_of_fmap. destruct (Hh j evs Hin) as (?&?%lookup_lt_Some&_). cbn. lia.
    - intros [_ Hi]. destruct (lookup_lt_is_Some_2 calls i) as [commands Hc]; [done|].
      destruct (lookup_lt_is_Some_2 rs i) as [r Hr]; [lia|].
      rewrite Forall_forall in Hok. destruct (Hok r (list_elem_of_lookup_2 _ _ _ Hr)) as [pos ->].
      destruct (Hres i commands _ Hc Hr) as (evs&_&Hin&_).
      apply list_elem_of_fmap. by exists (i, evs). }
  symmetry in Hseq. apply Permutation_map_inv in Hseq as (h'&Hh'&Hperm).
  destruct (raced_join h') as (l&Hjoin&Hl).
  { apply Forall_forall. intros [i evs] Hin. rewrite <-Hperm in Hin.
    destruct (Hh i evs Hin) as (commands&Hc&Hevs). cbn.
    rewrite <-(Hone commands (list_elem_of_lookup_2 _ _ _ Hc)), <-Hevs. by rewrite length_fmap. }
  exists l. split_and!.
  - apply list_eq. intros i. unfold positionsOf. rewrite !list_lookup_fmap.
    destruct (rs !! i) as [r|] eqn:Hr.
    + assert (i < length calls)%nat as Hi by (rewrite <-Hlen; by eapply lookup_lt_Some).
      destruct (lookup_lt_is_Some_2 calls i Hi) as [commands Hc].
      rewrite Forall_forall in Hok. destruct (Hok r (list_elem_of_lookup_2 _ _ _ Hr)) as [pos ->].
      destruct (Hres i commands _ Hc Hr) as (evs&se&Hin&Hlast&<-).
      assert (h' !! i = Some (i, evs)) as Hx.
      { rewrite Hperm in Hin. apply list_elem_of_lookup in Hin as [j Hj].
        assert ((h'.*1) !! j = Some i) as Hji by (by rewrite list_lookup_fmap, Hj).
        change (h'.*1) with (map fst h') in Hji. rewrite <-Hh' in Hji.
        apply lookup_seq in Hji as [-> _]. done. }
      destruct (Forall2_lookup_l _ _ _ _ _ Hl Hx) as (se'&Hse'&Hevs). cbn in Hevs. subst evs.
      injection Hlast as ->. by rewrite Hse'.
    + apply lookup_ge_None in Hr. rewrite (proj2 (lookup_ge_None l i)); [done|].
      rewrite <-(Forall2_length _ _ _ Hl), <-(length_map fst h'), <-Hh', length_seq. lia.
  - rewrite Hlog, <-Hjoin. by rewrite Hperm.
  - rewrite <-(Forall2_length _ _ _ Hl), <-(length_map fst h'), <-Hh'. apply length_seq.
Qed.

Lemma positionsOf_NoDup log : ascending log → NoDup (positionsOf log).
Proof.
  induction 1 as [|se log Hlog IH Hlt]; [constructor|]. unfold positionsOf. cbn.
  constructor; [|exact IH]. rewrite list_elem_of_fmap. intros (se'&Heq&Hin).
  rewrite Forall_forall in Hlt. specialize (Hlt se' Hin). unfold pos_lt in Hlt.
  rewrite Heq in Hlt. lia.
Qed.

Lemma allDistinct_positions (l log : list SequencedEvent) :
  ascending log → (∀ se, se ∈ log → 1 ≤ value (Position se) < two63) → l ≡ₚ log →
  allDistinct (positionsOf l) = true.
Proof.
  intros Hasc Hpos Hl. apply bool_decide_eq_true_2.
  assert (NoDup (Position_String <$> positionsOf l)) as Hnd.
  { apply NoDup_fmap_2_strong.
    - intros p q Hp Hq.
      apply list_elem_of_fmap in Hp as (a&->&Ha), Hq as (b&->&Hb). rewrite Hl in Ha, Hb.
      specialize (Hpos a Ha) as Hpa. specialize (Hpos b Hb) as Hpb.
      unfold Position_String. intros E%FormatUint_inj; [|unfold in_u64, two63, two64 in *; lia..].
      by destruct (Position a), (Position b); f_equal.
    - unfold positionsOf. rewrite Hl. by apply positionsOf_NoDup. }
  by rewrite size_list_to_set, length_fmap.
Qed.

#[export] Instance is_Ok_dec {E A} (r : outcome E A) : Decision (is_Ok r).
Proof. destruct r; [left; by eexists|right; by intros [? ?]..]. Defined.

(** Exactly one racer's result is a success. *)
Lemma one_success {E A} (rs : list (outcome E A)) i :
  (i < length rs)%nat → (∀ j r, rs !! j = Some r → is_Ok r ↔ j = i) →
  length (filter is_Ok rs) = 1%nat.
Proof.
  revert i. induction rs as [|r rs IH]; intros i Hi Hr; cbn in Hi; [lia|].
  rewrite filter_cons. destruct i as [|i].
  - rewrite decide_True by (by apply (Hr 0%nat)).
    cbn. f_equal. apply length_zero_iff_nil.
    destruct (filter is_Ok rs) as [|r' l] eqn:E'; [done|].
    assert (r' ∈ filter is_Ok rs) as [Hok [j Hj]%list_elem_of_lookup]%list_elem_of_filter
      by (rewrite E'; by left).
    by apply (Hr (S j) r' Hj) in Hok.
  - rewrite decide_False by (intros Hok; by apply (Hr 0%nat r eq_refl) in Hok).
    apply (IH i); [lia|]. intros j r' Hj. rewrite (Hr (S j) r' Hj). lia.
Qed.


(** A history has room in the events of all calls. *)
Lemma history_length calls (h : list (nat * list SequencedEvent)) :
  NoDup h.*1 →
  (∀ i evs, (i, evs) ∈ h →
    ∃ commands, calls !! i = Some commands ∧ length evs = length (all_events commands)) →
  (length (mjoin h.*2) ≤ length (mjoin (all_events <$> calls)))%nat.
Proof.
  intros Hnd Hh. set (g i := all_events (default [] (calls !! i))).
  assert (length (mjoin h.*2) = length (mjoin (g <$> h.*1))) as ->.
  { clear Hnd. induction h as [|[i evs] h IH]; [done|].
    change (length (evs ++ mjoin h.*2) = length (g i ++ mjoin (g <$> h.*1))).
    rewrite !length_app, IH.
    - destruct (Hh i evs) as (commands&Hc&->); [by left|]. unfold g. by rewrite Hc.
    - intros j evs' Hj. apply Hh. by right. }
  assert (mjoin (all_events <$> calls) = mjoin (g <$> seq 0 (length calls))) as ->.
  { f_equal. apply list_eq. intros i. rewrite !list_lookup_fmap.
    destruct (decide (i < length calls)%nat) as [Hi|Hi].
    - rewrite lookup_seq_lt by done. destruct (lookup_lt_is_Some_2 calls i Hi) as [c Hc].
      unfold g. cbn. by rewrite Hc.
    - by rewrite lookup_seq_ge, lookup_ge_None_2 by lia. }
  assert (h.*1 ⊆+ seq 0 (length calls)) as [k Hk]%submseteq_Permutation.
  { apply NoDup_submseteq; [done|]. intros i ([j evs]&->&Hin)%list_elem_of_fmap.
    destruct (Hh j evs Hin) as (c&Hc%lookup_lt_Some&_). apply elem_of_seq. cbn. lia. }
  rewrite Hk, fmap_app, join_app, length_app. lia.
Qed.
