(* ===== verification/ConformanceProofs.v ===== *)
(** * ConformanceProofs

    A store that keeps the promises of [TestStoreLaws] passes the conformance
    suite, however its goroutines are paced: one lemma per subtest. *)

From S2P Require Import Prelude.
From S2P Require Import GoStrconv.
From S2P Require Import GoStrings.
From S2P Require Import SequencePosition.
From S2P Require Import Tags.
From S2P Require Import EventStore.
From S2P Require Import Iterator.
From S2P Require Import Matching.
From S2P Require Import StoreSpec.
From S2P Require Import Serialize.
From S2P Require Import PgConditions.
From S2P Require Import Cursor.
From S2P Require Import PgRead.
From S2P Require Import PgAppend.
From S2P Require Import ConformanceData.
From S2P Require Import Conformance.
From S2P Require Import ConformanceLaws.
From S2P Require Import ConformanceRaces.

Local Open Scope Z_scope.

(** ** Facts about the suite's data *)

#[export] Instance good_tags_dec tags : Decision (good_tags tags).
Proof. unfold good_tags. apply _. Defined.

(** Decide a closed proposition by computation. *)
Ltac by_decide := apply (bool_decide_unpack _); vm_compute; exact I.

Lemma query_of_matches types tags eventType tags' :
  event_matches (query_of types tags) (event_of eventType tags') ↔ eventType ∈ types ∧ tags ⊆ tags'.
Proof.
  unfold event_matches, item_matches, query_of. cbn. setoid_rewrite list_elem_of_singleton. split.
  - intros [?|(item&->&?&Hs)]; [done|]. split; [done|]. intros v Hv.
    cbn in Hs. set_solver.
  - intros [? Hs]. right. eexists. split; [done|]. split; [done|]. cbn. set_solver.
Qed.

Lemma ordinary_condition ev c :
  tags_clean (Event_Tags ev) → decodable ev →
  Forall (λ item, tags_clean (Item_Tags item)) (Items (FailIfEventsMatch c)) →
  (∀ p, After c = Some p → 0 ≤ value p < two63) →
  ordinary [mkCommand [ev] (Some c)].
Proof.
  rewrite Forall_forall. intros Hc Hd Ht Ha.
  split; [split|]; cbn; rewrite ?(right_id_L [] (++)), ?Forall_singleton.
  - intros c' item [= <-]. apply Ht.
  - done.
  - intros c' p [= <-]. apply Ha.
  - done.
  - done.
Qed.

Lemma ordinary_conditional ev types tags after :
  tags_clean (Event_Tags ev) → decodable ev → good_tags tags →
  (∀ p, after = Some p → 0 ≤ value p < two63) →
  ordinary [mkCommand [ev] (Some (mkCondition (query_of types tags) after))].
Proof.
  intros Hc Hd Ht Ha. apply ordinary_condition; [done..| |done].
  apply Forall_singleton. by apply good_tags_clean.
Qed.

Lemma scoped_valid types tags after : types ≠ [] → tags ≠ [] →
  condition_valid (mkCondition (query_of types tags) after).
Proof.
  intros Ht Hg. split; [done|]. apply Forall_singleton. split; [done|]. unfold Len. cbn.
  destruct tags as [|tag tags]; [done|]. intros E%size_empty_inv. cbn in E. set_solver.
Qed.

Lemma violated_singleton se types tags after :
  violated [se] (mkCondition (query_of types tags) after) ↔
    in_range false after (Position se) ∧ event_matches (query_of types tags) (se_Event se).
Proof.
  unfold violated. setoid_rewrite list_elem_of_singleton. cbn. naive_solver.
Qed.

Lemma violated_nil c : ¬ violated [] c.
Proof. intros (se&[]%elem_of_nil&_). Qed.


Lemma matching_all log : matchingEvents log QueryAll all_events_ = log.
Proof.
  rewrite matchingEvents_selection. cbn. unfold limit_to, selection. cbn.
  apply filter_all. intros se _. split; [done|by left].
Qed.

Lemma limit_to_none {A} (l : list A) : limit_to 0 l = l.
Proof. done. Qed.

Lemma limit_to_one {A} (x : A) l : limit_to 1 (x :: l) = [x].
Proof. done. Qed.

(** The elements that are marked. *)
Fixpoint mask {A} (bs : list bool) (l : list A) : list A :=
  match bs, l with
  | b :: bs, x :: l => if b then x :: mask bs l else mask bs l
  | _, _ => []
  end.

Lemma matching_mask bs log q opts :
  Forall2 (λ (b : bool) se, selected q opts se ↔ b) bs log →
  matchingEvents log q opts =
    limit_to (Limit opts) (if Backwards opts then reverse (mask bs log) else mask bs log).
Proof.
  intros Hbs. rewrite matchingEvents_selection. unfold selection.
  assert (filter (selected q opts) log = mask bs log) as ->; [|done].
  induction Hbs as [|[] se bs log Hse _ IH]; [done|rewrite filter_cons_True by naive_solver|
    rewrite filter_cons_False by naive_solver]; cbn; by rewrite IH.
Qed.

Lemma same_positions l got : Forall2 same_event l got → positionsOf got = positionsOf l.
Proof. induction 1 as [|??? ? [??]]; [done|]. unfold positionsOf in *. by f_equal/=. Qed.

Lemma same_length l got : Forall2 same_event l got → length got = length l.
Proof. intros Hl. symmetry. by eapply Forall2_length. Qed.

Section suite.
Context {S I J : Type} `{TestStoreLaws S I J} (may_block : Prop).

Notation wpt := (wpt may_block).

Lemma at_log_after o log ss w se : at_log o log ss w → se ∈ log → 1 ≤ value (Position se) < two63.
Proof. intros Hw. by eapply holds_positions, Hw. Qed.

Lemma at_log_ascending o log ss w : at_log o log ss w → ascending log.
Proof. intros Hw. by eapply holds_ascending, Hw. Qed.

(** The tactics of the subtests: the next statement of a test. *)
Ltac t_new := eapply wpt_step; [apply wpt_newStore|]; intros [] ?w Hw.
Ltac t_event := apply wpt_bind, wpt_mustEvent; [by_decide|].
Ltac t_query := apply wpt_bind, wpt_mustQuery; [by_decide|done|].
Ltac t_condition := apply wpt_bind, wpt_scopedCondition; [by_decide|done|].
Ltac t_ok := apply wpt_bind; eapply wpt_require_NoError; [reflexivity|].
Ltac t_assert := first [apply wpt_bind, wpt_assert|apply wpt_assert];
  [rewrite ?bool_decide_eq_true|].
Ltac t_require := apply wpt_bind, wpt_require; [rewrite ?bool_decide_eq_true|].

(** Events without conditions. *)
Lemma wpt_Append_plain o log ss w evs :
  at_log o log ss w → Forall (λ ev, tags_clean (Event_Tags ev) ∧ decodable ev) evs → evs ≠ [] →
  Z.of_nat (length log + length evs) < two63 →
  wpt (Append [mkCommand evs None]) (λ r w', ∃ new se, r = Ok (Position se) ∧
    at_log o (log ++ new) ss w' ∧ se_Event <$> new = evs ∧ last new = Some se) w.
Proof.
  intros Hw Hevs Hne Hlen.
  assert (all_events [mkCommand evs None] = evs) as Hall by apply (right_id_L [] (++)).
  eapply wpt_mono; [|apply (wpt_Append_ok _ o log ss); [done|by apply ordinary_plain|by rewrite Hall|..]].
  - intros r w1. by rewrite Hall.
  - by apply Forall_singleton.
  - by apply Forall_singleton.
  - by rewrite Hall.
Qed.

Lemma plain_event eventType tags : good_tags tags →
  tags_clean (Event_Tags (event_of eventType tags)) ∧ decodable (event_of eventType tags).
Proof. intros Ht. split; [by apply good_tags_clean|by apply event_of_decodable]. Qed.

Lemma wpt_Append_event o log ss w eventType tags :
  at_log o log ss w → good_tags tags → Z.of_nat (length log + 1) < two63 →
  wpt (Append [mkCommand [event_of eventType tags] None]) (λ r w', ∃ se, r = Ok (Position se) ∧
    se_Event se = event_of eventType tags ∧ at_log o (log ++ [se]) ss w') w.
Proof.
  intros Hw Ht Hlen.
  eapply wpt_mono; [|apply (wpt_Append_plain o log ss); [done| |done..]].
  2: { apply Forall_singleton. by apply plain_event. }
  intros r w1 (new&se&->&Hw1&Hnew&Hlast).
  destruct new as [|se' [|??]]; [done| |done]. injection Hlast as ->. injection Hnew as Hse. eauto.
Qed.

(** Go on from the current state with rule [t], whose result [pat] describes. *)
Ltac t_from t := cbv beta; match goal with
  | H : at_log _ _ _ ?w |- ConformanceLaws.wpt _ _ _ ?w =>
      eapply wpt_step; [t H|clear H; intros ?got ?w]
  end.
Ltac t_append se := t_from ltac:(fun H => eapply (wpt_Append_event _ _ _ _ _ _ H); [by_decide|done]);
  intros (se&->&?Hse&Hw).
Ltac t_append_event se :=
  t_from ltac:(fun H => eapply (wpt_mustAppendEvent _ _ _ _ _ _ _ H); [by_decide|done]);
  intros (se&->&?Hse&Hw).

(** ** append.go *)

(** A read of everything. *)
Lemma wpt_read_all log w :
  at_log None log [] w →
  wpt (mustRead QueryAll all_events_) (λ got w', at_log None log [] w' ∧
    length got = length log ∧ positionsOf got = positionsOf log) w.
Proof.
  intros Hw. eapply wpt_mono; [|apply (wpt_mustRead _ log); [done|by left|split; [constructor|by_decide]|done]].
  intros got w1 [Hw1 Hgot]. rewrite matching_all in Hgot.
  split_and!; [done|by apply same_length|by apply same_positions].
Qed.

Ltac t_read_all := t_from ltac:(fun H => apply (wpt_read_all _ _ H)); intros (Hw&?Hlen&?Hpos).

Lemma append_single_passes w : wpt append_single (λ _ _, True) w.
Proof.
  t_new. t_event. t_append se. t_ok. t_assert; [|done].
  apply IsAfter_true. destruct (at_log_after _ _ _ _ se Hw); [by left|]. cbn. lia.
Qed.

Lemma append_sequential_passes w : wpt append_sequential (λ _ _, True) w.
Proof.
  t_new. t_event. t_append se1. t_ok. t_event. t_append se2. t_ok. t_assert; [|done].
  apply IsAfter_true. apply at_log_ascending in Hw. cbn in Hw.
  apply StronglySorted_inv in Hw as [_ Hlt].
  rewrite Forall_singleton in Hlt. exact Hlt.
Qed.

Lemma append_multi_event_passes w : wpt append_multi_event (λ _ _, True) w.
Proof.
  t_new. do 3 t_event. eapply wpt_step.
  { apply (wpt_Append_plain None [] []); [done| |done..]. repeat apply Forall_cons_2.
    1-3: by apply plain_event; by_decide. constructor. }
  intros r w1 (new&se&->&Hw1&Hnew&Hlast). clear Hw. t_ok. t_read_all.
  assert (length new = 3%nat) as Hn by (by rewrite <-(length_fmap se_Event), Hnew).
  destruct new as [|x [|y [|z [|??]]]]; try done. injection Hlast as ->.
  destruct got as [|x' [|y' [|z' [|??]]]]; try done. injection Hpos as _ _ Hz.
  t_require; [done|]. apply wpt_bind. eapply wpt_index; [done|]. t_assert; [by rewrite Hz|done].
Qed.

Lemma append_rejects_passes commands w :
  ordinary commands → Z.of_nat (length (all_events commands)) < two63 →
  ¬ conditions_valid commands ∨ (conditions_hold [] commands ∧ all_events commands = []) →
  wpt (append_rejects commands) (λ _ _, True) w.
Proof.
  intros Ho Hlen Hbad. t_new. eapply wpt_step; [by eapply (wpt_Append_rejected _ None [])|].
  intros r w1 (e&->&He&Hw1). apply wpt_bind, wpt_ret.
  t_assert; [by rewrite He|done].
Qed.

Lemma append_invalid_passes w : wpt append_invalid (λ _ _, True) w.
Proof.
  unfold append_invalid. t_event. repeat apply wpt_bind.
  apply wpt_subtest; [intros w1; apply append_rejects_passes|intros w2].
  - split; [split|]; (constructor || done).
  - done.
  - right. split; [constructor|done].
  - apply wpt_bind, wpt_subtest; [intros w1; apply append_rejects_passes|intros w3].
    + split; [split|]; cbn; try done; by apply Forall_singleton.
    + done.
    + right. split; [by apply Forall_singleton|done].
    + apply wpt_subtest; [intros w1; apply append_rejects_passes|done].
      * apply ordinary_condition; [apply good_tags_clean; by_decide|
          apply event_of_decodable; by_decide|constructor|done].
      * done.
      * left. unfold conditions_valid. rewrite Forall_singleton. intros Hv.
        by destruct (Hv _ eq_refl).
Qed.

(** An append of one plain event under a condition. *)
Lemma wpt_Append_if o log ss w eventType etags types tags after :
  let condition := mkCondition (query_of types tags) after in
  at_log o log ss w → good_tags etags → good_tags tags → types ≠ [] → tags ≠ [] →
  (∀ p, after = Some p → 0 ≤ value p < two63) → Z.of_nat (length log + 1) < two63 →
  wpt (Append [mkCommand [event_of eventType etags] (Some condition)]) (λ r w',
    (¬ violated log condition ∧ ∃ se, r = Ok (Position se) ∧
      se_Event se = event_of eventType etags ∧ at_log o (log ++ [se]) ss w') ∨
    (violated log condition ∧ at_log o log ss w' ∧
      r = Err (EAppendCondition (mkConditionError condition None)))) w.
Proof.
  intros condition Hw He Ht Hty Htg Ha Hlen.
  destruct (plain_event eventType etags He) as [Hec Hed].
  assert (ordinary [mkCommand [event_of eventType etags] (Some condition)]) as Ho
    by (by apply ordinary_conditional).
  assert (conditions_valid [mkCommand [event_of eventType etags] (Some condition)]) as Hv
    by (by apply conditions_valid_singleton, scoped_valid).
  destruct (decide (violated log condition)) as [Hviol|Hviol].
  - eapply wpt_mono; [|apply (wpt_Append_violated _ o log ss); [done..| |done]].
    + intros r w1 (i&cmd&c&->&Hw1&Hi&Hc&_). right.
      destruct i as [|i]; [|by rewrite lookup_cons, lookup_nil in Hi]. injection Hi as <-.
      by injection Hc as <-.
    + rewrite conditions_hold_singleton. tauto.
  - eapply wpt_mono; [|apply (wpt_Append_ok _ o log ss); [done..| |done]].
    + intros r w1 (new&se&->&Hw1&Hnew&Hlast). left. split; [done|].
      destruct new as [|se' [|??]]; [done| |done]. injection Hlast as ->. injection Hnew as Hse. eauto.
    + by apply conditions_hold_singleton.
Qed.

Ltac t_append_if se := t_from ltac:(fun H =>
    eapply (wpt_Append_if _ _ _ _ _ _ _ _ _ H); [by_decide|by_decide|done|done| |done]);
  [|intros [[?Hviol (se&->&?Hse&Hw)]|(?Hviol&Hw&->)]].

Lemma condition_nothing_matches_passes w : wpt condition_nothing_matches (λ _ _, True) w.
Proof.
  t_new. t_event. t_condition. t_append_if se; [done|done|].
  by destruct (violated_nil _ Hviol).
Qed.

(** The condition of the suite is violated by its own event. *)
Lemma own_event_violates se types tags eventType etags after :
  se_Event se = event_of eventType etags → eventType ∈ types → tags ⊆ etags →
  violated [se] (mkCondition (query_of types tags) after) ↔ in_range false after (Position se).
Proof.
  intros Hse Hty Htg. rewrite violated_singleton, Hse, query_of_matches. tauto.
Qed.

Lemma condition_fails_passes w : wpt condition_fails (λ _ _, True) w.
Proof.
  t_new. t_event. t_append se. t_ok. t_condition. t_append_if se2; [done| |].
  - destruct Hviol. by eapply own_event_violates; [done|set_solver..].
  - apply wpt_bind, wpt_ret. t_assert; [done|]. by t_assert.
Qed.

Lemma condition_at_or_before_passes w : wpt condition_at_or_before (λ _ _, True) w.
Proof.
  t_new. t_event. t_append se. t_ok. t_event. t_condition.
  pose proof (at_log_after _ _ _ _ se Hw (list_elem_of_here _ _)) as Hp.
  t_append_if se2; [intros p [= <-]; lia|done|].
  exfalso. eapply own_event_violates in Hviol; [cbn in Hviol; lia|done|set_solver..].
Qed.

Lemma append_atomic_passes w : wpt append_atomic (λ _ _, True) w.
Proof.
  t_new. t_event. t_append se. t_ok. t_condition. do 2 t_event.
  set (condition := mkCondition _ _).
  assert (violated [se] condition) as Hviol by (by eapply own_event_violates; [done|set_solver..]).
  t_from ltac:(fun H => eapply (wpt_Append_violated _ _ _ _ _ _ H)).
  - split; [split|]; cbn.
    + apply Forall_cons_2; [done|]. apply Forall_singleton.
      intros c item [= <-] ->%list_elem_of_singleton. apply good_tags_clean. by_decide.
    + repeat apply Forall_cons_2; [apply good_tags_clean; by_decide..|constructor].
    + apply Forall_cons_2; [done|]. apply Forall_singleton. by intros c p [= <-].
    + done.
    + repeat apply Forall_cons_2; [apply event_of_decodable; by_decide..|constructor].
  - done.
  - apply Forall_cons_2; [done|]. apply conditions_valid_singleton, scoped_valid; done.
  - intros [_ Hc]%Forall_cons. by apply conditions_hold_singleton in Hc.
  - done.
  - intros (i&cmd&c&->&Hw&Hi&Hc&_).
    destruct i as [|[|i]]; cbn in Hi; [by injection Hi as <-| |done].
    injection Hi as <-. injection Hc as <-.
    do 2 apply wpt_bind, wpt_ret. t_assert; [done|]. t_assert; [done|].
    t_read_all. by t_assert.
Qed.

Theorem testAppend_passes w : wpt (testAppend _) (λ _ _, True) w.
Proof.
  unfold testAppend. repeat (apply wpt_bind, wpt_subtest; [|intros ?w']).
  8: apply wpt_subtest; [|done].
  - apply append_single_passes.
  - apply append_sequential_passes.
  - apply append_multi_event_passes.
  - apply append_invalid_passes.
  - apply condition_nothing_matches_passes.
  - apply condition_fails_passes.
  - apply condition_at_or_before_passes.
  - apply append_atomic_passes.
Qed.

(** ** read.go *)

(** Three events at ascending positions, as [seedABB] leaves them. *)
Record abb (a b c : SequencedEvent) : Prop := {
  abb_a : se_Event a = event_of "A" ["tag-1"];
  abb_b : se_Event b = event_of "B" ["tag-2"];
  abb_c : se_Event c = event_of "B" ["tag-3"];
  abb_first : 1 ≤ value (Position a);
  abb_ab : value (Position a) < value (Position b);
  abb_bc : value (Position b) < value (Position c);
  abb_last : value (Position c) < two63;
}.

Lemma wpt_seedABB w : at_log None [] [] w →
  wpt seedABB (λ ps w', ∃ a b c, ps = Position <$> [a; b; c] ∧ abb a b c ∧
    at_log None [a; b; c] [] w') w.
Proof.
  intros Hw. unfold seedABB, seed. t_append_event a. t_append_event b. t_append_event c.
  apply wpt_ret. exists a, b, c. split_and!; [done| |done].
  pose proof (at_log_ascending _ _ _ _ Hw) as Hasc.
  apply StronglySorted_inv in Hasc as [Hasc [Hab _]%Forall_cons].
  apply StronglySorted_inv in Hasc as [_ [Hbc _]%Forall_cons].
  destruct (at_log_after _ _ _ _ a Hw); [by left|].
  destruct (at_log_after _ _ _ _ c Hw); [do 2 right; by left|]. split; assumption.
Qed.

Ltac t_seed a b c := t_from ltac:(fun H => apply (wpt_seedABB _ H));
  intros (a&b&c&->&Habb&Hw).

(** A read of the events that are marked. *)
Lemma wpt_read_mask bs log w q opts :
  at_log None log [] w → query_wf q → simple_query q → after_fits_opts opts →
  Forall2 (λ (b : bool) se, selected q opts se ↔ b) bs log →
  wpt (mustRead q opts) (λ got w', at_log None log [] w' ∧ Forall2 same_event
    (limit_to (Limit opts) (if Backwards opts then reverse (mask bs log) else mask bs log)) got) w.
Proof. intros ???? <-%matching_mask. by apply wpt_mustRead. Qed.

(** Whether a read selects a concrete event at a symbolic position. *)
Ltac t_selected := unfold selected, in_range; cbn [Backwards Read_After value SequencePositionInitial];
  repeat match goal with H : se_Event ?x = _ |- context [se_Event ?x] => rewrite H end;
  first [ split; [done|intros _; split; [first [done|lia]|by_decide]]
        | split; [intros [? ?]; first [lia|exfalso; revert select (event_matches _ _); by_decide]
                 |done] ].

(** A read whose events are marked by [bs], with the list [evs] that it yields. *)
Ltac t_read bs := t_from ltac:(fun H => eapply (wpt_read_mask bs _ _ _ _ H);
    [first [by left|right; split; [done|split; [done|by repeat constructor]]]
    |split; [repeat constructor|by_decide]
    |try done
    |repeat apply Forall2_cons_2; try apply Forall2_nil_2]);
  [..|intros [Hw Hgot%same_positions]; cbn in Hgot; rewrite ?limit_to_none, ?limit_to_one in Hgot].

Lemma comparePosition_lt x y : value (Position x) < value (Position y) → comparePosition y x = 1.
Proof.
  intros Hlt. unfold comparePosition, CompareSequencePosition.
  by rewrite decide_False, decide_True by lia.
Qed.

Lemma read_ascending_passes w : wpt read_ascending (λ _ _, True) w.
Proof.
  t_new. t_seed a b c. t_read_all. destruct got as [|x [|y [|z [|??]]]]; try done.
  injection Hpos as Hx Hy Hz. t_require; [done|]. t_assert; [|done]. destruct Habb.
  cbn [IsSortedFunc]. by rewrite !comparePosition_lt by congruence.
Qed.

Lemma positionsOf_length got ps : positionsOf got = ps → length got = length ps.
Proof. intros <-. symmetry. apply length_fmap. Qed.

Lemma positionsOf_nil got : positionsOf got = [] → got = [].
Proof. apply fmap_nil_inv. Qed.

Lemma read_backwards_passes w : wpt read_backwards (λ _ _, True) w.
Proof.
  t_new. t_seed a b c. destruct Habb. t_read [true; true; true]; [t_selected..|].
  destruct got as [|x [|y [|z [|??]]]]; try done.
  injection Hgot as Hx Hy Hz. t_require; [done|]. t_assert; [|done].
  cbn [IsSortedFunc]. by rewrite !comparePosition_lt by congruence.
Qed.

(** The one event that a test expects. *)
Lemma wpt_expect_one positions i got p (Q : () → @world S J → Prop) (w : @world S J) :
  positionsOf got = [p] → positions !! i = Some p → Q () w →
  wpt (expect_one positions i got) Q w.
Proof.
  intros Hgot Hi HQ. destruct got as [|se [|??]]; try done. injection Hgot as <-.
  t_require; [done|]. apply wpt_bind. eapply wpt_index; [exact Hi|].
  apply wpt_bind. eapply wpt_index; [done|]. by t_assert.
Qed.

(** Most tests of [testRead]: seed, choose a bound, build a query, read. *)
Ltac t_index := apply wpt_bind; eapply wpt_index; [reflexivity|].
Ltac t_items := apply wpt_bind; eapply wpt_require_NoError; [reflexivity|].
Ltac t_after := intros ? [= <-]; lia.
Ltac t_one := eapply wpt_expect_one; [eassumption|reflexivity|exact Logic.I].

Lemma read_after_passes w : wpt read_after (λ _ _, True) w.
Proof.
  t_new. t_seed a b c. destruct Habb. t_index.
  t_read [false; false; true]; [t_after|t_selected..|]. t_one.
Qed.

Lemma read_after_backwards_passes w : wpt read_after_backwards (λ _ _, True) w.
Proof.
  t_new. t_seed a b c. destruct Habb. t_index.
  t_read [true; false; false]; [t_after|t_selected..|]. t_one.
Qed.

Lemma read_before_first_passes w : wpt read_before_first (λ _ _, True) w.
Proof.
  t_new. t_seed a b c. destruct Habb. t_index.
  t_read [false; false; false]; [t_after|t_selected..|]. t_assert; [by apply positionsOf_nil|done].
Qed.

Lemma read_by_type_passes w : wpt read_by_type (λ _ _, True) w.
Proof.
  t_new. t_seed a b c. destruct Habb. t_items.
  t_read [false; true; true]; [t_selected..|].
  t_require; [by apply positionsOf_length in Hgot|]. by t_assert.
Qed.

Lemma read_or_passes w : wpt read_or (λ _ _, True) w.
Proof.
  t_new. t_seed a b c. destruct Habb. t_items.
  t_read [true; true; true]; [t_selected..|]. by t_assert.
Qed.

Lemma read_by_tag_passes w : wpt read_by_tag (λ _ _, True) w.
Proof.
  t_new. t_seed a b c. destruct Habb. t_query.
  t_read [false; true; false]; [t_selected..|]. t_one.
Qed.

Lemma read_unmatched_tag_passes w : wpt read_unmatched_tag (λ _ _, True) w.
Proof.
  t_new. t_seed a b c. destruct Habb. t_query.
  t_read [false; false; false]; [t_selected..|]. t_assert; [by apply positionsOf_nil|done].
Qed.

Lemma read_superset_passes w : wpt read_superset (λ _ _, True) w.
Proof.
  t_new. t_append_event se. t_query. t_read [true]; [t_selected|]. t_one.
Qed.

Lemma read_and_passes w : wpt read_and (λ _ _, True) w.
Proof.
  t_new. t_append_event a. t_append_event b. t_query.
  t_read [false; false]; [t_selected..|]. t_assert; [by apply positionsOf_nil|done].
Qed.

Lemma read_limit_passes w : wpt read_limit (λ _ _, True) w.
Proof.
  t_new. t_seed a b c. destruct Habb. t_read [true; true; true]; [t_selected..|]. t_one.
Qed.

Lemma read_limit_backwards_passes w : wpt read_limit_backwards (λ _ _, True) w.
Proof.
  t_new. t_seed a b c. destruct Habb. t_read [true; true; true]; [t_selected..|]. t_one.
Qed.

Lemma read_after_limit_passes w : wpt read_after_limit (λ _ _, True) w.
Proof.
  t_new. t_seed a b c. destruct Habb. t_index.
  t_read [false; true; true]; [t_after|t_selected..|]. t_one.
Qed.

Lemma read_after_type_limit_passes w : wpt read_after_type_limit (λ _ _, True) w.
Proof.
  t_new. t_seed a b c. destruct Habb. t_items. t_index.
  t_read [false; true; true]; [t_after|t_selected..|]. t_one.
Qed.

Lemma numbered_plain i : Z.of_nat i < two63 →
  tags_clean (Event_Tags (numbered_event i)) ∧ decodable (numbered_event i).
Proof.
  intros Hi. assert (∀ v, v ∉ tag_values EmptyTags) as He by (intros v; apply not_elem_of_empty).
  split; [by intros v ?%He|]. split_and!; [by intros v ?%He| |by vm_compute].
  apply FormatInt_json. lia.
Qed.

Lemma wpt_require_numbered (Q : () → @world S J → Prop) (w : @world S J) i n log got :
  se_Event <$> log = numbered_event <$> seq i n → Forall2 same_event log got → Q () w →
  wpt (require_numbered i got) Q w.
Proof.
  intros Hlog Hgot HQ. revert i n Hlog.
  induction Hgot as [|se se' log got (_&_&Hdata) _ IH]; intros i [|n] Hlog; try done.
  injection Hlog as Hse Hlog. cbn [require_numbered]. t_require; [|by eapply IH].
  by rewrite (Hdata (FormatInt (Z.of_nat i))) by (by rewrite Hse).
Qed.

Lemma read_large_passes n w : (1 ≤ n)%nat → Z.of_nat n < two63 → wpt (read_large n) (λ _ _, True) w.
Proof.
  intros Hn Hlt. t_new.
  t_from ltac:(fun H => apply (wpt_Append_plain None [] [] _ _ H)).
  - apply Forall_fmap, Forall_forall. intros i Hi%elem_of_seq. apply numbered_plain. lia.
  - by destruct n; [lia|].
  - cbn. rewrite length_fmap, length_seq. lia.
  - intros (new&se&->&Hw&Hnew&_). t_ok.
    t_from ltac:(fun H => apply (wpt_mustRead _ _ _ _ _ H); [by left|split; [constructor|by_decide]|done]).
    intros [Hw Hgot]. rewrite matching_all in Hgot. t_require.
    + rewrite (same_length _ _ Hgot). cbn. rewrite <-(length_fmap se_Event), Hnew.
      by rewrite length_fmap, length_seq.
    + by eapply wpt_require_numbered.
Qed.

Lemma read_empty_passes directions w : wpt (read_empty directions) (λ _ _, True) w.
Proof.
  revert w. induction directions as [|backwards directions IH]; intros w; [done|].
  cbn [read_empty]. t_new. t_read (@nil bool). t_assert; [|apply IH].
  destruct backwards; cbn in Hgot; by apply positionsOf_nil.
Qed.

Lemma read_snapshot_passes w : wpt read_snapshot (λ _ _, True) w.
Proof.
  t_new. t_append_event a.
  t_from ltac:(fun H => apply (wpt_Read _ _ _ _ _ H); [by left|split; [constructor|by_decide]|done]).
  intros (it&evs&it'&->&Hw&HC&Hgot&Hcl). rewrite matching_all in Hgot. t_ok.
  t_append_event b.
  t_from ltac:(fun H => apply (wpt_Collect _ _ _ _ _ _ H HC Hcl)). intros [-> Hw].
  t_require; [done|]. inversion Hgot as [|? se ? ? (_&Hty&_) Hnil]; subst. inversion Hnil; subst.
  t_require; [done|]. t_index. t_assert; [by rewrite Hty, Hse|done].
Qed.

Theorem testRead_passes n w : (1 ≤ n)%nat → Z.of_nat n < two63 →
  wpt (testRead_ _ n) (λ _ _, True) w.
Proof.
  intros Hn Hlt. unfold testRead_. repeat (apply wpt_bind, wpt_subtest; [|intros ?w']).
  18: apply wpt_subtest; [|done].
  - intros w1. by apply read_large_passes.
  - apply read_empty_passes.
  - apply read_snapshot_passes.
  - apply read_ascending_passes.
  - apply read_backwards_passes.
  - apply read_after_passes.
  - apply read_after_backwards_passes.
  - apply read_before_first_passes.
  - apply read_by_type_passes.
  - apply read_or_passes.
  - apply read_by_tag_passes.
  - apply read_unmatched_tag_passes.
  - apply read_superset_passes.
  - apply read_and_passes.
  - apply read_limit_passes.
  - apply read_limit_backwards_passes.
  - apply read_after_limit_passes.
  - apply read_after_type_limit_passes.
Qed.

(** ** subscribe.go *)

Ltac t_subscribe := t_from ltac:(fun H => apply (wpt_mustSubscribe _ _ _ _ _ _ H);
    [first [by left|right; split; [done|split; [done|by repeat constructor]]]
    |split; [by repeat constructor|by_decide]|cbn; try done]);
  [..|intros [-> Hw]; cbn in Hw].

(** Everything is owed from the start. *)
Lemma owed_all o log ss w : at_log o log ss w → owed log QueryAll SequencePositionInitial = log.
Proof.
  intros Hw. unfold owed. rewrite matchingEvents_nolimit by done. unfold selection. cbn.
  apply filter_all. intros se Hse. split; [|by left]. cbn.
  destruct (at_log_after _ _ _ _ se Hw Hse). lia.
Qed.

Lemma wpt_expect_position log ss w id q p k se :
  at_log None log ss w → ss !! id = Some (Receiving q p k) → owed log q p !! k = Some se →
  wpt (expect_position (Position se) id)
    (λ _ w', at_log None log (<[id := Receiving q p (Datatypes.S k)]> ss) w') w.
Proof.
  intros Hw Hid Hse. eapply wpt_step; [by eapply wpt_mustReceive|].
  intros got w1 [[Hgot _] Hw1]. by t_assert.
Qed.

Ltac t_expect se := t_from ltac:(fun H => eapply (wpt_expect_position _ _ _ _ _ _ _ se H);
    [reflexivity|first [by rewrite (owed_all _ _ _ _ H)|idtac]]);
  [..|intros Hw; cbn in Hw].

(** The rest of a test with a subscription, up to where it is stopped; the
    last statement of the rest, and the stop itself. *)
Ltac t_body := apply wpt_deferred_stop.
Ltac t_last t := cbv beta; match goal with
  | H : at_log _ _ _ ?w |- ConformanceLaws.wpt _ _ _ ?w =>
      eapply wpt_mono; [|t H]; [clear H; intros [] ?w Hw; cbn in Hw|..]
  end.
Ltac t_expect_last se := t_last ltac:(fun H => eapply (wpt_expect_position _ _ _ _ _ _ _ se H);
    [reflexivity|first [by rewrite (owed_all _ _ _ _ H)|idtac]]).
Ltac t_stop := t_last ltac:(fun H => eapply (wpt_stop _ _ _ _ _ _ H); [reflexivity|cbn; lia]);
  try exact Logic.I.

Lemma subscribe_historical_passes w : wpt subscribe_historical (λ _ _, True) w.
Proof.
  t_new. t_append_event a. t_append_event b. t_subscribe. t_body.
  t_expect a. t_expect_last b. t_stop.
Qed.

Lemma subscribe_live_passes w : wpt subscribe_live (λ _ _, True) w.
Proof. t_new. t_subscribe. t_body. t_append_event se. t_expect_last se. t_stop. Qed.

Lemma subscribe_seamless_passes w : wpt subscribe_seamless (λ _ _, True) w.
Proof.
  t_new. t_append_event a. t_subscribe. t_body. t_append_event b.
  t_expect a. t_expect_last b. t_stop.
Qed.

Lemma subscribe_after_passes w : wpt subscribe_after (λ _ _, True) w.
Proof.
  t_new. t_append_event a. pose proof (at_log_after _ _ _ _ a Hw (list_elem_of_here _ _)) as Ha.
  t_subscribe; [lia|]. t_body. t_append_event b. pose proof (at_log_ascending _ _ _ _ Hw) as Hasc.
  apply StronglySorted_inv in Hasc as [_ [Hab _]%Forall_cons]. unfold pos_lt in Hab.
  t_expect_last b; [t_stop|]. unfold owed.
  rewrite (matching_mask [false; true]); [done|].
  repeat apply Forall2_cons_2; [t_selected..|constructor].
Qed.

Lemma subscribe_query_passes w : wpt subscribe_query (λ _ _, True) w.
Proof.
  t_new. t_query. t_subscribe. t_body. t_append_event a. t_append_event b.
  pose proof (at_log_ascending _ _ _ _ Hw) as Hasc.
  apply StronglySorted_inv in Hasc as [_ [Hab _]%Forall_cons]. unfold pos_lt in Hab.
  destruct (at_log_after _ _ _ _ a Hw (list_elem_of_here _ _)) as [Ha _].
  t_from ltac:(fun H => eapply (wpt_mustReceive _ _ _ _ _ _ _ _ b H); [reflexivity|]).
  { unfold owed. rewrite (matching_mask [false; true]); [done|].
    repeat apply Forall2_cons_2; [t_selected..|constructor]. }
  intros [(Hpos&Hty&_) Hw]. cbn in Hw. t_assert; [by rewrite Hty, Hse0|].
  t_assert; [by rewrite Hpos|]. t_stop.
Qed.

Lemma subscribe_multiple_passes w : wpt subscribe_multiple (λ _ _, True) w.
Proof.
  t_new. t_subscribe. t_body. t_subscribe. t_body. t_append_event se.
  t_expect se. t_expect_last se. t_stop. t_stop.
Qed.

Lemma wpt_append_times n log ss w appended :
  at_log None log ss w → Z.of_nat (length log + n) < two63 →
  wpt (append_times n appended) (λ ps w', ∃ new, ps = appended ++ (Position <$> new) ∧
    length new = n ∧ at_log None (log ++ new) ss w') w.
Proof.
  revert log w appended. induction n as [|n IH]; intros log w appended Hw Hlen; cbn [append_times].
  { apply wpt_ret. exists []. by rewrite !app_nil_r. }
  t_from ltac:(fun H => apply (wpt_mustAppendEvent _ _ _ _ _ _ _ H); [by_decide|lia]).
  intros (se&->&_&Hw). eapply wpt_mono; [|apply (IH _ _ _ Hw)].
  - intros ps w1 (new&->&Hn&Hw1). exists (se :: new). rewrite <-!(assoc_L (++)) in *.
    cbn. by rewrite Hn.
  - rewrite length_app. cbn. lia.
Qed.

Lemma wpt_expect_positions log ss w id q p l k :
  at_log None log ss w → ss !! id = Some (Receiving q p k) →
  (∀ i se, l !! i = Some se → owed log q p !! (k + i)%nat = Some se) →
  wpt (expect_positions (Position <$> l) id)
    (λ _ w', at_log None log (<[id := Receiving q p (k + length l)]> ss) w') w.
Proof.
  revert ss w k. induction l as [|se l IH]; intros ss w k Hw Hid Hl; cbn [fmap list_fmap expect_positions].
  { apply wpt_ret. rewrite Nat.add_0_r. by rewrite list_insert_id. }
  t_from ltac:(fun H => apply (wpt_expect_position _ _ _ _ _ _ _ se H Hid)).
  { rewrite <-(Hl 0%nat se eq_refl). f_equal. lia. }
  intros Hw. eapply wpt_mono; [|apply (IH _ _ (Datatypes.S k) Hw)].
  - intros [] w1. rewrite list_insert_insert_eq. cbn. by rewrite Nat.add_succ_r.
  - by eapply list_lookup_insert_eq, lookup_lt_Some.
  - intros i se' Hi. rewrite <-(Hl (Datatypes.S i) se' Hi). f_equal. lia.
Qed.

Lemma subscribe_order_passes w : wpt subscribe_order (λ _ _, True) w.
Proof.
  t_new. t_subscribe. t_body.
  t_from ltac:(fun H => apply (wpt_append_times 5 _ _ _ _ H); done).
  intros (new&->&Hlen&Hw). cbn in Hw.
  t_last ltac:(fun H => eapply (wpt_expect_positions _ _ _ _ _ _ _ _ H); [reflexivity|]).
  - eapply wpt_mono; [|eapply wpt_stop; [eassumption|reflexivity|lia]]. done.
  - intros i se Hi. by rewrite (owed_all _ _ _ _ Hw).
Qed.

Lemma subscribe_cancel_passes w : wpt subscribe_cancel (λ _ _, True) w.
Proof.
  t_new. t_subscribe. t_body.
  t_from ltac:(fun H => eapply (wpt_cancel _ _ _ _ _ _ _ _ H); reflexivity). intros Hw. cbn in Hw.
  t_from ltac:(fun H => eapply (wpt_assertClosed _ _ _ _ _ _ _ H); [reflexivity|cbn; lia]).
  intros Hw. cbn in Hw.
  t_from ltac:(fun H => eapply (wpt_sub_Err _ _ _ _ _ _ H); reflexivity). intros [-> Hw].
  t_assert; [done|]. t_stop.
Qed.

Theorem testSubscribe_passes w : wpt (testSubscribe _) (λ _ _, True) w.
Proof.
  unfold testSubscribe. repeat (apply wpt_bind, wpt_subtest; [|intros ?w']).
  8: apply wpt_subtest; [|done].
  - apply subscribe_historical_passes.
  - apply subscribe_live_passes.
  - apply subscribe_seamless_passes.
  - apply subscribe_after_passes.
  - apply subscribe_query_passes.
  - apply subscribe_multiple_passes.
  - apply subscribe_order_passes.
  - apply subscribe_cancel_passes.
Qed.

(** ** concurrency.go *)

Lemma wpt_count_results rs successes failures (Q : Z * Z → @world S J → Prop) (w : @world S J) :
  Forall (λ r, is_Ok r ∨ ∃ e, r = Err (EAppendCondition e)) rs →
  Q (successes + Z.of_nat (length (filter is_Ok rs)),
     failures + (Z.of_nat (length rs) - Z.of_nat (length (filter is_Ok rs)))) w →
  wpt (count_results rs successes failures) Q w.
Proof.
  intros Hrs. revert successes failures.
  induction Hrs as [|r rs [[pos ->]|[e ->]] _ IH]; intros successes failures HQ; cbn [count_results].
  - cbn in HQ. rewrite !Z.add_0_r in HQ. by apply wpt_ret.
  - apply IH. rewrite filter_cons_True in HQ by (by eexists). cbn [length] in HQ.
    replace (successes + 1 + _) with (successes + Z.of_nat (Datatypes.S (length (filter is_Ok rs)))) by lia.
    replace (failures + _) with (failures + (Z.of_nat (Datatypes.S (length rs)) -
      Z.of_nat (Datatypes.S (length (filter is_Ok rs))))) by lia. exact HQ.
  - t_assert; [done|]. apply IH. rewrite filter_cons_False in HQ by (by intros [? ?]).
    cbn [length] in HQ.
    replace (failures + 1 + _) with (failures + (Z.of_nat (Datatypes.S (length rs)) -
      Z.of_nat (length (filter is_Ok rs)))) by lia. exact HQ.
Qed.

Lemma wpt_no_errors ps positions (Q : list SequencePosition → @world S J → Prop) (w : @world S J) :
  Q (positions ++ ps) w → wpt (no_errors (Ok <$> ps) positions) Q w.
Proof.
  revert positions. induction ps as [|p ps IH]; intros positions HQ; cbn.
  - by rewrite app_nil_r in HQ.
  - apply IH. by rewrite <-(assoc_L (++)).
Qed.

(** The calls of the tests' goroutines. *)
Definition plain_call : list AppendCommand := [mkCommand [event_of "E" []] None].

Definition race_call (tag : string) : list AppendCommand :=
  [mkCommand [event_of "A" [tag]] (Some (mkCondition (query_of ["A"] [tag]) None))].

Definition nth_tag (i : nat) : string := "tag-" +:+ FormatInt (Z.of_nat i).

Definition race_calls (n : nat) : list (list (list AppendCommand)) :=
  [replicate n (race_call "race"); (λ i, race_call (nth_tag i)) <$> seq 0 n;
   replicate n plain_call].

Lemma race_calls_length n calls : calls ∈ race_calls n → length calls = n.
Proof.
  unfold race_calls. rewrite !elem_of_cons. intros [->|[->|[->|[]%elem_of_nil]]];
    by rewrite ?length_replicate, ?length_fmap, ?length_seq.
Qed.

Lemma race_call_admissible tag : good_tags [tag] → admissible (race_call tag).
Proof.
  intros Ht. destruct (plain_event "A" [tag] Ht). split_and!; [by apply ordinary_conditional| |done|done].
  by apply conditions_valid_singleton, scoped_valid.
Qed.

Lemma nth_tag_good i : Z.of_nat i < two63 → good_tags [nth_tag i].
Proof.
  intros Hi. apply Forall_singleton, printable_good; [by unfold nth_tag; rewrite string_app_cons|].
  unfold nth_tag. rewrite printable_app. apply andb_prop_intro. split; [done|].
  apply FormatInt_printable. lia.
Qed.

Lemma plain_call_admissible : admissible plain_call.
Proof.
  split_and!; [|by apply Forall_singleton|done|done].
  apply ordinary_plain, Forall_singleton, plain_event. by_decide.
Qed.

Lemma race_calls_admissible n calls : Z.of_nat n < two63 → calls ∈ race_calls n →
  Forall admissible calls.
Proof.
  intros Hn. unfold race_calls. rewrite !elem_of_cons. intros [->|[->|[->|[]%elem_of_nil]]].
  - apply Forall_replicate, race_call_admissible. by_decide.
  - apply Forall_fmap, Forall_forall. intros i Hi%elem_of_seq.
    apply race_call_admissible, nth_tag_good. lia.
  - apply Forall_replicate, plain_call_admissible.
Qed.

Lemma race_calls_single n calls : calls ∈ race_calls n →
  Forall (λ commands, length (all_events commands) = 1%nat) calls.
Proof.
  unfold race_calls. rewrite !elem_of_cons. intros [->|[->|[->|[]%elem_of_nil]]];
    [by apply Forall_replicate|by apply Forall_fmap, Forall_true|by apply Forall_replicate].
Qed.

(** Where their goroutines may be left unfinished, so may the tests. *)
Definition blocks_only (n : nat) : Prop :=
  ∀ calls, calls ∈ race_calls n → ts_concurrently calls ts_new = None → may_block.

(** Goroutines that append to a new store. *)
Lemma wpt_race n calls (w : @world S J) :
  store w = ts_new → subs w = [] → blocks_only n → Z.of_nat n < two63 → calls ∈ race_calls n →
  wpt (concurrently calls) (λ rs w', ∃ log, at_log None log [] w' ∧ race_outcome calls rs log) w.
Proof.
  intros Hs Hsub Hblock Hn Hc. pose proof (race_calls_single n calls Hc) as Hone.
  apply wpt_concurrently; [done|done|by apply Hblock|by eapply race_calls_admissible|].
  rewrite <-(race_calls_length n calls Hc) in Hn.
  assert (length (mjoin (all_events <$> calls)) = length calls) as ->; [|done].
  clear -Hone. induction Hone as [|commands calls Hc _ IH]; [done|]. cbn.
  rewrite length_app, Hc. cbn. by f_equal.
Qed.

(** All racers succeed, one event each: their positions are distinct, and a
    read finds the events at them. *)
Lemma wpt_no_errors_distinct calls rs log (k : list SequencePosition → @test S J unit) w :
  at_log None log [] w → race_outcome calls rs log →
  Forall (λ commands, length (all_events commands) = 1%nat) calls → Forall is_Ok rs →
  (∀ ps w', at_log None log [] w' → length log = length calls → ps ≡ₚ positionsOf log →
    wpt (k ps) (λ _ _, True) w') →
  wpt (positions ← no_errors rs []; assert_ (allDistinct positions) ;; k positions)
    (λ _ _, True) w.
Proof.
  intros Hw Hr Hone Hok Hk. destruct (race_all_succeed calls rs log Hr Hone Hok) as (l&->&Hl&Hlen).
  apply wpt_bind, wpt_no_errors. t_assert.
  { eapply allDistinct_positions; [by eapply at_log_ascending| |exact Hl].
    intros se Hse. by eapply at_log_after. }
  apply Hk; [done|by rewrite <-Hlen, Hl|]. cbn. unfold positionsOf. by rewrite Hl.
Qed.

Lemma wpt_plain_calls n calls (Q : _ → @world S J → Prop) (w : @world S J) :
  Q (calls ++ replicate n plain_call) w → wpt (plain_calls n calls) Q w.
Proof.
  revert calls. induction n as [|n IH]; intros calls HQ; cbn [plain_calls].
  { apply wpt_ret. by rewrite app_nil_r in HQ. }
  t_event. apply IH. by rewrite <-(assoc_L (++)).
Qed.

Lemma replicate_Forall {A} (P : A → Prop) n x : P x → Forall P (replicate n x).
Proof. intros ?. by apply Forall_replicate. Qed.

Lemma race_unconditional_passes n w :
  blocks_only n → Z.of_nat n < two63 →
  wpt (race_unconditional n) (λ _ _, True) w.
Proof.
  intros Hblock Hn. unfold race_unconditional. apply wpt_bind. split; [done|].
  apply wpt_bind, wpt_plain_calls. cbn [app].
  eapply wpt_step; [apply (wpt_race n); [done..|unfold race_calls; set_solver]|].
  - intros rs w1 (log&Hw&Hr). eapply wpt_no_errors_distinct; [done|done|by apply replicate_Forall| |].
    + destruct Hr as (Hlen&h&_&_&Hres). apply Forall_lookup. intros i r Hi.
      assert (i < n)%nat as Hlt by (apply lookup_lt_Some in Hi; by rewrite Hlen, length_replicate in Hi).
      assert (replicate n plain_call !! i = Some plain_call) as Hc by (by apply lookup_replicate).
      specialize (Hres i _ r Hc Hi). destruct r as [pos|[]|]; try done; [by eexists|].
      destruct Hres as [_ []]. by apply Forall_singleton.
    + intros ps w2 Hw2 Hlen Hps. rewrite length_replicate in Hlen. clear Hw. t_read_all.
      t_assert; [by rewrite Hlen0|]. t_assert; [by rewrite Hpos|done].
Qed.

(** Racers under the same condition: at most one appends. *)
Lemma raced_same n tag h : raced (replicate n (race_call tag)) h →
  h = [] ∨ ∃ i se, h = [(i, [se])] ∧ (i < n)%nat ∧ se_Event se = event_of "A" [tag].
Proof.
  induction 1 as [|h i commands evs _ IH [-> Hi]%lookup_replicate _ Hc Hevs]; [by left|right].
  destruct evs as [|se [|??]]; [done| |done]. injection Hevs as Hse. exists i, se.
  destruct IH as [->|(j&se'&->&_&Hse')]; [done|]. exfalso.
  apply conditions_hold_singleton in Hc. apply Hc.
  by eapply own_event_violates; [exact Hse'|set_solver..].
Qed.

Lemma race_same_results n tag rs log : (1 ≤ n)%nat →
  race_outcome (replicate n (race_call tag)) rs log →
  length rs = n ∧ length log = 1%nat ∧ length (filter is_Ok rs) = 1%nat ∧
  Forall (λ r, is_Ok r ∨ ∃ e, r = Err (EAppendCondition e)) rs.
Proof.
  intros Hn (Hlen&h&Hraced&Hlog&Hres). rewrite length_replicate in Hlen.
  assert (∀ i r, rs !! i = Some r → race_result h log i (race_call tag) r) as Hrs.
  { intros i r Hi. apply Hres; [|done]. apply lookup_replicate. split; [done|].
    apply lookup_lt_Some in Hi. lia. }
  destruct (raced_same n tag h Hraced) as [->|(i&se&->&Hi&Hse)].
  { exfalso. destruct (lookup_lt_is_Some_2 rs 0) as [r Hr]; [lia|].
    specialize (Hrs 0%nat r Hr). destruct r as [pos|[]|]; try done.
    - destruct Hrs as (?&?&Hin&_). by apply elem_of_nil in Hin.
    - destruct Hrs as [_ []]. apply Permutation_nil_r in Hlog as ->.
      apply conditions_hold_singleton, violated_nil. }
  split_and!; [done|by rewrite Hlog| |].
  - apply (one_success rs i); [lia|]. intros j r Hj. specialize (Hrs j r Hj).
    destruct r as [pos|[]|]; try done.
    + split; [|by eexists]. intros _. by destruct Hrs as (?&?&[= -> ->]%list_elem_of_singleton&_).
    + split; [by intros [? ?]|]. intros ->. destruct Hrs as [[] _]. by left.
  - apply Forall_lookup. intros j r Hj. specialize (Hrs j r Hj).
    destruct r as [pos|[]|]; try done; [left; by eexists|right; by eexists].
Qed.

Lemma race_condition_passes n w :
  blocks_only n →
  (1 ≤ n)%nat → Z.of_nat n < two63 → wpt (race_condition n) (λ _ _, True) w.
Proof.
  intros Hblock Hn Hlt. unfold race_condition. apply wpt_bind. split; [done|].
  t_event. t_condition. assert (good_tags ["race"]) as Ht by by_decide.
  eapply wpt_step; [apply (wpt_race n (replicate n (race_call "race")));
    [done..|unfold race_calls; set_solver]|].
  - intros rs w1 (log&Hw&Hr).
    destruct (race_same_results n "race" rs log Hn Hr) as (Hlen&Hlog&Hone&Hrs).
    apply wpt_bind, wpt_count_results; [done|]. rewrite Hone, Hlen. cbv beta iota.
    t_assert; [done|]. t_assert; [lia|]. t_read_all. t_assert; [by rewrite Hlen0|done].
Qed.

Lemma nth_tag_inj i j : Z.of_nat i < two63 → Z.of_nat j < two63 → nth_tag i = nth_tag j → i = j.
Proof.
  intros Hi Hj E. apply (inj (String.app "tag-")) in E.
  assert (ParseInt (FormatInt (Z.of_nat i)) = ParseInt (FormatInt (Z.of_nat j))) as Hp by by rewrite E.
  rewrite !ParseInt_FormatInt in Hp by (unfold in_i64; lia). injection Hp. lia.
Qed.

Lemma wpt_disjoint_calls i n calls (Q : _ → @world S J → Prop) (w : @world S J) :
  Z.of_nat (i + n) < two63 →
  Q (calls ++ ((λ i, race_call (nth_tag i)) <$> seq i n)) w → wpt (disjoint_calls i n calls) Q w.
Proof.
  revert i calls. induction n as [|n IH]; intros i calls Hi HQ; cbn [disjoint_calls].
  { apply wpt_ret. by rewrite app_nil_r in HQ. }
  assert (good_tags [nth_tag i]) as Ht by (apply nth_tag_good; lia).
  apply wpt_bind, wpt_mustEvent; [exact Ht|]. apply wpt_bind, wpt_scopedCondition; [exact Ht|done|].
  apply IH; [lia|]. by rewrite <-(assoc_L (++)).
Qed.

(** No racer stands in the way of another, so all succeed. *)
Lemma race_disjoint_results n rs log : Z.of_nat n < two63 →
  race_outcome ((λ i, race_call (nth_tag i)) <$> seq 0 n) rs log → Forall is_Ok rs.
Proof.
  intros Hn (Hlen&h&Hraced&Hlog&Hres). rewrite length_fmap, length_seq in Hlen.
  destruct (raced_spec _ h Hraced) as [_ Hh].
  apply Forall_lookup. intros i r Hr.
  assert (i < n)%nat as Hi by (rewrite <-Hlen; by eapply lookup_lt_Some).
  assert (∀ j, (j < n)%nat → ((λ i, race_call (nth_tag i)) <$> seq 0 n) !! j = Some (race_call (nth_tag j)))
    as Hcall by (intros j Hj; by rewrite list_lookup_fmap, lookup_seq_lt).
  specialize (Hres i _ r (Hcall i Hi) Hr). destruct r as [pos|[]|]; try done; [by eexists|].
  destruct Hres as [Hni []]. apply conditions_hold_singleton.
  intros (se&Hse&_&Hm). rewrite Hlog in Hse. apply elem_of_raced_log in Hse as (j&evs&Hin&Hse).
  destruct (Hh j evs Hin) as (commands&Hc&Hevs).
  assert (j < n)%nat as Hj by (apply lookup_lt_Some in Hc; by rewrite length_fmap, length_seq in Hc).
  rewrite (Hcall j Hj) in Hc. injection Hc as <-.
  destruct evs as [|se' [|??]]; [by apply elem_of_nil in Hse| |done].
  apply list_elem_of_singleton in Hse as ->. injection Hevs as Hev.
  cbn in Hm. rewrite Hev in Hm. apply query_of_matches in Hm as [_ Ht].
  assert (nth_tag i = nth_tag j) as ->%nth_tag_inj by set_solver; [|lia..].
  apply Hni, list_elem_of_fmap. by exists (j, [se']).
Qed.

Lemma race_disjoint_passes n w :
  blocks_only n → Z.of_nat n < two63 →
  wpt (race_disjoint n) (λ _ _, True) w.
Proof.
  intros Hblock Hn. unfold race_disjoint. apply wpt_bind. split; [done|].
  apply wpt_bind, wpt_disjoint_calls; [done|]. cbn [app].
  set (calls := _ <$> seq 0 n).
  assert (length calls = n) as Hlen by (unfold calls; by rewrite length_fmap, length_seq).
  assert (calls ∈ race_calls n) as Hc by (unfold race_calls; set_solver).
  pose proof (race_calls_single n calls Hc) as Hone.
  eapply wpt_step; [by apply (wpt_race n calls)|].
  - intros rs w1 (log&Hw&Hr).
    eapply wpt_no_errors_distinct; [done|done|done|by eapply race_disjoint_results|].
    intros ps w2 Hw2 Hlog _. clear Hw. t_read_all. t_assert; [congruence|done].
Qed.

Theorem testConcurrency_passes n w :
  blocks_only n →
  (1 ≤ n)%nat → Z.of_nat n < two63 → wpt (testConcurrency_ _ n) (λ _ _, True) w.
Proof.
  intros Hblock Hn Hlt. unfold testConcurrency_. repeat (apply wpt_bind, wpt_subtest; [|intros ?w']).
  3: apply wpt_subtest; [|done].
  - intros w1. by apply race_condition_passes.
  - intros w1. by apply race_disjoint_passes.
  - intros w1. by apply race_unconditional_passes.
Qed.

(** ** eventstoretest.go *)

Lemma Run_passes w : blocks_only racers → wpt (Run _) (λ _ _, True) w.
Proof.
  intros Hblock. unfold Run. repeat (apply wpt_bind, wpt_subtest; [|intros ?w']).
  4: apply wpt_subtest; [|done].
  - apply testAppend_passes.
  - intros w1. apply testRead_passes; unfold large, two63; lia.
  - apply testSubscribe_passes.
  - intros w1. apply testConcurrency_passes; [done|unfold racers, two63; lia..].
Qed.

Lemma wpt_run_test (t : @test S J unit) paces : (∀ w, wpt t (λ _ _, True) w) →
  run_test _ t paces = Pass ∨ (may_block ∧ run_test _ t paces = Hangs).
Proof.
  intros Ht. specialize (Ht (mkWorld ts_new [] paces false)). unfold ConformanceLaws.wpt in Ht.
  unfold run_test. destruct (t _) as [[[]| |] w']; [|done|by right].
  destruct Ht as [-> _]. by left.
Qed.
End suite.

(** C19: the suite is sound for every store that keeps the promises of
    [TestStoreLaws]: whatever the pace at which the goroutines of its
    subscriptions drain them, [Run] passes, with its hundred thousand events and
    twenty racers, if the goroutines that race are scheduled to their end, and
    otherwise it passes or waits for them. *)
Theorem laws_pass_conformance {S I J} `{TestStoreLaws S I J} paces :
  ((∀ calls, calls ∈ race_calls racers → ts_concurrently calls ts_new ≠ None) →
    run_test _ (Run _) paces = Pass) ∧
  run_test _ (Run _) paces ≠ Fail_.
Proof.
  split.
  - intros Hrace. destruct (wpt_run_test False (Run _) paces) as [?|[[] _]]; [|done].
    intros w. apply Run_passes. intros calls Hc Hn. by destruct (Hrace calls Hc).
  - destruct (wpt_run_test True (Run _) paces) as [->|[_ ->]]; [|done..].
    intros w. by apply Run_passes.
Qed.
