(* ===== verification/MemoryConformance.v ===== *)
(** * MemoryConformance

    The in-memory store under the conformance suite: it keeps the promises of
    [TestStoreLaws], and so passes.

    Racing goroutines take the mutex one after the other, in the order that
    [order] gives.  When a subscription's [select] finds both its channel closed
    and its context done, [stop_first] says which case it takes. *)

From S2P Require Import Prelude.
From S2P Require Import SequencePosition.
From S2P Require Import Tags.
From S2P Require Import EventStore.
From S2P Require Import Iterator.
From S2P Require Import Matching.
From S2P Require Import StoreSpec.
From S2P Require Import MemoryStore.
From S2P Require Import MemorySubscribe.
From S2P Require Import Cursor.
From S2P Require Import PgRead.
From S2P Require Import Conformance.
From S2P Require Import ConformanceLaws.
From S2P Require Import ConformanceRaces.
From S2P Require Import ConformanceProofs.

Local Open Scope Z_scope.

(** ** The store under test *)

(** Goroutines that append one after the other, in the order in which they get
    the mutex; [None] when [order] leaves one out. *)
Fixpoint run_order (calls : list (list AppendCommand)) (order : list nat)
    (results : gmap nat (outcome store_error SequencePosition)) (s : MemoryStore.Store) :
    option (list (outcome store_error SequencePosition) * MemoryStore.Store) :=
  match order with
  | [] => rs ← mapM (λ i, results !! i) (seq 0 (length calls)); Some (rs, s)
  | i :: order =>
      match calls !! i, results !! i with
      | Some commands, None =>
          let '(r, s) := MemoryStore.Append None commands s in
          run_order calls order (<[i := r]> results) s
      | _, _ => run_order calls order results s
      end
  end.

(** The steps of a call of [Next], until it returns or blocks. *)
Fixpoint next_steps (stop_first : bool) (fuel : nat) (cancelled : bool)
    (sub : MemorySubscribe.subscription) (s : MemoryStore.Store) :
    option (sub_event * MemorySubscribe.subscription * MemoryStore.Store) :=
  match fuel with
  | O => None
  | S fuel =>
      match pc sub with
      | Idle => next_steps stop_first fuel cancelled (set_pc LoopHead sub) s
      | LoopHead =>
          let sub' := run_head s sub in
          match pc sub' with
          | Idle => Some (Yielded (current (iterator sub')), sub', s)
          | _ => next_steps stop_first fuel cancelled sub' s
          end
      | Waiting ch =>
          if cancelled && (stop_first || negb (bool_decide (ch ∈ closed s)))
          then Some (Ended, set_pc Idle sub, s)
          else if decide (ch ∈ closed s)
          then next_steps stop_first fuel cancelled (set_pc LoopHead sub) s
          else Some (NotYet, sub, s)
      end
  end.

(** From its last wait, a call makes at most four steps. *)
Definition next_fuel : nat := 5.

Definition mem_under_test (order : list nat) (stop_first : bool) :
    TestStore MemoryStore.Store sliceIterator MemorySubscribe.subscription := {|
  ts_new := MemoryStore.New [];
  ts_append commands s := Some (MemoryStore.Append None commands s);
  ts_read query opts s := Some (MemoryStore.Read None query opts s, s);
  ts_fuel it := S (length (slice_events it));
  ts_close _ s := s;
  ts_concurrently calls s := run_order calls order ∅ s;
  ts_subscribe query opts s := Some (open_subscription <$> MemorySubscribe.Subscribe None query opts, s);
  ts_next := next_steps stop_first next_fuel;
  ts_sub_err _ := None;
  ts_sub_close sub s := (sub, s);
|}.

(** ** Its invariant *)

(** A new store's positions count from 1. *)
Record dense (log : list SequencedEvent) (s : MemoryStore.Store) : Prop := {
  dense_inv : mem_inv s;
  dense_events : events s = log;
  dense_last : value (lastPosition log) = Z.of_nat (length log);
  dense_first : ∀ se, se ∈ log → 1 ≤ value (Position se);
  dense_room : Z.of_nat (length log) < two63;
}.

Lemma dense_positions log s se : dense log s → se ∈ log → 1 ≤ value (Position se) < two63.
Proof.
  intros [Hs He Hl Hf Hr] Hse. split; [by apply Hf|].
  pose proof (ascending_last (events s) se (inv_ascending _ Hs)) as Hle. rewrite He in Hle.
  specialize (Hle Hse). lia.
Qed.

Lemma dense_mem_room log s n : dense log s → Z.of_nat (length log + n) < two63 → mem_room s n.
Proof. intros [_ He Hl _ _] Hn. unfold mem_room. rewrite He, Hl. unfold two63, two64 in *. lia. Qed.

(** An append as the laws want it. *)
Lemma dense_append log s commands :
  dense log s → Z.of_nat (length log + length (all_events commands)) < two63 →
  ∃ r log' s', MemoryStore.Append None commands s = (r, s') ∧ dense log' s' ∧
    append_contract log commands r log' ∧ healthy r ∧
    (∀ sub, sub_inv s sub → sub_inv s' sub).
Proof.
  intros Hd Hlen. pose proof Hd as [Hs He Hl Hf Hr].
  pose proof (dense_mem_room log s _ Hd Hlen) as Hroom.
  destruct (MemoryStore.Append None commands s) as [r s'] eqn:HA.
  destruct (Append_inv_contract None commands s r s' Hs Hroom HA) as [Hs' Hcon]. rewrite He in Hcon.
  exists r, (events s'), s'. split; [done|].
  destruct (Append_result None commands s r s' Hs HA) as [[-> Hno]|(se&Hse&->&->)].
  - split_and!; [by rewrite He|by rewrite He in *| |done].
    destruct (Append_cases commands s Hs) as [(_&e&E)|(_&E)]; rewrite E in HA.
    { by injection HA as <-. }
    destruct (append_locked_cases s commands Hs)
      as [(?&?&?&?&?&?&?&E')|[(?&?&E')|(?&se&?&E')]]; rewrite E' in HA; by injection HA as <-.
  - split_and!; [|done|done|intros sub; apply sub_inv_append].
    cbn [events after_append]. rewrite He. split; [done|by cbn; rewrite He| | |].
    + rewrite (lastPosition_app _ _ se Hse). rewrite length_app.
      unfold appended in *. rewrite numbered_length.
      rewrite (numbered_last (all_events commands) (value (lastPosition (events s))) se);
        [|by apply mem_last_wf|exact Hroom|done]. rewrite He, Hl. lia.
    + intros se' [Hse'|Hse']%elem_of_app; [by apply Hf|].
      apply numbered_bounds in Hse'; [|by apply mem_last_wf|exact Hroom]. rewrite He, Hl in Hse'. lia.
    + unfold appended. rewrite length_app, numbered_length. done.
Qed.

Lemma dense_New : dense [] (MemoryStore.New []).
Proof.
  split; [apply empty_store_inv|done|done| |done]. intros se Hse. by apply elem_of_nil in Hse.
Qed.

(** ** Subscriptions *)

(** A subscription for [q] from [p] that has delivered [dl]. *)
Definition delivering (q : Query) (p : SequencePosition) (dl : list SequencedEvent)
    (sub : MemorySubscribe.subscription) (s : MemoryStore.Store) : Prop :=
  sub_inv s sub ∧ sub_query (iterator sub) = q ∧ start sub = p ∧ delivered sub = dl.

Definition next_post (cancelled : bool) (q : Query) (p : SequencePosition)
    (dl : list SequencedEvent) (s : MemoryStore.Store)
    (r : option (sub_event * MemorySubscribe.subscription * MemoryStore.Store)) : Prop :=
  ∃ e sub, r = Some (e, sub, s) ∧
    match e with
    | Yielded se => delivering q p (dl ++ [se]) sub s
    | NotYet => cancelled = false ∧ delivering q p dl sub s ∧ stream (events s) q p = dl
    | Ended => cancelled = true
    end.

Section next.
Context (stop_first cancelled : bool) (q : Query) (p : SequencePosition) (dl : list SequencedEvent).
Context (s : MemoryStore.Store) (Hs : mem_inv s).

Notation next fuel sub := (next_post cancelled q p dl s (next_steps stop_first fuel cancelled sub s)).

Lemma next_steps_head fuel sub : pc sub = LoopHead →
  next_steps stop_first (S fuel) cancelled sub s =
    match pc (run_head s sub) with
    | Idle => Some (Yielded (current (iterator (run_head s sub))), run_head s sub, s)
    | _ => next_steps stop_first fuel cancelled (run_head s sub) s
    end.
Proof. intros Hpc. cbn [next_steps]. by rewrite Hpc. Qed.

(** Blocked on a channel that is open. *)
Lemma next_blocked fuel sub ch :
  delivering q p dl sub s → pc sub = Waiting ch → ch ∉ closed s → next (S fuel) sub.
Proof.
  intros Hd Hpc Hch. cbn [next_steps]. rewrite Hpc, bool_decide_eq_false_2 by done.
  rewrite orb_true_r, andb_true_r, decide_False by done.
  destruct cancelled eqn:Hc.
  - by exists Ended, (set_pc Idle sub).
  - exists NotYet, sub. split_and!; [done..|]. destruct Hd as (Hinv&<-&<-&<-).
    by apply (sub_waiting _ _ Hinv ch).
Qed.

Lemma next_pending fuel sub se pend :
  delivering q p dl sub s → pc sub = LoopHead → pending (iterator sub) = se :: pend →
  next (S fuel) sub.
Proof.
  intros (Hinv&Hq&Hp&Hdl) Hpc Hpend. pose proof (sub_inv_head s sub Hs Hinv) as Hinv'.
  rewrite next_steps_head by done. unfold run_head, loop_head in *. rewrite Hpend in *.
  eexists _, _. split; [done|]. split_and!; [exact Hinv'|done|done|]. cbn. by rewrite Hdl.
Qed.

Lemma next_head fuel sub :
  delivering q p dl sub s → pc sub = LoopHead → next (S (S fuel)) sub.
Proof.
  intros Hd Hpc. destruct (pending (iterator sub)) as [|se pend] eqn:Hpend.
  2: { by eapply next_pending. }
  destruct Hd as (Hinv&Hq&Hp&Hdl). pose proof (sub_inv_head s sub Hs Hinv) as Hinv'.
  assert (delivering q p dl (run_head s sub) s) as Hd'.
  { unfold run_head, loop_head in *. rewrite Hpend in *. by case_decide. }
  rewrite next_steps_head by done.
  destruct (pc (run_head s sub)) as [| |ch] eqn:Hpc'.
  - exfalso. revert Hpc'. unfold run_head, loop_head. rewrite Hpend. by case_decide.
  - destruct (pending (iterator (run_head s sub))) as [|se' pend'] eqn:Hpend'.
    + exfalso. revert Hpc' Hpend'. unfold run_head, loop_head. rewrite Hpend.
      case_decide as Hlen; [|done]. cbn. intros _ E. rewrite E in Hlen. cbn in Hlen. lia.
    + by apply (next_pending fuel (run_head s sub) se' pend').
  - apply (next_blocked fuel (run_head s sub) ch); [done|done|].
    revert Hpc'. unfold run_head, loop_head. rewrite Hpend. case_decide; [done|].
    intros [= <-]. by apply Hs.
Qed.

Lemma delivering_head sub : delivering q p dl sub s → delivering q p dl (set_pc LoopHead sub) s.
Proof. intros (Hinv&Hrest). split; [by apply sub_inv_set_pc|done]. Qed.

(** Every call of [Next] returns within [next_fuel] steps, or is blocked. *)
Lemma next_returns sub : delivering q p dl sub s → next next_fuel sub.
Proof.
  intros Hd. destruct (pc sub) as [| |ch] eqn:Hpc.
  - cbn [next_steps next_fuel]. rewrite Hpc. apply (next_head 2); [by apply delivering_head|done].
  - by apply (next_head 3).
  - destruct (decide (ch ∈ closed s)) as [Hch|Hch]; [|by apply (next_blocked 4 sub ch)].
    unfold next_fuel. cbn [next_steps]. rewrite Hpc, bool_decide_eq_true_2 by done.
    rewrite decide_True by done. cbn [negb]. rewrite orb_false_r.
    destruct (cancelled && stop_first) eqn:Hb.
    + apply andb_true_iff in Hb as [Hc _]. by exists Ended, (set_pc Idle sub).
    + apply (next_head 2); [by apply delivering_head|done].
Qed.
End next.

(** ** Races *)

Lemma conditions_hold_app log new commands :
  conditions_hold (log ++ new) commands → conditions_hold log commands.
Proof.
  intros Hall. eapply Forall_impl; [exact Hall|]. intros cmd Hc c Hcond Hv. apply (Hc c Hcond), violated_app. by left.
Qed.

Lemma race_result_later h log i commands r j evs :
  race_result h log i commands r → j ≠ i →
  race_result (h ++ [(j, evs)]) (log ++ evs) i commands r.
Proof.
  intros Hr Hji. destruct r as [pos|[]|]; try done.
  - destruct Hr as (evs'&se&Hin&?). exists evs', se. split; [|done]. apply elem_of_app. by left.
  - destruct Hr as [Hni Hc]. split.
    + rewrite fmap_app. intros [?|Hin%list_elem_of_singleton]%elem_of_app; done.
    + intros Hc'. apply Hc. by eapply conditions_hold_app.
Qed.

Section race.
Context (calls : list (list AppendCommand)) (Hadm : Forall admissible calls).
Context (Hroom : Z.of_nat (length (mjoin (all_events <$> calls))) < two63).

(** The results so far, when [h] has taken effect. *)
Record racing (results : gmap nat (outcome store_error SequencePosition))
    (h : list (nat * list SequencedEvent)) (s : MemoryStore.Store) : Prop := {
  racing_raced : raced calls h;
  racing_dense : dense (mjoin h.*2) s;
  racing_known : ∀ i, i ∈ h.*1 → is_Some (results !! i);
  racing_results : ∀ i r, results !! i = Some r →
    ∃ commands, calls !! i = Some commands ∧ race_result h (mjoin h.*2) i commands r;
}.

Lemma racing_length h i commands :
  raced calls h → i ∉ h.*1 → calls !! i = Some commands →
  Z.of_nat (length (mjoin h.*2) + length (all_events commands)) < two63.
Proof.
  intros Hr Hni Hi. destruct (raced_spec calls h Hr) as [Hnd Hh].
  set (evs := (λ ev, mkSequenced ev SequencePositionInitial) <$> all_events commands).
  pose proof (history_length calls (h ++ [(i, evs)])) as Hl.
  rewrite !fmap_app, join_app, length_app in Hl. cbn in Hl.
  rewrite app_nil_r in Hl. unfold evs in Hl at 2. rewrite length_fmap in Hl.
  assert (length (mjoin h.*2) + length (all_events commands) ≤
    length (mjoin (all_events <$> calls)))%nat; [|lia].
  apply Hl.
  - apply NoDup_app. split_and!; [done| |apply NoDup_singleton].
    by intros j Hj ->%list_elem_of_singleton.
  - intros j evs' [Hj|Hj%list_elem_of_singleton]%elem_of_app.
    + destruct (Hh j evs' Hj) as (c&?&Hevs). exists c. split; [done|].
      by rewrite <-Hevs, length_fmap.
    + injection Hj as -> ->. exists commands. split; [done|]. unfold evs. apply length_fmap.
Qed.

(** One goroutine gets the mutex. *)
Lemma racing_step results h s i commands r s' :
  racing results h s → calls !! i = Some commands → results !! i = None →
  MemoryStore.Append None commands s = (r, s') →
  ∃ h', racing (<[i := r]> results) h' s'.
Proof.
  intros [Hr Hd Hk Hres] Hi Hn HA.
  assert (i ∉ h.*1) as Hni by (intros Hin; destruct (Hk i Hin); congruence).
  destruct (dense_append _ s commands Hd (racing_length h i commands Hr Hni Hi))
    as (r0&log'&s0&E&Hd'&Hcon&Hhealthy&_).
  rewrite HA in E. injection E as <- <-.
  assert (admissible commands) as (_&Hval&Hne&Hone)
    by (rewrite Forall_forall in Hadm; by eapply Hadm, list_elem_of_lookup_2).
  assert (∀ h' : list (nat * list SequencedEvent), (∀ j, j ∈ h'.*1 → is_Some (results !! j) ∨ j = i) →
    ∀ j, j ∈ h'.*1 → is_Some (<[i:=r]> results !! j)) as Hknown.
  { intros h' Hh' j Hj. destruct (decide (j = i)) as [->|Hji]; [by rewrite lookup_insert_eq; eexists|].
    rewrite lookup_insert_ne by done. by destruct (Hh' j Hj). }
  inversion Hcon as [| |e cmd c Hin Hcmd He|k cmd c _ Hk' Hcmd Hviol _|_ Hnil|new se _ Hhold Hnew _ Hlast];
    subst; try done.
  - unfold conditions_valid in Hval. rewrite Forall_forall in Hval.
    specialize (Hval cmd Hin c Hcmd). apply ValidateAppendCondition_Ok in Hval. congruence.
  - exists h. split; [done|done|apply Hknown; auto|]. intros j r Hj.
    destruct (decide (j = i)) as [->|Hji].
    + rewrite lookup_insert_eq in Hj. injection Hj as <-. exists commands. split; [done|].
      split; [done|]. unfold conditions_hold. rewrite Forall_forall. intros Hall.
      by apply (Hall cmd (list_elem_of_lookup_2 _ _ _ Hk') c Hcmd).
    + rewrite lookup_insert_ne in Hj by done. by apply Hres.
  - assert (mjoin (h ++ [(i, new)]).*2 = mjoin h.*2 ++ new) as Hjoin
      by (rewrite fmap_app, join_app; cbn; by rewrite app_nil_r).
    exists (h ++ [(i, new)]). split; rewrite ?Hjoin.
    + by eapply raced_snoc.
    + done.
    + apply Hknown. intros j. rewrite fmap_app, elem_of_app. cbn. rewrite list_elem_of_singleton. naive_solver.
    + intros j r Hj. destruct (decide (j = i)) as [->|Hji].
      * rewrite lookup_insert_eq in Hj. injection Hj as <-. exists commands. split; [done|].
        exists new, se. split_and!; [|done|done]. apply elem_of_app. right. by left.
      * rewrite lookup_insert_ne in Hj by done. destruct (Hres j r Hj) as (c&?&?).
        exists c. split; [done|]. by apply race_result_later.
Qed.

Lemma run_order_race order results h s rs s' :
  racing results h s → run_order calls order results s = Some (rs, s') →
  ∃ log, dense log s' ∧ race_outcome calls rs log.
Proof.
  revert results h s. induction order as [|i order IH]; intros results h s Hrace; cbn [run_order].
  - destruct (mapM _ _) as [rs0|] eqn:Hm; [|done]. cbn. intros [= <- <-].
    apply mapM_Some_1 in Hm. destruct Hrace as [Hr Hd _ Hres].
    exists (mjoin h.*2). split; [done|]. split; [by rewrite <-(Forall2_length _ _ _ Hm), length_seq|].
    exists h. split_and!; [done|done|]. intros i commands r Hi Hri.
    destruct (Forall2_lookup_r _ _ _ _ _ Hm Hri) as (j&[-> _]%lookup_seq&Hj).
    destruct (Hres _ _ Hj) as (commands'&Hi'&Hrr). cbn in Hi'. rewrite Hi in Hi'. by injection Hi' as <-.
  - destruct (calls !! i) as [commands|] eqn:Hi; [|by apply (IH results h s)].
    destruct (results !! i) eqn:Hn; [by apply (IH results h s)|].
    destruct (MemoryStore.Append None commands s) as [r s1] eqn:HA.
    destruct (racing_step results h s i commands r s1 Hrace Hi Hn HA) as [h' Hrace'].
    by eapply IH.
Qed.
End race.

(** When every racer gets the mutex, all return. *)
Lemma run_order_total calls order results s :
  (∀ i, (i < length calls)%nat → i ∈ order ∨ is_Some (results !! i)) →
  run_order calls order results s ≠ None.
Proof.
  revert results s. induction order as [|i order IH]; intros results s Hall; cbn [run_order].
  - destruct (mapM _ _) as [rs|] eqn:Hm; [done|]. exfalso.
    assert (is_Some (mapM (λ i, results !! i) (seq 0 (length calls)))) as [rs Hs]; [|congruence].
    apply mapM_is_Some_2, Forall_forall. intros i Hi%elem_of_seq.
    destruct (Hall i) as [Hin|?]; [lia|by apply elem_of_nil in Hin|done].
  - assert (∀ results' : gmap nat (outcome store_error SequencePosition), (∀ j, is_Some (results !! j) ∨ j = i ∧ (i < length calls)%nat →
      is_Some (results' !! j)) →
      ∀ j, (j < length calls)%nat → j ∈ order ∨ is_Some (results' !! j)) as Hnext.
    { intros results' Hr j Hj. destruct (Hall j Hj) as [[->|?]%elem_of_cons|?]; auto. }
    destruct (calls !! i) as [commands|] eqn:Hi.
    + assert (i < length calls)%nat as Hlt by (by eapply lookup_lt_Some).
      destruct (results !! i) eqn:Hn.
      * apply IH, Hnext. intros j [?|[-> _]]; [done|by eexists].
      * destruct (MemoryStore.Append None commands s) as [r s1]. apply IH, Hnext.
        intros j Hj. destruct (decide (j = i)) as [->|?]; [by rewrite lookup_insert_eq; eexists|].
        rewrite lookup_insert_ne by done. by destruct Hj as [?|[-> _]].
    + apply lookup_ge_None in Hi. apply IH, Hnext. intros j [?|[-> ?]]; [done|lia].
Qed.

(** ** The laws *)

Lemma same_event_refl l : Forall2 same_event l l.
Proof. apply Forall_Forall2_diag, Forall_true. done. Qed.

Lemma Collect_slice evs :
  ∃ it', Collect (S (length evs)) (mkSlice evs 0) = Some (Ok (evs, None), it').
Proof.
  destruct (collect_loop_spec (S (length evs)) (mkSlice evs 0) []) as (it'&E&_).
  - cbn. lia.
  - change (remaining (mkSlice evs 0)) with (drop 0 evs). rewrite drop_0. lia.
  - exists (Close it'). unfold Collect. by rewrite E.
Qed.

#[export] Instance mem_laws order stop_first :
  @TestStoreLaws MemoryStore.Store sliceIterator MemorySubscribe.subscription _
    (mem_under_test order stop_first).
Proof.
  refine {| holds := λ _ log s, dense log s;
            evolves_ := λ s s', ∀ sub, sub_inv s sub → sub_inv s' sub;
            sub_ok := λ q p dl sub s, delivering q p dl sub s |}.
  - auto.
  - intros _ log s [Hs <- _ _ _]. apply Hs.
  - intros _ log s se Hd. by apply (dense_positions log s).
  - apply dense_New.
  - intros _ log s commands Hd _ Hlen.
    destruct (dense_append log s commands Hd Hlen) as (r&log'&s'&E&?&?&?&?).
    exists r, log', s'. split; [|done]. change (Some (MemoryStore.Append None commands s) = Some (r, s')).
    by rewrite E.
  - intros log s q opts Hd _ _ _ _. cbn. destruct (Collect_slice (matchingEvents (events s) q opts)) as [it' E].
    eexists _, s, _, it'. split_and!; [done|done|done|exact E| |auto].
    destruct Hd as [_ -> _ _ _]. apply same_event_refl.
  - intros log s q opts Hd _ _ _. cbn. eexists _, s. split_and!; [done|done|auto| |done].
    unfold delivering, open_subscription. cbn. destruct (Subscribe_After opts); (split_and!; [|done..]);
      (split; cbn; [by eexists|done|done]).
  - intros q p dl sub s s' log log' _ _ Hev [Hinv ?]. split; [by apply Hev|done].
  - intros q p dl sub s log [_ <- _ _ _] (Hinv&<-&<-&<-).
    destruct (sub_prefix _ _ Hinv) as [rest Hrest].
    exists (delivered sub), (pending (iterator sub) ++ rest). split; [|apply same_event_refl].
    unfold owed. change (mkReadOptions false (Some (start sub)) 0) with (after_options (start sub)).
    by rewrite matching_stream.
  - intros log s q p dl sub cancelled Hd _ Hsub _.
    destruct (next_returns stop_first cancelled q p dl s (dense_inv _ _ Hd) sub Hsub) as (e&sub'&E&He).
    exists e, sub', s. split; [exact E|]. split_and!; [done|auto|done|].
    destruct e; [done|done|]. destruct He as (?&?&Hst). split_and!; [done..|].
    unfold owed. change (mkReadOptions false (Some p) 0) with (after_options p).
    destruct Hd as [_ <- _ _ _]. by rewrite matching_stream, Hst.
  - intros log s sub Hd _. by exists sub, s.
  - intros calls rs s' Hadm Hlen HR. change (run_order calls order ∅ (MemoryStore.New []) = Some (rs, s')) in HR.
    apply (run_order_race calls Hadm Hlen order ∅ [] _ _ _) in HR; [exact HR|].
    split; [constructor|apply dense_New| |].
    + intros i Hi. by apply elem_of_nil in Hi.
    + intros i r Hi. by rewrite lookup_empty in Hi.
Defined.

(** ** Properties *)

(** C20: the in-memory store passes its conformance suite: for every pace at which
    the goroutines of the subscriptions drain them, whichever case [select]
    prefers, and whatever the order in which the goroutines of the concurrency
    tests get the mutex, so long as each of them does. *)
Theorem memory_passes_conformance order stop_first paces :
  (∀ i, (i < racers)%nat → i ∈ order) →
  run_test (mem_under_test order stop_first) (Run (mem_under_test order stop_first)) paces = Pass.
Proof.
  intros Horder.
  destruct (wpt_run_test (H0 := mem_under_test order stop_first) False
    (Run (mem_under_test order stop_first)) paces) as [?|[[] _]]; [|done].
  intros w. apply Run_passes. intros calls Hc Hn. apply (run_order_total _ order ∅ _) in Hn; [done|].
  intros i Hi. left. apply Horder. by rewrite <-(race_calls_length racers calls).
Qed.

(** *** Witnesses *)

(** Racers in the reverse order of their calls. *)
Definition ex_order : list nat := reverse (seq 0 racers).

Lemma ex_order_all i : (i < racers)%nat → i ∈ ex_order.
Proof. intros Hi. unfold ex_order. rewrite elem_of_reverse, elem_of_seq. lia. Qed.

Lemma memory_passes_conformance_witness :
  run_test (mem_under_test ex_order false) (Run (mem_under_test ex_order false)) [3; 0; 1]%nat = Pass.
Proof. exact (memory_passes_conformance ex_order false [3; 0; 1]%nat ex_order_all). Defined.

Lemma laws_pass_conformance_witness :
  run_test (mem_under_test [] true) (Run (mem_under_test [] true)) [] ≠ Fail_.
Proof. exact (proj2 (laws_pass_conformance (H0 := mem_under_test [] true) [])). Defined.
