(* ===== verification/PgRaces.v ===== *)
(** * PgRaces

    Calls of [Append] that race on an empty Postgres store while nothing fails:
    once all have returned, the commits are the history of a race in the sense
    of [ConformanceLaws], and the table holds its log without gaps. *)

From stdpp Require Import sorting.
From S2P Require Import Prelude.
From S2P Require Import SequencePosition.
From S2P Require Import EventStore.
From S2P Require Import Matching.
From S2P Require Import StoreSpec.
From S2P Require Import PgServer.
From S2P Require Import ReadSQL.
From S2P Require Import PgStore.
From S2P Require Import PgConditions.
From S2P Require Import Cursor.
From S2P Require Import PgLogic.
From S2P Require Import PgRules.
From S2P Require Import PgRead.
From S2P Require Import PgAppend.
From S2P Require Import PgConcurrency.
From S2P Require Import PgSequential.
From S2P Require Import PgTyping.
From S2P Require Import PgDeadlock.
From S2P Require Import PgTermination.
From S2P Require Import PgFaultless.
From S2P Require Import ConformanceLaws.
From S2P Require Import ConformanceRaces.

Local Open Scope Z_scope.

(** The calls of [Append] that race, and their results once all have returned. *)
Definition race_tasks (calls : list (list AppendCommand)) : gmap nat task :=
  map_seq 0 (TAppend <$> calls).

Definition append_result (cfg : config result) (i : nat) :
    option (outcome store_error SequencePosition) :=
  match cfg.2 !! i with Some (Ret (RAppend r)) => Some r | _ => None end.

Definition run_race (st : Store) (sched : list nat) (calls : list (list AppendCommand))
    (s : server) : option (list (outcome store_error SequencePosition) * server) :=
  let cfg := run_schedule sched (initial st (race_tasks calls) s) in
  rs ← mapM (append_result cfg) (seq 0 (length calls));
  Some (rs, cfg.1).

Section tasks.
Context (calls : list (list AppendCommand)).

Lemma race_tasks_lookup i : race_tasks calls !! i = TAppend <$> calls !! i.
Proof. unfold race_tasks. by rewrite lookup_map_seq_0, list_lookup_fmap. Qed.

Lemma race_tasks_ok : Forall admissible calls → map_Forall (λ _, task_ok) (race_tasks calls).
Proof.
  intros Hadm i t. rewrite race_tasks_lookup. intros (commands&Hc&->)%fmap_Some. cbn.
  rewrite Forall_lookup in Hadm. by destruct (Hadm i commands Hc) as ([? _]&_).
Qed.

Lemma race_demand : demand (race_tasks calls) = length (mjoin (all_events <$> calls)).
Proof.
  unfold demand, race_tasks, total_quota. rewrite map_sum_fmap, map_sum_seq.
  induction calls as [|commands l IH]; [done|]. etrans; [|symmetry; apply length_app].
  cbn. by f_equal.
Qed.
End tasks.

(** ** Histories *)

Lemma serial_ascending tasks h i evs : serial tasks h → (i, evs) ∈ h → ascending evs.
Proof.
  induction 1 as [|h j commands evs' _ IH _ _ _ _ Hasc _|h j t _ IH _ _];
    [by intros ?%elem_of_nil|..]; rewrite elem_of_app, list_elem_of_singleton;
    (intros [?|[= -> ->]]; [by apply IH|]); [done|constructor].
Qed.

Lemma serial_positions tasks h : serial tasks h →
  NoDup ((λ se, value (Position se)) <$> mjoin h.*2).
Proof.
  induction 1 as [|h j commands evs _ IH _ _ _ _ Hasc Hfree|h j t _ IH _ _]; [constructor|..];
    rewrite fmap_app, join_app; cbn; rewrite app_nil_r; [|done].
  rewrite fmap_app. apply NoDup_app. split_and!; [done| |by apply ascending_NoDup].
  intros p (a&->&Ha)%list_elem_of_fmap (b&E&Hb)%list_elem_of_fmap. by apply (Hfree a b).
Qed.

Lemma serial_raced calls h : serial (race_tasks calls) h → NoDup h.*1 → raced calls h.
Proof.
  induction 1 as [|h i commands evs _ IH Hi _ Hc Hevs _ _|h i t _ _ Hi Hr]; [constructor|..].
  - rewrite fmap_app. intros (Hnd&Hnew&_)%NoDup_app.
    rewrite race_tasks_lookup in Hi. apply fmap_Some in Hi as (commands'&Hi&[= ->]).
    eapply raced_snoc; [by apply IH|done| |done|done].
    intros Hin. apply (Hnew i Hin). by left.
  - exfalso. rewrite race_tasks_lookup in Hi. by apply fmap_Some in Hi as (commands&_&->).
Qed.

Lemma serial_sessions tasks h i evs : serial tasks h → (i, evs) ∈ h → is_Some (tasks !! i).
Proof.
  induction 1 as [|h j commands evs' _ IH Hj _ _ _ _ _|h j t _ IH Hj _];
    [by intros ?%elem_of_nil|..]; rewrite elem_of_app, list_elem_of_singleton;
    (intros [?|[= -> ->]]; [by apply IH|by eexists]).
Qed.

(** A history in which every session has at most one commit. *)
Lemma NoDup_sessions {A} (W : list (nat * A)) :
  (∀ i, length (filter (λ e, e.1 = i) W) ≤ 1)%nat → NoDup W.*1.
Proof.
  induction W as [|[i x] W IH]; intros Hlen; [constructor|]. cbn. constructor.
  - intros ([j y]&->&Hin)%list_elem_of_fmap. specialize (Hlen j).
    rewrite filter_cons_True in Hlen by done. cbn in Hlen.
    assert ((j, y) ∈ filter (λ e, e.1 = j) W) as Hf by (by apply list_elem_of_filter).
    destruct (filter (λ e, e.1 = j) W); [by apply elem_of_nil in Hf|cbn in Hlen; lia].
  - apply IH. intros j. specialize (Hlen j). rewrite filter_cons in Hlen.
    case_decide; cbn in Hlen; lia.
Qed.

Definition pos_le (a b : SequencedEvent) : Prop := value (Position a) ≤ value (Position b).
#[local] Instance pos_le_dec a b : Decision (pos_le a b).
Proof. unfold pos_le. apply _. Defined.
#[local] Instance pos_le_trans : Transitive pos_le.
Proof. intros ???. unfold pos_le. lia. Qed.
#[local] Instance pos_le_total : Total pos_le.
Proof. intros ??. unfold pos_le. lia. Qed.

Lemma sorted_ascending log : StronglySorted pos_le log →
  NoDup ((λ se, value (Position se)) <$> log) → ascending log.
Proof.
  unfold ascending. induction 1 as [|se log Hs IH Hse]; cbn; [by constructor|].
  intros [Hni Hnd]%NoDup_cons. constructor; [by apply IH|]. rewrite Forall_forall in Hse |- *.
  intros se' Hin. specialize (Hse se' Hin). unfold pos_le, pos_lt in *.
  assert (value (Position se) ≠ value (Position se')); [|lia]. intros E. apply Hni.
  rewrite E. by apply (list_elem_of_fmap_2 (λ se, value (Position se))).
Qed.

(** Events at distinct positions, in the order of their positions. *)
Lemma sorted_log l : NoDup ((λ se, value (Position se)) <$> l) → ∃ log, log ≡ₚ l ∧ ascending log.
Proof.
  intros Hnd. exists (merge_sort pos_le l). pose proof (merge_sort_Permutation pos_le l) as Hp.
  split; [done|]. apply sorted_ascending; [apply StronglySorted_merge_sort; apply _|by rewrite Hp].
Qed.

(** ** The race *)

(** What a finished call reports, when the database did not fail it. *)
Lemma outcome_cases spec i commands s0 r s :
  Inv s → wal_legal spec s → conditions_valid commands → all_events commands ≠ [] → faultless r →
  append_outcome i [] commands s0 r s →
  (∃ pos new, r = Ok pos ∧ idle i [(i, new)] s ∧ written commands (last_position s0) (value pos) new) ∨
  (∃ j c cmd p rw, r = Err (violation_error commands j c) ∧ idle i [] s ∧
     commands !! j = Some cmd ∧ Condition cmd = Some c ∧ table s !! p = Some rw ∧ row_hit c p rw).
Proof.
  intros HI Hlegal Hvalid Hne Hf [(e&cmd&c&->&Hcmd&Hc&He&_)|[_ [(_&Hz&_)|[_ Hp]]]]; [|done|].
  { unfold conditions_valid in Hvalid. rewrite Forall_forall in Hvalid.
    by rewrite (proj2 (ValidateAppendCondition_Ok c) (Hvalid cmd Hcmd c Hc)) in He. }
  destruct r as [pos|e|msg]; [| |done].
  - left. destruct Hp as (new&Hi&Hw). by exists pos, new.
  - right. destruct Hp as [(j&c&cmd&->&Hj&Hc&Hv&Hi)|(msg&->&_)]; [|done].
    destruct Hv as (tbl&h&(j'&cmd'&Hj'&Hcmd'&(c'&p&rw&Hc'&Hp&_&Hhit)&_)&_&Hsub&_).
    assert (j' = j) as -> by lia. simplify_eq.
    exists j, c, cmd, p, rw. split_and!; [done..| |done]. by eapply lookup_weaken.
Qed.

Lemma log_rows_inj evs evs' : ascending evs → ascending evs' → log_rows evs = log_rows evs' →
  event_row <$> evs = event_row <$> evs'.
Proof.
  intros Hasc Hasc' E. apply (row_order_unique false); [by apply event_rows_sorted..|].
  assert (∀ l, ascending l → ∀ x, x ∈ event_row <$> l ↔ log_rows l !! x.1 = Some x.2) as Hel.
  { intros l Hl [p r]. rewrite log_rows_Some, list_elem_of_fmap by done. cbn. unfold event_row.
    naive_solver. }
  intros x. by rewrite !Hel, E.
Qed.

Lemma race_config_ok st sched calls : Forall admissible calls →
  config_ok (task_spec (race_tasks calls) empty_server) (task_post (race_tasks calls) empty_server)
    (run_schedule sched (initial st (race_tasks calls) empty_server)).
Proof.
  intros Hadm. apply (reachable_ok st); [by apply race_tasks_ok|apply empty_quiescent|].
  apply run_schedule_steps.
Qed.

(** Racers that all get enough turns return. *)
Lemma fair_race st calls rounds :
  Forall admissible calls → map_Forall (λ _, lockable) (race_tasks calls) →
  fair (race_tasks calls) rounds → (total_bound (race_tasks calls) ≤ length rounds)%nat →
  is_Some (run_race st (mjoin rounds) calls empty_server).
Proof.
  intros Hadm Hkeys Hfair Hlen. pose proof (race_config_ok st (mjoin rounds) calls Hadm) as Hok.
  pose proof (fair_rounds_finish st _ empty_server rounds Hkeys (Inv_typed _ empty_server_inv) eq_refl
    Hfair Hlen) as Hdone.
  unfold run_race. set (cfg := run_schedule _ _) in *.
  assert (is_Some (mapM (append_result cfg) (seq 0 (length calls)))) as [rs ->]; [|by eexists].
  apply mapM_is_Some, Forall_forall. intros i Hi%elem_of_seq.
  destruct (lookup_lt_is_Some_2 calls i) as [commands Hc]; [lia|].
  assert (race_tasks calls !! i = Some (TAppend commands)) as Ht by (by rewrite race_tasks_lookup, Hc).
  assert (is_Some (cfg.2 !! i)) as [p Hp].
  { apply run_schedule_sessions. cbn. by rewrite lookup_fmap, Ht. }
  destruct (Hdone i p Hp) as [a ->]. pose proof (config_ok_done _ _ cfg i a Hok Hp) as Hpost.
  unfold task_post in Hpost. rewrite Ht in Hpost.
  change (is_Some (append_result cfg i)). unfold append_result. rewrite Hp.
  destruct a; [by eexists|done..].
Qed.

Section race.
Context (st : Store) (sched : list nat) (calls : list (list AppendCommand)).
Context (rs : list (outcome store_error SequencePosition)) (s : server).
Hypothesis Hadm : Forall admissible calls.
Hypothesis Hroom : Z.of_nat (length (mjoin (all_events <$> calls))) < two63.
Hypothesis Hrun : run_race st sched calls empty_server = Some (rs, s).

Let tasks := race_tasks calls.
Let cfg := run_schedule sched (initial st tasks empty_server).

Lemma race_done : s = cfg.1 ∧ length rs = length calls ∧
  ∀ i r, rs !! i = Some r → cfg.2 !! i = Some (Ret (RAppend r)).
Proof.
  unfold run_race in Hrun. fold tasks cfg in Hrun.
  destruct (mapM (append_result cfg) (seq 0 (length calls))) as [rs'|] eqn:E; [|done].
  cbn in Hrun. injection Hrun as <- <-. apply mapM_Some in E.
  pose proof (Forall2_length _ _ _ E) as Hlen. rewrite length_seq in Hlen. split_and!; [done|done|].
  intros i r Hi. assert (i < length calls)%nat by (apply lookup_lt_Some in Hi; lia).
  destruct (Forall2_lookup_r _ _ _ _ _ E Hi) as (j&Hj&Hr).
  rewrite lookup_seq_lt in Hj by done. injection Hj as <-. unfold append_result in Hr.
  repeat case_match; by simplify_eq.
Qed.

Lemma race_ok : config_ok (task_spec tasks empty_server) (task_post tasks empty_server) cfg.
Proof. by apply race_config_ok. Qed.

(** Every call has its outcome. *)
Lemma race_call_outcome i commands r : calls !! i = Some commands → rs !! i = Some r →
  (∃ pos new, r = Ok pos ∧ idle i [(i, new)] s ∧ written commands 0 (value pos) new) ∨
  (∃ j c cmd p rw, r = Err (violation_error commands j c) ∧ idle i [] s ∧
     commands !! j = Some cmd ∧ Condition cmd = Some c ∧ table s !! p = Some rw ∧ row_hit c p rw).
Proof.
  intros Hc Hr. destruct race_done as (->&_&Hres). specialize (Hres i r Hr).
  pose proof race_ok as Hok. pose proof (config_ok_done _ _ cfg i _ Hok Hres) as Hpost.
  destruct Hok as (HI&Hlegal&_). unfold task_post in Hpost.
  unfold tasks in Hpost. rewrite race_tasks_lookup, Hc in Hpost. cbn in Hpost.
  assert (admissible commands) as (_&Hvalid&Hne&_) by (by eapply Forall_lookup_1).
  eapply (outcome_cases _ i commands empty_server r); [done..| |done].
  destruct (run_schedule_calm 0 _ sched _ _ (initial_calm st tasks empty_server
    (race_tasks_ok calls Hadm) eq_refl ltac:(unfold tasks; rewrite race_demand; exact Hroom)))
    as (as'&[Hsess _ _]).
  by destruct (Hsess i _ Hres) as (a&_&_&Hf).
Qed.

Lemma race_call_result i commands : calls !! i = Some commands → ∃ r, rs !! i = Some r.
Proof.
  intros Hc%lookup_lt_Some. destruct race_done as (_&Hlen&_).
  apply lookup_lt_is_Some_2. lia.
Qed.

Lemma race_history : ∃ h, raced calls h ∧ wal s = commit_rows h ∧
  holds_log (table s) (mjoin h.*2) ∧ NoDup ((λ se, value (Position se)) <$> mjoin h.*2) ∧
  ∀ i evs, (i, evs) ∈ h → ascending evs.
Proof.
  pose proof race_ok as (HI&Hlegal&_). destruct race_done as (Es&_&_).
  rewrite <-Es in HI, Hlegal.
  destruct (legal_serial tasks (wal s)) as (h&Hser&Hw&Hlog); [exact Hlegal| |].
  { intros p [r Hp]. rewrite <-(inv_wal _ HI) in Hp. apply (inv_allocated _ HI p r). by left. }
  exists h. rewrite (inv_wal _ HI). split_and!; [|done|done|by apply (serial_positions tasks)|].
  - apply serial_raced; [done|]. assert (h.*1 = (wal s).*1) as ->.
    { rewrite Hw. unfold commit_rows. by rewrite <-list_fmap_compose. }
    apply NoDup_sessions. intros i. change (length (own_wal i s) ≤ 1)%nat.
    destruct (calls !! i) as [commands|] eqn:Hc.
    + destruct (race_call_result i commands Hc) as [r Hr].
      destruct (race_call_outcome i commands r Hc Hr)
        as [(pos&new&_&[_ ->]&_)|(j&c&cmd&p&rw&_&[_ ->]&_)]; cbn; lia.
    + destruct (own_wal i s) as [|[j new] W] eqn:E; [cbn; lia|]. exfalso.
      assert ((j, new) ∈ own_wal i s) as [Hj Hin]%list_elem_of_filter by (rewrite E; by left).
      cbn in Hj. subst j. rewrite Hw in Hin. apply list_elem_of_fmap in Hin as ([j evs]&[= -> _]&Hin).
      destruct (serial_sessions _ _ _ _ Hser Hin) as [t Ht]. unfold tasks in Ht.
      by rewrite race_tasks_lookup, Hc in Ht.
  - intros i evs. by apply (serial_ascending tasks).
Qed.

Lemma race_txs : txs s = ∅.
Proof.
  destruct race_done as (Es&_&Hres). apply map_eq. intros i. rewrite lookup_empty.
  destruct (calls !! i) as [commands|] eqn:Hc.
  - destruct (race_call_result i commands Hc) as [r Hr].
    by destruct (race_call_outcome i commands r Hc Hr)
      as [(pos&new&_&[? _]&_)|(j&c&cmd&p&rw&_&[? _]&_)].
  - rewrite Es. assert ((initial st tasks empty_server).2 !! i = None) as Hi.
    { cbn. unfold tasks. by rewrite lookup_fmap, race_tasks_lookup, Hc. }
    rewrite (rely_tx _ _ _ (steps_observer _ _ (initial st tasks empty_server) cfg i
      (initial_ok st tasks empty_server (race_tasks_ok calls Hadm) (empty_quiescent tasks))
      (run_schedule_steps _ _) Hi)).
    by cbn; rewrite lookup_empty.
Qed.

(** The results, against the history. *)
Lemma race_results h i commands r : raced calls h → wal s = commit_rows h →
  holds_log (table s) (mjoin h.*2) → (∀ i evs, (i, evs) ∈ h → ascending evs) →
  calls !! i = Some commands → rs !! i = Some r → race_result h (mjoin h.*2) i commands r.
Proof.
  intros Hraced Hw Hlog Hasc Hc Hr. destruct (raced_spec calls h Hraced) as [_ Hh].
  destruct (race_call_outcome i commands r Hc Hr)
    as [(pos&new&->&[_ Hown]&(ps&Hps&Hlen&Hnew&_&Hlast&_))|(j&c&cmd&p&rw&->&[_ Hown]&Hj&Hcond&Hp&Hhit)].
  - assert ((i, new) ∈ own_wal i s) as [_ Hin]%list_elem_of_filter by (rewrite Hown; by left).
    rewrite Hw in Hin. apply list_elem_of_fmap in Hin as ([j evs]&[= -> ->]&Hin).
    specialize (Hasc j evs Hin). rewrite <-sequenced_rows in Hnew by done.
    apply log_rows_inj in Hnew; [|done|].
    2: { apply ascending_positions. by rewrite sequenced_positions. }
    destruct (sequenced_last ps (all_events commands) (value pos) Hlen Hlast) as (se&Hse&Hpos).
    apply (f_equal last) in Hnew. rewrite !fmap_last, Hse in Hnew. cbn in Hnew.
    apply fmap_Some in Hnew as (se'&Hse'&[= Hp _]). exists evs, se'. split_and!; [done|done|].
    apply (f_equal value) in Hpos. cbn in Hpos. destruct pos, (Position se'). cbn in *. congruence.
  - cbn. split.
    + intros ([j' evs]&->&Hin)%list_elem_of_fmap.
      assert ((j', log_rows evs) ∈ own_wal j' s) as Hin'.
      { apply list_elem_of_filter. split; [done|]. rewrite Hw.
        by apply (list_elem_of_fmap_2 (λ e, (e.1, log_rows e.2)) h (j', evs)). }
      cbn in Hown. rewrite Hown in Hin'. by apply elem_of_nil in Hin'.
    + intros Hhold. unfold conditions_hold in Hhold. rewrite Forall_lookup in Hhold.
      apply (Hhold j cmd Hj c Hcond). eapply command_hit_violated; [exact Hlog|exact Hcond|].
      exists c, p, rw. split_and!; [done|done|reflexivity|done].
Qed.

(** The race, as the laws describe it, with all positions in use. *)
Lemma race_outcome_holds : ∃ log, represents s log ∧ gapless 0 s ∧
  Forall (λ se, decodable (se_Event se)) log ∧ race_outcome calls rs log.
Proof.
  destruct race_history as (h&Hraced&Hw&Hlog&Hnd&Hasc). destruct race_done as (Es&Hlen&_).
  destruct (sorted_log _ Hnd) as (log&Hperm&Hsorted). exists log.
  pose proof race_ok as (HI&Hlegal&_). rewrite <-Es in HI, Hlegal. split_and!.
  - split; [|by intros p r; setoid_rewrite Hperm|done].
    split; [done|apply race_txs|done|]. intros h1 i new h2 E. by apply (Hlegal h1 i new h2).
  - rewrite Es.
    by destruct (run_schedule_calm 0 _ sched _ _ (initial_calm st tasks empty_server
      (race_tasks_ok calls Hadm) eq_refl ltac:(unfold tasks; rewrite race_demand; exact Hroom)))
      as (as'&[_ _ Hgap]).
  - rewrite Hperm. by eapply raced_decodable.
  - split; [done|]. exists h. split_and!; [done|done|]. intros i commands r Hc Hr.
    pose proof (race_results h i commands r Hraced Hw Hlog Hasc Hc Hr) as Hres.
    destruct r as [pos|[]|]; try done. destruct Hres as [Hi Hno]. split; [done|].
    by rewrite Hperm.
Qed.
End race.
