(* ===== verification/PgConformance.v ===== *)
(** * PgConformance

    The Postgres store under the conformance suite: it keeps the promises of
    [TestStoreLaws], and so passes, with its stored procedures or by COPY.

    The test's own calls run in session 0, a read and the transaction of its
    iterator in session 1, and subscriptions in session 2; the goroutines that
    race have sessions of their own, and take turns as [sched] says (in rounds, for
    the suite to pass).  A [Next]
    that finds nothing new gives up its turn when the poll interval has elapsed;
    when the context of a subscription has ended, [stop_first] says whether
    [Next] notices before its next read or after it. *)

From S2P Require Import Prelude.
From S2P Require Import GoStrconv.
From S2P Require Import SequencePosition.
From S2P Require Import Tags.
From S2P Require Import EventStore.
From S2P Require Import Iterator.
From S2P Require Import Matching.
From S2P Require Import StoreSpec.
From S2P Require Import Serialize.
From S2P Require Import PgServer.
From S2P Require Import ReadSQL.
From S2P Require Import PgStore.
From S2P Require Import PgConditions.
From S2P Require Import Cursor.
From S2P Require Import PgLogic.
From S2P Require Import PgRules.
From S2P Require Import PgBarrier.
From S2P Require Import PgRead.
From S2P Require Import PgSubscribe.
From S2P Require Import PgAppend.
From S2P Require Import PgConcurrency.
From S2P Require Import PgSequential.
From S2P Require Import PgSequentialRead.
From S2P Require Import PgDeadlock.
From S2P Require Import PgTermination.
From S2P Require Import PgFaultless.
From S2P Require Import Conformance.
From S2P Require Import ConformanceLaws.
From S2P Require Import ConformanceRaces.
From S2P Require Import ConformanceProofs.
From S2P Require Import PgRaces.

Local Open Scope Z_scope.

(** ** The store under test *)

(** One round of [Next]. *)
Definition test_turn (stop_first cancelled : bool) : turn :=
  mkTurn (cancelled && stop_first) [] false (if cancelled then ContextEnded else PollElapsed).

Definition run_next (st : Store) (stop_first cancelled : bool) (it : subscribeIterator)
    (s : server) : option (sub_event * subscribeIterator * server) :=
  '(r, s) ← run 2 [] (Next st [test_turn stop_first cancelled] it) s;
  match r with
  | Returned true it _ => Some (Yielded (current it), it, s)
  | Returned false it _ => Some (Ended, it, s)
  | Waiting it => Some (NotYet, it, s)
  | Panicked _ => None
  end.

Definition pg_under_test (st : Store) (sched : list nat) (stop_first : bool) :
    TestStore server cursorIterator subscribeIterator := {|
  ts_new := empty_server;
  ts_append commands s := run 0 [] (PgStore.Append st commands) s;
  ts_read query opts s := run 1 [] (PgRead.Read st [] query opts) s;
  ts_fuel := collect_fuel;
  ts_close _ s := drop_tx 1 s;
  ts_concurrently calls s := run_race st sched calls s;
  ts_subscribe query opts s := Some ((PgSubscribe.Subscribe st None None query opts).2, s);
  ts_next := run_next st stop_first;
  ts_sub_err := sub_err;
  ts_sub_close it s := ((Close st it).2, s);
|}.

(** ** Its invariant *)

(** Between calls, a server that was empty holds a log without gaps. *)
Record intact (log : list SequencedEvent) (s : server) : Prop := {
  intact_represents : represents s log;
  intact_gapless : gapless 0 s;
  intact_decodable : Forall (λ se, decodable (se_Event se)) log;
}.

Lemma intact_Inv log s : intact log s → Inv s.
Proof. intros [[Hq _ _] _ _]. apply Hq. Qed.

Lemma intact_txs log s : intact log s → txs s = ∅.
Proof. intros [[Hq _ _] _ _]. apply Hq. Qed.

Lemma intact_positions log s se : intact log s → se ∈ log →
  1 ≤ value (Position se) ≤ last_position s.
Proof.
  intros Hs Hse. pose proof (intact_Inv _ _ Hs). destruct Hs as [[_ Hlog _] _ _].
  by eapply holds_log_position.
Qed.

(** Positions count the events. *)
Lemma intact_length log s : intact log s → last_position s = Z.of_nat (length log).
Proof.
  intros Hs. pose proof (last_position_nonneg s (intact_Inv _ _ Hs)) as Hnn.
  pose proof (intact_txs _ _ Hs) as Htxs.
  assert (((λ se, value (Position se)) <$> log) ≡ₚ seqZ 1 (last_position s)) as Hp.
  { apply NoDup_Permutation; [apply ascending_NoDup, Hs|apply NoDup_seqZ|].
    intros p. rewrite elem_of_seqZ, list_elem_of_fmap. split.
    - intros (se&->&Hse). pose proof (intact_positions _ _ _ Hs Hse). lia.
    - intros Hrange. destruct (intact_gapless _ _ Hs p) as [r [Hr|(j&t&Hj&_)]]; [lia| |].
      + apply (represents_log _ _ (intact_represents _ _ Hs)) in Hr as (se&?&?&_). by exists se.
      + by rewrite Htxs, lookup_empty in Hj. }
  apply Permutation_length in Hp. rewrite length_fmap, length_seqZ in Hp. lia.
Qed.

Lemma intact_empty : intact [] empty_server.
Proof.
  split; [apply empty_represents| |constructor].
  intros p Hp. unfold last_position in Hp. cbn in Hp. lia.
Qed.

(** ** Appends *)

Lemma run_Append_total st i commands s :
  representable commands → quiescent ∅ s →
  last_position s + Z.of_nat (length (all_events commands)) < two63 →
  ∃ r s', run i [] (PgStore.Append st commands) s = Some (r, s').
Proof.
  intros Hrep Hq Hroom.
  destruct (validate_all_spec commands) as [[Hv Hvalid]|(e&cmd&c&E&_)].
  2: { unfold PgStore.Append. rewrite E. by do 2 eexists. }
  destruct (decide (all_events commands = [])) as [Hz|Hne].
  - unfold PgStore.Append. rewrite Hv. cbn [lift try_bind prog_bind].
    rewrite totalEvents_length, Hz. by do 2 eexists.
  - destruct (run_Append_returns st i commands s) as (r&s'&E&_); eauto.
Qed.

Lemma stands_fresh i s n : txs s = ∅ → stands i (mkStanding false false false n) s.
Proof. intros Htxs. split_and!; [done|done|]. intros _ t. by rewrite Htxs, lookup_empty. Qed.

Lemma intact_append st log s commands :
  intact log s → ordinary commands →
  Z.of_nat (length log + length (all_events commands)) < two63 →
  ∃ r log' s', run 0 [] (PgStore.Append st commands) s = Some (r, s') ∧ intact log' s' ∧
    evolves s s' ∧ append_contract log commands r log' ∧ healthy r.
Proof.
  intros Hs [Hrep Hdec] Hlen. pose proof (intact_length _ _ Hs) as Hlast.
  destruct Hs as [Hs Hgap Hlog]. pose proof (represents_quiescent _ _ Hs) as Hq.
  destruct (run_Append_total st 0 commands s) as (r&s'&Hrun); [done|done|lia|].
  destruct (run_calm 0 0 (PgStore.Append st commands) _ s _ r s'
    (calm_Append st commands false Hrep) (stands_fresh 0 s _ (quiescent_txs _ _ Hq)))
    as (a'&Hfault&Hgo); [cbn; lia|done|].
  pose proof (run_evolves st 0 commands s log [] r s' Hrep Hs (Forall_nil_2 _) Hrun) as Hev.
  destruct (run_contract st 0 commands s log [] r s' Hrep Hs (Forall_nil_2 _) Hrun)
    as (log'&Hs'&[Hc|(msg&pos&->&_)]); [|done].
  exists r, log', s'. split_and!; [done| |done|done|].
  - split; [done|by apply Hgo|by eapply contract_decodable].
  - by destruct Hc.
Qed.

(** *** While a read is open

    The transaction of an iterator holds no locks and has no rows: it does not
    show. *)

Lemma grantable_reader i l s : i ≠ 1%nat → txs s !! 1%nat = None →
  grantable i l (set_tx 1 empty_tx s) ↔ grantable i l s.
Proof.
  intros Hi Hn. unfold grantable. cbn. rewrite map_Forall_insert by done. split; [by intros [_ ?]|].
  intros H. split; [|done]. right. constructor.
Qed.

Lemma exec_ok_reader i c s : i ≠ 1%nat → txs s !! 1%nat = None →
  exec_ok i c (set_tx 1 empty_tx s) = prod_map id (set_tx 1 empty_tx) <$> exec_ok i c s.
Proof.
  intros Hi Hn.
  assert (∀ t, set_tx i t (set_tx 1 empty_tx s) = set_tx 1 empty_tx (set_tx i t s)) as Hset
    by (intros t; unfold set_tx; cbn; by rewrite insert_insert_ne).
  destruct c as [|k excl| | |rw| |ch pl| | |]; cbn; rewrite ?lookup_insert_ne by done;
    try (destruct (txs s !! i) as [t|] eqn:Ht; cbn; [|done]).
  - by rewrite Hset.
  - rewrite (decide_ext _ (grantable i (k, excl) s)) by (by apply grantable_reader).
    case_decide; [|done]. cbn. by rewrite Hset.
  - done.
  - unfold visible. cbn. by rewrite lookup_insert_ne.
  - destruct (nextval (seq_last s)) as [p|]; [|done]. cbn. unfold insert_row, set_tx. cbn.
    by rewrite insert_insert_ne.
  - by destruct (currvals s !! i).
  - by rewrite Hset.
  - unfold commit_tx, set_tx. cbn. by rewrite delete_insert_ne.
  - done.
  - unfold drop_tx, set_tx. cbn. by rewrite delete_insert_ne.
Qed.

Lemma run_reader {A} i (p : prog A) s x s' : i ≠ 1%nat → txs s !! 1%nat = None →
  run i [] p s = Some (x, s') →
  run i [] p (set_tx 1 empty_tx s) = Some (x, set_tx 1 empty_tx s').
Proof.
  intros Hi. revert s. induction p as [y|c k IH]; intros s Hn; cbn [run]; [by intros [= -> ->]|].
  change (exec (mjoin (head [])) i c) with (exec_ok i c). rewrite exec_ok_reader by done.
  destruct (exec_ok i c s) as [[r s1]|] eqn:E; [|done]. cbn. apply IH.
  by rewrite (proj2 (exec_ok_own i c s r s1 E)).
Qed.

Definition pg_holds (o : option cursorIterator) (log : list SequencedEvent) (s : server) : Prop :=
  match o with
  | None => intact log s
  | Some _ => txs s !! 1%nat = Some empty_tx ∧ intact log (drop_tx 1 s)
  end.

Lemma set_drop_tx i t s : txs s !! i = Some t → set_tx i t (drop_tx i s) = s.
Proof. intros Ht. destruct s. unfold set_tx, drop_tx. cbn in *. by rewrite insert_delete_id. Qed.

Lemma drop_set_tx i t s : txs s !! i = None → drop_tx i (set_tx i t s) = s.
Proof. intros Ht. destruct s. unfold set_tx, drop_tx. cbn in *. by rewrite delete_insert_id. Qed.

Lemma drop_evolves i s : evolves s (drop_tx i s).
Proof. split; [done|done|by intros p r ?%allocated_drop|done]. Qed.

Lemma reader_evolves s s' : txs s !! 1%nat = None → txs s' !! 1%nat = None → evolves s s' →
  evolves (set_tx 1 empty_tx s) (set_tx 1 empty_tx s').
Proof.
  intros Hn Hn' [Ht Hl Ha Hw]. split; [done|done| |done].
  intros p r. rewrite !allocated_begin by done. by apply Ha.
Qed.

Lemma pg_append st o log s commands :
  pg_holds o log s → ordinary commands →
  Z.of_nat (length log + length (all_events commands)) < two63 →
  ∃ r log' s', run 0 [] (PgStore.Append st commands) s = Some (r, s') ∧ pg_holds o log' s' ∧
    evolves s s' ∧ append_contract log commands r log' ∧ healthy r.
Proof.
  destruct o as [it|]; cbn [pg_holds]; [|by apply intact_append].
  intros [Ht Hs] Hord Hlen.
  destruct (intact_append st log _ commands Hs Hord Hlen) as (r&log'&s'&Hrun&Hs'&Hev&?&?).
  assert (∀ l x, intact l x → txs x !! 1%nat = None) as Hn
    by (intros l x Hx; by rewrite (intact_txs _ _ Hx), lookup_empty).
  apply run_reader in Hrun; [|done|by eapply Hn]. rewrite set_drop_tx in Hrun by done.
  exists r, log', (set_tx 1 empty_tx s'). split_and!; [done| |..|done|done].
  - cbn. by rewrite lookup_insert_eq.
  - rewrite drop_set_tx by (by eapply Hn). done.
  - rewrite <-(set_drop_tx 1 empty_tx s) at 1 by done. apply reader_evolves; [by eapply Hn..|done].
Qed.

(** ** Reads *)

Section read.
Context (st : Store) (i : nat) (q : Query) (opts : ReadOptions).
Context (log : list SequencedEvent) (s : server).
Hypothesis Hs : intact log s.
Hypothesis Hwf : query_wf q.
Hypothesis Hsimple : simple_query q.
Hypothesis Hfits : after_fits_opts opts.

Let Hsingle : single_tags q := proj1 Hsimple.

(** A read leaves the transaction of its cursor, without rows, and what there
    was. *)
Lemma read_leaves it s' : run i [] (PgRead.Read st [] q opts) s = Some (Ok it, s') →
  txs s' !! i = Some empty_tx ∧ intact log (drop_tx i s') ∧ evolves s s'.
Proof.
  intros Hrun. pose proof Hs as [Hr Hgap Hdec]. pose proof (intact_txs _ _ Hs) as Htxs.
  destruct (read_outcome st i [] q opts s log [] Hr Hfits (Ok it) s' (Forall_nil_2 _) Hrun)
    as (HI'&Hlegal&Hev&[Ht _]&_).
  destruct (PgSequentialRead.read_snapshot st i [] q opts s log [] Hr Hfits (Ok it) s' (Forall_nil_2 _) Hrun it eq_refl)
    as [Htab _].
  assert (last_position s < two63) as Hlast by (by eapply last_position_range, intact_Inv).
  destruct (run_calm 0 i (PgRead.Read st [] q opts) _ s _ (Ok it) s'
    (reads_Read st [] q opts (mkStanding false false false 0) eq_refl) (stands_fresh i s 0 Htxs)) as (a'&Hclean&Hgo);
    [cbn; lia|done|].
  pose proof (goes_rollback 0 i s' a' (goes_stands _ _ _ _ _ _ Hgo) Hclean) as Hdrop.
  split_and!; [done| |done]. split; [split| |done].
  - split; [by apply drop_inv| |done|].
    + cbn. apply map_eq. intros j. rewrite lookup_empty. destruct (decide (j = i)) as [->|Hj].
      { by rewrite lookup_delete_eq. }
      rewrite lookup_delete_ne, (proj1 (goes_untouched _ _ _ _ _ _ Hgo j Hj)) by done.
      by rewrite Htxs, lookup_empty.
    + intros h1 j new h2 E. by apply (Hlegal h1 j new h2).
  - cbn. rewrite Htab. apply Hr.
  - apply Hr.
  - by apply Hdrop, Hgo.
Qed.

Lemma run_read : ∃ it s', run i [] (PgRead.Read st [] q opts) s = Some (Ok it, s') ∧
  txs s' !! i = Some empty_tx ∧ intact log (drop_tx i s') ∧ evolves s s' ∧
  ∃ it', Collect (collect_fuel it) it =
    Some (Ok (stored_at <$> matchingEvents log q opts, None), it').
Proof.
  destruct (runs_run i (PgRead.Read st [] q opts) s _ (runs_Read st i [] q opts s
    (intact_Inv _ _ Hs) (intact_txs _ _ Hs) Hfits (proj2 Hsimple))) as (r&s'&Hrun&[it ->]).
  destruct (read_leaves it s' Hrun) as (?&?&?). exists it, s'. split_and!; [done..|].
  pose proof Hs as [Hr _ Hdec].
  destruct (PgSequentialRead.read_snapshot st i [] q opts s log [] Hr Hfits (Ok it) s' (Forall_nil_2 _) Hrun it eq_refl)
    as (_&h&Hdone).
  destruct (collect_read q opts [] s s' log h it Hr Hdone Hwf Hsingle (collect_fuel it))
    as (it'&E&_); [done|constructor| |by exists it'].
  rewrite (read_cursor_rows q opts [] s s' log h it Hr Hdone Hwf Hsingle).
  unfold collect_fuel. cbn. rewrite length_fmap. lia.
Qed.
End read.

(** Events as the store gives them back. *)
Lemma stored_same log : Forall2 same_event log (stored_at <$> log).
Proof.
  induction log as [|se log IH]; [constructor|]. cbn. constructor; [|done].
  split_and!; [done|done|]. intros d Hd. cbn. by rewrite Hd.
Qed.

(** ** Subscriptions *)

Definition pg_sub_ok (q : Query) (p : SequencePosition) (dl : list SequencedEvent)
    (it : subscribeIterator) (s : server) : Prop :=
  sub_inv q (value p) dl it s ∧ query_wf q ∧ simple_query q ∧ 0 ≤ value p < two63.

Lemma owed_filter log q p :
  owed log q p = filter (selected q (mkReadOptions false (Some p) 0)) log.
Proof. unfold owed. by rewrite matchingEvents_selection. Qed.

Lemma elem_of_owed log q p se : se ∈ owed log q p ↔
  se ∈ log ∧ value p < value (Position se) ∧ event_matches q (se_Event se).
Proof. rewrite owed_filter, list_elem_of_filter. unfold selected. cbn. tauto. Qed.

Lemma owed_ascending log q p : ascending log → ascending (owed log q p).
Proof. intros Hasc. rewrite owed_filter. by apply StronglySorted_filter. Qed.

Definition upto (h : Z) : list SequencedEvent → list SequencedEvent :=
  filter (λ se, value (Position se) ≤ h).

Lemma elem_of_upto h l se : se ∈ upto h l ↔ se ∈ l ∧ value (Position se) ≤ h.
Proof. unfold upto. rewrite list_elem_of_filter. tauto. Qed.

Lemma ascending_upto h l : ascending l → ∃ rest, l = upto h l ++ rest ∧
  Forall (λ se, h < value (Position se)) rest.
Proof.
  unfold ascending. induction 1 as [|se l Hl (rest&IH&Hrest) Hse]; [by exists []|].
  unfold upto in *. destruct (decide (value (Position se) ≤ h)).
  - exists rest. rewrite filter_cons_True by done. cbn. split; [by f_equal|done].
  - exists (se :: l). rewrite filter_cons_False by done.
    assert (filter (λ se, value (Position se) ≤ h) l = []) as ->.
    { apply filter_none. intros se' Hse'. rewrite Forall_forall in Hse.
      specialize (Hse se' Hse'). unfold pos_lt in Hse. lia. }
    split; [done|]. constructor; [lia|]. eapply Forall_impl; [exact Hse|].
    intros se'. unfold pos_lt. lia.
Qed.

Section owed.
Context (q : Query) (p : SequencePosition) (log : list SequencedEvent) (s : server).
Hypothesis Hs : intact log s.
Hypothesis Hsingle : single_tags q.

Lemma collect_owed l : (∀ se, se ∈ l → se ∈ log) →
  collect_rows (event_row <$> l) = Ok (stored_at <$> l).
Proof.
  intros Hl. pose proof (last_position_range s (intact_Inv _ _ Hs)).
  apply collect_event_rows, Forall_forall. intros se Hse%Hl.
  pose proof (intact_positions _ _ _ Hs Hse). pose proof (intact_decodable _ _ Hs) as Hdec.
  rewrite Forall_forall in Hdec. split; [lia|by apply Hdec].
Qed.

(** What a subscription has seen, in terms of the log. *)
Lemma streaming_owed seen : streaming q (value p) seen s →
  ∃ h, seen = stored_at <$> upto h (owed log q p).
Proof.
  intros (h&l&[Hc Hsort Hl _]). exists h.
  assert (l = event_row <$> upto h (owed log q p)) as ->.
  { apply (row_order_unique false); [done| |].
    - apply event_rows_sorted. apply StronglySorted_filter, owed_ascending, Hs.
    - intros [p' r]. rewrite Hl, list_elem_of_fmap. setoid_rewrite elem_of_upto.
      setoid_rewrite elem_of_owed. rewrite (represents_log _ _ (intact_represents _ _ Hs) p' r). split.
      + intros ((se&Hse&<-&<-)&Hrange&Hr). exists se. split; [done|]. split_and!; [done|lia| |lia].
        by apply row_matches_row_of, row_reaches_matches.
      + intros (se&[= -> ->]&(Hse&Hrange&Hm)&Hle). split_and!; [by exists se|lia|lia|].
        by apply row_matches_reaches, row_matches_row_of. }
  rewrite collect_owed in Hc; [by injection Hc|].
  intros se [Hse _]%elem_of_upto. by apply elem_of_owed in Hse as [? _].
Qed.
End owed.

Lemma pg_sub_owed q p dl it s log : intact log s → pg_sub_ok q p dl it s →
  ∃ l rest, owed log q p = l ++ rest ∧ Forall2 same_event l dl.
Proof.
  intros Hs ([_ _ Hst _ _]&Hwf&[Hsingle _]&_).
  destruct (streaming_owed q p log s Hs Hsingle _ Hst) as [h Hseen].
  destruct (ascending_upto h (owed log q p)) as (rest&Hrest&_); [apply owed_ascending, Hs|].
  symmetry in Hseen. apply fmap_app_inv in Hseen as (l1&l2&->&_&Hup).
  rewrite Hup in Hrest. exists l1, (l2 ++ rest). split; [by rewrite (assoc_L (++))|apply stored_same].
Qed.

Lemma run_bind {A B} i (m : prog A) (f : A → prog B) s x s1 :
  run i [] m s = Some (x, s1) → run i [] (prog_bind m f) s = run i [] (f x) s1.
Proof.
  revert s. induction m as [y|c k IH]; intros s; cbn; [by intros [= -> ->]|].
  change (exec (mjoin (head [])) i c) with (exec_ok i c).
  destruct (exec_ok i c s) as [[r s2]|]; [|done]. cbn. apply IH.
Qed.

Section next.
Context (st : Store) (stop_first cancelled : bool).
Context (q : Query) (p : SequencePosition) (log : list SequencedEvent) (s : server).
Hypothesis Hs : intact log s.
Hypothesis Hwf : query_wf q.
Hypothesis Hsimple : simple_query q.

Let Hsingle : single_tags q := proj1 Hsimple.

Lemma run_drain it : sub_query it = q → 0 ≤ value (position it) < two63 →
  ∃ s', run 2 [] (drain st [] it) s = Some (Ok (stored_at <$> owed log q (position it)), s') ∧
    intact log s' ∧ evolves s s'.
Proof.
  intros Hq Hpos. unfold drain. rewrite Hq.
  destruct (run_read st 2 q (mkReadOptions false (Some (position it)) 0) log s Hs Hwf Hsimple)
    as (readIt&s1&Hrun&Ht&Hs1&Hev&it'&Hc); [by intros pos [= <-]|].
  exists (drop_tx 2 s1). split_and!; [|done|trans s1; [done|apply drop_evolves]].
  unfold try_bind. rewrite (run_bind _ _ _ _ _ _ Hrun). cbn. by rewrite Hc.
Qed.

(** How a call of [Next] goes. *)
Definition next_goes (it : subscribeIterator) (r : next_result) : Prop :=
  match r with
  | Returned true it' _ => sub_err it' = None
  | Returned false it' _ => it' = it ∧ cancelled = true
  | Waiting it' => it' = it ∧ cancelled = false ∧ owed log q (position it) = []
  | Panicked _ => False
  end.

Lemma run_Next it dl : sub_inv q (value p) dl it s → sub_err it = None →
  ∃ r s', run 2 [] (Next st [test_turn stop_first cancelled] it) s = Some (r, s') ∧
    intact log s' ∧ evolves s s' ∧ next_goes it r.
Proof.
  intros [Hq [Hpos _] _ Hopen _] He. unfold Next.
  rewrite decide_False by (rewrite He, Hopen; naive_solver).
  destruct (pending_events it) as [|se rest] eqn:Hp.
  2: { rewrite (next_loop_pending st _ it se rest Hp). by eexists _, s. }
  destruct (cancelled && stop_first) eqn:Hc.
  { cbn [next_loop]. rewrite Hp. cbn [test_turn ended_at_head]. rewrite Hc.
    apply andb_true_iff in Hc as [Hc _]. by eexists _, s. }
  rewrite next_loop_drain by done.
  destruct (run_drain it Hq Hpos) as (s'&Hrun&Hs'&Hev).
  rewrite (run_bind _ _ _ _ _ _ Hrun).
  destruct (owed log q (position it)) as [|se rest] eqn:Howed.
  - rewrite decide_False by (cbn; lia). cbn [test_turn turn_wait].
    destruct cancelled eqn:Ec; [by eexists _, s'|]. cbn [next_loop]. rewrite Hp. by eexists _, s'.
  - rewrite decide_True by (cbn; lia). cbn [fmap list_fmap].
    rewrite (next_loop_pending st _ _ (stored_at se) (stored_at <$> rest)) by done.
    by eexists _, s'.
Qed.

(** A subscription that has nothing pending, and finds nothing after its
    position, has delivered all. *)
Lemma nothing_owed it dl : sub_inv q (value p) dl it s → pending_events it = [] →
  owed log q (position it) = [] → length (owed log q p) = length dl.
Proof.
  intros [_ [_ Hpos] Hst _ _] Hp Hnone. rewrite Hp, app_nil_r in Hst.
  destruct (streaming_owed q p log s Hs Hsingle dl Hst) as [h ->].
  destruct (ascending_upto h (owed log q p)) as (rest&Hrest&Hlt); [apply owed_ascending, Hs|].
  destruct rest as [|se rest].
  { rewrite length_fmap. rewrite Hrest at 1. by rewrite app_nil_r. }
  exfalso. apply Forall_cons in Hlt as [Hh _].
  assert (se ∈ owed log q p) as Hse by (rewrite Hrest; apply elem_of_app; right; by left).
  apply elem_of_owed in Hse as (Hse&Hp'&Hm).
  assert (¬ value (position it) < value (Position se)) as Hle.
  { intros Hlt. assert (se ∈ owed log q (position it)) as Hin by (by apply elem_of_owed).
    rewrite Hnone in Hin. by apply elem_of_nil in Hin. }
  apply Hle. rewrite Hpos. unfold resume.
  destruct (last (stored_at <$> upto h (owed log q p))) as [se'|] eqn:Hl; [|done].
  rewrite fmap_last in Hl. apply fmap_Some in Hl as (se1&Hl&->). cbn.
  apply last_Some_elem_of, elem_of_upto in Hl as [_ ?]. lia.
Qed.

Lemma pg_next it dl : pg_sub_ok q p dl it s → sub_err it = None →
  ∃ e it' s', run_next st stop_first cancelled it s = Some (e, it', s') ∧ intact log s' ∧
    evolves s s' ∧ sub_err it' = None ∧
    match e with
    | Yielded se => pg_sub_ok q p (dl ++ [se]) it' s'
    | NotYet => cancelled = false ∧ pg_sub_ok q p dl it' s' ∧ length (owed log q p) = length dl
    | Ended => cancelled = true
    end.
Proof.
  intros (Hinv&_&_&Hp) He. destruct (run_Next it dl Hinv He) as (r&s'&Hrun&Hs'&Hev&Hr).
  pose proof (intact_represents _ _ Hs) as Hrep.
  destruct (run_wp (reader_spec s) 2 [] (Next st [test_turn stop_first cancelled] it)
    (next_post 2 q (value p) dl it) s r s' (Forall_nil_2 _)
    (intact_Inv _ _ Hs) (reader_legal s log Hrep)) as (_&_&Hpost); [|exact Hrun|].
  { apply Next_wp; [|done|by eapply intact_Inv| |done]; [by right|].
    by rewrite (intact_txs _ _ Hs), lookup_empty. }
  unfold run_next. rewrite Hrun. cbn.
  destruct r as [[] it' env'|it'|msg]; cbn in Hr, Hpost; [| | |done].
  - destruct Hpost as (_&Hinv'&_). by eexists _, _, _.
  - destruct Hr as [-> ->]. by eexists _, _, _.
  - destruct Hr as (->&->&Hnone). destruct Hpost as (Hinv'&Hpend&_). eexists _, _, _.
    split_and!; [done|done|done|done|]. cbn. split_and!; [done|done|by apply (nothing_owed it)].
Qed.
End next.

(** ** The laws *)

Lemma pg_holds_intact o log s : pg_holds o log s → ∃ s0, intact log s0.
Proof. destruct o; [intros [_ ?]|intros ?]; eauto. Qed.

#[export] Instance pg_laws (st : Store) (sched : list nat) (stop_first : bool) :
  @TestStoreLaws server cursorIterator subscribeIterator _ (pg_under_test st sched stop_first).
Proof.
  refine (@Build_TestStoreLaws _ _ _ _ (pg_under_test st sched stop_first)
    pg_holds evolves pg_sub_ok _ _ _ _ _ _ _ _ _ _ _ _).
  - done.
  - intros o log s [s0 Hs]%pg_holds_intact. apply Hs.
  - intros o log s se [s0 Hs]%pg_holds_intact Hse.
    pose proof (intact_positions _ _ _ Hs Hse).
    pose proof (last_position_range s0 (intact_Inv _ _ Hs)). lia.
  - apply intact_empty.
  - intros o log s commands. apply pg_append.
  - intros log s q opts Hs _ Hwf Hsingle Hfits.
    destruct (run_read st 1 q opts log s Hs Hwf Hsingle Hfits)
      as (it&s'&Hrun&Ht&Hs'&Hev&it'&Hc).
    exists it, s', (stored_at <$> matchingEvents log q opts), it'.
    split_and!; [exact Hrun|by split|exact Hev|exact Hc|apply stored_same|].
    intros log1 s1 [_ Hs1]. split; [exact Hs1|apply drop_evolves].
  - intros log s q opts Hs Hwf Hsingle Hp.
    assert (value (default SequencePositionInitial (Subscribe_After opts)) = start_of opts) as Hstart
      by (unfold start_of; by destruct (Subscribe_After opts)).
    destruct (PgSubscribe.Subscribe st None None q opts) as [calls [it|e|msg]] eqn:Hsub;
      [|done..].
    destruct (Subscribe_inv _ _ _ _ _ _ _ s Hsub) as (Hinv&_&He); [by rewrite <-Hstart|].
    exists it, s. split_and!; [|done|done| |done].
    { change (Some ((PgSubscribe.Subscribe st None None q opts).2, s) = Some (Ok it, s)). by rewrite Hsub. }
    split_and!; [by rewrite Hstart|done|done|lia|lia].
  - intros q p dl it s s' log log' Hs Hs' Hev [Hinv Hq]. split; [|done].
    apply (sub_inv_evolves q (value p) dl it s s'); [by eapply intact_Inv..|done|done].
  - intros q p dl it s log. apply pg_sub_owed.
  - intros log s q p dl it cancelled Hs _ Hok He. pose proof Hok as (_&Hwf&Hsingle&_).
    by apply pg_next.
  - intros log s it Hs He. exists (Close st it).2, s. split_and!; [done|done|done|].
    change (sub_err (Close st it).2 = None). unfold Close. by destruct (PgSubscribe.sub_closed it).
  - intros calls rs s' Hadm Hroom Hrun.
    destruct (race_outcome_holds st sched calls rs s' Hadm Hroom Hrun) as (log&?&?&?&?).
    by exists log.
Defined.

(** ** The racers of the suite *)

(** More turns than the commands of the racers of any test. *)
Definition enough_rounds : nat := 300.

Lemma suite_races calls : calls ∈ race_calls racers →
  map_Forall (λ _, lockable) (race_tasks calls) ∧
  (total_bound (race_tasks calls) ≤ enough_rounds)%nat.
Proof.
  intros Hc. assert (forallb (λ calls,
      bool_decide (Forall (λ commands, NoDup (task_keys (TAppend commands))) calls) &&
      bool_decide (total_bound (race_tasks calls) ≤ enough_rounds)%nat)
    (race_calls racers) = true) as H by (vm_compute; reflexivity).
  rewrite forallb_forall in H. specialize (H calls (proj1 (list_elem_of_In _ _) Hc)).
  apply andb_true_iff in H as [Hkeys%bool_decide_eq_true Hbound%bool_decide_eq_true].
  split; [|done]. intros i t. rewrite race_tasks_lookup. intros (commands&Hi&->)%fmap_Some.
  split; [|done]. rewrite Forall_lookup in Hkeys. by apply (Hkeys i).
Qed.

Lemma suite_races_return st rounds calls :
  Forall (λ round, seq 0 racers ⊆ round) rounds → (enough_rounds ≤ length rounds)%nat →
  calls ∈ race_calls racers → is_Some (run_race st (mjoin rounds) calls empty_server).
Proof.
  intros Hfair Hlen Hc. destruct (suite_races calls Hc) as [Hkeys Hbound].
  apply fair_race; [by apply (race_calls_admissible racers)|done| |lia].
  eapply Forall_impl; [exact Hfair|]. intros round Hround i [t Ht]. apply Hround, elem_of_seq.
  rewrite race_tasks_lookup in Ht. apply fmap_Some in Ht as (commands&Hi%lookup_lt_Some&_).
  rewrite (race_calls_length racers calls Hc) in Hi. lia.
Qed.

(** ** Properties *)

(** C5: the Postgres store passes its conformance suite, with the stored
    procedures or by COPY, depending on the threshold of [st].  No test fails,
    for every pace at which the goroutines of the subscriptions drain them,
    every schedule of the goroutines that race, and whether or not a cancelled
    subscription reads once more; and under every schedule that gives each of
    the racing goroutines [enough_rounds] turns, all tests pass: none waits for
    goroutines that do not return. *)
Theorem postgres_passes_conformance st sched stop_first paces :
  let ts := pg_under_test st sched stop_first in
  run_test ts (Run ts) paces ≠ Fail_ ∧
  ∀ rounds, sched = mjoin rounds → Forall (λ round, seq 0 racers ⊆ round) rounds →
    (enough_rounds ≤ length rounds)%nat → run_test ts (Run ts) paces = Pass.
Proof.
  intros ts. split.
  - destruct (wpt_run_test (H0 := ts) True (Run ts) paces) as [->|[_ ->]]; [|done..].
    intros w. by apply Run_passes.
  - intros rounds -> Hfair Hlen.
    destruct (wpt_run_test (H0 := ts) False (Run ts) paces) as [?|[[] _]]; [|done].
    intros w. apply Run_passes. intros calls Hc Hn.
    destruct (suite_races_return st rounds calls Hfair Hlen Hc) as [[rs s] E].
    change (run_race st (mjoin rounds) calls empty_server = None) in Hn. congruence.
Qed.

(** *** Witness: racers that take turns, one command each *)

Definition round_robin : list (list nat) := replicate enough_rounds (seq 0 racers).

Lemma round_robin_fair : Forall (λ round, seq 0 racers ⊆ round) round_robin.
Proof. by apply Forall_replicate. Qed.

Lemma postgres_passes_conformance_witness :
  (let ts := pg_under_test w_store (mjoin round_robin) true in
   run_test ts (Run ts) [3; 0; 1]%nat = Pass) ∧
  (let ts := pg_under_test w_copy_store (mjoin round_robin) false in
   run_test ts (Run ts) [] = Pass).
Proof.
  assert (enough_rounds ≤ length round_robin)%nat as Hlen
    by (unfold round_robin; by rewrite length_replicate).
  split.
  - exact (proj2 (postgres_passes_conformance w_store (mjoin round_robin) true [3; 0; 1]%nat)
      round_robin eq_refl round_robin_fair Hlen).
  - exact (proj2 (postgres_passes_conformance w_copy_store (mjoin round_robin) false [])
      round_robin eq_refl round_robin_fair Hlen).
Defined.
